(* ===== verification/_CoqProject ===== *)
-Q . S2P
Prelude.v
Interfaces.v
SafeLoop.v
SortedSpec.v
RBTree.v
RBShape.v
RBRotate.v
RBInsert.v
RBRemove.v
RBFind.v
RBSet.v
RBProps.v
TailQueue.v
Fifo.v
QueueProps.v
Links.v
SList.v
STailQueue.v
DList.v
QueueSafe.v
Splay.v
SplayShape.v
SplayStep.v
SplayOps.v
SplayProps.v
TreeEquiv.v
Kernel.v
Coroutine.v
CoroutineSpec.v
ScheduleSpec.v
ToyOS.v
ScheduleProps.v
Stack.v
CpuSwitch.v
CpuSwitchProps.v
Switch.v
Trace.v
Hoare.v
Hooks.v
Socket.v
SocketProps.v
Machine.v
CString.v
Client.v
Sane.v
ApiSafe.v
RunSafe.v
MachineSafe.v
Boot.v
SystemProps.v
WebSocket.v
WebSocketProps.v
Http.v
Cgi.v
HttpParse.v
HttpLines.v
HttpRequest.v
HttpProps.v
CgiProps.v
EchoServer.v
SmallSamples.v
Mysql.v
MysqlProps.v
Redis.v
Httpd.v
SharedMemory.v
LockProtocol.v
HttpdProps.v
ServerMulcore.v
ServerMulcoreProps.v
HttpMulcore.v
HttpMulcoreProps.v
HttpEpoll.v
HttpEpollProps.v
Processes.v
Mains.v
MainsProps.v
Bench.v
BenchProps.v
Samples.v
