(* ===== verification/Prelude.v ===== *)
(** * NtyCo: coroutines for network programs, modelled and verified

    NtyCo (src/core) runs coroutines on one thread: a coroutine that would block on a
    descriptor registers it with epoll, puts itself into the wait tree and switches to the
    scheduler, which resumes it when the descriptor is ready; sleeping coroutines are in a
    tree of deadlines, ready ones in a queue. The samples (src/sample) are servers
    and clients on top of it.

    ** How C is modelled

    A C function is a function [S -> res (A * S)] on an explicit memory ([ST], this file):
    [Ok] is a normal end, [Err] a null or dangling pointer, a failed assertion, other
    undefined behaviour, a call of exit, or lack of fuel. Pointers are [option positive],
    objects are entries of finite maps. [wp m Q s] says that [m] ends normally with [Q]
    (so it excludes all errors, lack of fuel included), [wpe E m Q s] allows the errors in
    [E]. Code that switches is an interaction tree (Switch.v) whose events are operations on
    the memory, system calls and the switch itself. The system is a parameter, the class
    [OS] of Kernel.v; [OSLaws] states the documented behaviour the proofs rely on, and
    ToyOS.v is a concrete system that has it and runs the examples. Integers keep their
    width through [u32], [u64] and [i32] where the code can wrap.

    ** The parts

    - src/core/nty_tree.h. Red-black trees: RBTree.v (every RB_ macro on a pointer-level
      memory), RBShape.v (shapes, balance and order), RBRotate.v, RBInsert.v, RBRemove.v,
      RBFind.v (what each macro does to a shape), RBSet.v (the laws other parts use), RBProps.v
      (the theorems, and the traversals that remove elements). Splay trees: Splay.v, SplayShape.v, SplayStep.v, SplayOps.v,
      SplayProps.v, in the same order. SortedSpec.v is the specification both share, a
      sorted list, and TreeEquiv.v shows that a client cannot tell the two apart.
    - src/core/nty_queue.h. TailQueue.v, Fifo.v and QueueProps.v (TAILQ_), Links.v (the
      memory and the loops the other lists share), SList.v (SLIST_), STailQueue.v (STAILQ_)
      and DList.v (LIST_): operations on a pointer-level memory, and their refinement of
      operations on lists. QueueSafe.v has the traversals whose body may unlink the element it
      is given (their loop, which the trees share, is in SafeLoop.v) and the checks of a build
      with INVARIANTS.
    - src/core/nty_coroutine.h, nty_coroutine.c, nty_schedule.c, nty_epoll.c. Coroutine.v has
      the data (the records [nty_coroutine], [nty_schedule], the status bits) and every
      function that does not switch; it uses trees and queues through the classes of
      Interfaces.v, whose laws RBSet.v and Fifo.v prove of the macros. CoroutineSpec.v,
      ScheduleSpec.v and ScheduleProps.v specify these functions, and the macros that pack a
      descriptor and its events (Module [FdKey]). Stack.v is the stack all coroutines share, with
      [_save_stack] and [_load_stack], byte for byte. CpuSwitch.v and CpuSwitchProps.v are the
      other build, without [_USE_UCONTEXT]: [_switch] in assembly for two processors, the first
      context of a coroutine, and madvise on its own stack. Machine.v has
      what resumes coroutines: [nty_coroutine_resume], [_exec] and the loops of
      [nty_schedule_run]; the program a coroutine has left to run stands for its context.
    - src/core/nty_socket.c. Socket.v: [nty_poll_inner], the nty_ functions and the
      hooked functions of the C library (Module [Hook]); Hooks.v: the pointers they reach the
      system's functions through, and [init_hook]. Trace.v and SocketProps.v reason
      about the system calls of a run.
    - Safety of whole programs. Hoare.v has triples over interaction trees that describe
      the state at each switch; Sane.v the invariant of the scheduler; ApiSafe.v shows that
      every call of the library keeps it, RunSafe.v and MachineSafe.v that the scheduling
      loop does, Boot.v starts it, SystemProps.v states the results.
    - src/sample, the tools. Client.v: programs over the calls of the library and the system,
      with a logic for all their runs ([every_call]) and for the run in a given environment
      ([yields], [ends]); CString.v: bytes, character arrays, decimal numbers; SharedMemory.v:
      processes that share a segment, interleaved in every way; LockProtocol.v: programs that
      keep to a lock in such a segment exclude each other.
    - src/sample, servers of one process. WebSocket.v and WebSocketProps.v
      (nty_websocket_server.c). Http.v, Cgi.v, HttpProps.v and CgiProps.v
      (nty_http_server.c), with what other HTTP servers share in HttpParse.v (the request
      line), HttpLines.v (reading a line, against the interface [Reads]) and HttpRequest.v
      (answering a request, whichever functions answer it). EchoServer.v (nty_server.c),
      SmallSamples.v (hook_tcpserver.c and nty_client.c).
    - src/sample, servers of several processes. Httpd.v and HttpdProps.v (ntyco_httpd.c);
      ServerMulcore.v and ServerMulcoreProps.v (nty_server_mulcore.c); HttpMulcore.v and
      HttpMulcoreProps.v (nty_http_server_mulcore.c); HttpEpoll.v and HttpEpollProps.v
      (nty_http_epoll.c, which does without the library). Functions that are copied from
      one file to another are one definition, and the copies refer to it. How their processes
      come to be: Processes.v (programs that fork, interleaved with what runs already),
      Mains.v (the [main] of each of the four, with [init_shmvalue] and [process_bind]) and
      MainsProps.v.
    - src/sample/nty_bench.c. Bench.v and BenchProps.v: the load generator.
    - Clients of databases. Mysql.v and MysqlProps.v (nty_mysql_oper.c, nty_mysql_client.c),
      Redis.v (nty_rediscli.c): programs over the calls of libraries that are not in the
      repository, which are events like those of the system.
    - Samples.v runs the servers and the client on the scheduler.

    ** What is proved

    - Containers: each macro family refines lists: any sequence of allowed operations leaves
      the list the same sequence leaves on a list (search trees: a sorted list, with the same
      results). Red-black trees stay balanced, and searches are logarithmic. Traversals may
      remove what they visit; the checks of a build with INVARIANTS pass on every well-formed
      list and find out an element that is removed twice.
    - Scheduler: each function's behaviour on each branch (ScheduleProps.v), the order of a
      pass, the invariant of a turn, and the safety of whole programs: coroutines that
      make any calls but timed sleeps never make the library use a null or dangling pointer.
      A timed sleep does break it, and a theorem shows how.
    - Sockets: partial sends add up to exactly a prefix of the buffer; no accepted descriptor
      is lost; the event masks convert; no hooked function goes through a pointer that is not
      set yet.
    - Stack: a coroutine finds its part of the shared stack as it left it. In the build without
      [_USE_UCONTEXT] a switch away and back is to the coroutine like the call of a C function,
      on either processor; a new coroutine starts in [_exec] on its own stack; madvise spares
      the part in use when the size of the stack is a multiple of the page size, and not
      otherwise.
    - Servers of one process: they stay inside their arrays under stated conditions on what
      they receive, answer as they should, and the theorems also show where they do not: long
      frames, full buffers, last lines, leaked connections, a status line sent twice.
    - Servers of several processes, from the call of [main] on, over all interleavings and
      whatever forks succeed: of all the processes of
      ntyco_httpd.c, and of nty_http_epoll.c, at most one accepts at a time; the lock of
      nty_http_server_mulcore.c excludes nobody; the count of nty_server_mulcore.c is the number
      of open connections, that of nty_http_epoll.c drifts away from it; there are never more
      processes than one for each processor and one more.
    - Load generator: the request is the one the options ask for, options keep the types of
      the variables, every request is counted once, and the reports of the processes add up;
      long hosts, long answers and empty answers break it.
    - Clients of databases: whatever the libraries answer they keep to an order of calls and
      to their arrays, as long as images fit; an image comes back from the database unchanged.

    ** Bounds and fuel

    Loops that walk a data structure take fuel that their wrapper computes from the memory
    (from the number of its nodes or cells), and the theorems, being [wp]s, show
    that it is enough. The loops over characters in Http.v take one more turn than the array
    has bytes. The loops of the scheduler and the stretches of a coroutine between two
    switches take the fuel of [nty_schedule_run]: a server runs for ever, so the safety
    theorems hold for every amount of it. Loops of programs are [ITree.iter] and take none:
    [every_call] speaks of all their finite stretches, and [yields] and [ends] of runs that
    end.

    ** What is not modelled

    The pthread key that holds the scheduler, and with it more than one scheduler in a process;
    the places that a build with QUEUE_MACRO_DEBUG notes in the queues, and [TRASHIT], which
    is empty in others; the types of a compute scheduler, which nothing uses; what is only
    printed (but for the announcement of nty_bench.c), and closing files. In a build without
    [_USE_UCONTEXT], [_exec] and the loops are the text of the other build and are modelled
    once, and the allocation of a stack for each coroutine, with its failure, is left out. In the samples:
    heap blocks that only carry an argument; branches that are not compiled ([#else] parts
    of nty_http_server_mulcore.c, nty_http_epoll.c and nty_bench.c); the [main] functions of
    the database clients, which create one coroutine each; [getopt_long], a parameter, and
    [fdopen] in nty_bench.c, whose coroutines' additions to the counters of a process are
    summed up rather than interleaved; and the MySQL and Redis libraries themselves, which
    are not in the repository: nothing is assumed of them but what a theorem names. *)

From stdpp Require Export base tactics numbers list gmap strings sorting.

(** Destruct conjunctions and existentials of the context. *)
Ltac split_hyps :=
  repeat match goal with
    | H : _ ∧ _ |- _ => destruct H
    | H : ∃ _, _ |- _ => destruct H
    end.

(** * Errors and the state-and-error monad

    C code is run by functions [S -> res (A * S)]: [S] is the memory the code
    works on, [Ok] a normal end, [Err] the ways a run can go wrong. *)

Inductive error : Type :=
  | NullDeref        (* a NULL pointer is dereferenced *)
  | Dangling         (* a pointer to memory that is not allocated is dereferenced *)
  | AssertFail       (* a C assert fails: the process aborts *)
  | Undefined        (* other undefined behaviour, e.g. an out-of-range conversion *)
  | ProcExit         (* the program calls exit *)
  | OutOfFuel.       (* the fuel given to a loop is used up *)

#[export] Instance error_eq_dec : EqDecision error.
Proof. solve_decision. Defined.

Inductive res (A : Type) : Type :=
  | Ok (a : A)
  | Err (e : error).
Arguments Ok {A} a.
Arguments Err {A} e.

#[export] Instance res_ret : MRet res := λ A a, Ok a.
#[export] Instance res_bind : MBind res := λ A B f r,
  match r with Ok a => f a | Err e => Err e end.

Definition ST (S A : Type) : Type := S → res (A * S).

#[export] Instance ST_ret {S} : MRet (ST S) := λ A a s, Ok (a, s).
#[export] Instance ST_bind {S} : MBind (ST S) := λ A B f m s,
  match m s with Ok (a, s') => f a s' | Err e => Err e end.

Section monad_ops.
Context {S : Type}.

Definition throw {A} (e : error) : ST S A := λ _, Err e.
Definition gets {A} (f : S → A) : ST S A := λ s, Ok (f s, s).
Definition modify (f : S → S) : ST S unit := λ s, Ok (tt, f s).
Definition of_res {A} (r : res A) : ST S A := λ s,
  match r with Ok a => Ok (a, s) | Err e => Err e end.
(** [assert(b)] of C. *)
Definition c_assert (b : bool) : ST S unit :=
  if b then mret tt else throw AssertFail.
Definition when (b : bool) (m : ST S unit) : ST S unit :=
  if b then m else mret tt.
End monad_ops.

(** [for (i = 0; i < n; i ++) f(l[i]);] *)
Fixpoint for_each {S A} (l : list A) (f : A → ST S unit) : ST S unit :=
  match l with [] => mret tt | x :: l => f x;; for_each l f end.

(** Run a computation on a component of the state. *)
Definition zoom {S T A} (prj : S → T) (upd : T → S → S) (m : ST T A) : ST S A := λ s,
  match m (prj s) with Ok (a, t) => Ok (a, upd t s) | Err e => Err e end.

(** [p ? _ : _] on the sign of a C [int] comparison result is written with [Z]. *)

(** * Total-correctness triples

    [wp m Q s]: started in [s], [m] ends normally in a state that satisfies [Q].
    It excludes every error, lack of fuel included. *)
Definition wp {S A} (m : ST S A) (Q : A → S → Prop) (s : S) : Prop :=
  match m s with Ok (a, s') => Q a s' | Err _ => False end.

(** [wlp m Q s] allows the errors that satisfy [E]. *)
Definition wpe {S A} (E : error → Prop) (m : ST S A) (Q : A → S → Prop) (s : S) : Prop :=
  match m s with Ok (a, s') => Q a s' | Err e => E e end.

Section wp_rules.
Context {S : Type}.

Lemma wp_ret {A} (a : A) (Q : A → S → Prop) s : Q a s → wp (mret a) Q s.
Proof. done. Qed.

Lemma wp_bind {A B} (m : ST S A) (f : A → ST S B) Q s :
  wp m (λ a, wp (f a) Q) s → wp (m ≫= f) Q s.
Proof. unfold wp, mbind, ST_bind. by destruct (m s) as [[a s']|]. Qed.

Lemma wp_unbind {A B} (m : ST S A) (f : A → ST S B) Q s :
  wp (m ≫= f) Q s → wp m (λ a, wp (f a) Q) s.
Proof. unfold wp, mbind, ST_bind. by destruct (m s) as [[a s']|]. Qed.

Lemma wp_mono {A} (m : ST S A) (P Q : A → S → Prop) s :
  wp m P s → (∀ a s', P a s' → Q a s') → wp m Q s.
Proof. unfold wp. destruct (m s) as [[a s']|]; naive_solver. Qed.

Lemma wp_seq {A B} (m : ST S A) (f : A → ST S B) P Q s :
  wp m P s → (∀ a s', P a s' → wp (f a) Q s') → wp (m ≫= f) Q s.
Proof. intros Hm Hf. apply wp_bind. by eapply wp_mono. Qed.

Lemma wp_gets {A} (f : S → A) (Q : A → S → Prop) s : Q (f s) s → wp (gets f) Q s.
Proof. done. Qed.

Lemma wp_modify f (Q : unit → S → Prop) s : Q tt (f s) → wp (modify f) Q s.
Proof. done. Qed.

Lemma wp_of_res {A} r (a : A) (Q : A → S → Prop) s :
  r = Ok a → Q a s → wp (of_res r) Q s.
Proof. intros ->. done. Qed.

Lemma wp_ok {A} (m : ST S A) Q s :
  wp m Q s ↔ ∃ a s', m s = Ok (a, s') ∧ Q a s'.
Proof. unfold wp. destruct (m s) as [[a s']|]; naive_solver. Qed.

Lemma bind_ok {A B} (m : ST S A) (f : A → ST S B) s a s' :
  m s = Ok (a, s') → (m ≫= f) s = f a s'.
Proof. unfold mbind, ST_bind. by intros ->. Qed.

Lemma bind_assoc {A B C} (m : ST S A) (f : A → ST S B) (g : B → ST S C) s :
  ((m ≫= f) ≫= g) s = (m ≫= λ x, f x ≫= g) s.
Proof. unfold mbind, ST_bind. by destruct (m s) as [[]|]. Qed.

Lemma bind_ext {A B} (m : ST S A) (f g : A → ST S B) s :
  (∀ a s, f a s = g a s) → (m ≫= f) s = (m ≫= g) s.
Proof. unfold mbind, ST_bind. intros E. destruct (m s) as [[]|]; [apply E|done]. Qed.

Lemma bind_err {A B} (m : ST S A) (f : A → ST S B) s e : m s = Err e → (m ≫= f) s = Err e.
Proof. unfold mbind, ST_bind. by intros ->. Qed.

Lemma wpe_bind {A B} E (m : ST S A) (f : A → ST S B) Q s :
  wpe E m (λ a, wpe E (f a) Q) s → wpe E (m ≫= f) Q s.
Proof. unfold wpe, mbind, ST_bind. by destruct (m s) as [[a s']|]. Qed.

Lemma wpe_wp_bind {A B} E (m : ST S A) (f : A → ST S B) Q s :
  wp m (λ a, wpe E (f a) Q) s → wpe E (m ≫= f) Q s.
Proof. unfold wp, wpe, mbind, ST_bind. by destruct (m s) as [[a s']|]. Qed.

(** A computation that can only fail with [e]. *)
Lemma wpe_err {A} (m : ST S A) e s : wpe (λ e', e' = e) m (λ _ _, False) s → m s = Err e.
Proof. unfold wpe. destruct (m s) as [[a s']|]; [done|by intros ->]. Qed.

Lemma wpe_mono {A} E (m : ST S A) (P Q : A → S → Prop) s :
  wpe E m P s → (∀ a s', P a s' → Q a s') → wpe E m Q s.
Proof. unfold wpe. destruct (m s) as [[a s']|]; naive_solver. Qed.

Lemma wpe_of_wp {A} E (m : ST S A) Q s : wp m Q s → wpe E m Q s.
Proof. unfold wp, wpe. by destruct (m s) as [[a s']|]. Qed.
End wp_rules.

(** * Pointers and machine integers *)

(** Addresses of objects; a C pointer is an address or [NULL]. *)
Abbreviation addr := positive.
Abbreviation ptr := (option positive).
Abbreviation NULL := (@None positive).

Definition u16 (z : Z) : Z := z mod 2 ^ 16.
Definition u32 (z : Z) : Z := z mod 2 ^ 32.
Definition u64 (z : Z) : Z := z mod 2 ^ 64.
(** Two's complement reading of the low 32 bits, C's [int]. *)
Definition i32 (z : Z) : Z := (z + 2 ^ 31) mod 2 ^ 32 - 2 ^ 31.

Lemma u64_small z : (0 ≤ z < 2 ^ 64)%Z → u64 z = z.
Proof. apply Z.mod_small. Qed.

Lemma u64_range z : (0 ≤ u64 z < 2 ^ 64)%Z.
Proof. apply Z.mod_pos_bound. lia. Qed.

Lemma i32_small z : (- 2 ^ 31 ≤ z < 2 ^ 31)%Z → i32 z = z.
Proof. intros. unfold i32. rewrite Z.mod_small; lia. Qed.

Lemma i32_range z : (- 2 ^ 31 ≤ i32 z < 2 ^ 31)%Z.
Proof. unfold i32. pose proof (Z.mod_pos_bound (z + 2 ^ 31) (2 ^ 32) ltac:(lia)). lia. Qed.

(** The result of an operation on [int]s: overflow is undefined. *)
Definition c_int (z : Z) : res Z :=
  if (- 2 ^ 31 <=? z)%Z && (z <? 2 ^ 31)%Z then Ok z else Err Undefined.

Lemma c_int_ok z : (- 2 ^ 31 ≤ z < 2 ^ 31)%Z → c_int z = Ok z.
Proof.
  intros [? ?]. unfold c_int. by rewrite (proj2 (Z.leb_le _ _)), (proj2 (Z.ltb_lt _ _)) by done.
Qed.

(** * Lists *)

Section lists.
Context {A : Type}.
Implicit Types l : list A.

Lemma NoDup_mid_remove l1 x l2 : NoDup (l1 ++ x :: l2) → NoDup (l1 ++ l2).
Proof. rewrite !NoDup_app, NoDup_cons. set_solver. Qed.

Lemma NoDup_mid_insert l1 x l2 :
  NoDup (l1 ++ l2) → x ∉ l1 ++ l2 → NoDup (l1 ++ x :: l2).
Proof. rewrite !NoDup_app, !NoDup_cons. set_solver. Qed.

Lemma NoDup_mid_replace l1 x y l2 :
  NoDup (l1 ++ x :: l2) → y ∉ l1 ++ x :: l2 → NoDup (l1 ++ y :: l2).
Proof. rewrite !NoDup_app, !NoDup_cons. set_solver. Qed.

Lemma NoDup_split_unique l1 l2 l1' l2' x :
  NoDup (l1 ++ x :: l2) → l1 ++ x :: l2 = l1' ++ x :: l2' → l1 = l1' ∧ l2 = l2'.
Proof.
  revert l1'; induction l1 as [|y l1 IH]; intros [|y' l1']; simpl; rewrite ?NoDup_cons.
  - naive_solver.
  - intros [Hx _] [= <- ->]. set_solver.
  - intros [Hy _] [= -> <-]. set_solver.
  - intros [_ Hnd] [= -> E]. destruct (IH _ Hnd E) as [-> ->]. done.
Qed.

(** Lists without common elements. *)
Definition disj l1 l2 : Prop := ∀ x, x ∈ l1 → x ∉ l2.

Lemma nd_app l1 l2 : NoDup (l1 ++ l2) → NoDup l1 ∧ disj l1 l2 ∧ NoDup l2.
Proof. by rewrite NoDup_app. Qed.
Lemma nd_cons x l : NoDup (x :: l) → (x ∉ l) ∧ NoDup l.
Proof. by rewrite NoDup_cons. Qed.
Lemma disj_app_l l1 l2 l : disj (l1 ++ l2) l → disj l1 l ∧ disj l2 l.
Proof. unfold disj. set_solver. Qed.
Lemma disj_cons_l x l1 l : disj (x :: l1) l → (x ∉ l) ∧ disj l1 l.
Proof. unfold disj. set_solver. Qed.
Lemma disj_app_r l1 l2 l : disj l (l1 ++ l2) → disj l l1 ∧ disj l l2.
Proof. unfold disj. set_solver. Qed.
Lemma disj_cons_r x l1 l : disj l (x :: l1) → (x ∉ l) ∧ disj l l1.
Proof. unfold disj. set_solver. Qed.
Lemma notin_app x l1 l2 : x ∉ (l1 ++ l2) → (x ∉ l1) ∧ (x ∉ l2).
Proof. set_solver. Qed.
Lemma notin_cons x y l : x ∉ (y :: l) → x ≠ y ∧ (x ∉ l).
Proof. set_solver. Qed.

(** Strictly increasing keys. *)
Definition sorted_by (key : A → Z) l : Prop :=
  StronglySorted (λ x y, (key x < key y)%Z) l.

Lemma sorted_by_app key l1 l2 :
  sorted_by key (l1 ++ l2) ↔
  sorted_by key l1 ∧ sorted_by key l2 ∧
  (∀ x y, x ∈ l1 → y ∈ l2 → (key x < key y)%Z).
Proof.
  unfold sorted_by. induction l1 as [|z l1 IH]; simpl.
  - split; [|naive_solver]. intros; split_and!; [constructor|done|set_solver].
  - split.
    + intros H. inversion H; subst. rewrite Forall_app, Forall_forall, Forall_forall in *.
      destruct IH as [IH _]. specialize (IH H2). split_hyps.
      split_and!; [|done|set_solver]. constructor; [done|]. by rewrite Forall_forall.
    + intros (H1 & H2 & H3). inversion H1; subst. constructor.
      * apply IH. set_solver.
      * rewrite Forall_app, Forall_forall, Forall_forall in *. set_solver.
Qed.

Lemma sorted_by_cons key x l :
  sorted_by key (x :: l) ↔ (∀ y, y ∈ l → (key x < key y)%Z) ∧ sorted_by key l.
Proof.
  unfold sorted_by. split; [intros H; inversion H; subst; rewrite Forall_forall in *; done|].
  intros [? ?]. constructor; [done|by rewrite Forall_forall].
Qed.

Lemma sorted_by_ext key key' l :
  (∀ x, x ∈ l → key x = key' x) → sorted_by key l → sorted_by key' l.
Proof.
  induction l as [|x l IH]; [constructor|]. rewrite !sorted_by_cons. intros He [Hx Hl].
  split; [|apply IH; [set_solver|done]]. intros y Hy.
  rewrite <- !He by set_solver. auto.
Qed.

Lemma sorted_by_remove key l1 x l2 :
  sorted_by key (l1 ++ x :: l2) → sorted_by key (l1 ++ l2).
Proof.
  rewrite !sorted_by_app, sorted_by_cons. intros (? & [? ?] & ?). split_and!; [done..|].
  set_solver.
Qed.

Lemma filter_all (P : A → Prop) `{∀ x, Decision (P x)} l : (∀ x, x ∈ l → P x) → filter P l = l.
Proof.
  induction l as [|x l IH]; [done|]. intros Hl. rewrite filter_cons_True by set_solver.
  rewrite IH; set_solver.
Qed.

(** Removing the element of a key. *)
Lemma sorted_by_filter key l1 x l2 :
  sorted_by key (l1 ++ x :: l2) → filter (λ y, key y ≠ key x) (l1 ++ x :: l2) = l1 ++ l2.
Proof.
  rewrite sorted_by_app, sorted_by_cons. intros (_ & [Hx _] & H1).
  rewrite filter_app, filter_cons_False by naive_solver.
  rewrite !filter_all; [done|..].
  - intros y Hy. specialize (Hx y Hy). lia.
  - intros y Hy. specialize (H1 y x Hy). assert (x ∈ x :: l2) by set_solver. naive_solver lia.
Qed.

(** Two elements of a sorted list with the same key are equal. *)
Lemma sorted_by_inj key l x y :
  sorted_by key l → x ∈ l → y ∈ l → key x = key y → x = y.
Proof.
  induction l as [|z l IH]; [set_solver|]. rewrite sorted_by_cons, !elem_of_cons.
  intros [Hz Hl] [->|Hx] [->|Hy] He; [done|..|by apply IH].
  - specialize (Hz _ Hy). lia.
  - specialize (Hz _ Hx). lia.
Qed.

Lemma sorted_by_NoDup key l : sorted_by key l → NoDup l.
Proof.
  induction l as [|x l IH]; [constructor|]. rewrite sorted_by_cons. intros [Hx Hl].
  constructor; [|auto]. intros Hin. specialize (Hx _ Hin). lia.
Qed.
End lists.

(** * Tactics *)

(** A proposition the decomposing tactics leave alone. *)
Definition kept (P : Prop) : Prop := P.

(** Break the disjointness facts of the context down to facts on single elements
    and single lists. *)
Ltac nodup_facts :=
  repeat match goal with
    | H : NoDup (_ ++ _) |- _ => apply nd_app in H; destruct H as (? & ? & ?)
    | H : NoDup (_ :: _) |- _ => apply nd_cons in H; destruct H as (? & ?)
    | H : NoDup [] |- _ => clear H
    | H : disj (_ ++ _) _ |- _ => apply disj_app_l in H; destruct H as (? & ?)
    | H : disj (_ :: _) _ |- _ => apply disj_cons_l in H; destruct H as (? & ?)
    | H : disj [] _ |- _ => clear H
    | H : disj _ (_ ++ _) |- _ => apply disj_app_r in H; destruct H as (? & ?)
    | H : disj _ (_ :: _) |- _ => apply disj_cons_r in H; destruct H as (? & ?)
    | H : disj _ [] |- _ => clear H
    | H : _ ∉ _ ++ _ |- _ => apply notin_app in H; destruct H as (? & ?)
    | H : _ ∉ _ :: _ |- _ => apply notin_cons in H; destruct H as (? & ?)
    | H : _ ∉ [] |- _ => clear H
    end.

(** Case split on membership in appended lists. *)
Ltac elem_cases :=
  repeat match goal with
    | H : _ ∈ _ ++ _ |- _ => apply elem_of_app in H; destruct H as [H|H]
    | H : _ ∈ _ :: _ |- _ => apply elem_of_cons in H; destruct H as [->|H]
    | H : _ ∈ [] |- _ => by apply not_elem_of_nil in H
    end.

(** Two addresses differ because of the disjointness facts of the context. *)
Ltac solve_ne :=
  first
    [ assumption
    | (apply not_eq_sym; assumption)
    | (intros ->; contradiction)
    | (intros ->;
       match goal with
       | Hd : disj ?a ?b, Ha : ?p ∈ ?a, Hb : ?p ∈ ?b |- False => exact (Hd p Ha Hb)
       end)
    | congruence ].
