(* ===== verification/Interfaces.v ===== *)
(** What the containers promise to the scheduler: an ordered set keyed by an integer
    (the sleep and wait trees) and a first-in first-out queue (the ready queue). The
    scheduler is written and proved against these classes; the red-black trees and the
    tail queues of the source are their instances. *)

From S2P Require Export Prelude.

(** [cmp] compares an element of key [k0] with the nodes of [L], which have keys [key]. *)
Definition compares (key : addr → Z) (k0 : Z) (cmp : addr → res Z) (L : list addr) : Prop :=
  ∀ p, p ∈ L → ∃ z, cmp p = Ok z ∧ Z.sgn z = Z.sgn (k0 - key p).

(** The place of key [k0] in a list sorted by [key]. *)
Definition slot (key : addr → Z) (k0 : Z) (l1 l2 : list addr) : Prop :=
  (∀ p, p ∈ l1 → (key p < k0)%Z) ∧ (∀ p, p ∈ l2 → (k0 < key p)%Z).

Lemma sorted_by_slot key k0 l1 x l2 :
  sorted_by key (l1 ++ l2) → slot key k0 l1 l2 → key x = k0 → sorted_by key (l1 ++ x :: l2).
Proof.
  rewrite !sorted_by_app. intros (Hb & Ha & Hba) [Hg1 Hg2] <-. rewrite sorted_by_cons.
  split_and!; try done. intros y z Hy [->|Hz]%elem_of_cons; [by apply Hg1|by apply Hba].
Qed.

(** ** Operations *)

(** A search tree and the tree entries of the allocated elements. *)
Class TreeOps (T : Type) := {
  tree_none : T;                                       (* no element allocated *)
  tree_alloc : addr → T → T;                           (* the entry of a new, zeroed element *)
  tree_release : addr → T → T;                         (* the element is freed *)
  tree_init : ST T unit;
  tree_empty : T → bool;
  tree_find : (addr → res Z) → ST T ptr;
  tree_insert : (addr → res Z) → ptr → ST T ptr;
  tree_remove : ptr → ST T ptr;
  tree_min : ST T ptr;
}.

(** A queue and the queue entries of the allocated elements. *)
Class QueueOps (T : Type) := {
  queue_none : T;
  queue_alloc : addr → T → T;
  queue_release : addr → T → T;
  queue_init : ST T unit;
  queue_empty : ST T bool;
  queue_first : ST T ptr;
  queue_last : ST T ptr;
  queue_insert_tail : ptr → ST T unit;
  queue_remove : ptr → ST T unit;
}.

(** ** Laws *)

(** [tree_rep t D l]: the elements allocated are those of [D], those in the tree are [l],
    in increasing order of key. *)
Class TreeLaws (T : Type) `{TreeOps T} := {
  tree_rep : T → gset addr → list addr → Prop;
  tree_rep_elem t D l x : tree_rep t D l → x ∈ l → x ∈ D;
  tree_rep_NoDup t D l : tree_rep t D l → NoDup l;
  tree_none_spec : wp tree_init (λ _ t, tree_rep t ∅ []) tree_none;
  tree_alloc_spec t D l x :
    tree_rep t D l → x ∉ D → tree_rep (tree_alloc x t) ({[x]} ∪ D) l;
  tree_release_spec t D l x :
    tree_rep t D l → x ∉ l → tree_rep (tree_release x t) (D ∖ {[x]}) l;
  tree_init_spec t D l : tree_rep t D l → wp tree_init (λ _ t', tree_rep t' D []) t;
  tree_empty_spec t D l : tree_rep t D l → tree_empty t = bool_decide (l = []);
  tree_find_spec t D l key k0 cmp :
    tree_rep t D l → sorted_by key l → compares key k0 cmp l →
    wp (tree_find cmp) (λ r t', t' = t ∧
      match r with
      | Some p => p ∈ l ∧ key p = k0
      | None => ∀ p, p ∈ l → key p ≠ k0
      end) t;
  tree_insert_spec t D l key k0 cmp x :
    tree_rep t D l → sorted_by key l → compares key k0 cmp l → x ∈ D → x ∉ l →
    wp (tree_insert cmp (Some x)) (λ r t',
      match r with
      | Some p => p ∈ l ∧ key p = k0 ∧ t' = t
      | None => ∃ l1 l2, l = l1 ++ l2 ∧ slot key k0 l1 l2 ∧ tree_rep t' D (l1 ++ x :: l2)
      end) t;
  tree_remove_spec t D l x :
    tree_rep t D l → x ∈ l →
    wp (tree_remove (Some x)) (λ r t', r = Some x ∧
      ∃ l1 l2, l = l1 ++ x :: l2 ∧ tree_rep t' D (l1 ++ l2)) t;
  tree_min_spec t D l : tree_rep t D l → wp tree_min (λ r t', t' = t ∧ r = head l) t;
}.

Class QueueLaws (T : Type) `{QueueOps T} := {
  queue_rep : T → gset addr → list addr → Prop;
  queue_rep_elem t D l x : queue_rep t D l → x ∈ l → x ∈ D;
  queue_rep_NoDup t D l : queue_rep t D l → NoDup l;
  queue_none_spec : wp queue_init (λ _ t, queue_rep t ∅ []) queue_none;
  queue_alloc_spec t D l x :
    queue_rep t D l → x ∉ D → queue_rep (queue_alloc x t) ({[x]} ∪ D) l;
  queue_release_spec t D l x :
    queue_rep t D l → x ∉ l → queue_rep (queue_release x t) (D ∖ {[x]}) l;
  queue_init_spec t D l : queue_rep t D l → wp queue_init (λ _ t', queue_rep t' D []) t;
  queue_empty_spec t D l :
    queue_rep t D l → wp queue_empty (λ r t', t' = t ∧ r = bool_decide (l = [])) t;
  queue_first_spec t D l :
    queue_rep t D l → wp queue_first (λ r t', t' = t ∧ r = head l) t;
  queue_last_spec t D l :
    queue_rep t D l → wp queue_last (λ r t', t' = t ∧ r = last l) t;
  queue_insert_tail_spec t D l x :
    queue_rep t D l → x ∈ D → x ∉ l →
    wp (queue_insert_tail (Some x)) (λ _ t', queue_rep t' D (l ++ [x])) t;
  queue_remove_spec t D l1 x l2 :
    queue_rep t D (l1 ++ x :: l2) →
    wp (queue_remove (Some x)) (λ _ t', queue_rep t' D (l1 ++ l2)) t;
}.
