(* ===== verification/SafeLoop.v ===== *)
(** The loops of the macros [..._FOREACH_SAFE], which read the next element before the
    body runs, so that the body may unlink the element it is given. One loop for the tail
    queues of src/core/nty_queue.h (QueueSafe.v) and the red-black trees of
    src/core/nty_tree.h (RBProps.v), whose macros expand to the same [for]. *)

From S2P Require Export Prelude.

Section safe_loop.
Context {S : Type}.

(** [for (var = ...; var && (tvar = next(var), 1); var = tvar) body]: the elements the
    body was run on. *)
Fixpoint safe_loop (next : ptr → ST S ptr) (body : addr → ST S unit) (fuel : nat) (var : ptr)
    : ST S (list addr) :=
  match fuel with
  | O => throw OutOfFuel
  | Datatypes.S fuel =>
      match var with
      | None => mret []
      | Some x =>
          tvar ← next var; body x;;
          l ← safe_loop next body fuel tvar; mret (x :: l)
      end
  end.

(** [R m l]: the memory [m] holds the sequence [l]. *)
Variables (R : S → list addr → Prop) (keep : addr → bool) (body : addr → ST S unit).

(** The elements that stay. *)
Definition kept_of (l : list addr) : list addr := filter keep l.

(** The body unlinks the element it is given, or leaves the sequence as it is. *)
Hypothesis Hbody : ∀ m l1 x l2, R m (l1 ++ x :: l2) →
  wp (body x) (λ _ m', R m' (l1 ++ kept_of [x] ++ l2)) m.

Section forward.
Variable next : ptr → ST S ptr.
Hypothesis Hnext : ∀ m l1 x l2, R m (l1 ++ x :: l2) →
  wp (next (Some x)) (λ r m', m' = m ∧ r = head l2) m.

Lemma safe_loop_forward fuel l2 : ∀ m l1,
  R m (l1 ++ l2) → length l2 < fuel →
  wp (safe_loop next body fuel (head l2)) (λ r m', r = l2 ∧ R m' (l1 ++ kept_of l2)) m.
Proof.
  revert fuel; induction l2 as [|x l2 IH]; intros [|fuel] m l1 HR Hf; simpl in Hf; [lia| |lia|].
  { apply wp_ret. by rewrite app_nil_r in *. }
  cbn [safe_loop head]. eapply wp_seq; [by eapply Hnext|]. cbv beta. intros r m' [-> ->].
  eapply wp_seq; [by apply Hbody|]. cbv beta. intros _ m' HR'. rewrite app_assoc in HR'.
  eapply wp_seq; [apply (IH fuel _ _ HR'); lia|]. cbv beta. intros r m2 [-> HR2].
  apply wp_ret. split; [done|]. rewrite <- app_assoc in HR2.
  unfold kept_of in *. by rewrite (filter_app _ [x] l2).
Qed.
End forward.

Section backward.
Variable prev : ptr → ST S ptr.
Hypothesis Hprev : ∀ m l1 x l2, R m (l1 ++ x :: l2) →
  wp (prev (Some x)) (λ r m', m' = m ∧ r = last l1) m.

Lemma safe_loop_backward fuel l1 : ∀ m l2,
  R m (l1 ++ l2) → length l1 < fuel →
  wp (safe_loop prev body fuel (last l1)) (λ r m', r = reverse l1 ∧ R m' (kept_of l1 ++ l2)) m.
Proof.
  revert fuel; induction l1 as [|x l1 IH] using rev_ind; intros [|fuel] m l2 HR Hf;
    rewrite ?length_app in Hf; simpl in Hf; try lia.
  { by apply wp_ret. }
  rewrite last_snoc, reverse_snoc. rewrite <- app_assoc in HR. cbn [safe_loop].
  eapply wp_seq; [by eapply Hprev|]. cbv beta. intros r m' [-> ->].
  eapply wp_seq; [by apply Hbody|]. cbv beta. intros _ m' HR'.
  eapply wp_seq; [apply (IH fuel _ _ HR'); lia|]. cbv beta. intros r m2 [-> HR2].
  apply wp_ret. split; [done|]. unfold kept_of in *. by rewrite filter_app, <- app_assoc.
Qed.
End backward.
End safe_loop.
