(* ===== verification/SortedSpec.v ===== *)
(** The specification the search trees of src/core/nty_tree.h share: a client that keeps
    elements under fixed keys, and the results it sees, computed on a sorted list. *)

From S2P Require Export Interfaces.

(** The operations of a client that stores elements under fixed keys. *)
Inductive setop : Type :=
  | OpInsert (x : addr)
  | OpRemove (x : addr)
  | OpFind (k : Z)
  | OpMin.

Lemma filter_ne_mid (x : addr) l1 l2 :
  NoDup (l1 ++ x :: l2) → filter (λ y, y ≠ x) (l1 ++ x :: l2) = l1 ++ l2.
Proof.
  intros Hnd. rewrite filter_app, filter_cons_False by naive_solver. nodup_facts.
  rewrite !filter_all; [done|..]; intros y Hy ->; done.
Qed.

Section client.
Variable key : addr → Z.

(** The comparison of key [k] with the nodes. *)
Definition cmp_key (k : Z) (p : addr) : res Z := Ok (k - key p)%Z.

(** The element with key [k], and the list with [x] at its place. *)
Fixpoint lookup_key (k : Z) (l : list addr) : ptr :=
  match l with
  | [] => NULL
  | y :: l => if (key y =? k)%Z then Some y else lookup_key k l
  end.
Fixpoint insert_key (x : addr) (l : list addr) : list addr :=
  match l with
  | [] => [x]
  | y :: l => if (key x <? key y)%Z then x :: y :: l else y :: insert_key x l
  end.

Definition spec_op (o : setop) (l : list addr) : ptr * list addr :=
  match o with
  | OpInsert x =>
      match lookup_key (key x) l with
      | Some y => (Some y, l)
      | None => (NULL, insert_key x l)
      end
  | OpRemove x => (Some x, filter (λ y, y ≠ x) l)
  | OpFind k => (lookup_key k l, l)
  | OpMin => (head l, l)
  end.

Fixpoint spec_ops (os : list setop) (l : list addr) : list ptr * list addr :=
  match os with
  | [] => ([], l)
  | o :: os => let '(r, l) := spec_op o l in let '(rs, l) := spec_ops os l in (r :: rs, l)
  end.

(** Inserted elements are allocated and not in the tree, removed ones are in it. *)
Definition op_ok (D : gset addr) (l : list addr) (o : setop) : Prop :=
  match o with
  | OpInsert x => x ∈ D ∧ x ∉ l
  | OpRemove x => x ∈ l
  | _ => True
  end.
Fixpoint ops_ok (D : gset addr) (l : list addr) (os : list setop) : Prop :=
  match os with [] => True | o :: os => op_ok D l o ∧ ops_ok D (spec_op o l).2 os end.

Lemma cmp_key_compares k L : compares key k (cmp_key k) L.
Proof. intros p _. by eexists. Qed.

Lemma lookup_key_some k l y :
  sorted_by key l → y ∈ l → key y = k → lookup_key k l = Some y.
Proof.
  induction l as [|z l IH]; [by intros _ ?%not_elem_of_nil|].
  rewrite sorted_by_cons. simpl. intros [Hz Hl] [->|Hy]%elem_of_cons Hk.
  - by rewrite Hk, Z.eqb_refl.
  - specialize (Hz y Hy). rewrite (proj2 (Z.eqb_neq _ _)) by lia. auto.
Qed.

Lemma lookup_key_none k l : (∀ y, y ∈ l → key y ≠ k) → lookup_key k l = NULL.
Proof.
  induction l as [|z l IH]; [done|]. intros Hl. simpl.
  rewrite (proj2 (Z.eqb_neq _ _)) by (apply Hl; set_solver). apply IH. set_solver.
Qed.

Lemma insert_key_slot x l1 l2 :
  slot key (key x) l1 l2 → insert_key x (l1 ++ l2) = l1 ++ x :: l2.
Proof.
  intros [H1 H2]. induction l1 as [|z l1 IH]; simpl.
  - destruct l2 as [|y l2]; [done|]. simpl.
    rewrite (proj2 (Z.ltb_lt _ _)); [done|]. apply H2. set_solver.
  - rewrite (proj2 (Z.ltb_ge _ _)), IH; [done|set_solver|].
    specialize (H1 z ltac:(set_solver)). lia.
Qed.
End client.

(** ** Implementations *)

Section implementation.
Context {S : Type} (run : setop → ST S ptr).

Fixpoint run_ops (os : list setop) : ST S (list ptr) :=
  match os with
  | [] => mret []
  | o :: os => r ← run o; rs ← run_ops os; mret (r :: rs)
  end.

(** A sequence of operations each of which does what the list does. *)
Lemma run_ops_spec key D (rep : S → list addr → Prop) :
  (∀ o s l, rep s l → sorted_by key l → op_ok D l o →
    wp (run o) (λ r s', r = (spec_op key o l).1 ∧ rep s' (spec_op key o l).2 ∧
      sorted_by key (spec_op key o l).2) s) →
  ∀ os s l, rep s l → sorted_by key l → ops_ok key D l os →
    wp (run_ops os) (λ rs s', rs = (spec_ops key os l).1 ∧ rep s' (spec_ops key os l).2 ∧
      sorted_by key (spec_ops key os l).2) s.
Proof.
  intros Hstep. induction os as [|o os IH]; intros s l Hr Hs Hok; simpl; [by apply wp_ret|].
  destruct Hok as [Ho Hos]. eapply wp_seq; [by apply Hstep|].
  cbv beta. intros r s1 (-> & Hr1 & Hs1). eapply wp_seq; [by apply IH|].
  cbv beta. intros rs s2 (-> & Hr2 & Hs2). apply wp_ret.
  destruct (spec_op key o l) as [r l1]. simpl in *. by destruct (spec_ops key os l1).
Qed.
End implementation.
