(* ===== verification/RBTree.v ===== *)
(** The red-black tree macros of src/core/nty_tree.h (RB_HEAD ... RB_MINMAX), on the
    memory they work on: the head and the [rbe_*] fields of every allocated node.
    Each macro is one definition with the macro's name; a C pointer is an
    [option addr] and dereferencing [NULL] or a freed node is an error.
    [RB_AUGMENT] is empty in the source ([#ifndef RB_AUGMENT]) and its calls are left
    out; [cmp] is the comparison macro parameter, applied to the searched element. *)

From S2P Require Export Prelude.

(** ** Data *)

Inductive color : Type := RB_BLACK | RB_RED.

#[export] Instance color_eq_dec : EqDecision color.
Proof. solve_decision. Defined.

(** [RB_ENTRY] *)
Record rbnode : Type := RBNode {
  rbe_left : ptr;
  rbe_right : ptr;
  rbe_parent : ptr;
  rbe_color : color;
}.

(** [RB_HEAD], with the node fields of all allocated elements. *)
Record rbtree : Type := RBTree {
  rbh_root : ptr;
  rb_fields : gmap addr rbnode;
}.

(** A freshly zeroed element. *)
Definition rbnode_zero : rbnode := RBNode NULL NULL NULL RB_BLACK.

Abbreviation RB := (ST rbtree).

(** ** Field access *)

Definition load (p : ptr) : RB rbnode := λ t,
  match p with
  | None => Err NullDeref
  | Some a => match rb_fields t !! a with None => Err Dangling | Some n => Ok (n, t) end
  end.

Definition store (p : ptr) (n : rbnode) : RB unit := λ t,
  match p with
  | None => Err NullDeref
  | Some a =>
      match rb_fields t !! a with
      | None => Err Dangling
      | Some _ => Ok (tt, RBTree (rbh_root t) (<[a := n]> (rb_fields t)))
      end
  end.

Definition RB_LEFT (elm : ptr) : RB ptr := n ← load elm; mret (rbe_left n).
Definition RB_RIGHT (elm : ptr) : RB ptr := n ← load elm; mret (rbe_right n).
Definition RB_PARENT (elm : ptr) : RB ptr := n ← load elm; mret (rbe_parent n).
Definition RB_COLOR (elm : ptr) : RB color := n ← load elm; mret (rbe_color n).
Definition RB_ROOT : RB ptr := gets rbh_root.

Definition RB_EMPTY (t : rbtree) : bool := bool_decide (rbh_root t = NULL).

Definition set_left (elm v : ptr) : RB unit :=
  n ← load elm; store elm (RBNode v (rbe_right n) (rbe_parent n) (rbe_color n)).
Definition set_right (elm v : ptr) : RB unit :=
  n ← load elm; store elm (RBNode (rbe_left n) v (rbe_parent n) (rbe_color n)).
Definition set_parent (elm v : ptr) : RB unit :=
  n ← load elm; store elm (RBNode (rbe_left n) (rbe_right n) v (rbe_color n)).
Definition set_color (elm : ptr) (c : color) : RB unit :=
  n ← load elm; store elm (RBNode (rbe_left n) (rbe_right n) (rbe_parent n) c).
Definition set_root (v : ptr) : RB unit := modify (λ t, RBTree v (rb_fields t)).

Definition RB_INIT : RB unit := set_root NULL.

(** [RB_SET(elm, parent, field)] *)
Definition RB_SET (elm parent : ptr) : RB unit :=
  set_parent elm parent;;
  set_right elm NULL;;
  set_left elm NULL;;
  set_color elm RB_RED.

Definition RB_SET_BLACKRED (black red : ptr) : RB unit :=
  set_color black RB_BLACK;;
  set_color red RB_RED.

(** [p && RB_COLOR(p) == RB_RED], and [p == NULL || RB_COLOR(p) == RB_BLACK]. *)
Definition is_red (p : ptr) : RB bool :=
  match p with
  | None => mret false
  | Some _ => c ← RB_COLOR p; mret (bool_decide (c = RB_RED))
  end.
Definition is_black (p : ptr) : RB bool :=
  match p with
  | None => mret true
  | Some _ => c ← RB_COLOR p; mret (bool_decide (c = RB_BLACK))
  end.

(** Make [child] take the place of [elm] below [parent], or at the root. *)
Definition replace_child (parent elm child : ptr) : RB unit :=
  match parent with
  | Some _ =>
      l ← RB_LEFT parent;
      if decide (l = elm) then set_left parent child else set_right parent child
  | None => set_root child
  end.

(** [RB_ROTATE_LEFT(head, elm, tmp, field)] returns the value it leaves in [tmp]. *)
Definition RB_ROTATE_LEFT (elm : ptr) : RB ptr :=
  tmp ← RB_RIGHT elm;
  tl ← RB_LEFT tmp;
  set_right elm tl;;
  (match tl with
   | Some _ => tl' ← RB_LEFT tmp; set_parent tl' elm
   | None => mret tt
   end);;
  pe ← RB_PARENT elm;
  set_parent tmp pe;;
  (pe' ← RB_PARENT elm; replace_child pe' elm tmp);;
  set_left tmp elm;;
  set_parent elm tmp;;
  mret tmp.

Definition RB_ROTATE_RIGHT (elm : ptr) : RB ptr :=
  tmp ← RB_LEFT elm;
  tr ← RB_RIGHT tmp;
  set_left elm tr;;
  (match tr with
   | Some _ => tr' ← RB_RIGHT tmp; set_parent tr' elm
   | None => mret tt
   end);;
  pe ← RB_PARENT elm;
  set_parent tmp pe;;
  (pe' ← RB_PARENT elm; replace_child pe' elm tmp);;
  set_right tmp elm;;
  set_parent elm tmp;;
  mret tmp.

(** ** Insertion *)

(** Enough iterations for any walk along the nodes of a tree. *)
Definition rb_fuel (t : rbtree) : nat := S (S (size (rb_fields t))).

Fixpoint RB_INSERT_COLOR_loop (fuel : nat) (elm : ptr) : RB unit :=
  match fuel with
  | O => throw OutOfFuel
  | S fuel =>
      parent ← RB_PARENT elm;
      pred ← is_red parent;
      if negb pred then mret tt else
      gparent ← RB_PARENT parent;
      gl ← RB_LEFT gparent;
      if decide (parent = gl) then
        tmp ← RB_RIGHT gparent;
        tred ← is_red tmp;
        if tred : bool then
          set_color tmp RB_BLACK;;
          RB_SET_BLACKRED parent gparent;;
          RB_INSERT_COLOR_loop fuel gparent
        else
          pr ← RB_RIGHT parent;
          '(parent, elm) ←
            (if decide (pr = elm)
             then RB_ROTATE_LEFT parent;; mret (elm, parent)
             else mret (parent, elm));
          RB_SET_BLACKRED parent gparent;;
          RB_ROTATE_RIGHT gparent;;
          RB_INSERT_COLOR_loop fuel elm
      else
        tmp ← RB_LEFT gparent;
        tred ← is_red tmp;
        if tred : bool then
          set_color tmp RB_BLACK;;
          RB_SET_BLACKRED parent gparent;;
          RB_INSERT_COLOR_loop fuel gparent
        else
          pl ← RB_LEFT parent;
          '(parent, elm) ←
            (if decide (pl = elm)
             then RB_ROTATE_RIGHT parent;; mret (elm, parent)
             else mret (parent, elm));
          RB_SET_BLACKRED parent gparent;;
          RB_ROTATE_LEFT gparent;;
          RB_INSERT_COLOR_loop fuel elm
  end.

Definition RB_INSERT_COLOR (elm : ptr) : RB unit :=
  fuel ← gets rb_fuel;
  RB_INSERT_COLOR_loop fuel elm;;
  root ← RB_ROOT;
  set_color root RB_BLACK.

(** The descent of [RB_INSERT]: the last node visited and the last comparison, or
    the node whose key is equal. *)
Fixpoint RB_INSERT_descend (cmp : addr → res Z) (fuel : nat) (tmp parent : ptr) (comp : Z) :
    RB (addr + ptr * Z) :=
  match fuel with
  | O => throw OutOfFuel
  | S fuel =>
      match tmp with
      | None => mret (inr (parent, comp))
      | Some p =>
          comp ← of_res (cmp p);
          if (comp <? 0)%Z then
            l ← RB_LEFT tmp; RB_INSERT_descend cmp fuel l tmp comp
          else if (comp >? 0)%Z then
            r ← RB_RIGHT tmp; RB_INSERT_descend cmp fuel r tmp comp
          else mret (inl p)
      end
  end.

Definition RB_INSERT (cmp : addr → res Z) (elm : ptr) : RB ptr :=
  fuel ← gets rb_fuel;
  root ← RB_ROOT;
  found ← RB_INSERT_descend cmp fuel root NULL 0;
  match found with
  | inl tmp => mret (Some tmp)
  | inr (parent, comp) =>
      RB_SET elm parent;;
      (match parent with
       | Some _ => if (comp <? 0)%Z then set_left parent elm else set_right parent elm
       | None => set_root elm
       end);;
      RB_INSERT_COLOR elm;;
      mret NULL
  end.

(** ** Removal *)

Fixpoint RB_REMOVE_COLOR_loop (fuel : nat) (parent elm : ptr) : RB ptr :=
  match fuel with
  | O => throw OutOfFuel
  | S fuel =>
      eblack ← is_black elm;
      root ← RB_ROOT;
      if negb (eblack && negb (bool_decide (elm = root))) then mret elm else
      pl ← RB_LEFT parent;
      if decide (pl = elm) then
        tmp ← RB_RIGHT parent;
        c ← RB_COLOR tmp;
        tmp ← (if decide (c = RB_RED) then
                 RB_SET_BLACKRED tmp parent;;
                 RB_ROTATE_LEFT parent;;
                 RB_RIGHT parent
               else mret tmp);
        tl ← RB_LEFT tmp;
        lb ← is_black tl;
        tr ← RB_RIGHT tmp;
        rb ← is_black tr;
        if (lb && rb : bool) then
          set_color tmp RB_RED;;
          parent' ← RB_PARENT parent;
          RB_REMOVE_COLOR_loop fuel parent' parent
        else
          tmp ← (if (rb : bool) then
                   oleft ← RB_LEFT tmp;
                   (match oleft with Some _ => set_color oleft RB_BLACK | None => mret tt end);;
                   set_color tmp RB_RED;;
                   RB_ROTATE_RIGHT tmp;;
                   RB_RIGHT parent
                 else mret tmp);
          pc ← RB_COLOR parent;
          set_color tmp pc;;
          set_color parent RB_BLACK;;
          tr ← RB_RIGHT tmp;
          (match tr with Some _ => set_color tr RB_BLACK | None => mret tt end);;
          RB_ROTATE_LEFT parent;;
          RB_ROOT
      else
        tmp ← RB_LEFT parent;
        c ← RB_COLOR tmp;
        tmp ← (if decide (c = RB_RED) then
                 RB_SET_BLACKRED tmp parent;;
                 RB_ROTATE_RIGHT parent;;
                 RB_LEFT parent
               else mret tmp);
        tl ← RB_LEFT tmp;
        lb ← is_black tl;
        tr ← RB_RIGHT tmp;
        rb ← is_black tr;
        if (lb && rb : bool) then
          set_color tmp RB_RED;;
          parent' ← RB_PARENT parent;
          RB_REMOVE_COLOR_loop fuel parent' parent
        else
          tmp ← (if (lb : bool) then
                   oright ← RB_RIGHT tmp;
                   (match oright with Some _ => set_color oright RB_BLACK | None => mret tt end);;
                   set_color tmp RB_RED;;
                   RB_ROTATE_LEFT tmp;;
                   RB_LEFT parent
                 else mret tmp);
          pc ← RB_COLOR parent;
          set_color tmp pc;;
          set_color parent RB_BLACK;;
          tl ← RB_LEFT tmp;
          (match tl with Some _ => set_color tl RB_BLACK | None => mret tt end);;
          RB_ROTATE_RIGHT parent;;
          RB_ROOT
  end.

Definition RB_REMOVE_COLOR (parent elm : ptr) : RB unit :=
  fuel ← gets rb_fuel;
  elm ← RB_REMOVE_COLOR_loop fuel parent elm;
  match elm with Some _ => set_color elm RB_BLACK | None => mret tt end.

(** [while ((left = RB_LEFT(elm)) != NULL) elm = left;] *)
Fixpoint RB_leftmost (fuel : nat) (elm : ptr) : RB ptr :=
  match fuel with
  | O => throw OutOfFuel
  | S fuel =>
      left ← RB_LEFT elm;
      match left with Some _ => RB_leftmost fuel left | None => mret elm end
  end.

(** [do { RB_AUGMENT(left); } while ((left = RB_PARENT(left)) != NULL);] *)
Fixpoint RB_augment_up (fuel : nat) (left : ptr) : RB unit :=
  match fuel with
  | O => throw OutOfFuel
  | S fuel =>
      up ← RB_PARENT left;
      match up with Some _ => RB_augment_up fuel up | None => mret tt end
  end.

Definition RB_REMOVE (elm : ptr) : RB ptr :=
  let old := elm in
  fuel ← gets rb_fuel;
  l ← RB_LEFT elm;
  '(color, parent, child) ←
    (match l with
     | None =>
         child ← RB_RIGHT elm;
         parent ← RB_PARENT elm;
         color ← RB_COLOR elm;
         (match child with Some _ => set_parent child parent | None => mret tt end);;
         replace_child parent elm child;;
         mret (color, parent, child)
     | Some _ =>
         r ← RB_RIGHT elm;
         match r with
         | None =>
             child ← RB_LEFT elm;
             parent ← RB_PARENT elm;
             color ← RB_COLOR elm;
             (match child with Some _ => set_parent child parent | None => mret tt end);;
             replace_child parent elm child;;
             mret (color, parent, child)
         | Some _ =>
             elm ← RB_leftmost fuel r;
             child ← RB_RIGHT elm;
             parent ← RB_PARENT elm;
             color ← RB_COLOR elm;
             (match child with Some _ => set_parent child parent | None => mret tt end);;
             replace_child parent elm child;;
             pe ← RB_PARENT elm;
             let parent := if decide (pe = old) then elm else parent in
             (n ← load old; store elm n);;
             (po ← RB_PARENT old; replace_child po old elm);;
             (ol ← RB_LEFT old; set_parent ol elm);;
             (or ← RB_RIGHT old;
              match or with Some _ => set_parent or elm | None => mret tt end);;
             (match parent with Some _ => RB_augment_up fuel parent | None => mret tt end);;
             mret (color, parent, child)
         end
     end);
  (if decide (color = RB_BLACK) then RB_REMOVE_COLOR parent child else mret tt);;
  mret old.

(** ** Search and traversal *)

Fixpoint RB_FIND_loop (cmp : addr → res Z) (fuel : nat) (tmp : ptr) : RB ptr :=
  match fuel with
  | O => throw OutOfFuel
  | S fuel =>
      match tmp with
      | None => mret NULL
      | Some p =>
          comp ← of_res (cmp p);
          if (comp <? 0)%Z then l ← RB_LEFT tmp; RB_FIND_loop cmp fuel l
          else if (comp >? 0)%Z then r ← RB_RIGHT tmp; RB_FIND_loop cmp fuel r
          else mret tmp
      end
  end.

Definition RB_FIND (cmp : addr → res Z) : RB ptr :=
  fuel ← gets rb_fuel; root ← RB_ROOT; RB_FIND_loop cmp fuel root.

Fixpoint RB_NFIND_loop (cmp : addr → res Z) (fuel : nat) (tmp res : ptr) : RB ptr :=
  match fuel with
  | O => throw OutOfFuel
  | S fuel =>
      match tmp with
      | None => mret res
      | Some p =>
          comp ← of_res (cmp p);
          if (comp <? 0)%Z then l ← RB_LEFT tmp; RB_NFIND_loop cmp fuel l tmp
          else if (comp >? 0)%Z then r ← RB_RIGHT tmp; RB_NFIND_loop cmp fuel r res
          else mret tmp
      end
  end.

Definition RB_NFIND (cmp : addr → res Z) : RB ptr :=
  fuel ← gets rb_fuel; root ← RB_ROOT; RB_NFIND_loop cmp fuel root NULL.

Fixpoint RB_MINMAX_loop (fuel : nat) (tmp parent : ptr) (val : Z) : RB ptr :=
  match fuel with
  | O => throw OutOfFuel
  | S fuel =>
      match tmp with
      | None => mret parent
      | Some _ =>
          next ← (if (val <? 0)%Z then RB_LEFT tmp else RB_RIGHT tmp);
          RB_MINMAX_loop fuel next tmp val
      end
  end.

Definition RB_MINMAX (val : Z) : RB ptr :=
  fuel ← gets rb_fuel; root ← RB_ROOT; RB_MINMAX_loop fuel root NULL val.

Definition RB_NEGINF : Z := -1.
Definition RB_INF : Z := 1.
Definition RB_MIN : RB ptr := RB_MINMAX RB_NEGINF.
Definition RB_MAX : RB ptr := RB_MINMAX RB_INF.

(** [while (RB_RIGHT(elm)) elm = RB_RIGHT(elm);] *)
Fixpoint RB_rightmost (fuel : nat) (elm : ptr) : RB ptr :=
  match fuel with
  | O => throw OutOfFuel
  | S fuel =>
      right ← RB_RIGHT elm;
      match right with Some _ => RB_rightmost fuel right | None => mret elm end
  end.

(** [while (RB_PARENT(elm) && elm == side(RB_PARENT(elm))) elm = RB_PARENT(elm);] *)
Fixpoint RB_climb (side : ptr → RB ptr) (fuel : nat) (elm : ptr) : RB ptr :=
  match fuel with
  | O => throw OutOfFuel
  | S fuel =>
      up ← RB_PARENT elm;
      match up with
      | None => mret elm
      | Some _ => c ← side up; if decide (elm = c) then RB_climb side fuel up else mret elm
      end
  end.

Definition RB_NEXT (elm : ptr) : RB ptr :=
  fuel ← gets rb_fuel;
  r ← RB_RIGHT elm;
  match r with
  | Some _ => RB_leftmost fuel r
  | None =>
      up ← RB_PARENT elm;
      is_left ← (match up with
                 | Some _ => l ← RB_LEFT up; mret (bool_decide (elm = l))
                 | None => mret false
                 end);
      if is_left : bool then mret up
      else top ← RB_climb RB_RIGHT fuel elm; RB_PARENT top
  end.

Definition RB_PREV (elm : ptr) : RB ptr :=
  fuel ← gets rb_fuel;
  l ← RB_LEFT elm;
  match l with
  | Some _ => RB_rightmost fuel l
  | None =>
      up ← RB_PARENT elm;
      is_right ← (match up with
                  | Some _ => r ← RB_RIGHT up; mret (bool_decide (elm = r))
                  | None => mret false
                  end);
      if is_right : bool then mret up
      else top ← RB_climb RB_LEFT fuel elm; RB_PARENT top
  end.

(** [RB_FOREACH]: the elements in the order the loop visits them, when the loop body
    does not change the tree. *)
Fixpoint RB_FOREACH_loop (fuel : nat) (x : ptr) : RB (list addr) :=
  match fuel with
  | O => throw OutOfFuel
  | S fuel =>
      match x with
      | None => mret []
      | Some a => y ← RB_NEXT x; l ← RB_FOREACH_loop fuel y; mret (a :: l)
      end
  end.
Definition RB_FOREACH : RB (list addr) :=
  fuel ← gets rb_fuel; x ← RB_MIN; RB_FOREACH_loop fuel x.

Fixpoint RB_FOREACH_REVERSE_loop (fuel : nat) (x : ptr) : RB (list addr) :=
  match fuel with
  | O => throw OutOfFuel
  | S fuel =>
      match x with
      | None => mret []
      | Some a => y ← RB_PREV x; l ← RB_FOREACH_REVERSE_loop fuel y; mret (a :: l)
      end
  end.
Definition RB_FOREACH_REVERSE : RB (list addr) :=
  fuel ← gets rb_fuel; x ← RB_MAX; RB_FOREACH_REVERSE_loop fuel x.
