(* ===== verification/RBShape.v ===== *)
(** Shapes of red-black trees: the abstract tree a memory represents, contexts (a tree
    with a hole), the representation predicate [rep], and the red-black balance rules
    stated on trees ([rbt]) and on contexts ([rbk]). *)

From S2P Require Export RBTree.

(** ** Trees and contexts *)

Inductive tree : Type :=
  | Leaf
  | Node (c : color) (l : tree) (x : addr) (r : tree).

Definition rootp (t : tree) : ptr :=
  match t with Leaf => NULL | Node _ _ x _ => Some x end.

(** The elements in order. *)
Fixpoint elems (t : tree) : list addr :=
  match t with Leaf => [] | Node _ l x r => elems l ++ x :: elems r end.

(** One step from a hole to its parent: the hole is the left, or the right, subtree. *)
Inductive frame : Type :=
  | FL (c : color) (x : addr) (r : tree)
  | FR (c : color) (l : tree) (x : addr).

(** A context lists the frames from the hole up to the root. *)
Abbreviation ctx := (list frame).

Definition fill (f : frame) (t : tree) : tree :=
  match f with FL c x r => Node c t x r | FR c l x => Node c l x t end.

Fixpoint plug (k : ctx) (t : tree) : tree :=
  match k with [] => t | f :: k => plug k (fill f t) end.

Definition frame_node (f : frame) : addr :=
  match f with FL _ x _ => x | FR _ _ x => x end.

Definition parentp (k : ctx) : ptr :=
  match k with [] => NULL | f :: _ => Some (frame_node f) end.

(** The elements of a context, left and right of the hole. *)
Fixpoint before (k : ctx) : list addr :=
  match k with
  | [] => []
  | FL _ _ _ :: k => before k
  | FR _ l x :: k => before k ++ elems l ++ [x]
  end.
Fixpoint after (k : ctx) : list addr :=
  match k with
  | [] => []
  | FL _ x r :: k => x :: elems r ++ after k
  | FR _ _ _ :: k => after k
  end.

Lemma elems_plug k t : elems (plug k t) = before k ++ elems t ++ after k.
Proof.
  revert t; induction k as [|[c x r|c l x] k IH]; intros t; simpl.
  - by rewrite app_nil_r.
  - rewrite IH. simpl. by rewrite <- !app_assoc.
  - rewrite IH. simpl. by rewrite <- !app_assoc.
Qed.

Lemma plug_app k1 k2 t : plug (k1 ++ k2) t = plug k2 (plug k1 t).
Proof. revert t; induction k1; intros t; simpl; auto. Qed.

Lemma before_app k1 k2 : before (k1 ++ k2) = before k2 ++ before k1.
Proof.
  induction k1 as [|[c x r|c l x] k1 IH]; simpl; [by rewrite app_nil_r|done|].
  by rewrite IH, <- app_assoc.
Qed.

Lemma after_app k1 k2 : after (k1 ++ k2) = after k1 ++ after k2.
Proof. induction k1 as [|[c x r|c l x] k1 IH]; simpl; rewrite ?IH, <- ?app_assoc; done. Qed.

(** ** Representation *)

Fixpoint tree_at (h : gmap addr rbnode) (par : ptr) (t : tree) : Prop :=
  match t with
  | Leaf => True
  | Node c l x r =>
      h !! x = Some (RBNode (rootp l) (rootp r) par c) ∧
      tree_at h (Some x) l ∧ tree_at h (Some x) r
  end.

(** The nodes of context [k] are in memory, with [p] in the hole. *)
Fixpoint ctx_at (h : gmap addr rbnode) (root : ptr) (k : ctx) (p : ptr) : Prop :=
  match k with
  | [] => root = p
  | FL c x r :: k =>
      h !! x = Some (RBNode p (rootp r) (parentp k) c) ∧
      tree_at h (Some x) r ∧ ctx_at h root k (Some x)
  | FR c l x :: k =>
      h !! x = Some (RBNode (rootp l) p (parentp k) c) ∧
      tree_at h (Some x) l ∧ ctx_at h root k (Some x)
  end.

(** Memory [s] holds the tree [T]; the nodes outside [T] are those of [F]. *)
Definition rep (F : gmap addr rbnode) (s : rbtree) (T : tree) : Prop :=
  rbh_root s = rootp T ∧ tree_at (rb_fields s) NULL T ∧ NoDup (elems T) ∧
  (∀ p, p ∉ elems T → rb_fields s !! p = F !! p).

Lemma tree_at_plug h root k t :
  (rootp (plug k t) = root ∧ tree_at h NULL (plug k t)) ↔
  (ctx_at h root k (rootp t) ∧ tree_at h (parentp k) t).
Proof.
  revert t; induction k as [|[c x r|c l x] k IH]; intros t; simpl; [naive_solver|..];
    rewrite IH; simpl; naive_solver.
Qed.

Lemma tree_at_frame h h' par t :
  tree_at h par t → (∀ p, p ∈ elems t → h' !! p = h !! p) → tree_at h' par t.
Proof.
  revert par; induction t as [|c l IHl x r IHr]; intros par; simpl; [done|].
  intros (Hx & Hl & Hr) Heq. split_and!.
  - rewrite Heq; [done|set_solver].
  - apply IHl; [done|set_solver].
  - apply IHr; [done|set_solver].
Qed.

Definition ctx_elems (k : ctx) : list addr := before k ++ after k.

Lemma ctx_at_frame h h' root k p :
  ctx_at h root k p → (∀ q, q ∈ ctx_elems k → h' !! q = h !! q) → ctx_at h' root k p.
Proof.
  revert p; induction k as [|[c x r|c l x] k IH]; intros p; unfold ctx_elems in *; simpl;
    [done|..]; intros (Hx & Ht & Hk) Heq; split_and!.
  1, 4: rewrite Heq; [done|set_solver].
  1, 3: eapply tree_at_frame; [done|set_solver].
  all: apply IH; [done|set_solver].
Qed.

Lemma tree_at_lookup h par t x : tree_at h par t → x ∈ elems t → is_Some (h !! x).
Proof.
  revert par; induction t as [|c l IHl y r IHr]; intros par; simpl; [set_solver|].
  intros (Hy & Hl & Hr). rewrite elem_of_app, elem_of_cons. naive_solver.
Qed.

Lemma rootp_elem t x : rootp t = Some x → x ∈ elems t.
Proof. destruct t; simpl; [done|intros [= ->]; set_solver]. Qed.

Lemma rootp_ne t x : x ∉ elems t → rootp t ≠ Some x.
Proof. eauto using rootp_elem. Qed.

(** A node of the tree is reached by some context. *)
Lemma elems_split x t : x ∈ elems t → ∃ k c l r, t = plug k (Node c l x r).
Proof.
  induction t as [|c l IHl y r IHr]; simpl; [set_solver|].
  rewrite elem_of_app, elem_of_cons. intros [H|[->|H]].
  - destruct (IHl H) as (k & c' & l' & r' & ->). exists (k ++ [FL c y r]), c', l', r'.
    by rewrite plug_app.
  - by exists [], c, l, r.
  - destruct (IHr H) as (k & c' & l' & r' & ->). exists (k ++ [FR c l y]), c', l', r'.
    by rewrite plug_app.
Qed.

(** ** Balance *)

(** [rbt c n t]: a tree whose root has color [c] (a leaf counts as black), with [n]
    black nodes on every path and no red node with a red child. *)
Inductive rbt : color → nat → tree → Prop :=
  | rbt_leaf : rbt RB_BLACK 0 Leaf
  | rbt_red n l x r :
      rbt RB_BLACK n l → rbt RB_BLACK n r → rbt RB_RED n (Node RB_RED l x r)
  | rbt_black cl cr n l x r :
      rbt cl n l → rbt cr n r → rbt RB_BLACK (S n) (Node RB_BLACK l x r).

(** [rbk c n k]: filling the hole with a tree of color [c] and black height [n] gives a
    balanced tree with a black root. *)
Inductive rbk : color → nat → ctx → Prop :=
  | rbk_top n : rbk RB_BLACK n []
  | rbk_red_l n x r k :
      rbt RB_BLACK n r → rbk RB_RED n k → rbk RB_BLACK n (FL RB_RED x r :: k)
  | rbk_red_r n l x k :
      rbt RB_BLACK n l → rbk RB_RED n k → rbk RB_BLACK n (FR RB_RED l x :: k)
  | rbk_black_l c c' n x r k :
      rbt c' n r → rbk RB_BLACK (S n) k → rbk c n (FL RB_BLACK x r :: k)
  | rbk_black_r c c' n l x k :
      rbt c' n l → rbk RB_BLACK (S n) k → rbk c n (FR RB_BLACK l x :: k).

(** The invariant of the whole tree. *)
Definition rb_ok (T : tree) : Prop := ∃ n, rbt RB_BLACK n T.

Create HintDb rb.
#[export] Hint Constructors rbt rbk : rb.

Definition tree_color (t : tree) : color :=
  match t with Leaf => RB_BLACK | Node c _ _ _ => c end.

Lemma rbt_color c n t : rbt c n t → tree_color t = c.
Proof. by destruct 1. Qed.

Lemma rbk_plug c n k t : rbk c n k → rbt c n t → rb_ok (plug k t).
Proof.
  intros Hk; revert t; induction Hk; intros t Ht; simpl; [by exists n|..];
    (apply IHHk; eauto with rb).
Qed.

Lemma rbk_black c n k : rbk c n k → rbk RB_BLACK n k.
Proof. destruct 1; eauto with rb. Qed.

(** A balanced plugged tree splits into a balanced tree and a balanced context. *)
Lemma rbk_unplug k t n : rbt RB_BLACK n (plug k t) → ∃ c m, rbt c m t ∧ rbk c m k.
Proof.
  revert t n; induction k as [|[c x r|c l x] k IH]; intros t n; simpl.
  - eauto with rb.
  - intros H. destruct (IH _ _ H) as (c' & m & Ht & Hk). inversion Ht; subst; eauto with rb.
  - intros H. destruct (IH _ _ H) as (c' & m & Ht & Hk). inversion Ht; subst; eauto with rb.
Qed.

Lemma rbt_size c n t : rbt c n t → 2 ^ n ≤ S (length (elems t)).
Proof.
  induction 1; simpl; rewrite ?length_app; simpl; lia.
Qed.

Fixpoint height (t : tree) : nat :=
  match t with Leaf => 0 | Node _ l _ r => S (height l `max` height r) end.

Lemma rbt_height c n t :
  rbt c n t → height t ≤ 2 * n + (if decide (c = RB_RED) then 1 else 0).
Proof.
  induction 1; simpl in *; repeat case_decide; simplify_eq; lia.
Qed.

(** The depth of a red-black tree is logarithmic in its number of elements. *)
Lemma rb_ok_height T : rb_ok T → 2 ^ (height T) ≤ (S (length (elems T))) ^ 2.
Proof.
  intros [n H]. pose proof (rbt_size _ _ _ H). pose proof (rbt_height _ _ _ H) as Hh.
  rewrite decide_False in Hh by done.
  transitivity (2 ^ (2 * n)); [apply Nat.pow_le_mono_r; lia|].
  rewrite Nat.mul_comm, Nat.pow_mul_r. by apply Nat.pow_le_mono_l.
Qed.

Lemma height_plug k t : length k + height t ≤ height (plug k t).
Proof.
  revert t; induction k as [|[c x r|c l x] k IH]; intros t; simpl; [done|..];
    (etransitivity; [|apply IH]); simpl; lia.
Qed.

Lemma height_elems t : height t ≤ length (elems t).
Proof. induction t; simpl; rewrite ?length_app; simpl; lia. Qed.
