(* ===== verification/RBRotate.v ===== *)
(** Total-correctness triples of the field macros, of the rotations and of the pointer
    replacement step, over the representation predicate [rep]. *)

From S2P Require Export RBShape.

(** ** Field access *)

Section fields.
Implicit Types s : rbtree.

Lemma wp_load x n (Q : rbnode → rbtree → Prop) s :
  rb_fields s !! x = Some n → Q n s → wp (load (Some x)) Q s.
Proof. unfold wp, load. by intros ->. Qed.

Lemma wp_RB_LEFT x n (Q : ptr → rbtree → Prop) s :
  rb_fields s !! x = Some n → Q (rbe_left n) s → wp (RB_LEFT (Some x)) Q s.
Proof. intros. eapply wp_bind, wp_load; eauto. Qed.
Lemma wp_RB_RIGHT x n (Q : ptr → rbtree → Prop) s :
  rb_fields s !! x = Some n → Q (rbe_right n) s → wp (RB_RIGHT (Some x)) Q s.
Proof. intros. eapply wp_bind, wp_load; eauto. Qed.
Lemma wp_RB_PARENT x n (Q : ptr → rbtree → Prop) s :
  rb_fields s !! x = Some n → Q (rbe_parent n) s → wp (RB_PARENT (Some x)) Q s.
Proof. intros. eapply wp_bind, wp_load; eauto. Qed.
Lemma wp_RB_COLOR x n (Q : color → rbtree → Prop) s :
  rb_fields s !! x = Some n → Q (rbe_color n) s → wp (RB_COLOR (Some x)) Q s.
Proof. intros. eapply wp_bind, wp_load; eauto. Qed.

Lemma wp_store x n n' (Q : unit → rbtree → Prop) s :
  rb_fields s !! x = Some n →
  Q tt (RBTree (rbh_root s) (<[x := n']> (rb_fields s))) → wp (store (Some x) n') Q s.
Proof. unfold wp, store. by intros ->. Qed.

Lemma wp_set_left x n v (Q : unit → rbtree → Prop) s :
  rb_fields s !! x = Some n →
  Q tt (RBTree (rbh_root s) (<[x := RBNode v (rbe_right n) (rbe_parent n) (rbe_color n)]> (rb_fields s))) →
  wp (set_left (Some x) v) Q s.
Proof. intros. eapply wp_bind, wp_load, wp_store; eauto. Qed.
Lemma wp_set_right x n v (Q : unit → rbtree → Prop) s :
  rb_fields s !! x = Some n →
  Q tt (RBTree (rbh_root s) (<[x := RBNode (rbe_left n) v (rbe_parent n) (rbe_color n)]> (rb_fields s))) →
  wp (set_right (Some x) v) Q s.
Proof. intros. eapply wp_bind, wp_load, wp_store; eauto. Qed.
Lemma wp_set_parent x n v (Q : unit → rbtree → Prop) s :
  rb_fields s !! x = Some n →
  Q tt (RBTree (rbh_root s) (<[x := RBNode (rbe_left n) (rbe_right n) v (rbe_color n)]> (rb_fields s))) →
  wp (set_parent (Some x) v) Q s.
Proof. intros. eapply wp_bind, wp_load, wp_store; eauto. Qed.
Lemma wp_set_color x n v (Q : unit → rbtree → Prop) s :
  rb_fields s !! x = Some n →
  Q tt (RBTree (rbh_root s) (<[x := RBNode (rbe_left n) (rbe_right n) (rbe_parent n) v]> (rb_fields s))) →
  wp (set_color (Some x) v) Q s.
Proof. intros. eapply wp_bind, wp_load, wp_store; eauto. Qed.
Lemma wp_set_root v (Q : unit → rbtree → Prop) s :
  Q tt (RBTree v (rb_fields s)) → wp (set_root v) Q s.
Proof. done. Qed.
End fields.

(** Disequalities and lookups in memories written as nested updates. *)
Ltac solve_lookup :=
  cbn [rb_fields rbh_root];
  first [ eassumption
        | (eapply lookup_insert_eq)
        | (etransitivity; [eapply lookup_insert_ne; solve_ne|solve_lookup]) ].

(** One step of symbolic execution. *)
Ltac wp_step :=
  cbn [rbe_left rbe_right rbe_parent rbe_color rootp parentp frame_node];
  match goal with
  | |- wp (mbind _ _) _ _ => apply wp_bind
  | |- wp (mret _) _ _ => apply wp_ret
  | |- wp (gets _) _ _ => apply wp_gets
  | |- wp RB_ROOT _ _ => apply wp_gets
  | |- wp (RB_LEFT (Some _)) _ _ => eapply wp_RB_LEFT; [solve_lookup|]
  | |- wp (RB_RIGHT (Some _)) _ _ => eapply wp_RB_RIGHT; [solve_lookup|]
  | |- wp (RB_PARENT (Some _)) _ _ => eapply wp_RB_PARENT; [solve_lookup|]
  | |- wp (RB_COLOR (Some _)) _ _ => eapply wp_RB_COLOR; [solve_lookup|]
  | |- wp (load (Some _)) _ _ => eapply wp_load; [solve_lookup|]
  | |- wp (store (Some _) _) _ _ => eapply wp_store; [solve_lookup|]
  | |- wp (set_left (Some _) _) _ _ => eapply wp_set_left; [solve_lookup|]
  | |- wp (set_right (Some _) _) _ _ => eapply wp_set_right; [solve_lookup|]
  | |- wp (set_parent (Some _) _) _ _ => eapply wp_set_parent; [solve_lookup|]
  | |- wp (set_color (Some _) _) _ _ => eapply wp_set_color; [solve_lookup|]
  | |- wp (set_root _) _ _ => apply wp_set_root
  | |- wp (if decide _ then _ else _) _ _ =>
      first [ rewrite decide_True by congruence
            | rewrite decide_False by
                first [congruence | (apply rootp_ne; assumption)
                      | (apply not_eq_sym, rootp_ne; assumption)] ]
  end.
Ltac wp_steps := repeat wp_step.

(** ** Representation at a focus *)

Lemma rep_plug F s k t :
  rep F s (plug k t) ↔
  ctx_at (rb_fields s) (rbh_root s) k (rootp t) ∧
  tree_at (rb_fields s) (parentp k) t ∧
  NoDup (before k ++ elems t ++ after k) ∧
  (∀ p, p ∉ before k ++ elems t ++ after k → rb_fields s !! p = F !! p).
Proof.
  unfold rep. rewrite <- elems_plug.
  pose proof (tree_at_plug (rb_fields s) (rbh_root s) k t) as [H1 H2].
  split; intros (? & ? & ? & ?); [destruct H1|destruct H2]; auto.
Qed.

(** Close a lookup through nested updates at an address that none of them touches. *)
Ltac skip_updates :=
  cbn [rb_fields rbh_root];
  repeat (rewrite lookup_insert_ne; [|solve_ne]); try done.

Ltac solve_frame :=
  match goal with
  | |- tree_at _ _ Leaf => exact I
  | H : tree_at ?h ?par ?t |- tree_at _ ?par ?t =>
      apply (tree_at_frame h); [exact H|intros ? ?; skip_updates]
  | H : ctx_at ?h ?root ?k ?p |- ctx_at _ ?root ?k ?p =>
      apply (ctx_at_frame h); [exact H|unfold ctx_elems; intros ? ?; elem_cases; skip_updates]
  | |- _ !! _ = Some _ => solve_lookup
  end.

Ltac list_norm := repeat (simpl; rewrite <- app_assoc); simpl; rewrite ?app_nil_r.

(** The goals left by [rep_plug] after symbolic execution of a step that keeps the
    elements: the context, the focused tree, the elements and the rest of memory. *)
Ltac solve_elems :=
  match goal with
  | H : kept (NoDup ?l) |- NoDup ?l' => replace l' with l; [exact H|by list_norm]
  end.
Ltac solve_outside :=
  let p := fresh in let Hp := fresh in
  intros p Hp; revert Hp; list_norm; intros Hp; nodup_facts; skip_updates;
  match goal with H : ∀ p, p ∉ _ → _ !! p = _ !! p |- _ => apply H end;
  list_norm; repeat (rewrite not_elem_of_app || rewrite not_elem_of_cons);
  split_and?; first [assumption | apply not_elem_of_nil].
Ltac solve_rep :=
  apply rep_plug;
  cbn [ctx_at tree_at rootp parentp frame_node rbe_left rbe_right rbe_parent rbe_color
       rb_fields rbh_root];
  split_and!; first [done|solve_frame|solve_elems|solve_outside].

Lemma rep_rotate_left F s k cx a x cy b y d :
  rep F s (plug k (Node cx a x (Node cy b y d))) →
  wp (RB_ROTATE_LEFT (Some x))
    (λ r s', r = Some y ∧ rep F s' (plug k (Node cy (Node cx a x b) y d))) s.
Proof.
  rewrite rep_plug. intros (Hk & Ht & Hnd & Hout). simpl in Hk, Ht.
  destruct Ht as (Hx & Ha & Hy & Hb & Hd).
  unfold RB_ROTATE_LEFT, replace_child.
  destruct b as [|cb bl z br]; destruct k as [|[cp p w|cp w p] k]; simpl in Hk, Hb, Hnd;
   split_hyps; assert (kept _) as Hnd' by exact Hnd; nodup_facts.
  all: wp_steps; split; [done|].
  all: solve_rep.
Qed.

Lemma rep_rotate_right F s k cx a x cy b y d :
  rep F s (plug k (Node cy (Node cx a x b) y d)) →
  wp (RB_ROTATE_RIGHT (Some y))
    (λ r s', r = Some x ∧ rep F s' (plug k (Node cx a x (Node cy b y d)))) s.
Proof.
  rewrite rep_plug. intros (Hk & Ht & Hnd & Hout). simpl in Hk, Ht.
  destruct Ht as (Hy & (Hx & Ha & Hb) & Hd).
  unfold RB_ROTATE_RIGHT, replace_child.
  destruct b as [|cb bl z br]; destruct k as [|[cp p w|cp w p] k]; simpl in Hk, Hb, Hnd;
   split_hyps; assert (kept _) as Hnd' by exact Hnd; nodup_facts.
  all: wp_steps; split; [done|].
  all: solve_rep.
Qed.

Lemma rep_set_color F s k c c' l x r :
  rep F s (plug k (Node c l x r)) →
  wp (set_color (Some x) c') (λ _ s', rep F s' (plug k (Node c' l x r))) s.
Proof.
  rewrite rep_plug. intros (Hk & Ht & Hnd & Hout). simpl in Ht. split_hyps.
  assert (kept _) as Hnd' by exact Hnd. simpl in Hnd, Hnd'. nodup_facts.
  wp_steps. solve_rep.
Qed.

(** ** Reading through the representation *)

Lemma rep_lookup F s k c l x r :
  rep F s (plug k (Node c l x r)) →
  rb_fields s !! x = Some (RBNode (rootp l) (rootp r) (parentp k) c).
Proof. rewrite rep_plug. simpl. naive_solver. Qed.

Lemma rep_is_red F s k t (Q : bool → rbtree → Prop) :
  rep F s (plug k t) → Q (bool_decide (tree_color t = RB_RED)) s → wp (is_red (rootp t)) Q s.
Proof.
  intros H HQ. destruct t as [|c l x r]; simpl; [by apply wp_ret|].
  apply rep_lookup in H. by wp_steps.
Qed.

Lemma rep_is_black F s k t (Q : bool → rbtree → Prop) :
  rep F s (plug k t) → Q (bool_decide (tree_color t = RB_BLACK)) s → wp (is_black (rootp t)) Q s.
Proof.
  intros H HQ. destruct t as [|c l x r]; simpl; [by apply wp_ret|].
  apply rep_lookup in H. by wp_steps.
Qed.

Lemma rep_root F s T (Q : ptr → rbtree → Prop) :
  rep F s T → Q (rootp T) s → wp RB_ROOT Q s.
Proof. intros [<- _] HQ. by apply wp_gets. Qed.

Lemma rep_NoDup F s T : rep F s T → NoDup (elems T).
Proof. by intros (_ & _ & ? & _). Qed.

(** The fuel of the loops exceeds the number of elements. *)
Lemma rep_fuel F s T : rep F s T → length (elems T) < rb_fuel s.
Proof.
  intros (_ & Ht & Hnd & _). unfold rb_fuel.
  assert (length (elems T) ≤ size (rb_fields s)); [|lia].
  rewrite <- size_dom, <- (size_list_to_set (C := gset addr)) by done.
  apply subseteq_size. intros x. rewrite elem_of_list_to_set, elem_of_dom.
  by eapply tree_at_lookup.
Qed.

Lemma rep_fuel_height F s T : rep F s T → height T < rb_fuel s.
Proof. intros H. pose proof (rep_fuel _ _ _ H). pose proof (height_elems T). lia. Qed.

Lemma rep_fuel_plug F s k t : rep F s (plug k t) → length k + height t < rb_fuel s.
Proof. intros H. pose proof (rep_fuel_height _ _ _ H). pose proof (height_plug k t). lia. Qed.

(** Apply a triple to the first command of a sequence. *)
Ltac wp_call H :=
  lazymatch goal with
  | |- wp (mbind _ _) _ _ => eapply wp_seq
  | |- wp _ _ _ => eapply wp_mono
  end; [eapply H|cbv beta; intros].
