(* ===== verification/RBInsert.v ===== *)
(** Correctness of [RB_INSERT_COLOR] and [RB_INSERT]. *)

From S2P Require Export Interfaces RBRotate.

Definition blacken (t : tree) : tree :=
  match t with Leaf => Leaf | Node _ l x r => Node RB_BLACK l x r end.

Lemma rb_ok_blacken T : rb_ok T → rb_ok (blacken T).
Proof. intros [n H]. exists n. by inversion H; subst. Qed.

Lemma blacken_red n l x r :
  rbt RB_BLACK n l → rbt RB_BLACK n r → rb_ok (blacken (Node RB_RED l x r)).
Proof. exists (S n). simpl. eauto with rb. Qed.

Lemma elems_blacken T : elems (blacken T) = elems T.
Proof. by destruct T. Qed.

(** What the recoloring loop leaves: the same elements, balanced once the root is black. *)
Definition colored (F : gmap addr rbnode) (L : list addr) (s : rbtree) : Prop :=
  ∃ T, rep F s T ∧ elems T = L ∧ T ≠ Leaf ∧ rb_ok (blacken T).

Lemma plug_not_Leaf k c l x r : plug k (Node c l x r) ≠ Leaf.
Proof. revert c l x r; induction k as [|[] k IH]; intros; simpl; auto. Qed.

Lemma colored_black F k n l x r s :
  rep F s (plug k (Node RB_RED l x r)) → rbk RB_RED n k →
  rbt RB_BLACK n l → rbt RB_BLACK n r →
  colored F (elems (plug k (Node RB_RED l x r))) s.
Proof.
  intros Hrep Hk Hl Hr. exists (plug k (Node RB_RED l x r)). split_and!; try done.
  - apply plug_not_Leaf.
  - apply rb_ok_blacken. eapply rbk_plug; eauto with rb.
Qed.

Ltac solve_colored :=
  cbv beta; intros;
  match goal with
  | H : colored ?F ?L ?s |- colored ?F ?L' ?s =>
      replace L' with L; [exact H|rewrite !elems_plug; by list_norm]
  end.

(** The loop body below a red parent [p] whose parent [g] is black, given the loop for
    smaller contexts. *)
Section insert_case.
Variables (F : gmap addr rbnode) (fuel : nat).

Definition loop_ok (k : ctx) : Prop := ∀ n l x r s,
  rep F s (plug k (Node RB_RED l x r)) →
  rbk RB_BLACK n k → rbt RB_BLACK n l → rbt RB_BLACK n r →
  wp (RB_INSERT_COLOR_loop fuel (Some x))
    (λ _ s', colored F (elems (plug k (Node RB_RED l x r))) s') s.

Hypothesis IH : ∀ k, length k < fuel → loop_ok k.

(** Red uncle [u]: push the red up to [g] and go on from there. *)
Lemma insert_recolor_left k n ca cb a p b g ul u ur s :
  let T := plug k (Node RB_BLACK (Node RB_RED a p b) g (Node RB_RED ul u ur)) in
  rep F s T → rbk RB_BLACK (S n) k → rbt ca n a → rbt cb n b →
  rbt RB_RED n (Node RB_RED ul u ur) → length k < fuel →
  wp (set_color (Some u) RB_BLACK;; RB_SET_BLACKRED (Some p) (Some g);;
      RB_INSERT_COLOR_loop fuel (Some g)) (λ _ s', colored F (elems T) s') s.
Proof.
  intros T Hrep Hk Ha Hb Hu Hfuel. inversion Hu; subst.
  wp_call (rep_set_color F s (FR RB_BLACK (Node RB_RED a p b) g :: k)); [exact Hrep|].
  apply wp_bind. unfold RB_SET_BLACKRED.
  wp_call (rep_set_color F s' (FL RB_BLACK g (Node RB_BLACK ul u ur) :: k)); [done|].
  wp_call (rep_set_color F s'0 k); [done|].
  eapply wp_mono; [eapply IH; eauto with rb|]. unfold T. solve_colored.
Qed.

Lemma insert_recolor_right k n ca cb a p b g ul u ur s :
  let T := plug k (Node RB_BLACK (Node RB_RED ul u ur) g (Node RB_RED a p b)) in
  rep F s T → rbk RB_BLACK (S n) k → rbt ca n a → rbt cb n b →
  rbt RB_RED n (Node RB_RED ul u ur) → length k < fuel →
  wp (set_color (Some u) RB_BLACK;; RB_SET_BLACKRED (Some p) (Some g);;
      RB_INSERT_COLOR_loop fuel (Some g)) (λ _ s', colored F (elems T) s') s.
Proof.
  intros T Hrep Hk Ha Hb Hu Hfuel. inversion Hu; subst.
  wp_call (rep_set_color F s (FL RB_BLACK g (Node RB_RED a p b) :: k)); [exact Hrep|].
  apply wp_bind. unfold RB_SET_BLACKRED.
  wp_call (rep_set_color F s' (FR RB_BLACK (Node RB_BLACK ul u ur) g :: k)); [done|].
  wp_call (rep_set_color F s'0 k); [done|].
  eapply wp_mono; [eapply IH; eauto with rb|]. unfold T. solve_colored.
Qed.

(** Black uncle: the rotation at [g] ends the repair. *)
Lemma insert_rotate_right k n l x r p w g u s :
  let T := plug k (Node RB_BLACK (Node RB_RED (Node RB_RED l x r) p w) g u) in
  rep F s T → rbk RB_BLACK (S n) k →
  rbt RB_BLACK n l → rbt RB_BLACK n r → rbt RB_BLACK n w → rbt RB_BLACK n u →
  S (length k) < fuel →
  wp (RB_SET_BLACKRED (Some p) (Some g);; RB_ROTATE_RIGHT (Some g);;
      RB_INSERT_COLOR_loop fuel (Some x)) (λ _ s', colored F (elems T) s') s.
Proof.
  intros T Hrep Hk Hl Hr Hw Hu Hfuel.
  apply wp_bind. unfold RB_SET_BLACKRED.
  wp_call (rep_set_color F s (FL RB_BLACK g u :: k)); [exact Hrep|].
  wp_call (rep_set_color F s' k); [done|].
  wp_call (rep_rotate_right F s'0 k); [done|]. split_hyps.
  eapply wp_mono; [eapply (IH (FL RB_BLACK p (Node RB_RED w g u) :: k)); eauto with rb|].
  unfold T. solve_colored.
Qed.

Lemma insert_rotate_left k n l x r p w g u s :
  let T := plug k (Node RB_BLACK u g (Node RB_RED w p (Node RB_RED l x r))) in
  rep F s T → rbk RB_BLACK (S n) k →
  rbt RB_BLACK n l → rbt RB_BLACK n r → rbt RB_BLACK n w → rbt RB_BLACK n u →
  S (length k) < fuel →
  wp (RB_SET_BLACKRED (Some p) (Some g);; RB_ROTATE_LEFT (Some g);;
      RB_INSERT_COLOR_loop fuel (Some x)) (λ _ s', colored F (elems T) s') s.
Proof.
  intros T Hrep Hk Hl Hr Hw Hu Hfuel.
  apply wp_bind. unfold RB_SET_BLACKRED.
  wp_call (rep_set_color F s (FR RB_BLACK u g :: k)); [exact Hrep|].
  wp_call (rep_set_color F s' k); [done|].
  wp_call (rep_rotate_left F s'0 k); [done|]. split_hyps.
  eapply wp_mono; [eapply (IH (FR RB_BLACK (Node RB_RED u g w) p :: k)); eauto with rb|].
  unfold T. solve_colored.
Qed.

(** Read the relatives of [x] and the color of the uncle [u]. *)
Ltac insert_prefix Hrep fx fp k fu u :=
  simpl;
  match type of Hrep with
  | rep ?F ?s ?T =>
      apply (rep_lookup F s (fx :: fp :: k)) in Hrep as Hx;
      apply (rep_lookup F s (fp :: k)) in Hrep as Hp;
      apply (rep_lookup F s k) in Hrep as Hg;
      apply rep_NoDup in Hrep as Hnd; unfold T in Hnd; rewrite elems_plug in Hnd;
      simpl in Hnd; nodup_facts;
      wp_steps; simpl; wp_steps;
      rewrite bool_decide_true by done; simpl; wp_steps;
      eapply (rep_is_red F s (fu :: k) u); [exact Hrep|]
  end.

Lemma insert_left_left k n l x r p w g cu u s :
  let T := plug k (Node RB_BLACK (Node RB_RED (Node RB_RED l x r) p w) g u) in
  rep F s T → rbk RB_BLACK (S n) k →
  rbt RB_BLACK n l → rbt RB_BLACK n r → rbt RB_BLACK n w → rbt cu n u →
  S (length k) < fuel →
  wp (RB_INSERT_COLOR_loop (S fuel) (Some x)) (λ _ s', colored F (elems T) s') s.
Proof.
  intros T Hrep Hk Hl Hr Hw Hu Hfuel.
  insert_prefix Hrep (FL RB_RED p w) (FL RB_BLACK g u) k (FR RB_BLACK (Node RB_RED (Node RB_RED l x r) p w) g) u.
  destruct cu.
  - rewrite (rbt_color _ _ _ Hu). simpl. wp_steps.
    apply wp_unbind. eapply insert_rotate_right; eauto.
  - inversion Hu; subst. simpl. eapply insert_recolor_left; eauto with rb lia.
Qed.

Lemma insert_left_right k n l x r p w g cu u s :
  let T := plug k (Node RB_BLACK (Node RB_RED w p (Node RB_RED l x r)) g u) in
  rep F s T → rbk RB_BLACK (S n) k →
  rbt RB_BLACK n l → rbt RB_BLACK n r → rbt RB_BLACK n w → rbt cu n u →
  S (length k) < fuel →
  wp (RB_INSERT_COLOR_loop (S fuel) (Some x)) (λ _ s', colored F (elems T) s') s.
Proof.
  intros T Hrep Hk Hl Hr Hw Hu Hfuel.
  insert_prefix Hrep (FR RB_RED w p) (FL RB_BLACK g u) k (FR RB_BLACK (Node RB_RED w p (Node RB_RED l x r)) g) u.
  destruct cu.
  - rewrite (rbt_color _ _ _ Hu). simpl. wp_steps.
    wp_call (rep_rotate_left F s (FL RB_BLACK g u :: k)); [exact Hrep|]. split_hyps. wp_steps.
    apply wp_unbind. eapply wp_mono; [eapply insert_rotate_right; eauto|].
    unfold T. solve_colored.
  - inversion Hu; subst. simpl. eapply insert_recolor_left; eauto with rb lia.
Qed.

Lemma insert_right_left k n l x r p w g cu u s :
  let T := plug k (Node RB_BLACK u g (Node RB_RED (Node RB_RED l x r) p w)) in
  rep F s T → rbk RB_BLACK (S n) k →
  rbt RB_BLACK n l → rbt RB_BLACK n r → rbt RB_BLACK n w → rbt cu n u →
  S (length k) < fuel →
  wp (RB_INSERT_COLOR_loop (S fuel) (Some x)) (λ _ s', colored F (elems T) s') s.
Proof.
  intros T Hrep Hk Hl Hr Hw Hu Hfuel.
  insert_prefix Hrep (FL RB_RED p w) (FR RB_BLACK u g) k (FL RB_BLACK g (Node RB_RED (Node RB_RED l x r) p w)) u.
  destruct cu.
  - rewrite (rbt_color _ _ _ Hu). simpl. wp_steps.
    wp_call (rep_rotate_right F s (FR RB_BLACK u g :: k)); [exact Hrep|]. split_hyps. wp_steps.
    apply wp_unbind. eapply wp_mono; [eapply insert_rotate_left; eauto|].
    unfold T. solve_colored.
  - inversion Hu; subst. simpl. eapply insert_recolor_right; eauto with rb lia.
Qed.

Lemma insert_right_right k n l x r p w g cu u s :
  let T := plug k (Node RB_BLACK u g (Node RB_RED w p (Node RB_RED l x r))) in
  rep F s T → rbk RB_BLACK (S n) k →
  rbt RB_BLACK n l → rbt RB_BLACK n r → rbt RB_BLACK n w → rbt cu n u →
  S (length k) < fuel →
  wp (RB_INSERT_COLOR_loop (S fuel) (Some x)) (λ _ s', colored F (elems T) s') s.
Proof.
  intros T Hrep Hk Hl Hr Hw Hu Hfuel.
  insert_prefix Hrep (FR RB_RED w p) (FR RB_BLACK u g) k (FL RB_BLACK g (Node RB_RED w p (Node RB_RED l x r))) u.
  destruct cu.
  - rewrite (rbt_color _ _ _ Hu). simpl. wp_steps.
    apply wp_unbind. eapply insert_rotate_left; eauto.
  - inversion Hu; subst. simpl. eapply insert_recolor_right; eauto with rb lia.
Qed.

End insert_case.

Lemma insert_color_loop fuel F : ∀ k, length k < fuel → loop_ok F fuel k.
Proof.
  induction fuel as [|fuel IH]; [lia|]. intros k Hfuel n l x r s Hrep Hk Hl Hr.
  apply rep_lookup in Hrep as Hx.
  remember RB_BLACK as cb eqn:Ecb in Hk.
  destruct Hk as [n|n p w k Hw Hk|n w p k Hw Hk|c c' n p w k Hw Hk|c c' n w p k Hw Hk].
  - simpl. wp_steps. simpl. wp_steps. eexists; split_and!; [exact Hrep|done|done|].
    simpl. eapply blacken_red; eassumption.
  - inversion Hk; subst; simpl plug in *; simpl in Hfuel.
    + eapply insert_left_left; eauto. lia.
    + eapply insert_right_left; eauto. lia.
  - inversion Hk; subst; simpl plug in *; simpl in Hfuel.
    + eapply insert_left_right; eauto. lia.
    + eapply insert_right_right; eauto. lia.
  - apply (rep_lookup F s k) in Hrep as Hp. simpl. wp_steps. simpl. wp_steps.
    eapply (colored_black F (FL RB_BLACK p w :: k)); [exact Hrep|..]; eauto with rb.
  - apply (rep_lookup F s k) in Hrep as Hp. simpl. wp_steps. simpl. wp_steps.
    eapply (colored_black F (FR RB_BLACK w p :: k)); [exact Hrep|..]; eauto with rb.
Qed.

(** [RB_INSERT_COLOR] turns a tree whose only defect is the red node [x] into a
    red-black tree with the same elements. *)
Lemma rep_insert_color F s k x :
  rep F s (plug k (Node RB_RED Leaf x Leaf)) → rbk RB_BLACK 0 k →
  wp (RB_INSERT_COLOR (Some x))
    (λ _ s', ∃ T', rep F s' T' ∧ rb_ok T' ∧ elems T' = elems (plug k (Node RB_RED Leaf x Leaf))) s.
Proof.
  intros Hrep Hk. unfold RB_INSERT_COLOR.
  apply wp_bind, wp_gets.
  pose proof (rep_fuel_plug _ _ _ _ Hrep).
  wp_call insert_color_loop; [|exact Hrep|eauto with rb..|]; [lia|].
  destruct H0 as (T & HT & Helems & Hne & Hok).
  apply wp_bind. eapply rep_root; [exact HT|].
  destruct T as [|c l y r]; [done|]. simpl.
  eapply wp_mono; [apply (rep_set_color F s' [] c RB_BLACK); exact HT|].
  cbv beta; intros. exists (Node RB_BLACK l y r). split_and!; try done.
Qed.

(** ** The descent *)

(** The place of key [k0] is the hole of context [k]. *)
Definition gap (key : addr → Z) (k0 : Z) (k : ctx) : Prop :=
  (∀ p, p ∈ before k → (key p < k0)%Z) ∧ (∀ p, p ∈ after k → (k0 < key p)%Z).

Lemma gap_left key k0 k c l x r :
  sorted_by key (elems (plug k (Node c l x r))) → gap key k0 k → (k0 < key x)%Z →
  gap key k0 (FL c x r :: k).
Proof.
  rewrite elems_plug. simpl. rewrite !sorted_by_app, sorted_by_cons.
  intros Hs [Hb Ha] Hx. split; simpl; [done|]. intros p Hp.
  elem_cases; [done| |by apply Ha]. split_hyps. naive_solver lia.
Qed.

Lemma gap_right key k0 k c l x r :
  sorted_by key (elems (plug k (Node c l x r))) → gap key k0 k → (key x < k0)%Z →
  gap key k0 (FR c l x :: k).
Proof.
  rewrite elems_plug. simpl. rewrite !sorted_by_app.
  intros Hs [Hb Ha] Hx. split; simpl; [|done]. intros p Hp.
  elem_cases; [by apply Hb| |done]. split_hyps. etransitivity; [|exact Hx]. set_solver.
Qed.


(** The last comparison told on which side of the parent the hole is. *)
Definition side (k : ctx) (comp : Z) : Prop :=
  match k with
  | [] => True
  | FL _ _ _ :: _ => (comp < 0)%Z
  | FR _ _ _ :: _ => (0 ≤ comp)%Z
  end.

Lemma rep_descend F s key k0 cmp fuel t : ∀ k comp,
  rep F s (plug k t) → sorted_by key (elems (plug k t)) →
  compares key k0 cmp (elems t) → gap key k0 k → side k comp → height t < fuel →
  wp (RB_INSERT_descend cmp fuel (rootp t) (parentp k) comp)
    (λ r s', s' = s ∧
      match r with
      | inl p => p ∈ elems t ∧ key p = k0
      | inr (par, comp) => ∃ k', plug k' Leaf = plug k t ∧ gap key k0 k' ∧
                                 side k' comp ∧ par = parentp k'
      end) s.
Proof.
  revert t; induction fuel as [|fuel IH]; intros t k comp Hrep Hs Hc Hg Hside Hf; [lia|].
  destruct t as [|c l x r]; simpl.
  { apply wp_ret. split; [done|]. by exists k. }
  apply rep_lookup in Hrep as Hx. simpl in Hf, Hc.
  destruct (Hc x) as (z & Hz & Hsg); [set_solver|].
  apply wp_bind. eapply wp_of_res; [exact Hz|].
  assert (compares key k0 cmp (elems l)) as Hcl by (intros p Hp; apply Hc; set_solver).
  assert (compares key k0 cmp (elems r)) as Hcr by (intros p Hp; apply Hc; set_solver).
  destruct (Z.ltb_spec z 0); [|rewrite Z.gtb_ltb; destruct (Z.ltb_spec 0 z)].
  - wp_steps. eapply wp_mono; [apply (IH l (FL c x r :: k) z); try done|].
    + apply (gap_left key k0 k c l x r); [done..|lia].
    + lia.
    + intros [p|[par comp']] s' [-> Hr]; split; try done. set_solver.
  - wp_steps. eapply wp_mono; [apply (IH r (FR c l x :: k) z); try done|].
    + apply (gap_right key k0 k c l x r); [done..|lia].
    + simpl. lia.
    + intros [p|[par comp']] s' [-> Hr]; split; try done. set_solver.
  - apply wp_ret. split; [done|]. split; [set_solver|]. lia.
Qed.

(** ** The operation *)

(** Linking [elm] as a red leaf below the last node of the descent. *)
Lemma rep_link F s k x comp :
  rep F s (plug k Leaf) → is_Some (F !! x) → x ∉ elems (plug k Leaf) → side k comp →
  wp (RB_SET (Some x) (parentp k);;
      match parentp k with
      | Some _ => if (comp <? 0)%Z then set_left (parentp k) (Some x)
                  else set_right (parentp k) (Some x)
      | None => set_root (Some x)
      end) (λ _ s', rep F s' (plug k (Node RB_RED Leaf x Leaf))) s.
Proof.
  intros Hrep Hx Hnew Hside. pose proof Hrep as (_ & _ & _ & Hout).
  specialize (Hout _ Hnew). destruct Hx as [n0 Hx]. rewrite Hx in Hout. clear Hx.
  rename Hout into Hx. rewrite elems_plug in Hnew. simpl in Hnew.
  apply rep_plug in Hrep as (Hk & _ & Hnd & Hout).
  assert (kept (NoDup (before k ++ elems (Node RB_RED Leaf x Leaf) ++ after k))) as Hnd'.
  { unfold kept. simpl. apply NoDup_app in Hnd as (? & ? & ?). apply notin_app in Hnew as [? ?].
    apply NoDup_app. rewrite NoDup_cons. set_solver. }
  simpl in Hnd, Hnd', Hnew, Hout. unfold RB_SET. apply wp_bind.
  destruct k as [|[cp p w|cp w p] k]; simpl in Hk, Hside, Hnd, Hnew, Hout;
    split_hyps; nodup_facts.
  all: cbn [parentp frame_node].
  - wp_steps. solve_rep.
  - rewrite (proj2 (Z.ltb_lt _ _)) by done. wp_steps. solve_rep.
  - rewrite (proj2 (Z.ltb_ge _ _)) by done. wp_steps. solve_rep.
Qed.

(** [RB_INSERT]: an element with an equal key is returned and nothing changes; otherwise
    [x] becomes an element, at its place in the order, and the tree stays balanced. *)
Lemma rep_insert F s T key k0 cmp x :
  rep F s T → rb_ok T → sorted_by key (elems T) → compares key k0 cmp (elems T) →
  is_Some (F !! x) → x ∉ elems T →
  wp (RB_INSERT cmp (Some x))
    (λ r s',
      match r with
      | Some p => p ∈ elems T ∧ key p = k0 ∧ s' = s
      | None => ∃ l1 l2 T', elems T = l1 ++ l2 ∧ slot key k0 l1 l2 ∧
                  rep F s' T' ∧ rb_ok T' ∧ elems T' = l1 ++ x :: l2
      end) s.
Proof.
  intros Hrep [n Hn] Hs Hc Hx Hnew. pose proof (rep_fuel_height _ _ _ Hrep) as Hf.
  unfold RB_INSERT. apply wp_bind, wp_gets, wp_bind. eapply rep_root; [exact Hrep|].
  wp_call (rep_descend F s key k0 cmp (rb_fuel s) T [] 0); try done; [by split; set_solver|].
  destruct H as [-> H]. destruct a as [p|[par comp]].
  { apply wp_ret. set_solver. }
  destruct H as (k & Hk & Hg & Hsd & ->). simpl in Hk. subst T.
  destruct (rbk_unplug _ _ _ Hn) as (c & m & Hm & Hkk). inversion Hm; subst.
  eapply wp_seq; [exact (wp_unbind _ _ _ _ (rep_link F s k x comp Hrep Hx Hnew Hsd))|].
  cbv beta; intros _ s1 Hs1. eapply wp_seq; [exact Hs1|]. cbv beta; intros _ s2 Hs2.
  wp_call rep_insert_color; [exact Hs2|by apply rbk_black in Hkk|].
  destruct H as (T' & HT' & Hok & He). apply wp_ret.
  exists (before k), (after k), T'. rewrite He, !elems_plug. done.
Qed.
