(* ===== verification/RBRemove.v ===== *)
(** Correctness of [RB_REMOVE_COLOR] and [RB_REMOVE]. *)

From S2P Require Export RBInsert.

(** The part of the loop body of [RB_REMOVE_COLOR] after the sibling [tmp] is black. *)
Definition sibling_right (fuel : nat) (parent tmp : ptr) : RB ptr :=
  tl ← RB_LEFT tmp;
  lb ← is_black tl;
  tr ← RB_RIGHT tmp;
  rb ← is_black tr;
  if (lb && rb : bool) then
    set_color tmp RB_RED;;
    parent' ← RB_PARENT parent;
    RB_REMOVE_COLOR_loop fuel parent' parent
  else
    tmp ← (if (rb : bool) then
             oleft ← RB_LEFT tmp;
             (match oleft with Some _ => set_color oleft RB_BLACK | None => mret tt end);;
             set_color tmp RB_RED;;
             RB_ROTATE_RIGHT tmp;;
             RB_RIGHT parent
           else mret tmp);
    pc ← RB_COLOR parent;
    set_color tmp pc;;
    set_color parent RB_BLACK;;
    tr ← RB_RIGHT tmp;
    (match tr with Some _ => set_color tr RB_BLACK | None => mret tt end);;
    RB_ROTATE_LEFT parent;;
    RB_ROOT.

Definition sibling_left (fuel : nat) (parent tmp : ptr) : RB ptr :=
  tl ← RB_LEFT tmp;
  lb ← is_black tl;
  tr ← RB_RIGHT tmp;
  rb ← is_black tr;
  if (lb && rb : bool) then
    set_color tmp RB_RED;;
    parent' ← RB_PARENT parent;
    RB_REMOVE_COLOR_loop fuel parent' parent
  else
    tmp ← (if (lb : bool) then
             oright ← RB_RIGHT tmp;
             (match oright with Some _ => set_color oright RB_BLACK | None => mret tt end);;
             set_color tmp RB_RED;;
             RB_ROTATE_LEFT tmp;;
             RB_LEFT parent
           else mret tmp);
    pc ← RB_COLOR parent;
    set_color tmp pc;;
    set_color parent RB_BLACK;;
    tl ← RB_LEFT tmp;
    (match tl with Some _ => set_color tl RB_BLACK | None => mret tt end);;
    RB_ROTATE_RIGHT parent;;
    RB_ROOT.

(** The loop returns a node whose blackening makes the tree balanced. *)
Definition removed (F : gmap addr rbnode) (L : list addr) (e : ptr) (s : rbtree) : Prop :=
  ∃ k t, rep F s (plug k t) ∧ e = rootp t ∧ elems (plug k t) = L ∧ rb_ok (plug k (blacken t)).

(** A subtree one black node short, for a context that wants [S n]. *)
Definition short (n : nat) (t : tree) : Prop :=
  rbt RB_BLACK n t ∨ ∃ l x r, t = Node RB_RED l x r ∧ rbt RB_BLACK (S n) (blacken t).

Lemma rootp_plug_ne k t : k ≠ [] → NoDup (elems (plug k t)) → rootp t ≠ rootp (plug k t).
Proof.
  destruct k as [|f k _] using rev_ind; [done|]. intros _. rewrite plug_app. simpl.
  intros Hnd Heq.
  assert (rootp t = Some (frame_node f)) as Ht by (rewrite Heq; by destruct f).
  apply rootp_elem in Ht.
  assert (frame_node f ∈ elems (plug k t)) as Hin by (rewrite elems_plug; set_solver).
  destruct f as [c x r|c l x]; simpl in *; nodup_facts; contradiction.
Qed.

Lemma rep_root_plug F s k t (Q : bool → rbtree → Prop) :
  rep F s (plug k t) → Q (bool_decide (k = [])) s →
  wp (root ← RB_ROOT; mret (bool_decide (rootp t = root))) Q s.
Proof.
  intros Hrep HQ. apply wp_bind. eapply rep_root; [done|]. apply wp_ret.
  destruct k as [|f k]; simpl; [by rewrite bool_decide_true|].
  rewrite bool_decide_false; [done|]. apply (rootp_plug_ne (f :: k)); [done|].
  by eapply rep_NoDup.
Qed.

(** ** The loop *)

Lemma remove_exit_red F fuel k c n l x r s :
  rep F s (plug k (Node RB_RED l x r)) → rbk c n k → rbt RB_BLACK n (Node RB_BLACK l x r) →
  wp (RB_REMOVE_COLOR_loop (S fuel) (parentp k) (Some x))
    (λ e s', removed F (elems (plug k (Node RB_RED l x r))) e s') s.
Proof.
  intros Hrep Hk Ht. simpl. apply wp_bind.
  eapply (rep_is_black F s k (Node RB_RED l x r)); [exact Hrep|].
  wp_steps. apply wp_ret.
  eexists _, _. split_and!; [exact Hrep|done|done|]. simpl.
  eapply rbk_plug; [by eapply rbk_black|done].
Qed.

Lemma remove_exit_root F fuel T s :
  rep F s T → rb_ok (blacken T) →
  wp (RB_REMOVE_COLOR_loop (S fuel) NULL (rootp T)) (λ e s', removed F (elems T) e s') s.
Proof.
  intros Hrep Hok. simpl. apply wp_bind. eapply (rep_is_black F s [] T); [exact Hrep|].
  apply wp_bind. eapply rep_root; [exact Hrep|]. rewrite (bool_decide_true (rootp T = _)) by done.
  rewrite andb_false_r. apply wp_ret. by exists [], T.
Qed.

Ltac solve_removed :=
  cbv beta; intros;
  match goal with
  | H : removed ?F ?L ?e ?s |- removed ?F ?L' ?e ?s =>
      replace L' with L; [exact H|rewrite !elems_plug; by list_norm]
  end.

(** A repaired tree is returned by its root. *)
Lemma removed_root F L T s : rep F s T → rb_ok T → elems T = L → removed F L (rootp T) s.
Proof. intros. exists [], T. split_and!; [done..|]. by apply rb_ok_blacken. Qed.

(** Evaluate the color tests. *)
Ltac decide_colors :=
  repeat match goal with
    | |- context [@bool_decide (RB_BLACK = RB_BLACK) ?d] =>
        change (@bool_decide (RB_BLACK = RB_BLACK) d) with true
    | |- context [@bool_decide (RB_RED = RB_BLACK) ?d] =>
        change (@bool_decide (RB_RED = RB_BLACK) d) with false
    end;
  cbv beta; rewrite ?andb_false_r; simpl andb; cbv iota.

Section remove_case.
Variables (F : gmap addr rbnode) (fuel : nat).

Definition remove_loop_ok (k : ctx) : Prop := ∀ n t s,
  rep F s (plug k t) → rbk RB_BLACK (S n) k → short n t →
  wp (RB_REMOVE_COLOR_loop fuel (parentp k) (rootp t))
    (λ e s', removed F (elems (plug k t)) e s') s.

Hypothesis IH : ∀ k, length k < fuel → remove_loop_ok k.

(** The sibling has two black children: it turns red and the parent is short. *)
Lemma remove_recolor_l k n c t p wl y wr s :
  let T := plug k (Node c t p (Node RB_BLACK wl y wr)) in
  rep F s T → rbk RB_BLACK (S n) (FL c p (Node RB_BLACK wl y wr) :: k) →
  rbt RB_BLACK n t → 0 < fuel → (c = RB_BLACK → length k < fuel) →
  rbt RB_BLACK n wl → rbt RB_BLACK n wr →
  wp (set_color (Some y) RB_RED;;
      parent' ← RB_PARENT (Some p);
      RB_REMOVE_COLOR_loop fuel parent' (Some p)) (λ e s', removed F (elems T) e s') s.
Proof.
  intros T Hrep Hk Ht Hf Hfb Hl Hr.
  wp_call (rep_set_color F s (FR c t p :: k)); [exact Hrep|].
  rename H into Hrep'. simpl in Hrep'. apply (rep_lookup F s' k) in Hrep' as Hp.
  wp_steps.
  destruct c.
  - eapply wp_mono; [apply (IH k (Hfb eq_refl) (S n) _ s' Hrep')|].
    + inversion Hk; subst; eauto with rb.
    + left. eauto with rb.
    + unfold T. solve_removed.
  - destruct fuel as [|fuel']; [lia|].
    eapply wp_mono; [eapply (remove_exit_red F fuel' k); [exact Hrep'| |]|].
    + inversion Hk; subst; eauto with rb.
    + eauto with rb.
    + unfold T. solve_removed.
Qed.

Lemma remove_recolor_r k n c t p wl y wr s :
  let T := plug k (Node c (Node RB_BLACK wl y wr) p t) in
  rep F s T → rbk RB_BLACK (S n) (FR c (Node RB_BLACK wl y wr) p :: k) →
  rbt RB_BLACK n t → 0 < fuel → (c = RB_BLACK → length k < fuel) →
  rbt RB_BLACK n wl → rbt RB_BLACK n wr →
  wp (set_color (Some y) RB_RED;;
      parent' ← RB_PARENT (Some p);
      RB_REMOVE_COLOR_loop fuel parent' (Some p)) (λ e s', removed F (elems T) e s') s.
Proof.
  intros T Hrep Hk Ht Hf Hfb Hl Hr.
  wp_call (rep_set_color F s (FL c p t :: k)); [exact Hrep|].
  rename H into Hrep'. simpl in Hrep'. apply (rep_lookup F s' k) in Hrep' as Hp.
  wp_steps.
  destruct c.
  - eapply wp_mono; [apply (IH k (Hfb eq_refl) (S n) _ s' Hrep')|].
    + inversion Hk; subst; eauto with rb.
    + left. eauto with rb.
    + unfold T. solve_removed.
  - destruct fuel as [|fuel']; [lia|].
    eapply wp_mono; [eapply (remove_exit_red F fuel' k); [exact Hrep'| |]|].
    + inversion Hk; subst; eauto with rb.
    + eauto with rb.
    + unfold T. solve_removed.
Qed.

(** The sibling's outer child is red: the rotation at the parent ends the repair. *)
Lemma remove_rotate_l k n c t p cl wl y ca a z cb b s :
  let T := plug k (Node c t p (Node RB_BLACK wl y (Node RB_RED a z b))) in
  rep F s T → rbk RB_BLACK (S n) (FL c p (Node RB_BLACK wl y (Node RB_RED a z b)) :: k) →
  rbt RB_BLACK n t → rbt cl n wl → rbt ca n a → rbt cb n b →
  wp (pc ← RB_COLOR (Some p);
      set_color (Some y) pc;;
      set_color (Some p) RB_BLACK;;
      tr ← RB_RIGHT (Some y);
      (match tr with Some _ => set_color tr RB_BLACK | None => mret tt end);;
      RB_ROTATE_LEFT (Some p);;
      RB_ROOT) (λ e s', removed F (elems T) e s') s.
Proof.
  intros T Hrep Hk Ht Hl Ha Hb. apply (rep_lookup F s k) in Hrep as Hp. wp_steps.
  eapply wp_mono; [apply (rep_set_color F s (FR c t p :: k) RB_BLACK c); exact Hrep|].
  cbv beta; intros _ s1 H1. wp_call (rep_set_color F s1 k c RB_BLACK); [exact H1|].
  apply (rep_lookup F s' (FR RB_BLACK t p :: k)) in H as Hy. wp_steps.
  eapply wp_mono; [apply (rep_set_color F s' (FR c wl y :: FR RB_BLACK t p :: k) RB_RED RB_BLACK);
                   exact H|].
  cbv beta; intros _ s2 H2. wp_call (rep_rotate_left F s2 k); [exact H2|]. split_hyps.
  eapply rep_root; [eassumption|]. eapply removed_root; [eassumption| |].
  - inversion Hk; subst; eapply rbk_plug; eauto with rb.
  - unfold T. rewrite !elems_plug. by list_norm.
Qed.

Lemma remove_rotate_r k n c t p cr wr y ca a z cb b s :
  let T := plug k (Node c (Node RB_BLACK (Node RB_RED a z b) y wr) p t) in
  rep F s T → rbk RB_BLACK (S n) (FR c (Node RB_BLACK (Node RB_RED a z b) y wr) p :: k) →
  rbt RB_BLACK n t → rbt cr n wr → rbt ca n a → rbt cb n b →
  wp (pc ← RB_COLOR (Some p);
      set_color (Some y) pc;;
      set_color (Some p) RB_BLACK;;
      tl ← RB_LEFT (Some y);
      (match tl with Some _ => set_color tl RB_BLACK | None => mret tt end);;
      RB_ROTATE_RIGHT (Some p);;
      RB_ROOT) (λ e s', removed F (elems T) e s') s.
Proof.
  intros T Hrep Hk Ht Hl Ha Hb. apply (rep_lookup F s k) in Hrep as Hp. wp_steps.
  eapply wp_mono; [apply (rep_set_color F s (FL c p t :: k) RB_BLACK c); exact Hrep|].
  cbv beta; intros _ s1 H1. wp_call (rep_set_color F s1 k c RB_BLACK); [exact H1|].
  apply (rep_lookup F s' (FL RB_BLACK p t :: k)) in H as Hy. wp_steps.
  eapply wp_mono; [apply (rep_set_color F s' (FL c y wr :: FL RB_BLACK p t :: k) RB_RED RB_BLACK);
                   exact H|].
  cbv beta; intros _ s2 H2. wp_call (rep_rotate_right F s2 k); [exact H2|]. split_hyps.
  eapply rep_root; [eassumption|]. eapply removed_root; [eassumption| |].
  - inversion Hk; subst; eapply rbk_plug; eauto with rb.
  - unfold T. rewrite !elems_plug. by list_norm.
Qed.

Lemma remove_sibling_right k n c t p cl wl y cr wr s :
  let T := plug k (Node c t p (Node RB_BLACK wl y wr)) in
  rep F s T → rbk RB_BLACK (S n) (FL c p (Node RB_BLACK wl y wr) :: k) →
  rbt RB_BLACK n t → 0 < fuel → (c = RB_BLACK → length k < fuel) →
  rbt cl n wl → rbt cr n wr →
  wp (sibling_right fuel (Some p) (Some y)) (λ e s', removed F (elems T) e s') s.
Proof.
  intros T Hrep Hk Ht Hf Hfb Hl Hr. unfold sibling_right.
  apply (rep_lookup F s k) in Hrep as Hp.
  apply (rep_lookup F s (FR c t p :: k)) in Hrep as Hy.
  wp_steps. eapply (rep_is_black F s (FL RB_BLACK y wr :: FR c t p :: k) wl); [exact Hrep|].
  wp_steps. eapply (rep_is_black F s (FR RB_BLACK wl y :: FR c t p :: k) wr); [exact Hrep|].
  rewrite (rbt_color _ _ _ Hl), (rbt_color _ _ _ Hr).
  destruct cr; [destruct cl|]; decide_colors.
  - apply (remove_recolor_l k n); auto.
  - inversion Hl; subst. wp_steps.
    wp_call (rep_set_color F s (FL RB_BLACK y wr :: FR c t p :: k)); [exact Hrep|].
    wp_call (rep_set_color F s' (FR c t p :: k)); [eassumption|].
    wp_call (rep_rotate_right F s'0 (FR c t p :: k)); [eassumption|]. destruct H3 as [_ H3].
    rename H3 into Hrep'. simpl in Hrep'. apply (rep_lookup F s'1 k) in Hrep' as Hp'.
    eapply wp_RB_RIGHT; [exact Hp'|].
    eapply wp_mono; [eapply (remove_rotate_l k n); [exact Hrep'|..]; eauto with rb|].
    + inversion Hk; subst; eauto with rb.
    + unfold T. solve_removed.
  - inversion Hr; subst. apply wp_bind, wp_ret.
    eapply (remove_rotate_l k n); eauto.
Qed.

Lemma remove_sibling_left k n c t p cl wl y cr wr s :
  let T := plug k (Node c (Node RB_BLACK wl y wr) p t) in
  rep F s T → rbk RB_BLACK (S n) (FR c (Node RB_BLACK wl y wr) p :: k) →
  rbt RB_BLACK n t → 0 < fuel → (c = RB_BLACK → length k < fuel) →
  rbt cl n wl → rbt cr n wr →
  wp (sibling_left fuel (Some p) (Some y)) (λ e s', removed F (elems T) e s') s.
Proof.
  intros T Hrep Hk Ht Hf Hfb Hl Hr. unfold sibling_left.
  apply (rep_lookup F s k) in Hrep as Hp.
  apply (rep_lookup F s (FL c p t :: k)) in Hrep as Hy.
  wp_steps. eapply (rep_is_black F s (FL RB_BLACK y wr :: FL c p t :: k) wl); [exact Hrep|].
  wp_steps. eapply (rep_is_black F s (FR RB_BLACK wl y :: FL c p t :: k) wr); [exact Hrep|].
  rewrite (rbt_color _ _ _ Hl), (rbt_color _ _ _ Hr).
  destruct cl; [destruct cr|]; decide_colors.
  - apply (remove_recolor_r k n); auto.
  - inversion Hr; subst. wp_steps.
    wp_call (rep_set_color F s (FR RB_BLACK wl y :: FL c p t :: k)); [exact Hrep|].
    wp_call (rep_set_color F s' (FL c p t :: k)); [eassumption|].
    wp_call (rep_rotate_left F s'0 (FL c p t :: k)); [eassumption|]. destruct H3 as [_ H3].
    rename H3 into Hrep'. simpl in Hrep'. apply (rep_lookup F s'1 k) in Hrep' as Hp'.
    eapply wp_RB_LEFT; [exact Hp'|].
    eapply wp_mono; [eapply (remove_rotate_r k n); [exact Hrep'|..]; eauto with rb|].
    + inversion Hk; subst; eauto with rb.
    + unfold T. solve_removed.
  - inversion Hl; subst. apply wp_bind, wp_ret.
    eapply (remove_rotate_r k n); eauto.
Qed.

(** The body of the loop at a short subtree. *)
Lemma remove_body_left k n c t p w s :
  let T := plug k (Node c t p w) in
  rep F s T → rbk RB_BLACK (S n) (FL c p w :: k) → rbt RB_BLACK n t → S (length k) < S fuel →
  wp (RB_REMOVE_COLOR_loop (S fuel) (Some p) (rootp t)) (λ e s', removed F (elems T) e s') s.
Proof.
  intros T Hrep Hk Ht Hf. simpl. apply wp_bind.
  eapply (rep_is_black F s (FL c p w :: k) t); [exact Hrep|].
  rewrite (rbt_color _ _ _ Ht), bool_decide_true by done. wp_step.
  eapply rep_root; [exact Hrep|]. rewrite bool_decide_false.
  2: { apply (rootp_plug_ne (FL c p w :: k) t); [done|]. by eapply rep_NoDup. }
  simpl. apply (rep_lookup F s k) in Hrep as Hp. wp_steps.
  assert (∃ c' m, rbt c' (S n) w ∧ rbk c m k ∧ (c = RB_RED → c' = RB_BLACK)) as (c' & m & Hw & Hkk & Hcc).
  { inversion Hk; subst; eexists _, _; split_and!; eauto; done. }
  destruct w as [|cw wl y wr]; [by inversion Hw|].
  apply (rep_lookup F s (FR c t p :: k)) in Hrep as Hy. wp_steps.
  destruct cw.
  - rewrite decide_False by done. apply wp_ret. inversion Hw; subst.
    eapply (remove_sibling_right k n); eauto. all: lia.
  - rewrite decide_True by done. inversion Hw as [|? ? ? ? Hwl Hwr|]; subst.
    destruct c; [|by specialize (Hcc eq_refl)].
    inversion Hwl as [| |cl cr ? a z b Ha Hb]; subst.
    unfold RB_SET_BLACKRED. apply wp_bind, wp_bind.
    wp_call (rep_set_color F s (FR RB_BLACK t p :: k)); [exact Hrep|].
    wp_call (rep_set_color F s' k); [exact H|].
    wp_call (rep_rotate_left F s'0 k); [exact H0|]. destruct H1 as [_ Hrep'].
    apply (rep_lookup F s'1 (FL RB_BLACK y wr :: k)) in Hrep' as Hp'.
    eapply wp_RB_RIGHT; [exact Hp'|].
    eapply wp_mono; [eapply (remove_sibling_right (FL RB_BLACK y wr :: k) n); [exact Hrep'|..];
                     eauto|].
    + inversion Hk; subst; eauto with rb.
    + lia.
    + done.
    + unfold T. solve_removed.
Qed.

Lemma remove_body_right k n c t p w s :
  let T := plug k (Node c w p t) in
  rep F s T → rbk RB_BLACK (S n) (FR c w p :: k) → rbt RB_BLACK n t → S (length k) < S fuel →
  wp (RB_REMOVE_COLOR_loop (S fuel) (Some p) (rootp t)) (λ e s', removed F (elems T) e s') s.
Proof.
  intros T Hrep Hk Ht Hf. simpl. apply wp_bind.
  eapply (rep_is_black F s (FR c w p :: k) t); [exact Hrep|].
  rewrite (rbt_color _ _ _ Ht), bool_decide_true by done. wp_step.
  eapply rep_root; [exact Hrep|]. rewrite bool_decide_false.
  2: { apply (rootp_plug_ne (FR c w p :: k) t); [done|]. by eapply rep_NoDup. }
  simpl. apply (rep_lookup F s k) in Hrep as Hp.
  assert (∃ c' m, rbt c' (S n) w ∧ rbk c m k ∧ (c = RB_RED → c' = RB_BLACK)) as (c' & m & Hw & Hkk & Hcc).
  { inversion Hk; subst; eexists _, _; split_and!; eauto; done. }
  destruct w as [|cw wl y wr]; [by inversion Hw|].
  assert (Some y ≠ rootp t).
  { apply rep_NoDup in Hrep as Hnd. unfold T in Hnd. rewrite elems_plug in Hnd. simpl in Hnd.
    nodup_facts. by apply not_eq_sym, rootp_ne. }
  apply (rep_lookup F s (FL c p t :: k)) in Hrep as Hy. wp_steps.
  destruct cw.
  - rewrite decide_False by done. apply wp_ret. inversion Hw; subst.
    eapply (remove_sibling_left k n); eauto. all: lia.
  - rewrite decide_True by done. inversion Hw as [|? ? ? ? Hwl Hwr|]; subst.
    destruct c; [|by specialize (Hcc eq_refl)].
    inversion Hwr as [| |cl cr ? a z b Ha Hb]; subst.
    unfold RB_SET_BLACKRED. apply wp_bind, wp_bind.
    wp_call (rep_set_color F s (FL RB_BLACK p t :: k)); [exact Hrep|].
    wp_call (rep_set_color F s' k); [eassumption|].
    wp_call (rep_rotate_right F s'0 k); [eassumption|]. destruct H2 as [_ Hrep'].
    apply (rep_lookup F s'1 (FR RB_BLACK wl y :: k)) in Hrep' as Hp'.
    eapply wp_RB_LEFT; [exact Hp'|].
    eapply wp_mono; [eapply (remove_sibling_left (FR RB_BLACK wl y :: k) n); [exact Hrep'|..];
                     eauto|].
    + inversion Hk; subst; eauto with rb.
    + lia.
    + done.
    + unfold T. solve_removed.
Qed.
End remove_case.

Lemma remove_color_loop F fuel : ∀ k, length k < fuel → remove_loop_ok F fuel k.
Proof.
  induction fuel as [|fuel IH]; [lia|]. intros k Hf n t s Hrep Hk Ht.
  destruct Ht as [Ht|(l & x & r & -> & Ht)].
  - destruct k as [|[c p w|c w p] k]; simpl in Hf.
    + apply remove_exit_root; [done|]. apply rb_ok_blacken. by exists n.
    + eapply remove_body_left; eauto.
    + eapply remove_body_right; eauto.
  - eapply remove_exit_red; eauto.
Qed.

(** [RB_REMOVE_COLOR] repairs a subtree that lost one black node. *)
Lemma rep_remove_color F s k n t :
  rep F s (plug k t) → rbk RB_BLACK (S n) k → short n t →
  wp (RB_REMOVE_COLOR (parentp k) (rootp t))
    (λ _ s', ∃ T', rep F s' T' ∧ rb_ok T' ∧ elems T' = elems (plug k t)) s.
Proof.
  intros Hrep Hk Ht. unfold RB_REMOVE_COLOR. apply wp_bind, wp_gets.
  pose proof (rep_fuel_plug _ _ _ _ Hrep).
  wp_call remove_color_loop; [|exact Hrep|exact Hk|exact Ht|]; [lia|].
  destruct H0 as (k' & t' & Hrep' & -> & He & Hok).
  destruct t' as [|c l x r]; simpl.
  - apply wp_ret. eauto.
  - eapply wp_mono; [apply (rep_set_color F s' k' c RB_BLACK); exact Hrep'|].
    cbv beta; intros. exists (plug k' (Node RB_BLACK l x r)). split_and!; [done..|].
    rewrite <- He, !elems_plug. done.
Qed.

(** ** Unlinking a node *)

(** [t] is what remains below a node with children [l] and [r], one of them missing. *)
Definition only_child (l r t : tree) : Prop := (l = Leaf ∧ t = r) ∨ (r = Leaf ∧ t = l).

Lemma only_child_elems c l x r t k : only_child l r t →
  ∃ l1 l2, elems (plug k (Node c l x r)) = l1 ++ x :: l2 ∧ elems (plug k t) = l1 ++ l2.
Proof.
  rewrite !elems_plug. simpl. intros [[-> ->]|[-> ->]].
  - by exists (before k), (elems r ++ after k).
  - exists (before k ++ elems l), (after k). by list_norm.
Qed.

Lemma rep_frame_ext F F' s T :
  (∀ p, p ∉ elems T → F !! p = F' !! p) → rep F s T → rep F' s T.
Proof. intros He (? & ? & ? & Hout). split_and!; try done. intros p Hp. rewrite <- He; auto. Qed.

Lemma rep_splice F s k c l x r t :
  rep F s (plug k (Node c l x r)) → only_child l r t →
  wp ((match rootp t with Some _ => set_parent (rootp t) (parentp k) | None => mret tt end);;
      replace_child (parentp k) (Some x) (rootp t))
    (λ _ s', rep (<[x := RBNode (rootp l) (rootp r) (parentp k) c]> F) s' (plug k t)) s.
Proof.
  rewrite rep_plug. intros (Hk & Ht & Hnd & Hout) Hoc. simpl in Hk, Ht.
  destruct Ht as (Hx & Hl & Hr). unfold replace_child. apply wp_bind.
  assert (kept (NoDup (before k ++ elems t ++ after k))) as Hnd'.
  { unfold kept. simpl in Hnd. destruct Hoc as [[-> ->]|[-> ->]]; simpl in *.
    - by apply NoDup_mid_remove in Hnd.
    - rewrite <- app_assoc in Hnd. rewrite app_assoc in Hnd |- *.
      by apply NoDup_mid_remove in Hnd. }
  assert (tree_at (rb_fields s) (Some x) t) as Ht by (by destruct Hoc as [[-> ->]|[-> ->]]).
  assert (∀ p, p ∉ before k ++ elems t ++ after k →
    rb_fields s !! p = <[x := RBNode (rootp l) (rootp r) (parentp k) c]> F !! p) as Hout'.
  { intros p Hp. destruct (decide (p = x)) as [->|Hne]; [by rewrite lookup_insert_eq|].
    rewrite lookup_insert_ne by done. apply Hout. simpl.
    destruct Hoc as [[-> ->]|[-> ->]]; set_solver. }
  assert (x ∉ before k ++ elems t ++ after k) as Hxt.
  { simpl in Hnd. destruct Hoc as [[-> ->]|[-> ->]]; simpl in *; nodup_facts; set_solver. }
  clear Hout Hl Hr Hnd Hoc. destruct t as [|ct tl z tr]; destruct k as [|[cp p w|cp w p] k];
    simpl in Hk, Ht, Hxt, Hout'; split_hyps; assert (NoDup _) as Hnd by exact Hnd';
    simpl in Hnd; nodup_facts.
  all: cbn [parentp frame_node rootp]; wp_steps; solve_rep.
Qed.

(** [y] takes over the fields of [x] and its place between parent and children. *)
Lemma rep_transplant F s k c l x y r :
  rep F s (plug k (Node c l x r)) → l ≠ Leaf → y ∉ elems (plug k (Node c l x r)) →
  is_Some (F !! y) →
  wp ((n ← load (Some x); store (Some y) n);;
      (po ← RB_PARENT (Some x); replace_child po (Some x) (Some y));;
      (ol ← RB_LEFT (Some x); set_parent ol (Some y));;
      (or ← RB_RIGHT (Some x);
       match or with Some _ => set_parent or (Some y) | None => mret tt end))
    (λ _ s', ∃ n, rep (<[x := n]> F) s' (plug k (Node c l y r))) s.
Proof.
  rewrite rep_plug, elems_plug. intros (Hk & Ht & Hnd & Hout) Hl Hy [ny HF]. simpl in Hk, Ht.
  destruct Ht as (Hx & Hlt & Hrt). unfold replace_child.
  rewrite <- (Hout _ Hy) in HF.
  assert (kept (NoDup (before k ++ elems (Node c l y r) ++ after k))) as Hnd'.
  { unfold kept. simpl in *. revert Hnd Hy. rewrite <- !app_assoc. simpl. rewrite !app_assoc.
    apply NoDup_mid_replace. }
  assert (∀ p, p ∉ before k ++ elems (Node c l y r) ++ after k →
    rb_fields s !! p = <[x := RBNode (rootp l) (rootp r) (parentp k) c]> F !! p) as Hout'.
  { intros p Hp. destruct (decide (p = x)) as [->|Hne]; [by rewrite lookup_insert_eq|].
    rewrite lookup_insert_ne by done. apply Hout. simpl in *. set_solver. }
  clear Hout. simpl in Hnd, Hy, Hout', Hnd'.
  destruct l as [|cl ll lx lr]; [done|]. simpl in Hlt.
  destruct r as [|cr rl rx rr]; destruct k as [|[cp p w|cp w p] k]; simpl in Hk, Hrt;
    split_hyps; simpl in Hnd, Hy; nodup_facts.
  all: cbn [parentp frame_node rootp] in *; wp_steps; eexists; solve_rep.
Qed.

(** The walk to the leftmost node of a subtree. *)
Lemma rep_leftmost F s fuel t : ∀ k, t ≠ Leaf → rep F s (plug k t) → height t ≤ fuel →
  wp (RB_leftmost fuel (rootp t))
    (λ e s', s' = s ∧ ∃ kr c y r, t = plug kr (Node c Leaf y r) ∧ e = Some y ∧ before kr = []) s.
Proof.
  revert fuel; induction t as [|c l IH x r _]; intros fuel k Hne Hrep Hf; [done|].
  destruct fuel as [|fuel]; simpl in Hf; [lia|]. simpl.
  apply rep_lookup in Hrep as Hx. wp_steps. destruct l as [|cl ll lx lr].
  - apply wp_ret. split; [done|]. by exists [], c, x, r.
  - eapply wp_mono; [apply (IH fuel (FL c x r :: k)); [done|done|lia]|].
    cbv beta. intros e s' (-> & kr & cy & y & ry & -> & -> & Hb). split; [done|].
    exists (kr ++ [FL c x r]), cy, y, ry. rewrite plug_app. split_and!; [done..|].
    clear -Hb. induction kr as [|[cp p w|cp w p] kr IH]; simpl in *; auto.
    apply app_eq_nil in Hb as [_ Hb]. by destruct (elems w).
Qed.

(** The walk up to the root ends and changes nothing. *)
Lemma rep_augment_up F s fuel k c l x r :
  rep F s (plug k (Node c l x r)) → length k < fuel →
  wp (RB_augment_up fuel (Some x)) (λ _ s', s' = s) s.
Proof.
  revert fuel c l x r; induction k as [|f k IH]; intros fuel c l x r Hrep Hf;
    (destruct fuel as [|fuel]; [simpl in Hf; lia|]); apply rep_lookup in Hrep as Hx; simpl;
    wp_steps; [done|].
  simpl in Hf. destruct f as [cp p w|cp w p]; simpl in Hrep |- *; eapply IH; eauto; lia.
Qed.

(** ** Balance after the unlinking *)

(** What taking a node of color [c] away leaves to repair at [t] in context [k]. *)
Definition lost (c : color) (k : ctx) (t : tree) : Prop :=
  match c with
  | RB_BLACK => ∃ n, rbk RB_BLACK (S n) k ∧ short n t
  | RB_RED => rb_ok (plug k t)
  end.

Lemma splice_lost k c l x r t :
  rb_ok (plug k (Node c l x r)) → only_child l r t → lost c k t.
Proof.
  intros [n Hn] Hoc. destruct (rbk_unplug _ _ _ Hn) as (c' & m & Ht & Hk).
  inversion Ht as [|? ? ? ? Hl Hr|? cl cr ? ? ? Hl Hr]; subst; simpl.
  - destruct Hoc as [[-> ->]|[-> ->]]; (eapply rbk_plug; [by eapply rbk_black|done]).
  - eexists; split; [done|].
    destruct Hoc as [[-> ->]|[-> ->]];
      [inversion Hl; subst; rename Hr into Hc|inversion Hr; subst; rename Hl into Hc];
      (inversion Hc; subst; [by left; constructor|right; eexists _, _, _; simpl; eauto with rb]).
Qed.

Lemma rbk_relabel c n kr c0 l x y k :
  rbk c n (kr ++ FR c0 l x :: k) → rbk c n (kr ++ FR c0 l y :: k).
Proof.
  revert c n; induction kr as [|[c1 q w|c1 w q] kr IH]; intros c n H; simpl in *; inversion H; subst;
    eauto with rb.
Qed.

Lemma rb_ok_relabel kr c0 l x y k t :
  rb_ok (plug (kr ++ FR c0 l x :: k) t) → rb_ok (plug (kr ++ FR c0 l y :: k) t).
Proof.
  intros [n H]. destruct (rbk_unplug _ _ _ H) as (c & m & Ht & Hk).
  eapply rbk_plug; [by eapply rbk_relabel|done].
Qed.

Lemma lost_relabel c kr c0 l x y k t :
  lost c (kr ++ FR c0 l x :: k) t → lost c (kr ++ FR c0 l y :: k) t.
Proof.
  destruct c; simpl; [|apply rb_ok_relabel]. intros (n & H & ?). exists n.
  split; [by eapply rbk_relabel|done].
Qed.

(** The recoloring call that ends [RB_REMOVE]. *)
Lemma rep_remove_finish F s k t c (x : addr) :
  rep F s (plug k t) → lost c k t →
  wp ((if decide (c = RB_BLACK) then RB_REMOVE_COLOR (parentp k) (rootp t) else mret tt);;
      mret (Some x))
    (λ r s', r = Some x ∧ ∃ T', rep F s' T' ∧ rb_ok T' ∧ elems T' = elems (plug k t)) s.
Proof.
  intros Hrep Hl. apply wp_bind. destruct c; simpl in Hl.
  - rewrite decide_True by done. destruct Hl as (n & Hk & Ht).
    eapply wp_mono; [by eapply rep_remove_color|]. cbv beta. intros _ s' H. by apply wp_ret.
  - rewrite decide_False by done. apply wp_ret, wp_ret. eauto.
Qed.

(** What [RB_REMOVE] promises for the tree of elements [L]. *)
Definition unlinked (F : gmap addr rbnode) (L : list addr) (x : addr) (r : ptr) (s : rbtree) : Prop :=
  r = Some x ∧ ∃ n l1 l2 T, L = l1 ++ x :: l2 ∧
    rep (<[x := n]> F) s T ∧ rb_ok T ∧ elems T = l1 ++ l2.

(** A node with at most one child is spliced out. *)
Lemma rep_remove_one F s k c l x r t :
  rep F s (plug k (Node c l x r)) → rb_ok (plug k (Node c l x r)) → only_child l r t →
  wp ((match rootp t with Some _ => set_parent (rootp t) (parentp k) | None => mret tt end);;
      replace_child (parentp k) (Some x) (rootp t))
    (λ _, wp ((if decide (c = RB_BLACK) then RB_REMOVE_COLOR (parentp k) (rootp t) else mret tt);;
              mret (Some x)) (unlinked F (elems (plug k (Node c l x r))) x)) s.
Proof.
  intros Hrep Hok Hoc. eapply wp_mono; [by apply rep_splice|]. cbv beta. intros _ s1 H1.
  eapply wp_mono; [eapply rep_remove_finish; [exact H1|by eapply splice_lost]|].
  cbv beta. intros ? s' [-> (T' & HT' & Hok' & He)]. split; [done|].
  destruct (only_child_elems c l x r t k Hoc) as (l1 & l2 & E1 & E2).
  eexists _, l1, l2, T'. rewrite He. eauto.
Qed.

(** Run the first command of a sequence whose triple is [H]. *)
Ltac unchain H :=
  try apply wp_bind; eapply wp_mono; [exact (wp_unbind _ _ _ _ H)|];
  clear H; cbv beta; intros ? ? H.

Ltac chain H :=
  try apply wp_bind; eapply wp_mono; [exact H|]; clear H; cbv beta; intros ? ? H.

(** A node with two children is replaced by its successor [y], which is spliced out. *)
Lemma rep_remove_two F s fuel k c l x kr cy y ry :
  let k' := kr ++ FR c l x :: k in
  rep F s (plug k' (Node cy Leaf y ry)) → rb_ok (plug k' (Node cy Leaf y ry)) →
  l ≠ Leaf → before kr = [] → length k' < fuel →
  wp ((match rootp ry with Some _ => set_parent (rootp ry) (parentp k') | None => mret tt end);;
      replace_child (parentp k') (Some y) (rootp ry))
    (λ _, wp (
      pe ← RB_PARENT (Some y);
      let parent := if decide (pe = Some x) then Some y else parentp k' in
      (n ← load (Some x); store (Some y) n);;
      (po ← RB_PARENT (Some x); replace_child po (Some x) (Some y));;
      (ol ← RB_LEFT (Some x); set_parent ol (Some y));;
      (or ← RB_RIGHT (Some x);
       match or with Some _ => set_parent or (Some y) | None => mret tt end);;
      (match parent with Some _ => RB_augment_up fuel parent | None => mret tt end);;
      mret (cy, parent, rootp ry))
        (λ r s', ∃ n, r = (cy, parentp (kr ++ FR c l y :: k), rootp ry) ∧
           rep (<[x := n]> F) s' (plug (kr ++ FR c l y :: k) ry))) s.
Proof.
  intros k' Hrep Hok Hl Hb Hf.
  apply rep_NoDup in Hrep as Hnd. rewrite elems_plug in Hnd.
  eapply wp_mono; [apply (rep_splice F s k' cy Leaf y ry ry); [exact Hrep|by left]|].
  cbv beta. intros _ s1 H1. set (ny := RBNode _ _ _ _) in H1.
  assert (y ∉ elems (plug k' ry)) as Hy.
  { rewrite elems_plug. simpl in Hnd. nodup_facts. set_solver. }
  assert (rb_fields s1 !! y = Some ny) as Hyn.
  { destruct H1 as (_ & _ & _ & Hout). rewrite Hout by done. apply lookup_insert_eq. }
  apply wp_bind. eapply wp_RB_PARENT; [exact Hyn|]. simpl rbe_parent.
  replace (if decide (parentp k' = Some x) then Some y else parentp k')
    with (parentp (kr ++ FR c l y :: k)).
  2: { unfold k' in *. destruct kr as [|f kr]; simpl; [by rewrite decide_True|].
       rewrite decide_False; [done|]. intros [= E].
       destruct f as [cf z w|cf w z]; simpl in E, Hnd, Hb; subst z.
       - rewrite before_app in Hnd. simpl in Hnd. nodup_facts. congruence.
       - by apply app_eq_nil in Hb as [_ Hb]; destruct (elems w). }
  cbv zeta. unfold k' in H1, Hy. rewrite plug_app in H1, Hy. simpl in H1, Hy.
  pose proof (rep_transplant _ _ _ _ _ _ y _ H1 Hl Hy ltac:(rewrite lookup_insert_eq; eauto)) as H.
  unchain H. unchain H. unchain H.
  apply wp_bind. eapply wp_mono; [exact H|]. clear H. cbv beta. intros _ s2 [nx H2].
  assert (rep (<[x:=nx]> F) s2 (plug (kr ++ FR c l y :: k) ry)) as H2'.
  { rewrite plug_app. simpl. eapply rep_frame_ext; [|exact H2]. intros p Hp.
    destruct (decide (p = x)) as [->|]; [by rewrite !lookup_insert_eq|].
    rewrite !lookup_insert_ne; try done. intros ->. apply Hp. rewrite elems_plug. simpl. set_solver. }
  apply wp_bind. clear H2.
  eapply (wp_mono _ (λ _ s', s' = s2)); [|intros _ s3 ->; apply wp_ret; eauto].
  unfold k' in Hf. rewrite length_app in Hf. simpl in Hf.
  destruct (kr ++ FR c l y :: k) as [|f k2] eqn:E; [by destruct kr|].
  apply (f_equal length) in E. rewrite length_app in E. simpl in E, H2' |- *.
  destruct f; simpl in *; eapply rep_augment_up; eauto; lia.
Qed.

(** [RB_REMOVE]: a node of a red-black tree is taken out of it; the others keep their
    order, and the tree its balance. The memory of the node is no longer the tree's. *)
Lemma rep_remove F s T x :
  rep F s T → rb_ok T → x ∈ elems T → wp (RB_REMOVE (Some x)) (unlinked F (elems T) x) s.
Proof.
  intros Hrep Hok Hx. destruct (elems_split _ _ Hx) as (k & c & l & r & ->). clear Hx.
  apply rep_lookup in Hrep as Hxn. pose proof (rep_fuel_plug _ _ _ _ Hrep) as Hf.
  unfold RB_REMOVE. apply wp_bind, wp_gets.
  destruct l as [|cl ll lx lr]; [|destruct r as [|cr rl rx rr]].
  - wp_steps. pose proof (rep_remove_one F s k c Leaf x r r Hrep Hok ltac:(by left)) as H.
    unchain H. chain H. by apply wp_ret.
  - do 11 wp_step. pose proof (rep_remove_one F s k c _ x Leaf _ Hrep Hok ltac:(by right)) as H.
    unchain H. chain H. by apply wp_ret.
  - wp_steps. set (l := Node cl ll lx lr) in *. simpl in Hf.
    eapply wp_mono; [apply (rep_leftmost F s _ (Node cr rl rx rr) (FR c l x :: k));
                     [done|exact Hrep|simpl; lia]|].
    cbv beta. intros e s' (-> & kr & cy & y & ry & Hr & -> & Hb).
    change (plug k (Node c l x (Node cr rl rx rr))) with
      (plug (FR c l x :: k) (Node cr rl rx rr)) in Hrep, Hok.
    rewrite Hr, <- plug_app in Hrep, Hok.
    apply rep_lookup in Hrep as Hy. wp_steps.
    pose proof (rep_remove_two F s (rb_fuel s) k c l x kr cy y ry Hrep Hok ltac:(done) Hb) as H.
    pose proof (rep_fuel_plug _ _ _ _ Hrep). specialize (H ltac:(lia)).
    unchain H. chain H.
    eapply wp_mono; [exact H|]. clear H. cbv beta. intros ? ? (n & -> & H).
    eapply wp_mono.
    { eapply rep_remove_finish; [exact H|]. eapply lost_relabel, splice_lost; [exact Hok|by left]. }
    cbv beta. intros ? s3 [-> (T' & HT' & Hok' & He)]. split; [done|].
    exists n, (before k ++ elems l), (elems (Node cr rl rx rr) ++ after k), T'.
    split_and!; [|done..|].
    + rewrite elems_plug. by list_norm.
    + rewrite He, elems_plug, before_app, after_app, Hr, elems_plug, Hb. simpl.
      by list_norm.
Qed.
