(* ===== verification/RBFind.v ===== *)
(** Correctness of the searches [RB_FIND], [RB_NFIND], [RB_MIN], [RB_MAX] and of the
    traversals [RB_NEXT], [RB_PREV], [RB_FOREACH], [RB_FOREACH_REVERSE]. *)

From S2P Require Export RBInsert.

(** ** Search by key *)

Section search.
Variables (F : gmap addr rbnode) (s : rbtree) (key : addr → Z) (k0 : Z) (cmp : addr → res Z).

Lemma rep_find_loop fuel t : ∀ k,
  rep F s (plug k t) → sorted_by key (elems (plug k t)) →
  compares key k0 cmp (elems t) → gap key k0 k → height t < fuel →
  wp (RB_FIND_loop cmp fuel (rootp t))
    (λ r s', s' = s ∧
      match r with
      | Some p => p ∈ elems (plug k t) ∧ key p = k0
      | None => ∀ p, p ∈ elems (plug k t) → key p ≠ k0
      end) s.
Proof.
  revert t; induction fuel as [|fuel IH]; intros t k Hrep Hs Hc Hg Hf; [lia|].
  destruct t as [|c l x r]; simpl.
  { apply wp_ret. split; [done|]. intros p. rewrite elems_plug. simpl. destruct Hg as [Hb Ha].
    rewrite elem_of_app. intros [Hp|Hp]; [specialize (Hb _ Hp)|specialize (Ha _ Hp)]; lia. }
  apply rep_lookup in Hrep as Hx. simpl in Hf, Hc.
  destruct (Hc x) as (z & Hz & Hsg); [set_solver|].
  apply wp_bind. eapply wp_of_res; [exact Hz|].
  destruct (Z.ltb_spec z 0); [|rewrite Z.gtb_ltb; destruct (Z.ltb_spec 0 z)].
  - wp_steps. eapply wp_mono; [apply (IH l (FL c x r :: k)); try done|done].
    + intros p Hp; apply Hc; set_solver.
    + apply (gap_left key k0 k c l x r); [done..|lia].
    + lia.
  - wp_steps. eapply wp_mono; [apply (IH r (FR c l x :: k)); try done|done].
    + intros p Hp; apply Hc; set_solver.
    + apply (gap_right key k0 k c l x r); [done..|lia].
    + lia.
  - apply wp_ret. split; [done|]. rewrite elems_plug. simpl. split; [set_solver|lia].
Qed.

(** [r] is the first element of [L] whose key is not below [k0]. *)
Definition first_geq (L : list addr) (r : ptr) : Prop :=
  ∃ l1 l2, L = l1 ++ l2 ∧ (∀ p, p ∈ l1 → (key p < k0)%Z) ∧
           (∀ p, p ∈ l2 → (k0 ≤ key p)%Z) ∧ r = head l2.

Lemma rep_nfind_loop fuel t : ∀ k,
  rep F s (plug k t) → sorted_by key (elems (plug k t)) →
  compares key k0 cmp (elems t) → gap key k0 k → height t < fuel →
  wp (RB_NFIND_loop cmp fuel (rootp t) (head (after k)))
    (λ r s', s' = s ∧ first_geq (elems (plug k t)) r) s.
Proof.
  revert t; induction fuel as [|fuel IH]; intros t k Hrep Hs Hc Hg Hf; [lia|].
  destruct t as [|c l x r]; simpl.
  { apply wp_ret. split; [done|]. rewrite elems_plug. simpl. destruct Hg as [Hb Ha].
    exists (before k), (after k). split_and!; try done. intros p Hp. specialize (Ha _ Hp). lia. }
  apply rep_lookup in Hrep as Hx. simpl in Hf, Hc.
  destruct (Hc x) as (z & Hz & Hsg); [set_solver|].
  apply wp_bind. eapply wp_of_res; [exact Hz|].
  destruct (Z.ltb_spec z 0); [|rewrite Z.gtb_ltb; destruct (Z.ltb_spec 0 z)].
  - wp_steps. eapply wp_mono; [apply (IH l (FL c x r :: k)); try done|done].
    + intros p Hp; apply Hc; set_solver.
    + apply (gap_left key k0 k c l x r); [done..|lia].
    + lia.
  - wp_steps. eapply wp_mono; [apply (IH r (FR c l x :: k)); try done|done].
    + intros p Hp; apply Hc; set_solver.
    + apply (gap_right key k0 k c l x r); [done..|lia].
    + lia.
  - apply wp_ret. split; [done|]. rewrite elems_plug in *. simpl in *.
    exists (before k ++ elems l), (x :: elems r ++ after k).
    assert (k0 = key x) as -> by lia.
    rewrite <- !app_assoc in Hs. rewrite <- !app_assoc. simpl. simpl in Hs.
    rewrite !sorted_by_app, sorted_by_cons, sorted_by_app in Hs. split_hyps.
    split_and!; try done; intros p Hp; elem_cases; [set_solver|set_solver|lia|..].
    + apply Z.lt_le_incl. set_solver.
    + apply Z.lt_le_incl. set_solver.
Qed.
End search.

Lemma rep_find F s T key k0 cmp :
  rep F s T → sorted_by key (elems T) → compares key k0 cmp (elems T) →
  wp (RB_FIND cmp)
    (λ r s', s' = s ∧
      match r with
      | Some p => p ∈ elems T ∧ key p = k0
      | None => ∀ p, p ∈ elems T → key p ≠ k0
      end) s.
Proof.
  intros Hrep Hs Hc. pose proof (rep_fuel_height _ _ _ Hrep) as Hf. unfold RB_FIND.
  apply wp_bind, wp_gets, wp_bind. eapply rep_root; [exact Hrep|].
  apply (rep_find_loop F s key k0 cmp _ T []); try done. by split; set_solver.
Qed.

Lemma rep_nfind F s T key k0 cmp :
  rep F s T → sorted_by key (elems T) → compares key k0 cmp (elems T) →
  wp (RB_NFIND cmp) (λ r s', s' = s ∧ first_geq key k0 (elems T) r) s.
Proof.
  intros Hrep Hs Hc. pose proof (rep_fuel_height _ _ _ Hrep) as Hf. unfold RB_NFIND.
  apply wp_bind, wp_gets, wp_bind. eapply rep_root; [exact Hrep|].
  apply (rep_nfind_loop F s key k0 cmp _ T []); try done. by split; set_solver.
Qed.

(** ** Minimum and maximum *)

Lemma rep_min_loop F s fuel t : ∀ k,
  rep F s (plug k t) → height t < fuel →
  wp (RB_MINMAX_loop fuel (rootp t) (parentp k) RB_NEGINF)
    (λ r s', s' = s ∧ r = match t with Leaf => parentp k | _ => head (elems t) end) s.
Proof.
  revert t; induction fuel as [|fuel IH]; intros t k Hrep Hf; [lia|].
  destruct t as [|c l x r]; simpl; [by apply wp_ret|].
  apply rep_lookup in Hrep as Hx. wp_steps. simpl in Hf.
  eapply wp_mono; [apply (IH l (FL c x r :: k)); [done|lia]|].
  cbv beta. intros e s' [-> ->]. split; [done|].
  destruct l as [|cl ll lx lr]; simpl; [done|]. by destruct (elems ll).
Qed.

Lemma rep_max_loop F s fuel t : ∀ k,
  rep F s (plug k t) → height t < fuel →
  wp (RB_MINMAX_loop fuel (rootp t) (parentp k) RB_INF)
    (λ r s', s' = s ∧ r = match t with Leaf => parentp k | _ => last (elems t) end) s.
Proof.
  revert t; induction fuel as [|fuel IH]; intros t k Hrep Hf; [lia|].
  destruct t as [|c l x r]; simpl; [by apply wp_ret|].
  apply rep_lookup in Hrep as Hx. wp_steps. simpl in Hf.
  eapply wp_mono; [apply (IH r (FR c l x :: k)); [done|lia]|].
  cbv beta. intros e s' [-> ->]. split; [done|]. rewrite last_app_cons.
  destruct r as [|cr rl rx rr]; simpl; [done|]. by rewrite last_cons, last_app_cons;
    destruct (last (rx :: elems rr)) eqn:E; [|by apply last_None in E].
Qed.

Lemma rep_min F s T : rep F s T → wp RB_MIN (λ r s', s' = s ∧ r = head (elems T)) s.
Proof.
  intros Hrep. pose proof (rep_fuel_height _ _ _ Hrep) as Hf. unfold RB_MIN, RB_MINMAX.
  apply wp_bind, wp_gets, wp_bind. eapply rep_root; [exact Hrep|].
  eapply wp_mono; [by apply (rep_min_loop F s _ T [])|]. cbv beta. intros r s' [-> ->].
  by destruct T.
Qed.

Lemma rep_max F s T : rep F s T → wp RB_MAX (λ r s', s' = s ∧ r = last (elems T)) s.
Proof.
  intros Hrep. pose proof (rep_fuel_height _ _ _ Hrep) as Hf. unfold RB_MAX, RB_MINMAX.
  apply wp_bind, wp_gets, wp_bind. eapply rep_root; [exact Hrep|].
  eapply wp_mono; [by apply (rep_max_loop F s _ T [])|]. cbv beta. intros r s' [-> ->].
  by destruct T.
Qed.

(** ** Successor and predecessor *)

Lemma rep_leftmost_head F s fuel t : ∀ k, t ≠ Leaf → rep F s (plug k t) → height t ≤ fuel →
  wp (RB_leftmost fuel (rootp t)) (λ e s', s' = s ∧ e = head (elems t)) s.
Proof.
  revert fuel; induction t as [|c l IH x r _]; intros fuel k Hne Hrep Hf; [done|].
  destruct fuel as [|fuel]; simpl in Hf; [lia|]. simpl.
  apply rep_lookup in Hrep as Hx. wp_steps. destruct l as [|cl ll lx lr]; [by apply wp_ret|].
  eapply wp_mono; [apply (IH fuel (FL c x r :: k)); [done|done|lia]|].
  cbv beta. intros e s' [-> ->]. split; [done|]. simpl. by destruct (elems ll).
Qed.

Lemma rep_rightmost_last F s fuel t : ∀ k, t ≠ Leaf → rep F s (plug k t) → height t ≤ fuel →
  wp (RB_rightmost fuel (rootp t)) (λ e s', s' = s ∧ e = last (elems t)) s.
Proof.
  revert fuel; induction t as [|c l _ x r IH]; intros fuel k Hne Hrep Hf; [done|].
  destruct fuel as [|fuel]; simpl in Hf; [lia|]. simpl.
  apply rep_lookup in Hrep as Hx. wp_steps. rewrite last_app_cons.
  destruct r as [|cr rl rx rr]; [by apply wp_ret|].
  eapply wp_mono; [apply (IH fuel (FR c l x :: k)); [done|done|lia]|].
  cbv beta. intros e s' [-> ->]. split; [done|]. simpl. rewrite last_cons, last_app_cons.
  by destruct (last (rx :: elems rr)) eqn:E; [|by apply last_None in E].
Qed.

(** The hole of a context that is a left child, or the root: the climb from a right child
    stops there. *)
Definition at_left (k : ctx) : Prop := match k with FR _ _ _ :: _ => False | _ => True end.
Definition at_right (k : ctx) : Prop := match k with FL _ _ _ :: _ => False | _ => True end.

Lemma rep_climb_right F s fuel k : ∀ c l x r,
  rep F s (plug k (Node c l x r)) → length k < fuel →
  wp (RB_climb RB_RIGHT fuel (Some x))
    (λ e s', s' = s ∧ ∃ k' c' l' x' r', plug k (Node c l x r) = plug k' (Node c' l' x' r') ∧
       e = Some x' ∧ after k' = after k ∧ at_left k') s.
Proof.
  revert fuel; induction k as [|f k IH]; intros fuel c l x r Hrep Hf;
    (destruct fuel as [|fuel]; [simpl in Hf; lia|]); apply rep_lookup in Hrep as Hx; simpl;
    wp_steps.
  { apply wp_ret. split; [done|]. by exists [], c, l, x, r. }
  simpl in Hf. apply rep_NoDup in Hrep as Hnd. rewrite elems_plug in Hnd.
  destruct f as [cp p w|cp w p]; simpl in Hrep, Hnd; apply (rep_lookup F s k) in Hrep as Hp;
    nodup_facts.
  - eapply wp_RB_RIGHT; [exact Hp|]. simpl. rewrite decide_False.
    2: { intros E. symmetry in E. apply rootp_elem in E. contradiction. }
    apply wp_ret. split; [done|]. by exists (FL cp p w :: k), c, l, x, r.
  - eapply wp_RB_RIGHT; [exact Hp|]. simpl. rewrite decide_True by done.
    eapply wp_mono; [apply IH; [exact Hrep|lia]|]. cbv beta. naive_solver.
Qed.

Lemma rep_climb_left F s fuel k : ∀ c l x r,
  rep F s (plug k (Node c l x r)) → length k < fuel →
  wp (RB_climb RB_LEFT fuel (Some x))
    (λ e s', s' = s ∧ ∃ k' c' l' x' r', plug k (Node c l x r) = plug k' (Node c' l' x' r') ∧
       e = Some x' ∧ before k' = before k ∧ at_right k') s.
Proof.
  revert fuel; induction k as [|f k IH]; intros fuel c l x r Hrep Hf;
    (destruct fuel as [|fuel]; [simpl in Hf; lia|]); apply rep_lookup in Hrep as Hx; simpl;
    wp_steps.
  { apply wp_ret. split; [done|]. by exists [], c, l, x, r. }
  simpl in Hf. apply rep_NoDup in Hrep as Hnd. rewrite elems_plug in Hnd.
  destruct f as [cp p w|cp w p]; simpl in Hrep, Hnd; apply (rep_lookup F s k) in Hrep as Hp;
    nodup_facts.
  - eapply wp_RB_LEFT; [exact Hp|]. simpl. rewrite decide_True by done.
    eapply wp_mono; [apply IH; [exact Hrep|lia]|]. cbv beta. naive_solver.
  - eapply wp_RB_LEFT; [exact Hp|]. simpl. rewrite decide_False.
    2: { intros E. symmetry in E. apply rootp_elem in E. contradiction. }
    apply wp_ret. split; [done|]. by exists (FR cp w p :: k), c, l, x, r.
Qed.

Lemma rep_split F s T x l1 l2 :
  rep F s T → elems T = l1 ++ x :: l2 →
  ∃ k c l r, T = plug k (Node c l x r) ∧ l1 = before k ++ elems l ∧ l2 = elems r ++ after k.
Proof.
  intros Hrep He. destruct (elems_split x T) as (k & c & l & r & ->); [rewrite He; set_solver|].
  exists k, c, l, r. split; [done|]. apply rep_NoDup in Hrep as Hnd. rewrite He in Hnd.
  apply (NoDup_split_unique _ _ _ _ x Hnd). rewrite <- He, elems_plug. by list_norm.
Qed.

Lemma rep_next F s T x l1 l2 :
  rep F s T → elems T = l1 ++ x :: l2 → wp (RB_NEXT (Some x)) (λ r s', s' = s ∧ r = head l2) s.
Proof.
  intros Hrep He. destruct (rep_split _ _ _ _ _ _ Hrep He) as (k & c & l & r & -> & -> & ->).
  clear He. pose proof (rep_fuel_plug _ _ _ _ Hrep) as Hf. simpl in Hf.
  apply rep_lookup in Hrep as Hx. unfold RB_NEXT. apply wp_bind, wp_gets.
  generalize dependent (rb_fuel s). intros fuel Hf. wp_steps.
  destruct r as [|cr rl rx rr].
  - simpl. wp_steps. apply rep_NoDup in Hrep as Hnd. rewrite elems_plug in Hnd.
    destruct k as [|[cp p w|cp w p] k].
    + simpl. wp_steps.
      eapply wp_mono; [apply (rep_climb_right F s _ [] c l x Leaf Hrep); simpl; lia|].
      cbv beta. intros e s' (-> & k' & c' & l' & x' & r' & E & -> & Ha & Hl).
      rewrite E in Hrep. apply rep_lookup in Hrep as Hx'. eapply wp_RB_PARENT; [exact Hx'|].
      split; [done|]. simpl in Ha. by destruct k' as [|[]].
    + apply (rep_lookup F s k) in Hrep as Hp. simpl. wp_steps. by rewrite bool_decide_true.
    + apply (rep_lookup F s k) in Hrep as Hp. simpl. wp_steps. simpl in Hnd. nodup_facts.
      rewrite bool_decide_false.
      2: { intros E. symmetry in E. apply rootp_elem in E. contradiction. }
      apply wp_bind.
      eapply wp_mono; [apply (rep_climb_right F s _ (FR cp w p :: k) c l x Leaf Hrep); lia|].
      cbv beta. intros e s' (-> & k' & c' & l' & x' & r' & E & -> & Ha & Hl).
      rewrite E in Hrep. apply rep_lookup in Hrep as Hx'. eapply wp_RB_PARENT; [exact Hx'|].
      split; [done|]. simpl in Ha. rewrite <- Ha. by destruct k' as [|[]].
  - eapply wp_mono; [apply (rep_leftmost_head F s _ _ (FR c l x :: k)); [done|exact Hrep|lia]|].
    cbv beta. intros e s' [-> ->]. split; [done|]. simpl. by destruct (elems rl).
Qed.

Lemma rep_prev F s T x l1 l2 :
  rep F s T → elems T = l1 ++ x :: l2 → wp (RB_PREV (Some x)) (λ r s', s' = s ∧ r = last l1) s.
Proof.
  intros Hrep He. destruct (rep_split _ _ _ _ _ _ Hrep He) as (k & c & l & r & -> & -> & ->).
  clear He. pose proof (rep_fuel_plug _ _ _ _ Hrep) as Hf. simpl in Hf.
  apply rep_lookup in Hrep as Hx. unfold RB_PREV. apply wp_bind, wp_gets.
  generalize dependent (rb_fuel s). intros fuel Hf. wp_steps.
  assert (∀ k', at_right k' → parentp k' = last (before k')) as Hpar.
  { intros [|[] k'] ?; simpl; [done..|]. by rewrite app_assoc, last_snoc. }
  destruct l as [|cl ll lx lr].
  - simpl. rewrite app_nil_r. wp_steps.
    apply rep_NoDup in Hrep as Hnd. rewrite elems_plug in Hnd.
    destruct k as [|[cp p w|cp w p] k].
    + simpl. wp_steps.
      eapply wp_mono; [apply (rep_climb_left F s _ [] c Leaf x r Hrep); simpl; lia|].
      cbv beta. intros e s' (-> & k' & c' & l' & x' & r' & E & -> & Ha & Hl).
      rewrite E in Hrep. apply rep_lookup in Hrep as Hx'. eapply wp_RB_PARENT; [exact Hx'|].
      split; [done|]. simpl in Ha. rewrite Hpar by done. by rewrite Ha.
    + apply (rep_lookup F s k) in Hrep as Hp. simpl. wp_steps. simpl in Hnd. nodup_facts.
      rewrite bool_decide_false.
      2: { intros E. symmetry in E. apply rootp_elem in E. contradiction. }
      apply wp_bind.
      eapply wp_mono; [apply (rep_climb_left F s _ (FL cp p w :: k) c Leaf x r Hrep); lia|].
      cbv beta. intros e s' (-> & k' & c' & l' & x' & r' & E & -> & Ha & Hl).
      rewrite E in Hrep. apply rep_lookup in Hrep as Hx'. eapply wp_RB_PARENT; [exact Hx'|].
      split; [done|]. simpl in Ha |- *. rewrite Hpar by done. by rewrite Ha.
    + apply (rep_lookup F s k) in Hrep as Hp. simpl. wp_steps. rewrite bool_decide_true by done.
      apply wp_ret. split; [done|]. by rewrite app_assoc, last_snoc.
  - eapply wp_mono; [apply (rep_rightmost_last F s _ _ (FL c x r :: k)); [done|exact Hrep|lia]|].
    cbv beta. intros e s' [-> ->]. split; [done|]. simpl.
    rewrite app_assoc, !last_app_cons. done.
Qed.

(** ** The traversals visit every element, in order *)

Lemma rep_foreach F s T : rep F s T → wp RB_FOREACH (λ l s', s' = s ∧ l = elems T) s.
Proof.
  intros Hrep. pose proof (rep_fuel _ _ _ Hrep) as Hf. unfold RB_FOREACH.
  assert (∀ fuel l2 l1, elems T = l1 ++ l2 → length l2 < fuel →
    wp (RB_FOREACH_loop fuel (head l2)) (λ l s', s' = s ∧ l = l2) s) as Hloop.
  { induction fuel as [|fuel IH]; intros [|x l2] l1 He Hl; simpl in *; [lia..| |]; [by apply wp_ret|].
    eapply wp_seq; [exact (rep_next F s T x l1 l2 Hrep He)|]. cbv beta. intros r s' [-> ->].
    eapply wp_seq; [apply (IH l2 (l1 ++ [x])); [by list_norm|lia]|].
    cbv beta. intros l s' [-> ->]. by apply wp_ret. }
  apply wp_bind, wp_gets. eapply wp_seq; [exact (rep_min F s T Hrep)|]. cbv beta. intros r s' [-> ->].
  by apply (Hloop _ _ []).
Qed.

Lemma rep_foreach_reverse F s T :
  rep F s T → wp RB_FOREACH_REVERSE (λ l s', s' = s ∧ l = reverse (elems T)) s.
Proof.
  intros Hrep. pose proof (rep_fuel _ _ _ Hrep) as Hf. unfold RB_FOREACH_REVERSE.
  assert (∀ fuel l1 l2, elems T = l1 ++ l2 → length l1 < fuel →
    wp (RB_FOREACH_REVERSE_loop fuel (last l1)) (λ l s', s' = s ∧ l = reverse l1) s) as Hloop.
  { induction fuel as [|fuel IH]; intros l1 l2 He Hl; [lia|].
    destruct l1 as [|x l1 _] using rev_ind; simpl; [by apply wp_ret|].
    rewrite last_snoc, reverse_snoc. rewrite length_app in Hl. simpl in Hl.
    rewrite <- app_assoc in He. simpl in He.
    eapply wp_seq; [exact (rep_prev F s T x l1 l2 Hrep He)|]. cbv beta. intros r s' [-> ->].
    eapply wp_seq; [apply (IH l1 (x :: l2)); [done|lia]|].
    cbv beta. intros l s' [-> ->]. by apply wp_ret. }
  apply wp_bind, wp_gets. eapply wp_seq; [exact (rep_max F s T Hrep)|]. cbv beta. intros r s' [-> ->].
  apply (Hloop _ _ []); [by rewrite app_nil_r|done].
Qed.
