(* ===== verification/RBSet.v ===== *)
(** The red-black trees implement the ordered set the scheduler needs. *)

From S2P Require Export RBRemove RBFind.

#[export] Instance rbtree_ops : TreeOps rbtree := {
  tree_none := RBTree NULL ∅;
  tree_alloc x t := RBTree (rbh_root t) (<[x := rbnode_zero]> (rb_fields t));
  tree_release x t := RBTree (rbh_root t) (delete x (rb_fields t));
  tree_init := RB_INIT;
  tree_empty := RB_EMPTY;
  tree_find := RB_FIND;
  tree_insert := RB_INSERT;
  tree_remove := RB_REMOVE;
  tree_min := RB_MIN;
}.

(** A balanced tree with elements [l], in a memory where [D] is allocated. *)
Definition rb_rep (t : rbtree) (D : gset addr) (l : list addr) : Prop :=
  dom (rb_fields t) = D ∧ ∃ T, rep (rb_fields t) t T ∧ rb_ok T ∧ elems T = l.

Lemma rep_dom F s T : rep F s T → (∀ p, p ∈ elems T → p ∈ dom F) → dom (rb_fields s) = dom F.
Proof.
  intros (_ & Ht & _ & Hout) HF. apply set_eq. intros p.
  destruct (decide (p ∈ elems T)) as [Hp|Hp].
  - split; [auto|]. intros _. apply elem_of_dom. by eapply tree_at_lookup.
  - by rewrite !elem_of_dom, Hout.
Qed.

(** An operation that leaves the set of allocated nodes alone. *)
Lemma rb_rep_intro F s T D :
  rep F s T → rb_ok T → dom F = D → (∀ p, p ∈ elems T → p ∈ D) → rb_rep s D (elems T).
Proof.
  intros Hrep Hok <- HF. split; [by eapply rep_dom|]. exists T. split_and!; try done.
  destruct Hrep as (? & ? & ? & ?). by split_and!.
Qed.

Lemma rb_rep_elem t D l x : rb_rep t D l → x ∈ l → x ∈ D.
Proof.
  intros (<- & T & (_ & Ht & _) & _ & <-) Hx. apply elem_of_dom. by eapply tree_at_lookup.
Qed.

(** The two fields of a memory, changed outside the elements. *)
Lemma rb_rep_frame t D l h :
  rb_rep t D l → (∀ p, p ∈ l → h !! p = rb_fields t !! p) →
  rb_rep (RBTree (rbh_root t) h) (dom h) l.
Proof.
  intros (_ & T & (Hr & Ht & Hnd & Hout) & Hok & <-) He. split; [done|]. exists T.
  split_and!; try done. split_and!; try done. by eapply tree_at_frame.
Qed.

#[export, refine] Instance rbtree_laws : TreeLaws rbtree := {
  tree_rep := rb_rep;
}.
Proof.
  - apply rb_rep_elem.
  - intros t D l (_ & T & Hrep & _ & <-). by eapply rep_NoDup.
  - split; [apply dom_empty_L|]. exists Leaf. split_and!; try done; [|by exists 0; constructor].
    split_and!; try done. constructor.
  - intros t D l x Hrep Hx. replace ({[x]} ∪ D) with (dom (<[x := rbnode_zero]> (rb_fields t))).
    + apply (rb_rep_frame t D); [done|]. intros p Hp. rewrite lookup_insert_ne; [done|].
      intros ->. by eapply Hx, rb_rep_elem.
    + destruct Hrep as [<- _]. by rewrite dom_insert_L.
  - intros t D l x Hrep Hx. replace (D ∖ {[x]}) with (dom (delete x (rb_fields t))).
    + apply (rb_rep_frame t D); [done|]. intros p Hp. rewrite lookup_delete_ne; [done|].
      by intros ->.
    + destruct Hrep as [<- _]. by rewrite dom_delete_L.
  - intros t D l [<- _]. split; [done|]. exists Leaf.
    split_and!; try done; [|by exists 0; constructor]. split_and!; try done. constructor.
  - intros t D l (_ & T & (Hr & _) & _ & <-). simpl. unfold RB_EMPTY. rewrite Hr.
    destruct T as [|c tl y tr]; simpl; [done|]. by destruct (elems tl).
  - intros t D l key k0 cmp (_ & T & Hrep & _ & <-) Hs Hc. by eapply rep_find.
  - intros t D l key k0 cmp x Hd Hs Hc Hx Hnew. pose proof Hd as (HD & T & Hrep & Hok & <-).
    eapply wp_mono; [eapply (rep_insert _ t T key k0 cmp x); try done|].
    { apply elem_of_dom. by rewrite HD. }
    cbv beta. intros [p|] s'; [done|]. intros (l1 & l2 & T' & He & Hsl & Hrep' & Hok' & He').
    exists l1, l2. split_and!; try done. rewrite <- He'. eapply rb_rep_intro; try done.
    rewrite He'. intros p. pose proof (rb_rep_elem t D _ p Hd) as Hin. rewrite He in Hin.
    clear -Hin Hx. set_solver.
  - intros t D l x Hd Hx. pose proof Hd as (HD & T & Hrep & Hok & <-).
    eapply wp_mono; [by eapply (rep_remove _ t T x)|].
    cbv beta. intros r s' (-> & n & l1 & l2 & T' & He & Hrep' & Hok' & He'). split; [done|].
    exists l1, l2. split; [done|]. rewrite <- He'. pose proof (rb_rep_elem t D _ x Hd Hx) as HxD.
    eapply rb_rep_intro; try done.
    + rewrite dom_insert_L, HD. clear -HxD. set_solver.
    + rewrite He'. intros p. pose proof (rb_rep_elem t D _ p Hd) as Hin. rewrite He in Hin.
      clear -Hin. set_solver.
  - intros t D l (_ & T & Hrep & _ & <-). by eapply rep_min.
Defined.
