(* ===== verification/RBProps.v ===== *)
(** What is proved of the red-black tree macros: the effect of each operation, balance,
    the refinement of any sequence of operations to a sorted list, and the traversals whose
    body may remove elements (RB_FOREACH_SAFE, RB_FOREACH_REVERSE_SAFE, RB_FOREACH_FROM,
    RB_FOREACH_REVERSE_FROM). *)

From S2P Require Export SafeLoop RBSet SortedSpec.

Section client.
Variable key : addr → Z.

Definition run_op (o : setop) : RB ptr :=
  match o with
  | OpInsert x => RB_INSERT (cmp_key key (key x)) (Some x)
  | OpRemove x => RB_REMOVE (Some x)
  | OpFind k => RB_FIND (cmp_key key k)
  | OpMin => RB_MIN
  end.

Lemma run_op_spec D l o t :
  rb_rep t D l → sorted_by key l → op_ok D l o →
  wp (run_op o) (λ r t', r = (spec_op key o l).1 ∧
    rb_rep t' D (spec_op key o l).2 ∧ sorted_by key (spec_op key o l).2) t.
Proof.
  intros Ht Hs Hok. destruct o as [x|x|k|]; simpl in *.
  - destruct Hok as [HxD Hx]. eapply wp_mono.
    { apply (@tree_insert_spec rbtree rbtree_ops rbtree_laws t D l key (key x) _ x Ht Hs (cmp_key_compares key _ l) HxD Hx). }
    cbv beta. intros [p|] t' Hr; simpl in Hr.
    + destruct Hr as (Hp & Hk & ->). by rewrite (lookup_key_some key _ l p).
    + destruct Hr as (l1 & l2 & -> & Hsl & Ht'). rewrite lookup_key_none.
      * simpl. rewrite (insert_key_slot key _ _ _ Hsl). split_and!; try done.
        by eapply sorted_by_slot.
      * intros y [Hy|Hy]%elem_of_app; apply Hsl in Hy; lia.
  - eapply wp_mono; [apply (@tree_remove_spec rbtree rbtree_ops rbtree_laws t D l x Ht Hok)|].
    cbv beta. intros r t' (-> & l1 & l2 & -> & Ht').
    rewrite filter_ne_mid by by eapply sorted_by_NoDup.
    split_and!; try done. by eapply sorted_by_remove.
  - eapply wp_mono; [apply (@tree_find_spec rbtree rbtree_ops rbtree_laws t D l key k _ Ht Hs (cmp_key_compares key _ l))|].
    cbv beta. intros [p|] t' [-> Hr].
    + destruct Hr. by rewrite (lookup_key_some key _ l p).
    + by rewrite lookup_key_none.
  - eapply wp_mono; [apply (@tree_min_spec rbtree rbtree_ops rbtree_laws t D l Ht)|]. cbv beta. by intros r t' [-> ->].
Qed.
End client.

(** ** The macros *)

(** C12: any sequence of insertions, removals, searches by key and minimum searches on a
    red-black tree of allocated nodes runs without error and gives exactly the results of
    the same sequence on a sorted list, and the tree then represents that list. *)
Theorem rb_refines_sorted_list key D os t l :
  rb_rep t D l → sorted_by key l → ops_ok key D l os →
  wp (run_ops (run_op key) os) (λ rs t', rs = (spec_ops key os l).1 ∧
    rb_rep t' D (spec_ops key os l).2 ∧ sorted_by key (spec_ops key os l).2) t.
Proof.
  apply (run_ops_spec (run_op key) key D (λ t, rb_rep t D)). intros. by apply run_op_spec.
Qed.

(** C13: [RB_INSERT] of a fresh element either finds an element with the same key, returns
    it and changes nothing, or returns [NULL] and leaves a balanced red-black tree with the
    new element at its place in the order of the keys. *)
Theorem rb_insert_correct F s T key cmp x :
  rep F s T → rb_ok T → sorted_by key (elems T) → compares key (key x) cmp (elems T) →
  is_Some (F !! x) → x ∉ elems T →
  wp (RB_INSERT cmp (Some x)) (λ r s',
    match r with
    | Some p => p ∈ elems T ∧ key p = key x ∧ s' = s
    | None => ∃ l1 l2 T', elems T = l1 ++ l2 ∧ rep F s' T' ∧ rb_ok T' ∧
                elems T' = l1 ++ x :: l2 ∧ sorted_by key (elems T')
    end) s.
Proof.
  intros Hrep Hok Hs Hc HF Hx. eapply wp_mono; [by eapply rep_insert|].
  cbv beta. intros [p|] s'; [done|]. intros (l1 & l2 & T' & He & Hsl & Hrep' & Hok' & He').
  exists l1, l2, T'. split_and!; try done. rewrite He'. eapply sorted_by_slot; [|done..].
  by rewrite <- He.
Qed.

(** [RB_REMOVE] of an element of the tree returns it and leaves a balanced red-black
    tree of the other elements in the same order. *)
Theorem rb_remove_correct F s T x :
  rep F s T → rb_ok T → x ∈ elems T →
  wp (RB_REMOVE (Some x)) (λ r s', r = Some x ∧ ∃ n l1 l2 T', elems T = l1 ++ x :: l2 ∧
    rep (<[x := n]> F) s' T' ∧ rb_ok T' ∧ elems T' = l1 ++ l2) s.
Proof. intros. by apply rep_remove. Qed.

(** [RB_FIND] returns the element with the searched key, and [NULL] when there is none;
    [RB_NFIND] returns the first element whose key is not smaller. *)
Theorem rb_find_correct F s T key k0 cmp :
  rep F s T → sorted_by key (elems T) → compares key k0 cmp (elems T) →
  wp (RB_FIND cmp) (λ r s', s' = s ∧
    match r with
    | Some p => p ∈ elems T ∧ key p = k0
    | None => ∀ p, p ∈ elems T → key p ≠ k0
    end) s ∧
  wp (RB_NFIND cmp) (λ r s', s' = s ∧ first_geq key k0 (elems T) r) s.
Proof. intros. split; [by eapply rep_find|by eapply rep_nfind]. Qed.

(** [RB_MIN] and [RB_MAX] return the first and the last element, [RB_NEXT] and [RB_PREV]
    the successor and the predecessor of an element; [RB_FOREACH] and [RB_FOREACH_REVERSE]
    visit every element once, in increasing and in decreasing order. *)
Theorem rb_traversal_correct F s T :
  rep F s T →
  wp RB_MIN (λ r s', s' = s ∧ r = head (elems T)) s ∧
  wp RB_MAX (λ r s', s' = s ∧ r = last (elems T)) s ∧
  (∀ x l1 l2, elems T = l1 ++ x :: l2 →
    wp (RB_NEXT (Some x)) (λ r s', s' = s ∧ r = head l2) s ∧
    wp (RB_PREV (Some x)) (λ r s', s' = s ∧ r = last l1) s) ∧
  wp RB_FOREACH (λ l s', s' = s ∧ l = elems T) s ∧
  wp RB_FOREACH_REVERSE (λ l s', s' = s ∧ l = reverse (elems T)) s.
Proof.
  intros Hrep. split_and!.
  - by eapply rep_min.
  - by eapply rep_max.
  - intros x l1 l2 He. split; [by eapply rep_next|by eapply rep_prev].
  - by eapply rep_foreach.
  - by eapply rep_foreach_reverse.
Qed.

(** C15: the height of a tree the macros maintain is at most twice the binary logarithm of
    its number of elements plus one, so a search makes at most that many comparisons:
    [RB_FIND]'s loop ends within as many iterations. *)
Theorem rb_search_logarithmic F s T key k0 cmp n :
  rep F s T → rb_ok T → sorted_by key (elems T) → compares key k0 cmp (elems T) →
  S (length (elems T)) ≤ 2 ^ n →
  wp (RB_FIND_loop cmp (S (2 * n)) (rbh_root s)) (λ r s', s' = s ∧
    match r with
    | Some p => p ∈ elems T ∧ key p = k0
    | None => ∀ p, p ∈ elems T → key p ≠ k0
    end) s.
Proof.
  intros Hrep Hok Hs Hc Hn. pose proof Hrep as (Hr & _). rewrite Hr.
  apply (rep_find_loop F s key k0 cmp (S (2 * n)) T []); try done.
  - split; by intros p ?%not_elem_of_nil.
  - pose proof (rb_ok_height T Hok) as Hh.
    assert (2 ^ height T ≤ 2 ^ (2 * n)) as Hle.
    { etransitivity; [exact Hh|]. rewrite Nat.mul_comm, Nat.pow_mul_r.
      by apply Nat.pow_le_mono_l. }
    apply Nat.pow_le_mono_r_iff in Hle; lia.
Qed.

(** ** Traversals whose body may remove the element it is given *)

Definition RB_FOREACH_FROM (y : ptr) (body : addr → RB unit) : RB (list addr) :=
  fuel ← gets rb_fuel; safe_loop RB_NEXT body fuel y.
Definition RB_FOREACH_SAFE (body : addr → RB unit) : RB (list addr) :=
  fuel ← gets rb_fuel; x ← RB_MIN; safe_loop RB_NEXT body fuel x.
Definition RB_FOREACH_REVERSE_FROM (y : ptr) (body : addr → RB unit) : RB (list addr) :=
  fuel ← gets rb_fuel; safe_loop RB_PREV body fuel y.
Definition RB_FOREACH_REVERSE_SAFE (body : addr → RB unit) : RB (list addr) :=
  fuel ← gets rb_fuel; x ← RB_MAX; safe_loop RB_PREV body fuel x.

(** A balanced tree of the elements [l]. *)
Definition holds (s : rbtree) (l : list addr) : Prop :=
  ∃ F T, rep F s T ∧ rb_ok T ∧ elems T = l.

Lemma holds_next s l1 x l2 : holds s (l1 ++ x :: l2) →
  wp (RB_NEXT (Some x)) (λ r s', s' = s ∧ r = head l2) s.
Proof. intros (F & T & Hrep & _ & He). by eapply rep_next. Qed.

Lemma holds_prev s l1 x l2 : holds s (l1 ++ x :: l2) →
  wp (RB_PREV (Some x)) (λ r s', s' = s ∧ r = last l1) s.
Proof. intros (F & T & Hrep & _ & He). by eapply rep_prev. Qed.

Lemma holds_fuel s l : holds s l → length l < rb_fuel s.
Proof. intros (F & T & Hrep & _ & <-). by eapply rep_fuel. Qed.

Lemma holds_remove s l1 x l2 : holds s (l1 ++ x :: l2) →
  wp (RB_REMOVE (Some x)) (λ _ s', holds s' (l1 ++ l2)) s.
Proof.
  intros (F & T & Hrep & Hok & He). pose proof (rep_NoDup _ _ _ Hrep) as Hnd. rewrite He in Hnd.
  eapply wp_mono; [eapply rep_remove; [done..|]; rewrite He; set_solver|].
  cbv beta. intros _ s' (_ & n & l1' & l2' & T' & He' & Hrep' & Hok' & HT').
  rewrite He in He'. destruct (NoDup_split_unique _ _ _ _ _ Hnd He') as [-> ->].
  by eexists _, T'.
Qed.

(** A body that removes the elements that are not to be kept. *)
Definition reap (keep : addr → bool) (x : addr) : RB unit :=
  if keep x then mret tt else RB_REMOVE (Some x);; mret tt.

Lemma reap_spec keep s l1 x l2 : holds s (l1 ++ x :: l2) →
  wp (reap keep x) (λ _ s', holds s' (l1 ++ kept_of keep [x] ++ l2)) s.
Proof.
  intros Hs. unfold reap, kept_of, filter. cbn. destruct (keep x).
  - by apply wp_ret.
  - eapply wp_seq; [by apply holds_remove|]. cbv beta. intros _ s' Hs'. by apply wp_ret.
Qed.

Lemma reap_forward keep fuel s l1 l2 : holds s (l1 ++ l2) → length l2 < fuel →
  wp (safe_loop RB_NEXT (reap keep) fuel (head l2))
    (λ r s', r = l2 ∧ holds s' (l1 ++ filter keep l2)) s.
Proof. apply (safe_loop_forward holds keep (reap keep) (reap_spec keep) RB_NEXT holds_next). Qed.

Lemma reap_backward keep fuel s l1 l2 : holds s (l1 ++ l2) → length l1 < fuel →
  wp (safe_loop RB_PREV (reap keep) fuel (last l1))
    (λ r s', r = reverse l1 ∧ holds s' (filter keep l1 ++ l2)) s.
Proof. apply (safe_loop_backward holds keep (reap keep) (reap_spec keep) RB_PREV holds_prev). Qed.

(** C14: the safe traversals of a balanced tree whose body removes some of the elements it is
    given visit every element once, in increasing and in decreasing order, and leave a balanced
    tree of exactly the others; started at an element they do so for the part of the tree from
    that element on, and leave the rest of it. *)
Theorem rb_safe_traversal s l keep :
  holds s l →
  wp (RB_FOREACH_SAFE (reap keep)) (λ r s', r = l ∧ holds s' (filter keep l)) s ∧
  wp (RB_FOREACH_REVERSE_SAFE (reap keep)) (λ r s', r = reverse l ∧ holds s' (filter keep l)) s ∧
  (∀ l1 x l2, l = l1 ++ x :: l2 →
    wp (RB_FOREACH_FROM (Some x) (reap keep))
      (λ r s', r = x :: l2 ∧ holds s' (l1 ++ filter keep (x :: l2))) s ∧
    wp (RB_FOREACH_REVERSE_FROM (Some x) (reap keep))
      (λ r s', r = reverse (l1 ++ [x]) ∧ holds s' (filter keep (l1 ++ [x]) ++ l2)) s).
Proof.
  intros Hs. pose proof (holds_fuel _ _ Hs) as Hf. pose proof Hs as (F & T & Hrep & _ & He).
  split_and!.
  - apply wp_bind, wp_gets. eapply wp_seq; [by apply (rep_min F s T)|]. cbv beta. intros r s' [-> ->].
    rewrite He. by apply (reap_forward keep _ s []).
  - apply wp_bind, wp_gets. eapply wp_seq; [by apply (rep_max F s T)|]. cbv beta. intros r s' [-> ->].
    rewrite He. eapply wp_mono; [apply (reap_backward keep _ s l []); by rewrite ?app_nil_r|].
    cbv beta. intros r s'. by rewrite app_nil_r.
  - intros l1 x l2 ->. rewrite length_app in Hf. simpl in Hf. split.
    + apply wp_bind, wp_gets. apply (reap_forward keep _ s l1 (x :: l2)); [done|simpl; lia].
    + apply wp_bind, wp_gets. pose proof (reap_backward keep (rb_fuel s) s (l1 ++ [x]) l2) as H.
      rewrite last_snoc in H. apply H; [by rewrite <- app_assoc|rewrite length_app; simpl; lia].
Qed.

(** ** Examples *)

(** A tree of three elements, and room for a fourth. *)
Definition example_key (p : addr) : Z := 10 * Z.pos p.
Definition example_shape : tree :=
  Node RB_BLACK (Node RB_RED Leaf 1%positive Leaf) 2%positive (Node RB_RED Leaf 3%positive Leaf).
Definition example_tree : rbtree := RBTree (Some 2%positive) (list_to_map [
  (1%positive, RBNode NULL NULL (Some 2%positive) RB_RED);
  (2%positive, RBNode (Some 1%positive) (Some 3%positive) NULL RB_BLACK);
  (3%positive, RBNode NULL NULL (Some 2%positive) RB_RED);
  (4%positive, rbnode_zero)]).

Lemma example_rep : rep (rb_fields example_tree) example_tree example_shape.
Proof.
  split_and!; try done. simpl. by repeat (apply NoDup_cons; split; [set_solver|]); apply NoDup_nil.
Qed.

Lemma example_ok : rb_ok example_shape.
Proof. exists 1. repeat econstructor. Qed.

Lemma example_sorted : sorted_by example_key (elems example_shape).
Proof. repeat constructor. Qed.

Lemma example_compares k l : compares example_key k (cmp_key example_key k) l.
Proof. apply cmp_key_compares. Qed.

Lemma rb_refines_sorted_list_witness :
  wp (run_ops (run_op example_key) [OpInsert 2; OpInsert 1; OpMin; OpRemove 1; OpFind 20; OpFind 10]%positive)
    (λ rs t', rs = [NULL; NULL; Some 1; Some 1; Some 2; NULL]%positive ∧
      rb_rep t' {[1; 2]}%positive [2]%positive ∧ sorted_by example_key [2]%positive)
    (tree_alloc 2%positive (tree_alloc 1%positive tree_none)).
Proof.
  apply (rb_refines_sorted_list example_key {[1; 2]}%positive
    [OpInsert 2; OpInsert 1; OpMin; OpRemove 1; OpFind 20; OpFind 10]%positive _ []).
  - split; [set_solver|]. exists Leaf. split_and!; [|by exists 0; constructor|done].
    split_and!; try done. constructor.
  - constructor.
  - simpl. set_solver.
Defined.

Lemma rb_insert_correct_witness :
  wp (RB_INSERT (cmp_key example_key 40) (Some 4%positive)) (λ r s',
    match r with
    | Some p => p ∈ [1; 2; 3]%positive ∧ example_key p = 40%Z ∧ s' = example_tree
    | None => ∃ l1 l2 T', [1; 2; 3]%positive = l1 ++ l2 ∧ rep (rb_fields example_tree) s' T' ∧
        rb_ok T' ∧ elems T' = l1 ++ 4%positive :: l2 ∧ sorted_by example_key (elems T')
    end) example_tree.
Proof.
  apply (rb_insert_correct (rb_fields example_tree) example_tree example_shape example_key _ 4%positive).
  - apply example_rep.
  - apply example_ok.
  - apply example_sorted.
  - apply example_compares.
  - by eexists.
  - simpl. set_solver.
Defined.

Lemma rb_remove_correct_witness :
  wp (RB_REMOVE (Some 2%positive)) (λ r s', r = Some 2%positive ∧ ∃ n l1 l2 T',
    [1; 2; 3]%positive = l1 ++ 2%positive :: l2 ∧ rep (<[2%positive := n]> (rb_fields example_tree)) s' T' ∧
    rb_ok T' ∧ elems T' = l1 ++ l2) example_tree.
Proof.
  apply (rb_remove_correct (rb_fields example_tree) example_tree example_shape 2%positive).
  - apply example_rep.
  - apply example_ok.
  - simpl. set_solver.
Defined.

Lemma rb_find_correct_witness :
  wp (RB_FIND (cmp_key example_key 25)) (λ r s', s' = example_tree ∧
    match r with
    | Some p => p ∈ [1; 2; 3]%positive ∧ example_key p = 25%Z
    | None => ∀ p, p ∈ [1; 2; 3]%positive → example_key p ≠ 25%Z
    end) example_tree ∧
  wp (RB_NFIND (cmp_key example_key 25)) (λ r s', s' = example_tree ∧
    first_geq example_key 25 [1; 2; 3]%positive r) example_tree.
Proof.
  apply (rb_find_correct (rb_fields example_tree) example_tree example_shape example_key 25).
  - apply example_rep.
  - apply example_sorted.
  - apply example_compares.
Defined.

Lemma rb_traversal_correct_witness :
  wp RB_FOREACH (λ l s', s' = example_tree ∧ l = [1; 2; 3]%positive) example_tree.
Proof. apply (rb_traversal_correct _ _ _ example_rep). Defined.

Lemma rb_search_logarithmic_witness :
  wp (RB_FIND_loop (cmp_key example_key 30) 5 (Some 2%positive)) (λ r s', s' = example_tree ∧
    match r with
    | Some p => p ∈ [1; 2; 3]%positive ∧ example_key p = 30%Z
    | None => ∀ p, p ∈ [1; 2; 3]%positive → example_key p ≠ 30%Z
    end) example_tree.
Proof.
  apply (rb_search_logarithmic (rb_fields example_tree) example_tree example_shape example_key 30 _ 2).
  - apply example_rep.
  - apply example_ok.
  - apply example_sorted.
  - apply example_compares.
  - simpl. lia.
Defined.

Lemma rb_safe_traversal_witness :
  wp (RB_FOREACH_SAFE (reap (λ x, bool_decide (x = 2%positive))))
    (λ r s', r = [1; 2; 3]%positive ∧ holds s' [2]%positive) example_tree ∧
  wp (RB_FOREACH_REVERSE_FROM (Some 2%positive) (reap (λ x, bool_decide (x = 2%positive))))
    (λ r s', r = [2; 1]%positive ∧ holds s' [2; 3]%positive) example_tree.
Proof.
  destruct (rb_safe_traversal example_tree [1; 2; 3]%positive (λ x, bool_decide (x = 2%positive)))
    as (H1 & _ & H2).
  - exists (rb_fields example_tree), example_shape. split_and!; [apply example_rep|apply example_ok|done].
  - split; [exact H1|]. apply (H2 [1] 2 [3])%positive. reflexivity.
Defined.
