(* ===== verification/TailQueue.v ===== *)
(** The tail queue macros of src/core/nty_queue.h (TAILQ_HEAD ... TAILQ_SWAP), on the
    memory they work on.

    A head and an entry have the same layout, a pointer to an element followed by the
    address of a pointer to an element: both are a [cell]. The address of the first
    field of a cell is the address of the cell itself, which is what [tqh_last] and
    [tqe_prev] hold, and what the casts of [TAILQ_LAST] and [TAILQ_PREV] rely on. *)

From S2P Require Export Interfaces.

(** ** Data *)

(** [&(head)->tqh_first], or [&TAILQ_NEXT(elm, field)]. *)
Inductive qaddr : Type :=
  | QHead (h : addr)
  | QElm (x : addr).

#[export] Instance qaddr_eq_dec : EqDecision qaddr.
Proof. solve_decision. Defined.

#[export] Instance qaddr_countable : Countable qaddr.
Proof.
  refine (inj_countable' (λ a, match a with QHead h => inl h | QElm x => inr x end)
    (λ s, match s with inl h => QHead h | inr x => QElm x end) _).
  by intros [].
Defined.

(** [TAILQ_HEAD] and [TAILQ_ENTRY]. *)
Record cell : Type := Cell {
  q_next : ptr;             (* tqh_first, tqe_next *)
  q_prev : option qaddr;    (* tqh_last, tqe_prev *)
}.

Definition cell_zero : cell := Cell NULL None.

Abbreviation qmem := (gmap qaddr cell).
Abbreviation Q := (ST qmem).

(** ** Field access *)

Definition qload (a : option qaddr) : Q cell := λ m,
  match a with
  | None => Err NullDeref
  | Some a => match m !! a with None => Err Dangling | Some c => Ok (c, m) end
  end.

Definition qstore (a : option qaddr) (c : cell) : Q unit := λ m,
  match a with
  | None => Err NullDeref
  | Some a =>
      match m !! a with None => Err Dangling | Some _ => Ok (tt, <[a := c]> m) end
  end.

(** The entry of an element. *)
Definition elm_ (x : ptr) : option qaddr := QElm <$> x.

Definition get_next (a : option qaddr) : Q ptr := c ← qload a; mret (q_next c).
Definition get_prev (a : option qaddr) : Q (option qaddr) := c ← qload a; mret (q_prev c).
Definition set_next (a : option qaddr) (v : ptr) : Q unit :=
  c ← qload a; qstore a (Cell v (q_prev c)).
Definition set_prev (a : option qaddr) (v : option qaddr) : Q unit :=
  c ← qload a; qstore a (Cell (q_next c) v).

(** ** Operations *)

Definition TAILQ_FIRST (h : addr) : Q ptr := get_next (Some (QHead h)).
Definition TAILQ_NEXT (x : ptr) : Q ptr := get_next (elm_ x).

Definition TAILQ_EMPTY (h : addr) : Q bool :=
  f ← TAILQ_FIRST h; mret (bool_decide (f = NULL)).

Definition TAILQ_INIT (h : addr) : Q unit :=
  set_next (Some (QHead h)) NULL;;
  set_prev (Some (QHead h)) (Some (QHead h)).

(** [*(((struct headname * )((head)->tqh_last))->tqh_last)] *)
Definition TAILQ_LAST (h : addr) : Q ptr :=
  a ← get_prev (Some (QHead h)); b ← get_prev a; get_next b.

Definition TAILQ_PREV (x : ptr) : Q ptr :=
  a ← get_prev (elm_ x); b ← get_prev a; get_next b.

Definition TAILQ_INSERT_AFTER (h : addr) (listelm elm : ptr) : Q unit :=
  n ← TAILQ_NEXT listelm;
  set_next (elm_ elm) n;;
  (match n with
   | Some _ => en ← TAILQ_NEXT elm; set_prev (elm_ en) (elm_ elm)
   | None => set_prev (Some (QHead h)) (elm_ elm)
   end);;
  set_next (elm_ listelm) elm;;
  set_prev (elm_ elm) (elm_ listelm).

Definition TAILQ_INSERT_BEFORE (listelm elm : ptr) : Q unit :=
  p ← get_prev (elm_ listelm);
  set_prev (elm_ elm) p;;
  set_next (elm_ elm) listelm;;
  (p ← get_prev (elm_ listelm); set_next p elm);;
  set_prev (elm_ listelm) (elm_ elm).

Definition TAILQ_INSERT_HEAD (h : addr) (elm : ptr) : Q unit :=
  f ← TAILQ_FIRST h;
  set_next (elm_ elm) f;;
  (match f with
   | Some _ => f' ← TAILQ_FIRST h; set_prev (elm_ f') (elm_ elm)
   | None => set_prev (Some (QHead h)) (elm_ elm)
   end);;
  set_next (Some (QHead h)) elm;;
  set_prev (elm_ elm) (Some (QHead h)).

Definition TAILQ_INSERT_TAIL (h : addr) (elm : ptr) : Q unit :=
  set_next (elm_ elm) NULL;;
  (l ← get_prev (Some (QHead h)); set_prev (elm_ elm) l);;
  (l ← get_prev (Some (QHead h)); set_next l elm);;
  set_prev (Some (QHead h)) (elm_ elm).

Definition TAILQ_REMOVE (h : addr) (elm : ptr) : Q unit :=
  n ← TAILQ_NEXT elm;
  (match n with
   | Some _ => p ← get_prev (elm_ elm); n' ← TAILQ_NEXT elm; set_prev (elm_ n') p
   | None => p ← get_prev (elm_ elm); set_prev (Some (QHead h)) p
   end);;
  n ← TAILQ_NEXT elm;
  p ← get_prev (elm_ elm);
  set_next p n.

Definition TAILQ_CONCAT (h1 h2 : addr) : Q unit :=
  empty ← TAILQ_EMPTY h2;
  if (empty : bool) then mret tt else
  (f ← TAILQ_FIRST h2; l ← get_prev (Some (QHead h1)); set_next l f);;
  (l ← get_prev (Some (QHead h1)); f ← TAILQ_FIRST h2; set_prev (elm_ f) l);;
  (l ← get_prev (Some (QHead h2)); set_prev (Some (QHead h1)) l);;
  TAILQ_INIT h2.

Definition TAILQ_SWAP (h1 h2 : addr) : Q unit :=
  swap_first ← TAILQ_FIRST h1;
  swap_last ← get_prev (Some (QHead h1));
  (f ← TAILQ_FIRST h2; set_next (Some (QHead h1)) f);;
  (l ← get_prev (Some (QHead h2)); set_prev (Some (QHead h1)) l);;
  set_next (Some (QHead h2)) swap_first;;
  set_prev (Some (QHead h2)) swap_last;;
  swap_first ← TAILQ_FIRST h1;
  (match swap_first with
   | Some _ => set_prev (elm_ swap_first) (Some (QHead h1))
   | None => set_prev (Some (QHead h1)) (Some (QHead h1))
   end);;
  swap_first ← TAILQ_FIRST h2;
  match swap_first with
  | Some _ => set_prev (elm_ swap_first) (Some (QHead h2))
  | None => set_prev (Some (QHead h2)) (Some (QHead h2))
  end.

(** [TAILQ_FOREACH] and [TAILQ_FOREACH_REVERSE] with a body that leaves the queue alone. *)
Fixpoint TAILQ_FOREACH_loop (step : ptr → Q ptr) (fuel : nat) (x : ptr) : Q (list addr) :=
  match fuel with
  | O => throw OutOfFuel
  | S fuel =>
      match x with
      | None => mret []
      | Some a => y ← step x; l ← TAILQ_FOREACH_loop step fuel y; mret (a :: l)
      end
  end.

Definition q_fuel (m : qmem) : nat := S (size m).

Definition TAILQ_FOREACH (h : addr) : Q (list addr) :=
  fuel ← gets q_fuel; x ← TAILQ_FIRST h; TAILQ_FOREACH_loop TAILQ_NEXT fuel x.
Definition TAILQ_FOREACH_REVERSE (h : addr) : Q (list addr) :=
  fuel ← gets q_fuel; x ← TAILQ_LAST h; TAILQ_FOREACH_loop TAILQ_PREV fuel x.

(** ** Representation *)

(** The first element of [l] followed by [z]. *)
Definition hd (l : list addr) (z : ptr) : ptr :=
  match l with [] => z | x :: _ => Some x end.

(** The cell whose [q_next] leads out of [l], entered from [a]. *)
Fixpoint end_of (a : qaddr) (l : list addr) : qaddr :=
  match l with [] => a | x :: l => end_of (QElm x) l end.

(** The entries of [l] are linked, from cell [a] to element [z]. *)
Fixpoint qseg (m : qmem) (a : qaddr) (l : list addr) (z : ptr) : Prop :=
  match l with
  | [] => True
  | x :: l => m !! QElm x = Some (Cell (hd l z) (Some a)) ∧ qseg m (QElm x) l z
  end.

(** The queue of head [h] has the elements [l]; other cells are those of [F]. *)
Definition queue (F : qmem) (m : qmem) (h : addr) (l : list addr) : Prop :=
  m !! QHead h = Some (Cell (hd l NULL) (Some (end_of (QHead h) l))) ∧
  qseg m (QHead h) l NULL ∧ NoDup l ∧
  (∀ a, a ≠ QHead h → a ∉ QElm <$> l → m !! a = F !! a).

Lemma hd_app l1 l2 z : hd (l1 ++ l2) z = hd l1 (hd l2 z).
Proof. by destruct l1. Qed.

Lemma end_of_app a l1 l2 : end_of a (l1 ++ l2) = end_of (end_of a l1) l2.
Proof. revert a; induction l1; simpl; auto. Qed.

Lemma end_of_snoc a l x : end_of a (l ++ [x]) = QElm x.
Proof. by rewrite end_of_app. Qed.

Lemma qseg_app m a l1 l2 z :
  qseg m a (l1 ++ l2) z ↔ qseg m a l1 (hd l2 z) ∧ qseg m (end_of a l1) l2 z.
Proof.
  revert a; induction l1 as [|x l1 IH]; intros a; simpl; [naive_solver|].
  rewrite IH, hd_app. naive_solver.
Qed.

Lemma qseg_frame m m' a l z :
  qseg m a l z → (∀ x, x ∈ l → m' !! QElm x = m !! QElm x) → qseg m' a l z.
Proof.
  revert a; induction l as [|x l IH]; intros a; simpl; [done|]. intros [Hx Hl] He.
  split; [rewrite He; [done|set_solver]|]. apply IH; set_solver.
Qed.

(** ** Symbolic execution *)

Lemma wp_get_next a c (P : ptr → qmem → Prop) m :
  m !! a = Some c → P (q_next c) m → wp (get_next (Some a)) P m.
Proof. unfold wp, get_next, qload, mbind, ST_bind. by intros ->. Qed.

Lemma wp_get_prev a c (P : option qaddr → qmem → Prop) m :
  m !! a = Some c → P (q_prev c) m → wp (get_prev (Some a)) P m.
Proof. unfold wp, get_prev, qload, mbind, ST_bind. by intros ->. Qed.

Lemma wp_set_next a c v (P : unit → qmem → Prop) m :
  m !! a = Some c → P tt (<[a := Cell v (q_prev c)]> m) → wp (set_next (Some a) v) P m.
Proof. unfold wp, set_next, qload, qstore, mbind, ST_bind. intros Ha. by rewrite !Ha. Qed.

Lemma wp_set_prev a c v (P : unit → qmem → Prop) m :
  m !! a = Some c → P tt (<[a := Cell (q_next c) v]> m) → wp (set_prev (Some a) v) P m.
Proof. unfold wp, set_prev, qload, qstore, mbind, ST_bind. intros Ha. by rewrite !Ha. Qed.

Ltac solve_qne :=
  first [ discriminate
        | assumption
        | (apply not_eq_sym; assumption)
        | (intros [=]; subst; contradiction)
        | (intros [=]; subst; 
           match goal with
           | Hd : disj ?a ?b, Ha : ?p ∈ ?a, Hb : ?p ∈ ?b |- False => exact (Hd p Ha Hb)
           end)
        | (intros [=]; congruence) ].

Ltac solve_qlookup :=
  first [ eassumption
        | (eapply lookup_insert_eq)
        | (etransitivity; [eapply lookup_insert_ne; solve_qne|solve_qlookup]) ].

Ltac q_step :=
  cbn [q_next q_prev hd end_of elm_ fmap option_fmap option_map];
  match goal with
  | |- wp (mbind _ _) _ _ => apply wp_bind
  | |- wp (mret _) _ _ => apply wp_ret
  | |- wp (TAILQ_FIRST _) _ _ => unfold TAILQ_FIRST
  | |- wp (TAILQ_NEXT _) _ _ => unfold TAILQ_NEXT
  | |- wp (get_next (Some _)) _ _ => eapply wp_get_next; [solve_qlookup|]
  | |- wp (get_prev (Some _)) _ _ => eapply wp_get_prev; [solve_qlookup|]
  | |- wp (set_next (Some _) _) _ _ => eapply wp_set_next; [solve_qlookup|]
  | |- wp (set_prev (Some _) _) _ _ => eapply wp_set_prev; [solve_qlookup|]
  end.
Ltac q_steps := repeat q_step.

Ltac skip_qupdates :=
  repeat (rewrite lookup_insert_ne; [|solve_qne]); try done.

Ltac solve_qseg :=
  match goal with
  | |- qseg _ _ [] _ => exact I
  | H : qseg ?m ?a ?l ?z |- qseg _ ?a ?l ?z =>
      apply (qseg_frame m); [exact H|intros ? ?; skip_qupdates]
  end.

(** The cell of an element is outside a list it is not in. *)
Lemma notin_fmap_QElm x (l : list addr) : x ∉ l → QElm x ∉ QElm <$> l.
Proof. intros Hx (y & [= ->] & Hy)%list_elem_of_fmap. done. Qed.

Lemma fmap_QElm_ne a x (l : list addr) : x ∈ l → a ∉ QElm <$> l → QElm x ≠ a.
Proof. intros Hx Ha <-. apply Ha. by apply list_elem_of_fmap_2. Qed.

Lemma fmap_QElm_mono a (l l' : list addr) :
  (∀ x, x ∈ l → x ∈ l') → a ∉ QElm <$> l' → a ∉ QElm <$> l.
Proof. intros Hl Ha (y & -> & Hy)%list_elem_of_fmap. apply Ha, list_elem_of_fmap_2. auto. Qed.

Lemma queue_lookup F m h l1 x l2 : queue F m h (l1 ++ x :: l2) →
  m !! QElm x = Some (Cell (hd l2 NULL) (Some (end_of (QHead h) l1))).
Proof. intros (_ & Hq & _). apply qseg_app in Hq as [_ [Hx _]]. done. Qed.

Lemma queue_NoDup F m h l : queue F m h l → NoDup l.
Proof. by intros (_ & _ & ? & _). Qed.

(** ** Reading operations *)

Lemma tailq_first F m h l :
  queue F m h l → wp (TAILQ_FIRST h) (λ r m', m' = m ∧ r = head l) m.
Proof. intros (Hh & _). q_steps. split; [done|]. by destruct l. Qed.

Lemma tailq_empty F m h l :
  queue F m h l → wp (TAILQ_EMPTY h) (λ r m', m' = m ∧ r = bool_decide (l = [])) m.
Proof.
  intros (Hh & _). unfold TAILQ_EMPTY. q_steps. split; [done|].
  by destruct l.
Qed.

Lemma tailq_next F m h l1 x l2 :
  queue F m h (l1 ++ x :: l2) → wp (TAILQ_NEXT (Some x)) (λ r m', m' = m ∧ r = head l2) m.
Proof. intros Hq. apply queue_lookup in Hq as Hx. q_steps. split; [done|]. by destruct l2. Qed.

(** The cell that leads out of a prefix of the queue. *)
Lemma queue_end F m h l1 l2 : queue F m h (l1 ++ l2) →
  ∃ p, m !! end_of (QHead h) l1 = Some (Cell (hd l2 NULL) p).
Proof.
  intros Hq. destruct l1 as [|x l1 _] using rev_ind.
  - destruct Hq as (Hh & _). simpl in *. eauto.
  - rewrite end_of_snoc. rewrite <- app_assoc in Hq. apply queue_lookup in Hq. eauto.
Qed.

Lemma tailq_last F m h l :
  queue F m h l → wp (TAILQ_LAST h) (λ r m', m' = m ∧ r = last l) m.
Proof.
  intros Hq. pose proof Hq as (Hh & _). unfold TAILQ_LAST.
  destruct l as [|x l _] using rev_ind; [by q_steps|].
  rewrite end_of_snoc in Hh. apply queue_lookup in Hq as Hx.
  rewrite last_snoc. destruct (queue_end _ _ _ _ _ Hq) as [p Hp]. q_steps. done.
Qed.

Lemma tailq_prev F m h l1 x l2 :
  queue F m h (l1 ++ x :: l2) → wp (TAILQ_PREV (Some x)) (λ r m', m' = m ∧ r = last l1) m.
Proof.
  intros Hq. apply queue_lookup in Hq as Hx. unfold TAILQ_PREV. q_steps.
  destruct l1 as [|y l1 _] using rev_ind; simpl.
  - pose proof Hq as (Hh & _). rewrite <- (app_nil_r (_ :: _)) in Hq.
    destruct (queue_end F m h (x :: l2) []) as [p Hp]; [by rewrite app_nil_r in *|]. by q_steps.
  - rewrite end_of_snoc, last_snoc. rewrite <- app_assoc in Hq. apply queue_lookup in Hq as Hy.
    destruct (queue_end _ _ _ _ _ Hq) as [p Hp]. by q_steps.
Qed.

(** ** Updating operations *)

Lemma tailq_init F m h c :
  m !! QHead h = Some c → (∀ a, a ≠ QHead h → m !! a = F !! a) →
  wp (TAILQ_INIT h) (λ _ m', queue F m' h []) m.
Proof.
  intros Hh Hout. unfold TAILQ_INIT. q_steps. split_and!; try done.
  - apply lookup_insert_eq.
  - constructor.
  - intros a Ha _. rewrite !lookup_insert_ne by done. auto.
Qed.

(** The goals left by an update: head cell, segments, elements, and the other cells. *)
Ltac solve_in := repeat first [rewrite elem_of_app | rewrite elem_of_cons]; tauto.
Ltac solve_qout Hout :=
  let a := fresh in let Ha := fresh in let Ha' := fresh in
  intros a Ha Ha';
  repeat (rewrite lookup_insert_ne;
          [|first [(apply not_eq_sym; assumption)|(eapply fmap_QElm_ne; [|exact Ha']; solve_in)]]);
  apply Hout; [exact Ha|eapply fmap_QElm_mono; [|exact Ha']; intros ?; solve_in].

Lemma tailq_insert_tail F m h l x :
  queue F m h l → is_Some (F !! QElm x) → x ∉ l →
  wp (TAILQ_INSERT_TAIL h (Some x)) (λ _ m', queue F m' h (l ++ [x])) m.
Proof.
  intros Hq [cx HF] Hx. pose proof Hq as (Hh & Hs & Hnd & Hout).
  rewrite <- Hout in HF by (try done; by apply notin_fmap_QElm).
  assert (NoDup (l ++ [x])) as Hnd' by (apply NoDup_app; split_and!;
    [done|set_solver|apply NoDup_singleton]).
  unfold TAILQ_INSERT_TAIL.
  destruct l as [|y l _] using rev_ind; cbn [hd end_of qseg app] in *.
  - q_steps. split_and!; [solve_qlookup| |done|solve_qout Hout].
    split; [|done]. q_steps. solve_qlookup.
  - rewrite end_of_snoc in Hh. apply qseg_app in Hs as (Hs & Hy & _). simpl in Hs, Hy.
    assert (kept (NoDup ((l ++ [y]) ++ [x]))) as Hnd'' by done. nodup_facts.
    q_steps. split_and!; [| |done|].
    + rewrite <- app_assoc, hd_app, end_of_app. rewrite hd_app. cbn [hd end_of app]. solve_qlookup.
    + rewrite <- app_assoc, qseg_app. simpl. split_and!; try done; [solve_qseg|..]; solve_qlookup.
    + solve_qout Hout.
Qed.

Lemma tailq_insert_head F m h l x :
  queue F m h l → is_Some (F !! QElm x) → x ∉ l →
  wp (TAILQ_INSERT_HEAD h (Some x)) (λ _ m', queue F m' h (x :: l)) m.
Proof.
  intros Hq [cx HF] Hx. pose proof Hq as (Hh & Hs & Hnd & Hout).
  rewrite <- Hout in HF by (try done; by apply notin_fmap_QElm).
  assert (NoDup (x :: l)) as Hnd' by (by constructor).
  unfold TAILQ_INSERT_HEAD. destruct l as [|y l]; cbn [hd end_of qseg app] in *; split_hyps.
  - q_steps. split_and!; [solve_qlookup| |done|solve_qout Hout]. split; [solve_qlookup|done].
  - assert (kept (NoDup (x :: y :: l))) by done. nodup_facts.
    q_steps. split_and!; [solve_qlookup| |done|solve_qout Hout].
    simpl. split_and!; [solve_qlookup..|]. solve_qseg.
Qed.

Lemma tailq_insert_after F m h l1 y l2 x :
  queue F m h (l1 ++ y :: l2) → is_Some (F !! QElm x) → x ∉ l1 ++ y :: l2 →
  wp (TAILQ_INSERT_AFTER h (Some y) (Some x)) (λ _ m', queue F m' h (l1 ++ y :: x :: l2)) m.
Proof.
  intros Hq [cx HF] Hx. pose proof Hq as (Hh & Hs & Hnd & Hout).
  rewrite <- Hout in HF by (try done; by apply notin_fmap_QElm).
  assert (kept (NoDup (l1 ++ y :: x :: l2))) as Hnd'.
  { unfold kept. change (y :: x :: l2) with ([y] ++ x :: l2). rewrite app_assoc.
    apply NoDup_mid_insert; by rewrite <- app_assoc. }
  apply qseg_app in Hs as (Hs & Hy & Hs2). simpl in Hs. rewrite end_of_app in Hh. simpl in Hh.
  unfold TAILQ_INSERT_AFTER. nodup_facts. rewrite hd_app in Hh. cbn [hd] in Hh.
  assert (end_of (QHead h) l1 ≠ QElm x ∧ end_of (QHead h) l1 ≠ QElm y) as [? ?].
  { destruct l1 as [|z l1 _] using rev_ind; [done|]. rewrite end_of_snoc. nodup_facts.
    split; solve_qne. }
  destruct l2 as [|z l2]; cbn [hd end_of] in *.
  - q_steps. split_and!; [| |exact Hnd'|solve_qout Hout].
    + rewrite hd_app, end_of_app. cbn [hd end_of]. solve_qlookup.
    + rewrite qseg_app. simpl. split_and!; try done; [solve_qseg|..]; solve_qlookup.
  - destruct Hs2 as [Hz Hs2]. nodup_facts. q_steps. split_and!; [| |exact Hnd'|solve_qout Hout].
    + rewrite hd_app, end_of_app. cbn [hd end_of]. solve_qlookup.
    + rewrite qseg_app. simpl. split_and!; try done; [solve_qseg|try solve_qlookup..|solve_qseg].
Qed.

Lemma tailq_insert_before F m h l1 y l2 x :
  queue F m h (l1 ++ y :: l2) → is_Some (F !! QElm x) → x ∉ l1 ++ y :: l2 →
  wp (TAILQ_INSERT_BEFORE (Some y) (Some x)) (λ _ m', queue F m' h (l1 ++ x :: y :: l2)) m.
Proof.
  intros Hq [cx HF] Hx. pose proof Hq as (Hh & Hs & Hnd & Hout).
  rewrite <- Hout in HF by (try done; by apply notin_fmap_QElm).
  assert (kept (NoDup (l1 ++ x :: y :: l2))) as Hnd'.
  { by apply NoDup_mid_insert. }
  apply qseg_app in Hs as (Hs & Hy & Hs2). cbn [hd] in Hs. rewrite end_of_app in Hh. simpl in Hh.
  unfold TAILQ_INSERT_BEFORE. nodup_facts. rewrite hd_app in Hh. cbn [hd] in Hh.
  destruct l1 as [|z l1 _] using rev_ind.
  - cbn [end_of hd app] in *. q_steps. split_and!; [| |exact Hnd'|solve_qout Hout].
    + cbn [hd end_of app]. solve_qlookup.
    + simpl. split_and!; [solve_qlookup..|solve_qseg].
  - rewrite end_of_snoc in *. apply qseg_app in Hs as (Hs & Hz & _). cbn [hd] in Hz, Hs.
    rewrite hd_app in Hh. cbn [hd] in Hh.
    assert (kept (NoDup ((l1 ++ [z]) ++ x :: y :: l2))) by done. nodup_facts.
    q_steps. split_and!; [| |exact Hnd'|solve_qout Hout].
    + rewrite <- app_assoc, hd_app, end_of_app. cbn [hd end_of app]. solve_qlookup.
    + rewrite <- app_assoc, qseg_app. simpl. split_and!; try done; [solve_qseg|solve_qlookup..|solve_qseg].
Qed.

(** The entry of the removed element keeps its pointers. *)
Lemma tailq_remove_entry F m h l1 x l2 :
  queue F m h (l1 ++ x :: l2) →
  wp (TAILQ_REMOVE h (Some x)) (λ _ m',
    queue (<[QElm x := Cell (hd l2 NULL) (Some (end_of (QHead h) l1))]> F) m' h (l1 ++ l2)) m.
Proof.
  intros Hq. pose proof Hq as (Hh & Hs & Hnd & Hout).
  assert (kept (NoDup (l1 ++ l2))) as Hnd' by (by eapply NoDup_mid_remove).
  apply qseg_app in Hs as (Hs & Hx & Hs2). cbn [hd] in Hs. rewrite end_of_app in Hh. simpl in Hh.
  rewrite hd_app in Hh. cbn [hd] in Hh.
  set (cx := Cell (hd l2 NULL) (Some (end_of (QHead h) l1))) in Hx.
  assert (∀ a, a ≠ QHead h → a ∉ QElm <$> l1 ++ l2 → m !! a = <[QElm x := cx]> F !! a) as Hout'.
  { intros a Ha Ha'. destruct (decide (a = QElm x)) as [->|]; [by rewrite lookup_insert_eq|].
    rewrite lookup_insert_ne by done. apply Hout; [done|].
    intros (y & -> & Hy)%list_elem_of_fmap. apply Ha', list_elem_of_fmap_2.
    assert (y ≠ x) by congruence. revert Hy. rewrite !elem_of_app, elem_of_cons. tauto. }
  clear Hout. subst cx. unfold TAILQ_REMOVE. nodup_facts.
  destruct l1 as [|z l1 _] using rev_ind; destruct l2 as [|w l2]; cbn [end_of hd app] in *.
  - q_steps. split_and!; [solve_qlookup|done|exact Hnd'|solve_qout Hout'].
  - destruct Hs2 as [Hw Hs2]. nodup_facts. q_steps.
    split_and!; [solve_qlookup| |exact Hnd'|solve_qout Hout'].
    simpl. split; [solve_qlookup|solve_qseg].
  - rewrite end_of_snoc in *. apply qseg_app in Hs as (Hs & Hz & _). cbn [hd] in Hz, Hs.
    rewrite hd_app in Hh. cbn [hd] in Hh. nodup_facts.
    q_steps. split_and!; [| |exact Hnd'|solve_qout Hout'].
    + rewrite app_nil_r, hd_app, end_of_snoc. cbn [hd]. solve_qlookup.
    + rewrite app_nil_r, qseg_app. simpl. split_and!; try done; [solve_qseg|solve_qlookup].
  - rewrite end_of_snoc in *. apply qseg_app in Hs as (Hs & Hz & _). cbn [hd] in Hz, Hs.
    rewrite hd_app in Hh. cbn [hd] in Hh. destruct Hs2 as [Hw Hs2].
    assert (kept (NoDup ((l1 ++ [z]) ++ w :: l2))) by done. nodup_facts.
    q_steps. split_and!; [| |exact Hnd'|solve_qout Hout'].
    + rewrite <- app_assoc, hd_app, end_of_app. cbn [hd end_of app]. solve_qlookup.
    + rewrite <- app_assoc, qseg_app. simpl. split_and!; try done; [solve_qseg|solve_qlookup..|solve_qseg].
Qed.

Lemma tailq_remove F m h l1 x l2 :
  queue F m h (l1 ++ x :: l2) →
  wp (TAILQ_REMOVE h (Some x)) (λ _ m', ∃ c, queue (<[QElm x := c]> F) m' h (l1 ++ l2)) m.
Proof. intros Hq. eapply wp_mono; [by apply tailq_remove_entry|]. cbv beta. intros _ m' Hq'. by eexists. Qed.

(** ** Two queues *)

(** The frame of a queue may be read off the memory itself. *)
Definition queue_in (m : qmem) (h : addr) (l : list addr) : Prop := queue m m h l.

(** The cells of two queues, which the two-queue operations may change. *)
Definition apart (m m' : qmem) (h1 h2 : addr) (l : list addr) : Prop :=
  ∀ a, a ≠ QHead h1 → a ≠ QHead h2 → a ∉ QElm <$> l → m' !! a = m !! a.

Lemma queue_in_intro F m h l : queue F m h l → queue_in m h l.
Proof. intros (? & ? & ? & _). by split_and!. Qed.

Ltac solve_apart :=
  let a := fresh in let Ha := fresh in let Hb := fresh in let Ha' := fresh in
  intros a Ha Hb Ha';
  repeat (rewrite lookup_insert_ne;
          [|first [(apply not_eq_sym; assumption)|(eapply fmap_QElm_ne; [|exact Ha']; solve_in)]]);
  reflexivity.

Ltac solve_qne_heads := first [done | congruence | (intros [=]; congruence)].

(** [TAILQ_CONCAT] appends the second queue to the first and empties it. *)
Lemma tailq_concat m h1 h2 l1 l2 :
  h1 ≠ h2 → queue_in m h1 l1 → queue_in m h2 l2 → disj l1 l2 →
  wp (TAILQ_CONCAT h1 h2)
    (λ _ m', queue_in m' h1 (l1 ++ l2) ∧ queue_in m' h2 [] ∧ apart m m' h1 h2 (l1 ++ l2)) m.
Proof.
  intros Hne H1 H2 Hd. assert (QHead h1 ≠ QHead h2) as Hne' by congruence.
  unfold TAILQ_CONCAT. eapply wp_seq; [by eapply tailq_empty|]. cbv beta. intros e m' [-> ->].
  destruct l2 as [|y l2]; cbn [bool_decide decide].
  { rewrite bool_decide_true by done. apply wp_ret. rewrite app_nil_r. done. }
  rewrite bool_decide_false by done.
  destruct H1 as (Hh1 & Hs1 & Hnd1 & _), H2 as (Hh2 & Hs2 & Hnd2 & _).
  assert (kept (NoDup (l1 ++ y :: l2))) as Hnd by (by apply NoDup_app).
  cbn [qseg hd end_of] in *. destruct Hs2 as [Hy Hs2]. unfold TAILQ_INIT.
  destruct l1 as [|z l1 _] using rev_ind; cbn [qseg hd end_of app] in *; nodup_facts.
  - q_steps. split_and!.
    + split_and!; [solve_qlookup| |exact Hnd|done]. cbn [qseg hd]. split; [solve_qlookup|solve_qseg].
    + split_and!; [solve_qlookup|done|constructor|done].
    + solve_apart.
  - rewrite end_of_snoc in *. apply qseg_app in Hs1 as (Hs1 & Hz & _). cbn [hd] in Hz, Hs1.
    rewrite hd_app in Hh1. cbn [hd] in Hh1. nodup_facts. q_steps. split_and!.
    + split_and!; [| |exact Hnd|done].
      * rewrite <- app_assoc, hd_app, end_of_app. cbn [hd end_of app]. solve_qlookup.
      * rewrite <- app_assoc, qseg_app. cbn [qseg hd app].
        split_and!; [solve_qseg|solve_qlookup..|solve_qseg].
    + split_and!; [solve_qlookup|done|constructor|done].
    + solve_apart.
Qed.

(** [TAILQ_SWAP] exchanges the elements of two queues. *)
Lemma tailq_swap m h1 h2 l1 l2 :
  h1 ≠ h2 → queue_in m h1 l1 → queue_in m h2 l2 → disj l1 l2 →
  wp (TAILQ_SWAP h1 h2)
    (λ _ m', queue_in m' h1 l2 ∧ queue_in m' h2 l1 ∧ apart m m' h1 h2 (l1 ++ l2)) m.
Proof.
  intros Hne (Hh1 & Hs1 & Hnd1 & _) (Hh2 & Hs2 & Hnd2 & _) Hd.
  assert (QHead h1 ≠ QHead h2) as Hne' by congruence.
  assert (kept (NoDup l1)) as K1 by done. assert (kept (NoDup l2)) as K2 by done.
  unfold TAILQ_SWAP.
  destruct l1 as [|x l1], l2 as [|y l2]; cbn [qseg hd end_of app] in *; split_hyps; nodup_facts;
    q_steps; (split_and!; [split_and!; [solve_qlookup| |assumption|done]..|solve_apart]);
    cbn [qseg]; first [exact I|split; [solve_qlookup|solve_qseg]].
Qed.

(** ** Traversal *)

Lemma queue_fuel F m h l : queue F m h l → length l < q_fuel m.
Proof.
  intros Hq. unfold q_fuel. assert (length l ≤ size m); [|lia].
  rewrite <- size_dom, <- (length_fmap QElm),
    <- (size_list_to_set (C := gset qaddr)).
  - apply subseteq_size. intros a. rewrite elem_of_list_to_set.
    intros (x & -> & Hx)%list_elem_of_fmap.
    apply list_elem_of_split in Hx as (l1 & l2 & ->).
    apply queue_lookup in Hq. by eapply elem_of_dom_2.
  - apply queue_NoDup in Hq. apply (NoDup_fmap_2_strong QElm); [|done]. congruence.
Qed.

Lemma tailq_foreach F m h l :
  queue F m h l → wp (TAILQ_FOREACH h) (λ r m', m' = m ∧ r = l) m.
Proof.
  intros Hq. pose proof (queue_fuel _ _ _ _ Hq) as Hf. unfold TAILQ_FOREACH.
  assert (∀ fuel l2 l1, l = l1 ++ l2 → length l2 < fuel →
    wp (TAILQ_FOREACH_loop TAILQ_NEXT fuel (head l2)) (λ r m', m' = m ∧ r = l2) m) as Hloop.
  { induction fuel as [|fuel IH]; intros [|x l2] l1 He Hl; simpl in *; [lia..| |]; [by apply wp_ret|].
    subst l. eapply wp_seq; [exact (tailq_next F m h l1 x l2 Hq)|]. cbv beta. intros r s' [-> ->].
    eapply wp_seq; [apply (IH l2 (l1 ++ [x])); [by rewrite <- app_assoc|lia]|].
    cbv beta. intros r s' [-> ->]. by apply wp_ret. }
  apply wp_bind, wp_gets. eapply wp_seq; [exact (tailq_first F m h l Hq)|].
  cbv beta. intros r s' [-> ->]. by apply (Hloop _ _ []).
Qed.

Lemma tailq_foreach_reverse F m h l :
  queue F m h l → wp (TAILQ_FOREACH_REVERSE h) (λ r m', m' = m ∧ r = reverse l) m.
Proof.
  intros Hq. pose proof (queue_fuel _ _ _ _ Hq) as Hf. unfold TAILQ_FOREACH_REVERSE.
  assert (∀ fuel l1 l2, l = l1 ++ l2 → length l1 < fuel →
    wp (TAILQ_FOREACH_loop TAILQ_PREV fuel (last l1)) (λ r m', m' = m ∧ r = reverse l1) m) as Hloop.
  { induction fuel as [|fuel IH]; intros l1 l2 He Hl; [lia|].
    destruct l1 as [|x l1 _] using rev_ind; simpl; [by apply wp_ret|].
    rewrite last_snoc, reverse_snoc. rewrite length_app in Hl. simpl in Hl.
    rewrite <- app_assoc in He. simpl in He. subst l.
    eapply wp_seq; [exact (tailq_prev F m h l1 x l2 Hq)|]. cbv beta. intros r s' [-> ->].
    eapply wp_seq; [apply (IH l1 (x :: l2)); [done|lia]|].
    cbv beta. intros r s' [-> ->]. by apply wp_ret. }
  apply wp_bind, wp_gets. eapply wp_seq; [exact (tailq_last F m h l Hq)|].
  cbv beta. intros r s' [-> ->]. apply (Hloop _ _ []); [by rewrite app_nil_r|done].
Qed.
