(* ===== verification/Fifo.v ===== *)
(** The tail queues implement the first-in first-out queue the scheduler needs. The
    memory holds one head, [ready_head], and one entry per allocated element. *)

From S2P Require Export TailQueue.

Definition ready_head : addr := 1%positive.

#[export] Instance tailq_ops : QueueOps qmem := {
  queue_none := {[QHead ready_head := cell_zero]};
  queue_alloc x m := <[QElm x := cell_zero]> m;
  queue_release x m := delete (QElm x) m;
  queue_init := TAILQ_INIT ready_head;
  queue_empty := TAILQ_EMPTY ready_head;
  queue_first := TAILQ_FIRST ready_head;
  queue_last := TAILQ_LAST ready_head;
  queue_insert_tail := TAILQ_INSERT_TAIL ready_head;
  queue_remove := TAILQ_REMOVE ready_head;
}.

(** The entries in memory are those of [D]. *)
Definition entries (m : qmem) (D : gset addr) : Prop := ∀ x, is_Some (m !! QElm x) ↔ x ∈ D.

Definition tailq_rep (m : qmem) (D : gset addr) (l : list addr) : Prop :=
  queue_in m ready_head l ∧ entries m D.

Lemma tailq_rep_elem m D l x : tailq_rep m D l → x ∈ l → x ∈ D.
Proof.
  intros [Hq HD] Hx. apply HD. apply list_elem_of_split in Hx as (l1 & l2 & ->).
  apply queue_lookup in Hq. eauto.
Qed.

(** An operation on the queue that keeps the entries allocated. *)
Lemma tailq_rep_intro F m D l :
  queue F m ready_head l → entries F D → (∀ x, x ∈ l → x ∈ D) → tailq_rep m D l.
Proof.
  intros Hq HF Hl. split; [by eapply queue_in_intro|]. intros x.
  destruct (decide (x ∈ l)) as [Hx|Hx].
  - split; [auto|]. intros _. apply list_elem_of_split in Hx as (l1 & l2 & ->).
    apply queue_lookup in Hq. eauto.
  - destruct Hq as (_ & _ & _ & Hout). rewrite Hout; [apply HF|done|].
    by apply notin_fmap_QElm.
Qed.

Lemma tailq_rep_frame m m' D D' l :
  tailq_rep m D l → m' !! QHead ready_head = m !! QHead ready_head →
  (∀ x, x ∈ l → m' !! QElm x = m !! QElm x) → entries m' D' → tailq_rep m' D' l.
Proof.
  intros [(Hh & Hs & Hnd & _) _] Eh El He. split; [|done].
  split_and!; [by rewrite Eh|by eapply qseg_frame|done|done].
Qed.

#[export, refine] Instance tailq_laws : QueueLaws qmem := {
  queue_rep := tailq_rep;
}.
Proof.
  - apply tailq_rep_elem.
  - intros m D l [Hq _]. by eapply queue_NoDup.
  - eapply wp_mono.
    { eapply (tailq_init {[QHead ready_head := cell_zero]}); [apply lookup_singleton_eq|done]. }
    cbv beta. intros _ m Hq. eapply tailq_rep_intro; [done| |set_solver].
    intros x. rewrite lookup_singleton_ne by done. split; [by intros []|set_solver].
  - intros m D l x Hrep Hx. eapply tailq_rep_frame; [done|by apply lookup_insert_ne|..].
    + intros y Hy. apply lookup_insert_ne. intros [= ->]. by eapply Hx, tailq_rep_elem.
    + intros y. destruct Hrep as [_ HD]. specialize (HD y). simpl.
      rewrite lookup_insert_is_Some, elem_of_union, elem_of_singleton, <- HD.
      destruct (decide (x = y)) as [->|Hne]; naive_solver.
  - intros m D l x Hrep Hx. eapply tailq_rep_frame; [done|by apply lookup_delete_ne|..].
    + intros y Hy. apply lookup_delete_ne. intros [= ->]. done.
    + intros y. destruct Hrep as [_ HD]. specialize (HD y). simpl. rewrite lookup_delete_is_Some. rewrite elem_of_difference, elem_of_singleton, HD. naive_solver.
  - intros m D l [(Hh & _) HD]. eapply wp_mono; [by eapply (tailq_init m)|].
    cbv beta. intros _ m' Hq. eapply tailq_rep_intro; [done|done|set_solver].
  - intros m D l [Hq _]. by eapply tailq_empty.
  - intros m D l [Hq _]. by eapply tailq_first.
  - intros m D l [Hq _]. by eapply tailq_last.
  - intros m D l x Hrep Hx Hnew. pose proof Hrep as [Hq HD].
    eapply wp_mono; [eapply tailq_insert_tail; [done|by apply HD|done]|].
    cbv beta. intros _ m' Hq'. eapply tailq_rep_intro; [done|done|].
    intros y. pose proof (tailq_rep_elem m D l y Hrep). clear -H Hx. set_solver.
  - intros m D l1 x l2 Hrep. pose proof Hrep as [Hq HD].
    eapply wp_mono; [by eapply tailq_remove|].
    cbv beta. intros _ m' [c Hq']. eapply tailq_rep_intro; [done| |].
    + intros y. rewrite lookup_insert_is_Some, <- (HD y).
      destruct (decide (x = y)) as [->|]; [|naive_solver].
      apply queue_lookup in Hq. rewrite Hq. naive_solver.
    + intros y. pose proof (tailq_rep_elem m D _ y Hrep) as Hin. clear -Hin. set_solver.
Defined.
