(* ===== verification/QueueProps.v ===== *)
(** What is proved of the tail queue macros: each operation on the list of elements, and
    the first-in first-out behaviour of any sequence of client operations. *)

From S2P Require Export Fifo.

(** ** A list as the specification *)

Inductive qop : Type :=
  | QInsertHead (x : addr)
  | QInsertTail (x : addr)
  | QInsertAfter (y x : addr)
  | QInsertBefore (y x : addr)
  | QRemove (x : addr).

Section client.
Variable h : addr.

Definition run_qop (o : qop) : Q unit :=
  match o with
  | QInsertHead x => TAILQ_INSERT_HEAD h (Some x)
  | QInsertTail x => TAILQ_INSERT_TAIL h (Some x)
  | QInsertAfter y x => TAILQ_INSERT_AFTER h (Some y) (Some x)
  | QInsertBefore y x => TAILQ_INSERT_BEFORE (Some y) (Some x)
  | QRemove x => TAILQ_REMOVE h (Some x)
  end.

Fixpoint run_qops (os : list qop) : Q unit :=
  match os with [] => mret tt | o :: os => run_qop o;; run_qops os end.

(** [f] applied at the place of [y]. *)
Fixpoint at_elem (y : addr) (f : list addr → list addr) (l : list addr) : list addr :=
  match l with
  | [] => []
  | z :: l => if decide (z = y) then f (z :: l) else z :: at_elem y f l
  end.

Definition spec_qop (o : qop) (l : list addr) : list addr :=
  match o with
  | QInsertHead x => x :: l
  | QInsertTail x => l ++ [x]
  | QInsertAfter y x => at_elem y (λ l, match l with [] => [] | z :: l => z :: x :: l end) l
  | QInsertBefore y x => at_elem y (cons x) l
  | QRemove x => at_elem x tail l
  end.

Definition qop_ok (F : qmem) (l : list addr) (o : qop) : Prop :=
  match o with
  | QInsertHead x | QInsertTail x => is_Some (F !! QElm x) ∧ x ∉ l
  | QInsertAfter y x | QInsertBefore y x => is_Some (F !! QElm x) ∧ (x ∉ l) ∧ y ∈ l
  | QRemove x => x ∈ l
  end.
Fixpoint qops_ok (F : qmem) (l : list addr) (os : list qop) : Prop :=
  match os with [] => True | o :: os => qop_ok F l o ∧ qops_ok F (spec_qop o l) os end.

Lemma at_elem_mid y f l1 l2 :
  NoDup (l1 ++ y :: l2) → at_elem y f (l1 ++ y :: l2) = l1 ++ f (y :: l2).
Proof.
  intros Hnd. induction l1 as [|z l1 IH]; simpl; [by rewrite decide_True|].
  simpl in Hnd. apply NoDup_cons in Hnd as [Hz Hnd]. rewrite decide_False, IH; [done..|].
  intros ->. set_solver.
Qed.

(** Elements of the memory stay allocated. *)
Definition grows (F F' : qmem) : Prop := ∀ x, is_Some (F !! QElm x) → is_Some (F' !! QElm x).

Lemma grows_refl F : grows F F.
Proof. by intros x. Qed.

Lemma qops_ok_grows F F' os : grows F F' → ∀ l, qops_ok F l os → qops_ok F' l os.
Proof.
  intros HF. induction os as [|o os IH]; [done|].
  intros l [Ho Hos]. split; [|by apply IH]. destruct o; simpl in *; naive_solver.
Qed.

Lemma run_qop_spec F m l o :
  queue F m h l → qop_ok F l o →
  wp (run_qop o) (λ _ m', ∃ F', grows F F' ∧ queue F' m' h (spec_qop o l)) m.
Proof.
  intros Hq Hok. pose proof (queue_NoDup _ _ _ _ Hq) as Hnd.
  destruct o as [x|x|y x|y x|x]; simpl in *.
  - destruct Hok. eapply wp_mono; [by eapply tailq_insert_head|]. intros. exists F. split; [apply grows_refl|done].
  - destruct Hok. eapply wp_mono; [by eapply tailq_insert_tail|]. intros. exists F. split; [apply grows_refl|done].
  - destruct Hok as (HF & Hx & (l1 & l2 & ->)%list_elem_of_split).
    eapply wp_mono; [by eapply tailq_insert_after|]. intros. exists F.
    rewrite at_elem_mid by done. split; [apply grows_refl|done].
  - destruct Hok as (HF & Hx & (l1 & l2 & ->)%list_elem_of_split).
    eapply wp_mono; [by eapply tailq_insert_before|]. intros. exists F.
    rewrite at_elem_mid by done. split; [apply grows_refl|done].
  - apply list_elem_of_split in Hok as (l1 & l2 & ->).
    eapply wp_mono; [by eapply tailq_remove|]. cbv beta. intros _ m' (c & Hq').
    rewrite at_elem_mid by done. eexists. split; [|exact Hq'].
    intros z Hz. destruct (decide (x = z)) as [->|].
    + rewrite lookup_insert_eq. by eexists.
    + rewrite lookup_insert_ne by congruence. done.
Qed.
End client.

(** ** The macros *)

(** C18: any sequence of insertions at the head, at the tail, before and after elements, and
    of removals on a tail queue runs without error and leaves the queue the same sequence
    leaves on a list. *)
Theorem tailq_refines_list F h os m l :
  queue F m h l → qops_ok F l os →
  wp (run_qops h os) (λ _ m', ∃ F', queue F' m' h (foldl (λ l o, spec_qop o l) l os)) m.
Proof.
  revert F m l; induction os as [|o os IH]; intros F m l Hq Hok; simpl.
  { apply wp_ret. by exists F. }
  destruct Hok as [Ho Hos]. eapply wp_seq; [by eapply run_qop_spec|].
  cbv beta. intros _ m1 (F1 & HF & Hq1). apply (IH F1); [done|].
  by eapply qops_ok_grows.
Qed.

(** [TAILQ_FOREACH] visits the elements from the first to the last, [TAILQ_FOREACH_REVERSE]
    from the last to the first, and [TAILQ_LAST] and [TAILQ_PREV], which read through the
    cast of the [tqh_last] pointer, return the last element and the one before. *)
Theorem tailq_traversal_correct F m h l :
  queue F m h l →
  wp (TAILQ_FOREACH h) (λ r m', m' = m ∧ r = l) m ∧
  wp (TAILQ_FOREACH_REVERSE h) (λ r m', m' = m ∧ r = reverse l) m ∧
  wp (TAILQ_LAST h) (λ r m', m' = m ∧ r = last l) m ∧
  (∀ l1 x l2, l = l1 ++ x :: l2 →
    wp (TAILQ_NEXT (Some x)) (λ r m', m' = m ∧ r = head l2) m ∧
    wp (TAILQ_PREV (Some x)) (λ r m', m' = m ∧ r = last l1) m).
Proof.
  intros Hq. split_and!.
  - by eapply tailq_foreach.
  - by eapply tailq_foreach_reverse.
  - by eapply tailq_last.
  - intros l1 x l2 ->. split; [by eapply tailq_next|by eapply tailq_prev].
Qed.

(** [TAILQ_CONCAT] appends the second queue to the first and empties the second, and
    [TAILQ_SWAP] exchanges two queues; both leave all other cells alone. *)
Theorem tailq_two_queues m h1 h2 l1 l2 :
  h1 ≠ h2 → queue_in m h1 l1 → queue_in m h2 l2 → disj l1 l2 →
  wp (TAILQ_CONCAT h1 h2) (λ _ m', queue_in m' h1 (l1 ++ l2) ∧ queue_in m' h2 [] ∧
    apart m m' h1 h2 (l1 ++ l2)) m ∧
  wp (TAILQ_SWAP h1 h2) (λ _ m', queue_in m' h1 l2 ∧ queue_in m' h2 l1 ∧
    apart m m' h1 h2 (l1 ++ l2)) m.
Proof. intros. split; [by apply tailq_concat|by apply tailq_swap]. Qed.

(** ** Examples *)

(** Two queues: elements 1 and 2 in the first, 3 in the second, 4 in none. *)
Definition example_queues : qmem := list_to_map [
  (QHead 1, Cell (Some 1) (Some (QElm 2)));
  (QElm 1, Cell (Some 2) (Some (QHead 1)));
  (QElm 2, Cell NULL (Some (QElm 1)));
  (QHead 2, Cell (Some 3) (Some (QElm 3)));
  (QElm 3, Cell NULL (Some (QHead 2)));
  (QElm 4, cell_zero)]%positive.

Lemma example_queue1 : queue_in example_queues 1%positive [1; 2]%positive.
Proof.
  split_and!; try done.
  by repeat (apply NoDup_cons; split; [set_solver|]); apply NoDup_nil.
Qed.
Lemma example_queue2 : queue_in example_queues 2%positive [3]%positive.
Proof.
  split_and!; try done.
  by repeat (apply NoDup_cons; split; [set_solver|]); apply NoDup_nil.
Qed.

Lemma tailq_refines_list_witness :
  wp (run_qops 1 [QInsertTail 4; QRemove 1; QInsertBefore 2 1])%positive
    (λ _ m', ∃ F', queue F' m' 1%positive [1; 2; 4]%positive) example_queues.
Proof.
  apply (tailq_refines_list example_queues 1%positive
    [QInsertTail 4; QRemove 1; QInsertBefore 2 1]%positive example_queues [1; 2]%positive).
  - apply example_queue1.
  - simpl. split_and!; try (by eexists); simpl; set_solver.
Defined.

Lemma tailq_traversal_correct_witness :
  wp (TAILQ_FOREACH_REVERSE 1%positive) (λ r m', m' = example_queues ∧ r = [2; 1]%positive) example_queues.
Proof. apply (tailq_traversal_correct _ _ _ _ example_queue1). Defined.

Lemma tailq_two_queues_witness :
  wp (TAILQ_SWAP 1%positive 2%positive) (λ _ m', queue_in m' 1%positive [3]%positive ∧
    queue_in m' 2%positive [1; 2]%positive ∧
    apart example_queues m' 1%positive 2%positive [1; 2; 3]%positive) example_queues.
Proof.
  apply (tailq_two_queues example_queues 1%positive 2%positive [1; 2]%positive [3]%positive).
  - done.
  - apply example_queue1.
  - apply example_queue2.
  - intros x Hx. set_solver.
Defined.
