(* ===== verification/Links.v ===== *)
(** The memory of the linked structures of src/core/nty_queue.h other than the tail queues:
    singly-linked lists (SList.v), singly-linked tail queues (STailQueue.v) and lists
    (DList.v). It has the variables of type [struct type *] (the first field of heads and
    entries) and those of type [struct type **] ([stqh_last], [le_prev]), by the address
    of the structure they are in.

    Chains of entries, and the client language the three refinement theorems share. *)

From S2P Require Export TailQueue.

Record links : Type := Links {
  l_ptr : gmap qaddr ptr;                  (* slh_first, sle_next, stqh_first, ... *)
  l_back : gmap qaddr (option qaddr);      (* stqh_last, le_prev *)
}.

Abbreviation L := (ST links).

(** Reading and writing [*a]. *)
Definition pload (a : option qaddr) : L ptr := λ m,
  match a with
  | None => Err NullDeref
  | Some a => match l_ptr m !! a with None => Err Dangling | Some p => Ok (p, m) end
  end.
Definition pstore (a : option qaddr) (v : ptr) : L unit := λ m,
  match a with
  | None => Err NullDeref
  | Some a =>
      match l_ptr m !! a with
      | None => Err Dangling
      | Some _ => Ok (tt, Links (<[a := v]> (l_ptr m)) (l_back m))
      end
  end.

(** Reading and writing the second field of the structure at [a]. *)
Definition bload (a : option qaddr) : L (option qaddr) := λ m,
  match a with
  | None => Err NullDeref
  | Some a => match l_back m !! a with None => Err Dangling | Some b => Ok (b, m) end
  end.
Definition bstore (a : option qaddr) (v : option qaddr) : L unit := λ m,
  match a with
  | None => Err NullDeref
  | Some a =>
      match l_back m !! a with
      | None => Err Dangling
      | Some _ => Ok (tt, Links (l_ptr m) (<[a := v]> (l_back m)))
      end
  end.

(** Enough for any loop over a list in this memory. *)
Definition l_fuel (m : links) : nat := S (size (l_ptr m)).

(** ** Loops *)

(** [SLIST_NEXT], [STAILQ_NEXT] and [LIST_NEXT]. *)
Definition link_next (x : ptr) : L ptr := pload (elm_ x).

(** The loop of [SLIST_REMOVE] and [STAILQ_REMOVE]. *)
Fixpoint remove_loop (fuel : nat) (elm curelm : ptr) : L ptr :=
  match fuel with
  | O => throw OutOfFuel
  | S fuel =>
      n ← link_next curelm;
      if decide (n = elm) then mret curelm
      else curelm ← link_next curelm; remove_loop fuel elm curelm
  end.

(** The loops give the elements their bodies were run on. *)
Fixpoint foreach_loop (body : addr → L unit) (fuel : nat) (var : ptr) : L (list addr) :=
  match fuel with
  | O => throw OutOfFuel
  | S fuel =>
      match var with
      | None => mret []
      | Some x =>
          body x;; var ← link_next var; l ← foreach_loop body fuel var; mret (x :: l)
      end
  end.
Fixpoint foreach_safe_loop (body : addr → L unit) (fuel : nat) (var : ptr) : L (list addr) :=
  match fuel with
  | O => throw OutOfFuel
  | S fuel =>
      match var with
      | None => mret []
      | Some x =>
          tvar ← link_next var; body x;;
          l ← foreach_safe_loop body fuel tvar; mret (x :: l)
      end
  end.
(** ** Symbolic execution *)

Lemma wp_pload a p (P : ptr → links → Prop) m :
  l_ptr m !! a = Some p → P p m → wp (pload (Some a)) P m.
Proof. unfold wp, pload. by intros ->. Qed.

Lemma wp_bload a b (P : option qaddr → links → Prop) m :
  l_back m !! a = Some b → P b m → wp (bload (Some a)) P m.
Proof. unfold wp, bload. by intros ->. Qed.

Lemma wp_pstore a v (P : unit → links → Prop) m :
  is_Some (l_ptr m !! a) → P tt (Links (<[a := v]> (l_ptr m)) (l_back m)) →
  wp (pstore (Some a) v) P m.
Proof. unfold wp, pstore. by intros [? ->]. Qed.

Lemma wp_bstore a v (P : unit → links → Prop) m :
  is_Some (l_back m !! a) → P tt (Links (l_ptr m) (<[a := v]> (l_back m))) →
  wp (bstore (Some a) v) P m.
Proof. unfold wp, bstore. by intros [? ->]. Qed.

Lemma insert_keeps {V} (p : gmap qaddr V) a b v : is_Some (p !! a) → is_Some (<[b := v]> p !! a).
Proof. rewrite lookup_insert_is_Some. destruct (decide (b = a)); auto. Qed.

(** Lookups in a memory that was written to. *)
Ltac l_lookup :=
  cbn [l_ptr l_back];
  first
    [ eassumption
    | apply lookup_insert_eq
    | (etransitivity; [apply lookup_insert_ne; solve_qne|l_lookup]) ].
Ltac l_alloc :=
  cbn [l_ptr l_back];
  first [ eassumption | (eexists; l_lookup) | (apply insert_keeps; l_alloc) ].

Ltac l_step :=
  cbn [hd elm_ fmap option_fmap option_map];
  match goal with
  | |- wp (mbind _ _) _ _ => apply wp_bind
  | |- wp (mret _) _ _ => apply wp_ret
  | |- wp (gets _) _ _ => apply wp_gets
  | |- wp (if decide (NULL = NULL) then _ else _) _ _ => rewrite decide_True by done
  | |- wp (if decide (Some _ = NULL) then _ else _) _ _ => rewrite decide_False by done
  | |- wp (pload (Some _)) _ _ => eapply wp_pload; [solve [l_lookup]|]
  | |- wp (bload (Some _)) _ _ => eapply wp_bload; [solve [l_lookup]|]
  | |- wp (pstore (Some _) _) _ _ => eapply wp_pstore; [solve [l_alloc]|]
  | |- wp (bstore (Some _) _) _ _ => eapply wp_bstore; [solve [l_alloc]|]
  end.
Ltac l_steps := repeat l_step.

(** ** Chains *)

(** From the pointer at [a], through the entries of [l], to [z]. *)
Fixpoint cseg (p : gmap qaddr ptr) (a : qaddr) (l : list addr) (z : ptr) : Prop :=
  match l with
  | [] => p !! a = Some z
  | x :: l => p !! a = Some (Some x) ∧ cseg p (QElm x) l z
  end.

Lemma cseg_hd p a l z : cseg p a l z → p !! a = Some (hd l z).
Proof. destruct l; [done|by intros []]. Qed.

Lemma cseg_app p a l1 l2 z :
  cseg p a (l1 ++ l2) z ↔ cseg p a l1 (hd l2 z) ∧ cseg p (end_of a l1) l2 z.
Proof.
  revert a; induction l1 as [|x l1 IH]; intros a; simpl; [|rewrite IH; naive_solver].
  split; [|naive_solver]. intros Hc. split; [by apply cseg_hd|done].
Qed.

Lemma cseg_end p a l z : cseg p a l z → p !! end_of a l = Some z.
Proof. rewrite <- (app_nil_r l) at 1. by intros [_ Hc]%cseg_app. Qed.

Lemma cseg_elem p a l1 x l2 z :
  cseg p a (l1 ++ x :: l2) z → p !! end_of a l1 = Some (Some x) ∧ p !! QElm x = Some (hd l2 z).
Proof. intros [_ [? ?%cseg_hd]]%cseg_app. done. Qed.

Lemma cseg_alloc p a l z x : cseg p a l z → x ∈ l → is_Some (p !! QElm x).
Proof. intros Hc (l1 & l2 & ->)%list_elem_of_split. apply cseg_elem in Hc as [_ ?]. by eexists. Qed.

(** The chain entered from elsewhere, in another memory. *)
Lemma cseg_start p p' a a' l z :
  cseg p a l z → p' !! a' = Some (hd l z) → (∀ x, x ∈ l → p' !! QElm x = p !! QElm x) →
  cseg p' a' l z.
Proof.
  revert a a'; induction l as [|x l IH]; intros a a'; [done|]. simpl.
  intros [_ Hc] Ha He. split; [done|]. apply (IH (QElm x)); [done| |set_solver].
  rewrite He by set_solver. by apply cseg_hd.
Qed.

(** The last pointer of the chain, redirected. *)
Lemma cseg_redirect p a l z z' :
  cseg p a l z → NoDup l → a ∉ QElm <$> l → cseg (<[end_of a l := z']> p) a l z'.
Proof.
  revert a; induction l as [|x l IH]; intros a; simpl; [intros; apply lookup_insert_eq|].
  rewrite NoDup_cons. intros [Ha Hc] [Hx Hnd] Hn. split.
  - rewrite lookup_insert_ne; [done|]. intros He.
    destruct l as [|y l _] using rev_ind; simpl in He; [set_solver|].
    rewrite end_of_snoc in He. set_solver.
  - apply IH; [done..|]. by apply notin_fmap_QElm.
Qed.

Lemma end_of_head h l x : x ∉ l → end_of (QHead h) l ≠ QElm x.
Proof.
  intros Hx He. destruct l as [|y l _] using rev_ind; [done|]. rewrite end_of_snoc in He.
  set_solver.
Qed.

Lemma QHead_notin h (l : list addr) : QHead h ∉ QElm <$> l.
Proof. by intros (x & ? & _)%list_elem_of_fmap. Qed.

(** Insertion and removal at any place. *)
Lemma cseg_insert p h l1 x l2 :
  cseg p (QHead h) (l1 ++ l2) NULL → NoDup (l1 ++ l2) → x ∉ l1 ++ l2 →
  cseg (<[end_of (QHead h) l1 := Some x]> (<[QElm x := hd l2 NULL]> p)) (QHead h) (l1 ++ x :: l2) NULL.
Proof.
  intros Hc Hnd Hx. apply cseg_app in Hc as [H1 H2]. apply notin_app in Hx as [Hx1 Hx2].
  pose proof (end_of_head h l1 x Hx1) as Hne. apply NoDup_app in Hnd as (Hn1 & Hd & _).
  apply cseg_app. split.
  - apply (cseg_redirect _ _ _ (hd l2 NULL)); [|done|apply QHead_notin].
    apply (cseg_start p _ (QHead h)); [done| |].
    + rewrite lookup_insert_ne by done. by apply cseg_hd.
    + intros y Hy. rewrite lookup_insert_ne; [done|]. intros [= ->]. done.
  - split; [apply lookup_insert_eq|]. apply (cseg_start p _ _ _ _ _ H2).
    + rewrite lookup_insert_ne by done. apply lookup_insert_eq.
    + intros y Hy. rewrite !lookup_insert_ne; [done| |].
      * intros [= ->]. done.
      * apply end_of_head. intros Hy1. by apply (Hd y).
Qed.

Lemma cseg_remove p h l1 x l2 :
  cseg p (QHead h) (l1 ++ x :: l2) NULL → NoDup (l1 ++ x :: l2) →
  cseg (<[end_of (QHead h) l1 := hd l2 NULL]> p) (QHead h) (l1 ++ l2) NULL.
Proof.
  intros Hc Hnd. apply cseg_app in Hc as [H1 [_ H2]]. apply NoDup_app in Hnd as (Hn1 & Hd & Hn2).
  apply cseg_app. split.
  - by apply (cseg_redirect _ _ _ (Some x)), QHead_notin.
  - apply (cseg_start p _ _ _ _ _ H2); [apply lookup_insert_eq|].
    intros y Hy. rewrite lookup_insert_ne; [done|]. apply end_of_head. set_solver.
Qed.

(** A chain without repetitions is not longer than the memory. *)
Lemma cseg_length p h l z : cseg p (QHead h) l z → NoDup l → length l < S (size p).
Proof.
  intros Hc Hnd. apply Nat.lt_succ_r. rewrite <- (length_fmap QElm), <- size_dom.
  rewrite <- (size_list_to_set (C := gset qaddr) (QElm <$> l)).
  - apply subseteq_size. intros a (x & -> & Hx)%elem_of_list_to_set%list_elem_of_fmap.
    apply elem_of_dom. by eapply cseg_alloc.
  - by apply NoDup_fmap_2; [intros ?? [=]|].
Qed.

(** The loop finds the element before [x]. *)
Lemma wp_remove_loop m h l1 y l2 x l3 fuel :
  cseg (l_ptr m) (QHead h) (l1 ++ y :: l2 ++ x :: l3) NULL → NoDup (l1 ++ y :: l2 ++ x :: l3) →
  length l2 < fuel →
  wp (remove_loop fuel (Some x) (Some y)) (λ r m', m' = m ∧ r = last (y :: l2)) m.
Proof.
  revert l1 y fuel. induction l2 as [|z l2 IH]; intros l1 y [|fuel] Hc Hnd Hf; simpl in *; try lia;
    apply cseg_elem in Hc as Hy; destruct Hy as [_ Hy]; simpl in Hy; unfold link_next; l_steps.
  - by rewrite decide_True; [l_steps|].
  - rewrite decide_False.
    2: { intros [= ->]. apply NoDup_app in Hnd as (_ & _ & [_ [Hn _]%NoDup_cons]%NoDup_cons).
      apply Hn, elem_of_app. right. by left. }
    l_steps. eapply wp_mono; [apply (IH (l1 ++ [y]) z); [by rewrite <- app_assoc..|lia]|].
    cbv beta. done.
Qed.

(** ** Traversals *)

(** The body leaves the pointers of the other elements alone. *)
Definition minds_own (l : list addr) (body : addr → L unit) : Prop :=
  ∀ x m, x ∈ l → wp (body x) (λ _ m', ∀ y, y ∈ l → y ≠ x → l_ptr m' !! QElm y = l_ptr m !! QElm y) m.

(** The entries of [l] are linked. *)
Fixpoint linked (p : gmap qaddr ptr) (l : list addr) : Prop :=
  match l with [] => True | x :: l => p !! QElm x = Some (hd l NULL) ∧ linked p l end.

Lemma cseg_linked p a l : cseg p a l NULL → linked p l.
Proof.
  revert a; induction l as [|x l IH]; intros a; [done|]. intros [_ Hc].
  split; [by apply cseg_hd|by eapply IH].
Qed.

Lemma linked_frame p p' l :
  linked p l → (∀ x, x ∈ l → p' !! QElm x = p !! QElm x) → linked p' l.
Proof.
  induction l as [|x l IH]; [done|]. intros [Hx Hl] He. split; [|apply IH; set_solver].
  by rewrite He by set_solver.
Qed.

Lemma wp_foreach_safe_loop l body fuel m :
  linked (l_ptr m) l → NoDup l → minds_own l body → length l < fuel →
  wp (foreach_safe_loop body fuel (hd l NULL)) (λ r _, r = l) m.
Proof.
  revert fuel m; induction l as [|x l IH]; intros [|fuel] m; simpl; try lia.
  { intros. by apply wp_ret. }
  intros [Hx Hl] Hnd Hb Hf. apply NoDup_cons in Hnd as [Hn Hnd]. unfold link_next. l_steps.
  eapply wp_mono; [apply Hb; set_solver|]. cbv beta. intros _ m' Hm'. l_steps.
  eapply wp_mono; [apply (IH fuel m')|].
  - eapply linked_frame; [exact Hl|]. intros y Hy. apply Hm'; set_solver.
  - done.
  - intros y m1 Hy. eapply wp_mono; [apply Hb; set_solver|]. cbv beta. intros _ m2 Hm2 z Hz.
    apply Hm2; set_solver.
  - lia.
  - cbv beta. intros r m2 ->. by l_steps.
Qed.

(** A body that changes no pointer. *)
Definition quiet_body {A} (body : A → L unit) : Prop :=
  ∀ x m, wp (body x) (λ _ m', l_ptr m' = l_ptr m) m.

Lemma wp_foreach_loop l body fuel m :
  linked (l_ptr m) l → quiet_body body → length l < fuel →
  wp (foreach_loop body fuel (hd l NULL)) (λ r m', r = l ∧ l_ptr m' = l_ptr m) m.
Proof.
  revert fuel m; induction l as [|x l IH]; intros [|fuel] m; simpl; try lia.
  { intros. by apply wp_ret. }
  intros [Hx Hl] Hb Hf. unfold link_next. l_steps.
  eapply wp_mono; [apply Hb|]. cbv beta. intros _ m' Hm'. rewrite <- Hm' in *. l_steps.
  eapply wp_mono; [apply (IH fuel m'); [done..|lia]|].
  cbv beta. intros r m2 [-> ?]. by l_steps.
Qed.

(** ** What an operation may touch *)

(** The cells of a head and of the elements of [D]. *)
Definition mine (h : addr) (D : gset addr) (a : qaddr) : Prop :=
  match a with QHead h' => h' = h | QElm x => x ∈ D end.

(** Nothing is allocated or freed, and other cells are as in [F]. *)
Definition within (h : addr) (D : gset addr) (F m : links) : Prop :=
  dom (l_ptr m) = dom (l_ptr F) ∧ dom (l_back m) = dom (l_back F) ∧
  (∀ a, ¬ mine h D a → l_ptr m !! a = l_ptr F !! a ∧ l_back m !! a = l_back F !! a).

Lemma within_refl h D F : within h D F F.
Proof. by split_and!. Qed.

Lemma within_pstore h D F p b a v :
  within h D F (Links p b) → mine h D a → is_Some (p !! a) → within h D F (Links (<[a := v]> p) b).
Proof.
  intros (Hp & Hb & Hs) Ha Hal. split_and!; simpl in *; [|done|].
  - rewrite dom_insert_L, <- Hp. apply elem_of_dom in Hal. set_solver.
  - intros c Hc. rewrite lookup_insert_ne; [by apply Hs|]. by intros ->.
Qed.

Lemma within_bstore h D F p b a v :
  within h D F (Links p b) → mine h D a → is_Some (b !! a) → within h D F (Links p (<[a := v]> b)).
Proof.
  intros (Hp & Hb & Hs) Ha Hal. split_and!; simpl in *; [done| |].
  - rewrite dom_insert_L, <- Hb. apply elem_of_dom in Hal. set_solver.
  - intros c Hc. rewrite lookup_insert_ne; [by apply Hs|]. by intros ->.
Qed.

Lemma within_ptr h D F m a : within h D F m → is_Some (l_ptr F !! a) → is_Some (l_ptr m !! a).
Proof. intros (Hp & _). by rewrite <- !elem_of_dom, Hp. Qed.
Lemma within_back h D F m a : within h D F m → is_Some (l_back F !! a) → is_Some (l_back m !! a).
Proof. intros (_ & Hb & _). by rewrite <- !elem_of_dom, Hb. Qed.

Lemma mine_end h D l : (∀ x, x ∈ l → x ∈ D) → mine h D (end_of (QHead h) l).
Proof.
  intros Hl. destruct l as [|x l _] using rev_ind; [done|]. rewrite end_of_snoc. apply Hl. set_solver.
Qed.

(** ** Sequences of operations *)

Section client.
Context {S O : Type} (run : O → ST S unit) (spec : O → list addr → list addr)
  (ok : O → list addr → Prop).

Fixpoint run_all (os : list O) : ST S unit :=
  match os with [] => mret tt | o :: os => run o;; run_all os end.
Fixpoint spec_all (os : list O) (l : list addr) : list addr :=
  match os with [] => l | o :: os => spec_all os (spec o l) end.
(** Each operation is allowed when its turn comes. *)
Fixpoint all_ok (os : list O) (l : list addr) : Prop :=
  match os with [] => True | o :: os => ok o l ∧ all_ok os (spec o l) end.

Lemma run_all_spec (rep : S → list addr → Prop) :
  (∀ o m l, rep m l → ok o l → wp (run o) (λ _ m', rep m' (spec o l)) m) →
  ∀ os m l, rep m l → all_ok os l → wp (run_all os) (λ _ m', rep m' (spec_all os l)) m.
Proof.
  intros Hstep. induction os as [|o os IH]; intros m l Hrep; simpl; [intros _; by apply wp_ret|].
  intros [Ho Hos]. eapply wp_seq; [by apply Hstep|]. cbv beta. intros _ m' Hrep'. by apply IH.
Qed.
End client.

(** ** Lists as the specification *)

(** What is done after the element [y]. *)
Definition after (y : addr) (f : list addr → list addr) : list addr → list addr :=
  fix go l := match l with [] => [] | x :: l => if decide (x = y) then x :: f l else x :: go l end.
Definition without (x : addr) : list addr → list addr :=
  fix go l := match l with [] => [] | y :: l => if decide (y = x) then l else y :: go l end.

Lemma after_mid y f l1 l2 : NoDup (l1 ++ y :: l2) → after y f (l1 ++ y :: l2) = l1 ++ y :: f l2.
Proof.
  induction l1 as [|x l1 IH]; simpl; [by rewrite decide_True|].
  rewrite NoDup_cons. intros [Hx Hnd]. rewrite decide_False by set_solver. by rewrite IH.
Qed.
Lemma without_mid x l1 l2 : NoDup (l1 ++ x :: l2) → without x (l1 ++ x :: l2) = l1 ++ l2.
Proof.
  induction l1 as [|y l1 IH]; simpl; [by rewrite decide_True|].
  rewrite NoDup_cons. intros [Hy Hnd]. rewrite decide_False by set_solver. by rewrite IH.
Qed.

(** ** The elements of the examples *)

Definition one_to_four : gset addr := list_to_set [1; 2; 3; 4]%positive.

Lemma elem_one_to_four x : x ∈ one_to_four ↔ x ∈ [1; 2; 3; 4]%positive.
Proof. apply elem_of_list_to_set. Qed.

Lemma one_to_four_alloc {V} (p : gmap qaddr V) :
  is_Some (p !! QElm 1%positive) → is_Some (p !! QElm 2%positive) → is_Some (p !! QElm 3%positive) →
  is_Some (p !! QElm 4%positive) → ∀ x, x ∈ one_to_four → is_Some (p !! QElm x).
Proof.
  intros ???? x Hx%elem_one_to_four. do 4 (apply elem_of_cons in Hx as [->|Hx]; [done|]).
  by apply elem_of_nil in Hx.
Qed.

Lemma one_two_three_nodup : NoDup [1; 2; 3]%positive.
Proof. by repeat (apply NoDup_cons; split; [set_solver|]); apply NoDup_nil. Qed.
