(* ===== verification/SList.v ===== *)
(** The singly-linked lists of src/core/nty_queue.h (SLIST_HEAD ... SLIST_REMOVE_HEAD), and
    what is proved of them. *)

From S2P Require Export Links.

(** ** Operations *)

Definition SLIST_FIRST (h : addr) : L ptr := pload (Some (QHead h)).
Definition SLIST_NEXT (x : ptr) : L ptr := link_next x.
Definition SLIST_EMPTY (h : addr) : L bool := f ← SLIST_FIRST h; mret (bool_decide (f = NULL)).
Definition SLIST_INIT (h : addr) : L unit := pstore (Some (QHead h)) NULL.

Definition SLIST_INSERT_AFTER (slistelm elm : ptr) : L unit :=
  n ← SLIST_NEXT slistelm; pstore (elm_ elm) n;;
  pstore (elm_ slistelm) elm.

Definition SLIST_INSERT_HEAD (h : addr) (elm : ptr) : L unit :=
  f ← SLIST_FIRST h; pstore (elm_ elm) f;;
  pstore (Some (QHead h)) elm.

Definition SLIST_REMOVE_AFTER (elm : ptr) : L unit :=
  n ← SLIST_NEXT elm; n' ← SLIST_NEXT n;
  pstore (elm_ elm) n'.

Definition SLIST_REMOVE_HEAD (h : addr) : L unit :=
  f ← SLIST_FIRST h; n ← SLIST_NEXT f;
  pstore (Some (QHead h)) n.

Definition SLIST_REMOVE (h : addr) (elm : ptr) : L unit :=
  f ← SLIST_FIRST h;
  if decide (f = elm) then SLIST_REMOVE_HEAD h
  else
    curelm ← SLIST_FIRST h;
    fuel ← gets l_fuel;
    curelm ← remove_loop fuel elm curelm;
    SLIST_REMOVE_AFTER curelm.

Definition SLIST_FOREACH (h : addr) (body : addr → L unit) : L (list addr) :=
  fuel ← gets l_fuel; var ← SLIST_FIRST h; foreach_loop body fuel var.

Definition SLIST_FOREACH_SAFE (h : addr) (body : addr → L unit) : L (list addr) :=
  fuel ← gets l_fuel; var ← SLIST_FIRST h; foreach_safe_loop body fuel var.

(** The body is given the address of the pointer to the element. *)
Fixpoint SLIST_FOREACH_PREVPTR_loop (body : addr → option qaddr → L unit) (fuel : nat)
    (varp : option qaddr) : L (list addr) :=
  match fuel with
  | O => throw OutOfFuel
  | S fuel =>
      var ← pload varp;
      match var with
      | None => mret []
      | Some x =>
          body x varp;; l ← SLIST_FOREACH_PREVPTR_loop body fuel (elm_ var); mret (x :: l)
      end
  end.
Definition SLIST_FOREACH_PREVPTR (h : addr) (body : addr → option qaddr → L unit) : L (list addr) :=
  fuel ← gets l_fuel; SLIST_FOREACH_PREVPTR_loop body fuel (Some (QHead h)).

(** ** Specifications *)

Definition slist (m : links) (h : addr) (l : list addr) : Prop :=
  cseg (l_ptr m) (QHead h) l NULL ∧ NoDup l.

Inductive sl_op : Type :=
  | SLInsertHead (x : addr)
  | SLInsertAfter (y x : addr)
  | SLRemove (x : addr)
  | SLRemoveHead
  | SLRemoveAfter (y : addr).

Definition run_sl (h : addr) (o : sl_op) : L unit :=
  match o with
  | SLInsertHead x => SLIST_INSERT_HEAD h (Some x)
  | SLInsertAfter y x => SLIST_INSERT_AFTER (Some y) (Some x)
  | SLRemove x => SLIST_REMOVE h (Some x)
  | SLRemoveHead => SLIST_REMOVE_HEAD h
  | SLRemoveAfter y => SLIST_REMOVE_AFTER (Some y)
  end.

Definition spec_sl (o : sl_op) (l : list addr) : list addr :=
  match o with
  | SLInsertHead x => x :: l
  | SLInsertAfter y x => after y (cons x) l
  | SLRemove x => without x l
  | SLRemoveHead => tail l
  | SLRemoveAfter y => after y tail l
  end.

Definition sl_ok (D : gset addr) (o : sl_op) (l : list addr) : Prop :=
  match o with
  | SLInsertHead x => x ∈ D ∧ x ∉ l
  | SLInsertAfter y x => x ∈ D ∧ (x ∉ l) ∧ y ∈ l
  | SLRemove x => x ∈ l
  | SLRemoveHead => l ≠ []
  | SLRemoveAfter y => y ∈ l ∧ last l ≠ Some y
  end.

Section ops.
Variable (h : addr) (D : gset addr) (F : links).
Hypothesis HD : ∀ x, x ∈ D → is_Some (l_ptr F !! QElm x).

(** The list, its elements in [D], and nothing else changed. *)
Definition sl_rep (m : links) (l : list addr) : Prop :=
  slist m h l ∧ (∀ x, x ∈ l → x ∈ D) ∧ within h D F m.

Lemma sl_insert m l1 x l2 :
  sl_rep m (l1 ++ l2) → x ∈ D → x ∉ l1 ++ l2 →
  sl_rep (Links (<[end_of (QHead h) l1 := Some x]> (<[QElm x := hd l2 NULL]> (l_ptr m))) (l_back m))
    (l1 ++ x :: l2).
Proof.
  intros ((Hc & Hnd) & Hl & Hw) Hx Hn. split_and!.
  - split; [by apply cseg_insert|by apply NoDup_mid_insert].
  - set_solver.
  - apply within_pstore; [apply within_pstore; [by destruct m|done|]| |].
    + eapply within_ptr; [done|auto].
    + apply mine_end. set_solver.
    + apply insert_keeps. apply cseg_app in Hc as [Hc _]. eexists. by eapply cseg_end.
Qed.

Lemma sl_remove m l1 x l2 :
  sl_rep m (l1 ++ x :: l2) →
  sl_rep (Links (<[end_of (QHead h) l1 := hd l2 NULL]> (l_ptr m)) (l_back m)) (l1 ++ l2).
Proof.
  intros ((Hc & Hnd) & Hl & Hw). split_and!.
  - split; [by eapply cseg_remove|by eapply NoDup_mid_remove].
  - set_solver.
  - apply within_pstore; [by destruct m|apply mine_end; set_solver|].
    eexists. by apply cseg_elem in Hc as [Hc _].
Qed.

Lemma slist_insert_head m l x :
  sl_rep m l → x ∈ D → x ∉ l → wp (SLIST_INSERT_HEAD h (Some x)) (λ _ m', sl_rep m' (x :: l)) m.
Proof.
  intros Hr Hx Hn. pose proof Hr as ((Hc%cseg_hd & _) & _ & Hw).
  assert (is_Some (l_ptr m !! QElm x)) by (eapply within_ptr; eauto).
  unfold SLIST_INSERT_HEAD, SLIST_FIRST. l_steps. by apply (sl_insert m []).
Qed.

Lemma slist_insert_after m l1 y l2 x :
  sl_rep m (l1 ++ y :: l2) → x ∈ D → x ∉ l1 ++ y :: l2 →
  wp (SLIST_INSERT_AFTER (Some y) (Some x)) (λ _ m', sl_rep m' (l1 ++ y :: x :: l2)) m.
Proof.
  intros Hr Hx Hn. pose proof Hr as ((Hc & _) & _ & Hw).
  apply cseg_elem in Hc as [_ Hy].
  assert (is_Some (l_ptr m !! QElm x)) by (eapply within_ptr; eauto).
  unfold SLIST_INSERT_AFTER, SLIST_NEXT, link_next. l_steps.
  pose proof (sl_insert m (l1 ++ [y]) x l2) as Hi.
  rewrite <- !app_assoc, end_of_snoc in Hi. by apply Hi.
Qed.

Lemma slist_remove_head m x l :
  sl_rep m (x :: l) → wp (SLIST_REMOVE_HEAD h) (λ _ m', sl_rep m' l) m.
Proof.
  intros Hr. pose proof Hr as (([Hh Hc%cseg_hd] & _) & _).
  unfold SLIST_REMOVE_HEAD, SLIST_FIRST, SLIST_NEXT, link_next. l_steps. by apply (sl_remove m [] x).
Qed.

Lemma slist_remove_after m l1 y x l2 :
  sl_rep m (l1 ++ y :: x :: l2) →
  wp (SLIST_REMOVE_AFTER (Some y)) (λ _ m', sl_rep m' (l1 ++ y :: l2)) m.
Proof.
  intros Hr. pose proof Hr as ((Hc & _) & _). apply cseg_elem in Hc as Hy. destruct Hy as [_ Hy].
  pose proof (cseg_elem (l_ptr m) (QHead h) (l1 ++ [y]) x l2 NULL) as Hx.
  rewrite <- app_assoc in Hx. destruct (Hx Hc) as [_ Hx'].
  unfold SLIST_REMOVE_AFTER, SLIST_NEXT, link_next. l_steps.
  pose proof (sl_remove m (l1 ++ [y]) x l2) as Hi. rewrite <- !app_assoc, end_of_snoc in Hi. by apply Hi.
Qed.

Lemma slist_remove m l1 x l2 :
  sl_rep m (l1 ++ x :: l2) → wp (SLIST_REMOVE h (Some x)) (λ _ m', sl_rep m' (l1 ++ l2)) m.
Proof.
  intros Hr. pose proof Hr as ((Hc & Hnd) & _). pose proof (cseg_length _ _ _ _ Hc Hnd) as Hlen.
  unfold SLIST_REMOVE, SLIST_FIRST. destruct l1 as [|y l1].
  - destruct Hc as [Hh _]. l_steps. rewrite decide_True by done. by eapply slist_remove_head.
  - pose proof (cseg_hd _ _ _ _ Hc) as Hh. simpl in Hh. l_steps. rewrite decide_False.
    2: { intros [= ->]. apply NoDup_cons in Hnd as [Hn _]. apply Hn, elem_of_app. right. by left. }
    l_steps. eapply wp_mono; [eapply (wp_remove_loop m h [] y l1 x l2); [done..|]|].
    { unfold l_fuel. rewrite length_app in Hlen. simpl in *. lia. }
    cbv beta. intros r m' [-> ->].
    destruct (exists_last (l := y :: l1) ltac:(done)) as (l1' & w & E). rewrite E, last_snoc.
    rewrite E, <- app_assoc in Hr. simpl in Hr. eapply wp_mono; [by eapply slist_remove_after|].
    cbv beta. intros _ m' Hr'.
    by rewrite <- app_assoc.
Qed.

Lemma run_sl_spec o m l :
  sl_rep m l → sl_ok D o l → wp (run_sl h o) (λ _ m', sl_rep m' (spec_sl o l)) m.
Proof.
  intros Hr Hok. pose proof Hr as ((_ & Hnd) & _). destruct o as [x|y x|x| |y]; simpl in *.
  - destruct Hok. by apply slist_insert_head.
  - destruct Hok as (? & ? & (l1 & l2 & ->)%list_elem_of_split).
    rewrite after_mid by done. by apply slist_insert_after.
  - apply list_elem_of_split in Hok as (l1 & l2 & ->). rewrite without_mid by done.
    by apply slist_remove.
  - destruct l as [|x l]; [done|]. by eapply slist_remove_head.
  - destruct Hok as [(l1 & l2 & ->)%list_elem_of_split Hlast]. rewrite after_mid by done.
    destruct l2 as [|x l2]; [by rewrite last_snoc in Hlast|]. by eapply slist_remove_after.
Qed.
End ops.

(** ** Traversal *)

Lemma slist_foreach_prevptr_loop l body fuel m a :
  cseg (l_ptr m) a l NULL → quiet_body (λ xa : addr * option qaddr, body xa.1 xa.2) →
  length l < fuel →
  wp (SLIST_FOREACH_PREVPTR_loop body fuel (Some a)) (λ r m', r = l ∧ l_ptr m' = l_ptr m) m.
Proof.
  revert fuel m a; induction l as [|x l IH]; intros [|fuel] m a; simpl; try lia.
  { intros. by l_steps. }
  intros [Hx Hl] Hb Hf. l_steps.
  eapply wp_mono; [apply (Hb (x, Some a))|]. cbv beta. intros _ m' Hm'. rewrite <- Hm' in *. l_steps.
  eapply wp_mono; [apply (IH fuel m' (QElm x)); [done..|lia]|].
  cbv beta. intros r m2 [-> ?]. by l_steps.
Qed.

(** ** Properties *)

(** Any sequence of insertions and removals of the SLIST macros, each allowed when its turn
    comes, runs without error, leaves the list the same sequence leaves on a Rocq list, and
    changes nothing but the head and the entries of the elements. *)
Theorem slist_refines_list h D F l os :
  (∀ x, x ∈ D → is_Some (l_ptr F !! QElm x)) → slist F h l → (∀ x, x ∈ l → x ∈ D) →
  all_ok spec_sl (sl_ok D) os l →
  wp (run_all (run_sl h) os) (λ _ m, slist m h (spec_all spec_sl os l) ∧ within h D F m) F.
Proof.
  intros HD Hs Hl Hok. eapply wp_mono.
  - apply (run_all_spec (run_sl h) spec_sl (sl_ok D) (sl_rep h D F)); [|by split_and!|exact Hok].
    intros. by eapply run_sl_spec.
  - by intros _ m (? & _ & ?).
Qed.

(** [SLIST_FOREACH_SAFE] runs its body on every element in order even when the body frees
    or rewrites the entry of the element it is given; [SLIST_FOREACH] and
    [SLIST_FOREACH_PREVPTR] do for bodies that change no pointer. *)
Theorem slist_traversal_correct m h l :
  slist m h l →
  (∀ body, minds_own l body → wp (SLIST_FOREACH_SAFE h body) (λ r _, r = l) m) ∧
  (∀ body, quiet_body body → wp (SLIST_FOREACH h body) (λ r m', r = l ∧ l_ptr m' = l_ptr m) m) ∧
  (∀ body, quiet_body (λ xa : addr * option qaddr, body xa.1 xa.2) →
    wp (SLIST_FOREACH_PREVPTR h body) (λ r m', r = l ∧ l_ptr m' = l_ptr m) m).
Proof.
  intros [Hc Hnd]. pose proof (cseg_length _ _ _ _ Hc Hnd). pose proof (cseg_hd _ _ _ _ Hc).
  apply cseg_linked in Hc as Hl.
  split_and!; intros body Hb;
    unfold SLIST_FOREACH_SAFE, SLIST_FOREACH, SLIST_FOREACH_PREVPTR, SLIST_FIRST; l_steps.
  - by apply wp_foreach_safe_loop.
  - by apply wp_foreach_loop.
  - by apply slist_foreach_prevptr_loop.
Qed.

(** ** Examples *)

(** The list 1, 2, 3 and a free element 4. *)
Definition example_slist : links := Links (list_to_map [
  (QHead 9, Some 1); (QElm 1, Some 2); (QElm 2, Some 3); (QElm 3, NULL); (QElm 4, NULL)]%positive) ∅.

(** [free(x)] *)
Definition free_entry (x : addr) : L unit := λ m, Ok (tt, Links (delete (QElm x) (l_ptr m)) (l_back m)).

Lemma example_slist_ok : slist example_slist 9%positive [1; 2; 3]%positive.
Proof. split; [by repeat split|apply one_two_three_nodup]. Qed.

Lemma slist_refines_list_witness :
  wp (run_all (run_sl 9) [SLInsertAfter 2 4; SLRemove 3; SLRemoveHead])%positive
    (λ _ m, slist m 9%positive [2; 4]%positive ∧ within 9 one_to_four example_slist m)%positive
    example_slist.
Proof.
  apply (slist_refines_list 9%positive one_to_four example_slist [1; 2; 3]%positive
    [SLInsertAfter 2 4; SLRemove 3; SLRemoveHead]%positive).
  - by apply one_to_four_alloc.
  - apply example_slist_ok.
  - intros x. rewrite elem_one_to_four. set_solver.
  - simpl. rewrite !elem_one_to_four. split_and!; set_solver.
Defined.

(** Freeing every element. *)
Lemma slist_traversal_correct_witness :
  wp (SLIST_FOREACH_SAFE 9 free_entry) (λ r _, r = [1; 2; 3]%positive) example_slist.
Proof.
  apply (slist_traversal_correct example_slist 9%positive [1; 2; 3]%positive example_slist_ok).
  intros x m _. unfold wp, free_entry. intros y _ Hy. simpl. apply lookup_delete_ne. congruence.
Defined.

(** The plain loop reads the freed entry. *)
Example foreach_free : SLIST_FOREACH 9 free_entry example_slist = Err Dangling.
Proof. vm_compute. reflexivity. Qed.
