(* ===== verification/STailQueue.v ===== *)
(** The singly-linked tail queues of src/core/nty_queue.h (STAILQ_HEAD ... STAILQ_SWAP), and
    what is proved of them. *)

From S2P Require Export Links.

(** ** Operations *)

Definition STAILQ_FIRST (h : addr) : L ptr := pload (Some (QHead h)).
Definition STAILQ_NEXT (x : ptr) : L ptr := link_next x.
Definition stqh_last (h : addr) : L (option qaddr) := bload (Some (QHead h)).
Definition set_stqh_last (h : addr) (a : option qaddr) : L unit := bstore (Some (QHead h)) a.

Definition STAILQ_EMPTY (h : addr) : L bool := f ← STAILQ_FIRST h; mret (bool_decide (f = NULL)).

Definition STAILQ_INIT (h : addr) : L unit :=
  pstore (Some (QHead h)) NULL;;
  set_stqh_last h (Some (QHead h)).

Definition STAILQ_INSERT_AFTER (h : addr) (tqelm elm : ptr) : L unit :=
  n ← STAILQ_NEXT tqelm; pstore (elm_ elm) n;;
  (if decide (n = NULL) then set_stqh_last h (elm_ elm) else mret tt);;
  pstore (elm_ tqelm) elm.

Definition STAILQ_INSERT_HEAD (h : addr) (elm : ptr) : L unit :=
  f ← STAILQ_FIRST h; pstore (elm_ elm) f;;
  (if decide (f = NULL) then set_stqh_last h (elm_ elm) else mret tt);;
  pstore (Some (QHead h)) elm.

Definition STAILQ_INSERT_TAIL (h : addr) (elm : ptr) : L unit :=
  pstore (elm_ elm) NULL;;
  (l ← stqh_last h; pstore l elm);;
  set_stqh_last h (elm_ elm).

(** The element whose entry [stqh_last] points into. *)
Definition STAILQ_LAST (h : addr) : L ptr :=
  empty ← STAILQ_EMPTY h;
  if (empty : bool) then mret NULL
  else
    l ← stqh_last h;
    match l with Some (QElm x) => mret (Some x) | _ => throw Undefined end.

Definition STAILQ_REMOVE_HEAD (h : addr) : L unit :=
  f ← STAILQ_FIRST h; n ← STAILQ_NEXT f; pstore (Some (QHead h)) n;;
  if decide (n = NULL) then set_stqh_last h (Some (QHead h)) else mret tt.

Definition STAILQ_REMOVE_AFTER (h : addr) (elm : ptr) : L unit :=
  n ← STAILQ_NEXT elm; n' ← STAILQ_NEXT n; pstore (elm_ elm) n';;
  if decide (n' = NULL) then set_stqh_last h (elm_ elm) else mret tt.

Definition STAILQ_REMOVE (h : addr) (elm : ptr) : L unit :=
  f ← STAILQ_FIRST h;
  if decide (f = elm) then STAILQ_REMOVE_HEAD h
  else
    curelm ← STAILQ_FIRST h;
    fuel ← gets l_fuel;
    curelm ← remove_loop fuel elm curelm;
    STAILQ_REMOVE_AFTER h curelm.

Definition STAILQ_CONCAT (h1 h2 : addr) : L unit :=
  empty ← STAILQ_EMPTY h2;
  if (empty : bool) then mret tt
  else
    (f ← STAILQ_FIRST h2; l ← stqh_last h1; pstore l f);;
    (l ← stqh_last h2; set_stqh_last h1 l);;
    STAILQ_INIT h2.

Definition STAILQ_SWAP (h1 h2 : addr) : L unit :=
  swap_first ← STAILQ_FIRST h1;
  swap_last ← stqh_last h1;
  (f ← STAILQ_FIRST h2; pstore (Some (QHead h1)) f);;
  (l ← stqh_last h2; set_stqh_last h1 l);;
  pstore (Some (QHead h2)) swap_first;;
  set_stqh_last h2 swap_last;;
  (empty ← STAILQ_EMPTY h1;
   if (empty : bool) then set_stqh_last h1 (Some (QHead h1)) else mret tt);;
  (empty ← STAILQ_EMPTY h2;
   if (empty : bool) then set_stqh_last h2 (Some (QHead h2)) else mret tt).

Definition STAILQ_FOREACH (h : addr) (body : addr → L unit) : L (list addr) :=
  fuel ← gets l_fuel; var ← STAILQ_FIRST h; foreach_loop body fuel var.
Definition STAILQ_FOREACH_SAFE (h : addr) (body : addr → L unit) : L (list addr) :=
  fuel ← gets l_fuel; var ← STAILQ_FIRST h; foreach_safe_loop body fuel var.

(** ** Specifications *)

Definition stailq (m : links) (h : addr) (l : list addr) : Prop :=
  cseg (l_ptr m) (QHead h) l NULL ∧ NoDup l ∧
  l_back m !! QHead h = Some (Some (end_of (QHead h) l)).

Inductive st_op : Type :=
  | STInsertHead (x : addr)
  | STInsertTail (x : addr)
  | STInsertAfter (y x : addr)
  | STRemove (x : addr)
  | STRemoveHead
  | STRemoveAfter (y : addr).

Definition run_st (h : addr) (o : st_op) : L unit :=
  match o with
  | STInsertHead x => STAILQ_INSERT_HEAD h (Some x)
  | STInsertTail x => STAILQ_INSERT_TAIL h (Some x)
  | STInsertAfter y x => STAILQ_INSERT_AFTER h (Some y) (Some x)
  | STRemove x => STAILQ_REMOVE h (Some x)
  | STRemoveHead => STAILQ_REMOVE_HEAD h
  | STRemoveAfter y => STAILQ_REMOVE_AFTER h (Some y)
  end.

Definition spec_st (o : st_op) (l : list addr) : list addr :=
  match o with
  | STInsertHead x => x :: l
  | STInsertTail x => l ++ [x]
  | STInsertAfter y x => after y (cons x) l
  | STRemove x => without x l
  | STRemoveHead => tail l
  | STRemoveAfter y => after y tail l
  end.

Definition st_ok (D : gset addr) (o : st_op) (l : list addr) : Prop :=
  match o with
  | STInsertHead x | STInsertTail x => x ∈ D ∧ x ∉ l
  | STInsertAfter y x => x ∈ D ∧ (x ∉ l) ∧ y ∈ l
  | STRemove x => x ∈ l
  | STRemoveHead => l ≠ []
  | STRemoveAfter y => y ∈ l ∧ last l ≠ Some y
  end.

Ltac st_unfold :=
  unfold STAILQ_INSERT_HEAD, STAILQ_INSERT_TAIL, STAILQ_INSERT_AFTER, STAILQ_REMOVE_HEAD,
    STAILQ_REMOVE_AFTER, STAILQ_CONCAT, STAILQ_SWAP, STAILQ_LAST, STAILQ_INIT, STAILQ_EMPTY,
    STAILQ_FIRST, STAILQ_NEXT, link_next, stqh_last, set_stqh_last.

Section ops.
Variable (h : addr) (D : gset addr) (F : links).
Hypothesis HD : ∀ x, x ∈ D → is_Some (l_ptr F !! QElm x).

Definition st_rep (m : links) (l : list addr) : Prop :=
  stailq m h l ∧ (∀ x, x ∈ l → x ∈ D) ∧ within h D F m.

(** [stqh_last] after the pointer that leads out of [l1] was changed. *)
Definition set_last (l2 : list addr) (a : qaddr) (b : gmap qaddr (option qaddr)) :=
  match l2 with [] => <[QHead h := Some a]> b | _ => b end.

Lemma st_insert m l1 x l2 :
  st_rep m (l1 ++ l2) → x ∈ D → x ∉ l1 ++ l2 →
  st_rep (Links (<[end_of (QHead h) l1 := Some x]> (<[QElm x := hd l2 NULL]> (l_ptr m)))
    (set_last l2 (QElm x) (l_back m))) (l1 ++ x :: l2).
Proof.
  intros ((Hc & Hnd & Hb) & Hl & Hw) Hx Hn. split_and!.
  - split_and!; [by apply cseg_insert|by apply NoDup_mid_insert|].
    rewrite end_of_app. destruct l2; simpl; [apply lookup_insert_eq|]. by rewrite Hb, end_of_app.
  - set_solver.
  - assert (within h D F (Links (l_ptr m) (set_last l2 (QElm x) (l_back m)))) as Hw'.
    { destruct m as [p b], l2; simpl; [|done]. apply within_bstore; [done..|by eexists]. }
    apply within_pstore; [apply within_pstore; [done..|]| |].
    + eapply within_ptr; [done|auto].
    + apply mine_end. set_solver.
    + apply insert_keeps. apply cseg_app in Hc as [Hc _]. eexists. by eapply cseg_end.
Qed.

Lemma st_remove m l1 x l2 :
  st_rep m (l1 ++ x :: l2) →
  st_rep (Links (<[end_of (QHead h) l1 := hd l2 NULL]> (l_ptr m))
    (set_last l2 (end_of (QHead h) l1) (l_back m))) (l1 ++ l2).
Proof.
  intros ((Hc & Hnd & Hb) & Hl & Hw). split_and!.
  - split_and!; [by eapply cseg_remove|by eapply NoDup_mid_remove|].
    rewrite end_of_app. destruct l2; simpl; [apply lookup_insert_eq|]. by rewrite Hb, end_of_app.
  - set_solver.
  - assert (within h D F (Links (l_ptr m) (set_last l2 (end_of (QHead h) l1) (l_back m)))) as Hw'.
    { destruct m as [p b], l2; simpl; [|done]. apply within_bstore; [done..|by eexists]. }
    apply within_pstore; [done|apply mine_end; set_solver|].
    eexists. by apply cseg_elem in Hc as [Hc _].
Qed.

Lemma stailq_insert_head m l x :
  st_rep m l → x ∈ D → x ∉ l → wp (STAILQ_INSERT_HEAD h (Some x)) (λ _ m', st_rep m' (x :: l)) m.
Proof.
  intros Hr Hx Hn. pose proof Hr as ((Hc%cseg_hd & _ & Hb) & _ & Hw).
  assert (is_Some (l_ptr m !! QElm x)) by (eapply within_ptr; eauto).
  pose proof (st_insert m [] x l Hr Hx Hn) as Hi. st_unfold.
  destruct l; simpl in Hc; by l_steps.
Qed.

Lemma stailq_insert_tail m l x :
  st_rep m l → x ∈ D → x ∉ l → wp (STAILQ_INSERT_TAIL h (Some x)) (λ _ m', st_rep m' (l ++ [x])) m.
Proof.
  intros Hr Hx Hn. pose proof Hr as ((Hc & _ & Hb) & _ & Hw). apply cseg_end in Hc.
  assert (is_Some (l_ptr m !! QElm x)) by (eapply within_ptr; eauto).
  pose proof (st_insert m l x []) as Hi. rewrite app_nil_r in Hi. specialize (Hi Hr Hx Hn).
  pose proof (end_of_head h l x Hn). st_unfold. l_steps. done.
Qed.

Lemma stailq_insert_after m l1 y l2 x :
  st_rep m (l1 ++ y :: l2) → x ∈ D → x ∉ l1 ++ y :: l2 →
  wp (STAILQ_INSERT_AFTER h (Some y) (Some x)) (λ _ m', st_rep m' (l1 ++ y :: x :: l2)) m.
Proof.
  intros Hr Hx Hn. pose proof Hr as ((Hc & _ & Hb) & _ & Hw). apply cseg_elem in Hc as [_ Hy].
  assert (is_Some (l_ptr m !! QElm x)) by (eapply within_ptr; eauto).
  pose proof (st_insert m (l1 ++ [y]) x l2) as Hi. rewrite <- !app_assoc, end_of_snoc in Hi.
  specialize (Hi Hr Hx Hn). st_unfold. destruct l2; simpl in Hy; by l_steps.
Qed.

Lemma stailq_remove_head m x l :
  st_rep m (x :: l) → wp (STAILQ_REMOVE_HEAD h) (λ _ m', st_rep m' l) m.
Proof.
  intros Hr. pose proof Hr as (([Hh Hc%cseg_hd] & _ & Hb) & _).
  pose proof (st_remove m [] x l Hr) as Hi. st_unfold. destruct l; simpl in Hc; by l_steps.
Qed.

Lemma stailq_remove_after m l1 y x l2 :
  st_rep m (l1 ++ y :: x :: l2) →
  wp (STAILQ_REMOVE_AFTER h (Some y)) (λ _ m', st_rep m' (l1 ++ y :: l2)) m.
Proof.
  intros Hr. pose proof Hr as ((Hc & _ & Hb) & _). apply cseg_elem in Hc as Hy. destruct Hy as [_ Hy].
  pose proof (cseg_elem (l_ptr m) (QHead h) (l1 ++ [y]) x l2 NULL) as Hx.
  rewrite <- app_assoc in Hx. destruct (Hx Hc) as [_ Hx'].
  pose proof (st_remove m (l1 ++ [y]) x l2) as Hi. rewrite <- !app_assoc, end_of_snoc in Hi.
  specialize (Hi Hr). st_unfold. simpl in Hy. destruct l2; simpl in Hx'; by l_steps.
Qed.

Lemma stailq_remove m l1 x l2 :
  st_rep m (l1 ++ x :: l2) → wp (STAILQ_REMOVE h (Some x)) (λ _ m', st_rep m' (l1 ++ l2)) m.
Proof.
  intros Hr. pose proof Hr as ((Hc & Hnd & _) & _). pose proof (cseg_length _ _ _ _ Hc Hnd) as Hlen.
  unfold STAILQ_REMOVE, STAILQ_FIRST. destruct l1 as [|y l1].
  - destruct Hc as [Hh _]. l_steps. rewrite decide_True by done. by eapply stailq_remove_head.
  - pose proof (cseg_hd _ _ _ _ Hc) as Hh. simpl in Hh. l_steps. rewrite decide_False.
    2: { intros [= ->]. apply NoDup_cons in Hnd as [Hn _]. apply Hn, elem_of_app. right. by left. }
    l_steps. eapply wp_mono; [eapply (wp_remove_loop m h [] y l1 x l2); [done..|]|].
    { unfold l_fuel. rewrite length_app in Hlen. simpl in *. lia. }
    cbv beta. intros r m' [-> ->].
    destruct (exists_last (l := y :: l1) ltac:(done)) as (l1' & w & E). rewrite E, last_snoc.
    rewrite E, <- app_assoc in Hr. simpl in Hr. eapply wp_mono; [by eapply stailq_remove_after|].
    cbv beta. intros _ m' Hr'. by rewrite <- app_assoc.
Qed.

Lemma run_st_spec o m l :
  st_rep m l → st_ok D o l → wp (run_st h o) (λ _ m', st_rep m' (spec_st o l)) m.
Proof.
  intros Hr Hok. pose proof Hr as ((_ & Hnd & _) & _). destruct o as [x|x|y x|x| |y]; simpl in *.
  - destruct Hok. by apply stailq_insert_head.
  - destruct Hok. by apply stailq_insert_tail.
  - destruct Hok as (? & ? & (l1 & l2 & ->)%list_elem_of_split).
    rewrite after_mid by done. by apply stailq_insert_after.
  - apply list_elem_of_split in Hok as (l1 & l2 & ->). rewrite without_mid by done.
    by apply stailq_remove.
  - destruct l as [|x l]; [done|]. by eapply stailq_remove_head.
  - destruct Hok as [(l1 & l2 & ->)%list_elem_of_split Hlast]. rewrite after_mid by done.
    destruct l2 as [|x l2]; [by rewrite last_snoc in Hlast|]. by eapply stailq_remove_after.
Qed.
End ops.

(** ** Two queues *)

Lemma stailq_last m h l :
  stailq m h l → wp (STAILQ_LAST h) (λ r m', m' = m ∧ r = last l) m.
Proof.
  intros (Hc%cseg_hd & _ & Hb). st_unfold. l_steps. destruct l as [|x l]; simpl; [by l_steps|].
  l_steps. destruct (exists_last (l := x :: l) ltac:(done)) as (l1 & y & E).
  rewrite E, end_of_snoc, last_snoc. by l_steps.
Qed.

(** The queue in a memory that agrees on its cells. *)
Lemma stailq_frame m m' h l :
  stailq m h l → l_ptr m' !! QHead h = l_ptr m !! QHead h →
  l_back m' !! QHead h = l_back m !! QHead h →
  (∀ x, x ∈ l → l_ptr m' !! QElm x = l_ptr m !! QElm x) → stailq m' h l.
Proof.
  intros (Hc & Hnd & Hb) Ep Eb He. split_and!; [|done|by rewrite Eb].
  eapply cseg_start; [done| |done]. rewrite Ep. by apply cseg_hd.
Qed.

Lemma stailq_concat m h1 h2 l1 l2 :
  h1 ≠ h2 → stailq m h1 l1 → stailq m h2 l2 → disj l1 l2 →
  wp (STAILQ_CONCAT h1 h2) (λ _ m', stailq m' h1 (l1 ++ l2) ∧ stailq m' h2 []) m.
Proof.
  intros Hh Hq1 (Hc2 & Hn2 & Hb2) Hd. pose proof Hq1 as (Hc1 & Hn1 & Hb1).
  pose proof (cseg_hd _ _ _ _ Hc2) as Hf2. pose proof (cseg_end _ _ _ _ Hc1) as He1. st_unfold. l_steps.
  destruct l2 as [|x l2].
  { rewrite app_nil_r. rewrite bool_decide_true by done. l_steps. split; [done|by split_and!]. }
  rewrite bool_decide_false by done. simpl in Hf2.
  assert (end_of (QHead h1) l1 ≠ QHead h2) as Hne.
  { destruct l1 as [|y l1 _] using rev_ind; [by intros [=]|by rewrite end_of_snoc]. }
  l_steps. split.
  - split_and!; simpl.
    + apply cseg_app. split.
      * eapply cseg_start; [eapply (cseg_redirect _ _ _ NULL (Some x)); [done|done|apply QHead_notin]|..].
        -- rewrite lookup_insert_ne by congruence.
           apply cseg_hd. eapply cseg_redirect; [done|done|apply QHead_notin].
        -- intros y Hy. by rewrite lookup_insert_ne.
      * apply (cseg_start _ _ _ _ _ _ Hc2); simpl.
        -- rewrite lookup_insert_ne by done. apply lookup_insert_eq.
        -- intros y Hy. rewrite !lookup_insert_ne; [done| |done]. apply end_of_head.
           intros Hy1. by apply (Hd y).
    + apply NoDup_app. split_and!; [done|apply Hd|done].
    + rewrite lookup_insert_ne by congruence. rewrite lookup_insert_eq, end_of_app. done.
  - split_and!; simpl; [apply lookup_insert_eq|constructor|apply lookup_insert_eq].
Qed.

Lemma stailq_swap m h1 h2 l1 l2 :
  h1 ≠ h2 → stailq m h1 l1 → stailq m h2 l2 →
  wp (STAILQ_SWAP h1 h2) (λ _ m', stailq m' h1 l2 ∧ stailq m' h2 l1) m.
Proof.
  intros Hh (Hc1 & Hn1 & Hb1) (Hc2 & Hn2 & Hb2).
  pose proof (cseg_hd _ _ _ _ Hc1) as Hf1. pose proof (cseg_hd _ _ _ _ Hc2) as Hf2.
  assert (∀ m' h h' l, l_ptr m' !! QHead h = Some (hd l NULL) →
    cseg (l_ptr m) (QHead h') l NULL → NoDup l → (∀ x, l_ptr m' !! QElm x = l_ptr m !! QElm x) →
    l_back m' !! QHead h = Some (Some (match l with [] => QHead h | _ => end_of (QHead h') l end)) →
    stailq m' h l) as Hmk.
  { intros m' h h' l Hp Hc Hn He Hb. split_and!; [by eapply cseg_start|done|]. by destruct l. }
  st_unfold. l_steps. destruct l2 as [|x2 l2]; simpl hd; [rewrite bool_decide_true by done|rewrite bool_decide_false by done];
    l_steps; (destruct l1 as [|x1 l1]; simpl hd; [rewrite bool_decide_true by done|rewrite bool_decide_false by done]);
    l_steps; (split; [eapply (Hmk _ _ h2)|eapply (Hmk _ _ h1)]); try done; simpl; try l_lookup;
    intros x; by rewrite !lookup_insert_ne.
Qed.

(** ** Properties *)

(** Any sequence of insertions and removals of the STAILQ macros, each allowed when its
    turn comes, runs without error, leaves the queue, the pointer to its last link included,
    as the same sequence leaves a list, and changes nothing else. *)
Theorem stailq_refines_list h D F l os :
  (∀ x, x ∈ D → is_Some (l_ptr F !! QElm x)) → stailq F h l → (∀ x, x ∈ l → x ∈ D) →
  all_ok spec_st (st_ok D) os l →
  wp (run_all (run_st h) os) (λ _ m, stailq m h (spec_all spec_st os l) ∧ within h D F m) F.
Proof.
  intros HD Hs Hl Hok. eapply wp_mono.
  - apply (run_all_spec (run_st h) spec_st (st_ok D) (st_rep h D F)); [|by split_and!|exact Hok].
    intros. by eapply run_st_spec.
  - by intros _ m (? & _ & ?).
Qed.

(** [STAILQ_CONCAT] appends the second queue to the first and empties the second,
    [STAILQ_SWAP] exchanges two queues, empty ones included, and [STAILQ_LAST], which goes
    back from the last link to the element around it, returns the last element. *)
Theorem stailq_two_queues m h1 h2 l1 l2 :
  h1 ≠ h2 → stailq m h1 l1 → stailq m h2 l2 → disj l1 l2 →
  wp (STAILQ_CONCAT h1 h2) (λ _ m', stailq m' h1 (l1 ++ l2) ∧ stailq m' h2 []) m ∧
  wp (STAILQ_SWAP h1 h2) (λ _ m', stailq m' h1 l2 ∧ stailq m' h2 l1) m ∧
  wp (STAILQ_LAST h1) (λ r m', m' = m ∧ r = last l1) m.
Proof. intros. split_and!; [by apply stailq_concat|by apply stailq_swap|by apply stailq_last]. Qed.

(** ** Examples *)

(** The queues 1, 2, 3 and [], and a free element 4. *)
Definition example_stailq : links := Links (list_to_map [
  (QHead 9, Some 1); (QElm 1, Some 2); (QElm 2, Some 3); (QElm 3, NULL); (QElm 4, NULL);
  (QHead 8, NULL)]%positive)
  (list_to_map [(QHead 9, Some (QElm 3)); (QHead 8, Some (QHead 8))]%positive).

Lemma example_stailq_ok : stailq example_stailq 9%positive [1; 2; 3]%positive.
Proof. split_and!; [by repeat split|apply one_two_three_nodup|done]. Qed.

Lemma stailq_refines_list_witness :
  wp (run_all (run_st 9) [STRemove 3; STInsertTail 4; STRemoveHead; STInsertAfter 4 3])%positive
    (λ _ m, stailq m 9%positive [2; 4; 3]%positive ∧ within 9 one_to_four example_stailq m)%positive
    example_stailq.
Proof.
  apply (stailq_refines_list 9%positive one_to_four example_stailq [1; 2; 3]%positive
    [STRemove 3; STInsertTail 4; STRemoveHead; STInsertAfter 4 3]%positive).
  - by apply one_to_four_alloc.
  - apply example_stailq_ok.
  - intros x. rewrite elem_one_to_four. set_solver.
  - simpl. rewrite !elem_one_to_four. split_and!; set_solver.
Defined.

Lemma stailq_two_queues_witness :
  wp (STAILQ_SWAP 9 8) (λ _ m', stailq m' 9 [] ∧ stailq m' 8 [1; 2; 3])%positive example_stailq.
Proof.
  apply (stailq_two_queues example_stailq 9%positive 8%positive [1; 2; 3]%positive []).
  - done.
  - apply example_stailq_ok.
  - split_and!; [done|constructor|done].
  - intros x _. apply not_elem_of_nil.
Defined.
