(* ===== verification/DList.v ===== *)
(** The lists of src/core/nty_queue.h (LIST_HEAD ... LIST_SWAP), and what is proved of them.
    The checks QMD_LIST_CHECK_, empty outside a kernel, are in QueueSafe.v. *)

From S2P Require Export Links.

(** ** Operations *)

Definition LIST_FIRST (h : addr) : L ptr := pload (Some (QHead h)).
Definition LIST_NEXT (x : ptr) : L ptr := link_next x.
Definition le_prev (x : ptr) : L (option qaddr) := bload (elm_ x).
Definition set_le_prev (x : ptr) (a : option qaddr) : L unit := bstore (elm_ x) a.

Definition LIST_EMPTY (h : addr) : L bool := f ← LIST_FIRST h; mret (bool_decide (f = NULL)).
Definition LIST_INIT (h : addr) : L unit := pstore (Some (QHead h)) NULL.

Definition LIST_INSERT_AFTER (listelm elm : ptr) : L unit :=
  n ← LIST_NEXT listelm; pstore (elm_ elm) n;;
  (if decide (n = NULL) then mret tt
   else n ← LIST_NEXT listelm; set_le_prev n (elm_ elm));;
  pstore (elm_ listelm) elm;;
  set_le_prev elm (elm_ listelm).

Definition LIST_INSERT_BEFORE (listelm elm : ptr) : L unit :=
  (p ← le_prev listelm; set_le_prev elm p);;
  pstore (elm_ elm) listelm;;
  (p ← le_prev listelm; pstore p elm);;
  set_le_prev listelm (elm_ elm).

Definition LIST_INSERT_HEAD (h : addr) (elm : ptr) : L unit :=
  f ← LIST_FIRST h; pstore (elm_ elm) f;;
  (if decide (f = NULL) then mret tt
   else f ← LIST_FIRST h; set_le_prev f (elm_ elm));;
  pstore (Some (QHead h)) elm;;
  set_le_prev elm (Some (QHead h)).

Definition LIST_REMOVE (elm : ptr) : L unit :=
  n ← LIST_NEXT elm;
  (if decide (n = NULL) then mret tt
   else n ← LIST_NEXT elm; p ← le_prev elm; set_le_prev n p);;
  p ← le_prev elm; n ← LIST_NEXT elm; pstore p n.

Definition LIST_SWAP (h1 h2 : addr) : L unit :=
  swap_tmp ← LIST_FIRST h1;
  (f ← LIST_FIRST h2; pstore (Some (QHead h1)) f);;
  pstore (Some (QHead h2)) swap_tmp;;
  swap_tmp ← LIST_FIRST h1;
  (if decide (swap_tmp = NULL) then mret tt else set_le_prev swap_tmp (Some (QHead h1)));;
  swap_tmp ← LIST_FIRST h2;
  (if decide (swap_tmp = NULL) then mret tt else set_le_prev swap_tmp (Some (QHead h2))).

Definition LIST_FOREACH (h : addr) (body : addr → L unit) : L (list addr) :=
  fuel ← gets l_fuel; var ← LIST_FIRST h; foreach_loop body fuel var.
Definition LIST_FOREACH_SAFE (h : addr) (body : addr → L unit) : L (list addr) :=
  fuel ← gets l_fuel; var ← LIST_FIRST h; foreach_safe_loop body fuel var.

(** ** Specifications *)

(** Each entry of [l] points back to the pointer to it; the first is at [a]. *)
Fixpoint bseg (b : gmap qaddr (option qaddr)) (a : qaddr) (l : list addr) : Prop :=
  match l with [] => True | x :: l => b !! QElm x = Some (Some a) ∧ bseg b (QElm x) l end.

Definition dlist (m : links) (h : addr) (l : list addr) : Prop :=
  cseg (l_ptr m) (QHead h) l NULL ∧ NoDup l ∧ bseg (l_back m) (QHead h) l.

(** The back pointer of the first of [l2]. *)
Definition set_back (l2 : list addr) (a : qaddr) (b : gmap qaddr (option qaddr)) :=
  match l2 with [] => b | y :: _ => <[QElm y := Some a]> b end.

Lemma bseg_app b a l1 l2 : bseg b a (l1 ++ l2) ↔ bseg b a l1 ∧ bseg b (end_of a l1) l2.
Proof. revert a; induction l1 as [|x l1 IH]; intros a; simpl; [naive_solver|rewrite IH; naive_solver]. Qed.

Lemma bseg_frame b b' a l : bseg b a l → (∀ x, x ∈ l → b' !! QElm x = b !! QElm x) → bseg b' a l.
Proof.
  revert a; induction l as [|x l IH]; intros a; [done|]. intros [Hx Hl] He.
  split; [by rewrite He by set_solver|]. apply IH; set_solver.
Qed.

(** The same entries after another pointer. *)
Lemma bseg_start b a a' l : bseg b a l → NoDup l → bseg (set_back l a' b) a' l.
Proof.
  destruct l as [|x l]; [done|]. intros [_ Hl] [Hx Hn]%NoDup_cons. simpl. split; [apply lookup_insert_eq|].
  eapply bseg_frame; [done|]. intros y Hy. apply lookup_insert_ne. congruence.
Qed.

Lemma set_back_ne l2 a b x : x ∉ l2 → set_back l2 a b !! QElm x = b !! QElm x.
Proof. destruct l2; [done|]. simpl. intros Hx. rewrite lookup_insert_ne; [done|]. set_solver. Qed.

Lemma bseg_remove b h l1 x l2 :
  bseg b (QHead h) (l1 ++ x :: l2) → NoDup (l1 ++ x :: l2) →
  bseg (set_back l2 (end_of (QHead h) l1) b) (QHead h) (l1 ++ l2).
Proof.
  intros [H1 [_ H2]]%bseg_app (_ & Hd & [_ Hn2]%NoDup_cons)%NoDup_app. apply bseg_app. split.
  - eapply bseg_frame; [done|]. intros y Hy. apply set_back_ne. set_solver.
  - by eapply bseg_start.
Qed.

Lemma bseg_insert b h l1 x l2 :
  bseg b (QHead h) (l1 ++ l2) → NoDup (l1 ++ l2) → x ∉ l1 ++ l2 →
  bseg (<[QElm x := Some (end_of (QHead h) l1)]> (set_back l2 (QElm x) b)) (QHead h) (l1 ++ x :: l2).
Proof.
  intros [H1 H2]%bseg_app (_ & Hd & Hn2)%NoDup_app [Hx1 Hx2]%notin_app. apply bseg_app. split.
  - eapply bseg_frame; [done|]. intros y Hy. rewrite lookup_insert_ne by congruence.
    apply set_back_ne. auto.
  - simpl. split; [apply lookup_insert_eq|].
    eapply bseg_frame; [by eapply bseg_start|]. intros y Hy. apply lookup_insert_ne. congruence.
Qed.

Lemma bseg_elem b a l1 x l2 : bseg b a (l1 ++ x :: l2) → b !! QElm x = Some (Some (end_of a l1)).
Proof. by intros [_ [? _]]%bseg_app. Qed.

Inductive dl_op : Type :=
  | DLInsertHead (x : addr)
  | DLInsertAfter (y x : addr)
  | DLInsertBefore (y x : addr)
  | DLRemove (x : addr).

Definition run_dl (h : addr) (o : dl_op) : L unit :=
  match o with
  | DLInsertHead x => LIST_INSERT_HEAD h (Some x)
  | DLInsertAfter y x => LIST_INSERT_AFTER (Some y) (Some x)
  | DLInsertBefore y x => LIST_INSERT_BEFORE (Some y) (Some x)
  | DLRemove x => LIST_REMOVE (Some x)
  end.

(** What is done at the element [y]. *)
Definition before (y : addr) (f : list addr → list addr) : list addr → list addr :=
  fix go l := match l with [] => [] | x :: l => if decide (x = y) then f (x :: l) else x :: go l end.

Lemma before_mid y f l1 l2 : NoDup (l1 ++ y :: l2) → before y f (l1 ++ y :: l2) = l1 ++ f (y :: l2).
Proof.
  induction l1 as [|x l1 IH]; simpl; [by rewrite decide_True|].
  rewrite NoDup_cons. intros [Hx Hnd]. rewrite decide_False by set_solver. by rewrite IH.
Qed.

Definition spec_dl (o : dl_op) (l : list addr) : list addr :=
  match o with
  | DLInsertHead x => x :: l
  | DLInsertAfter y x => after y (cons x) l
  | DLInsertBefore y x => before y (cons x) l
  | DLRemove x => without x l
  end.

Definition dl_ok (D : gset addr) (o : dl_op) (l : list addr) : Prop :=
  match o with
  | DLInsertHead x => x ∈ D ∧ x ∉ l
  | DLInsertAfter y x | DLInsertBefore y x => x ∈ D ∧ (x ∉ l) ∧ y ∈ l
  | DLRemove x => x ∈ l
  end.

Ltac dl_unfold :=
  unfold LIST_INSERT_HEAD, LIST_INSERT_AFTER, LIST_INSERT_BEFORE, LIST_REMOVE, LIST_SWAP,
    LIST_FIRST, LIST_NEXT, link_next, le_prev, set_le_prev.

(** The entry of the removed element keeps its pointers. *)
Lemma dlist_remove_entry m h l1 x l2 :
  dlist m h (l1 ++ x :: l2) → wp (LIST_REMOVE (Some x)) (λ _ m', m' =
    Links (<[end_of (QHead h) l1 := hd l2 NULL]> (l_ptr m))
      (set_back l2 (end_of (QHead h) l1) (l_back m))) m.
Proof.
  intros (Hc & Hnd & Hb). apply cseg_elem in Hc as [He Hx]. apply bseg_elem in Hb as Hbx.
  dl_unfold. destruct l2 as [|z l2]; simpl in Hx; [by l_steps|].
  apply bseg_app in Hb as [_ [_ [Hz _]]].
  assert (x ≠ z). { apply NoDup_app in Hnd as (_ & _ & Hnd). rewrite NoDup_cons in Hnd. set_solver. }
  by l_steps.
Qed.

Section ops.
Variable (h : addr) (D : gset addr) (F : links).
Hypothesis HD : ∀ x, x ∈ D → is_Some (l_ptr F !! QElm x) ∧ is_Some (l_back F !! QElm x).

Definition dl_rep (m : links) (l : list addr) : Prop :=
  dlist m h l ∧ (∀ x, x ∈ l → x ∈ D) ∧ within h D F m.

Lemma within_set_back p b l2 a :
  within h D F (Links p b) → (∀ x, x ∈ l2 → x ∈ D) → within h D F (Links p (set_back l2 a b)).
Proof.
  intros Hw Hl. destruct l2 as [|y l2]; [done|]. simpl.
  apply within_bstore; [done|by apply Hl; left|]. eapply (within_back h D F (Links p b)); [done|].
  apply HD, Hl. by left.
Qed.

Lemma dl_insert m l1 x l2 b :
  dl_rep m (l1 ++ l2) → x ∈ D → x ∉ l1 ++ l2 →
  b = <[QElm x := Some (end_of (QHead h) l1)]> (set_back l2 (QElm x) (l_back m)) →
  dl_rep (Links (<[end_of (QHead h) l1 := Some x]> (<[QElm x := hd l2 NULL]> (l_ptr m))) b)
    (l1 ++ x :: l2).
Proof.
  intros ((Hc & Hnd & Hb) & Hl & Hw) Hx Hn ->. split_and!.
  - split_and!; [by apply cseg_insert|by apply NoDup_mid_insert|by apply bseg_insert].
  - set_solver.
  - assert (within h D F (Links (l_ptr m) (set_back l2 (QElm x) (l_back m)))) as Hw'.
    { apply within_set_back; [by destruct m|set_solver]. }
    apply within_bstore; [|done|eapply (within_back h D F (Links _ _)); [exact Hw'|by apply HD]].
    apply within_pstore; [apply within_pstore; [done..|]| |].
    + eapply within_ptr; [done|by apply HD].
    + apply mine_end. set_solver.
    + apply insert_keeps. apply cseg_app in Hc as [Hc _]. eexists. by eapply cseg_end.
Qed.

Lemma dl_remove m l1 x l2 :
  dl_rep m (l1 ++ x :: l2) →
  dl_rep (Links (<[end_of (QHead h) l1 := hd l2 NULL]> (l_ptr m))
    (set_back l2 (end_of (QHead h) l1) (l_back m))) (l1 ++ l2).
Proof.
  intros ((Hc & Hnd & Hb) & Hl & Hw). split_and!.
  - split_and!; [by eapply cseg_remove|by eapply NoDup_mid_remove|by eapply bseg_remove].
  - set_solver.
  - apply within_pstore; [apply within_set_back; [by destruct m|set_solver]|apply mine_end; set_solver|].
    eexists. by apply cseg_elem in Hc as [Hc _].
Qed.

(** The entries of the elements of [D] are there. *)
Lemma dl_alloc m l x : dl_rep m l → x ∈ D → is_Some (l_ptr m !! QElm x) ∧ is_Some (l_back m !! QElm x).
Proof.
  intros (_ & _ & Hw) [Hp Hb]%HD. split; [by eapply within_ptr|by eapply within_back].
Qed.

Lemma dlist_insert_head m l x :
  dl_rep m l → x ∈ D → x ∉ l → wp (LIST_INSERT_HEAD h (Some x)) (λ _ m', dl_rep m' (x :: l)) m.
Proof.
  intros Hr Hx Hn. pose proof Hr as ((Hc & _ & Hb) & _). destruct (dl_alloc m l x Hr Hx).
  pose proof (dl_insert m [] x l _ Hr Hx Hn eq_refl) as Hi. apply cseg_hd in Hc.
  dl_unfold. destruct l as [|y l]; simpl in Hc; [|destruct Hb as [Hb _]]; by l_steps.
Qed.

Lemma dlist_insert_after m l1 y l2 x :
  dl_rep m (l1 ++ y :: l2) → x ∈ D → x ∉ l1 ++ y :: l2 →
  wp (LIST_INSERT_AFTER (Some y) (Some x)) (λ _ m', dl_rep m' (l1 ++ y :: x :: l2)) m.
Proof.
  intros Hr Hx Hn. pose proof Hr as ((Hc & _ & Hb) & _). destruct (dl_alloc m _ x Hr Hx).
  pose proof (dl_insert m (l1 ++ [y]) x l2) as Hi. rewrite <- !app_assoc, end_of_snoc in Hi.
  specialize (Hi _ Hr Hx Hn eq_refl). apply cseg_elem in Hc as [_ Hc].
  assert (y ≠ x) by set_solver.
  dl_unfold. destruct l2 as [|z l2]; simpl in Hc; [|apply bseg_app in Hb as [_ [_ [Hb _]]]]; by l_steps.
Qed.

Lemma dlist_insert_before m l1 y l2 x :
  dl_rep m (l1 ++ y :: l2) → x ∈ D → x ∉ l1 ++ y :: l2 →
  wp (LIST_INSERT_BEFORE (Some y) (Some x)) (λ _ m', dl_rep m' (l1 ++ x :: y :: l2)) m.
Proof.
  intros Hr Hx Hn. pose proof Hr as ((Hc & _ & Hb) & _). destruct (dl_alloc m _ x Hr Hx).
  apply bseg_elem in Hb. apply cseg_elem in Hc as [He _].
  assert (y ≠ x) by set_solver.
  pose proof (dl_insert m l1 x (y :: l2) (<[QElm y := Some (QElm x)]> (<[QElm x := Some (end_of (QHead h) l1)]> (l_back m)))
    Hr Hx Hn) as Hi.
  dl_unfold. l_steps. apply Hi. simpl. apply insert_insert_ne. congruence.
Qed.

Lemma dlist_remove m l1 x l2 :
  dl_rep m (l1 ++ x :: l2) → wp (LIST_REMOVE (Some x)) (λ _ m', dl_rep m' (l1 ++ l2)) m.
Proof.
  intros Hr. eapply wp_mono; [apply dlist_remove_entry, Hr|]. cbv beta. intros _ m' ->.
  exact (dl_remove m l1 x l2 Hr).
Qed.

Lemma run_dl_spec o m l :
  dl_rep m l → dl_ok D o l → wp (run_dl h o) (λ _ m', dl_rep m' (spec_dl o l)) m.
Proof.
  intros Hr Hok. pose proof Hr as ((_ & Hnd & _) & _). destruct o as [x|y x|y x|x]; simpl in *.
  - destruct Hok. by apply dlist_insert_head.
  - destruct Hok as (? & ? & (l1 & l2 & ->)%list_elem_of_split).
    rewrite after_mid by done. by apply dlist_insert_after.
  - destruct Hok as (? & ? & (l1 & l2 & ->)%list_elem_of_split).
    rewrite before_mid by done. by apply dlist_insert_before.
  - apply list_elem_of_split in Hok as (l1 & l2 & ->). rewrite without_mid by done.
    by apply dlist_remove.
Qed.
End ops.

Lemma dlist_swap m h1 h2 l1 l2 :
  h1 ≠ h2 → dlist m h1 l1 → dlist m h2 l2 → disj l1 l2 →
  wp (LIST_SWAP h1 h2) (λ _ m', dlist m' h1 l2 ∧ dlist m' h2 l1) m.
Proof.
  intros Hh (Hc1 & Hn1 & Hb1) (Hc2 & Hn2 & Hb2) Hd.
  pose proof (cseg_hd _ _ _ _ Hc1) as Hf1. pose proof (cseg_hd _ _ _ _ Hc2) as Hf2.
  assert (wp (LIST_SWAP h1 h2) (λ _ m',
    m' = Links (<[QHead h2 := hd l1 NULL]> (<[QHead h1 := hd l2 NULL]> (l_ptr m)))
      (set_back l1 (QHead h2) (set_back l2 (QHead h1) (l_back m)))) m) as Hwp.
  { dl_unfold. destruct l1 as [|x1 l1], l2 as [|x2 l2]; simpl in Hf1, Hf2 |- *;
      try destruct Hb1 as [Hb1 _]; try destruct Hb2 as [Hb2 _]; by l_steps. }
  eapply wp_mono; [exact Hwp|]. cbv beta. intros _ m' ->.
  assert (∀ p' b' h h' l, cseg (l_ptr m) (QHead h') l NULL → NoDup l → bseg (l_back m) (QHead h') l →
    p' !! QHead h = Some (hd l NULL) → (∀ x, x ∈ l → p' !! QElm x = l_ptr m !! QElm x) →
    (∀ x, x ∈ l → b' !! QElm x = set_back l (QHead h) (l_back m) !! QElm x) →
    dlist (Links p' b') h l) as Hmk.
  { intros p' b' h h' l Hc Hn Hb Hh' Hp He. split_and!; simpl; [by eapply cseg_start|done|].
    eapply bseg_frame; [by eapply bseg_start|done]. }
  split; (eapply Hmk; [eassumption|eassumption|eassumption|..]).
  - l_lookup.
  - intros x Hx. by rewrite !lookup_insert_ne.
  - intros x Hx. rewrite set_back_ne; [done|]. intros Hx1. by apply (Hd x).
  - l_lookup.
  - intros x Hx. by rewrite !lookup_insert_ne.
  - intros x Hx. destruct l1 as [|y l1]; [by apply elem_of_nil in Hx|]. simpl.
    destruct (decide (y = x)) as [->|Hy]; [by rewrite !lookup_insert_eq|].
    rewrite !lookup_insert_ne by congruence. apply set_back_ne. by apply Hd.
Qed.

(** ** Properties *)

(** Any sequence of insertions and removals of the LIST macros, each allowed when its turn
    comes, runs without error, leaves the list, the back pointers included, as the same
    sequence leaves a Rocq list, and changes nothing else. *)
Theorem list_refines_list h D F l os :
  (∀ x, x ∈ D → is_Some (l_ptr F !! QElm x) ∧ is_Some (l_back F !! QElm x)) →
  dlist F h l → (∀ x, x ∈ l → x ∈ D) → all_ok spec_dl (dl_ok D) os l →
  wp (run_all (run_dl h) os) (λ _ m, dlist m h (spec_all spec_dl os l) ∧ within h D F m) F.
Proof.
  intros HD Hs Hl Hok. eapply wp_mono.
  - apply (run_all_spec (run_dl h) spec_dl (dl_ok D) (dl_rep h D F)); [|by split_and!|exact Hok].
    intros. by eapply run_dl_spec.
  - by intros _ m (? & _ & ?).
Qed.

(** [LIST_SWAP] exchanges two lists, empty ones included, and [LIST_FOREACH_SAFE] runs its
    body on every element in order even when the body frees or rewrites the entry of the
    element it is given. *)
Theorem list_swap_foreach m h1 h2 l1 l2 :
  h1 ≠ h2 → dlist m h1 l1 → dlist m h2 l2 → disj l1 l2 →
  wp (LIST_SWAP h1 h2) (λ _ m', dlist m' h1 l2 ∧ dlist m' h2 l1) m ∧
  (∀ body, minds_own l1 body → wp (LIST_FOREACH_SAFE h1 body) (λ r _, r = l1) m).
Proof.
  intros Hh Hl1 Hl2 Hd. split; [by apply dlist_swap|]. destruct Hl1 as (Hc & Hn & _). intros body Hb.
  pose proof (cseg_length _ _ _ _ Hc Hn). pose proof (cseg_hd _ _ _ _ Hc).
  unfold LIST_FOREACH_SAFE, LIST_FIRST. l_steps.
  apply wp_foreach_safe_loop; [by eapply cseg_linked|done..].
Qed.

(** ** Examples *)

(** The lists 1, 2, 3 and [], and a free element 4. *)
Definition example_dlist : links := Links (list_to_map [
  (QHead 9, Some 1); (QElm 1, Some 2); (QElm 2, Some 3); (QElm 3, NULL); (QElm 4, NULL);
  (QHead 8, NULL)]%positive)
  (list_to_map [(QElm 1, Some (QHead 9)); (QElm 2, Some (QElm 1)); (QElm 3, Some (QElm 2));
    (QElm 4, None)]%positive).

Lemma example_dlist_ok : dlist example_dlist 9%positive [1; 2; 3]%positive.
Proof. split_and!; [by repeat split|apply one_two_three_nodup|by repeat split]. Qed.

Lemma list_refines_list_witness :
  wp (run_all (run_dl 9) [DLRemove 2; DLInsertBefore 3 4; DLInsertAfter 3 2; DLRemove 1])%positive
    (λ _ m, dlist m 9%positive [4; 3; 2]%positive ∧ within 9 one_to_four example_dlist m)%positive
    example_dlist.
Proof.
  apply (list_refines_list 9%positive one_to_four example_dlist [1; 2; 3]%positive
    [DLRemove 2; DLInsertBefore 3 4; DLInsertAfter 3 2; DLRemove 1]%positive).
  - intros x Hx. split; by apply one_to_four_alloc.
  - apply example_dlist_ok.
  - intros x. rewrite elem_one_to_four. set_solver.
  - simpl. rewrite !elem_one_to_four. split_and!; set_solver.
Defined.

Lemma list_swap_foreach_witness :
  wp (LIST_SWAP 9 8) (λ _ m', dlist m' 9 [] ∧ dlist m' 8 [1; 2; 3])%positive example_dlist.
Proof.
  apply (list_swap_foreach example_dlist 9%positive 8%positive [1; 2; 3]%positive []).
  - done.
  - apply example_dlist_ok.
  - split_and!; [done|constructor|done].
  - intros x _. apply not_elem_of_nil.
Defined.
