(* ===== verification/QueueSafe.v ===== *)
(** The parts of src/core/nty_queue.h that guard a traversal or a link: the traversals of
    the tail queues that allow the element to be unlinked (TAILQ_FOREACH_SAFE,
    TAILQ_FOREACH_REVERSE_SAFE), and the checks QMD_TAILQ_CHECK_ and QMD_LIST_CHECK_, which
    a build with INVARIANTS runs at the start of the operations.

    With the checks the operations do on well-formed queues and lists what they do without,
    and an element that is removed a second time is found out. *)

From S2P Require Export SafeLoop QueueProps DList.

(** ** Safe traversals of a tail queue *)

Definition TAILQ_FOREACH_SAFE (h : addr) (body : addr → Q unit) : Q (list addr) :=
  fuel ← gets q_fuel; var ← TAILQ_FIRST h; safe_loop TAILQ_NEXT body fuel var.
Definition TAILQ_FOREACH_REVERSE_SAFE (h : addr) (body : addr → Q unit) : Q (list addr) :=
  fuel ← gets q_fuel; var ← TAILQ_LAST h; safe_loop TAILQ_PREV body fuel var.

(** ** The checks of a tail queue; [panic] ends the process *)

Definition QMD_TAILQ_CHECK_HEAD (h : addr) : Q unit :=
  empty ← TAILQ_EMPTY h;
  if (empty : bool) then mret tt else
  f ← TAILQ_FIRST h; p ← get_prev (elm_ f);
  if decide (p = Some (QHead h)) then mret tt else throw AssertFail.

Definition QMD_TAILQ_CHECK_TAIL (h : addr) : Q unit :=
  l ← get_prev (Some (QHead h)); n ← get_next l;
  if decide (n = NULL) then mret tt else throw AssertFail.

Definition QMD_TAILQ_CHECK_NEXT (elm : ptr) : Q unit :=
  n ← TAILQ_NEXT elm;
  if decide (n = NULL) then mret tt else
  n ← TAILQ_NEXT elm; p ← get_prev (elm_ n);
  if decide (p = elm_ elm) then mret tt else throw AssertFail.

Definition QMD_TAILQ_CHECK_PREV (elm : ptr) : Q unit :=
  p ← get_prev (elm_ elm); n ← get_next p;
  if decide (n = elm) then mret tt else throw AssertFail.

(** The operations of a build with INVARIANTS. *)
Definition checked_qop (h : addr) (o : qop) : Q unit :=
  match o with
  | QInsertHead x => QMD_TAILQ_CHECK_HEAD h;; run_qop h o
  | QInsertTail x => QMD_TAILQ_CHECK_TAIL h;; run_qop h o
  | QInsertAfter y x => QMD_TAILQ_CHECK_NEXT (Some y);; run_qop h o
  | QInsertBefore y x => QMD_TAILQ_CHECK_PREV (Some y);; run_qop h o
  | QRemove x => QMD_TAILQ_CHECK_NEXT (Some x);; QMD_TAILQ_CHECK_PREV (Some x);; run_qop h o
  end.

Fixpoint checked_qops (h : addr) (os : list qop) : Q unit :=
  match os with [] => mret tt | o :: os => checked_qop h o;; checked_qops h os end.

(** ** The checks of a list *)

Definition QMD_LIST_CHECK_HEAD (h : addr) : L unit :=
  f ← LIST_FIRST h;
  if decide (f = NULL) then mret tt else
  f ← LIST_FIRST h; p ← le_prev f;
  if decide (p = Some (QHead h)) then mret tt else throw AssertFail.

Definition QMD_LIST_CHECK_NEXT (elm : ptr) : L unit :=
  n ← LIST_NEXT elm;
  if decide (n = NULL) then mret tt else
  n ← LIST_NEXT elm; p ← le_prev n;
  if decide (p = elm_ elm) then mret tt else throw AssertFail.

Definition QMD_LIST_CHECK_PREV (elm : ptr) : L unit :=
  p ← le_prev elm; n ← pload p;
  if decide (n = elm) then mret tt else throw AssertFail.

Definition checked_dl (h : addr) (o : dl_op) : L unit :=
  match o with
  | DLInsertHead x => QMD_LIST_CHECK_HEAD h;; run_dl h o
  | DLInsertAfter y x => QMD_LIST_CHECK_NEXT (Some y);; run_dl h o
  | DLInsertBefore y x => QMD_LIST_CHECK_PREV (Some y);; run_dl h o
  | DLRemove x => QMD_LIST_CHECK_NEXT (Some x);; QMD_LIST_CHECK_PREV (Some x);; run_dl h o
  end.

(** ** Symbolic execution of the checks *)

Lemma wp_check {S} (b : Prop) `{Decision b} (Q : unit → S → Prop) s :
  b → Q tt s → wp (if decide b then mret tt else throw AssertFail) Q s.
Proof. intros Hb HQ. by rewrite decide_True. Qed.

(** A check that passes leaves the operation after it as it is. *)
Lemma after_check {S} (c k : ST S unit) s : wp c (λ _ s', s' = s) s → (c;; k) s = k s.
Proof. intros (a & s' & Hc & ->)%wp_ok. by rewrite (bind_ok _ _ _ _ _ Hc). Qed.

Lemma NoDup_mid_notin (l1 l2 : list addr) x : NoDup (l1 ++ x :: l2) → x ∉ l1 ++ l2.
Proof. rewrite NoDup_app, NoDup_cons. set_solver. Qed.

Lemma end_of_notin h l1 x l2 : x ∉ l1 ++ l2 → end_of (QHead h) l1 ≠ QElm x.
Proof.
  destruct l1 as [|y l1 _] using rev_ind; [done|]. rewrite end_of_snoc. intros Hn [= ->]. set_solver.
Qed.

Section tailq.
Variables (F m : qmem) (h : addr).

Lemma tailq_check_head l : queue F m h l → wp (QMD_TAILQ_CHECK_HEAD h) (λ _ m', m' = m) m.
Proof.
  intros Hq. pose proof Hq as (Hh & Hs & _). unfold QMD_TAILQ_CHECK_HEAD, TAILQ_EMPTY.
  destruct l as [|x l]; cbn [hd qseg] in *.
  - q_steps. by rewrite bool_decide_true.
  - destruct Hs as [Hx _]. q_steps. rewrite bool_decide_false by done. q_steps. by apply wp_check.
Qed.

Lemma tailq_check_tail l : queue F m h l → wp (QMD_TAILQ_CHECK_TAIL h) (λ _ m', m' = m) m.
Proof.
  intros Hq. pose proof Hq as (Hh & _). rewrite <- (app_nil_r l) in Hq.
  destruct (queue_end _ _ _ _ _ Hq) as [p Hp]. unfold QMD_TAILQ_CHECK_TAIL. q_steps. by apply wp_check.
Qed.

Lemma tailq_check_next l1 x l2 :
  queue F m h (l1 ++ x :: l2) → wp (QMD_TAILQ_CHECK_NEXT (Some x)) (λ _ m', m' = m) m.
Proof.
  intros Hq. pose proof Hq as (_ & Hs & _). apply qseg_app in Hs as (_ & Hx & Hs).
  unfold QMD_TAILQ_CHECK_NEXT. destruct l2 as [|y l2]; cbn [hd qseg] in *.
  - q_steps. rewrite decide_True by done. by q_steps.
  - destruct Hs as [Hy _]. q_steps. rewrite decide_False by done. q_steps. by apply wp_check.
Qed.

Lemma tailq_check_prev l1 x l2 :
  queue F m h (l1 ++ x :: l2) → wp (QMD_TAILQ_CHECK_PREV (Some x)) (λ _ m', m' = m) m.
Proof.
  intros Hq. apply queue_lookup in Hq as Hx. destruct (queue_end _ _ _ _ _ Hq) as [p Hp].
  unfold QMD_TAILQ_CHECK_PREV. q_steps. by apply wp_check.
Qed.

Lemma checked_qop_same l o : queue F m h l → qop_ok F l o → checked_qop h o m = run_qop h o m.
Proof.
  intros Hq Hok. destruct o as [x|x|y x|y x|x]; simpl in Hok; cbn [checked_qop].
  - eapply after_check, tailq_check_head, Hq.
  - eapply after_check, tailq_check_tail, Hq.
  - destruct Hok as (_ & _ & (l1 & l2 & ->)%list_elem_of_split). eapply after_check, tailq_check_next, Hq.
  - destruct Hok as (_ & _ & (l1 & l2 & ->)%list_elem_of_split). eapply after_check, tailq_check_prev, Hq.
  - apply list_elem_of_split in Hok as (l1 & l2 & ->).
    rewrite after_check by eapply tailq_check_next, Hq. eapply after_check, tailq_check_prev, Hq.
Qed.
End tailq.

(** ** Properties *)

(** [TAILQ_FOREACH_SAFE] with a body that unlinks some of the elements it is given visits
    every element of the queue in order, [TAILQ_FOREACH_REVERSE_SAFE] in the reverse order, and
    both leave a well-formed queue of exactly the elements the body did not unlink. *)
Theorem tailq_safe_traversal F m h l keep :
  queue F m h l →
  let body x := if keep x : bool then mret tt else TAILQ_REMOVE h (Some x) in
  let left r (m' : qmem) := ∃ F', queue F' m' h (filter keep l) in
  wp (TAILQ_FOREACH_SAFE h body) (λ r m', r = l ∧ left r m') m ∧
  wp (TAILQ_FOREACH_REVERSE_SAFE h body) (λ r m', r = reverse l ∧ left r m') m.
Proof.
  intros Hq body left. pose proof (queue_fuel _ _ _ _ Hq) as Hf.
  assert (∀ m l1 x l2, (∃ F, queue F m h (l1 ++ x :: l2)) →
    wp (body x) (λ _ m', ∃ F, queue F m' h (l1 ++ kept_of keep [x] ++ l2)) m) as Hbody.
  { intros m0 l1 x l2 [F0 Hq0]. unfold body, kept_of, filter. cbn.
    destruct (keep x) eqn:Hk.
    - apply wp_ret. by exists F0.
    - eapply wp_mono; [by eapply tailq_remove|]. cbv beta. intros _ m' [c Hc].
      eexists. exact Hc. }
  split.
  - unfold TAILQ_FOREACH_SAFE. apply wp_bind, wp_gets.
    eapply wp_seq; [by eapply tailq_first|]. cbv beta. intros r m' [-> ->].
    apply (safe_loop_forward (λ m l, ∃ F, queue F m h l) keep body Hbody TAILQ_NEXT) with (l1 := []);
      [|by exists F|done].
    intros m0 l1 x l2 [F0 Hq0]. by eapply tailq_next.
  - unfold TAILQ_FOREACH_REVERSE_SAFE. apply wp_bind, wp_gets.
    eapply wp_seq; [by eapply tailq_last|]. cbv beta. intros r m' [-> ->].
    eapply wp_mono; [apply (safe_loop_backward (λ m l, ∃ F, queue F m h l) keep body Hbody TAILQ_PREV)
      with (l2 := []); [|by exists F; rewrite app_nil_r|done]|].
    + intros m0 l1 x l2 [F0 Hq0]. by eapply tailq_prev.
    + cbv beta. intros r m'. by rewrite app_nil_r.
Qed.

(** The checks of a build with INVARIANTS pass on a well-formed queue, whatever sequence of
    operations runs on it, so that the queue is what the operations without them leave. *)
Theorem tailq_checks_transparent F h os m l :
  queue F m h l → qops_ok F l os → checked_qops h os m = run_qops h os m.
Proof.
  revert F m l; induction os as [|o os IH]; intros F m l Hq Hok; [done|].
  destruct Hok as [Ho Hos]. cbn [checked_qops run_qops].
  pose proof (run_qop_spec h F m l o Hq Ho) as ([] & m1 & Hm1 & F1 & HF & Hq1)%wp_ok.
  rewrite (bind_ok _ _ _ _ _ Hm1), (bind_ok _ _ m tt m1) by (by erewrite checked_qop_same).
  eapply (IH F1); [exact Hq1|].
  by eapply qops_ok_grows.
Qed.

(** An element that is out of the queue but whose entry still leads into it fails the checks
    of [TAILQ_REMOVE]. *)
Lemma tailq_stale_entry F m h l1 x l2 :
  queue F m h (l1 ++ l2) → x ∉ l1 ++ l2 →
  m !! QElm x = Some (Cell (hd l2 NULL) (Some (end_of (QHead h) l1))) →
  checked_qop h (QRemove x) m = Err AssertFail.
Proof.
  intros Hq Hn Hx. pose proof (end_of_notin h l1 x l2 Hn) as Hne.
  apply wpe_err. cbn [checked_qop]. unfold QMD_TAILQ_CHECK_NEXT.
  destruct l2 as [|y l2]; cbn [hd] in Hx.
  - apply wpe_wp_bind. q_steps. rewrite decide_True by done. q_steps.
    destruct (queue_end _ _ _ _ _ Hq) as [p Hp]. unfold QMD_TAILQ_CHECK_PREV.
    apply wpe_bind, wpe_wp_bind. q_steps. apply wpe_wp_bind. q_steps.
    rewrite decide_False by done. by constructor.
  - apply queue_lookup in Hq as Hy. apply wpe_bind, wpe_wp_bind. q_steps. rewrite decide_False by done.
    apply wpe_wp_bind. q_steps. apply wpe_wp_bind. q_steps.
    rewrite decide_False by (cbn; congruence). by constructor.
Qed.

(** C19: a build with INVARIANTS finds out an element that is removed from a tail queue twice:
    the first removal runs, and the checks of the second, which see that the neighbours of the
    element no longer point to it, end the process. *)
Theorem tailq_double_remove_panics F m h l x :
  queue F m h l → x ∈ l →
  wp (checked_qop h (QRemove x)) (λ _ m', checked_qop h (QRemove x) m' = Err AssertFail) m.
Proof.
  intros Hq Hx. unfold wp. rewrite (checked_qop_same F m h l) by done.
  apply list_elem_of_split in Hx as (l1 & l2 & ->). cbn [run_qop].
  change (wp (TAILQ_REMOVE h (Some x)) (λ _ m', checked_qop h (QRemove x) m' = Err AssertFail) m).
  eapply wp_mono; [by eapply tailq_remove_entry|]. cbv beta. intros _ m' Hq'.
  apply queue_NoDup in Hq as Hnd.
  apply NoDup_mid_notin in Hnd as Hn.
  eapply tailq_stale_entry; [done..|].
  destruct Hq' as (_ & _ & _ & Hout). rewrite Hout by (try done; by apply notin_fmap_QElm).
  apply lookup_insert_eq.
Qed.

Section dl.
Variables (m : links) (h : addr).

Lemma dlist_check_head l : dlist m h l → wp (QMD_LIST_CHECK_HEAD h) (λ _ m', m' = m) m.
Proof.
  intros (Hc & _ & Hb). unfold QMD_LIST_CHECK_HEAD. dl_unfold. apply cseg_hd in Hc.
  destruct l as [|x l]; cbn [hd bseg] in *; [by l_steps|]. destruct Hb as [Hb _]. l_steps. by apply wp_check.
Qed.

Lemma dlist_check_next l1 x l2 :
  dlist m h (l1 ++ x :: l2) → wp (QMD_LIST_CHECK_NEXT (Some x)) (λ _ m', m' = m) m.
Proof.
  intros (Hc & _ & Hb). apply cseg_elem in Hc as [_ Hc]. unfold QMD_LIST_CHECK_NEXT. dl_unfold.
  destruct l2 as [|y l2]; cbn [hd] in *; [by l_steps|].
  apply bseg_app in Hb as (_ & _ & Hb & _). l_steps. by apply wp_check.
Qed.

Lemma dlist_check_prev l1 x l2 :
  dlist m h (l1 ++ x :: l2) → wp (QMD_LIST_CHECK_PREV (Some x)) (λ _ m', m' = m) m.
Proof.
  intros (Hc & _ & Hb). apply cseg_elem in Hc as [Hc _]. apply bseg_elem in Hb.
  unfold QMD_LIST_CHECK_PREV. dl_unfold. l_steps. by apply wp_check.
Qed.

Lemma checked_dl_same D l o : dlist m h l → dl_ok D o l → checked_dl h o m = run_dl h o m.
Proof.
  intros Hq Hok. destruct o as [x|y x|y x|x]; simpl in Hok; cbn [checked_dl].
  - eapply after_check, dlist_check_head, Hq.
  - destruct Hok as (_ & _ & (l1 & l2 & ->)%list_elem_of_split). eapply after_check, dlist_check_next, Hq.
  - destruct Hok as (_ & _ & (l1 & l2 & ->)%list_elem_of_split). eapply after_check, dlist_check_prev, Hq.
  - apply list_elem_of_split in Hok as (l1 & l2 & ->).
    rewrite after_check by eapply dlist_check_next, Hq. eapply after_check, dlist_check_prev, Hq.
Qed.

Lemma dlist_stale_entry l1 x l2 :
  dlist m h (l1 ++ l2) → x ∉ l1 ++ l2 →
  l_ptr m !! QElm x = Some (hd l2 NULL) → l_back m !! QElm x = Some (Some (end_of (QHead h) l1)) →
  checked_dl h (DLRemove x) m = Err AssertFail.
Proof.
  intros (Hc & Hnd & Hb) Hn Hx Hbx. apply cseg_app in Hc as [_ Hc]. apply cseg_hd in Hc.
  pose proof (end_of_notin h l1 x l2 Hn) as Hne.
  apply wpe_err. cbn [checked_dl]. unfold QMD_LIST_CHECK_NEXT, LIST_NEXT, link_next.
  destruct l2 as [|y l2]; cbn [hd] in *.
  - apply wpe_wp_bind. l_steps. unfold QMD_LIST_CHECK_PREV, le_prev.
    apply wpe_bind, wpe_wp_bind. l_steps. apply wpe_wp_bind. l_steps.
    rewrite decide_False by done. by constructor.
  - apply bseg_app in Hb as [_ [Hb _]]. apply wpe_bind, wpe_wp_bind. l_steps.
    rewrite decide_False by done. unfold le_prev.
    apply wpe_wp_bind. l_steps. apply wpe_wp_bind. l_steps.
    rewrite decide_False by (cbn; congruence). by constructor.
Qed.
End dl.

(** The same of the lists: the checks pass on a well-formed list, and a second removal of an
    element ends the process. *)
Theorem list_checks_guard m h D l o :
  dlist m h l → dl_ok D o l →
  checked_dl h o m = run_dl h o m ∧
  (∀ x, o = DLRemove x →
    wp (checked_dl h o) (λ _ m', checked_dl h o m' = Err AssertFail) m).
Proof.
  intros Hl Hok. split; [by eapply checked_dl_same|]. intros x ->. simpl in Hok.
  apply (list_elem_of_split) in Hok as (l1 & l2 & ->). unfold wp.
  rewrite (checked_dl_same m h D (l1 ++ x :: l2)) by (simpl; set_solver).
  change (wp (LIST_REMOVE (Some x)) (λ _ m', checked_dl h (DLRemove x) m' = Err AssertFail) m).
  eapply wp_mono; [eapply dlist_remove_entry; exact Hl|]. cbv beta. intros _ m' ->.
  destruct Hl as (Hc & Hnd & Hb). pose proof (NoDup_mid_notin _ _ _ Hnd) as Hn.
  pose proof (end_of_notin h l1 x l2 Hn) as Hne. apply cseg_elem in Hc as Hx.
  eapply dlist_stale_entry; [| |cbn [l_ptr l_back]..].
  - split_and!; [by eapply cseg_remove|by eapply NoDup_mid_remove|by eapply bseg_remove].
  - done.
  - rewrite lookup_insert_ne by congruence. apply Hx.
  - rewrite set_back_ne by set_solver. by eapply bseg_elem.
Qed.

(** ** Examples *)

Lemma tailq_safe_traversal_witness :
  wp (TAILQ_FOREACH_REVERSE_SAFE 1%positive (λ x, if bool_decide (x = 2%positive) then mret tt
        else TAILQ_REMOVE 1%positive (Some x)))
    (λ r m', r = [2; 1]%positive ∧ ∃ F', queue F' m' 1%positive [2]%positive) example_queues.
Proof.
  destruct (tailq_safe_traversal example_queues example_queues 1%positive [1; 2]%positive
    (λ x, bool_decide (x = 2%positive)) example_queue1) as [_ H]. exact H.
Defined.

Lemma tailq_checks_transparent_witness :
  checked_qops 1 [QInsertTail 4; QRemove 1; QInsertBefore 2 1]%positive example_queues =
  run_qops 1 [QInsertTail 4; QRemove 1; QInsertBefore 2 1]%positive example_queues.
Proof.
  apply (tailq_checks_transparent example_queues 1%positive
    [QInsertTail 4; QRemove 1; QInsertBefore 2 1]%positive example_queues [1; 2]%positive).
  - apply example_queue1.
  - simpl. split_and!; first [by eexists|set_solver|exact I].
Defined.

Lemma tailq_double_remove_panics_witness :
  wp (checked_qop 1%positive (QRemove 2%positive))
    (λ _ m', checked_qop 1%positive (QRemove 2%positive) m' = Err AssertFail) example_queues.
Proof.
  apply (tailq_double_remove_panics example_queues _ _ [1; 2]%positive).
  - apply example_queue1.
  - set_solver.
Defined.
