(* ===== verification/Splay.v ===== *)
(** The splay tree macros of src/core/nty_tree.h (SPLAY_HEAD ... SPLAY_FOREACH), on the
    memory they work on.

    [SPLAY] takes a tree apart on the way down: what lies below the key is hung under the
    right field of a local node [__node], what lies above under its left field, and
    [__left] and [__right] point to the places where the next piece goes. The local node is
    part of the state. Comparisons are a parameter, as for the red-black trees. *)

From S2P Require Export SortedSpec.

(** ** Data *)

Inductive side : Type := SLeft | SRight.
Definition opp (d : side) : side := match d with SLeft => SRight | SRight => SLeft end.

(** [SPLAY_ENTRY] *)
Record snode : Type := SEntry {
  spe_left : ptr;
  spe_right : ptr;
}.
Definition get_side (d : side) (n : snode) : ptr :=
  match d with SLeft => spe_left n | SRight => spe_right n end.
Definition set_side (d : side) (p : ptr) (n : snode) : snode :=
  match d with SLeft => SEntry p (spe_right n) | SRight => SEntry (spe_left n) p end.

(** [&__node], or a pointer to an element. *)
Inductive sref : Type :=
  | SLocal
  | SElm (p : ptr).
#[export] Instance sref_eq_dec : EqDecision sref.
Proof. solve_decision. Defined.

Abbreviation el x := (SElm (Some x)).

Record splay : Type := Splay {
  sph_root : ptr;
  sp_fields : gmap addr snode;
  sp_node : snode;           (* __node *)
}.
Abbreviation SP := (ST splay).

(** ** Field access *)

Definition sfield (s : splay) (r : sref) : option snode :=
  match r with
  | SLocal => Some (sp_node s)
  | SElm None => None
  | SElm (Some x) => sp_fields s !! x
  end.
Definition supd (s : splay) (r : sref) (n : snode) : splay :=
  match r with
  | SLocal => Splay (sph_root s) (sp_fields s) n
  | SElm None => s
  | SElm (Some x) => Splay (sph_root s) (<[x := n]> (sp_fields s)) (sp_node s)
  end.

Definition bad_ref (r : sref) : error :=
  match r with SElm None => NullDeref | _ => Dangling end.

Definition get_field (d : side) (r : sref) : SP ptr := λ s,
  match sfield s r with None => Err (bad_ref r) | Some n => Ok (get_side d n, s) end.
Definition set_field (d : side) (r : sref) (p : ptr) : SP unit := λ s,
  match sfield s r with
  | None => Err (bad_ref r)
  | Some n => Ok (tt, supd s r (set_side d p n))
  end.

Definition SPLAY_LEFT (r : sref) : SP ptr := get_field SLeft r.
Definition SPLAY_RIGHT (r : sref) : SP ptr := get_field SRight r.
Definition set_left (r : sref) (p : ptr) : SP unit := set_field SLeft r p.
Definition set_right (r : sref) (p : ptr) : SP unit := set_field SRight r p.
Definition SPLAY_ROOT : SP ptr := gets sph_root.
Definition set_root (p : ptr) : SP unit := modify (λ s, Splay p (sp_fields s) (sp_node s)).
Definition set_node (n : snode) : SP unit := modify (λ s, Splay (sph_root s) (sp_fields s) n).
Definition SPLAY_INIT : SP unit := set_root NULL.
Definition SPLAY_EMPTY : SP bool := r ← SPLAY_ROOT; mret (bool_decide (r = NULL)).

(** ** Rebalancing *)

Definition SPLAY_ROTATE_RIGHT (tmp : ptr) : SP unit :=
  (root ← SPLAY_ROOT; r ← SPLAY_RIGHT (SElm tmp); set_left (SElm root) r);;
  (root ← SPLAY_ROOT; set_right (SElm tmp) root);;
  set_root tmp.

Definition SPLAY_ROTATE_LEFT (tmp : ptr) : SP unit :=
  (root ← SPLAY_ROOT; l ← SPLAY_LEFT (SElm tmp); set_right (SElm root) l);;
  (root ← SPLAY_ROOT; set_left (SElm tmp) root);;
  set_root tmp.

(** These give the new value of [tmp]. *)
Definition SPLAY_LINKLEFT (tmp : sref) : SP sref :=
  (root ← SPLAY_ROOT; set_left tmp root);;
  tmp ← SPLAY_ROOT;
  (root ← SPLAY_ROOT; l ← SPLAY_LEFT (SElm root); set_root l);;
  mret (SElm tmp).

Definition SPLAY_LINKRIGHT (tmp : sref) : SP sref :=
  (root ← SPLAY_ROOT; set_right tmp root);;
  tmp ← SPLAY_ROOT;
  (root ← SPLAY_ROOT; r ← SPLAY_RIGHT (SElm root); set_root r);;
  mret (SElm tmp).

Definition SPLAY_ASSEMBLE (node lft rgt : sref) : SP unit :=
  (root ← SPLAY_ROOT; l ← SPLAY_LEFT (SElm root); set_right lft l);;
  (root ← SPLAY_ROOT; r ← SPLAY_RIGHT (SElm root); set_left rgt r);;
  (root ← SPLAY_ROOT; r ← SPLAY_RIGHT node; set_left (SElm root) r);;
  (root ← SPLAY_ROOT; l ← SPLAY_LEFT node; set_right (SElm root) l).

(** ** The splay operation *)

Definition compare (cmp : addr → res Z) (p : ptr) : SP Z :=
  match p with None => throw NullDeref | Some x => of_res (cmp x) end.

(** The branches of the loop; [None] is [break], otherwise the new [__right] or [__left]. *)
Definition SPLAY_go_left (cmp : addr → res Z) (rgt : sref) : SP (option sref) :=
  root ← SPLAY_ROOT;
  tmp ← SPLAY_LEFT (SElm root);
  match tmp with
  | None => mret None
  | Some _ =>
      c ← compare cmp tmp;
      stop ← (if (c <? 0)%Z then
                SPLAY_ROTATE_RIGHT tmp;;
                root ← SPLAY_ROOT; l ← SPLAY_LEFT (SElm root); mret (bool_decide (l = NULL))
              else mret false);
      if stop : bool then mret None
      else rgt ← SPLAY_LINKLEFT rgt; mret (Some rgt)
  end.

Definition SPLAY_go_right (cmp : addr → res Z) (lft : sref) : SP (option sref) :=
  root ← SPLAY_ROOT;
  tmp ← SPLAY_RIGHT (SElm root);
  match tmp with
  | None => mret None
  | Some _ =>
      c ← compare cmp tmp;
      stop ← (if (c >? 0)%Z then
                SPLAY_ROTATE_LEFT tmp;;
                root ← SPLAY_ROOT; r ← SPLAY_RIGHT (SElm root); mret (bool_decide (r = NULL))
              else mret false);
      if stop : bool then mret None
      else lft ← SPLAY_LINKRIGHT lft; mret (Some lft)
  end.

Fixpoint SPLAY_loop (cmp : addr → res Z) (fuel : nat) (lft rgt : sref) : SP (sref * sref) :=
  match fuel with
  | O => throw OutOfFuel
  | S fuel =>
      root ← SPLAY_ROOT;
      comp ← compare cmp root;
      if (comp =? 0)%Z then mret (lft, rgt)
      else if (comp <? 0)%Z then
        r ← SPLAY_go_left cmp rgt;
        match r with None => mret (lft, rgt) | Some rgt => SPLAY_loop cmp fuel lft rgt end
      else
        r ← SPLAY_go_right cmp lft;
        match r with None => mret (lft, rgt) | Some lft => SPLAY_loop cmp fuel lft rgt end
  end.

(** Enough for a loop that goes down a tree. *)
Definition sp_fuel (s : splay) : nat := S (size (sp_fields s)).

Definition SPLAY (cmp : addr → res Z) : SP unit :=
  set_node (SEntry NULL NULL);;
  fuel ← gets sp_fuel;
  '(lft, rgt) ← SPLAY_loop cmp fuel SLocal SLocal;
  SPLAY_ASSEMBLE SLocal lft rgt.

(** [while (1)] with a fixed [__comp]: all comparisons are its sign. *)
Fixpoint SPLAY_MINMAX_loop (comp : Z) (fuel : nat) (lft rgt : sref) : SP (sref * sref) :=
  match fuel with
  | O => throw OutOfFuel
  | S fuel =>
      if (comp <? 0)%Z then
        r ← SPLAY_go_left (λ _, Ok comp) rgt;
        match r with
        | None => mret (lft, rgt)
        | Some rgt => SPLAY_MINMAX_loop comp fuel lft rgt
        end
      else if (comp >? 0)%Z then
        r ← SPLAY_go_right (λ _, Ok comp) lft;
        match r with
        | None => mret (lft, rgt)
        | Some lft => SPLAY_MINMAX_loop comp fuel lft rgt
        end
      else SPLAY_MINMAX_loop comp fuel lft rgt
  end.

Definition SPLAY_MINMAX (comp : Z) : SP unit :=
  set_node (SEntry NULL NULL);;
  fuel ← gets sp_fuel;
  '(lft, rgt) ← SPLAY_MINMAX_loop comp fuel SLocal SLocal;
  SPLAY_ASSEMBLE SLocal lft rgt.

(** ** The operations *)

Definition SPLAY_FIND (cmp : addr → res Z) : SP ptr :=
  empty ← SPLAY_EMPTY;
  if empty : bool then mret NULL
  else
    SPLAY cmp;;
    root ← SPLAY_ROOT;
    c ← compare cmp root;
    if (c =? 0)%Z then SPLAY_ROOT else mret NULL.

Definition SPLAY_INSERT (cmp : addr → res Z) (elm : ptr) : SP ptr :=
  empty ← SPLAY_EMPTY;
  if empty : bool then
    set_right (SElm elm) NULL;; set_left (SElm elm) NULL;;
    set_root elm;; mret NULL
  else
    SPLAY cmp;;
    root ← SPLAY_ROOT;
    comp ← compare cmp root;
    if (comp <? 0)%Z then
      (root ← SPLAY_ROOT; l ← SPLAY_LEFT (SElm root); set_left (SElm elm) l);;
      (root ← SPLAY_ROOT; set_right (SElm elm) root);;
      (root ← SPLAY_ROOT; set_left (SElm root) NULL);;
      set_root elm;; mret NULL
    else if (comp >? 0)%Z then
      (root ← SPLAY_ROOT; r ← SPLAY_RIGHT (SElm root); set_right (SElm elm) r);;
      (root ← SPLAY_ROOT; set_left (SElm elm) root);;
      (root ← SPLAY_ROOT; set_right (SElm root) NULL);;
      set_root elm;; mret NULL
    else SPLAY_ROOT.

Definition SPLAY_REMOVE (cmp : addr → res Z) (elm : ptr) : SP ptr :=
  empty ← SPLAY_EMPTY;
  if empty : bool then mret NULL
  else
    SPLAY cmp;;
    root ← SPLAY_ROOT;
    c ← compare cmp root;
    if (c =? 0)%Z then
      root ← SPLAY_ROOT;
      l ← SPLAY_LEFT (SElm root);
      (if decide (l = NULL) then
         root ← SPLAY_ROOT; r ← SPLAY_RIGHT (SElm root); set_root r
       else
         root ← SPLAY_ROOT;
         tmp ← SPLAY_RIGHT (SElm root);
         (root ← SPLAY_ROOT; l ← SPLAY_LEFT (SElm root); set_root l);;
         SPLAY cmp;;
         root ← SPLAY_ROOT;
         set_right (SElm root) tmp);;
      mret elm
    else mret NULL.

(** [while (SPLAY_LEFT(elm) != NULL) elm = SPLAY_LEFT(elm);] *)
Fixpoint SPLAY_leftmost (fuel : nat) (elm : ptr) : SP ptr :=
  match fuel with
  | O => throw OutOfFuel
  | S fuel =>
      l ← SPLAY_LEFT (SElm elm);
      match l with None => mret elm | Some _ => SPLAY_leftmost fuel l end
  end.

(** [cmp] compares [elm]. *)
Definition SPLAY_NEXT (cmp : addr → res Z) (elm : ptr) : SP ptr :=
  SPLAY cmp;;
  r ← SPLAY_RIGHT (SElm elm);
  match r with
  | None => mret NULL
  | Some _ => fuel ← gets sp_fuel; SPLAY_leftmost fuel r
  end.

Definition SPLAY_MIN_MAX (val : Z) : SP ptr := SPLAY_MINMAX val;; SPLAY_ROOT.

Definition SPLAY_NEGINF : Z := -1.
Definition SPLAY_INF : Z := 1.

Definition SPLAY_MIN : SP ptr :=
  empty ← SPLAY_EMPTY;
  if empty : bool then mret NULL else SPLAY_MIN_MAX SPLAY_NEGINF.
Definition SPLAY_MAX : SP ptr :=
  empty ← SPLAY_EMPTY;
  if empty : bool then mret NULL else SPLAY_MIN_MAX SPLAY_INF.

(** [SPLAY_FOREACH]; [cmp x] compares the element [x]. It gives the elements visited. *)
Fixpoint SPLAY_FOREACH_loop (cmp : addr → addr → res Z) (fuel : nat) (x : ptr) : SP (list addr) :=
  match fuel with
  | O => throw OutOfFuel
  | S fuel =>
      match x with
      | None => mret []
      | Some a =>
          y ← SPLAY_NEXT (cmp a) x; l ← SPLAY_FOREACH_loop cmp fuel y; mret (a :: l)
      end
  end.
Definition SPLAY_FOREACH (cmp : addr → addr → res Z) : SP (list addr) :=
  fuel ← gets sp_fuel; x ← SPLAY_MIN; SPLAY_FOREACH_loop cmp fuel x.
