(* ===== verification/SplayShape.v ===== *)
(** Splay trees in memory: the trees, the spines the splay loop builds on the two sides of
    the root, and what the steps of the loop do to them.

    The two directions are mirror images: trees, spines and orders are described relative to
    a [side], and each step is proved once. *)

From S2P Require Export Splay.

Arguments sfield : simpl never.
Arguments supd : simpl never.

(** ** Trees *)

Inductive stree : Type :=
  | STip
  | STree (l : stree) (x : addr) (r : stree).

#[export] Instance stree_eq_dec : EqDecision stree.
Proof. solve_decision. Defined.

Fixpoint elts (t : stree) : list addr :=
  match t with STip => [] | STree l x r => elts l ++ x :: elts r end.
Definition rootp (t : stree) : ptr := match t with STip => NULL | STree _ x _ => Some x end.

(** The tree of root [x] with child [t] on side [d] and [u] on the other. *)
Definition mk (d : side) (u : stree) (x : addr) (t : stree) : stree :=
  match d with SRight => STree u x t | SLeft => STree t x u end.
(** What comes before, seen towards side [d]. *)
Definition join (d : side) (a b : list addr) : list addr :=
  match d with SRight => a ++ b | SLeft => b ++ a end.

Lemma join_assoc d a b c : join d (join d a b) c = join d a (join d b c).
Proof. destruct d; simpl; by rewrite app_assoc. Qed.
Lemma opp_opp d : opp (opp d) = d.
Proof. by destruct d. Qed.
Lemma join_opp d a b : join (opp d) a b = join d b a.
Proof. by destruct d. Qed.
Lemma elem_of_join d x a b : x ∈ join d a b ↔ x ∈ a ∨ x ∈ b.
Proof. destruct d; simpl; rewrite elem_of_app; tauto. Qed.
Lemma join_nil d a : join d [] a = a.
Proof. destruct d; simpl; by rewrite ?app_nil_r. Qed.
Lemma join_nil_r d a : join d a [] = a.
Proof. destruct d; simpl; by rewrite ?app_nil_r. Qed.
Lemma elts_mk d u x t : elts (mk d u x t) = join d (elts u) (join d [x] (elts t)).
Proof. destruct d; simpl; [by rewrite <- app_assoc|done]. Qed.
Lemma mk_opp d u x t : mk (opp d) u x t = mk d t x u.
Proof. by destruct d. Qed.
Lemma rootp_mk d u x t : rootp (mk d u x t) = Some x.
Proof. by destruct d. Qed.
Lemma stree_mk d l x r : ∃ u t, STree l x r = mk d u x t.
Proof. destruct d; [by exists r, l|by exists l, r]. Qed.
Lemma length_join d a b : length (join d a b) = length a + length b.
Proof. destruct d; simpl; rewrite length_app; lia. Qed.

Fixpoint tree_at (s : splay) (t : stree) : Prop :=
  match t with
  | STip => True
  | STree l x r =>
      sfield s (el x) = Some (SEntry (rootp l) (rootp r)) ∧ tree_at s l ∧ tree_at s r
  end.

(** The field of side [d] at [r] is [p]. *)
Definition points (s : splay) (d : side) (r : sref) (p : ptr) : Prop :=
  ∃ n, sfield s r = Some n ∧ get_side d n = p.

Lemma tree_at_mk s d u x t :
  tree_at s (mk d u x t) ↔
  points s d (el x) (rootp t) ∧ points s (opp d) (el x) (rootp u) ∧ tree_at s u ∧ tree_at s t.
Proof.
  unfold points. destruct d; simpl; split.
  - intros (-> & ? & ?). split_and!; eauto.
  - intros ((n & E & <-) & (n' & E' & <-) & ? & ?). simplify_eq. split_and!; [|done..].
    rewrite E. by destruct n.
  - intros (-> & ? & ?). split_and!; eauto.
  - intros ((n & E & <-) & (n' & E' & <-) & ? & ?). simplify_eq. split_and!; [|done..].
    rewrite E. by destruct n.
Qed.

(** Two memories that agree on the entries of [l]. *)
Definition same_on (s s' : splay) (l : list addr) : Prop :=
  ∀ x, x ∈ l → sfield s' (el x) = sfield s (el x).

Lemma stree_at_frame s s' t : tree_at s t → same_on s s' (elts t) → tree_at s' t.
Proof.
  unfold same_on. induction t as [|l IHl x r IHr]; [done|]. simpl. intros (E & Hl & Hr) Hs. split_and!.
  - rewrite (Hs x); [done|set_solver].
  - apply IHl; [done|set_solver].
  - apply IHr; [done|set_solver].
Qed.

(** ** Spines *)

(** The pieces hung on side [d], the last one first: each is an element and its subtree on
    the other side. *)
Abbreviation spine := (list (stree * addr)).

(** Where the next piece goes. *)
Definition send (sp : spine) : sref := match sp with [] => SLocal | (_, x) :: _ => el x end.

Fixpoint out (d : side) (sp : spine) : list addr :=
  match sp with [] => [] | (u, x) :: sp => join d (out d sp) (join d (elts u) [x]) end.

Fixpoint plug (d : side) (sp : spine) (t : stree) : stree :=
  match sp with [] => t | (u, x) :: sp => plug d sp (mk d u x t) end.

Fixpoint spine_at (s : splay) (d : side) (sp : spine) : Prop :=
  match sp with
  | [] => True
  | (u, x) :: sp =>
      points s (opp d) (el x) (rootp u) ∧ tree_at s u ∧ points s d (send sp) (Some x) ∧
      spine_at s d sp
  end.

Lemma elts_plug d sp t : elts (plug d sp t) = join d (out d sp) (elts t).
Proof.
  revert t; induction sp as [|[u x] sp IH]; intros t; simpl; [by rewrite join_nil|].
  by rewrite IH, elts_mk, !join_assoc.
Qed.

Lemma spine_plug s d sp t :
  spine_at s d sp → points s d (send sp) (rootp t) → tree_at s t →
  tree_at s (plug d sp t) ∧ points s d SLocal (rootp (plug d sp t)).
Proof.
  revert t; induction sp as [|[u x] sp IH]; intros t; simpl; [done|].
  intros (Hu & Htu & Hx & Hsp) Ht Htt. apply IH; [done|by rewrite rootp_mk|].
  by apply tree_at_mk.
Qed.

Lemma send_cases d sp : send sp = SLocal ∨ ∃ x, send sp = el x ∧ x ∈ out d sp.
Proof.
  destruct sp as [|[u x] sp]; [by left|]. right. exists x. split; [done|]. simpl.
  rewrite !elem_of_join. set_solver.
Qed.

Lemma points_frame s s' d r p : points s d r p → sfield s' r = sfield s r → points s' d r p.
Proof. intros (n & E & ?) Hs. exists n. by rewrite Hs. Qed.

(** A spine in a memory that agrees on its entries and on its field of the local node. *)
Lemma spine_frame s s' d sp :
  spine_at s d sp → same_on s s' (out d sp) →
  get_side d (sp_node s') = get_side d (sp_node s) → spine_at s' d sp.
Proof.
  unfold same_on. intros Hsp Hs Hd. induction sp as [|[u x] sp IH]; [done|]. simpl in *.
  destruct Hsp as (Hu & Htu & Hx & Hsp).
  assert (∀ y, y ∈ out d sp ∨ y ∈ elts u ∨ y = x → sfield s' (el y) = sfield s (el y)) as Hs'.
  { intros y Hy. apply Hs. rewrite !elem_of_join. set_solver. }
  split_and!.
  - eapply points_frame; [done|]. apply Hs'. auto.
  - eapply stree_at_frame; [done|]. intros y Hy. apply Hs'. auto.
  - destruct (send_cases d sp) as [E|(y & E & Hy)]; rewrite E in *.
    + destruct Hx as (n & [= <-] & ?). eexists. split; [done|]. by rewrite Hd.
    + eapply points_frame; [done|]. apply Hs'. auto.
  - apply IH; [done|]. intros y Hy. apply Hs'. auto.
Qed.

(** ** Writing a field *)

Lemma get_set_side d p n : get_side d (set_side d p n) = p.
Proof. by destruct d. Qed.
Lemma get_set_opp d p n : get_side (opp d) (set_side d p n) = get_side (opp d) n.
Proof. by destruct d. Qed.

Lemma sfield_supd s r n : is_Some (sfield s r) → sfield (supd s r n) r = Some n.
Proof.
  unfold sfield, supd. destruct r as [|[x|]]; simpl; [done| |by intros [? [=]]]. intros _. apply lookup_insert_eq.
Qed.
Lemma sfield_supd_ne s r r' n : r ≠ r' → sfield (supd s r n) r' = sfield s r'.
Proof.
  unfold sfield, supd. destruct r as [|[x|]], r' as [|[y|]]; simpl; try done. intros Hne. apply lookup_insert_ne. congruence.
Qed.

(** The memory after [set_field d r p]. *)
Definition set_mem (d : side) (r : sref) (p : ptr) (s : splay) : splay :=
  match sfield s r with None => s | Some n => supd s r (set_side d p n) end.
Definition root_mem (p : ptr) (s : splay) : splay := Splay p (sp_fields s) (sp_node s).

Lemma wp_get_field d r p (P : ptr → splay → Prop) s :
  points s d r p → P p s → wp (get_field d r) P s.
Proof. intros (n & E & <-) HP. unfold wp, get_field. by rewrite E. Qed.
Lemma wp_set_field d r p (P : unit → splay → Prop) s :
  is_Some (sfield s r) → P tt (set_mem d r p s) → wp (set_field d r p) P s.
Proof. intros [n E] HP. unfold wp, set_field. unfold set_mem in HP. by rewrite E in *. Qed.
Lemma wp_set_sroot p (P : unit → splay → Prop) s : P tt (root_mem p s) → wp (set_root p) P s.
Proof. done. Qed.

Lemma set_mem_same s d r p : is_Some (sfield s r) → points (set_mem d r p s) d r p.
Proof.
  intros [n E]. unfold set_mem. rewrite E. eexists. split; [apply sfield_supd; by eexists|].
  apply get_set_side.
Qed.
Lemma set_mem_opp s d r p q : points s (opp d) r q → points (set_mem d r p s) (opp d) r q.
Proof.
  intros (n & E & <-). unfold set_mem. rewrite E. eexists. split; [apply sfield_supd; by eexists|].
  apply get_set_opp.
Qed.
Lemma set_mem_ne s d r r' p : r ≠ r' → sfield (set_mem d r p s) r' = sfield s r'.
Proof. intros Hne. unfold set_mem. destruct (sfield s r); [by apply sfield_supd_ne|done]. Qed.
Lemma set_mem_local s d r p d' : (d' ≠ d ∨ r ≠ SLocal) →
  get_side d' (sp_node (set_mem d r p s)) = get_side d' (sp_node s).
Proof.
  unfold set_mem, sfield, supd. destruct r as [|[x|]]; simpl; [| |done].
  - intros [Hd|]; [|done]. by destruct d, d'.
  - by destruct (sp_fields s !! x).
Qed.
Lemma set_mem_root s d r p : sph_root (set_mem d r p s) = sph_root s.
Proof. unfold set_mem. destruct (sfield s r); [|done]. by destruct r as [|[]]. Qed.

Lemma points_some s d r p : points s d r p → is_Some (sfield s r).
Proof. intros (n & -> & _). by eexists. Qed.

(** The entries of a list that a write leaves alone. *)
Lemma set_mem_same_on s d r p l : (∀ x, x ∈ l → r ≠ el x) → same_on s (set_mem d r p s) l.
Proof. intros Hr x Hx. apply set_mem_ne. by apply Hr. Qed.
