(* ===== verification/SplayStep.v ===== *)
(** The splay loop: one step of it in either direction, and the effect of [SPLAY] on a
    tree with its elements in the order of their keys. *)

From S2P Require Export SplayShape.

(** ** The code in either direction *)

Definition deeper (d : side) (c : Z) : bool :=
  match d with SLeft => (c <? 0)%Z | SRight => (c >? 0)%Z end.

Definition rotate (d : side) (tmp : ptr) : SP unit :=
  (root ← SPLAY_ROOT; r ← get_field (opp d) (SElm tmp); set_field d (SElm root) r);;
  (root ← SPLAY_ROOT; set_field (opp d) (SElm tmp) root);;
  set_root tmp.

Definition link (d : side) (tmp : sref) : SP sref :=
  (root ← SPLAY_ROOT; set_field d tmp root);;
  tmp ← SPLAY_ROOT;
  (root ← SPLAY_ROOT; l ← get_field d (SElm root); set_root l);;
  mret (SElm tmp).

Definition go (d : side) (cmp : addr → res Z) (r : sref) : SP (option sref) :=
  root ← SPLAY_ROOT;
  tmp ← get_field d (SElm root);
  match tmp with
  | None => mret None
  | Some _ =>
      c ← compare cmp tmp;
      stop ← (if deeper d c then
                rotate d tmp;;
                root ← SPLAY_ROOT; l ← get_field d (SElm root); mret (bool_decide (l = NULL))
              else mret false);
      if stop : bool then mret None
      else r ← link d r; mret (Some r)
  end.

Lemma go_left_eq cmp r : SPLAY_go_left cmp r = go SLeft cmp r.
Proof. reflexivity. Qed.
Lemma go_right_eq cmp r : SPLAY_go_right cmp r = go SRight cmp r.
Proof. reflexivity. Qed.

(** ** The state of the loop *)

(** All the elements: the spine of side [d], the tree, the other spine. *)
Definition whole (d : side) (S : spine) (T : stree) (O : spine) : list addr :=
  join d (out d S) (join d (elts T) (out (opp d) O)).

Lemma whole_opp d S T O : whole (opp d) O T S = whole d S T O.
Proof. unfold whole. destruct d; simpl; by rewrite app_assoc. Qed.

Lemma NoDup_join d a b : NoDup (join d a b) ↔ NoDup a ∧ (∀ x, x ∈ a → x ∉ b) ∧ NoDup b.
Proof. destruct d; simpl; rewrite NoDup_app; [naive_solver|done]. Qed.

Record during (F : gmap addr snode) (d : side) (s : splay) (T : stree) (S O : spine) : Prop := {
  du_root : sph_root s = rootp T;
  du_tree : tree_at s T;
  du_spine : spine_at s d S;
  du_other : spine_at s (opp d) O;
  du_nodup : NoDup (whole d S T O);
  du_frame : ∀ p, p ∉ whole d S T O → sp_fields s !! p = F !! p;
}.

Lemma during_opp F d s T S O : during F d s T S O → during F (opp d) s T O S.
Proof.
  intros [Hr Ht Hs Ho Hn Hf]. split; [done..| | |].
  - by destruct d.
  - by rewrite whole_opp.
  - by rewrite whole_opp.
Qed.

(** Membership in the parts. *)
Lemma elem_of_whole d S T O x :
  x ∈ whole d S T O ↔ x ∈ out d S ∨ x ∈ elts T ∨ x ∈ out (opp d) O.
Proof. unfold whole. by rewrite !elem_of_join. Qed.

Lemma whole_disj d S T O : NoDup (whole d S T O) →
  NoDup (elts T) ∧ (∀ x, x ∈ out d S → x ∉ elts T) ∧ (∀ x, x ∈ out d S → x ∉ out (opp d) O) ∧
  (∀ x, x ∈ elts T → x ∉ out (opp d) O).
Proof.
  unfold whole. rewrite !NoDup_join. intros (_ & H1 & ? & H2 & _). split_and!; [done| | |done].
  - intros x Hx Ht. apply (H1 x Hx). rewrite elem_of_join. auto.
  - intros x Hx Ht. apply (H1 x Hx). rewrite elem_of_join. auto.
Qed.

Lemma send_ne d sp x : x ∉ out d sp → send sp ≠ el x.
Proof.
  destruct (send_cases d sp) as [->|(y & -> & Hy)]; [done|]. intros Hx [= ->]. done.
Qed.

Lemma send_some s d sp : spine_at s d sp → is_Some (sfield s (send sp)).
Proof.
  destruct sp as [|[u x] sp]; [by eexists|]. intros [Hp _]. by eapply points_some.
Qed.

Lemma tree_at_some s t x : tree_at s t → x ∈ elts t → is_Some (sfield s (el x)).
Proof.
  induction t as [|l IHl y r IHr]; simpl; [by intros _ ?%elem_of_nil|].
  rewrite elem_of_app, elem_of_cons. intros (E & ? & ?) [?|[->|?]]; [auto|by eexists|auto].
Qed.

(** ** The steps *)

Section steps.
Variables (F : gmap addr snode) (d : side).

(** Outside the elements a write to one of them changes nothing. *)
Lemma frame_set s r p (L : list addr) :
  (∀ q, q ∉ L → sp_fields s !! q = F !! q) → (r = SLocal ∨ ∃ x, r = el x ∧ x ∈ L) →
  ∀ q, q ∉ L → sp_fields (set_mem d r p s) !! q = F !! q.
Proof.
  intros Hf Hr q Hq. rewrite <- Hf by done.
  change (sfield (set_mem d r p s) (el q) = sfield s (el q)). apply set_mem_ne.
  destruct Hr as [->|(x & -> & Hx)]; [done|]. intros [= ->]. done.
Qed.

(** The writes of the loop on the spine of side [d] and on the others. *)
Lemma spine_set_end s S p :
  spine_at s d S → NoDup (out d S) → spine_at (set_mem d (send S) p s) d S.
Proof.
  destruct S as [|[v y] S]; [done|]. simpl. intros (Hv & Htv & Hy & Hs) Hn.
  rewrite !NoDup_join in Hn. setoid_rewrite elem_of_join in Hn.
  destruct Hn as (_ & HS & _ & Hvy & _).
  assert (y ∉ out d S) as HyS by (intros Hin; apply (HS y Hin); right; by left).
  split_and!.
  - by apply set_mem_opp.
  - eapply stree_at_frame; [exact Htv|]. apply set_mem_same_on. intros z Hz [= ->].
    apply (Hvy z Hz). by left.
  - eapply points_frame; [exact Hy|]. apply set_mem_ne. apply not_eq_sym. by apply (send_ne d).
  - eapply spine_frame; [exact Hs| |apply set_mem_local; by right].
    apply set_mem_same_on. intros z Hz [= ->]. done.
Qed.

Lemma spine_set_other s S O p :
  spine_at s (opp d) O → (∀ x, x ∈ out d S → x ∉ out (opp d) O) →
  spine_at (set_mem d (send S) p s) (opp d) O.
Proof.
  intros Ho Hd. eapply spine_frame; [exact Ho| |apply set_mem_local; left; by destruct d].
  apply set_mem_same_on. intros x Hx. apply (send_ne d). intros Hx'. by apply (Hd x).
Qed.

Lemma tree_set_end s S t p :
  tree_at s t → (∀ x, x ∈ out d S → x ∉ elts t) → tree_at (set_mem d (send S) p s) t.
Proof.
  intros Ht Hd. eapply stree_at_frame; [exact Ht|]. apply set_mem_same_on. intros x Hx.
  apply (send_ne d). intros Hx'. by apply (Hd x).
Qed.

Lemma tree_at_root s t p : tree_at s t → tree_at (root_mem p s) t.
Proof. intros Ht. eapply stree_at_frame; [exact Ht|done]. Qed.
Lemma spine_at_root s d' S p : spine_at s d' S → spine_at (root_mem p s) d' S.
Proof. intros Hs. by eapply spine_frame. Qed.

Lemma link_spec s u x t S O :
  during F d s (mk d u x t) S O →
  wp (link d (send S)) (λ r s', r = el x ∧ during F d s' t ((u, x) :: S) O) s.
Proof.
  intros [Hr Ht Hs Ho Hn Hf]. pose proof (whole_disj _ _ _ _ Hn) as (HnT & HST & HSO & HTO).
  apply tree_at_mk in Ht as (Hd & Hu & Htu & Htt). rewrite rootp_mk in Hr.
  rewrite elts_mk in HST. setoid_rewrite elem_of_join in HST. setoid_rewrite elem_of_join in HST.
  assert (x ∉ out d S) as HxS by (intros Hx; apply (HST x Hx); right; left; by left).
  assert (whole d ((u, x) :: S) t O = whole d S (mk d u x t) O) as HW.
  { unfold whole. simpl. by rewrite elts_mk, !join_assoc. }
  pose proof (send_ne d S x HxS) as Hne. pose proof (send_some s d S Hs) as Hend.
  unfold link, SPLAY_ROOT. apply wp_bind, wp_bind, wp_gets. rewrite Hr.
  apply wp_set_field; [done|]. apply wp_bind, wp_gets, wp_bind, wp_bind, wp_gets.
  rewrite set_mem_root, Hr. apply wp_bind.
  eapply wp_get_field; [eapply points_frame; [exact Hd|by apply set_mem_ne]|].
  apply wp_set_sroot, wp_ret. split; [done|]. split; rewrite ?HW; [done| | |..].
  - apply tree_at_root, tree_set_end; [done|]. intros y Hy Hy'. apply (HST y Hy). auto.
  - apply spine_at_root. split_and!.
    + eapply points_frame; [exact Hu|by apply set_mem_ne].
    + apply tree_set_end; [done|]. intros y Hy Hy'. apply (HST y Hy). auto.
    + by apply set_mem_same.
    + apply spine_set_end; [done|]. unfold whole in Hn. by apply NoDup_join in Hn as (? & _).
  - apply spine_at_root. by apply spine_set_other.
  - done.
  - apply (frame_set _ _ _ (whole d S (mk d u x t) O)); [done|].
    destruct (send_cases d S) as [->|(y & -> & Hy)]; [by left|]. right. exists y.
    split; [done|]. apply elem_of_whole. auto.
Qed.

Lemma rotate_spec s u x v y t S O :
  during F d s (mk d u x (mk d v y t)) S O →
  wp (rotate d (Some y)) (λ _ s', during F d s' (mk d (mk d u x v) y t) S O) s.
Proof.
  intros [Hr Ht Hs Ho Hn Hf]. pose proof (whole_disj _ _ _ _ Hn) as (HnT & HST & HSO & HTO).
  apply tree_at_mk in Ht as (Hd & Hu & Htu & Ht).
  apply tree_at_mk in Ht as (Hd' & Hv & Htv & Htt). rewrite rootp_mk in Hr, Hd.
  set (L := elts (mk d u x (mk d v y t))) in *.
  assert (x ∈ L ∧ y ∈ L) as [HxL HyL].
  { unfold L. rewrite elts_mk, !elem_of_join, elts_mk, !elem_of_join. set_solver. }
  assert (elts (mk d (mk d u x v) y t) = L) as HL.
  { unfold L. by rewrite !elts_mk, !join_assoc. }
  assert (whole d S (mk d (mk d u x v) y t) O = whole d S (mk d u x (mk d v y t)) O) as HW.
  { unfold whole. by rewrite HL. }
  unfold L in HnT. rewrite elts_mk, elts_mk in HnT.
  rewrite !NoDup_join in HnT. repeat setoid_rewrite elem_of_join in HnT.
  destruct HnT as (_ & Hux & _ & Hxv & _ & Hvy & _ & Hyt & _).
  assert (x ≠ y) as Hxy by (intros ->; apply (Hxv y); [by left|right; left; by left]).
  assert (∀ z, z ∈ elts u → z ≠ x ∧ z ≠ y) as Hzu.
  { intros z Hz. split; intros ->; apply (Hux _ Hz); [left; by left|right; right; left; by left]. }
  assert (∀ z, z ∈ elts v → z ≠ x ∧ z ≠ y) as Hzv.
  { intros z Hz. split; intros ->; [|by apply (Hvy y Hz); left; left]. apply (Hxv x); [by left|by left]. }
  assert (∀ z, z ∈ elts t → z ≠ x ∧ z ≠ y) as Hzt.
  { intros z Hz. split; intros ->; [|apply (Hyt y); [by left|done]].
    apply (Hxv x); [by left|by right; right]. }
  set (s1 := set_mem d (el x) (rootp v) s). set (s2 := set_mem (opp d) (el y) (Some x) s1).
  assert (∀ z, z ≠ x → z ≠ y → sfield s2 (el z) = sfield s (el z)) as Hsame.
  { intros z ??. unfold s2, s1. rewrite !set_mem_ne by congruence. done. }
  assert (∀ l, (∀ z, z ∈ l → z ≠ x ∧ z ≠ y) → same_on s s2 l) as Hon.
  { intros l Hl z Hz. destruct (Hl z Hz). by apply Hsame. }
  unfold rotate, SPLAY_ROOT. apply wp_bind, wp_bind, wp_gets. rewrite Hr. apply wp_bind.
  eapply wp_get_field; [exact Hv|]. apply wp_set_field; [by eapply points_some|]. fold s1.
  apply wp_bind, wp_bind, wp_gets. unfold s1 at 1. rewrite set_mem_root, Hr.
  apply wp_set_field; [unfold s1; rewrite set_mem_ne by congruence; by eapply points_some|]. fold s2.
  apply wp_set_sroot. assert (is_Some (sfield s (el x))) by (by eapply points_some).
  assert (is_Some (sfield s1 (el y))).
  { unfold s1. rewrite set_mem_ne by congruence. by eapply points_some. }
  split; rewrite ?HW; [by rewrite rootp_mk| | |..].
  - apply tree_at_root. apply tree_at_mk. split_and!.
    + rewrite <- (opp_opp d) at 1. apply set_mem_opp. rewrite opp_opp.
      eapply points_frame; [exact Hd'|]. apply set_mem_ne. congruence.
    + rewrite rootp_mk. by apply set_mem_same.
    + apply tree_at_mk. split_and!.
      * eapply points_frame; [by apply set_mem_same|]. apply set_mem_ne. congruence.
      * eapply points_frame; [by apply set_mem_opp|]. apply set_mem_ne. congruence.
      * by eapply stree_at_frame; [exact Htu|apply Hon].
      * by eapply stree_at_frame; [exact Htv|apply Hon].
    + by eapply stree_at_frame; [exact Htt|apply Hon].
  - apply spine_at_root. eapply spine_frame; [exact Hs| |].
    + apply Hon. intros z Hz. split; intros ->; by apply (HST _ Hz).
    + unfold s2, s1. rewrite !set_mem_local; [done|by right..].
  - apply spine_at_root. eapply spine_frame; [exact Ho| |].
    + apply Hon. intros z Hz. split; intros ->; [exact (HTO x HxL Hz)|exact (HTO y HyL Hz)].
    + unfold s2, s1. rewrite !set_mem_local; [done|by right..].
  - done.
  - assert (∀ q, q ∉ whole d S (mk d u x (mk d v y t)) O → sp_fields s1 !! q = F !! q) as Hf1.
    { apply frame_set; [done|]. right. exists x. split; [done|]. apply elem_of_whole. auto. }
    intros q Hq. rewrite <- Hf1 by done.
    change (sfield s2 (el q) = sfield s1 (el q)). apply set_mem_ne. intros [= ->].
    apply Hq, elem_of_whole. auto.
Qed.

(** ** The search *)

Variables (key : addr → Z) (k0 : Z).

(** [p] is passed on the way down in direction [d']. *)
Definition beyond (d' : side) (p : addr) : Prop :=
  match d' with SLeft => (k0 < key p)%Z | SRight => (key p < k0)%Z end.
Definition all_beyond (d' : side) (l : list addr) : Prop := ∀ p, p ∈ l → beyond d' p.

(** Elements on the far side of one that is passed are passed too. *)
Lemma sorted_join_mid d' (a : list addr) x b :
  sorted_by key (join d' a (join d' [x] b)) →
  (∀ p, p ∈ a → match d' with SLeft => (key x < key p)%Z | SRight => (key p < key x)%Z end) ∧
  (∀ p, p ∈ b → match d' with SLeft => (key p < key x)%Z | SRight => (key x < key p)%Z end).
Proof.
  destruct d'; simpl.
  - rewrite !sorted_by_app. intros ([_ [_ Hbx]] & _ & Hba). split; intros p Hp.
    + apply Hba; [set_solver|done].
    + apply Hbx; [done|by left].
  - rewrite sorted_by_app, sorted_by_cons. intros (_ & [Hx _] & Ha). split; intros p Hp; [|by apply Hx].
    apply Ha; [done|by left].
Qed.

Lemma all_beyond_mid d' (a : list addr) x b :
  sorted_by key (join d' a (join d' [x] b)) → beyond d' x → all_beyond d' (join d' a [x]).
Proof.
  intros [Ha _]%sorted_join_mid Hx p [Hp|Hp]%elem_of_join.
  - specialize (Ha p Hp). destruct d'; simpl in *; lia.
  - by apply list_elem_of_singleton in Hp as ->.
Qed.

Lemma sorted_join d' (a b : list addr) : sorted_by key (join d' a b) → sorted_by key a ∧ sorted_by key b.
Proof. destruct d'; simpl; rewrite sorted_by_app; tauto. Qed.

Variable cmp : addr → res Z.

Lemma wp_compare p c (P : Z → splay → Prop) s : cmp p = Ok c → P c s → wp (compare cmp (Some p)) P s.
Proof. intros E HP. by eapply wp_of_res. Qed.

Lemma deeper_beyond p c : Z.sgn c = Z.sgn (k0 - key p) → deeper d c = true ↔ beyond d p.
Proof.
  destruct d; simpl; [rewrite Z.ltb_lt|rewrite Z.gtb_lt]; destruct (Z.lt_total c 0) as [|[|]];
    destruct (Z.lt_total (k0 - key p) 0) as [|[|]]; lia.
Qed.

(** Hanging the root and its far subtree on the spine. *)
Lemma link_beyond u x t S :
  sorted_by key (elts (mk d u x t)) → beyond d x → all_beyond d (out d S) →
  all_beyond d (out d ((u, x) :: S)).
Proof.
  rewrite elts_mk. intros Hs Hx HS p [Hp|Hp]%elem_of_join; [auto|].
  by eapply all_beyond_mid.
Qed.

(** A branch of the loop ends it with nothing below the root, or goes one level down. *)
Definition went (W : list addr) (n : nat) (S0 O : spine) (r : option sref) (s : splay) : Prop :=
  ∃ T S, during F d s T S O ∧ whole d S T O = W ∧ all_beyond d (out d S) ∧
    match r with
    | None => S = S0 ∧ ∃ u x, T = mk d u x STip ∧ beyond d x
    | Some e => e = send S ∧ T ≠ STip ∧ length (elts T) < n
    end.

Lemma link_went s u x t S O W :
  during F d s (mk d u x t) S O → whole d S (mk d u x t) O = W → sorted_by key W →
  beyond d x → all_beyond d (out d S) → t ≠ STip →
  wp (r ← link d (send S); mret (Some r)) (went W (length (elts (mk d u x t))) S O) s.
Proof.
  intros Hd <- Hs Hx HS Ht. apply wp_bind. eapply wp_mono; [by apply link_spec|].
  cbv beta. intros r s' [-> Hd']. apply wp_ret. exists t, ((u, x) :: S). split_and!; try done.
  - unfold whole. simpl. by rewrite elts_mk, !join_assoc.
  - eapply link_beyond; [|done..]. unfold whole in Hs.
    apply sorted_join in Hs as [_ Hs]. by apply sorted_join in Hs as [? _].
  - rewrite elts_mk, !length_join. simpl. lia.
Qed.

Lemma go_spec s u x t S O W :
  during F d s (mk d u x t) S O → whole d S (mk d u x t) O = W → sorted_by key W →
  compares key k0 cmp W → beyond d x → all_beyond d (out d S) →
  wp (go d cmp (send S)) (went W (length (elts (mk d u x t))) S O) s.
Proof.
  intros Hdu HW Hs Hc Hx HS. pose proof Hdu as [Hr Ht _ _ _ _].
  apply tree_at_mk in Ht as (Hd & _ & _ & _). rewrite rootp_mk in Hr.
  unfold go, SPLAY_ROOT. apply wp_bind, wp_gets. rewrite Hr. apply wp_bind.
  eapply wp_get_field; [exact Hd|]. destruct t as [|a y b] eqn:Et; simpl.
  { apply wp_ret. exists (mk d u x STip), S. split_and!; try done. eauto. }
  destruct (stree_mk d a y b) as (v & t' & E).
  destruct (Hc y) as (c & Ec & Hsg).
  { rewrite <- HW. apply elem_of_whole. right; left. rewrite elts_mk, !elem_of_join. right; right.
    simpl. rewrite elem_of_app. right. by left. }
  apply wp_bind. eapply wp_compare; [exact Ec|]. apply wp_bind.
  destruct (deeper d c) eqn:Ed.
  - apply (deeper_beyond y) in Ed; [|done]. rewrite E in Hdu, HW |- *.
    apply wp_bind. eapply wp_mono; [by apply rotate_spec|]. cbv beta. intros _ s1 Hdu1.
    pose proof Hdu1 as [Hr1 Ht1 _ _ _ _]. apply tree_at_mk in Ht1 as (Hd1 & _). rewrite rootp_mk in Hr1.
    apply wp_bind, wp_gets. rewrite Hr1. apply wp_bind. eapply wp_get_field; [exact Hd1|].
    assert (whole d S (mk d (mk d u x v) y t') O = W) as HW1.
    { rewrite <- HW. unfold whole. by rewrite !elts_mk, !join_assoc. }
    apply wp_ret. destruct t' as [|a' z b'] eqn:Et'.
    + apply wp_ret. exists (mk d (mk d u x v) y STip), S. split_and!; try done. eauto.
    + rewrite bool_decide_false by done. rewrite <- Et' in *.
      eapply wp_mono; [apply (link_went s1 (mk d u x v) y t' S O W); try done; by rewrite Et'|].
      cbv beta. intros r s2. unfold went. by rewrite !elts_mk, !join_assoc, !length_join.
  - apply wp_ret. rewrite <- Et in *. apply link_went; try done. by rewrite Et.
Qed.
End steps.
