(* ===== verification/SplayOps.v ===== *)
(** The splay tree operations on a tree in memory: [SPLAY], insertion, removal, searches and
    the traversal. *)

From S2P Require Export SplayStep.

(** The memory holds the tree [T]; other nodes are those of [F]. *)
Definition srep (F : gmap addr snode) (s : splay) (T : stree) : Prop :=
  sph_root s = rootp T ∧ tree_at s T ∧ NoDup (elts T) ∧
  ∀ p, p ∉ elts T → sp_fields s !! p = F !! p.

Lemma srep_length F s T : srep F s T → length (elts T) < sp_fuel s.
Proof.
  intros (_ & Ht & Hn & _). apply Nat.lt_succ_r. rewrite <- size_dom.
  rewrite <- (size_list_to_set (C := gset addr) (elts T)) by done.
  apply subseteq_size. intros x Hx%elem_of_list_to_set. apply elem_of_dom.
  by eapply (tree_at_some s).
Qed.

Lemma points_root s d r p q : points s d r p → points (root_mem q s) d r p.
Proof. intros Hp. by eapply points_frame. Qed.

Lemma points_other s d r r' p q :
  points s d r p → points (set_mem (opp d) r' q s) d r p.
Proof.
  intros Hp. destruct (decide (r = r')) as [->|Hne].
  - pose proof (set_mem_opp s (opp d) r' q p) as Ho. rewrite opp_opp in Ho. auto.
  - eapply points_frame; [done|]. by apply set_mem_ne.
Qed.

Section splay.
Variables (F : gmap addr snode) (key : addr → Z) (k0 : Z) (cmp : addr → res Z).

(** The loop ends at the element nearest to the key. *)
Definition found (W : list addr) (p : sref * sref) (s : splay) : Prop :=
  ∃ a x b L R, p = (send L, send R) ∧ during F SRight s (STree a x b) L R ∧
    whole SRight L (STree a x b) R = W ∧
    all_beyond key k0 SRight (out SRight L ++ elts a) ∧ all_beyond key k0 SLeft (elts b ++ out SLeft R).

Lemma whole_sorted L a x b R :
  sorted_by key (whole SRight L (STree a x b) R) →
  (∀ p, p ∈ out SRight L ++ elts a → (key p < key x)%Z) ∧
  (∀ p, p ∈ elts b ++ out SLeft R → (key x < key p)%Z).
Proof.
  unfold whole. simpl. rewrite <- app_assoc. simpl. rewrite app_assoc, sorted_by_app, sorted_by_cons.
  intros (_ & [Hb _] & Ha). split; [|done]. intros p Hp. apply Ha; [done|by left].
Qed.

(** The end of the loop, seen from the root. *)
Lemma found_at W a x b L R s :
  during F SRight s (STree a x b) L R → whole SRight L (STree a x b) R = W → sorted_by key W →
  all_beyond key k0 SRight (out SRight L) → all_beyond key k0 SLeft (out SLeft R) →
  key x = k0 ∨ (beyond key k0 SLeft x ∧ a = STip) ∨ (beyond key k0 SRight x ∧ b = STip) →
  found W (send L, send R) s.
Proof.
  intros Hd <- Hs HL HR Hx. exists a, x, b, L, R. split_and!; try done.
  - apply whole_sorted in Hs as [Hs _]. intros p Hp. specialize (Hs p Hp).
    destruct Hx as [?|[[? ->]|[? ->]]]; simpl in *; [lia| |lia].
    rewrite app_nil_r in Hp. by apply HL.
  - apply whole_sorted in Hs as [_ Hs]. intros p Hp. specialize (Hs p Hp).
    destruct Hx as [?|[[? ->]|[? ->]]]; simpl in *; [lia|lia|]. by apply HR.
Qed.

Lemma SPLAY_loop_spec fuel : ∀ s T L R W,
  during F SRight s T L R → whole SRight L T R = W → T ≠ STip → sorted_by key W →
  compares key k0 cmp W → all_beyond key k0 SRight (out SRight L) →
  all_beyond key k0 SLeft (out SLeft R) → length (elts T) < fuel →
  wp (SPLAY_loop cmp fuel (send L) (send R)) (found W) s.
Proof.
  induction fuel as [|fuel IH]; intros s T L R W Hd HW HT Hs Hc HL HR Hf; [lia|].
  destruct T as [|a x b]; [done|]. cbn [SPLAY_loop]. unfold SPLAY_ROOT.
  apply wp_bind, wp_gets. rewrite (du_root _ _ _ _ _ _ Hd). simpl rootp.
  destruct (Hc x) as (c & Ec & Hsg).
  { rewrite <- HW. apply elem_of_whole. right; left. simpl. rewrite elem_of_app. right. by left. }
  apply wp_bind. eapply wp_compare; [exact Ec|].
  destruct (Z.eqb_spec c 0) as [->|Hc0].
  { apply wp_ret. eapply found_at; try done. left. lia. }
  destruct (Z.ltb_spec c 0).
  - rewrite go_left_eq. apply wp_bind. eapply wp_mono.
    { apply (go_spec F SLeft key k0 cmp s b x a R L W); try done; [|by rewrite (whole_opp SRight)|simpl; lia].
      by apply (during_opp F SRight). }
    cbv beta. intros r s' (T' & R' & Hd' & HW' & HR' & Hr). apply (during_opp F SLeft) in Hd'.
    rewrite (whole_opp SRight) in HW'.
    destruct r as [e|].
    + destruct Hr as (-> & HT' & Hlt). apply (IH s' T' L R' W); try done.
      simpl mk in Hlt. lia.
    + destruct Hr as (-> & u & y & -> & Hy). apply wp_ret.
      eapply (found_at W STip y u); try done. right; left. done.
  - rewrite go_right_eq. apply wp_bind. eapply wp_mono.
    { apply (go_spec F SRight key k0 cmp s a x b L R W); try done. simpl. lia. }
    cbv beta. intros r s' (T' & L' & Hd' & HW' & HL' & Hr).
    destruct r as [e|].
    + destruct Hr as (-> & HT' & Hlt). apply (IH s' T' L' R W); try done. simpl mk in Hlt. lia.
    + destruct Hr as (-> & u & y & -> & Hy). apply wp_ret.
      eapply (found_at W u y STip); try done. right; right. done.
Qed.

(** Putting the pieces back under the root. *)
Lemma SPLAY_ASSEMBLE_spec s a x b L R :
  during F SRight s (STree a x b) L R →
  wp (SPLAY_ASSEMBLE SLocal (send L) (send R))
    (λ _ s', srep F s' (STree (plug SRight L a) x (plug SLeft R b))) s.
Proof.
  intros [Hr Ht HL HR Hn Hf]. simpl opp in HR. simpl rootp in Hr.
  pose proof (whole_disj _ _ _ _ Hn) as (HnT & HLT & HLR & HTR). simpl opp in HLR, HTR.
  assert (∃ W, W = whole SRight L (STree a x b) R) as [W EW] by eauto. rewrite <- EW in Hn, Hf.
  assert (elts (STree (plug SRight L a) x (plug SLeft R b)) = W) as HW.
  { rewrite EW. unfold whole. simpl. rewrite !elts_plug. simpl. by rewrite <- !app_assoc. }
  pose proof (tree_at_mk s SRight a x b) as [Hmk _]. destruct (Hmk Ht) as (Hxb & Hxa & Hta & Htb).
  simpl opp in Hxa. simpl elts in HLT, HTR.
  assert (send L ≠ el x) as HxL.
  { apply (send_ne SRight). intros Hx. apply (HLT x Hx). set_solver. }
  assert (send R ≠ el x) as HxR.
  { apply (send_ne SLeft). apply HTR. set_solver. }
  set (s1 := set_mem SRight (send L) (rootp a) s). set (s2 := set_mem SLeft (send R) (rootp b) s1).
  assert (spine_at s2 SRight L ∧ spine_at s2 SLeft R ∧ tree_at s2 a ∧ tree_at s2 b ∧
    points s2 SRight (send L) (rootp a) ∧ points s2 SLeft (send R) (rootp b)) as
    (HL2 & HR2 & Ha2 & Hb2 & HpL & HpR).
  { assert (spine_at s1 SLeft R) by (by apply (spine_set_other SRight)).
    unfold s2. split_and!.
    - apply (spine_set_other SLeft); [|intros y Hy Hy'; by apply (HLR y)].
      apply spine_set_end; [done|]. rewrite EW in Hn. unfold whole in Hn. apply NoDup_join in Hn. tauto.
    - apply spine_set_end; [done|]. rewrite EW in Hn. unfold whole in Hn.
      apply NoDup_join in Hn as (_ & _ & Hn). apply NoDup_join in Hn. tauto.
    - apply tree_set_end; [apply tree_set_end; [done|]|]; intros y Hy Hy'.
      + apply (HLT y Hy). set_solver.
      + eapply (HTR y); [set_solver|done].
    - apply tree_set_end; [apply tree_set_end; [done|]|]; intros y Hy Hy'.
      + apply (HLT y Hy). set_solver.
      + eapply (HTR y); [set_solver|done].
    - apply (points_other _ SRight). apply set_mem_same. by eapply send_some.
    - apply set_mem_same. by eapply send_some. }
  destruct (spine_plug s2 SRight L a HL2 HpL Ha2) as [HtL HlL].
  destruct (spine_plug s2 SLeft R b HR2 HpR Hb2) as [HtR HlR].
  set (s3 := set_mem SLeft (el x) (rootp (plug SRight L a)) s2).
  set (s4 := set_mem SRight (el x) (rootp (plug SLeft R b)) s3).
  assert (is_Some (sfield s2 (el x))) as Hx2.
  { unfold s2, s1. rewrite !set_mem_ne by done. by eapply points_some. }
  assert (is_Some (sfield s3 (el x))) as Hx3 by (eapply points_some; by apply set_mem_same).
  unfold SPLAY_ASSEMBLE, SPLAY_ROOT, SPLAY_LEFT, SPLAY_RIGHT, set_left, set_right.
  apply wp_bind, wp_bind, wp_gets. rewrite Hr. apply wp_bind.
  eapply wp_get_field; [exact Hxa|]. apply wp_set_field; [by eapply send_some|]. fold s1.
  apply wp_bind, wp_bind, wp_gets. unfold s1 at 1. rewrite set_mem_root, Hr. apply wp_bind.
  eapply wp_get_field; [eapply points_frame; [exact Hxb|by apply set_mem_ne]|].
  apply wp_set_field; [by eapply send_some, (spine_set_other SRight)|]. fold s2.
  apply wp_bind, wp_bind, wp_gets. unfold s2, s1 at 1. rewrite !set_mem_root, Hr. fold s1 s2. apply wp_bind.
  eapply wp_get_field; [exact HlL|]. apply wp_set_field; [done|]. fold s3.
  apply wp_bind, wp_gets. unfold s3, s2, s1 at 1. rewrite !set_mem_root, Hr. fold s1 s2 s3. apply wp_bind.
  eapply wp_get_field; [eapply points_frame; [exact HlR|by apply set_mem_ne]|].
  apply wp_set_field; [done|]. fold s4.
  assert (∀ t, x ∉ elts t → tree_at s2 t → tree_at s4 t) as Hback.
  { intros t Hx Htr. eapply stree_at_frame; [exact Htr|]. intros y Hy. unfold s4, s3.
    rewrite !set_mem_ne; [done|intros [= ->]; done..]. }
  assert ((x ∉ elts (plug SRight L a)) ∧ x ∉ elts (plug SLeft R b)) as [HxPL HxPR].
  { rewrite <- HW in Hn. simpl in Hn. apply NoDup_app in Hn as (_ & Hd & [? _]%NoDup_cons).
    split; [|done]. intros Hin. apply (Hd x Hin). by left. }
  assert (∀ p, p ∉ W → sp_fields s4 !! p = F !! p) as Hfr.
  { assert (x ∈ W) by (rewrite EW; apply elem_of_whole; set_solver).
    assert (∀ d sp, (∀ y, y ∈ out d sp → y ∈ W) →
      (send sp = SLocal ∨ (∃ y, send sp = el y ∧ y ∈ W))) as Hsend.
    { intros d sp Hsp. destruct (send_cases d sp) as [|(y & ? & ?)]; eauto. }
    unfold s4, s3, s2, s1. repeat apply frame_set; eauto.
    - apply (Hsend SRight). intros y Hy. rewrite EW. apply elem_of_whole. auto.
    - apply (Hsend SLeft). intros y Hy. rewrite EW. apply elem_of_whole. auto. }
  split_and!; [| |by rewrite HW|by rewrite HW].
  - unfold s4, s3, s2, s1. by rewrite !set_mem_root.
  - apply (tree_at_mk s4 SRight). split_and!; [by apply set_mem_same| |by apply Hback..].
    apply (points_other _ SLeft). by apply set_mem_same.
Qed.

(** [SPLAY] brings to the root an element with nothing between it and the key. *)
Definition splayed (T : stree) (s : splay) : Prop :=
  ∃ a x b, srep F s (STree a x b) ∧ elts (STree a x b) = elts T ∧
    all_beyond key k0 SRight (elts a) ∧ all_beyond key k0 SLeft (elts b).

Lemma assemble_found s W T p :
  found W p s → W = elts T → wp (SPLAY_ASSEMBLE SLocal p.1 p.2) (λ _, splayed T) s.
Proof.
  intros (a & x & b & L & R & -> & Hd & HW & Ha & Hb) HT. simpl.
  eapply wp_mono; [by apply SPLAY_ASSEMBLE_spec|]. cbv beta. intros _ s' Hr.
  exists (plug SRight L a), x, (plug SLeft R b). split; [done|]. rewrite !elts_plug. split_and!; [|done..].
  rewrite <- HT, <- HW. unfold whole. simpl. rewrite !elts_plug. simpl. by rewrite <- !app_assoc.
Qed.

Lemma srep_during s T n : srep F s T → during F SRight (Splay (sph_root s) (sp_fields s) n) T [] [].
Proof.
  intros (Hr & Ht & Hn & Hf). split; simpl; [done| |done|done|..].
  - by eapply stree_at_frame.
  - unfold whole. simpl. by rewrite app_nil_r.
  - unfold whole. simpl. by rewrite app_nil_r.
Qed.

Lemma SPLAY_spec s T :
  srep F s T → T ≠ STip → sorted_by key (elts T) → compares key k0 cmp (elts T) →
  wp (SPLAY cmp) (λ _, splayed T) s.
Proof.
  intros Hr HT Hs Hc. unfold SPLAY, set_node. apply wp_bind, wp_modify, wp_bind, wp_gets, wp_bind.
  eapply wp_mono.
  { eapply (SPLAY_loop_spec _ _ T [] [] (elts T)); try done.
    - by apply srep_during.
    - unfold whole. simpl. by rewrite app_nil_r.
    - by intros p ?%elem_of_nil.
    - by intros p ?%elem_of_nil.
    - by apply (srep_length F s T). }
  cbv beta. intros [l r] s' Hf. by apply (assemble_found s' (elts T) T (l, r)).
Qed.

(** ** Search *)

Lemma splayed_root T s : splayed T s → ∃ x, sph_root s = Some x ∧ x ∈ elts T.
Proof.
  intros (a & x & b & (Hr & _) & He & _). exists x. split; [done|]. rewrite <- He. simpl. set_solver.
Qed.

Lemma srep_empty s T : srep F s T → wp SPLAY_EMPTY (λ r s', s' = s ∧ r = bool_decide (T = STip)) s.
Proof.
  intros (Hr & _). unfold SPLAY_EMPTY, SPLAY_ROOT. apply wp_bind, wp_gets, wp_ret.
  split; [done|]. rewrite Hr. by destruct T.
Qed.

Lemma srep_find s T :
  srep F s T → sorted_by key (elts T) → compares key k0 cmp (elts T) →
  wp (SPLAY_FIND cmp) (λ r s', (∃ T', srep F s' T' ∧ elts T' = elts T) ∧
    match r with
    | Some p => p ∈ elts T ∧ key p = k0
    | None => ∀ p, p ∈ elts T → key p ≠ k0
    end) s.
Proof.
  intros Hr Hs Hc. unfold SPLAY_FIND. eapply wp_seq; [by apply (srep_empty s T)|].
  cbv beta. intros empty s0 [-> ->]. destruct T as [|l y r].
  { rewrite bool_decide_true by done. apply wp_ret. split; [by exists STip|]. by intros p ?%elem_of_nil. }
  rewrite bool_decide_false by done. eapply wp_seq; [by eapply SPLAY_spec|].
  cbv beta. intros _ s1 (a & x & b & Hr1 & He & Ha & Hb). destruct (Hr1) as (Hx & _).
  assert (x ∈ elts (STree l y r)) as Hin by (rewrite <- He; simpl; set_solver).
  destruct (Hc x Hin) as (c & Ec & Hsg).
  unfold SPLAY_ROOT. apply wp_bind, wp_gets. rewrite Hx. apply wp_bind. eapply wp_compare; [exact Ec|].
  destruct (Z.eqb_spec c 0).
  - apply wp_gets. rewrite Hx. split; [eauto|]. split; [done|lia].
  - apply wp_ret. split; [eauto|]. intros p. rewrite <- He. simpl. rewrite elem_of_app, elem_of_cons.
    intros [Hp|[->|Hp]]; [specialize (Ha p Hp)|lia|specialize (Hb p Hp)]; simpl in *; lia.
Qed.
End splay.

(** ** Insertion *)

Definition put_above (d : side) (elm : ptr) : SP ptr :=
  (root ← SPLAY_ROOT; l ← get_field d (SElm root); set_field d (SElm elm) l);;
  (root ← SPLAY_ROOT; set_field (opp d) (SElm elm) root);;
  (root ← SPLAY_ROOT; set_field d (SElm root) NULL);;
  set_root elm;; mret NULL.

Lemma put_above_spec F d s u y t x :
  srep F s (mk d u y t) → x ∉ elts (mk d u y t) → is_Some (F !! x) →
  wp (put_above d (Some x)) (λ r s', r = NULL ∧ srep F s' (mk d (mk d u y STip) x t)) s.
Proof.
  intros (Hr & Ht & Hn & Hf) Hx HF. rewrite rootp_mk in Hr. apply tree_at_mk in Ht as (Hd & Ho & Hu & Htt).
  assert (is_Some (sfield s (el x))) as Hxs.
  { change (is_Some (sp_fields s !! x)). by rewrite Hf. }
  assert (elts (mk d (mk d u y STip) x t) = join d (elts u) (join d [y] (join d [x] (elts t)))) as HE.
  { rewrite !elts_mk. simpl. by rewrite join_nil_r, !join_assoc. }
  rewrite elts_mk in Hx, Hn, Hf. rewrite !elem_of_join in Hx.
  assert (x ≠ y ∧ (x ∉ elts u) ∧ x ∉ elts t) as (Hxy & Hxu & Hxt).
  { split_and!; [|tauto|tauto]. intros ->. apply Hx. right; left. by left. }
  rewrite !NoDup_join in Hn. repeat setoid_rewrite elem_of_join in Hn.
  destruct Hn as (Hnu & Huy & Hny & Hyt & Hnt).
  assert ((y ∉ elts u) ∧ y ∉ elts t) as [Hyu Hyt'].
  { split; [intros Hin; apply (Huy y Hin); left; by left|apply Hyt; by left]. }
  set (s1 := set_mem d (el x) (rootp t) s). set (s2 := set_mem (opp d) (el x) (Some y) s1).
  set (s3 := set_mem d (el y) NULL s2).
  assert (is_Some (sfield s1 (el x))) as Hx1 by (eapply points_some; by apply set_mem_same).
  assert (is_Some (sfield s2 (el y))) as Hy2.
  { unfold s2, s1. rewrite !set_mem_ne by congruence. by eapply points_some. }
  assert (∀ t', x ∉ elts t' → y ∉ elts t' → tree_at s t' → tree_at (root_mem (Some x) s3) t') as Hback.
  { intros t' Hx' Hy' Htr. apply tree_at_root. eapply stree_at_frame; [exact Htr|]. intros z Hz.
    unfold s3, s2, s1. rewrite !set_mem_ne; [done|congruence..]. }
  unfold put_above, SPLAY_ROOT. apply wp_bind, wp_bind, wp_gets. rewrite Hr. apply wp_bind.
  eapply wp_get_field; [exact Hd|]. apply wp_set_field; [done|]. fold s1.
  apply wp_bind, wp_bind, wp_gets. unfold s1 at 1. rewrite set_mem_root, Hr.
  apply wp_set_field; [done|]. fold s2.
  apply wp_bind, wp_bind, wp_gets. unfold s2, s1 at 1. rewrite !set_mem_root, Hr. fold s1 s2.
  apply wp_set_field; [done|]. fold s3. apply wp_bind, wp_set_sroot, wp_ret. split; [done|].
  split_and!; [by rewrite rootp_mk| | |].
  - apply tree_at_mk. rewrite rootp_mk. split_and!; [| | |by apply Hback].
    + apply points_root. eapply (points_frame s2); [|apply set_mem_ne; congruence].
      rewrite <- (opp_opp d) at 1. apply set_mem_opp. rewrite opp_opp. by apply set_mem_same.
    + apply points_root. eapply (points_frame s2); [|apply set_mem_ne; congruence]. by apply set_mem_same.
    + apply tree_at_mk. split_and!; [by apply points_root, set_mem_same| |by apply Hback|done].
      apply points_root, set_mem_opp. eapply points_frame; [exact Ho|].
      unfold s2, s1. rewrite !set_mem_ne by congruence. done.
  - rewrite HE, !NoDup_join. repeat setoid_rewrite elem_of_join.
    repeat setoid_rewrite list_elem_of_singleton. split_and!; try done.
    + intros z Hz [->|[->|Hz']]; [done|done|]. apply (Huy z Hz). auto.
    + intros z -> [->|?]; done.
    + apply NoDup_singleton.
    + by intros z ->.
  - intros q. rewrite HE, !elem_of_join, !list_elem_of_singleton. intros Hq.
    etransitivity; [|apply Hf; rewrite !elem_of_join, list_elem_of_singleton; tauto].
    change (sfield s3 (el q) = sfield s (el q)). unfold s3, s2, s1.
    rewrite !set_mem_ne; [done|intros [= ->]; tauto..].
Qed.

Section insert.
Variables (F : gmap addr snode) (key : addr → Z) (cmp : addr → res Z) (x : addr).

Lemma srep_insert s T :
  srep F s T → sorted_by key (elts T) → compares key (key x) cmp (elts T) →
  is_Some (F !! x) → x ∉ elts T →
  wp (SPLAY_INSERT cmp (Some x)) (λ r s',
    match r with
    | Some p => p ∈ elts T ∧ key p = key x ∧ ∃ T', srep F s' T' ∧ elts T' = elts T
    | None => ∃ l1 l2 T', elts T = l1 ++ l2 ∧ slot key (key x) l1 l2 ∧ srep F s' T' ∧
        elts T' = l1 ++ x :: l2
    end) s.
Proof.
  intros Hr Hs Hc HF Hx. unfold SPLAY_INSERT. eapply wp_seq; [by apply (srep_empty F s T)|].
  cbv beta. intros empty s0 [-> ->]. destruct T as [|l y r].
  { rewrite bool_decide_true by done. destruct Hr as (Hr & _ & _ & Hf).
    assert (is_Some (sfield s (el x))) as Hxs.
    { change (is_Some (sp_fields s !! x)). rewrite Hf; [done|]. by intros ?%elem_of_nil. }
    unfold set_left, set_right. apply wp_bind, wp_set_field; [done|].
    set (s1 := set_mem SRight (el x) NULL s).
    assert (points s1 SRight (el x) NULL) as H1 by by apply set_mem_same.
    apply wp_bind, wp_set_field; [by eapply points_some|].
    apply wp_bind, wp_set_sroot, wp_ret. exists [], [], (STree STip x STip).
    split_and!; [done|split; by intros p ?%elem_of_nil| |done].
    split_and!; [done| |by apply NoDup_singleton|].
    - apply tree_at_root. apply (tree_at_mk _ SLeft STip x STip). split_and!; [| |done|done].
      + apply set_mem_same. by eapply points_some.
      + by apply set_mem_opp.
    - intros q Hq. simpl in Hq. rewrite list_elem_of_singleton in Hq.
      etransitivity; [|apply Hf; by intros ?%elem_of_nil].
      change (sfield (set_mem SLeft (el x) NULL s1) (el q) = sfield s (el q)). unfold s1.
      rewrite !set_mem_ne; [done|congruence..]. }
  rewrite bool_decide_false by done. eapply wp_seq; [by eapply SPLAY_spec|].
  cbv beta. intros _ s1 (a & z & b & Hr1 & He & Ha & Hb). destruct (Hr1) as (Hz & _). simpl in Hz.
  assert (z ∈ elts (STree l y r)) as Hin by (rewrite <- He; simpl; set_solver).
  rewrite <- He in Hx. destruct (Hc z Hin) as (c & Ec & Hsg).
  unfold SPLAY_ROOT at 1. apply wp_bind, wp_gets. rewrite Hz. apply wp_bind. eapply wp_compare; [exact Ec|].
  destruct (Z.ltb_spec c 0).
  - eapply wp_mono; [by apply (put_above_spec F SLeft s1 b z a x)|].
    cbv beta. intros r' s' [-> Hr']. exists (elts a), (z :: elts b), (STree a x (STree STip z b)).
    split_and!; [done| |done|done]. split; intros p Hp; [by apply Ha|].
    apply elem_of_cons in Hp as [->|Hp]; [lia|by apply Hb].
  - rewrite Z.gtb_ltb. destruct (Z.ltb_spec 0 c).
    + eapply wp_mono; [by apply (put_above_spec F SRight s1 a z b x)|].
      cbv beta. intros r' s' [-> Hr']. exists (elts a ++ [z]), (elts b), (STree (STree a z STip) x b).
      split_and!; [by rewrite <- He, <- app_assoc| |done|done]. split; intros p Hp; [|by apply Hb].
      apply elem_of_app in Hp as [Hp|Hp%list_elem_of_singleton]; [by apply Ha|subst; lia].
    + apply wp_gets. rewrite Hz. split_and!; [done|lia|]. by exists (STree a z b).
Qed.
End insert.
