(* ===== verification/SplayProps.v ===== *)
(** What is proved of the splay tree macros: removal and traversal, and the refinement of any
    sequence of operations to a sorted list. *)

From S2P Require Export SplayOps.

(** ** Removal *)

Lemma sfield_points s d x a b :
  sfield s (el x) = Some (SEntry (rootp a) (rootp b)) →
  points s d (el x) (match d with SLeft => rootp a | SRight => rootp b end).
Proof. intros E. eexists. split; [exact E|]. by destruct d. Qed.

(** The subtrees, in the memory as it is. *)
Lemma srep_left F s a x b : srep F s (STree a x b) → srep (sp_fields s) (root_mem (rootp a) s) a.
Proof.
  intros (_ & (_ & Ha & _) & Hn & _). split_and!; [done|by apply tree_at_root| |done].
  simpl in Hn. by apply NoDup_app in Hn as (? & _).
Qed.
Lemma srep_right F s a x b : srep F s (STree a x b) → srep (sp_fields s) (root_mem (rootp b) s) b.
Proof.
  intros (_ & (_ & _ & Hb) & Hn & _). split_and!; [done|by apply tree_at_root| |done].
  simpl in Hn. by apply NoDup_app in Hn as (_ & _ & [_ ?]%NoDup_cons).
Qed.

(** A tree without right subtree, given one. *)
Lemma srep_graft s1 s2 a z b :
  srep (sp_fields s1) s2 (STree a z STip) → tree_at s1 b → NoDup (elts (STree a z b)) →
  srep (sp_fields s1) (set_mem SRight (el z) (rootp b) s2) (STree a z b).
Proof.
  intros (Hr & (E & Ha & _) & _ & Hf) Hb Hn. simpl elts in Hf, Hn.
  pose proof Hn as (_ & Hd & [Hzb _]%NoDup_cons)%NoDup_app.
  split_and!; [by rewrite set_mem_root| |done|].
  - apply (tree_at_mk _ SRight). split_and!.
    + apply set_mem_same. by eexists.
    + apply set_mem_opp. exact (sfield_points _ SLeft _ _ _ E).
    + eapply stree_at_frame; [exact Ha|]. apply set_mem_same_on. intros y Hy [= ->].
      apply (Hd y Hy). by left.
    + eapply stree_at_frame; [exact Hb|]. intros y Hy. rewrite set_mem_ne by congruence.
      apply Hf. rewrite elem_of_app, list_elem_of_singleton. intros [Hy'| ->]; [|done].
      apply (Hd y Hy'). by right.
  - intros p Hp. simpl in Hp. rewrite <- Hf by set_solver.
    change (sfield (set_mem SRight (el z) (rootp b) s2) (el p) = sfield s2 (el p)).
    apply set_mem_ne. set_solver.
Qed.

Section ops.
Variables (F : gmap addr snode) (key : addr → Z) (cmp : addr → res Z) (x : addr).

(** [SPLAY] brings an element of the tree to the root. *)
Lemma splayed_elem T s l1 l2 :
  splayed F key (key x) T s → elts T = l1 ++ x :: l2 → NoDup (elts T) →
  ∃ a b, srep F s (STree a x b) ∧ elts a = l1 ∧ elts b = l2.
Proof.
  intros (a & z & b & Hr & He & Ha & Hb) HT Hn.
  assert (x ∈ elts (STree a z b)) as Hx by (rewrite He, HT; set_solver).
  simpl in Hx. rewrite elem_of_app, elem_of_cons in Hx. destruct Hx as [Hx|[<-|Hx]].
  - specialize (Ha x Hx). simpl in Ha. lia.
  - exists a, b. split; [done|]. rewrite HT in He, Hn. rewrite <- He in Hn.
    by apply (NoDup_split_unique _ _ _ _ x Hn).
  - specialize (Hb x Hx). simpl in Hb. lia.
Qed.

Lemma srep_remove s T l1 l2 :
  srep F s T → sorted_by key (elts T) → compares key (key x) cmp (elts T) → elts T = l1 ++ x :: l2 →
  wp (SPLAY_REMOVE cmp (Some x)) (λ r s', r = Some x ∧ ∃ n T',
    srep (<[x := n]> F) s' T' ∧ elts T' = l1 ++ l2) s.
Proof.
  intros Hr Hs Hc HT. unfold SPLAY_REMOVE. eapply wp_seq; [by apply (srep_empty F s T)|].
  cbv beta. intros empty s0 [-> ->]. assert (T ≠ STip) as HTn by (intros ->; by destruct l1).
  rewrite bool_decide_false by done. eapply wp_seq; [by eapply SPLAY_spec|].
  cbv beta. intros _ s1 Hsp. pose proof Hr as (_ & _ & Hn & _).
  destruct (splayed_elem T s1 l1 l2 Hsp HT Hn) as (a & b & Hr1 & Ea & Eb).
  pose proof Hr1 as (Hx & (E & Hta & Htb) & Hn1 & Hf1). simpl in Hx.
  destruct (Hc x) as (c & Ec & Hsg); [rewrite HT; set_solver|].
  unfold SPLAY_ROOT at 1. apply wp_bind, wp_gets. rewrite Hx. apply wp_bind. eapply wp_compare; [exact Ec|].
  rewrite (proj2 (Z.eqb_eq _ _)) by lia. unfold SPLAY_ROOT, SPLAY_LEFT, SPLAY_RIGHT.
  apply wp_bind, wp_gets. rewrite Hx. apply wp_bind. eapply wp_get_field; [exact (sfield_points _ SLeft _ _ _ E)|].
  assert (∀ s2 T', srep (sp_fields s1) s2 T' → (∀ p, p ∈ elts T' → p ∈ l1 ++ l2) →
    (∀ p, p ∈ l1 ++ l2 → p ∈ elts T') → ∃ n, srep (<[x := n]> F) s2 T') as Hfin.
  { intros s2 T' (? & ? & ? & Hf) HT1 HT2. exists (SEntry (rootp a) (rootp b)). split_and!; try done.
    intros p Hp. rewrite Hf by done. destruct (decide (x = p)) as [<-|Hne].
    - rewrite lookup_insert_eq. exact E.
    - rewrite lookup_insert_ne by done. apply Hf1. simpl. rewrite Ea, Eb.
      rewrite elem_of_app, elem_of_cons. specialize (HT2 p). rewrite elem_of_app in HT2. naive_solver. }
  apply wp_bind. destruct a as [|al ax ar] eqn:Eqa; simpl rootp.
  - rewrite decide_True by done. apply wp_bind, wp_gets. rewrite Hx. apply wp_bind.
    eapply wp_get_field; [exact (sfield_points _ SRight _ _ _ E)|]. apply wp_set_sroot, wp_ret. split; [done|].
    destruct (Hfin (root_mem (rootp b) s1) b) as [n Hn']; [by eapply srep_right|..].
    + subst. set_solver.
    + subst. set_solver.
    + exists n, b. split; [done|]. by rewrite <- Ea, Eb.
  - rewrite decide_False by done. rewrite <- Eqa in *. apply wp_bind, wp_gets. rewrite Hx. apply wp_bind.
    eapply wp_get_field; [exact (sfield_points _ SRight _ _ _ E)|]. apply wp_bind, wp_bind, wp_gets. rewrite Hx.
    apply wp_bind. eapply wp_get_field; [exact (sfield_points _ SLeft _ _ _ E)|]. apply wp_set_sroot.
    assert (sorted_by key (elts a) ∧ ∀ p, p ∈ elts a → (key p < key x)%Z) as [Hsa Hax].
    { rewrite HT, <- Ea, sorted_by_app in Hs. destruct Hs as (? & _ & Hlt). split; [done|].
      intros p Hp. apply Hlt; [done|by left]. }
    apply wp_bind. eapply wp_mono.
    { eapply (SPLAY_spec (sp_fields s1) key (key x) cmp (root_mem (rootp a) s1) a); [by eapply srep_left|by subst|done|].
      intros p Hp. apply Hc. rewrite HT, <- Ea. set_solver. }
    cbv beta. intros _ s2 (a' & z & b' & Hr2 & He2 & _ & Hb2). pose proof Hr2 as (Hz & (Ez & Hta' & _) & Hn2 & Hf2).
    assert (b' = STip) as ->.
    { destruct b' as [|bl q br]; [done|]. exfalso. assert (q ∈ elts a) as Hq.
      { rewrite <- He2. simpl. set_solver. }
      specialize (Hax q Hq). specialize (Hb2 q). simpl in Hb2. rewrite elem_of_app in Hb2. set_solver by lia. }
    apply wp_bind, wp_gets. rewrite Hz. simpl rootp.
    unfold set_right. apply wp_set_field; [by eexists|]. apply wp_ret. split; [done|].
    assert (elts (STree a' z b) = l1 ++ l2) as HE.
    { rewrite <- Ea, <- He2, <- Eb. simpl. by rewrite <- app_assoc. }
    destruct (Hfin (set_mem SRight (el z) (rootp b) s2) (STree a' z b)) as [n Hn'].
    + apply srep_graft; [done|done|]. rewrite HE. rewrite HT in Hn. by eapply NoDup_mid_remove.
    + intros p. by rewrite HE.
    + intros p. by rewrite HE.
    + eauto.
Qed.

(** ** Traversal *)

Lemma SPLAY_leftmost_spec fuel t s :
  tree_at s t → t ≠ STip → length (elts t) < fuel →
  wp (SPLAY_leftmost fuel (rootp t)) (λ r s', s' = s ∧ r = head (elts t)) s.
Proof.
  revert t; induction fuel as [|fuel IH]; intros t Ht Htn Hf; [lia|].
  destruct t as [|l y r]; [done|]. destruct Ht as (E & Hl & _). simpl rootp. cbn [SPLAY_leftmost].
  apply wp_bind. eapply wp_get_field; [exact (sfield_points _ SLeft _ _ _ E)|].
  destruct l as [|ll ly lr]; simpl rootp; [by apply wp_ret|].
  eapply wp_mono; [apply (IH (STree ll ly lr)); [done|done|]|].
  { simpl in Hf |- *. rewrite length_app in Hf. simpl in Hf. lia. }
  cbv beta. intros r' s' [-> ->]. split; [done|]. simpl. by destruct (elts ll).
Qed.

Lemma srep_next s T l1 l2 :
  srep F s T → sorted_by key (elts T) → compares key (key x) cmp (elts T) → elts T = l1 ++ x :: l2 →
  wp (SPLAY_NEXT cmp (Some x)) (λ r s', r = head l2 ∧ ∃ T', srep F s' T' ∧ elts T' = elts T) s.
Proof.
  intros Hr Hs Hc HT. assert (T ≠ STip) as HTn by (intros ->; by destruct l1).
  unfold SPLAY_NEXT. eapply wp_seq; [by eapply SPLAY_spec|].
  cbv beta. intros _ s1 Hsp. pose proof Hr as (_ & _ & Hn & _).
  destruct (splayed_elem T s1 l1 l2 Hsp HT Hn) as (a & b & Hr1 & Ea & Eb).
  pose proof Hr1 as (_ & (E & _ & Htb) & _).
  assert (∃ T', srep F s1 T' ∧ elts T' = elts T) as HT'.
  { exists (STree a x b). split; [done|]. by rewrite HT, <- Ea, <- Eb. }
  apply wp_bind. eapply wp_get_field; [exact (sfield_points _ SRight _ _ _ E)|].
  destruct b as [|bl y br] eqn:Eqb; simpl rootp; [apply wp_ret; by rewrite <- Eb|].
  apply wp_bind, wp_gets. eapply wp_mono.
  { apply (SPLAY_leftmost_spec _ (STree bl y br)); [done..|].
    apply srep_length in Hr1. simpl in Hr1 |- *. rewrite length_app in Hr1. simpl in Hr1. lia. }
  cbv beta. intros r s' [-> ->]. split; [by rewrite Eb|done].
Qed.
End ops.

(** The loop with a fixed comparison is the one of [SPLAY]. *)
Lemma MINMAX_loop_spec comp fuel : comp ≠ 0%Z → ∀ l r s P,
  wp (SPLAY_loop (λ _, Ok comp) fuel l r) P s → wp (SPLAY_MINMAX_loop comp fuel l r) P s.
Proof.
  intros Hcomp. induction fuel as [|fuel IH]; intros l r s P; [done|]. cbn [SPLAY_loop SPLAY_MINMAX_loop].
  unfold SPLAY_ROOT. intros Hw%wp_unbind. change (wp (c ← compare (λ _, Ok comp) (sph_root s);
    (if (c =? 0)%Z then mret (l, r) else if (c <? 0)%Z then
      o ← SPLAY_go_left (λ _, Ok comp) r;
      match o with None => mret (l, r) | Some r => SPLAY_loop (λ _, Ok comp) fuel l r end
     else o ← SPLAY_go_right (λ _, Ok comp) l;
      match o with None => mret (l, r) | Some l => SPLAY_loop (λ _, Ok comp) fuel l r end)) P s) in Hw.
  destruct (sph_root s) as [p|]; [|done]. apply wp_unbind in Hw.
  change (wp (if (comp =? 0)%Z then mret (l, r) else if (comp <? 0)%Z then
      o ← SPLAY_go_left (λ _, Ok comp) r;
      match o with None => mret (l, r) | Some r => SPLAY_loop (λ _, Ok comp) fuel l r end
     else o ← SPLAY_go_right (λ _, Ok comp) l;
      match o with None => mret (l, r) | Some l => SPLAY_loop (λ _, Ok comp) fuel l r end) P s) in Hw.
  rewrite (proj2 (Z.eqb_neq _ _) Hcomp) in Hw. rewrite Z.gtb_ltb.
  destruct (Z.ltb_spec comp 0); [|destruct (Z.ltb_spec 0 comp); [|lia]];
    (apply wp_unbind in Hw; eapply wp_seq; [exact Hw|]; cbv beta; intros [o|] s'; [apply IH|done]).
Qed.

(** A key below, and one above, those of a list. *)
Lemma key_bounds (key : addr → Z) (l : list addr) :
  ∃ lo hi, ∀ p, p ∈ l → (lo < key p < hi)%Z.
Proof.
  induction l as [|x l (lo & hi & IH)]; [exists 0%Z, 0%Z; by intros p ?%elem_of_nil|].
  exists (Z.min lo (key x - 1))%Z, (Z.max hi (key x + 1))%Z.
  intros p [->|Hp]%elem_of_cons; [lia|]. specialize (IH p Hp). lia.
Qed.

Section minmax.
Variables (F : gmap addr snode) (key : addr → Z).

Lemma SPLAY_MINMAX_spec s T k0 comp :
  srep F s T → T ≠ STip → sorted_by key (elts T) → comp ≠ 0%Z →
  (∀ p, p ∈ elts T → Z.sgn comp = Z.sgn (k0 - key p)) →
  wp (SPLAY_MINMAX comp) (λ _, splayed F key k0 T) s.
Proof.
  intros Hr HT Hs Hcomp Hc.
  assert (wp (SPLAY (λ _, Ok comp)) (λ _, splayed F key k0 T) s) as Hsp.
  { apply SPLAY_spec; [done..|]. intros p Hp. eexists. split; [done|]. by apply Hc. }
  unfold SPLAY in Hsp. unfold SPLAY_MINMAX. apply wp_unbind in Hsp. apply wp_bind.
  eapply wp_mono; [exact Hsp|]. cbv beta. intros _ s1 Hs1. apply wp_unbind in Hs1. apply wp_bind.
  eapply wp_mono; [exact Hs1|]. cbv beta. intros fuel s2 Hs2. apply wp_unbind in Hs2. apply wp_bind.
  by apply MINMAX_loop_spec.
Qed.

Lemma srep_min s T :
  srep F s T → sorted_by key (elts T) →
  wp SPLAY_MIN (λ r s', r = head (elts T) ∧ ∃ T', srep F s' T' ∧ elts T' = elts T) s.
Proof.
  intros Hr Hs. unfold SPLAY_MIN. eapply wp_seq; [by apply (srep_empty F s T)|].
  cbv beta. intros empty s0 [-> ->]. destruct (decide (T = STip)) as [->|HT].
  { rewrite bool_decide_true by done. apply wp_ret. split; [done|]. by exists STip. }
  rewrite bool_decide_false by done. destruct (key_bounds key (elts T)) as (lo & hi & Hb).
  unfold SPLAY_MIN_MAX, SPLAY_NEGINF. eapply wp_seq.
  { apply (SPLAY_MINMAX_spec s T lo); [done..|]. intros p Hp. specialize (Hb p Hp). lia. }
  cbv beta. intros _ s1 (a & x & b & Hr1 & He & Ha & _). apply wp_gets.
  destruct (Hr1) as (-> & _). split; [|eauto]. rewrite <- He. destruct a as [|al y ar]; [done|].
  exfalso. specialize (Ha y). specialize (Hb y). rewrite <- He in Hb. simpl in Ha, Hb.
  rewrite !elem_of_app, elem_of_cons in *. naive_solver lia.
Qed.

Lemma srep_max s T :
  srep F s T → sorted_by key (elts T) →
  wp SPLAY_MAX (λ r s', r = last (elts T) ∧ ∃ T', srep F s' T' ∧ elts T' = elts T) s.
Proof.
  intros Hr Hs. unfold SPLAY_MAX. eapply wp_seq; [by apply (srep_empty F s T)|].
  cbv beta. intros empty s0 [-> ->]. destruct (decide (T = STip)) as [->|HT].
  { rewrite bool_decide_true by done. apply wp_ret. split; [done|]. by exists STip. }
  rewrite bool_decide_false by done. destruct (key_bounds key (elts T)) as (lo & hi & Hb).
  unfold SPLAY_MIN_MAX, SPLAY_INF. eapply wp_seq.
  { apply (SPLAY_MINMAX_spec s T hi); [done..|]. intros p Hp. specialize (Hb p Hp). lia. }
  cbv beta. intros _ s1 (a & x & b & Hr1 & He & _ & Hb1). apply wp_gets.
  destruct (Hr1) as (-> & _). split; [|eauto]. rewrite <- He. simpl elts.
  destruct b as [|bl y br]; [simpl elts; by rewrite last_snoc|].
  exfalso. specialize (Hb1 y). specialize (Hb y). rewrite <- He in Hb. simpl in Hb1, Hb.
  rewrite !elem_of_app, !elem_of_cons, ?elem_of_app, ?elem_of_cons in *. naive_solver lia.
Qed.

Variable cmp : addr → addr → res Z.

Lemma SPLAY_FOREACH_loop_spec fuel l2 : ∀ l1 s T,
  srep F s T → sorted_by key (elts T) → (∀ x, x ∈ elts T → compares key (key x) (cmp x) (elts T)) →
  elts T = l1 ++ l2 → length l2 < fuel →
  wp (SPLAY_FOREACH_loop cmp fuel (head l2)) (λ r s', r = l2 ∧ ∃ T', srep F s' T' ∧ elts T' = elts T) s.
Proof.
  revert l2; induction fuel as [|fuel IH]; intros l2 l1 s T Hr Hs Hc HT Hf; [lia|].
  destruct l2 as [|x l2]; simpl; [apply wp_ret; eauto|].
  eapply wp_seq; [eapply (srep_next F key (cmp x) x s T l1 l2); [done|done| |done]|].
  { apply Hc. rewrite HT. set_solver. }
  cbv beta. intros r s1 (-> & T1 & Hr1 & HT1). simpl in Hf.
  eapply wp_seq; [eapply (IH l2 (l1 ++ [x]) s1 T1); rewrite ?HT1; [done..| |lia]|].
  { by rewrite HT, <- app_assoc. }
  cbv beta. intros r s2 (-> & T2 & Hr2 & HT2). apply wp_ret. split; [done|]. exists T2.
  by rewrite HT2.
Qed.

Lemma srep_foreach s T :
  srep F s T → sorted_by key (elts T) → (∀ x, x ∈ elts T → compares key (key x) (cmp x) (elts T)) →
  wp (SPLAY_FOREACH cmp) (λ r s', r = elts T ∧ ∃ T', srep F s' T' ∧ elts T' = elts T) s.
Proof.
  intros Hr Hs Hc. unfold SPLAY_FOREACH. apply wp_bind, wp_gets.
  eapply wp_seq; [by apply srep_min|]. cbv beta. intros r s1 (-> & T1 & Hr1 & HT1).
  rewrite <- HT1 in Hs, Hc |- *. eapply (SPLAY_FOREACH_loop_spec _ (elts T1) [] s1 T1); try done.
  rewrite HT1. by eapply srep_length.
Qed.
End minmax.

(** ** A client *)

Definition run_sop (key : addr → Z) (o : setop) : SP ptr :=
  match o with
  | OpInsert x => SPLAY_INSERT (cmp_key key (key x)) (Some x)
  | OpRemove x => SPLAY_REMOVE (cmp_key key (key x)) (Some x)
  | OpFind k => SPLAY_FIND (cmp_key key k)
  | OpMin => SPLAY_MIN
  end.

(** A splay tree with elements [l], in a memory where [D] is allocated. *)
Definition sp_rep (D : gset addr) (s : splay) (l : list addr) : Prop :=
  dom (sp_fields s) = D ∧ ∃ T, srep (sp_fields s) s T ∧ elts T = l.

Lemma sp_rep_intro F s T D :
  srep F s T → dom F = D → (∀ p, p ∈ elts T → p ∈ D) → sp_rep D s (elts T).
Proof.
  intros (Hr & Ht & Hn & Hf) HD Hl. split; [|by exists T]. apply set_eq. intros p. rewrite <- HD.
  destruct (decide (p ∈ elts T)) as [Hp|Hp]; [|by rewrite !elem_of_dom, Hf].
  split; [rewrite HD; auto|]. intros _. apply elem_of_dom. by eapply (tree_at_some s).
Qed.

Lemma sp_rep_elem D s l x : sp_rep D s l → x ∈ l → x ∈ D.
Proof.
  intros (<- & T & (_ & Ht & _) & <-) Hx. apply elem_of_dom. by eapply (tree_at_some s).
Qed.

(** The same elements in a tree of another shape. *)
Lemma sp_rep_same D s l s' :
  sp_rep D s l → (∃ T', srep (sp_fields s) s' T' ∧ elts T' = l) → sp_rep D s' l.
Proof.
  intros Hr (T' & Hr' & <-). pose proof Hr as [HD _]. eapply sp_rep_intro; [done..|].
  intros p Hp. by eapply sp_rep_elem.
Qed.

Lemma run_sop_spec key D o s l :
  sp_rep D s l → sorted_by key l → op_ok D l o →
  wp (run_sop key o) (λ r s', r = (spec_op key o l).1 ∧
    sp_rep D s' (spec_op key o l).2 ∧ sorted_by key (spec_op key o l).2) s.
Proof.
  intros Hrep Hs Hok. pose proof Hrep as (HD & T & Hr & HT). destruct o as [x|x|k|]; simpl in *.
  - destruct Hok as [HxD Hx]. eapply wp_mono.
    { apply (srep_insert (sp_fields s) key (cmp_key key (key x)) x s T); rewrite ?HT; try done.
      - apply cmp_key_compares.
      - apply elem_of_dom. by rewrite HD. }
    cbv beta. rewrite HT. intros [p|] s'.
    + intros (Hp & Hk & HT'). rewrite (lookup_key_some key _ l p) by done.
      split_and!; [done| |done]. by eapply sp_rep_same.
    + intros (l1 & l2 & T' & He & Hsl & Hr' & He'). rewrite lookup_key_none.
      2: { intros y. rewrite He. intros [Hy|Hy]%elem_of_app; apply Hsl in Hy; lia. }
      simpl. rewrite He, (insert_key_slot key _ _ _ Hsl), <- He'. split_and!; [done| |].
      * eapply sp_rep_intro; [done..|]. intros p. rewrite He'. intros Hp.
        rewrite elem_of_app, elem_of_cons in Hp. pose proof (sp_rep_elem D s l p Hrep) as Hin.
        rewrite He, elem_of_app in Hin. naive_solver.
      * rewrite He'. eapply sorted_by_slot; [by rewrite <- He|done..].
  - apply list_elem_of_split in Hok as (l1 & l2 & ->). eapply wp_mono.
    { apply (srep_remove (sp_fields s) key (cmp_key key (key x)) x s T l1 l2); rewrite ?HT; try done.
      apply cmp_key_compares. }
    cbv beta. intros r s' (-> & n & T' & Hr' & He').
    rewrite filter_ne_mid by by eapply sorted_by_NoDup.
    split_and!; [done| |by eapply sorted_by_remove]. rewrite <- He'.
    assert (x ∈ D) as HxD by (eapply sp_rep_elem; [done|set_solver]).
    eapply sp_rep_intro; [done| |].
    + rewrite dom_insert_L, HD. set_solver.
    + intros p. rewrite He'. intros Hp. eapply sp_rep_elem; [done|]. set_solver.
  - eapply wp_mono.
    { apply (srep_find (sp_fields s) key k (cmp_key key k) s T); rewrite ?HT; try done.
      apply cmp_key_compares. }
    cbv beta. rewrite HT. intros [p|] s' [HT' Hp].
    + destruct Hp. rewrite (lookup_key_some key _ l p) by done.
      split_and!; [done| |done]. by eapply sp_rep_same.
    + rewrite lookup_key_none by done. split_and!; [done| |done]. by eapply sp_rep_same.
  - eapply wp_mono; [apply (srep_min (sp_fields s) key s T); by rewrite ?HT|].
    cbv beta. rewrite HT. intros r s' [-> HT']. split_and!; [done| |done]. by eapply sp_rep_same.
Qed.

(** ** Properties *)

(** C17: any sequence of insertions, removals, searches by key and minimum searches on a splay
    tree runs without error and gives exactly the results of the same sequence on a sorted
    list, although every one of them reshapes the tree. *)
Theorem splay_refines_sorted_list key D os s l :
  sp_rep D s l → sorted_by key l → ops_ok key D l os →
  wp (run_ops (run_sop key) os) (λ rs s', rs = (spec_ops key os l).1 ∧
    sp_rep D s' (spec_ops key os l).2 ∧ sorted_by key (spec_ops key os l).2) s.
Proof. apply (run_ops_spec (run_sop key) key D (sp_rep D)). intros. by apply run_sop_spec. Qed.

(** [SPLAY_MIN] and [SPLAY_MAX] return the first and the last element, [SPLAY_NEXT] the
    successor, and [SPLAY_FOREACH] visits all the elements in the order of their keys; each
    leaves a tree of the same elements in the same order. *)
Theorem splay_traversal_correct F s T key cmp :
  srep F s T → sorted_by key (elts T) → (∀ x, x ∈ elts T → compares key (key x) (cmp x) (elts T)) →
  let same := λ s', ∃ T', srep F s' T' ∧ elts T' = elts T in
  wp SPLAY_MIN (λ r s', r = head (elts T) ∧ same s') s ∧
  wp SPLAY_MAX (λ r s', r = last (elts T) ∧ same s') s ∧
  (∀ l1 x l2, elts T = l1 ++ x :: l2 → wp (SPLAY_NEXT (cmp x) (Some x)) (λ r s', r = head l2 ∧ same s') s) ∧
  wp (SPLAY_FOREACH cmp) (λ r s', r = elts T ∧ same s') s.
Proof.
  intros Hr Hs Hc same. split_and!.
  - by eapply srep_min.
  - by eapply srep_max.
  - intros l1 x l2 HT. eapply srep_next; [done..| |done]. apply Hc. rewrite HT. set_solver.
  - by eapply srep_foreach.
Qed.

(** ** Examples *)

Definition splay_key (p : addr) : Z := 10 * Z.pos p.

(** An empty tree and three free elements. *)
Definition example_splay : splay := Splay NULL
  (list_to_map [(1, SEntry NULL NULL); (2, SEntry NULL NULL); (3, SEntry NULL NULL)]%positive)
  (SEntry NULL NULL).

(** The tree 1, 2, 3 with root 3. *)
Definition example_splay3 : splay := Splay (Some 3%positive)
  (list_to_map [(1, SEntry NULL NULL); (2, SEntry (Some 1) NULL); (3, SEntry (Some 2) NULL)]%positive)
  (SEntry NULL NULL).
Definition example_stree : stree := STree (STree (STree STip 1 STip) 2 STip) 3 STip.

Lemma splay_refines_sorted_list_witness :
  wp (run_ops (run_sop splay_key) [OpInsert 2; OpInsert 1; OpInsert 3; OpRemove 2; OpFind 10; OpMin]%positive)
    (λ rs s', rs = [NULL; NULL; NULL; Some 2; Some 1; Some 1]%positive ∧
      sp_rep (dom (sp_fields example_splay)) s' [1; 3]%positive ∧ sorted_by splay_key [1; 3]%positive)
    example_splay.
Proof.
  apply (splay_refines_sorted_list splay_key (dom (sp_fields example_splay))
    [OpInsert 2; OpInsert 1; OpInsert 3; OpRemove 2; OpFind 10; OpMin]%positive example_splay []).
  - split; [done|]. exists STip. split; [|done]. split_and!; [done|done|constructor|done].
  - constructor.
  - assert (∀ x, is_Some (sp_fields example_splay !! x) → x ∈ dom (sp_fields example_splay)) as Hdom.
    { intros x. apply elem_of_dom. }
    split_and!; try (apply Hdom; by eexists); try done; simpl; set_solver.
Defined.

Lemma splay_traversal_correct_witness :
  wp (SPLAY_FOREACH (λ x, cmp_key splay_key (splay_key x)))
    (λ r s', r = [1; 2; 3]%positive ∧
      ∃ T', srep (sp_fields example_splay3) s' T' ∧ elts T' = [1; 2; 3]%positive) example_splay3.
Proof.
  assert (srep (sp_fields example_splay3) example_splay3 example_stree) as Hr.
  { split_and!; [done|by repeat split| |done].
    by repeat (apply NoDup_cons; split; [set_solver|]); apply NoDup_nil. }
  assert (sorted_by splay_key (elts example_stree)) as Hs by repeat constructor.
  exact (proj2 (proj2 (proj2 (splay_traversal_correct (sp_fields example_splay3) example_splay3
    example_stree splay_key (λ x, cmp_key splay_key (splay_key x)) Hr Hs
    (λ x _, cmp_key_compares splay_key (splay_key x) (elts example_stree)))))).
Defined.

Example splay_run :
  match SPLAY_FOREACH (λ x, cmp_key splay_key (splay_key x)) example_splay3 with
  | Ok (l, s) => (l, sph_root s)
  | Err _ => ([], NULL)
  end = ([1; 2; 3]%positive, Some 3%positive).
Proof. vm_compute. reflexivity. Qed.
