(* ===== verification/Kernel.v ===== *)
(** The system interface: the system calls and library functions the program uses, as
    first-order requests, and the class [OS] of their implementations, which is a
    parameter of the model. [OSLaws] states the documented behaviour the safety of the
    scheduler relies on; [ToyOS] is a concrete system that has it. *)

From S2P Require Export Prelude.
From Stdlib Require Export Strings.Byte.

(** ** Constants of the system headers (Linux, x86-64) *)

Definition POLLIN : Z := 0x001.
Definition POLLOUT : Z := 0x004.
Definition POLLERR : Z := 0x008.
Definition POLLHUP : Z := 0x010.
Definition POLLRDNORM : Z := 0x040.
Definition POLLWRNORM : Z := 0x100.
Definition EPOLLIN : Z := 0x001.
Definition EPOLLOUT : Z := 0x004.
Definition EPOLLERR : Z := 0x008.
Definition EPOLLHUP : Z := 0x010.
Definition EPOLLRDNORM : Z := 0x040.
Definition EPOLLWRNORM : Z := 0x100.
Definition EPOLLRDHUP : Z := 0x2000.
Definition EPOLLONESHOT : Z := 2 ^ 30.
Definition EPOLLET : Z := 2 ^ 31.
Definition EPOLL_CTL_ADD : Z := 1.
Definition EPOLL_CTL_DEL : Z := 2.
Definition EPOLL_CTL_MOD : Z := 3.
Definition EFD_NONBLOCK : Z := 0x800.
Definition EINTR : Z := 4.
Definition EAGAIN : Z := 11.
Definition EWOULDBLOCK : Z := EAGAIN.
Definition ENFILE : Z := 23.
Definition EMFILE : Z := 24.
Definition ECONNABORTED : Z := 103.
Definition ECONNRESET : Z := 104.
Definition EINPROGRESS : Z := 115.
Definition INT_MAX : Z := 2 ^ 31 - 1.

(** A socket address, as its bytes. *)
Definition sockaddr : Type := list byte.

(** [struct epoll_event]: [events] and [data.fd]. *)
Record epoll_event : Type := EpollEvent { ev_events : Z; ev_fd : Z }.

(** [struct pollfd]: [fd] and [events]. *)
Record pollfd : Type := PollFd { pfd_fd : Z; pfd_events : Z }.

(** ** Requests *)

(** An atomic operation on a segment of memory that processes share: compare and exchange
    (the result is what was found), addition to an int, reading and writing at an offset. *)
Inductive shm_op : Type :=
  | ShmCas (off size : nat) (old new : Z)
  | ShmAdd (off : nat) (d : Z)
  | ShmRead (off size : nat)
  | ShmWrite (off size : nat) (v : Z).

(** Output buffers are returned next to the result: at most as many bytes as asked. *)
Inductive sysE : Type → Type :=
  | sys_gettimeofday : sysE (Z * Z)                               (* tv_sec, tv_usec *)
  | sys_calloc (used : gset addr) : sysE ptr                      (* a new zeroed object *)
  | sys_posix_memalign : sysE Z
  | sys_getpagesize : sysE Z
  | sys_epoll_create (size : Z) : sysE Z
  | sys_epoll_ctl (epfd op fd : Z) (ev : epoll_event) : sysE Z
  | sys_epoll_wait (epfd maxevents timeout : Z) : sysE (Z * list epoll_event)
  | sys_eventfd (initval flags : Z) : sysE Z
  | sys_poll (fds : list pollfd) (timeout : Z) : sysE Z
  | sys_socket (domain type protocol : Z) : sysE Z
  | sys_fcntl_nonblock (fd : Z) : sysE Z                          (* fcntl(fd, F_SETFL, O_NONBLOCK) *)
  | sys_setsockopt_reuse (fd : Z) : sysE Z                        (* SO_REUSEADDR = 1 *)
  | sys_accept (fd : Z) : sysE (Z * sockaddr)
  | sys_connect (fd : Z) (name : sockaddr) : sysE Z
  | sys_read (fd len : Z) : sysE (Z * list byte)
  | sys_recv (fd len flags : Z) : sysE (Z * list byte)
  | sys_recvfrom (fd len flags : Z) : sysE (Z * list byte * sockaddr)
  | sys_write (fd : Z) (data : list byte) : sysE Z
  | sys_send (fd : Z) (data : list byte) (flags : Z) : sysE Z
  | sys_sendto (fd : Z) (data : list byte) (flags : Z) (dest : sockaddr) : sysE Z
  | sys_close (fd : Z) : sysE Z
  | sys_bind (fd : Z) (name : sockaddr) : sysE Z
  | sys_listen (fd backlog : Z) : sysE Z
  | sys_getsockname (fd : Z) : sysE (Z * sockaddr)
  | sys_fcntl (fd cmd arg : Z) : sysE Z
  | sys_stat (path : list byte) : sysE (Z * Z)                    (* st_mode *)
  | sys_fopen (path : list byte) : sysE (option (list byte))      (* the bytes of the file *)
  | sys_shm (o : shm_op) : sysE Z
  | sys_sleep (secs : Z) : sysE Z
  | sys_gethostbyname (host : list byte) : sysE (option (list byte))   (* the address *)
  | sys_pipe : sysE (Z * Z * Z)                                   (* the two ends *)
  | sys_fork : sysE Z
  | sys_dup2 (oldfd newfd : Z) : sysE Z
  | sys_putenv (s : list byte) : sysE Z
  | sys_execl (path : list byte) : sysE Z
  | sys_waitpid (pid : Z) : sysE Z
  | sys_sigaction (signum : Z) : sysE Z
  | sys_alarm (secs : Z) : sysE Z.

(** A system: its state, and what a call returns, the value it leaves in [errno] when it
    sets it, and the next state. *)
Class OS := {
  kernel : Type;
  sys : ∀ {A}, sysE A → kernel → A * option Z * kernel;
}.

(** ** Documented behaviour *)

(** [wakeable k]: the descriptors whose events [epoll_wait] can report, that is those of
    the interest list except event descriptors nobody writes to, which are [quiet].
    The calls other than [epoll_ctl] add none (in particular the program's own event
    descriptor is never written to). *)
Class OSLaws `{OS} := {
  wakeable : kernel → gset Z;
  quiet : kernel → gset Z;
  calloc_fresh used k a e k' : sys (sys_calloc used) k = (Some a, e, k') → a ∉ used;
  epoll_add_wakeable epfd fd ev k r e k' :
    sys (sys_epoll_ctl epfd EPOLL_CTL_ADD fd ev) k = (r, e, k') →
    ev_fd ev = fd → wakeable k' ⊆ {[fd]} ∪ wakeable k;
  epoll_add_quiet epfd fd ev k r e k' :
    sys (sys_epoll_ctl epfd EPOLL_CTL_ADD fd ev) k = (r, e, k') →
    fd ∈ quiet k → wakeable k' ⊆ wakeable k;
  epoll_del_wakeable epfd fd ev k r e k' :
    sys (sys_epoll_ctl epfd EPOLL_CTL_DEL fd ev) k = (r, e, k') →
    wakeable k' ⊆ wakeable k ∖ {[fd]};
  eventfd_quiet v fl k r e k' :
    sys (sys_eventfd v fl) k = (r, e, k') → r ≠ (-1)%Z → r ∈ quiet k';
  epoll_wait_events epfd max tmo k r evs e k' :
    sys (sys_epoll_wait epfd max tmo) k = (r, evs, e, k') → (0 < max)%Z → r ≠ (-1)%Z →
    r = Z.of_nat (length evs) ∧ (r ≤ max)%Z ∧ NoDup (ev_fd <$> evs) ∧
    (∀ ev, ev ∈ evs → ev_fd ev ∈ wakeable k);
  other_wakeable {A} (s : sysE A) k r e k' :
    sys s k = (r, e, k') →
    match s with sys_epoll_ctl _ _ _ _ => True | _ => wakeable k' ⊆ wakeable k end;
}.
