(* ===== verification/Coroutine.v ===== *)
(** The data of src/core/nty_coroutine.h and the memory the library works on, with the
    functions of src/core/nty_epoll.c and those of src/core/nty_schedule.c and
    src/core/nty_coroutine.c that run without a context switch.

    One memory [mem] holds the coroutines, the tree and queue entries embedded in them,
    the scheduler the thread-specific key points to, [errno] and the system. The
    [co->sched] pointers all point to that one scheduler. Fields no code reads or writes
    (data, co_join, io, compute_sched, pfds, ...) are left out; saved stacks are
    modelled in Stack.v, and the context [ucontext_t ctx] of a coroutine together with its stack is the
    continuation kept by Machine.v. *)

From S2P Require Export Interfaces Kernel.

(** ** Status bits *)

Inductive nty_coroutine_status : Type :=
  | NTY_COROUTINE_STATUS_WAIT_READ
  | NTY_COROUTINE_STATUS_WAIT_WRITE
  | NTY_COROUTINE_STATUS_NEW
  | NTY_COROUTINE_STATUS_READY
  | NTY_COROUTINE_STATUS_EXITED
  | NTY_COROUTINE_STATUS_BUSY
  | NTY_COROUTINE_STATUS_SLEEPING
  | NTY_COROUTINE_STATUS_EXPIRED
  | NTY_COROUTINE_STATUS_FDEOF
  | NTY_COROUTINE_STATUS_DETACH
  | NTY_COROUTINE_STATUS_CANCELLED
  | NTY_COROUTINE_STATUS_PENDING_RUNCOMPUTE
  | NTY_COROUTINE_STATUS_RUNCOMPUTE
  | NTY_COROUTINE_STATUS_WAIT_IO_READ
  | NTY_COROUTINE_STATUS_WAIT_IO_WRITE
  | NTY_COROUTINE_STATUS_WAIT_MULTI.

(** The value of an enumerator. *)
Definition status_value (s : nty_coroutine_status) : Z :=
  match s with
  | NTY_COROUTINE_STATUS_WAIT_READ => 0
  | NTY_COROUTINE_STATUS_WAIT_WRITE => 1
  | NTY_COROUTINE_STATUS_NEW => 2
  | NTY_COROUTINE_STATUS_READY => 3
  | NTY_COROUTINE_STATUS_EXITED => 4
  | NTY_COROUTINE_STATUS_BUSY => 5
  | NTY_COROUTINE_STATUS_SLEEPING => 6
  | NTY_COROUTINE_STATUS_EXPIRED => 7
  | NTY_COROUTINE_STATUS_FDEOF => 8
  | NTY_COROUTINE_STATUS_DETACH => 9
  | NTY_COROUTINE_STATUS_CANCELLED => 10
  | NTY_COROUTINE_STATUS_PENDING_RUNCOMPUTE => 11
  | NTY_COROUTINE_STATUS_RUNCOMPUTE => 12
  | NTY_COROUTINE_STATUS_WAIT_IO_READ => 13
  | NTY_COROUTINE_STATUS_WAIT_IO_WRITE => 14
  | NTY_COROUTINE_STATUS_WAIT_MULTI => 15
  end.

Definition BIT (s : nty_coroutine_status) : Z := Z.shiftl 1 (status_value s).
Definition CLEARBIT (s : nty_coroutine_status) : Z := Z.lnot (Z.shiftl 1 (status_value s)).

(** [status & BIT(s)] as a condition. *)
Definition has_bit (status : Z) (s : nty_coroutine_status) : bool :=
  negb (Z.land status (BIT s) =? 0)%Z.

(** ** Structures *)

Definition NTY_CO_MAX_EVENTS : Z := 1024 * 1024.
Definition NTY_CO_MAX_STACKSIZE : Z := 128 * 1024.

(** [func] is a pointer to the code of a coroutine, [arg] its argument. *)
Record nty_coroutine : Type := NtyCoroutine {
  co_func : Z;
  co_arg : Z;
  co_status : Z;
  co_birth : Z;
  co_id : Z;
  co_fd : Z;
  co_events : Z;
  co_ops : Z;
  co_sleep_usecs : Z;
}.

Record nty_schedule : Type := NtySchedule {
  sched_birth : Z;
  sched_stack_size : Z;
  sched_stack : bool;                       (* stack != NULL *)
  sched_spawned_coroutines : Z;
  sched_default_timeout : Z;
  sched_curr_thread : ptr;
  sched_page_size : Z;
  sched_poller_fd : Z;
  sched_eventfd : Z;
  sched_eventlist : list epoll_event;
  sched_nevents : Z;
  sched_num_new_events : Z;
  sched_busy : ptr;                         (* LIST_HEAD *)
}.

(** The zeroed structures [calloc] returns. *)
Definition coroutine_zero : nty_coroutine := NtyCoroutine 0 0 0 0 0 0 0 0 0.
Definition schedule_zero : nty_schedule := NtySchedule 0 0 false 0 0 NULL 0 0 0 [] 0 0 NULL.

Section memory.
Context `{OS} {T Qt : Type}.

Record mem : Type := Mem {
  m_cos : gmap addr nty_coroutine;
  m_sleeping : T;
  m_waiting : T;
  m_ready : Qt;
  m_defer : Qt;
  m_sched : option nty_schedule;          (* pthread_getspecific(global_sched_key) *)
  m_errno : Z;
  m_kernel : kernel;
}.

Definition with_cos f (m : mem) : mem :=
  Mem (f (m_cos m)) (m_sleeping m) (m_waiting m) (m_ready m) (m_defer m) (m_sched m)
    (m_errno m) (m_kernel m).
Definition with_sleeping t (m : mem) : mem :=
  Mem (m_cos m) t (m_waiting m) (m_ready m) (m_defer m) (m_sched m) (m_errno m) (m_kernel m).
Definition with_waiting t (m : mem) : mem :=
  Mem (m_cos m) (m_sleeping m) t (m_ready m) (m_defer m) (m_sched m) (m_errno m) (m_kernel m).
Definition with_ready q (m : mem) : mem :=
  Mem (m_cos m) (m_sleeping m) (m_waiting m) q (m_defer m) (m_sched m) (m_errno m) (m_kernel m).
Definition with_defer q (m : mem) : mem :=
  Mem (m_cos m) (m_sleeping m) (m_waiting m) (m_ready m) q (m_sched m) (m_errno m) (m_kernel m).
Definition with_sched s (m : mem) : mem :=
  Mem (m_cos m) (m_sleeping m) (m_waiting m) (m_ready m) (m_defer m) s (m_errno m) (m_kernel m).
Definition with_errno e (m : mem) : mem :=
  Mem (m_cos m) (m_sleeping m) (m_waiting m) (m_ready m) (m_defer m) (m_sched m) e (m_kernel m).
Definition with_kernel k (m : mem) : mem :=
  Mem (m_cos m) (m_sleeping m) (m_waiting m) (m_ready m) (m_defer m) (m_sched m) (m_errno m) k.
End memory.
Arguments mem {_} T Qt.

(** ** Field access *)

(** Field updates of the structures. *)
Definition set_co_status v c := NtyCoroutine (co_func c) (co_arg c) v (co_birth c) (co_id c)
  (co_fd c) (co_events c) (co_ops c) (co_sleep_usecs c).
Definition set_co_fd v c := NtyCoroutine (co_func c) (co_arg c) (co_status c) (co_birth c) (co_id c)
  v (co_events c) (co_ops c) (co_sleep_usecs c).
Definition set_co_events v c := NtyCoroutine (co_func c) (co_arg c) (co_status c) (co_birth c) (co_id c)
  (co_fd c) v (co_ops c) (co_sleep_usecs c).
Definition set_co_ops v c := NtyCoroutine (co_func c) (co_arg c) (co_status c) (co_birth c) (co_id c)
  (co_fd c) (co_events c) v (co_sleep_usecs c).
Definition set_co_sleep_usecs v c := NtyCoroutine (co_func c) (co_arg c) (co_status c) (co_birth c)
  (co_id c) (co_fd c) (co_events c) (co_ops c) v.

Definition set_curr_thread v s := NtySchedule (sched_birth s) (sched_stack_size s) (sched_stack s)
  (sched_spawned_coroutines s) (sched_default_timeout s) v (sched_page_size s) (sched_poller_fd s)
  (sched_eventfd s) (sched_eventlist s) (sched_nevents s) (sched_num_new_events s) (sched_busy s).
Definition set_spawned_coroutines v s := NtySchedule (sched_birth s) (sched_stack_size s) (sched_stack s)
  v (sched_default_timeout s) (sched_curr_thread s) (sched_page_size s) (sched_poller_fd s)
  (sched_eventfd s) (sched_eventlist s) (sched_nevents s) (sched_num_new_events s) (sched_busy s).
Definition set_poller_fd v s := NtySchedule (sched_birth s) (sched_stack_size s) (sched_stack s)
  (sched_spawned_coroutines s) (sched_default_timeout s) (sched_curr_thread s) (sched_page_size s) v
  (sched_eventfd s) (sched_eventlist s) (sched_nevents s) (sched_num_new_events s) (sched_busy s).
Definition set_eventfd v s := NtySchedule (sched_birth s) (sched_stack_size s) (sched_stack s)
  (sched_spawned_coroutines s) (sched_default_timeout s) (sched_curr_thread s) (sched_page_size s)
  (sched_poller_fd s) v (sched_eventlist s) (sched_nevents s) (sched_num_new_events s) (sched_busy s).
Definition set_eventlist v s := NtySchedule (sched_birth s) (sched_stack_size s) (sched_stack s)
  (sched_spawned_coroutines s) (sched_default_timeout s) (sched_curr_thread s) (sched_page_size s)
  (sched_poller_fd s) (sched_eventfd s) v (sched_nevents s) (sched_num_new_events s) (sched_busy s).
Definition set_nevents v s := NtySchedule (sched_birth s) (sched_stack_size s) (sched_stack s)
  (sched_spawned_coroutines s) (sched_default_timeout s) (sched_curr_thread s) (sched_page_size s)
  (sched_poller_fd s) (sched_eventfd s) (sched_eventlist s) v (sched_num_new_events s) (sched_busy s).
Definition set_num_new_events v s := NtySchedule (sched_birth s) (sched_stack_size s) (sched_stack s)
  (sched_spawned_coroutines s) (sched_default_timeout s) (sched_curr_thread s) (sched_page_size s)
  (sched_poller_fd s) (sched_eventfd s) (sched_eventlist s) (sched_nevents s) v (sched_busy s).

Section operations.
Context `{OS} {T Qt : Type} `{TreeOps T} `{QueueOps Qt}.

Abbreviation M := (ST (mem T Qt)).

(** A system call; a failing one sets [errno]. *)
Definition syscall {A} (s : sysE A) : M A := λ m,
  let '(a, e, k) := sys s (m_kernel m) in
  Ok (a, with_kernel k (match e with Some e => with_errno e m | None => m end)).

Definition co_load (p : ptr) : M nty_coroutine := λ m,
  match p with
  | None => Err NullDeref
  | Some a => match m_cos m !! a with None => Err Dangling | Some c => Ok (c, m) end
  end.

Definition co_update (p : ptr) (f : nty_coroutine → nty_coroutine) : M unit := λ m,
  match p with
  | None => Err NullDeref
  | Some a =>
      match m_cos m !! a with
      | None => Err Dangling
      | Some c => Ok (tt, with_cos (insert a (f c)) m)
      end
  end.

(** [co->status |= v] and [co->status &= v]. *)
Definition status_or (p : ptr) (v : Z) : M unit :=
  co_update p (λ c, set_co_status (Z.lor (co_status c) v) c).
Definition status_and (p : ptr) (v : Z) : M unit :=
  co_update p (λ c, set_co_status (Z.land (co_status c) v) c).

(** [nty_coroutine_get_sched() == NULL]. *)
Definition sched_is_null : M bool := gets (λ m, negb (bool_decide (is_Some (m_sched m)))).

(** The scheduler, dereferenced. *)
Definition nty_coroutine_get_sched : M nty_schedule := λ m,
  match m_sched m with None => Err NullDeref | Some s => Ok (s, m) end.

Definition sched_update (f : nty_schedule → nty_schedule) : M unit := λ m,
  match m_sched m with
  | None => Err NullDeref
  | Some s => Ok (tt, with_sched (Some (f s)) m)
  end.

(** [co->sched], dereferenced. *)
Definition co_sched (p : ptr) : M nty_schedule := co_load p;; nty_coroutine_get_sched.

(** The containers of the scheduler. *)
Definition sleeping {A} (op : ST T A) : M A := zoom m_sleeping with_sleeping op.
Definition waiting {A} (op : ST T A) : M A := zoom m_waiting with_waiting op.
Definition ready {A} (op : ST Qt A) : M A := zoom m_ready with_ready op.
Definition defer {A} (op : ST Qt A) : M A := zoom m_defer with_defer op.

(** ** Time *)

Definition nty_coroutine_diff_usecs (t1 t2 : Z) : Z := u64 (t2 - t1).

Definition nty_coroutine_usec_now : M Z :=
  t1 ← syscall sys_gettimeofday;
  mret (u64 (t1.1 * 1000000 + t1.2)).

(** ** Comparisons *)

Definition nty_coroutine_sleep_cmp (co1 co2 : nty_coroutine) : Z :=
  if (co_sleep_usecs co1 <? co_sleep_usecs co2)%Z then -1
  else if (co_sleep_usecs co1 =? co_sleep_usecs co2)%Z then 0
  else 1.

Definition nty_coroutine_wait_cmp (co1 co2 : nty_coroutine) : Z :=
  if (co_fd co1 <? co_fd co2)%Z then -1
  else if (co_fd co1 =? co_fd co2)%Z then 0
  else 1.

(** The comparison of the element [co] with the elements of a tree. *)
Definition cmp_with (cmp : nty_coroutine → nty_coroutine → Z) (co : nty_coroutine) (m : mem T Qt) :
    addr → res Z := λ p,
  match m_cos m !! p with None => Err Dangling | Some c => Ok (cmp co c) end.

(** [RB_FIND], [RB_INSERT], [RB_REMOVE] on the two trees. *)
Definition sleep_find (co : ptr) : M ptr :=
  c ← co_load co; m ← gets id;
  sleeping (tree_find (cmp_with nty_coroutine_sleep_cmp c m)).
Definition sleep_insert (co : ptr) : M ptr :=
  c ← co_load co; m ← gets id;
  sleeping (tree_insert (cmp_with nty_coroutine_sleep_cmp c m) co).
Definition sleep_remove (co : ptr) : M ptr := sleeping (tree_remove co).
Definition wait_find (find_it : nty_coroutine) : M ptr :=
  m ← gets id; waiting (tree_find (cmp_with nty_coroutine_wait_cmp find_it m)).
Definition wait_insert (co : ptr) : M ptr :=
  c ← co_load co; m ← gets id;
  waiting (tree_insert (cmp_with nty_coroutine_wait_cmp c m) co).
Definition wait_remove (co : ptr) : M ptr := waiting (tree_remove co).

(** ** Sleeping *)

(** The [while (msecs)] loop: the key is moved on until no other sleeper has it. *)
Fixpoint sleepdown_insert (fuel : nat) (co : ptr) : M unit :=
  match fuel with
  | O => throw OutOfFuel
  | S fuel =>
      co_sched co;;
      co_tmp ← sleep_insert co;
      match co_tmp with
      | Some _ =>
          co_update co (λ c, set_co_sleep_usecs (u64 (co_sleep_usecs c + 1)) c);;
          sleepdown_insert fuel co
      | None => status_or co (BIT NTY_COROUTINE_STATUS_SLEEPING)
      end
  end.

(** One more iteration than there are coroutines. *)
Definition sleepdown_fuel (m : mem T Qt) : nat := S (size (m_cos m)).

Definition nty_schedule_sched_sleepdown (co : ptr) (msecs : Z) : M unit :=
  let usecs := u64 (msecs * 1000) in
  co_sched co;;
  co_tmp ← sleep_find co;
  (match co_tmp with
   | Some _ => co_sched co;; sleep_remove co_tmp;; mret tt
   | None => mret tt
   end);;
  s ← co_sched co;
  now ← nty_coroutine_usec_now;
  co_update co (set_co_sleep_usecs (u64 (nty_coroutine_diff_usecs (sched_birth s) now + usecs)));;
  if negb (msecs =? 0)%Z then
    fuel ← gets sleepdown_fuel;
    sleepdown_insert fuel co
  else mret tt.

Definition nty_schedule_desched_sleepdown (co : ptr) : M unit :=
  c ← co_load co;
  if has_bit (co_status c) NTY_COROUTINE_STATUS_SLEEPING then
    co_sched co;;
    sleep_remove co;;
    status_and co (CLEARBIT NTY_COROUTINE_STATUS_SLEEPING);;
    status_or co (BIT NTY_COROUTINE_STATUS_READY);;
    status_and co (CLEARBIT NTY_COROUTINE_STATUS_EXPIRED)
  else mret tt.

(** ** Waiting for a descriptor *)

Definition nty_schedule_search_wait (fd : Z) : M ptr :=
  let find_it := set_co_fd fd coroutine_zero in
  nty_coroutine_get_sched;;
  co ← wait_find find_it;
  co_update co (set_co_status 0);;
  mret co.

Definition nty_schedule_desched_wait (fd : Z) : M ptr :=
  let find_it := set_co_fd fd coroutine_zero in
  nty_coroutine_get_sched;;
  co ← wait_find find_it;
  (match co with
   | Some _ => co_sched co;; wait_remove co;; mret tt
   | None => mret tt
   end);;
  co_update co (set_co_status 0);;
  nty_schedule_desched_sleepdown co;;
  mret co.

Definition nty_schedule_sched_wait (co : ptr) (fd events timeout : Z) : M unit :=
  c ← co_load co;
  (if has_bit (co_status c) NTY_COROUTINE_STATUS_WAIT_READ ||
      has_bit (co_status c) NTY_COROUTINE_STATUS_WAIT_WRITE
   then c_assert false else mret tt);;
  (if negb (Z.land events POLLIN =? 0)%Z then
     status_or co (status_value NTY_COROUTINE_STATUS_WAIT_READ)
   else if negb (Z.land events POLLOUT =? 0)%Z then
     status_or co (status_value NTY_COROUTINE_STATUS_WAIT_WRITE)
   else c_assert false);;
  co_update co (set_co_fd fd);;
  co_update co (set_co_events events);;
  co_sched co;;
  co_tmp ← wait_insert co;
  c_assert (bool_decide (co_tmp = NULL));;
  if (timeout =? 1)%Z then mret tt
  else nty_schedule_sched_sleepdown co timeout.

Definition nty_schedule_cancel_wait (co : ptr) : M unit :=
  co_sched co;; wait_remove co;; mret tt.

(** ** nty_epoll.c *)

Definition nty_epoller_create : M Z := syscall (sys_epoll_create 1024).

(** The conversion of [t.tv_sec*1000.0 + t.tv_nsec/1000000.0] to [int]: truncation, and
    undefined out of range. The rounding of the doubles does not matter in range:
    the value is a multiple of 1/1000 up to an error below 1/1000000. *)
Definition timeout_ms (tv_sec tv_nsec : Z) : res Z :=
  let ms := Z.quot (tv_sec * 1000000000 + tv_nsec) 1000000 in
  if (ms <=? INT_MAX)%Z then Ok ms else Err Undefined.

Definition nty_epoller_wait (t : Z * Z) : M Z :=
  s ← nty_coroutine_get_sched;
  ms ← of_res (timeout_ms t.1 t.2);
  '(n, evs) ← syscall (sys_epoll_wait (sched_poller_fd s) NTY_CO_MAX_EVENTS ms);
  sched_update (set_eventlist evs);;
  mret n.

Definition nty_epoller_ev_register_trigger : M unit :=
  s ← nty_coroutine_get_sched;
  (if (sched_eventfd s =? 0)%Z then
     fd ← syscall (sys_eventfd 0 EFD_NONBLOCK);
     sched_update (set_eventfd fd);;
     c_assert (negb (fd =? -1)%Z)
   else mret tt);;
  s ← nty_coroutine_get_sched;
  let ev := EpollEvent EPOLLIN (sched_eventfd s) in
  ret ← syscall (sys_epoll_ctl (sched_poller_fd s) EPOLL_CTL_ADD (sched_eventfd s) ev);
  c_assert (negb (ret =? -1)%Z).

(** ** Creation and destruction of the scheduler *)

Definition nty_schedule_free : M unit :=
  s ← nty_coroutine_get_sched;
  (if (sched_poller_fd s >? 0)%Z then syscall (sys_close (sched_poller_fd s));; mret tt
   else mret tt);;
  (if (sched_eventfd s >? 0)%Z then syscall (sys_close (sched_eventfd s));; mret tt
   else mret tt);;
  modify (with_sched None).

(** [None] when the end of the function is reached, which has no [return]. *)
Definition nty_schedule_create (stack_size : Z) : M (option Z) :=
  let sched_stack_size := if (stack_size =? 0)%Z then NTY_CO_MAX_STACKSIZE else stack_size in
  m ← gets id;
  p ← syscall (sys_calloc (dom (m_cos m)));
  match p with
  | None => mret (Some (-1)%Z)
  | Some _ =>
      modify (with_sched (Some schedule_zero));;
      fd ← nty_epoller_create;
      sched_update (set_poller_fd fd);;
      if (fd =? -1)%Z then nty_schedule_free;; mret (Some (-2)%Z)
      else
        nty_epoller_ev_register_trigger;;
        page_size ← syscall sys_getpagesize;
        ret ← syscall sys_posix_memalign;
        c_assert (ret =? 0)%Z;;
        sleeping tree_init;;
        waiting tree_init;;
        birth ← nty_coroutine_usec_now;
        sched_update (λ s, NtySchedule birth sched_stack_size true 0 3000000
          (sched_curr_thread s) page_size (sched_poller_fd s) (sched_eventfd s)
          (sched_eventlist s) (sched_nevents s) (sched_num_new_events s) NULL);;
        ready queue_init;;
        defer queue_init;;
        mret None
  end.

(** ** The steps of the scheduling loop *)

Definition nty_schedule_expired : M ptr :=
  s ← nty_coroutine_get_sched;
  now ← nty_coroutine_usec_now;
  let t_diff_usecs := nty_coroutine_diff_usecs (sched_birth s) now in
  co ← sleeping tree_min;
  match co with
  | None => mret NULL
  | Some _ =>
      c ← co_load co;
      if (co_sleep_usecs c <=? t_diff_usecs)%Z then
        co_sched co;; sleep_remove co;; mret co
      else mret NULL
  end.

Definition nty_schedule_isdone : M bool :=
  s ← nty_coroutine_get_sched;
  m ← gets id;
  e ← ready queue_empty;
  mret (tree_empty (m_waiting m) && bool_decide (sched_busy s = NULL) &&
        tree_empty (m_sleeping m) && e).

Definition nty_schedule_min_timeout : M Z :=
  s ← nty_coroutine_get_sched;
  now ← nty_coroutine_usec_now;
  let t_diff_usecs := nty_coroutine_diff_usecs (sched_birth s) now in
  co ← sleeping tree_min;
  match co with
  | None => mret (sched_default_timeout s)
  | Some _ =>
      c ← co_load co;
      let min := co_sleep_usecs c in
      if (min >? t_diff_usecs)%Z then mret (u64 (min - t_diff_usecs)) else mret 0%Z
  end.

(** [while (1) { nready = nty_epoller_wait(t); ... }] *)
Fixpoint epoll_retry (fuel : nat) (t : Z * Z) : M Z :=
  match fuel with
  | O => throw OutOfFuel
  | S fuel =>
      nready ← nty_epoller_wait t;
      if (nready =? -1)%Z then
        e ← gets m_errno;
        if (e =? EINTR)%Z then epoll_retry fuel t else c_assert false;; mret nready
      else mret nready
  end.

(** The [struct timespec] computed from the time to wait. *)
Definition epoll_timespec (usecs : Z) : Z * Z :=
  let tv_sec := (usecs / 1000000)%Z in
  (tv_sec, if negb (tv_sec =? 0)%Z then u64 (usecs mod 1000 * 1000) else u64 (usecs * 1000)).

Definition nty_schedule_epoll (fuel : nat) : M Z :=
  sched_update (set_num_new_events 0);;
  usecs ← nty_schedule_min_timeout;
  e ← ready queue_empty;
  if negb (usecs =? 0)%Z && e then
    nready ← epoll_retry fuel (epoll_timespec usecs);
    sched_update (set_nevents 0);;
    sched_update (set_num_new_events nready);;
    mret 0%Z
  else mret 0%Z.

(** ** Coroutines *)

Definition nty_coroutine_free (co : ptr) : M unit :=
  match co with
  | None => mret tt
  | Some a =>
      co_sched co;;
      sched_update (λ s, set_spawned_coroutines (i32 (sched_spawned_coroutines s - 1)) s);;
      modify (with_cos (delete a));;
      m ← gets id;
      modify (with_sleeping (tree_release a (m_sleeping m)));;
      modify (with_waiting (tree_release a (m_waiting m)));;
      modify (with_ready (queue_release a (m_ready m)));;
      modify (with_defer (queue_release a (m_defer m)))
  end.

(** [calloc(1, sizeof(nty_coroutine))] *)
Definition calloc_coroutine : M ptr :=
  m ← gets id;
  p ← syscall (sys_calloc (dom (m_cos m)));
  match p with
  | None => mret NULL
  | Some a =>
      modify (with_cos (insert a coroutine_zero));;
      m ← gets id;
      modify (with_sleeping (tree_alloc a (m_sleeping m)));;
      modify (with_waiting (tree_alloc a (m_waiting m)));;
      modify (with_ready (queue_alloc a (m_ready m)));;
      modify (with_defer (queue_alloc a (m_defer m)));;
      mret (Some a)
  end.

(** Returns the result and the pointer stored in [*new_co]. *)
Definition nty_coroutine_create (func arg : Z) : M (Z * ptr) :=
  null ← sched_is_null;
  (if (null : bool) then nty_schedule_create 0;; mret tt else mret tt);;
  null ← sched_is_null;
  if (null : bool) then mret ((-1)%Z, NULL)
  else
    co ← calloc_coroutine;
    match co with
    | None => mret ((-2)%Z, NULL)
    | Some _ =>
        s ← nty_coroutine_get_sched;
        sched_update (set_spawned_coroutines (i32 (sched_spawned_coroutines s + 1)));;
        birth ← nty_coroutine_usec_now;
        co_update co (λ c, NtyCoroutine func arg (BIT NTY_COROUTINE_STATUS_NEW) birth
          (u64 (sched_spawned_coroutines s)) (-1) 0 (co_ops c) (co_sleep_usecs c));;
        co_sched co;;
        ready (queue_insert_tail co);;
        mret (0%Z, co)
    end.

(** The part of [nty_coroutine_init] that is not the context. *)
Definition nty_coroutine_init (co : ptr) : M unit :=
  co_sched co;;
  co_update co (set_co_status (BIT NTY_COROUTINE_STATUS_READY)).

Definition nty_coroutine_detach : M unit :=
  s ← nty_coroutine_get_sched;
  status_or (sched_curr_thread s) (BIT NTY_COROUTINE_STATUS_DETACH).
End operations.
Arguments cmp_with {_ T Qt} cmp co m p.
