(* ===== verification/CoroutineSpec.v ===== *)
(** What the operations of Coroutine.v do: the well-formedness of the memory and a
    total-correctness triple for every operation. *)

From S2P Require Export Coroutine.

(** ** Status bits *)

Lemma has_bit_or_same v s : (0 ≤ v)%Z → has_bit (Z.lor v (BIT s)) s = true.
Proof.
  intros Hv. unfold has_bit, BIT. apply negb_true_iff, Z.eqb_neq. intros H.
  apply (f_equal (λ z, Z.testbit z (status_value s))) in H.
  rewrite Z.land_spec, Z.lor_spec, Z.bits_0 in H.
  rewrite Z.shiftl_1_l, Z.pow2_bits_true in H by (by destruct s). by rewrite orb_true_r in H.
Qed.

(** [status & BIT(s)] reads the bit of [s]. *)
Lemma has_bit_testbit v s : has_bit v s = Z.testbit v (status_value s).
Proof.
  assert (0 ≤ status_value s)%Z as Hs by by destruct s.
  unfold has_bit, BIT. rewrite Z.shiftl_1_l. destruct (Z.testbit v (status_value s)) eqn:E.
  - apply negb_true_iff, Z.eqb_neq. intros H. apply (f_equal (λ z, Z.testbit z (status_value s))) in H.
    by rewrite Z.land_spec, Z.pow2_bits_true, E, Z.bits_0 in H.
  - apply negb_false_iff, Z.eqb_eq. apply Z.bits_inj'. intros n Hn.
    rewrite Z.land_spec, Z.pow2_bits_eqb, Z.bits_0 by done.
    destruct (Z.eqb_spec (status_value s) n) as [<-|]; [by rewrite E|by rewrite andb_false_r].
Qed.

Lemma testbit_BIT s s' : Z.testbit (BIT s) (status_value s') = bool_decide (status_value s = status_value s').
Proof. by destruct s, s'. Qed.

Lemma testbit_CLEARBIT s s' :
  Z.testbit (CLEARBIT s) (status_value s') = negb (bool_decide (status_value s = status_value s')).
Proof. by destruct s, s'. Qed.

(** ** Rules *)

Section rules.
Context `{OS} {T Qt : Type} `{!TreeOps T} `{!QueueOps Qt}.
Implicit Types m : mem T Qt.

(** The memory after a system call. *)
Definition sys_result (e : option Z) (k : kernel) m : mem T Qt :=
  with_kernel k (match e with Some e => with_errno e m | None => m end).

Lemma with_cos_twice a c c' m :
  with_cos (insert a c') (with_cos (insert a c) m) = with_cos (insert a c') m.
Proof. unfold with_cos. simpl. by rewrite insert_insert_eq. Qed.

Lemma wp_syscall {A} (s : sysE A) (Q : A → mem T Qt → Prop) m :
  (∀ a e k, sys s (m_kernel m) = (a, e, k) → Q a (sys_result e k m)) → wp (syscall s) Q m.
Proof.
  intros HQ. unfold wp, syscall. destruct (sys s (m_kernel m)) as [[a e] k] eqn:E. by apply HQ.
Qed.

Lemma wp_co_load a c (Q : nty_coroutine → mem T Qt → Prop) m :
  m_cos m !! a = Some c → Q c m → wp (co_load (Some a)) Q m.
Proof. unfold wp, co_load. by intros ->. Qed.

Lemma wp_co_update a c f (Q : unit → mem T Qt → Prop) m :
  m_cos m !! a = Some c → Q tt (with_cos (insert a (f c)) m) → wp (co_update (Some a) f) Q m.
Proof. unfold wp, co_update. by intros ->. Qed.

Lemma wp_get_sched s (Q : nty_schedule → mem T Qt → Prop) m :
  m_sched m = Some s → Q s m → wp nty_coroutine_get_sched Q m.
Proof. unfold wp, nty_coroutine_get_sched. by intros ->. Qed.

Lemma wp_sched_update s f (Q : unit → mem T Qt → Prop) m :
  m_sched m = Some s → Q tt (with_sched (Some (f s)) m) → wp (sched_update f) Q m.
Proof. unfold wp, sched_update. by intros ->. Qed.

Lemma wp_co_sched a c s (Q : nty_schedule → mem T Qt → Prop) m :
  m_cos m !! a = Some c → m_sched m = Some s → Q s m → wp (co_sched (Some a)) Q m.
Proof. intros. eapply wp_bind, wp_co_load; [done|]. by eapply wp_get_sched. Qed.

Lemma wp_zoom {S A} (prj : mem T Qt → S) upd (o : ST S A) (P : A → S → Prop)
    (Q : A → mem T Qt → Prop) m :
  wp o P (prj m) → (∀ a t, P a t → Q a (upd t m)) → wp (zoom prj upd o) Q m.
Proof. unfold wp, zoom. destruct (o (prj m)) as [[a t]|]; naive_solver. Qed.

Lemma wp_assert b (Q : unit → mem T Qt → Prop) m : b = true → Q tt m → wp (c_assert b) Q m.
Proof. by intros ->. Qed.
End rules.

(** ** Well-formed memories *)

(** The keys of the two trees. *)
Definition sleep_key (cos : gmap addr nty_coroutine) (a : addr) : Z :=
  from_option co_sleep_usecs 0%Z (cos !! a).
Definition wait_key (cos : gmap addr nty_coroutine) (a : addr) : Z :=
  from_option co_fd 0%Z (cos !! a).

Section wellformed.
Context `{OS} {T Qt : Type} `{TreeLaws T} `{QueueLaws Qt}.
Implicit Types m : mem T Qt.

(** The coroutines allocated are those of [D]; the sleepers are [ls], in the order of
    their deadlines, the waiting ones [lw], in the order of their descriptors, the ready
    ones [lr], in the order of arrival. *)
Record wf (D : gset addr) (ls lw lr : list addr) (m : mem T Qt) : Prop := {
  wf_dom : dom (m_cos m) = D;
  wf_sleeping : tree_rep (m_sleeping m) D ls;
  wf_waiting : tree_rep (m_waiting m) D lw;
  wf_ready : queue_rep (m_ready m) D lr;
  wf_defer : queue_rep (m_defer m) D [];
  wf_sleep_sorted : sorted_by (sleep_key (m_cos m)) ls;
  wf_wait_sorted : sorted_by (wait_key (m_cos m)) lw;
}.

Lemma wf_lookup D ls lw lr m a : wf D ls lw lr m → a ∈ D → ∃ c, m_cos m !! a = Some c.
Proof. intros Hwf Ha. rewrite <- (wf_dom _ _ _ _ _ Hwf) in Ha. by apply elem_of_dom in Ha. Qed.

Lemma wf_sleep_length D ls lw lr m : wf D ls lw lr m → length ls ≤ size (m_cos m).
Proof.
  intros [HD Hs _ _ _ _ _]. rewrite <- size_dom, HD.
  rewrite <- (size_list_to_set (C := gset addr)) by (by eapply tree_rep_NoDup).
  apply subseteq_size. intros x. rewrite elem_of_list_to_set. by eapply tree_rep_elem.
Qed.

(** Only the coroutines and the containers matter. *)
Lemma wf_same D ls lw lr m m' :
  m_cos m' = m_cos m → m_sleeping m' = m_sleeping m → m_waiting m' = m_waiting m →
  m_ready m' = m_ready m → m_defer m' = m_defer m →
  wf D ls lw lr m → wf D ls lw lr m'.
Proof. intros E1 E2 E3 E4 E5 []. constructor; by rewrite ?E1, ?E2, ?E3, ?E4, ?E5. Qed.

Lemma wf_sys_result D ls lw lr e k m :
  wf D ls lw lr m → wf D ls lw lr (sys_result e k m).
Proof. by apply wf_same; destruct e. Qed.

Lemma wf_with_sched D ls lw lr s m : wf D ls lw lr m → wf D ls lw lr (with_sched s m).
Proof. by apply wf_same. Qed.

Lemma wf_with_errno D ls lw lr e m : wf D ls lw lr m → wf D ls lw lr (with_errno e m).
Proof. by apply wf_same. Qed.

(** Updating a coroutine without moving it in the trees. *)
Lemma wf_update D ls lw lr m a c c' :
  wf D ls lw lr m → m_cos m !! a = Some c →
  (a ∈ ls → co_sleep_usecs c' = co_sleep_usecs c) → (a ∈ lw → co_fd c' = co_fd c) →
  wf D ls lw lr (with_cos (insert a c') m).
Proof.
  intros [] Ha Hs Hw. constructor; simpl; try done.
  - rewrite dom_insert_L. apply elem_of_dom_2 in Ha. set_solver.
  - eapply sorted_by_ext; [|done]. intros x Hx. unfold sleep_key.
    destruct (decide (a = x)) as [->|]; [|by rewrite lookup_insert_ne].
    rewrite lookup_insert_eq, Ha. simpl. by rewrite Hs.
  - eapply sorted_by_ext; [|done]. intros x Hx. unfold wait_key.
    destruct (decide (a = x)) as [->|]; [|by rewrite lookup_insert_ne].
    rewrite lookup_insert_eq, Ha. simpl. by rewrite Hw.
Qed.

(** ** Comparisons *)

Lemma sleep_compares D ls lw lr m c :
  wf D ls lw lr m →
  compares (sleep_key (m_cos m)) (co_sleep_usecs c) (cmp_with nty_coroutine_sleep_cmp c m) ls.
Proof.
  intros Hwf p Hp. destruct (wf_lookup _ _ _ _ _ p Hwf) as [cp Hcp].
  { eapply tree_rep_elem; [by eapply wf_sleeping|done]. }
  unfold cmp_with, sleep_key. rewrite Hcp. simpl. eexists; split; [done|].
  unfold nty_coroutine_sleep_cmp.
  destruct (Z.ltb_spec (co_sleep_usecs c) (co_sleep_usecs cp)); simpl; [lia|].
  destruct (Z.eqb_spec (co_sleep_usecs c) (co_sleep_usecs cp)); simpl; lia.
Qed.

Lemma wait_compares D ls lw lr m c :
  wf D ls lw lr m →
  compares (wait_key (m_cos m)) (co_fd c) (cmp_with nty_coroutine_wait_cmp c m) lw.
Proof.
  intros Hwf p Hp. destruct (wf_lookup _ _ _ _ _ p Hwf) as [cp Hcp].
  { eapply tree_rep_elem; [by eapply wf_waiting|done]. }
  unfold cmp_with, wait_key. rewrite Hcp. simpl. eexists; split; [done|].
  unfold nty_coroutine_wait_cmp.
  destruct (Z.ltb_spec (co_fd c) (co_fd cp)); simpl; [lia|].
  destruct (Z.eqb_spec (co_fd c) (co_fd cp)); simpl; lia.
Qed.

(** ** The trees and the queue of a well-formed memory *)

Lemma wp_sleep_find D ls lw lr m a c (Q : ptr → mem T Qt → Prop) :
  wf D ls lw lr m → m_cos m !! a = Some c →
  (∀ p, p ∈ ls → sleep_key (m_cos m) p = co_sleep_usecs c → Q (Some p) m) →
  ((∀ p, p ∈ ls → sleep_key (m_cos m) p ≠ co_sleep_usecs c) → Q NULL m) →
  wp (sleep_find (Some a)) Q m.
Proof.
  intros Hwf Ha HS HN. unfold sleep_find, sleeping.
  eapply wp_bind, wp_co_load; [done|]. apply wp_bind, wp_gets. eapply wp_zoom.
  - eapply tree_find_spec; [by eapply wf_sleeping|by eapply wf_sleep_sorted|by eapply sleep_compares].
  - intros [p|] t (-> & Hp); destruct m; naive_solver.
Qed.

Lemma wp_wait_find D ls lw lr m c (Q : ptr → mem T Qt → Prop) :
  wf D ls lw lr m →
  (∀ p, p ∈ lw → wait_key (m_cos m) p = co_fd c → Q (Some p) m) →
  ((∀ p, p ∈ lw → wait_key (m_cos m) p ≠ co_fd c) → Q NULL m) →
  wp (wait_find c) Q m.
Proof.
  intros Hwf HS HN. unfold wait_find, waiting. apply wp_bind, wp_gets. eapply wp_zoom.
  - eapply tree_find_spec; [by eapply wf_waiting|by eapply wf_wait_sorted|by eapply wait_compares].
  - intros [p|] t (-> & Hp); destruct m; naive_solver.
Qed.

Lemma wp_sleep_insert D ls lw lr m a c (Q : ptr → mem T Qt → Prop) :
  wf D ls lw lr m → m_cos m !! a = Some c → a ∉ ls →
  (∀ p, p ∈ ls → sleep_key (m_cos m) p = co_sleep_usecs c → Q (Some p) m) →
  (∀ l1 l2 t, ls = l1 ++ l2 → slot (sleep_key (m_cos m)) (co_sleep_usecs c) l1 l2 →
    wf D (l1 ++ a :: l2) lw lr (with_sleeping t m) → Q NULL (with_sleeping t m)) →
  wp (sleep_insert (Some a)) Q m.
Proof.
  intros Hwf Ha Hnew HS HN. unfold sleep_insert, sleeping.
  eapply wp_bind, wp_co_load; [done|]. apply wp_bind, wp_gets. eapply wp_zoom.
  - eapply tree_insert_spec; [by eapply wf_sleeping|by eapply wf_sleep_sorted
      |by eapply sleep_compares| |done].
    rewrite <- (wf_dom _ _ _ _ _ Hwf). by eapply elem_of_dom_2.
  - intros [p|] t.
    + intros (Hp & Hk & ->). destruct m; by apply HS.
    + intros (l1 & l2 & -> & Hsl & Hrep). apply HN with l1 l2; [done..|].
      destruct Hwf. constructor; simpl; try done.
      eapply sorted_by_slot; [done|done|]. unfold sleep_key. by rewrite Ha.
Qed.

Lemma wp_wait_insert D ls lw lr m a c (Q : ptr → mem T Qt → Prop) :
  wf D ls lw lr m → m_cos m !! a = Some c → a ∉ lw →
  (∀ p, p ∈ lw → wait_key (m_cos m) p = co_fd c → Q (Some p) m) →
  (∀ l1 l2 t, lw = l1 ++ l2 → slot (wait_key (m_cos m)) (co_fd c) l1 l2 →
    wf D ls (l1 ++ a :: l2) lr (with_waiting t m) → Q NULL (with_waiting t m)) →
  wp (wait_insert (Some a)) Q m.
Proof.
  intros Hwf Ha Hnew HS HN. unfold wait_insert, waiting.
  eapply wp_bind, wp_co_load; [done|]. apply wp_bind, wp_gets. eapply wp_zoom.
  - eapply tree_insert_spec; [by eapply wf_waiting|by eapply wf_wait_sorted
      |by eapply wait_compares| |done].
    rewrite <- (wf_dom _ _ _ _ _ Hwf). by eapply elem_of_dom_2.
  - intros [p|] t.
    + intros (Hp & Hk & ->). destruct m; by apply HS.
    + intros (l1 & l2 & -> & Hsl & Hrep). apply HN with l1 l2; [done..|].
      destruct Hwf. constructor; simpl; try done.
      eapply sorted_by_slot; [done|done|]. unfold wait_key. by rewrite Ha.
Qed.

Lemma wp_sleep_remove D ls lw lr m a (Q : ptr → mem T Qt → Prop) :
  wf D ls lw lr m → a ∈ ls →
  (∀ l1 l2 t, ls = l1 ++ a :: l2 → wf D (l1 ++ l2) lw lr (with_sleeping t m) →
    Q (Some a) (with_sleeping t m)) →
  wp (sleep_remove (Some a)) Q m.
Proof.
  intros Hwf Ha HQ. unfold sleep_remove, sleeping. eapply wp_zoom.
  - eapply tree_remove_spec; [by eapply wf_sleeping|done].
  - intros r t (-> & l1 & l2 & -> & Hrep). apply HQ with l1 l2; [done|].
    destruct Hwf. constructor; simpl; try done. by eapply sorted_by_remove.
Qed.

Lemma wp_wait_remove D ls lw lr m a (Q : ptr → mem T Qt → Prop) :
  wf D ls lw lr m → a ∈ lw →
  (∀ l1 l2 t, lw = l1 ++ a :: l2 → wf D ls (l1 ++ l2) lr (with_waiting t m) →
    Q (Some a) (with_waiting t m)) →
  wp (wait_remove (Some a)) Q m.
Proof.
  intros Hwf Ha HQ. unfold wait_remove, waiting. eapply wp_zoom.
  - eapply tree_remove_spec; [by eapply wf_waiting|done].
  - intros r t (-> & l1 & l2 & -> & Hrep). apply HQ with l1 l2; [done|].
    destruct Hwf. constructor; simpl; try done. by eapply sorted_by_remove.
Qed.

Lemma wp_sleep_min D ls lw lr m (Q : ptr → mem T Qt → Prop) :
  wf D ls lw lr m → Q (head ls) m → wp (sleeping tree_min) Q m.
Proof.
  intros Hwf HQ. eapply wp_zoom; [eapply tree_min_spec; by eapply wf_sleeping|].
  intros r t [-> ->]. by destruct m.
Qed.

Lemma wp_ready_empty D ls lw lr m (Q : bool → mem T Qt → Prop) :
  wf D ls lw lr m → Q (bool_decide (lr = [])) m → wp (ready queue_empty) Q m.
Proof.
  intros Hwf HQ. eapply wp_zoom; [eapply queue_empty_spec; by eapply wf_ready|].
  intros r t [-> ->]. by destruct m.
Qed.

Lemma wp_ready_first D ls lw lr m (Q : ptr → mem T Qt → Prop) :
  wf D ls lw lr m → Q (head lr) m → wp (ready queue_first) Q m.
Proof.
  intros Hwf HQ. eapply wp_zoom; [eapply queue_first_spec; by eapply wf_ready|].
  intros r t [-> ->]. by destruct m.
Qed.

Lemma wp_ready_last D ls lw lr m (Q : ptr → mem T Qt → Prop) :
  wf D ls lw lr m → Q (last lr) m → wp (ready queue_last) Q m.
Proof.
  intros Hwf HQ. eapply wp_zoom; [eapply queue_last_spec; by eapply wf_ready|].
  intros r t [-> ->]. by destruct m.
Qed.

Lemma wp_ready_insert_tail D ls lw lr m a (Q : unit → mem T Qt → Prop) :
  wf D ls lw lr m → a ∈ D → a ∉ lr →
  (∀ q, wf D ls lw (lr ++ [a]) (with_ready q m) → Q tt (with_ready q m)) →
  wp (ready (queue_insert_tail (Some a))) Q m.
Proof.
  intros Hwf Ha Hnew HQ. eapply wp_zoom; [eapply queue_insert_tail_spec; [by eapply wf_ready|done..]|].
  intros [] q Hq. apply HQ. destruct Hwf. by constructor.
Qed.

Lemma wp_ready_remove D ls lw l1 a l2 m (Q : unit → mem T Qt → Prop) :
  wf D ls lw (l1 ++ a :: l2) m →
  (∀ q, wf D ls lw (l1 ++ l2) (with_ready q m) → Q tt (with_ready q m)) →
  wp (ready (queue_remove (Some a))) Q m.
Proof.
  intros Hwf HQ. eapply wp_zoom; [eapply queue_remove_spec; by eapply wf_ready|].
  intros [] q Hq. apply HQ. destruct Hwf. by constructor.
Qed.

(** ** Creation and destruction *)

Lemma wf_elems D ls lw lr m x : wf D ls lw lr m → x ∈ ls ∨ x ∈ lw ∨ x ∈ lr → x ∈ D.
Proof.
  intros [] [Hx|[Hx|Hx]]; [eapply (tree_rep_elem (m_sleeping m))|eapply (tree_rep_elem (m_waiting m))
    |eapply (queue_rep_elem (m_ready m))]; done.
Qed.

Lemma sorted_by_insert_fresh (key : gmap addr nty_coroutine → addr → Z) cos a c l :
  (∀ x, a ≠ x → key (<[a := c]> cos) x = key cos x) → a ∉ l →
  sorted_by (key cos) l → sorted_by (key (<[a := c]> cos)) l.
Proof.
  intros Hk Ha. apply sorted_by_ext. intros x Hx. symmetry. apply Hk. by intros ->.
Qed.

(** The entries of a new coroutine. *)
Definition alloc_entries a m : mem T Qt :=
  with_defer (queue_alloc a (m_defer m)) (with_ready (queue_alloc a (m_ready m))
    (with_waiting (tree_alloc a (m_waiting m)) (with_sleeping (tree_alloc a (m_sleeping m))
      (with_cos (insert a coroutine_zero) m)))).

Lemma wf_alloc D ls lw lr m a :
  wf D ls lw lr m → a ∉ D → wf ({[a]} ∪ D) ls lw lr (alloc_entries a m).
Proof.
  intros Hwf Ha. pose proof (wf_elems _ _ _ _ _ a Hwf) as Hin. destruct Hwf.
  constructor; simpl.
  - by rewrite dom_insert_L, wf_dom0.
  - by apply tree_alloc_spec.
  - by apply tree_alloc_spec.
  - by apply queue_alloc_spec.
  - by apply queue_alloc_spec.
  - apply sorted_by_insert_fresh; [|tauto|done].
    intros x Hx. unfold sleep_key. by rewrite lookup_insert_ne.
  - apply sorted_by_insert_fresh; [|tauto|done].
    intros x Hx. unfold wait_key. by rewrite lookup_insert_ne.
Qed.

Definition release_entries a m : mem T Qt :=
  with_defer (queue_release a (m_defer m)) (with_ready (queue_release a (m_ready m))
    (with_waiting (tree_release a (m_waiting m)) (with_sleeping (tree_release a (m_sleeping m))
      (with_cos (delete a) m)))).

(** A coroutine that is in no container can be freed. *)
Lemma wf_release D ls lw lr m a :
  wf D ls lw lr m → a ∉ ls → a ∉ lw → a ∉ lr → wf (D ∖ {[a]}) ls lw lr (release_entries a m).
Proof.
  intros [] Hs Hw Hr. constructor; simpl.
  - by rewrite dom_delete_L, wf_dom0.
  - by apply tree_release_spec.
  - by apply tree_release_spec.
  - by apply queue_release_spec.
  - apply queue_release_spec; [done|]. by apply not_elem_of_nil.
  - eapply sorted_by_ext; [|done]. intros x Hx. unfold sleep_key.
    rewrite lookup_delete_ne; [done|]. by intros ->.
  - eapply sorted_by_ext; [|done]. intros x Hx. unfold wait_key.
    rewrite lookup_delete_ne; [done|]. by intros ->.
Qed.

Lemma free_spec D ls lw lr s a c m :
  wf D ls lw lr m → m_sched m = Some s → m_cos m !! a = Some c →
  a ∉ ls → a ∉ lw → a ∉ lr →
  wp (nty_coroutine_free (Some a)) (λ _ m', wf (D ∖ {[a]}) ls lw lr m' ∧
    m' = with_sched (Some (set_spawned_coroutines (i32 (sched_spawned_coroutines s - 1)) s))
           (release_entries a m)) m.
Proof.
  intros Hwf Hs Ha ???. eapply wp_bind, wp_co_sched; [done|done|].
  eapply wp_bind, wp_sched_update; [done|]. apply wp_bind, wp_modify, wp_bind, wp_gets.
  apply wp_bind, wp_modify, wp_bind, wp_modify, wp_bind, wp_modify, wp_modify.
  split; [|done]. by apply (wf_with_sched _ _ _ _ _ (release_entries a m)), wf_release.
Qed.

Section fresh.
Context `{!OSLaws}.

Lemma calloc_spec D ls lw lr m :
  wf D ls lw lr m →
  wp calloc_coroutine (λ r m', ∃ e k, wakeable k ⊆ wakeable (m_kernel m) ∧
    match r with
    | None => m' = sys_result e k m
    | Some a => (a ∉ D) ∧ m' = alloc_entries a (sys_result e k m)
    end) m.
Proof.
  intros Hwf. apply wp_bind, wp_gets, wp_bind, wp_syscall. simpl. intros r e k Hk.
  pose proof (other_wakeable _ _ _ _ _ Hk) as Hw. simpl in Hw.
  destruct r as [a|]; [|apply wp_ret; by exists e, k].
  pose proof (calloc_fresh _ _ _ _ _ Hk) as Ha. rewrite (wf_dom _ _ _ _ _ Hwf) in Ha.
  apply wp_bind, wp_modify, wp_bind, wp_gets, wp_bind, wp_modify, wp_bind, wp_modify,
    wp_bind, wp_modify, wp_bind, wp_modify, wp_ret.
  exists e, k. split_and!; [done|done|]. by destruct e.
Qed.
End fresh.
End wellformed.
