(* ===== verification/ScheduleSpec.v ===== *)
(** The functions of src/core/nty_schedule.c on well-formed memories: putting a coroutine
    to sleep, waiting for descriptors, deadlines, the time given to [epoll_wait]. *)

From S2P Require Export CoroutineSpec.

(** ** Arithmetic of 64-bit deadlines *)

Lemma u64_add_inj k i j :
  (0 ≤ i < 2 ^ 64)%Z → (0 ≤ j < 2 ^ 64)%Z → u64 (k + i) = u64 (k + j) → i = j.
Proof.
  unfold u64. intros Hi Hj He.
  pose proof (Z.div_mod (k + i) (2 ^ 64) ltac:(lia)). pose proof (Z.div_mod (k + j) (2 ^ 64) ltac:(lia)).
  nia.
Qed.

Lemma u64_succ k : u64 (u64 k + 1) = u64 (k + 1).
Proof. unfold u64. by rewrite Zplus_mod_idemp_l. Qed.

(** [n] consecutive keys, all taken by the elements of a list shorter than [2^64]. *)
Lemma keys_pigeonhole {A} (key : A → Z) (l : list A) k n :
  (∀ i, i < n → ∃ p, p ∈ l ∧ key p = u64 (k + Z.of_nat i)) →
  (Z.of_nat n < 2 ^ 64)%Z → n ≤ length l.
Proof.
  intros Hocc Hn.
  assert ((λ i, u64 (k + Z.of_nat i)) <$> seq 0 n ⊆+ key <$> l) as Hsub.
  { apply NoDup_submseteq.
    - apply NoDup_fmap_2_strong; [|apply NoDup_seq].
      intros x y Hx%elem_of_seq Hy%elem_of_seq E. apply u64_add_inj in E; lia.
    - intros z (i & -> & Hi%elem_of_seq)%list_elem_of_fmap.
      destruct (Hocc i) as (p & Hp & <-); [lia|]. by apply list_elem_of_fmap_2. }
  apply submseteq_length in Hsub. by rewrite !length_fmap, length_seq in Hsub.
Qed.

Section spec.
Context `{OS} {T Qt : Type} `{TreeLaws T} `{QueueLaws Qt}.
Implicit Types m : mem T Qt.

(** ** Sleeping *)

(** [k] is taken as a key by an element of [ls]. *)
Definition taken (cos : gmap addr nty_coroutine) (ls : list addr) (k : Z) : Prop :=
  ∃ p, p ∈ ls ∧ sleep_key cos p = k.

(** [k0 + j] is the first key from [k0] on that is free. *)
Definition first_free (cos : gmap addr nty_coroutine) (ls : list addr) (k0 : Z) (j : nat) : Prop :=
  ¬ taken cos ls (u64 (k0 + Z.of_nat j)) ∧
  ∀ i, i < j → taken cos ls (u64 (k0 + Z.of_nat i)).

Lemma sleep_key_insert cos a c p : a ≠ p → sleep_key (<[a := c]> cos) p = sleep_key cos p.
Proof. intros. unfold sleep_key. by rewrite lookup_insert_ne. Qed.

Lemma taken_insert cos ls a c k : a ∉ ls → taken (<[a := c]> cos) ls k ↔ taken cos ls k.
Proof.
  intros Ha. split; intros (p & Hp & Hk); exists p; (split; [done|]);
    rewrite sleep_key_insert in *; try done; by intros ->.
Qed.

Lemma taken_bound cos ls k0 i :
  (∀ i', i' < i → taken cos ls (u64 (k0 + Z.of_nat i'))) →
  (Z.of_nat (length ls) < 2 ^ 64 - 1)%Z → i ≤ length ls.
Proof.
  intros Hocc Hlen. apply (keys_pigeonhole (sleep_key cos) ls k0 i); [done|].
  destruct (decide (Z.of_nat i < 2 ^ 64)%Z) as [|Hi]; [done|exfalso].
  assert (Z.to_nat (2 ^ 64 - 1) ≤ length ls); [|lia].
  apply (keys_pigeonhole (sleep_key cos) ls k0); [|lia]. intros j Hj. apply Hocc. lia.
Qed.

Definition asleep (k : Z) (c : nty_coroutine) : nty_coroutine :=
  set_co_status (Z.lor (co_status c) (BIT NTY_COROUTINE_STATUS_SLEEPING)) (set_co_sleep_usecs k c).

Lemma sleepdown_insert_spec D ls lw lr s a k0 fuel : ∀ i m c,
  wf D ls lw lr m → m_sched m = Some s → m_cos m !! a = Some c → a ∉ ls →
  co_sleep_usecs c = u64 (k0 + Z.of_nat i) →
  (∀ i', i' < i → taken (m_cos m) ls (u64 (k0 + Z.of_nat i'))) →
  length ls < fuel + i → (Z.of_nat (length ls) < 2 ^ 64 - 1)%Z →
  wp (sleepdown_insert fuel (Some a)) (λ _ m', ∃ j l1 l2 t, ls = l1 ++ l2 ∧
    first_free (m_cos m) ls k0 j ∧ wf D (l1 ++ a :: l2) lw lr m' ∧
    m' = with_sleeping t (with_cos (insert a (asleep (u64 (k0 + Z.of_nat j)) c)) m)) m.
Proof.
  induction fuel as [|fuel IH]; intros i m c Hwf Hs Ha Hnew Hk Hocc Hf Hlen.
  { apply taken_bound in Hocc; lia. }
  simpl. eapply wp_bind, wp_co_sched; [done|done|].
  apply wp_bind. eapply wp_sleep_insert; [done|done|done|..].
  - intros p Hp Hkp. apply wp_bind. eapply wp_co_update; [done|].
    rewrite Hk, u64_succ. eapply wp_mono.
    { eapply (IH (S i)).
      - eapply wf_update; [done|done|done|done].
      - done.
      - apply lookup_insert_eq.
      - done.
      - simpl. f_equal. lia.
      - intros i' Hi'. simpl. rewrite taken_insert by done.
        destruct (decide (i' = i)) as [->|]; [|apply Hocc; lia].
        exists p. by rewrite <- Hk.
      - lia.
      - done. }
    cbv beta. intros _ m' (j & l1 & l2 & t & Hl & [Hfree Htk] & Hwf' & ->).
    simpl in Hfree, Htk. exists j, l1, l2, t. split_and!; [done| |done|].
    + split; [by rewrite taken_insert in Hfree by done|].
      intros i' Hi'. rewrite <- (taken_insert _ _ a) by done. by apply Htk.
    + f_equal. unfold with_cos. simpl. f_equal. by rewrite insert_insert_eq.
  - intros l1 l2 t Hl Hsl Hwf'. eapply wp_co_update; [done|]. simpl.
    assert (∀ k, set_co_status k c = set_co_status k (set_co_sleep_usecs (co_sleep_usecs c) c)) as Hc
      by (intros; by destruct c).
    exists i, l1, l2, t. split_and!.
    + done.
    + split; [|done]. intros (p & Hp & Hkp). rewrite <- Hk in Hkp.
      destruct Hsl as [Hsl1 Hsl2]. rewrite Hl in Hp. apply elem_of_app in Hp as [Hp|Hp].
      * specialize (Hsl1 _ Hp). lia.
      * specialize (Hsl2 _ Hp). lia.
    + apply (wf_update _ _ _ _ (with_sleeping t m) _ c); done.
    + unfold asleep. rewrite <- Hk. rewrite Hc. by destruct m.
Qed.

(** The sleepers whose key is not [k]. *)
Definition without (cos : gmap addr nty_coroutine) (k : Z) (ls : list addr) : list addr :=
  filter (λ p, sleep_key cos p ≠ k) ls.

Lemma without_length cos k ls : length (without cos k ls) ≤ length ls.
Proof. apply length_filter. Qed.

(** The first half of [nty_schedule_sched_sleepdown]: whoever has the old key of the
    coroutine leaves the tree. *)
Lemma sleepdown_clear D ls lw lr s a c m (Q : unit → mem T Qt → Prop) :
  wf D ls lw lr m → m_sched m = Some s → m_cos m !! a = Some c →
  (∀ t, wf D (without (m_cos m) (co_sleep_usecs c) ls) lw lr (with_sleeping t m) →
    a ∉ without (m_cos m) (co_sleep_usecs c) ls → Q tt (with_sleeping t m)) →
  wp (co_tmp ← sleep_find (Some a);
      match co_tmp with
      | Some _ => co_sched (Some a);; sleep_remove co_tmp;; mret tt
      | None => mret tt
      end) Q m.
Proof.
  intros Hwf Hs Ha HQ. apply wp_bind.
  assert (a ∉ without (m_cos m) (co_sleep_usecs c) ls) as Hout.
  { unfold without. rewrite list_elem_of_filter. intros [Hk _]. apply Hk.
    unfold sleep_key. by rewrite Ha. }
  eapply wp_sleep_find; [done|done|..].
  - intros p Hp Hk. eapply wp_bind, wp_co_sched; [done|done|].
    apply wp_bind. eapply wp_sleep_remove; [done|done|]. intros l1 l2 t -> Hwf'.
    apply wp_ret, HQ; [|done]. unfold without. rewrite <- Hk.
    rewrite sorted_by_filter; [done|]. by eapply wf_sleep_sorted.
  - intros Hk. apply wp_ret.
    replace m with (with_sleeping (m_sleeping m) m) at 1 by (by destruct m).
    apply HQ; [|done]. unfold without. rewrite filter_all by done. by destruct m.
Qed.

(** [nty_schedule_sched_sleepdown] with a time: the coroutine enters the tree under the
    first key free from its deadline on, and is marked as sleeping. *)
Lemma sched_sleepdown_spec D ls lw lr s a c msecs t1 e k m :
  wf D ls lw lr m → m_sched m = Some s → m_cos m !! a = Some c → msecs ≠ 0%Z →
  (Z.of_nat (length ls) < 2 ^ 64 - 1)%Z →
  sys sys_gettimeofday (m_kernel m) = (t1, e, k) →
  let now := u64 (t1.1 * 1000000 + t1.2) in
  let k0 := u64 (nty_coroutine_diff_usecs (sched_birth s) now + u64 (msecs * 1000)) in
  let ls' := without (m_cos m) (co_sleep_usecs c) ls in
  wp (nty_schedule_sched_sleepdown (Some a) msecs) (λ _ m', ∃ j l1 l2, ls' = l1 ++ l2 ∧
    first_free (m_cos m) ls' k0 j ∧ wf D (l1 ++ a :: l2) lw lr m' ∧
    m_cos m' = <[a := asleep (u64 (k0 + Z.of_nat j)) c]> (m_cos m) ∧
    m_sched m' = m_sched m ∧ m_kernel m' = k) m.
Proof.
  intros Hwf Hs Ha Hms Hlen Htime now k0 ls'. unfold nty_schedule_sched_sleepdown.
  eapply wp_bind, wp_co_sched; [done|done|].
  assert (wp (co_tmp ← sleep_find (Some a);
      match co_tmp with
      | Some _ => co_sched (Some a);; sleep_remove co_tmp;; mret tt
      | None => mret tt
      end) (λ _ m', ∃ t, m' = with_sleeping t m ∧ wf D ls' lw lr m' ∧ a ∉ ls') m) as Hclear.
  { eapply sleepdown_clear; [done..|]. eauto. }
  apply wp_bind. eapply wp_mono; [exact (wp_unbind _ _ _ _ Hclear)|].
  cbv beta. intros p m0 Hclear'. apply wp_bind. eapply wp_mono; [exact Hclear'|].
  cbv beta. intros [] m1 (t & -> & Hwf1 & Hout). clear Hclear Hclear'.
  eapply wp_bind, wp_co_sched; [done|done|].
  apply wp_bind, wp_bind, wp_syscall. simpl. intros t1' e' k' Htime'.
  rewrite Htime in Htime'. injection Htime' as <- <- <-. apply wp_ret.
  fold now. set (m2 := sys_result e k (with_sleeping t m)).
  assert (wf D ls' lw lr m2) as Hwf2 by (by apply wf_sys_result).
  assert (m_cos m2 = m_cos m ∧ m_sched m2 = m_sched m ∧ m_kernel m2 = k) as (Ec & Es & Ek)
    by (unfold m2, sys_result; by destruct e).
  clearbody m2.
  apply wp_bind. eapply wp_co_update; [by rewrite Ec|]. fold k0.
  rewrite (proj2 (Z.eqb_neq _ _) Hms). simpl negb. cbv iota. apply wp_bind, wp_gets.
  eapply wp_mono.
  { eapply (sleepdown_insert_spec D ls' lw lr s a k0 _ 0).
    - eapply wf_update; [done|by rewrite Ec|done|done].
    - simpl. by rewrite Es.
    - apply lookup_insert_eq.
    - done.
    - simpl. rewrite Z.add_0_r. symmetry. apply Zmod_mod.
    - lia.
    - unfold sleepdown_fuel. pose proof (wf_sleep_length _ _ _ _ _ Hwf1). simpl in *.
      rewrite Ec, map_size_insert, Ha. simpl. lia.
    - pose proof (without_length (m_cos m) (co_sleep_usecs c) ls). unfold ls'. lia. }
  cbv beta. simpl. rewrite Ec. intros _ m' (j & l1 & l2 & t' & Hl & [Hf1 Hf2] & Hwf' & ->).
  rewrite taken_insert in Hf1 by done.
  exists j, l1, l2. split_and!; try done.
  - split; [done|]. intros i Hi. rewrite <- (taken_insert _ _ a) by done. by apply Hf2.
  - simpl. rewrite Ec, insert_insert_eq. done.
Qed.

(** The flags [nty_schedule_desched_sleepdown] leaves. *)
Definition woken (c : nty_coroutine) : nty_coroutine :=
  set_co_status
    (Z.land (Z.lor (Z.land (co_status c) (CLEARBIT NTY_COROUTINE_STATUS_SLEEPING))
                   (BIT NTY_COROUTINE_STATUS_READY))
            (CLEARBIT NTY_COROUTINE_STATUS_EXPIRED)) c.

(** [nty_schedule_desched_sleepdown] takes a coroutine marked as sleeping out of the
    sleep tree, and leaves any other alone. *)
Lemma desched_sleepdown_spec D ls lw lr s a c m :
  wf D ls lw lr m → m_sched m = Some s → m_cos m !! a = Some c →
  (has_bit (co_status c) NTY_COROUTINE_STATUS_SLEEPING = true → a ∈ ls) →
  wp (nty_schedule_desched_sleepdown (Some a)) (λ _ m',
    if has_bit (co_status c) NTY_COROUTINE_STATUS_SLEEPING then
      ∃ l1 l2 t, ls = l1 ++ a :: l2 ∧ wf D (l1 ++ l2) lw lr m' ∧
        m' = with_sleeping t (with_cos (insert a (woken c)) m)
    else m' = m) m.
Proof.
  intros Hwf Hs Ha Hin. unfold nty_schedule_desched_sleepdown, status_or, status_and.
  eapply wp_bind, wp_co_load; [done|].
  destruct (has_bit _ _); [|by apply wp_ret].
  eapply wp_bind, wp_co_sched; [done|done|].
  apply wp_bind. eapply wp_sleep_remove; [done|by apply Hin|]. intros l1 l2 t -> Hwf'.
  eapply wp_bind, wp_co_update; [done|].
  eapply wp_bind, wp_co_update; [apply lookup_insert_eq|].
  eapply wp_co_update; [simpl; rewrite insert_insert_eq; apply lookup_insert_eq|].
  rewrite !with_cos_twice. exists l1, l2, t. split_and!; [done| |done].
  eapply wf_update; [done|done| |done]. done.
Qed.

(** ** Waiting for a descriptor *)

Lemma wait_key_lookup D ls lw lr m a c :
  wf D ls lw lr m → m_cos m !! a = Some c → wait_key (m_cos m) a = co_fd c.
Proof. intros _ Ha. unfold wait_key. by rewrite Ha. Qed.

(** [nty_schedule_search_wait] returns the coroutine that waits for [fd], with its
    status cleared. *)
Lemma search_wait_spec D ls lw lr s a c m :
  wf D ls lw lr m → m_sched m = Some s → a ∈ lw → m_cos m !! a = Some c →
  wp (nty_schedule_search_wait (co_fd c)) (λ r m', r = Some a ∧
    m' = with_cos (insert a (set_co_status 0 c)) m ∧ wf D ls lw lr m') m.
Proof.
  intros Hwf Hs Hin Ha. unfold nty_schedule_search_wait.
  eapply wp_bind, wp_get_sched; [done|]. apply wp_bind. eapply wp_wait_find; [done|..].
  - intros p Hp Hk. simpl in Hk.
    assert (p = a) as ->.
    { eapply sorted_by_inj; [by eapply wf_wait_sorted|done|done|].
      rewrite Hk. unfold wait_key. by rewrite Ha. }
    eapply wp_bind, wp_co_update; [done|]. apply wp_ret. split_and!; [done|done|].
    by eapply wf_update.
  - intros Hno. exfalso. apply (Hno a Hin). unfold wait_key. by rewrite Ha.
Qed.

(** With no coroutine waiting for [fd] it dereferences a null pointer. *)
Lemma search_wait_missing D ls lw lr s fd m :
  wf D ls lw lr m → m_sched m = Some s → (∀ p, p ∈ lw → wait_key (m_cos m) p ≠ fd) →
  nty_schedule_search_wait fd m = Err NullDeref.
Proof.
  intros Hwf Hs Hno. unfold nty_schedule_search_wait, nty_coroutine_get_sched, mbind, ST_bind.
  rewrite Hs.
  assert (wp (wait_find (set_co_fd fd coroutine_zero)) (λ r m', r = NULL ∧ m' = m) m) as Hf.
  { eapply wp_wait_find; [done|..]; [|done]. intros p Hp Hk. by destruct (Hno p Hp). }
  apply wp_ok in Hf as (r & m' & -> & -> & ->). done.
Qed.

(** [nty_schedule_desched_wait]: the coroutine that waits for [fd] leaves the wait tree
    with its status cleared. It stays in the sleep tree if it is there: the status is
    cleared before the test of the sleeping flag. *)
Lemma desched_wait_spec D ls lw lr s a c m :
  wf D ls lw lr m → m_sched m = Some s → a ∈ lw → m_cos m !! a = Some c →
  wp (nty_schedule_desched_wait (co_fd c)) (λ r m', r = Some a ∧
    ∃ l1 l2 t, lw = l1 ++ a :: l2 ∧ wf D ls (l1 ++ l2) lr m' ∧
      m' = with_waiting t (with_cos (insert a (set_co_status 0 c)) m)) m.
Proof.
  intros Hwf Hs Hin Ha. unfold nty_schedule_desched_wait.
  eapply wp_bind, wp_get_sched; [done|]. apply wp_bind. eapply wp_wait_find; [done|..].
  - intros p Hp Hk. simpl in Hk.
    assert (p = a) as ->.
    { eapply sorted_by_inj; [by eapply wf_wait_sorted|done|done|].
      rewrite Hk. unfold wait_key. by rewrite Ha. }
    apply wp_bind. eapply wp_bind, wp_co_sched; [done|done|].
    apply wp_bind. eapply wp_wait_remove; [done|done|]. intros l1 l2 t -> Hwf'.
    apply wp_ret. eapply wp_bind, wp_co_update; [done|].
    assert (wf D ls (l1 ++ l2) lr (with_cos (insert a (set_co_status 0 c)) (with_waiting t m)))
      as Hwf2 by (by eapply wf_update).
    apply wp_bind. eapply wp_mono.
    { eapply (desched_sleepdown_spec _ _ _ _ s a (set_co_status 0 c)); [exact Hwf2|done| |].
      - apply lookup_insert_eq.
      - done. }
    cbv beta. simpl. intros _ m' ->. apply wp_ret. split; [done|]. by exists l1, l2, t.
  - intros Hno. exfalso. apply (Hno a Hin). unfold wait_key. by rewrite Ha.
Qed.

(** What [nty_schedule_sched_wait] writes into the coroutine. *)
Definition waiting_for (fd events : Z) (c : nty_coroutine) : nty_coroutine :=
  set_co_events events (set_co_fd fd
    (set_co_status (Z.lor (co_status c)
      (if negb (Z.land events POLLIN =? 0)%Z then 0 else 1)) c)).

(** The condition under which [nty_schedule_sched_wait] does not abort. *)
Definition may_wait (cos : gmap addr nty_coroutine) (lw : list addr) (fd events : Z)
    (c : nty_coroutine) : Prop :=
  has_bit (co_status c) NTY_COROUTINE_STATUS_WAIT_READ = false ∧
  has_bit (co_status c) NTY_COROUTINE_STATUS_WAIT_WRITE = false ∧
  (Z.land events POLLIN ≠ 0 ∨ Z.land events POLLOUT ≠ 0)%Z ∧
  Forall (λ p, wait_key cos p ≠ fd) lw.

#[global] Instance may_wait_dec cos lw fd events c : Decision (may_wait cos lw fd events c).
Proof. unfold may_wait. apply _. Defined.

(** [nty_schedule_sched_wait] without time limit: the coroutine enters the wait tree at
    the place of its descriptor; nothing else changes. *)
Lemma sched_wait_spec D ls lw lr s a c fd events m :
  wf D ls lw lr m → m_sched m = Some s → m_cos m !! a = Some c → a ∉ lw →
  may_wait (m_cos m) lw fd events c →
  wp (nty_schedule_sched_wait (Some a) fd events 1) (λ _ m', ∃ l1 l2 t, lw = l1 ++ l2 ∧
    wf D ls (l1 ++ a :: l2) lr m' ∧
    m' = with_waiting t (with_cos (insert a (waiting_for fd events c)) m)) m.
Proof.
  intros Hwf Hs Ha Hnew (Hr & Hw & Hev & Hfree). unfold nty_schedule_sched_wait, status_or.
  eapply wp_bind, wp_co_load; [done|]. rewrite Hr, Hw. apply wp_bind, wp_ret.
  apply wp_bind.
  assert (∀ (Q : unit → mem T Qt → Prop),
    Q tt (with_cos (insert a (set_co_status (Z.lor (co_status c)
      (if negb (Z.land events POLLIN =? 0)%Z then 0 else 1)) c)) m) →
    wp (if negb (Z.land events POLLIN =? 0)%Z then
          co_update (Some a) (λ c, set_co_status (Z.lor (co_status c)
            (status_value NTY_COROUTINE_STATUS_WAIT_READ)) c)
        else if negb (Z.land events POLLOUT =? 0)%Z then
          co_update (Some a) (λ c, set_co_status (Z.lor (co_status c)
            (status_value NTY_COROUTINE_STATUS_WAIT_WRITE)) c)
        else c_assert false) Q m) as Hif.
  { intros Q HQ. destruct (Z.eqb_spec (Z.land events POLLIN) 0) as [E1|E1]; simpl in *;
      [destruct (Z.eqb_spec (Z.land events POLLOUT) 0) as [E2|E2]; simpl in *; [naive_solver|]|];
      by eapply wp_co_update. }
  apply Hif. clear Hif.
  eapply wp_bind, wp_co_update; [apply lookup_insert_eq|]. rewrite with_cos_twice.
  eapply wp_bind, wp_co_update; [apply lookup_insert_eq|]. rewrite with_cos_twice.
  set (m1 := with_cos _ m).
  assert (wf D ls lw lr m1) as Hwf1 by (by eapply wf_update).
  assert (m_cos m1 !! a = Some (waiting_for fd events c)) as Ha1 by apply lookup_insert_eq.
  assert (∀ p, p ∈ lw → wait_key (m_cos m1) p = wait_key (m_cos m) p) as Hkey.
  { intros p Hp. unfold wait_key. simpl. rewrite lookup_insert_ne; [done|by intros ->]. }
  eapply wp_bind, wp_co_sched; [done|done|].
  apply wp_bind. eapply wp_wait_insert; [done|done|done|..].
  - intros p Hp Hk. exfalso. rewrite Hkey in Hk by done.
    rewrite Forall_forall in Hfree. by apply (Hfree p Hp).
  - intros l1 l2 t Hl _ Hwf2. apply wp_bind, wp_assert; [done|]. simpl.
    apply wp_ret. by exists l1, l2, t.
Qed.

(** It aborts, by an assertion, when the coroutine is flagged as waiting already, when
    [events] asks neither for reading nor for writing, and when another coroutine waits
    for the same descriptor. *)
Lemma sched_wait_abort D ls lw lr s a c fd events timeout m :
  wf D ls lw lr m → m_sched m = Some s → m_cos m !! a = Some c → a ∉ lw →
  ¬ may_wait (m_cos m) lw fd events c →
  nty_schedule_sched_wait (Some a) fd events timeout m = Err AssertFail.
Proof.
  intros Hwf Hs Ha Hnew Hmay. apply wpe_err. unfold nty_schedule_sched_wait, status_or.
  eapply wpe_wp_bind, wp_co_load; [done|]. unfold may_wait in Hmay.
  destruct (has_bit (co_status c) NTY_COROUTINE_STATUS_WAIT_READ); [done|].
  destruct (has_bit (co_status c) NTY_COROUTINE_STATUS_WAIT_WRITE); [done|].
  apply wpe_wp_bind, wp_ret.
  assert (∀ st, (Z.land events POLLIN ≠ 0 ∨ Z.land events POLLOUT ≠ 0)%Z →
    wpe (λ e, e = AssertFail) (co_update (Some a) (set_co_fd fd);;
      co_update (Some a) (set_co_events events);; co_sched (Some a);;
      co_tmp ← wait_insert (Some a); c_assert (bool_decide (co_tmp = NULL));;
      if (timeout =? 1)%Z then mret tt else nty_schedule_sched_sleepdown (Some a) timeout)
      (λ _ _, False) (with_cos (insert a (set_co_status st c)) m)) as Htail.
  { intros st Hev. eapply wpe_wp_bind, wp_co_update; [apply lookup_insert_eq|].
    rewrite with_cos_twice.
    eapply wpe_wp_bind, wp_co_update; [apply lookup_insert_eq|]. rewrite with_cos_twice.
    set (m1 := with_cos _ m).
    assert (wf D ls lw lr m1) as Hwf1 by (by eapply wf_update).
    assert (∀ p, p ∈ lw → wait_key (m_cos m1) p = wait_key (m_cos m) p) as Hkey.
    { intros p Hp. unfold wait_key. simpl. rewrite lookup_insert_ne; [done|by intros ->]. }
    eapply wpe_wp_bind, wp_co_sched; [apply lookup_insert_eq|done|].
    apply wpe_wp_bind. eapply wp_wait_insert; [done|apply lookup_insert_eq|done|..].
    - intros p Hp Hk. done.
    - intros l1 l2 t Hl [Hs1 Hs2] _. exfalso. apply Hmay. split_and!; [done..|].
      apply Forall_forall. intros p Hp Hk. rewrite <- Hkey in Hk by done. simpl in Hs1, Hs2.
      rewrite Hl in Hp. apply elem_of_app in Hp as [Hp|Hp].
      + specialize (Hs1 p Hp). simpl in Hk. lia.
      + specialize (Hs2 p Hp). simpl in Hk. lia. }
  destruct (Z.eqb_spec (Z.land events POLLIN) 0) as [E1|E1]; simpl;
    [destruct (Z.eqb_spec (Z.land events POLLOUT) 0) as [E2|E2]; simpl; [done|]|];
    (eapply wpe_wp_bind, wp_co_update; [done|]; apply Htail; tauto).
Qed.

Lemma cancel_wait_spec D ls lw lr s a m :
  wf D ls lw lr m → m_sched m = Some s → a ∈ lw →
  wp (nty_schedule_cancel_wait (Some a)) (λ _ m', ∃ l1 l2 t, lw = l1 ++ a :: l2 ∧
    wf D ls (l1 ++ l2) lr m' ∧ m' = with_waiting t m) m.
Proof.
  intros Hwf Hs Hin. destruct (wf_lookup _ _ _ _ _ a Hwf) as [c Ha].
  { eapply tree_rep_elem; [by eapply wf_waiting|done]. }
  eapply wp_bind, wp_co_sched; [done|done|]. apply wp_bind.
  eapply wp_wait_remove; [done|done|]. intros l1 l2 t Hl Hwf'. apply wp_ret.
  by exists l1, l2, t.
Qed.

(** ** Time *)

(** The time since the birth of the scheduler, at the next reading of the clock. *)
Definition elapsed (s : nty_schedule) (t1 : Z * Z) : Z :=
  nty_coroutine_diff_usecs (sched_birth s) (u64 (t1.1 * 1000000 + t1.2)).

Lemma wp_usec_now t1 e k (Q : Z → mem T Qt → Prop) m :
  sys sys_gettimeofday (m_kernel m) = (t1, e, k) →
  Q (u64 (t1.1 * 1000000 + t1.2)) (sys_result e k m) → wp nty_coroutine_usec_now Q m.
Proof.
  intros Ht HQ. apply wp_bind, wp_syscall. intros t1' e' k' Ht'.
  rewrite Ht in Ht'. injection Ht' as <- <- <-. by apply wp_ret.
Qed.

(** [nty_schedule_expired] takes the sleeper with the earliest deadline out of the tree
    when that deadline has passed, and returns [NULL] otherwise. *)
Lemma expired_spec D ls lw lr s t1 e k m :
  wf D ls lw lr m → m_sched m = Some s → sys sys_gettimeofday (m_kernel m) = (t1, e, k) →
  wp nty_schedule_expired (λ r m',
    match ls with
    | a :: ls' =>
        if (sleep_key (m_cos m) a <=? elapsed s t1)%Z
        then r = Some a ∧ wf D ls' lw lr m' ∧ ∃ t, m' = with_sleeping t (sys_result e k m)
        else r = NULL ∧ m' = sys_result e k m
    | [] => r = NULL ∧ m' = sys_result e k m
    end) m.
Proof.
  intros Hwf Hs Ht. unfold nty_schedule_expired.
  eapply wp_bind, wp_get_sched; [done|]. apply wp_bind. eapply wp_usec_now; [done|].
  fold (elapsed s t1). apply (wf_sys_result _ _ _ _ e k) in Hwf as Hwf'.
  assert (m_cos (sys_result e k m) = m_cos m ∧ m_sched (sys_result e k m) = Some s) as [Ec Es]
    by (by destruct e).
  apply wp_bind. eapply wp_sleep_min; [done|].
  destruct ls as [|a ls]; simpl; [by apply wp_ret|].
  destruct (wf_lookup _ _ _ _ _ a Hwf') as [c Ha].
  { eapply tree_rep_elem; [by eapply wf_sleeping|set_solver]. }
  eapply wp_bind, wp_co_load; [done|]. unfold sleep_key. rewrite <- Ec, Ha. simpl.
  destruct (co_sleep_usecs c <=? elapsed s t1)%Z; [|by apply wp_ret].
  eapply wp_bind, wp_co_sched; [done|done|]. apply wp_bind.
  eapply wp_sleep_remove; [done|set_solver|]. intros l1 l2 t Hl Hwf2. apply wp_ret.
  split; [done|]. split; [|by exists t].
  assert (l1 = [] ∧ ls = l2) as [-> <-]; [|done].
  apply (NoDup_split_unique [] ls l1 l2 a) in Hl as [? ?]; [done|].
  eapply tree_rep_NoDup. by eapply wf_sleeping.
Qed.

(** [nty_schedule_min_timeout]: the time to the earliest deadline. *)
Lemma min_timeout_spec D ls lw lr s t1 e k m :
  wf D ls lw lr m → m_sched m = Some s → sys sys_gettimeofday (m_kernel m) = (t1, e, k) →
  wp nty_schedule_min_timeout (λ r m', m' = sys_result e k m ∧
    r = match ls with
        | [] => sched_default_timeout s
        | a :: _ => let d := sleep_key (m_cos m) a in
                    if (d >? elapsed s t1)%Z then u64 (d - elapsed s t1) else 0%Z
        end) m.
Proof.
  intros Hwf Hs Ht. unfold nty_schedule_min_timeout.
  eapply wp_bind, wp_get_sched; [done|]. apply wp_bind. eapply wp_usec_now; [done|].
  fold (elapsed s t1). apply (wf_sys_result _ _ _ _ e k) in Hwf as Hwf'.
  assert (m_cos (sys_result e k m) = m_cos m) as Ec by (by destruct e).
  apply wp_bind. eapply wp_sleep_min; [done|].
  destruct ls as [|a ls]; simpl; [by apply wp_ret|].
  destruct (wf_lookup _ _ _ _ _ a Hwf') as [c Ha].
  { eapply tree_rep_elem; [by eapply wf_sleeping|set_solver]. }
  eapply wp_bind, wp_co_load; [done|]. unfold sleep_key. rewrite <- Ec, Ha. simpl.
  by destruct (co_sleep_usecs c >? elapsed s t1)%Z.
Qed.

(** [nty_schedule_isdone]: nobody waits, sleeps or is ready. *)
Lemma isdone_spec D ls lw lr s m :
  wf D ls lw lr m → m_sched m = Some s →
  wp nty_schedule_isdone (λ r m', m' = m ∧
    r = bool_decide (lw = [] ∧ sched_busy s = NULL ∧ ls = [] ∧ lr = [])) m.
Proof.
  intros Hwf Hs. unfold nty_schedule_isdone.
  eapply wp_bind, wp_get_sched; [done|]. apply wp_bind, wp_gets, wp_bind.
  eapply wp_ready_empty; [done|]. apply wp_ret. split; [done|]. simpl.
  rewrite (tree_empty_spec _ _ _ (wf_waiting _ _ _ _ _ Hwf)).
  rewrite (tree_empty_spec _ _ _ (wf_sleeping _ _ _ _ _ Hwf)).
  rewrite !bool_decide_and. by destruct (bool_decide _), (bool_decide _), (bool_decide _).
Qed.
End spec.

(** ** The time given to [epoll_wait] *)

(** The number of milliseconds [nty_schedule_epoll] passes on for a wait of [usecs]:
    below a second, the time to the deadline; from one second on, whole seconds only,
    since [tv_nsec] is computed from the microseconds modulo 1000 instead of modulo
    1000000. *)
Lemma epoll_ms usecs :
  (0 ≤ usecs < 2 ^ 64)%Z →
  let t := epoll_timespec usecs in
  Z.quot (t.1 * 1000000000 + t.2) 1000000 =
    if (usecs <? 1000000)%Z then (usecs / 1000)%Z else (usecs / 1000000 * 1000)%Z.
Proof.
  intros Hu. unfold epoll_timespec. simpl.
  pose proof (Z.div_pos usecs 1000000 ltac:(lia) ltac:(lia)) as Hq.
  pose proof (Z.mod_pos_bound usecs 1000 ltac:(lia)) as Hm.
  destruct (Z.ltb_spec usecs 1000000).
  - rewrite Z.div_small by lia. simpl. rewrite u64_small by lia.
    rewrite Z.quot_div_nonneg by lia.
    exact (Z.div_mul_cancel_r usecs 1000 1000 ltac:(lia) ltac:(lia)).
  - assert (usecs / 1000000 ≠ 0)%Z as Hne.
    { intros E. apply Z.div_small_iff in E; lia. }
    rewrite (proj2 (Z.eqb_neq _ _) Hne). simpl. rewrite u64_small by lia.
    rewrite Z.quot_div_nonneg by lia.
    replace (usecs / 1000000 * 1000000000)%Z with ((usecs / 1000000 * 1000) * 1000000)%Z by lia.
    rewrite Z.div_add_l by lia. rewrite (Z.div_small (usecs mod 1000 * 1000)) by lia. lia.
Qed.

(** The wait never lasts beyond the deadline it was computed for. *)
Lemma epoll_ms_le usecs :
  (0 ≤ usecs < 2 ^ 64)%Z →
  let t := epoll_timespec usecs in
  (0 ≤ Z.quot (t.1 * 1000000000 + t.2) 1000000 * 1000 ≤ usecs)%Z.
Proof.
  intros Hu t. unfold t. rewrite epoll_ms by done.
  pose proof (Z.mul_div_le usecs 1000 ltac:(lia)). pose proof (Z.mul_div_le usecs 1000000 ltac:(lia)).
  pose proof (Z.div_pos usecs 1000 ltac:(lia) ltac:(lia)).
  pose proof (Z.div_pos usecs 1000000 ltac:(lia) ltac:(lia)).
  destruct (usecs <? 1000000)%Z; lia.
Qed.

