(* ===== verification/ToyOS.v ===== *)
(** A concrete system: descriptors in the interest list are always ready, a receive
    yields the same few bytes, a send takes at most three bytes, time passes at each
    reading of the clock. It satisfies [OSLaws] and runs the examples. *)

From S2P Require Export Kernel.

Record toy : Type := Toy {
  toy_time : Z;                           (* microseconds *)
  toy_armed : gset Z;                     (* interest list, without the quiet descriptors *)
  toy_quiet : gset Z;
  toy_next : Z;                           (* next descriptor *)
  toy_sent : list byte;                   (* what was sent, in order *)
}.

Definition toy_start : toy := Toy 1000000 ∅ ∅ 3 [].

(** An address above all those in use. *)
Definition above (used : gset addr) : addr := Pos.succ (foldr Pos.max 1%positive (elements used)).

Definition toy_clock (k : toy) (d : Z) : toy :=
  Toy (toy_time k + d) (toy_armed k) (toy_quiet k) (toy_next k) (toy_sent k).
Definition toy_open (k : toy) : toy :=
  Toy (toy_time k) (toy_armed k) (toy_quiet k) (toy_next k + 1) (toy_sent k).
Definition toy_accept_bytes (k : toy) (data : list byte) : Z * option Z * toy :=
  (Z.of_nat (length (take 3 data)), None,
   Toy (toy_time k) (toy_armed k) (toy_quiet k) (toy_next k) (toy_sent k ++ take 3 data)).
Definition toy_input (len : Z) : list byte :=
  take (Z.to_nat len) [x68; x65; x6c; x6c; x6f]%byte.

Definition toy_sys {A} (s : sysE A) : toy → A * option Z * toy :=
  match s with
  | sys_gettimeofday => λ k, ((toy_time k / 1000000, toy_time k mod 1000000)%Z, None, toy_clock k 10)
  | sys_calloc used => λ k, (Some (above used), None, k)
  | sys_posix_memalign => λ k, (0%Z, None, k)
  | sys_getpagesize => λ k, (4096%Z, None, k)
  | sys_epoll_create _ => λ k, (toy_next k, None, toy_open k)
  | sys_epoll_ctl _ op fd _ => λ k,
      (0%Z, None,
       if (op =? EPOLL_CTL_ADD)%Z then
         if bool_decide (fd ∈ toy_quiet k) then k
         else Toy (toy_time k) ({[fd]} ∪ toy_armed k) (toy_quiet k) (toy_next k) (toy_sent k)
       else Toy (toy_time k) (toy_armed k ∖ {[fd]}) (toy_quiet k) (toy_next k) (toy_sent k))
  | sys_epoll_wait _ max tmo => λ k,
      let evs := EpollEvent (Z.lor EPOLLIN EPOLLOUT) <$> take (Z.to_nat max) (elements (toy_armed k)) in
      ((Z.of_nat (length evs), evs), None,
       toy_clock k (if bool_decide (evs = []) then tmo * 1000 else 50))
  | sys_eventfd _ _ => λ k,
      (toy_next k, None,
       Toy (toy_time k) (toy_armed k) ({[toy_next k]} ∪ toy_quiet k) (toy_next k + 1) (toy_sent k))
  | sys_poll _ _ => λ k, (0%Z, None, k)
  | sys_socket _ _ _ => λ k, (toy_next k, None, toy_open k)
  | sys_fcntl_nonblock _ => λ k, (0%Z, None, k)
  | sys_setsockopt_reuse _ => λ k, (0%Z, None, k)
  | sys_accept _ => λ k, ((toy_next k, []), None, toy_open k)
  | sys_connect _ _ => λ k, (0%Z, None, k)
  | sys_read _ len => λ k, ((Z.of_nat (length (toy_input len)), toy_input len), None, k)
  | sys_recv _ len _ => λ k, ((Z.of_nat (length (toy_input len)), toy_input len), None, k)
  | sys_recvfrom _ len _ => λ k, ((Z.of_nat (length (toy_input len)), toy_input len, []), None, k)
  | sys_write _ data => λ k, toy_accept_bytes k data
  | sys_send _ data _ => λ k, toy_accept_bytes k data
  | sys_sendto _ data _ _ => λ k, toy_accept_bytes k data
  | sys_close fd => λ k,
      (0%Z, None,
       Toy (toy_time k) (toy_armed k ∖ {[fd]}) (toy_quiet k ∖ {[fd]}) (toy_next k) (toy_sent k))
  | sys_bind _ _ => λ k, (0%Z, None, k)
  | sys_listen _ _ => λ k, (0%Z, None, k)
  | sys_getsockname _ => λ k, ((0%Z, []), None, k)
  | sys_fcntl _ _ _ => λ k, (0%Z, None, k)
  | sys_stat _ => λ k, ((0%Z, 0%Z), None, k)
  | sys_fopen _ => λ k, (Some [x68; x69; x0a]%byte, None, k)
  | sys_shm _ => λ k, (0%Z, None, k)
  | sys_sleep _ => λ k, (0%Z, None, k)
  | sys_gethostbyname _ => λ k, (None, None, k)
  | sys_pipe => λ k, ((0%Z, toy_next k, toy_next k), None, toy_open k)
  | sys_fork => λ k, (0%Z, None, k)
  | sys_dup2 _ _ => λ k, (0%Z, None, k)
  | sys_putenv _ => λ k, (0%Z, None, k)
  | sys_execl _ => λ k, (0%Z, None, k)
  | sys_waitpid _ => λ k, (0%Z, None, k)
  | sys_sigaction _ => λ k, (0%Z, None, k)
  | sys_alarm _ => λ k, (0%Z, None, k)
  end.

#[export] Instance toy_os : OS := { kernel := toy; sys := @toy_sys }.

Lemma above_fresh used : above used ∉ used.
Proof.
  unfold above. intros Hin. apply elem_of_elements in Hin.
  assert (∀ l x, x ∈ l → (x ≤ foldr Pos.max 1 l)%positive) as Hmax.
  { induction l as [|y l IH]; intros x; [set_solver|]. simpl.
    rewrite elem_of_cons. intros [->|Hx]; [lia|]. specialize (IH _ Hx). lia. }
  specialize (Hmax _ _ Hin). lia.
Qed.

Lemma toy_epoll_ctl epfd op fd ev (k : toy) r e (k' : toy) :
  sys (sys_epoll_ctl epfd op fd ev) k = (r, e, k') →
  toy_armed k' = if (op =? EPOLL_CTL_ADD)%Z then
                   if bool_decide (fd ∈ toy_quiet k) then toy_armed k else {[fd]} ∪ toy_armed k
                 else toy_armed k ∖ {[fd]}.
Proof.
  simpl. intros [= <- <- <-]. destruct (op =? EPOLL_CTL_ADD)%Z; [|done]. by case_bool_decide.
Qed.

#[export, refine] Instance toy_laws : OSLaws := {
  wakeable := toy_armed;
  quiet := toy_quiet;
}.
Proof.
  - intros used k a e k' [= <- <- <-]. apply above_fresh.
  - intros epfd fd ev k r e k' Hsys _. apply toy_epoll_ctl in Hsys. rewrite Hsys. simpl.
    destruct (bool_decide _); set_solver.
  - intros epfd fd ev k r e k' Hsys Hq. apply toy_epoll_ctl in Hsys. rewrite Hsys. simpl.
    by rewrite bool_decide_true.
  - intros epfd fd ev k r e k' Hsys. apply toy_epoll_ctl in Hsys. by rewrite Hsys.
  - intros v fl k r e k' [= <- <- <-] _. set_solver.
  - intros epfd max tmo k r evs e k' [= <- <- <- <-] Hmax _. split; [done|].
    rewrite <- list_fmap_compose, length_fmap, length_take. split; [lia|]. split.
    + apply (NoDup_fmap_2 (ev_fd ∘ EpollEvent _)).
      pose proof (NoDup_elements (toy_armed k)) as Hnd.
      rewrite <- (take_drop (Z.to_nat max)) in Hnd. by apply NoDup_app in Hnd as [? _].
    + intros ev (fd & -> & Hfd)%list_elem_of_fmap. simpl. apply elem_of_elements.
      rewrite <- (take_drop (Z.to_nat max)). apply elem_of_app. by left.
  - intros A s k r e k' Hsys. destruct s; try done; simpl in Hsys; unfold toy_accept_bytes in Hsys;
      simplify_eq; simpl; set_solver.
Defined.
