(* ===== verification/ScheduleProps.v ===== *)
(** What is proved of the functions of src/core/nty_schedule.c on well-formed memories, for
    any system, any ordered set and any queue with the laws of Interfaces.v. Module [FdKey] has
    its macros on keys. *)

From S2P Require Export ScheduleSpec RBSet Fifo ToyOS.


Section props.
Context `{OS} {T Qt : Type} `{TreeLaws T} `{QueueLaws Qt}.
Implicit Types m : mem T Qt.

(** C20: [nty_schedule_sched_sleepdown] with a non-zero time terminates with the coroutine in
    the sleep tree under the first deadline, from the requested one on, that no other
    sleeper has (the deadline is incremented at each collision, modulo 2^64), marked as
    sleeping, and every other sleeper kept, but for one that has the coroutine's old key. *)
Theorem sched_sleepdown_correct D ls lw lr s a c msecs t1 e k m :
  wf D ls lw lr m → m_sched m = Some s → m_cos m !! a = Some c → msecs ≠ 0%Z →
  (Z.of_nat (length ls) < 2 ^ 64 - 1)%Z → sys sys_gettimeofday (m_kernel m) = (t1, e, k) →
  let k0 := u64 (elapsed s t1 + u64 (msecs * 1000)) in
  let ls' := without (m_cos m) (co_sleep_usecs c) ls in
  wp (nty_schedule_sched_sleepdown (Some a) msecs) (λ _ m', ∃ j l1 l2, ls' = l1 ++ l2 ∧
    first_free (m_cos m) ls' k0 j ∧ wf D (l1 ++ a :: l2) lw lr m' ∧
    m_cos m' = <[a := asleep (u64 (k0 + Z.of_nat j)) c]> (m_cos m) ∧
    m_sched m' = m_sched m ∧ m_kernel m' = k) m.
Proof. intros. by apply (sched_sleepdown_spec D ls lw lr s a c msecs t1 e k m). Qed.

(** [nty_schedule_expired] returns the sleeper with the earliest deadline, out of the
    tree, exactly when that deadline has passed, and otherwise [NULL] and changes nothing
    (but the clock has been read). *)
Theorem expired_earliest_deadline D ls lw lr s t1 e k m :
  wf D ls lw lr m → m_sched m = Some s → sys sys_gettimeofday (m_kernel m) = (t1, e, k) →
  wp nty_schedule_expired (λ r m',
    match ls with
    | a :: ls' =>
        if (sleep_key (m_cos m) a <=? elapsed s t1)%Z
        then r = Some a ∧ wf D ls' lw lr m' ∧
          (∀ b, b ∈ ls' → (sleep_key (m_cos m) a < sleep_key (m_cos m) b)%Z)
        else r = NULL ∧ m' = sys_result e k m
    | [] => r = NULL ∧ m' = sys_result e k m
    end) m.
Proof.
  intros Hwf Hs Hk. eapply wp_mono; [by eapply expired_spec|]. cbv beta. intros r m'.
  destruct ls as [|a ls']; [done|]. destruct (_ <=? _)%Z; [|done]. intros (? & ? & _).
  split_and!; try done. destruct Hwf as [_ _ _ _ _ Hsort _].
  apply sorted_by_cons in Hsort as [Hlt _]. exact Hlt.
Qed.


(** [nty_schedule_min_timeout] returns the time left to the earliest deadline, zero when
    it has passed, and the default of the scheduler when nobody sleeps. *)
Theorem min_timeout_correct D ls lw lr s t1 e k m :
  wf D ls lw lr m → m_sched m = Some s → sys sys_gettimeofday (m_kernel m) = (t1, e, k) →
  (∀ a, a ∈ ls → (0 ≤ sleep_key (m_cos m) a < 2 ^ 64)%Z) →
  wp nty_schedule_min_timeout (λ r m', m' = sys_result e k m ∧
    match ls with
    | [] => r = sched_default_timeout s
    | a :: _ => r = Z.max 0 (sleep_key (m_cos m) a - elapsed s t1)
    end) m.
Proof.
  intros Hwf Hs Hk Hkey. eapply wp_mono; [by eapply min_timeout_spec|].
  cbv beta. intros r m' [-> ->]. split; [done|]. destruct ls as [|a ls]; [done|].
  specialize (Hkey a ltac:(set_solver)). pose proof (u64_range (u64 (t1.1 * 1000000 + t1.2) - sched_birth s)) as Hr.
  unfold elapsed, nty_coroutine_diff_usecs in *. rewrite Z.gtb_ltb.
  destruct (Z.ltb_spec (u64 (u64 (t1.1 * 1000000 + t1.2) - sched_birth s)) (sleep_key (m_cos m) a)).
  - rewrite u64_small; lia.
  - lia.
Qed.

(** [nty_schedule_search_wait] returns the coroutine that waits for the descriptor with
    its status cleared; when nobody waits for it, it dereferences a null pointer. *)
Theorem search_wait_correct D ls lw lr s fd m :
  wf D ls lw lr m → m_sched m = Some s →
  (∀ a c, a ∈ lw → m_cos m !! a = Some c → co_fd c = fd →
    wp (nty_schedule_search_wait fd) (λ r m', r = Some a ∧
      m' = with_cos (insert a (set_co_status 0 c)) m ∧ wf D ls lw lr m') m) ∧
  ((∀ p, p ∈ lw → wait_key (m_cos m) p ≠ fd) → nty_schedule_search_wait fd m = Err NullDeref).
Proof.
  intros Hwf Hs. split.
  - intros a c Ha Hc <-. by eapply search_wait_spec.
  - intros Hno. by eapply search_wait_missing.
Qed.

(** [nty_schedule_sched_wait] without time limit puts the coroutine into the wait tree
    under the descriptor, unless it is flagged as waiting, or the events ask neither for
    reading nor for writing, or another coroutine waits for the descriptor: then it
    aborts by an assertion. *)
Theorem sched_wait_correct D ls lw lr s a c fd events m :
  wf D ls lw lr m → m_sched m = Some s → m_cos m !! a = Some c → a ∉ lw →
  (¬ may_wait (m_cos m) lw fd events c →
    nty_schedule_sched_wait (Some a) fd events 1 m = Err AssertFail) ∧
  (may_wait (m_cos m) lw fd events c →
    wp (nty_schedule_sched_wait (Some a) fd events 1) (λ _ m', ∃ l1 l2, lw = l1 ++ l2 ∧
      wf D ls (l1 ++ a :: l2) lr m' ∧
      m_cos m' = <[a := waiting_for fd events c]> (m_cos m)) m).
Proof.
  intros Hwf Hs Hc Ha. split.
  - intros Hno. by eapply sched_wait_abort.
  - intros Hmay. eapply wp_mono; [by eapply sched_wait_spec|].
    cbv beta. intros _ m' (l1 & l2 & t & -> & Hwf' & ->). by exists l1, l2.
Qed.

(** A wait for reading leaves no mark in the status: the flag is or-ed as the enumerator
    [NTY_COROUTINE_STATUS_WAIT_READ], which is 0, instead of its bit; a wait for writing
    sets the bit of [NTY_COROUTINE_STATUS_WAIT_READ]. *)
Theorem wait_flags_confused D ls lw lr s a c fd events m :
  wf D ls lw lr m → m_sched m = Some s → m_cos m !! a = Some c → a ∉ lw →
  may_wait (m_cos m) lw fd events c →
  wp (nty_schedule_sched_wait (Some a) fd events 1) (λ _ m', ∃ c', m_cos m' !! a = Some c' ∧
    if decide (Z.land events POLLIN = 0)%Z
    then has_bit (co_status c') NTY_COROUTINE_STATUS_WAIT_READ = true ∧
         has_bit (co_status c') NTY_COROUTINE_STATUS_WAIT_WRITE = false
    else co_status c' = co_status c) m.
Proof.
  intros Hwf Hs Hc Ha Hmay. eapply wp_mono; [by eapply sched_wait_spec|].
  cbv beta. intros _ m' (l1 & l2 & t & -> & Hwf' & ->). exists (waiting_for fd events c).
  split; [apply lookup_insert_eq|]. destruct Hmay as (_ & Hw & _).
  rewrite !has_bit_testbit in *. unfold waiting_for. simpl (co_status _).
  destruct (decide _) as [->|Hne].
  - simpl (negb _). cbn [negb Z.eqb]. rewrite !Z.lor_spec. rewrite Hw.
    change 1%Z with (BIT NTY_COROUTINE_STATUS_WAIT_READ). rewrite !testbit_BIT.
    split; [apply orb_true_r|done].
  - rewrite (proj2 (Z.eqb_neq _ _) Hne). apply Z.lor_0_r.
Qed.

(** [nty_schedule_desched_wait] takes the coroutine that waits for the descriptor out of
    the wait tree and clears its status; it does not take it out of the sleep tree, even
    if it is marked as sleeping. *)
Theorem desched_wait_correct D ls lw lr s a c m :
  wf D ls lw lr m → m_sched m = Some s → a ∈ lw → m_cos m !! a = Some c →
  wp (nty_schedule_desched_wait (co_fd c)) (λ r m', r = Some a ∧ ∃ l1 l2, lw = l1 ++ a :: l2 ∧
    wf D ls (l1 ++ l2) lr m' ∧ m_cos m' = <[a := set_co_status 0 c]> (m_cos m)) m.
Proof.
  intros. eapply wp_mono; [by eapply desched_wait_spec|].
  cbv beta. intros r m' (-> & l1 & l2 & t & -> & Hwf' & ->). split; [done|]. by exists l1, l2.
Qed.

(** Waiting for a descriptor and being woken up returns the wait tree to what it was. *)
Theorem wait_roundtrip D ls lw lr s a c fd events m :
  wf D ls lw lr m → m_sched m = Some s → m_cos m !! a = Some c → a ∉ lw →
  may_wait (m_cos m) lw fd events c →
  wp (nty_schedule_sched_wait (Some a) fd events 1;; nty_schedule_desched_wait fd)
    (λ r m', r = Some a ∧ wf D ls lw lr m' ∧
      m_cos m' = <[a := set_co_events events (set_co_fd fd (set_co_status 0 c))]> (m_cos m)) m.
Proof.
  intros Hwf Hs Hc Ha Hmay. eapply wp_seq; [by eapply sched_wait_spec|].
  cbv beta. intros _ m1 (l1 & l2 & t & -> & Hwf1 & ->).
  eapply wp_mono.
  { eapply (desched_wait_spec D ls _ lr s a (waiting_for fd events c)); [exact Hwf1|done|set_solver|].
    apply lookup_insert_eq. }
  cbv beta. intros r m2 (-> & l1' & l2' & t' & E & Hwf2 & ->). split; [done|].
  apply NoDup_split_unique in E as [<- <-].
  2: { eapply tree_rep_NoDup. by eapply wf_waiting. }
  split; [done|]. simpl. by rewrite insert_insert_eq.
Qed.

(** [nty_schedule_desched_sleepdown] takes exactly a coroutine marked as sleeping out of
    the sleep tree, and marks it ready. *)
Theorem desched_sleepdown_correct D ls lw lr s a c m :
  wf D ls lw lr m → m_sched m = Some s → m_cos m !! a = Some c →
  (has_bit (co_status c) NTY_COROUTINE_STATUS_SLEEPING = true → a ∈ ls) →
  wp (nty_schedule_desched_sleepdown (Some a)) (λ _ m',
    if has_bit (co_status c) NTY_COROUTINE_STATUS_SLEEPING then
      ∃ l1 l2, ls = l1 ++ a :: l2 ∧ wf D (l1 ++ l2) lw lr m' ∧
        m_cos m' = <[a := woken c]> (m_cos m) ∧
        has_bit (co_status (woken c)) NTY_COROUTINE_STATUS_SLEEPING = false ∧
        has_bit (co_status (woken c)) NTY_COROUTINE_STATUS_READY = true
    else m' = m) m.
Proof.
  intros Hwf Hs Hc Hsl. eapply wp_mono; [by eapply desched_sleepdown_spec|].
  cbv beta. intros _ m'. destruct (has_bit _ _) eqn:E; [|done].
  intros (l1 & l2 & t & -> & Hwf' & ->). exists l1, l2. rewrite !has_bit_testbit.
  change (co_status (woken c)) with
    (Z.land (Z.lor (Z.land (co_status c) (CLEARBIT NTY_COROUTINE_STATUS_SLEEPING))
      (BIT NTY_COROUTINE_STATUS_READY)) (CLEARBIT NTY_COROUTINE_STATUS_EXPIRED)).
  split_and!; [done..| |];
    rewrite !Z.land_spec, Z.lor_spec, Z.land_spec, !testbit_BIT, !testbit_CLEARBIT.
  - by rewrite !andb_false_r.
  - by rewrite orb_true_r.
Qed.

(** [nty_schedule_isdone] holds exactly when no coroutine waits, sleeps or is ready. *)
Theorem isdone_correct D ls lw lr s m :
  wf D ls lw lr m → m_sched m = Some s → sched_busy s = NULL →
  wp nty_schedule_isdone (λ r m', m' = m ∧ r = bool_decide (ls = [] ∧ lw = [] ∧ lr = [])) m.
Proof.
  intros Hwf Hs Hb. eapply wp_mono; [by eapply isdone_spec|]. cbv beta. intros r m' [-> ->].
  split; [done|]. apply bool_decide_ext. rewrite Hb. tauto.
Qed.

(** The record of a coroutine that was just created. *)
Definition created (func arg : Z) (s : nty_schedule) (t : Z * Z) : nty_coroutine :=
  NtyCoroutine func arg (BIT NTY_COROUTINE_STATUS_NEW) (u64 (t.1 * 1000000 + t.2))
    (u64 (sched_spawned_coroutines s)) (-1) 0 0 0.

(** With a scheduler, [nty_coroutine_create] either returns -2 because no memory is left,
    and changes nothing, or returns 0 and a new coroutine, numbered by the count of
    coroutines, in the state NEW, at the end of the ready queue; the count is
    incremented (as an int). *)
Theorem create_correct `{!OSLaws} D ls lw lr s func arg m :
  wf D ls lw lr m → m_sched m = Some s →
  wp (nty_coroutine_create func arg) (λ r m',
    match r with
    | (ret, None) => ret = (-2)%Z ∧ wf D ls lw lr m' ∧ m_cos m' = m_cos m ∧ m_sched m' = Some s
    | (ret, Some b) => ret = 0%Z ∧ (b ∉ D) ∧ wf ({[b]} ∪ D) ls lw (lr ++ [b]) m' ∧
        (∃ t, m_cos m' = <[b := created func arg s t]> (m_cos m)) ∧
        m_sched m' = Some (set_spawned_coroutines (i32 (sched_spawned_coroutines s + 1)) s)
    end) m.
Proof.
  intros Hwf Es. unfold nty_coroutine_create.
  apply wp_bind, wp_gets. rewrite Es. rewrite bool_decide_true by eauto.
  apply wp_bind, wp_ret, wp_bind, wp_gets. rewrite Es, bool_decide_true by eauto. apply wp_bind.
  eapply wp_mono; [by eapply calloc_spec|]. cbv beta. intros r m1 (e & k & _ & Hr).
  destruct r as [b|]; [|subst m1; apply wp_ret; split_and!; [done|by apply wf_sys_result|by destruct e..]].
  destruct Hr as [Hb ->].
  assert (wf D ls lw lr (sys_result e k m) ∧ m_cos (sys_result e k m) = m_cos m ∧
    m_sched (sys_result e k m) = Some s) as (Hwf1 & Ec & Es1)
    by (split; [by apply wf_sys_result|by destruct e]).
  set (m1 := sys_result e k m) in *. clearbody m1.
  eapply wp_bind, wp_get_sched; [exact Es1|]. eapply wp_bind, wp_sched_update; [exact Es1|].
  set (s1 := set_spawned_coroutines _ s).
  apply wp_bind, wp_bind, wp_syscall. intros t e2 k2 _. apply wp_ret.
  assert (sys_result e2 k2 (with_sched (Some s1) (alloc_entries b m1)) =
    alloc_entries b (sys_result e2 k2 (with_sched (Some s1) m1))) as -> by (by destruct e2).
  assert (wf D ls lw lr (sys_result e2 k2 (with_sched (Some s1) m1)) ∧
    m_cos (sys_result e2 k2 (with_sched (Some s1) m1)) = m_cos m ∧
    m_sched (sys_result e2 k2 (with_sched (Some s1) m1)) = Some s1) as (Hwf2 & Ec2 & Es2).
  { split; [|by destruct e2]. by apply wf_sys_result, wf_with_sched. }
  set (m2 := sys_result e2 k2 (with_sched (Some s1) m1)) in *. clearbody m2.
  eapply wp_bind, wp_co_update; [apply lookup_insert_eq|].
  eapply wp_bind, wp_co_sched; [apply lookup_insert_eq|exact Es2|]. apply wp_bind.
  eapply wp_ready_insert_tail.
  - eapply wf_update; [by apply wf_alloc|apply lookup_insert_eq| |]; intros Hin;
      exfalso; eapply Hb, wf_elems; eauto.
  - set_solver.
  - intros Hin. eapply Hb, wf_elems; eauto.
  - intros q Hwf3. apply wp_ret. split_and!; [done|done|done| |done].
    exists t. simpl. by rewrite insert_insert_eq, Ec2.
Qed.
End props.

(** The time given to [epoll_wait] never lasts beyond the deadline it is computed for;
    below a second it is the time left in whole milliseconds; from one second on the part
    below a second is lost, because [tv_nsec] is computed modulo 1000 microseconds. *)
Theorem epoll_timeout_correct usecs :
  (0 ≤ usecs < 2 ^ 31 * 1000)%Z →
  let t := epoll_timespec usecs in
  timeout_ms t.1 t.2 =
    Ok (if (usecs <? 1000000)%Z then usecs / 1000 else usecs / 1000000 * 1000)%Z ∧
  ((if (usecs <? 1000000)%Z then usecs / 1000 else usecs / 1000000 * 1000) * 1000 ≤ usecs)%Z.
Proof.
  intros Hu t. pose proof (epoll_ms usecs ltac:(lia)) as Hms. pose proof (epoll_ms_le usecs ltac:(lia)) as Hle.
  cbv zeta in *. fold t in Hms, Hle. unfold timeout_ms. rewrite Hms in *.
  split; [|lia]. rewrite (proj2 (Z.leb_le _ _)); [done|]. unfold INT_MAX. lia.
Qed.

(** A wait of more than about 24.8 days is outside the range of the [int] parameter of
    [epoll_wait]: the conversion of the milliseconds is undefined. *)
Theorem epoll_timeout_overflow usecs :
  (2 ^ 31 * 1000 + 1000000 ≤ usecs < 2 ^ 64)%Z →
  let t := epoll_timespec usecs in timeout_ms t.1 t.2 = Err Undefined.
Proof.
  intros Hu t. pose proof (epoll_ms usecs ltac:(lia)) as Hms. cbv zeta in Hms. fold t in Hms.
  unfold timeout_ms. rewrite Hms. rewrite (proj2 (Z.ltb_ge _ _)) by lia.
  rewrite (proj2 (Z.leb_gt _ _)); [done|]. unfold INT_MAX.
  pose proof (Z.div_mod usecs 1000000 ltac:(lia)). pose proof (Z.mod_pos_bound usecs 1000000 ltac:(lia)). lia.
Qed.

(** ** An example memory *)

(** Coroutine 1 waits for descriptor 7, 2 is ready, 3 sleeps until 5000, 4 is running. *)
Definition example_co (status fd deadline : Z) : nty_coroutine :=
  NtyCoroutine 0 0 status 0 0 fd 0 0 deadline.
Definition example_cos : gmap addr nty_coroutine := list_to_map [
  (1%positive, example_co (BIT NTY_COROUTINE_STATUS_READY) 7 0);
  (2%positive, example_co (BIT NTY_COROUTINE_STATUS_READY) (-1) 0);
  (3%positive, example_co (BIT NTY_COROUTINE_STATUS_SLEEPING) (-1) 5000);
  (4%positive, example_co (BIT NTY_COROUTINE_STATUS_READY) (-1) 0)].
Definition example_set (x : addr) : rbtree := RBTree (Some x) (list_to_map [
  (1, rbnode_zero); (2, rbnode_zero); (3, rbnode_zero); (4, rbnode_zero)])%positive.
Definition example_queue : qmem := list_to_map [
  (QHead 1, Cell (Some 2) (Some (QElm 2))); (QElm 2, Cell NULL (Some (QHead 1)));
  (QElm 1, cell_zero); (QElm 3, cell_zero); (QElm 4, cell_zero)]%positive.
Definition example_no_queue : qmem := list_to_map [
  (QHead 1, Cell NULL (Some (QHead 1))); (QElm 2, cell_zero);
  (QElm 1, cell_zero); (QElm 3, cell_zero); (QElm 4, cell_zero)]%positive.
Definition example_sched : nty_schedule :=
  NtySchedule 1000000 NTY_CO_MAX_STACKSIZE true 4 3000000 (Some 4%positive) 4096 3 4 [] 0 0 NULL.
Definition example_mem : mem rbtree qmem :=
  Mem example_cos (example_set 3) (example_set 1) example_queue example_no_queue
    (Some example_sched) 0 toy_start.

Definition example_later : @kernel toy_os := toy_clock toy_start 10.

Definition example_D : gset addr := dom example_cos.

Lemma example_set_rep x : x ∈ [1; 2; 3; 4]%positive → rb_rep (example_set x) example_D [x].
Proof.
  intros Hx. split; [by vm_compute|]. exists (Node RB_BLACK Leaf x Leaf).
  split_and!; [|by exists 1; repeat econstructor|done]. split_and!; try done; simpl.
  - repeat (apply elem_of_cons in Hx as [->|Hx]; [done|]). by apply not_elem_of_nil in Hx.
  - apply NoDup_singleton.
Qed.

Lemma example_entries m :
  m = example_queue ∨ m = example_no_queue → entries m example_D.
Proof.
  intros Hm x. assert (example_D = {[1; 2; 3; 4]}%positive) as -> by by vm_compute.
  assert (is_Some (m !! QElm x) ↔ x = 1 ∨ x = 2 ∨ x = 3 ∨ x = 4)%positive as ->; [|set_solver].
  destruct Hm as [-> | ->]; unfold example_queue, example_no_queue; simpl;
    rewrite !lookup_insert_is_Some', lookup_empty; unfold is_Some; naive_solver.
Qed.

Lemma example_wf : wf example_D [3%positive] [1%positive] [2%positive] example_mem.
Proof.
  constructor; try done.
  - by apply example_set_rep; set_solver.
  - by apply example_set_rep; set_solver.
  - split; [|by apply example_entries; left]. split_and!; try done. apply NoDup_singleton.
  - split; [|by apply example_entries; right]. split_and!; try done. apply NoDup_nil_2.
  - repeat constructor.
  - repeat constructor.
Qed.

Lemma sched_sleepdown_correct_witness :
  wp (nty_schedule_sched_sleepdown (Some 4%positive) 4) (λ _ m', ∃ j l1 l2, [3%positive] = l1 ++ l2 ∧
    first_free example_cos [3%positive] 4000 j ∧
    wf example_D (l1 ++ 4%positive :: l2) [1%positive] [2%positive] m' ∧
    m_cos m' = <[4%positive := asleep (u64 (4000 + Z.of_nat j)) (example_co 8 (-1) 0)]> example_cos ∧
    m_sched m' = Some example_sched ∧ m_kernel m' = example_later) example_mem.
Proof.
  apply (sched_sleepdown_correct example_D [3%positive] [1%positive] [2%positive] example_sched 4%positive
    (example_co 8 (-1) 0) 4 (1, 0)%Z None); try done.
  apply example_wf.
Defined.

Lemma expired_earliest_deadline_witness :
  wp nty_schedule_expired (λ r m', r = NULL ∧ m' = sys_result None example_later example_mem)
    example_mem.
Proof.
  apply (expired_earliest_deadline example_D [3%positive] [1%positive] [2%positive] example_sched
    (1, 0)%Z None example_later example_mem); try done.
  apply example_wf.
Defined.


Lemma min_timeout_correct_witness :
  wp nty_schedule_min_timeout (λ r m', m' = sys_result None example_later example_mem ∧
    r = 5000%Z) example_mem.
Proof.
  apply (min_timeout_correct example_D [3%positive] [1%positive] [2%positive] example_sched
    (1, 0)%Z None example_later example_mem); try done.
  - apply example_wf.
  - by intros a ->%list_elem_of_singleton.
Defined.

Lemma search_wait_correct_witness : nty_schedule_search_wait 8 example_mem = Err NullDeref.
Proof.
  apply (search_wait_correct example_D [3%positive] [1%positive] [2%positive] example_sched); try done.
  - apply example_wf.
  - by intros p ->%list_elem_of_singleton.
Defined.

Lemma example_may_wait : may_wait example_cos [1%positive] 9 POLLOUT (example_co 8 (-1) 0).
Proof. split_and!; try done; [by right|]. by constructor. Qed.

Lemma sched_wait_correct_witness :
  wp (nty_schedule_sched_wait (Some 4%positive) 9 POLLOUT 1) (λ _ m', ∃ l1 l2, [1%positive] = l1 ++ l2 ∧
    wf example_D [3%positive] (l1 ++ 4%positive :: l2) [2%positive] m' ∧
    m_cos m' = <[4%positive := waiting_for 9 POLLOUT (example_co 8 (-1) 0)]> example_cos) example_mem.
Proof.
  apply (sched_wait_correct example_D [3%positive] [1%positive] [2%positive] example_sched); try done.
  - apply example_wf.
  - set_solver.
  - apply example_may_wait.
Defined.

Lemma wait_flags_confused_witness :
  wp (nty_schedule_sched_wait (Some 4%positive) 9 POLLOUT 1) (λ _ m', ∃ c', m_cos m' !! 4%positive = Some c' ∧
    has_bit (co_status c') NTY_COROUTINE_STATUS_WAIT_READ = true ∧
    has_bit (co_status c') NTY_COROUTINE_STATUS_WAIT_WRITE = false) example_mem.
Proof.
  apply (wait_flags_confused example_D [3%positive] [1%positive] [2%positive] example_sched 4%positive
    (example_co 8 (-1) 0)); try done.
  - apply example_wf.
  - set_solver.
  - apply example_may_wait.
Defined.

Lemma desched_wait_correct_witness :
  wp (nty_schedule_desched_wait 7) (λ r m', r = Some 1%positive ∧ ∃ l1 l2, [1%positive] = l1 ++ 1%positive :: l2 ∧
    wf example_D [3%positive] (l1 ++ l2) [2%positive] m' ∧
    m_cos m' = <[1%positive := set_co_status 0 (example_co 8 7 0)]> example_cos) example_mem.
Proof.
  apply (desched_wait_correct example_D [3%positive] [1%positive] [2%positive] example_sched 1%positive
    (example_co 8 7 0)); try done.
  - apply example_wf.
  - set_solver.
Defined.

Lemma wait_roundtrip_witness :
  wp (nty_schedule_sched_wait (Some 4%positive) 9 POLLOUT 1;; nty_schedule_desched_wait 9)
    (λ r m', r = Some 4%positive ∧ wf example_D [3%positive] [1%positive] [2%positive] m' ∧
      m_cos m' = <[4%positive := set_co_events POLLOUT (set_co_fd 9 (set_co_status 0
        (example_co 8 (-1) 0)))]> example_cos) example_mem.
Proof.
  apply (wait_roundtrip example_D [3%positive] [1%positive] [2%positive] example_sched); try done.
  - apply example_wf.
  - set_solver.
  - apply example_may_wait.
Defined.

Lemma desched_sleepdown_correct_witness :
  wp (nty_schedule_desched_sleepdown (Some 3%positive)) (λ _ m',
    ∃ l1 l2, [3%positive] = l1 ++ 3%positive :: l2 ∧ wf example_D (l1 ++ l2) [1%positive] [2%positive] m' ∧
      m_cos m' = <[3%positive := woken (example_co 64 (-1) 5000)]> example_cos ∧
      has_bit (co_status (woken (example_co 64 (-1) 5000))) NTY_COROUTINE_STATUS_SLEEPING = false ∧
      has_bit (co_status (woken (example_co 64 (-1) 5000))) NTY_COROUTINE_STATUS_READY = true) example_mem.
Proof.
  apply (desched_sleepdown_correct example_D [3%positive] [1%positive] [2%positive] example_sched 3%positive
    (example_co 64 (-1) 5000)); try done.
  - apply example_wf.
  - set_solver.
Defined.

Lemma isdone_correct_witness :
  wp nty_schedule_isdone (λ r m', m' = example_mem ∧ r = false) example_mem.
Proof.
  apply (isdone_correct example_D [3%positive] [1%positive] [2%positive] example_sched); try done.
  apply example_wf.
Defined.

Lemma create_correct_witness :
  wp (nty_coroutine_create 1 2) (λ r m',
    match r with
    | (ret, None) => ret = (-2)%Z ∧ wf example_D [3%positive] [1%positive] [2%positive] m' ∧
        m_cos m' = example_cos ∧ m_sched m' = Some example_sched
    | (ret, Some b) => ret = 0%Z ∧ (b ∉ example_D) ∧
        wf ({[b]} ∪ example_D) [3%positive] [1%positive] [2%positive; b] m' ∧
        (∃ t, m_cos m' = <[b := created 1 2 example_sched t]> example_cos) ∧
        m_sched m' = Some (set_spawned_coroutines 5 example_sched)
    end) example_mem.
Proof.
  apply (create_correct example_D [3%positive] [1%positive] [2%positive] example_sched); try done.
  apply example_wf.
Defined.

Lemma epoll_timeout_correct_witness :
  timeout_ms (epoll_timespec 2500000).1 (epoll_timespec 2500000).2 = Ok 2000%Z ∧ (2000 * 1000 ≤ 2500000)%Z.
Proof. apply (epoll_timeout_correct 2500000). lia. Defined.

Lemma epoll_timeout_overflow_witness :
  timeout_ms (epoll_timespec (2 ^ 42)).1 (epoll_timespec (2 ^ 42)).2 = Err Undefined.
Proof. apply (epoll_timeout_overflow (2 ^ 42)). lia. Defined.

(** ** Keys of descriptors and events *)

(** The macros that pack a descriptor and its events into one 64-bit key ([FD_KEY], [FD_EVENT],
    [FD_ONLY]), and when what was packed is read back. *)
Module FdKey.
#[local] Open Scope Z_scope.

(** Two's complement reading of the low 64 bits, [int64_t]. *)
Definition i64 (z : Z) : Z := (z + 2 ^ 63) mod 2 ^ 64 - 2 ^ 63.

(** [sizeof(int32_t) * 8] *)
Definition key_shift : Z := 32.

(** [((int64_t)(f) << 32) | e] for an [int] [e], which is converted to 64 bits with its sign; the
    shift of a negative descriptor is undefined. *)
Definition FD_KEY (f e : Z) : res Z :=
  if f <? 0 then Err Undefined else Ok (i64 (Z.lor (Z.shiftl f key_shift) e)).
(** The conversion to [int32_t] keeps the low 32 bits. *)
Definition FD_EVENT (key : Z) : Z := i32 key.
(** The shift of a negative key is arithmetic. *)
Definition FD_ONLY (key : Z) : Z := Z.shiftr key key_shift.

Lemma i64_small z : - 2 ^ 63 ≤ z < 2 ^ 63 → i64 z = z.
Proof. intros. unfold i64. rewrite Z.mod_small; lia. Qed.

(** A number below [2 ^ 32] fills the low bits that the shift has cleared. *)
Lemma lor_low f e : 0 ≤ e < 2 ^ 32 → Z.lor (Z.shiftl f 32) e = f * 2 ^ 32 + e.
Proof.
  intros He. rewrite <- Z.shiftl_mul_pow2 by lia.
  assert (Z.land (Z.shiftl f 32) e = 0) as Hl.
  { apply Z.bits_inj'. intros n Hn. rewrite Z.land_spec, Z.bits_0. destruct (Z.lt_ge_cases n 32).
    - by rewrite Z.shiftl_spec_low.
    - rewrite <- (Z.mod_small e (2 ^ 32)), Z.mod_pow2_bits_high by lia. apply andb_false_r. }
  by rewrite Z.add_nocarry_lxor, Z.lxor_lor by done.
Qed.

(** A negative number of 32 bits covers what the shift has moved up. *)
Lemma shiftr_lor_negative f e : - 2 ^ 32 ≤ e < 0 → Z.shiftr (Z.lor (Z.shiftl f 32) e) 32 = -1.
Proof.
  intros He. rewrite Z.shiftr_lor, (Z.shiftr_div_pow2 e) by lia.
  replace (e / 2 ^ 32) with (-1); [apply Z.lor_m1_r|]. apply (Z.div_unique e (2 ^ 32) (-1) (e + 2 ^ 32)); lia.
Qed.

(** Whatever the events, they are read back from the key; the descriptor is read back when the
    events are not negative. *)
Theorem fd_key_round_trip f e :
  0 ≤ f < 2 ^ 31 → 0 ≤ e < 2 ^ 31 →
  ∃ key, FD_KEY f e = Ok key ∧ FD_EVENT key = e ∧ FD_ONLY key = f.
Proof.
  intros Hf He. unfold FD_KEY, key_shift. rewrite (proj2 (Z.ltb_ge f 0)) by lia.
  rewrite lor_low, i64_small by lia. eexists. split; [done|]. split.
  - unfold FD_EVENT, i32. rewrite <- Z.add_assoc, Z.add_comm, Z.mod_add, Z.mod_small; lia.
  - unfold FD_ONLY, key_shift. rewrite Z.shiftr_div_pow2, Z.div_add_l, Z.div_small; lia.
Qed.

(** The sign of negative events covers the descriptor: every descriptor is read back as -1. *)
Theorem fd_key_negative f e :
  0 ≤ f < 2 ^ 31 → - 2 ^ 31 ≤ e < 0 →
  ∃ key, FD_KEY f e = Ok key ∧ FD_ONLY key = -1.
Proof.
  intros Hf He. unfold FD_KEY, key_shift. rewrite (proj2 (Z.ltb_ge f 0)) by lia. eexists. split; [done|].
  pose proof (shiftr_lor_negative f e ltac:(lia)) as Hs. unfold FD_ONLY, key_shift.
  rewrite i64_small; [done|]. set (z := Z.lor _ _) in *. rewrite Z.shiftr_div_pow2 in Hs by lia.
  pose proof (Z.div_mod z (2 ^ 32) ltac:(lia)). pose proof (Z.mod_pos_bound z (2 ^ 32) ltac:(lia)). lia.
Qed.
End FdKey.
