(* ===== verification/Stack.v ===== *)
(** The stack of src/core/nty_coroutine.c that all coroutines run on: [_save_stack] copies the
    live part to the heap when a coroutine switches out, [_load_stack] copies it back before
    it is resumed.

    In Machine.v what remains of a coroutine's program stands for its context and its
    stack. This file shows that the bytes agree with that: whatever other coroutines do to
    the shared stack, a coroutine finds its own part as it left it. *)

From S2P Require Export Coroutine.

(** [co->stack], [co->stack_size], and whether the coroutine has not run yet. *)
Record costack : Type := CoStack {
  cs_stack : option (list byte);
  cs_stack_size : Z;
  cs_new : bool;
}.

(** As [nty_coroutine_create] leaves it. *)
Definition costack_init : costack := CoStack None 0 true.

Record stacks : Type := Stacks {
  st_stack : list byte;               (* sched->stack, of sched->stack_size bytes *)
  st_cos : gmap addr costack;
}.
Abbreviation SK := (ST stacks).

Definition get_co (co : ptr) : SK costack := λ s,
  match co with
  | None => Err NullDeref
  | Some a => match st_cos s !! a with None => Err Dangling | Some c => Ok (c, s) end
  end.
Definition set_co (co : ptr) (c : costack) : SK unit := λ s,
  match co with
  | None => Err NullDeref
  | Some a => Ok (tt, Stacks (st_stack s) (<[a := c]> (st_cos s)))
  end.
Definition set_stack (b : list byte) : SK unit := modify (λ s, Stacks b (st_cos s)).

(** [memcpy(dst + off, src, n)] into the bytes [dst]. *)
Definition memcpy (dst : list byte) (off : Z) (src : list byte) (n : Z) : res (list byte) :=
  if (n <? 0)%Z || (off <? 0)%Z || (Z.of_nat (length dst) <? off + n)%Z ||
     (Z.of_nat (length src) <? n)%Z
  then Err Undefined
  else Ok (take (Z.to_nat off) dst ++ take (Z.to_nat n) src ++ drop (Z.to_nat (off + n)) dst).

Section switching.
(** [realloc]: the new block, or none. Its bytes beyond the old block are arbitrary. *)
Variable realloc : option (list byte) → Z → option (list byte).

(** [sp] is the offset of the local variable [dummy]. *)
Definition _save_stack (co : ptr) (sp : Z) : SK unit :=
  s ← gets st_stack;
  let top := Z.of_nat (length s) in
  if (sp <? 0)%Z || (top <=? sp)%Z then throw Undefined else
  set_stack (<[Z.to_nat sp := x00]> s);;
  c_assert (top - sp <=? NTY_CO_MAX_STACKSIZE)%Z;;
  c ← get_co co;
  (if (cs_stack_size c <? top - sp)%Z then
     match realloc (cs_stack c) (top - sp) with
     | None => throw AssertFail
     | Some b => set_co co (CoStack (Some b) (cs_stack_size c) (cs_new c))
     end
   else mret tt);;
  c ← get_co co;
  set_co co (CoStack (cs_stack c) (top - sp) (cs_new c));;
  c ← get_co co;
  s ← gets st_stack;
  match cs_stack c with
  | None => throw NullDeref
  | Some b =>
      b ← of_res (memcpy b 0 (drop (Z.to_nat sp) s) (cs_stack_size c));
      set_co co (CoStack (Some b) (cs_stack_size c) (cs_new c))
  end.

Definition _load_stack (co : ptr) : SK unit :=
  c ← get_co co;
  s ← gets st_stack;
  match cs_stack c with
  | None => if (cs_stack_size c =? 0)%Z then mret tt else throw NullDeref
  | Some b =>
      s ← of_res (memcpy s (Z.of_nat (length s) - cs_stack_size c) b (cs_stack_size c));
      set_stack s
  end.

(** The part of [nty_coroutine_resume] before the switch, and that of
    [nty_coroutine_yield]; [exited] is the bit of the status. *)
Definition resume_stack (co : ptr) : SK unit :=
  c ← get_co co;
  if cs_new c then set_co co (CoStack (cs_stack c) (cs_stack_size c) false)
  else _load_stack co.
Definition yield_stack (co : ptr) (exited : bool) (sp : Z) : SK unit :=
  if exited then mret tt else _save_stack co sp.

(** [nty_coroutine_free] *)
Definition free_stack (co : addr) : SK unit := modify (λ s, Stacks (st_stack s) (delete co (st_cos s))).

(** A coroutine runs from a switch to the next: it does to the stack what it likes. When it
    has exited it is freed by [nty_coroutine_resume]. *)
Record slice : Type := Slice {
  sl_co : addr;
  sl_body : list byte → list byte;
  sl_exited : bool;
  sl_sp : Z;
}.

Definition run_slice (x : slice) : SK unit :=
  resume_stack (Some (sl_co x));;
  modify (λ s, Stacks (sl_body x (st_stack s)) (st_cos s));;
  yield_stack (Some (sl_co x)) (sl_exited x) (sl_sp x);;
  when (sl_exited x) (free_stack (sl_co x)).

Fixpoint run_slices (xs : list slice) : SK unit :=
  match xs with [] => mret tt | x :: xs => run_slice x;; run_slices xs end.
End switching.

(** ** Specifications *)

Section specs.
Variable realloc : option (list byte) → Z → option (list byte).
Variables (n : Z) (E : error → Prop).
Hypothesis realloc_length : ∀ b k, (0 < k)%Z →
  match realloc b k with Some b' => Z.of_nat (length b') = k | None => E AssertFail end.
Hypothesis small : (n ≤ NTY_CO_MAX_STACKSIZE)%Z ∨ E AssertFail.

(** The saved part is in its block, and fits the stack. *)
Definition co_fits (c : costack) : Prop :=
  (0 ≤ cs_stack_size c ≤ n)%Z ∧
  match cs_stack c with
  | None => cs_stack_size c = 0%Z
  | Some b => (cs_stack_size c ≤ Z.of_nat (length b))%Z
  end.

Definition stk_ok (s : stacks) : Prop :=
  Z.of_nat (length (st_stack s)) = n ∧ ∀ a c, st_cos s !! a = Some c → co_fits c.

(** A body works within the stack and calls [nty_coroutine_yield] on it. *)
Definition slice_ok (x : slice) : Prop :=
  (∀ s, length (sl_body x s) = length s) ∧ (sl_exited x = false → (0 ≤ sl_sp x < n)%Z).

(** Only coroutines that have not exited run. *)
Fixpoint slices_ok (D : gset addr) (xs : list slice) : Prop :=
  match xs with
  | [] => True
  | x :: xs =>
      slice_ok x ∧ sl_co x ∈ D ∧ slices_ok (if sl_exited x then D ∖ {[sl_co x]} else D) xs
  end.

Lemma memcpy_ok dst off src k :
  (0 ≤ k ≤ Z.of_nat (length src))%Z → (0 ≤ off)%Z → (off + k ≤ Z.of_nat (length dst))%Z →
  memcpy dst off src k =
    Ok (take (Z.to_nat off) dst ++ take (Z.to_nat k) src ++ drop (Z.to_nat (off + k)) dst).
Proof.
  intros ???. unfold memcpy.
  rewrite (proj2 (Z.ltb_ge k 0)), (proj2 (Z.ltb_ge off 0)), (proj2 (Z.ltb_ge _ (off + k))),
    (proj2 (Z.ltb_ge _ k)) by lia. done.
Qed.

Lemma get_co_ok a c s : st_cos s !! a = Some c → get_co (Some a) s = Ok (c, s).
Proof. unfold get_co. by intros ->. Qed.

Lemma wp_get_co a c (P : costack → stacks → Prop) s :
  st_cos s !! a = Some c → P c s → wp (get_co (Some a)) P s.
Proof. intros Ha HP. unfold wp. by rewrite (get_co_ok a c). Qed.

(** What is saved of coroutine [a] is the stack from [sp] on. *)
Definition saved (a : addr) (sp : Z) (live : list byte) (s : stacks) : Prop :=
  ∃ b, st_cos s !! a = Some (CoStack (Some b) (n - sp) false) ∧ take (Z.to_nat (n - sp)) b = live.

Lemma save_stack_spec a sp s c :
  stk_ok s → st_cos s !! a = Some c → cs_new c = false → (0 ≤ sp < n)%Z →
  wpe E (_save_stack realloc (Some a) sp) (λ _ s',
    st_stack s' = <[Z.to_nat sp := x00]> (st_stack s) ∧
    (∀ b, b ≠ a → st_cos s' !! b = st_cos s !! b) ∧ stk_ok s' ∧
    saved a sp (drop (Z.to_nat sp) (st_stack s')) s') s.
Proof.
  intros [Hn Hfits] Ha Hnew Hsp. unfold _save_stack. apply wpe_bind, wpe_of_wp, wp_gets.
  rewrite (proj2 (Z.ltb_ge sp 0)), (proj2 (Z.leb_gt _ sp)) by lia. simpl orb. cbv iota. rewrite Hn.
  set (stk := <[Z.to_nat sp := x00]> (st_stack s)).
  assert (Z.of_nat (length stk) = n) as Hlen by (unfold stk; by rewrite length_insert).
  apply wpe_bind, wpe_of_wp, wp_modify. fold stk. apply wpe_bind. unfold c_assert.
  destruct (Z.leb_spec (n - sp) NTY_CO_MAX_STACKSIZE).
  2: { destruct small; [lia|done]. }
  apply wpe_of_wp, wp_ret. destruct (Hfits a c Ha) as [Hsz Hblk].
  eapply (wpe_wp_bind E), wp_get_co; [exact Ha|].
  (* the block *)
  assert (wpe E (if (cs_stack_size c <? n - sp)%Z then
     match realloc (cs_stack c) (n - sp) with
     | None => throw AssertFail
     | Some b => set_co (Some a) (CoStack (Some b) (cs_stack_size c) (cs_new c))
     end
   else mret tt) (λ _ s', ∃ b, (n - sp ≤ Z.of_nat (length b))%Z ∧ st_stack s' = stk ∧
     st_cos s' !! a = Some (CoStack (Some b) (cs_stack_size c) false) ∧
     ∀ a', a' ≠ a → st_cos s' !! a' = st_cos s !! a') (Stacks stk (st_cos s))) as Hblock.
  { destruct (Z.ltb_spec (cs_stack_size c) (n - sp)).
    - pose proof (realloc_length (cs_stack c) (n - sp) ltac:(lia)) as Hre. destruct (realloc _ _) as [b|]; [|done].
      unfold set_co, wpe. exists b. split_and!; [lia|done| |].
      + simpl. by rewrite lookup_insert_eq, Hnew.
      + intros a' Ha'. by apply lookup_insert_ne.
    - apply wpe_of_wp, wp_ret. destruct (cs_stack c) as [b|] eqn:Eb; [|lia]. exists b.
      split_and!; [lia|done| |done]. simpl. rewrite Ha. destruct c; simpl in *. by subst. }
  apply wpe_bind. eapply wpe_mono; [exact Hblock|]. cbv beta. intros _ s1 (b & Hb & Hs1 & Ha1 & Ho1).
  eapply (wpe_wp_bind E), wp_get_co; [exact Ha1|]. simpl.
  apply wpe_bind. unfold set_co at 1, wpe at 1. eapply (wpe_wp_bind E), wp_get_co; [simpl; apply lookup_insert_eq|]. simpl.
  apply wpe_bind, wpe_of_wp, wp_gets. simpl. rewrite Hs1.
  rewrite memcpy_ok by (rewrite ?length_drop; lia). apply wpe_bind. unfold of_res, wpe at 1.
  unfold set_co, wpe. simpl. set (b' := take (Z.to_nat (n - sp)) (drop (Z.to_nat sp) stk) ++ drop (Z.to_nat (n - sp)) b).
  assert (length (drop (Z.to_nat sp) stk) = Z.to_nat (n - sp)) as Hdrop by (rewrite length_drop; lia).
  assert (take (Z.to_nat (n - sp)) b' = drop (Z.to_nat sp) stk) as Hb'.
  { unfold b'. rewrite take_app_le by (rewrite length_take; lia). rewrite take_take, Nat.min_id.
    apply take_ge. lia. }
  split_and!; [done| | |].
  - intros a' Ha'. rewrite !lookup_insert_ne by done. by apply Ho1.
  - split; simpl; [done|]. intros a' c' Hc'. destruct (decide (a' = a)) as [->|Hne].
    + rewrite lookup_insert_eq in Hc'. injection Hc' as <-. split; simpl; [lia|].
      unfold b'. rewrite length_app, length_take, length_drop. lia.
    + rewrite !lookup_insert_ne in Hc' by done. rewrite Ho1 in Hc' by done. by eapply Hfits.
  - exists b'. simpl. rewrite lookup_insert_eq. split; [done|exact Hb'].
Qed.

Lemma load_stack_spec a s c :
  stk_ok s → st_cos s !! a = Some c →
  wp (_load_stack (Some a)) (λ _ s', stk_ok s' ∧ st_cos s' = st_cos s ∧
    ∀ sp live, (0 ≤ sp < n)%Z → saved a sp live s → drop (Z.to_nat sp) (st_stack s') = live) s.
Proof.
  intros [Hn Hfits] Ha. unfold _load_stack. apply wp_bind. eapply wp_get_co; [exact Ha|]. apply wp_bind, wp_gets. destruct (Hfits a c Ha) as [Hsz Hblk].
  destruct (cs_stack c) as [b|] eqn:Eb.
  - rewrite memcpy_ok by lia. apply wp_bind. eapply wp_of_res; [done|]. apply wp_modify. simpl.
    rewrite Z.sub_add, Hn. set (z := cs_stack_size c) in *.
    rewrite (drop_ge (st_stack s)), app_nil_r by lia.
    assert (length (take (Z.to_nat (n - z)) (st_stack s)) = Z.to_nat (n - z)) as Hl1
      by (rewrite length_take; lia).
    split_and!; [|done|].
    + split; [|done]. simpl. rewrite length_app, Hl1, length_take. lia.
    + intros sp live Hsp (b' & Ha' & <-). rewrite Ha in Ha'. injection Ha' as ->. simpl in *.
      injection Eb as ->. unfold z in *. rewrite drop_app_ge by lia. rewrite Hl1.
      by replace (Z.to_nat sp - Z.to_nat (n - (n - sp))) with 0 by lia.
  - rewrite Hblk. apply wp_ret. split_and!; [done|done|]. intros sp live Hsp (b' & Ha' & _).
    rewrite Ha in Ha'. injection Ha' as ->. done.
Qed.

Lemma resume_stack_spec a s c :
  stk_ok s → st_cos s !! a = Some c →
  wp (resume_stack (Some a)) (λ _ s', stk_ok s' ∧ (∀ b, b ≠ a → st_cos s' !! b = st_cos s !! b) ∧
    (∃ c', st_cos s' !! a = Some c' ∧ cs_new c' = false) ∧
    ∀ sp live, (0 ≤ sp < n)%Z → saved a sp live s → drop (Z.to_nat sp) (st_stack s') = live) s.
Proof.
  intros Hok Ha. unfold resume_stack. apply wp_bind. eapply wp_get_co; [exact Ha|]. destruct (cs_new c) eqn:Enew.
  - unfold wp, set_co. destruct Hok as [Hn Hfits]. split_and!.
    + split; [done|]. simpl. intros b cb Hb. destruct (decide (b = a)) as [->|Hne].
      * rewrite lookup_insert_eq in Hb. injection Hb as <-. by apply (Hfits a c).
      * rewrite lookup_insert_ne in Hb by done. by eapply Hfits.
    + intros b Hb. by apply lookup_insert_ne.
    + eexists. split; [apply lookup_insert_eq|done].
    + intros sp live Hsp (b & Hb & _). rewrite Ha in Hb. injection Hb as ->. done.
  - eapply wp_mono; [by eapply load_stack_spec|]. cbv beta. intros _ s' (Hok' & Hs' & Hlive).
    rewrite Hs'. split_and!; [done|done|by eauto|done].
Qed.

Definition alloc_is (D : gset addr) (s : stacks) : Prop := ∀ b, is_Some (st_cos s !! b) ↔ b ∈ D.

Lemma run_slice_spec x D s :
  stk_ok s → alloc_is D s → slice_ok x → sl_co x ∈ D →
  wpe E (run_slice realloc x) (λ _ s', stk_ok s' ∧
    alloc_is (if sl_exited x then D ∖ {[sl_co x]} else D) s' ∧
    (∀ b, b ≠ sl_co x → st_cos s' !! b = st_cos s !! b) ∧
    (sl_exited x = false →
      saved (sl_co x) (sl_sp x) (drop (Z.to_nat (sl_sp x)) (st_stack s')) s')) s.
Proof.
  intros Hok HD [Hbody Hsp] Hco. destruct (proj2 (HD _) Hco) as [c Hc]. unfold run_slice.
  eapply wpe_wp_bind. eapply wp_mono; [by eapply resume_stack_spec|].
  cbv beta. intros _ s1 (Hok1 & Ho1 & (c1 & Hc1 & Hnew) & _).
  apply wpe_bind, wpe_of_wp, wp_modify.
  set (s2 := Stacks (sl_body x (st_stack s1)) (st_cos s1)).
  assert (stk_ok s2) as Hok2.
  { destruct Hok1 as [Hn Hf]. split; [|exact Hf]. simpl. by rewrite Hbody. }
  unfold yield_stack, when. apply wpe_bind. destruct (sl_exited x).
  - apply wpe_of_wp, wp_ret, wpe_of_wp, wp_modify. split_and!; [| | |done].
    + destruct Hok2 as [Hn Hf]. split; [done|]. simpl. intros a ca [_ Ha]%lookup_delete_Some. by eapply Hf.
    + intros b. simpl. rewrite lookup_delete_is_Some, elem_of_difference, elem_of_singleton.
      destruct (decide (b = sl_co x)) as [->|Hne]; [naive_solver|]. rewrite Ho1 by done. pose proof (HD b). naive_solver.
    + intros b Hb. simpl. rewrite lookup_delete_ne by done. by apply Ho1.
  - eapply wpe_mono; [eapply (save_stack_spec (sl_co x) (sl_sp x) s2 c1); auto|].
    cbv beta. intros _ s3 (_ & Ho3 & Hok3 & Hsv). apply wpe_of_wp, wp_ret. split_and!; [done| | |done].
    + intros b. destruct (decide (b = sl_co x)) as [->|Hne].
      * destruct Hsv as (b & Hb & _). rewrite Hb. split; [done|by eexists].
      * rewrite Ho3 by done. simpl. rewrite Ho1 by done. apply HD.
    + intros b Hb. rewrite Ho3 by done. by apply Ho1.
Qed.

(** Slices of other coroutines do not touch what is saved of [a]. *)
Lemma run_slices_spec xs : ∀ D s,
  stk_ok s → alloc_is D s → slices_ok D xs →
  wpe E (run_slices realloc xs) (λ _ s', stk_ok s' ∧
    ∀ a, Forall (λ x, sl_co x ≠ a) xs → st_cos s' !! a = st_cos s !! a) s.
Proof.
  induction xs as [|x xs IH]; intros D s Hok HD; simpl; [intros _; by apply wpe_of_wp, wp_ret|].
  intros (Hx & Hco & Hxs). apply wpe_bind. eapply wpe_mono; [by eapply (run_slice_spec x D s)|].
  cbv beta. intros _ s1 (Hok1 & HD1 & Ho1 & _). eapply wpe_mono; [by eapply IH|].
  cbv beta. intros _ s2 [Hok2 Ho2]. split; [done|]. intros a [Hne Ha]%Forall_cons.
  rewrite Ho2 by done. by apply Ho1.
Qed.
End specs.

(** ** Properties *)

(** Whatever coroutines do to the shared stack between their switches and in whatever order
    they run, saving and loading stays within the blocks and within the stack: only the two
    assertions of [_save_stack] can fail, and every saved part stays within its block. *)
Theorem stack_switching_safe realloc n D s xs :
  (∀ b k, (0 < k)%Z → match realloc b k with Some b' => Z.of_nat (length b') = k | None => True end) →
  stk_ok n s → alloc_is D s → slices_ok n D xs →
  match run_slices realloc xs s with
  | Ok (_, s') => stk_ok n s'
  | Err e => e = AssertFail
  end.
Proof.
  intros Hre Hok HD Hxs.
  assert (wpe (λ e, e = AssertFail) (run_slices realloc xs) (λ _, stk_ok n) s) as Hw; [|exact Hw].
  eapply wpe_mono; [eapply (run_slices_spec realloc n (λ e, e = AssertFail))|]; eauto.
  - intros b k Hk. specialize (Hre b k Hk). by destruct (realloc b k).
  - by intros _ s' [? _].
Qed.

(** C8: when memory does not run out and the stack has at most the default size, a coroutine
    that switches out, is followed by any slices of other coroutines on the same stack, and
    is resumed, finds its part of the stack byte for byte as it was when it switched. *)
Theorem stack_restored realloc n D s x xs :
  (∀ b k, (0 < k)%Z → ∃ b', realloc b k = Some b' ∧ Z.of_nat (length b') = k) →
  (n ≤ NTY_CO_MAX_STACKSIZE)%Z →
  stk_ok n s → alloc_is D s → sl_exited x = false → slices_ok n D (x :: xs) →
  Forall (λ y, sl_co y ≠ sl_co x) xs →
  wp (run_slice realloc x) (λ _ s1,
    wp (run_slices realloc xs;; resume_stack (Some (sl_co x))) (λ _ s2,
      drop (Z.to_nat (sl_sp x)) (st_stack s2) = drop (Z.to_nat (sl_sp x)) (st_stack s1)) s1) s.
Proof.
  intros Hre Hsmall Hok HD Hex (Hx & Hco & Hxs) Hother. rewrite Hex in Hxs.
  assert (∀ b k, (0 < k)%Z →
    match realloc b k with Some b' => Z.of_nat (length b') = k | None => False end) as Hre'.
  { intros b k Hk. destruct (Hre b k Hk) as (b' & -> & ?). done. }
  pose proof (run_slice_spec realloc n (λ _, False) Hre' (or_introl Hsmall) x D s Hok HD Hx Hco) as H1.
  eapply (wp_mono (run_slice realloc x)); [exact H1|]. cbv beta. rewrite Hex.
  intros _ s1 (Hok1 & HD1 & _ & Hsv). apply wp_bind.
  pose proof (run_slices_spec realloc n (λ _, False) Hre' (or_introl Hsmall) xs D s1 Hok1 HD1 Hxs) as H2.
  eapply (wp_mono (run_slices realloc xs)); [exact H2|]. cbv beta. intros _ s2 [Hok2 Ho2].
  destruct (Hsv eq_refl) as (b & Hb & Hlive).
  assert (st_cos s2 !! sl_co x = Some (CoStack (Some b) (n - sl_sp x) false)) as Hb2 by by rewrite Ho2.
  eapply wp_mono; [by eapply resume_stack_spec|]. cbv beta. intros _ s3 (_ & _ & _ & Hlive3).
  destruct Hx as [_ Hsp]. apply Hlive3; [auto|]. by exists b.
Qed.

(** ** Examples *)

(** A [realloc] that never fails. *)
Definition example_realloc (b : option (list byte)) (k : Z) : option (list byte) :=
  Some (replicate (Z.to_nat k) xff).
(** Two new coroutines on a stack of eight bytes. *)
Definition example_stacks : stacks := Stacks (replicate 8 x00)
  (list_to_map [(1, costack_init); (2, costack_init)]%positive).
Definition example_slice1 : slice :=
  Slice 1%positive (λ s, take 5 s ++ replicate (length s - length (take 5 s)) x11) false 4.
Definition example_slice2 : slice := Slice 2%positive (λ s, replicate (length s) x22) false 1.

Lemma example_stacks_ok : stk_ok 8 example_stacks ∧ alloc_is (dom (st_cos example_stacks)) example_stacks.
Proof.
  split; [split; [done|]|by intros b; rewrite elem_of_dom].
  intros a c Hc. assert (c = costack_init) as ->; [|by split].
  unfold example_stacks in Hc. simpl in Hc.
  repeat (apply lookup_insert_Some in Hc as [[_ <-]|[_ Hc]]; [done|]). by rewrite lookup_empty in Hc.
Qed.

Lemma example_slices_ok :
  slices_ok 8 (dom (st_cos example_stacks)) [example_slice1; example_slice2].
Proof.
  assert (1%positive ∈ dom (st_cos example_stacks) ∧ 2%positive ∈ dom (st_cos example_stacks)) as [H1 H2].
  { split; apply elem_of_dom; by eexists. }
  refine (conj (conj _ _) (conj H1 (conj (conj _ _) (conj H2 I)))); try done.
  - intros s. simpl. rewrite length_app, length_replicate, length_take. lia.
  - intros s. apply length_replicate.
Qed.

Lemma stack_switching_safe_witness :
  match run_slices example_realloc [example_slice1; example_slice2] example_stacks with
  | Ok (_, s') => stk_ok 8 s'
  | Err e => e = AssertFail
  end.
Proof.
  destruct example_stacks_ok as [Hok HD].
  apply (stack_switching_safe example_realloc 8 (dom (st_cos example_stacks))); [|exact Hok|exact HD|].
  - intros b k Hk. simpl. rewrite length_replicate. lia.
  - exact example_slices_ok.
Defined.

Lemma stack_restored_witness :
  wp (run_slice example_realloc example_slice1) (λ _ s1,
    wp (run_slices example_realloc [example_slice2];; resume_stack (Some 1%positive)) (λ _ s2,
      drop 4 (st_stack s2) = drop 4 (st_stack s1)) s1) example_stacks.
Proof.
  destruct example_stacks_ok as [Hok HD].
  apply (stack_restored example_realloc 8 (dom (st_cos example_stacks)) example_stacks example_slice1
    [example_slice2]); [| |exact Hok|exact HD|done|exact example_slices_ok|].
  - intros b k Hk. eexists. split; [done|]. rewrite length_replicate. lia.
  - done.
  - apply Forall_singleton. done.
Defined.

(** The second coroutine overwrote the whole stack. *)
Example stacks_run :
  match (run_slice example_realloc example_slice1;; run_slice example_realloc example_slice2;;
         s2 ← gets st_stack; resume_stack (Some 1%positive);; s3 ← gets st_stack; mret (s2, s3))
        example_stacks with
  | Ok ((s2, s3), _) => (s2, s3)
  | Err _ => ([], [])
  end = ([x22; x00; x22; x22; x22; x22; x22; x22], [x22; x00; x22; x22; x00; x11; x11; x11]).
Proof. vm_compute. reflexivity. Qed.
