(* ===== verification/CpuSwitch.v ===== *)
(** * The context switch in assembly (src/core/nty_coroutine.c without [_USE_UCONTEXT])

    [_switch] saves the callee-saved registers, the stack pointer and the return address of
    its caller in one [nty_cpu_ctx] and loads them from another. This file has a processor
    with the instructions it uses, the two versions of its code, and the functions around it
    that depend on it: the first context of a coroutine ([nty_coroutine_init]), the calls of
    [_switch] in [nty_coroutine_yield] and [nty_coroutine_resume], and
    [nty_coroutine_madvise], which gives back the part of a stack that is not in use.

    What the rest of the library needs of [_switch] is the class [Switch]: a call stores the
    context of its caller, loads the other one, and changes no other memory. *)

From S2P Require Import Prelude.
Local Open Scope Z_scope.

(** * The processor

    Memory is a finite map from the addresses of aligned words to their values: an address
    that is not in the map is not mapped. *)

Class Arch := {
  reg : Type;
  reg_eq_dec :: EqDecision reg;
  word : Z;                     (* the size of a pointer *)
  word_pos : 0 < word;
  sp : reg;                     (* the stack pointer *)
  callee_saved : list (reg * Z) (* with the field of the context each is kept in *)
}.

Inductive instr (R : Type) : Type :=
  | Store (src : R) (off : Z) (base : R)   (* mov %src, off(%base) *)
  | Load (off : Z) (base : R) (dst : R)    (* mov off(%base), %dst *)
  | Ret.
Arguments Store {R} src off base.
Arguments Load {R} off base dst.
Arguments Ret {R}.

Section processor.
Context `{A : Arch}.

Record cpu := { regs : reg → Z; pc : Z; mem : gmap Z Z }.

(** Addresses wrap around at the width of the machine. *)
Definition wrap (z : Z) : Z := z mod 2 ^ (8 * word).

Definition upd (r : reg) (v : Z) (f : reg → Z) (r' : reg) : Z :=
  if decide (r' = r) then v else f r'.

Definition set_reg (r : reg) (v : Z) : ST cpu unit :=
  modify (λ c, {| regs := upd r v (regs c); pc := pc c; mem := mem c |}).

Definition jump (v : Z) : ST cpu unit :=
  modify (λ c, {| regs := regs c; pc := v; mem := mem c |}).

(** An address that is not a multiple of the word size is outside the model of memory. *)
Definition load (a : Z) : ST cpu Z := λ c,
  if a mod word =? 0 then
    match mem c !! a with Some v => Ok (v, c) | None => Err Dangling end
  else Err Undefined.

Definition store (a v : Z) : ST cpu unit := λ c,
  if a mod word =? 0 then
    match mem c !! a with
    | Some _ => Ok (tt, {| regs := regs c; pc := pc c; mem := <[a := v]> (mem c) |})
    | None => Err Dangling
    end
  else Err Undefined.

Definition exec (i : instr reg) : ST cpu unit :=
  match i with
  | Store r off b =>
      base ← gets (λ c, regs c b); v ← gets (λ c, regs c r); store (wrap (base + off)) v
  | Load off b r =>
      base ← gets (λ c, regs c b); v ← load (wrap (base + off)); set_reg r v
  | Ret =>
      s ← gets (λ c, regs c sp); v ← load s; set_reg sp (wrap (s + word));; jump v
  end.

Fixpoint run (l : list (instr reg)) : ST cpu unit :=
  match l with [] => mret tt | i :: l => exec i;; run l end.

(** [push] of a value, as a call does it with its return address. *)
Definition push (v : Z) : ST cpu unit :=
  s ← gets (λ c, regs c sp);
  set_reg sp (wrap (s - word));; store (wrap (s - word)) v.
End processor.

Arguments cpu : clear implicits.
Arguments cpu A : rename.

(** * The two versions of [_switch] *)

Module X86_64.
Inductive register := rax | rbx | rsp | rbp | rsi | rdi | r12 | r13 | r14 | r15.

#[export] Instance register_eq_dec : EqDecision register.
Proof. solve_decision. Defined.

(** nty_coroutine.c under [__x86_64__]. *)
Definition _switch : list (instr register) :=
  [ Store rsp 0 rsi;
    Store rbp 8 rsi;
    Load 0 rsp rax;
    Store rax 16 rsi;
    Store rbx 24 rsi;
    Store r12 32 rsi;
    Store r13 40 rsi;
    Store r14 48 rsi;
    Store r15 56 rsi;
    Load 56 rdi r15;
    Load 48 rdi r14;
    Load 40 rdi r13;
    Load 32 rdi r12;
    Load 24 rdi rbx;
    Load 8 rdi rbp;
    Load 0 rdi rsp;
    Load 16 rdi rax;
    Store rax 0 rsp;
    Ret ].

#[export] Instance arch : Arch := {|
  reg := register; word := 8; word_pos := eq_refl; sp := rsp;
  callee_saved := [(rbp, 1); (rbx, 3); (r12, 4); (r13, 5); (r14, 6); (r15, 7)] |}.

(** The calling convention: two arguments in registers. *)
Definition place_args (new_ctx cur_ctx : Z) : ST (cpu arch) unit :=
  set_reg (A := arch) rdi new_ctx;; set_reg (A := arch) rsi cur_ctx.
End X86_64.

Module I386.
Inductive register := eax | ebx | edx | esp | ebp | esi | edi.

#[export] Instance register_eq_dec : EqDecision register.
Proof. solve_decision. Defined.

(** nty_coroutine.c under [__i386__]. *)
Definition _switch : list (instr register) :=
  [ Load 8 esp edx;
    Store esp 0 edx;
    Store ebp 4 edx;
    Load 0 esp eax;
    Store eax 8 edx;
    Store ebx 12 edx;
    Store esi 16 edx;
    Store edi 20 edx;
    Load 4 esp edx;
    Load 20 edx edi;
    Load 16 edx esi;
    Load 12 edx ebx;
    Load 0 edx esp;
    Load 4 edx ebp;
    Load 8 edx eax;
    Store eax 0 esp;
    Ret ].

#[export] Instance arch : Arch := {|
  reg := register; word := 4; word_pos := eq_refl; sp := esp;
  callee_saved := [(ebp, 1); (ebx, 3); (esi, 4); (edi, 5)] |}.

(** The calling convention: two arguments on the stack. *)
Definition place_args (new_ctx cur_ctx : Z) : ST (cpu arch) unit :=
  push (A := arch) cur_ctx;; push (A := arch) new_ctx.
End I386.

(** * Calling it *)

Section calling.
Context `{A : Arch}.

(** The fields of [nty_cpu_ctx], as indices of words. *)
Definition CTX_esp : Z := 0.
Definition CTX_ebp : Z := 1.
Definition CTX_eip : Z := 2.
Definition CTX_words : Z := 11.

Definition field (ctx i : Z) : Z := ctx + i * word.

(** What a context holds: where its owner goes on, and with which registers. *)
Record frame := { f_sp : Z; f_pc : Z; f_regs : reg → Z }.

Definition holds (m : gmap Z Z) (ctx : Z) (f : frame) : Prop :=
  m !! field ctx CTX_esp = Some (f_sp f) ∧ m !! field ctx CTX_eip = Some (f_pc f) ∧
  Forall (λ '(r, i), m !! field ctx i = Some (f_regs f r)) callee_saved.

(** A context is a block of mapped words. *)
Definition in_ctx (ctx a : Z) : Prop := ctx ≤ a < ctx + CTX_words * word.
Definition ctx_ok (m : gmap Z Z) (ctx : Z) : Prop :=
  (word | ctx) ∧ 0 ≤ ctx ∧ ctx + CTX_words * word ≤ 2 ^ (8 * word) ∧
  ∀ i, 0 ≤ i < CTX_words → is_Some (m !! field ctx i).

(** A word of a stack. *)
Definition slot_ok (m : gmap Z Z) (a : Z) : Prop :=
  (word | a) ∧ 0 ≤ a ∧ a + word < 2 ^ (8 * word) ∧ is_Some (m !! a).

(** [_switch(new_ctx, cur_ctx)], called from an instruction before [ret]. *)
Definition call_switch (place_args : Z → Z → ST (cpu A) unit) (code : list (instr reg))
    (new_ctx cur_ctx ret : Z) : ST (cpu A) unit :=
  place_args new_ctx cur_ctx;; push ret;; run code.
End calling.

Arguments frame : clear implicits.
Arguments frame A : rename.

(** The processors the library is built for. *)
Class Switch (A : Arch) := {
  switch_args : Z → Z → ST (cpu A) unit;
  switch_code : list (instr reg);
  arg_words : Z;              (* how many words of arguments a call leaves on the stack *)
  first_arg : cpu A → option Z  (* the first argument, in a function just entered *)
}.

Section switching.
Context {A : Arch} {SW : Switch A}.

Definition switch_to (new_ctx cur_ctx ret : Z) : ST (cpu A) unit :=
  call_switch switch_args switch_code new_ctx cur_ctx ret.

(** The lowest word of the stack that a call writes. *)
Definition call_sp (c : cpu A) : Z := regs c sp - (arg_words + 1) * word.

(** The caller, suspended. *)
Definition caller (c : cpu A) (ret : Z) : frame A :=
  {| f_sp := call_sp c; f_pc := ret; f_regs := regs c |}.

(** The processor goes on with [f]. *)
Definition resumes (f : frame A) (c : cpu A) : Prop :=
  pc c = f_pc f ∧ regs c sp = f_sp f + word ∧
  Forall (λ '(r, _), regs c r = f_regs f r) callee_saved.

(** When a call of [_switch] is in order: both contexts are there and apart; the caller has
    room on its stack, outside the contexts; [tsp], the stack pointer of the other context,
    points to a word outside all of these. *)
Record can_call (new_ctx cur_ctx tsp : Z) (c : cpu A) : Prop := {
  call_new : ctx_ok (mem c) new_ctx;
  call_cur : ctx_ok (mem c) cur_ctx;
  call_apart : ∀ a, in_ctx new_ctx a → ¬ in_ctx cur_ctx a;
  call_aligned : (word | regs c sp);
  call_room_pos : 0 ≤ call_sp c;
  call_room_top : regs c sp < 2 ^ (8 * word);
  call_room : ∀ i, 0 < i ≤ arg_words + 1 → is_Some (mem c !! (regs c sp - i * word));
  call_stack : ∀ a, call_sp c ≤ a < regs c sp → ¬ in_ctx new_ctx a ∧ ¬ in_ctx cur_ctx a;
  call_target : slot_ok (mem c) tsp;
  call_target_out : ¬ in_ctx new_ctx tsp ∧ ¬ in_ctx cur_ctx tsp;
  call_target_apart : ¬ (call_sp c ≤ tsp < regs c sp)
}.

(** What a call does: it goes on with the frame of the other context, the context of the
    caller holds the caller, and no other memory changes but the words at the tops of the
    two stacks. A function that is entered by it finds [new_ctx] as its first argument if
    the stack it is entered on is laid out for that. *)
Definition switch_spec : Prop := ∀ new_ctx cur_ctx ret f c,
  can_call new_ctx cur_ctx (f_sp f) c → holds (mem c) new_ctx f →
  wp (switch_to new_ctx cur_ctx ret) (λ _ c',
    resumes f c' ∧ holds (mem c') cur_ctx (caller c ret) ∧
    (mem c' !! (f_sp f + 2 * word) = Some new_ctx → first_arg c' = Some new_ctx) ∧
    mem c' !! f_sp f = Some (f_pc f) ∧ mem c' !! call_sp c = Some ret ∧
    dom (mem c') = dom (mem c) ∧
    ∀ a, ¬ in_ctx cur_ctx a → a ≠ f_sp f → ¬ (call_sp c ≤ a < regs c sp) →
         mem c' !! a = mem c !! a) c.
End switching.

(** What the library needs of a processor. *)
Class SwitchLaws (A : Arch) (SW : Switch A) : Prop := {
  switch_law : switch_spec (A := A);
  saved_nodup : NoDup callee_saved.*1;
  saved_fields : Forall (λ p, 0 ≤ p.2 < CTX_words) callee_saved;
  arg_words_nonneg : 0 ≤ arg_words }.

#[export] Instance x86_64_switch : Switch X86_64.arch := {|
  switch_args := X86_64.place_args; switch_code := X86_64._switch;
  arg_words := 0; first_arg := λ c, Some (regs c X86_64.rdi) |}.

#[export] Instance i386_switch : Switch I386.arch := {|
  switch_args := I386.place_args; switch_code := I386._switch;
  arg_words := 2; first_arg := λ c, mem c !! (regs c I386.esp + 4) |}.

(** The machines the file has code for. *)
Inductive machine := __i386__ | __x86_64__.

Definition arch_of (m : machine) : Arch :=
  match m with __i386__ => I386.arch | __x86_64__ => X86_64.arch end.

#[export] Instance switch_of (m : machine) : Switch (arch_of m) :=
  match m with __i386__ => i386_switch | __x86_64__ => x86_64_switch end.

(** * The functions around it *)

Section library.
Context {A : Arch} {SW : Switch A}.

(** The context of a new coroutine, in [nty_coroutine_init]: its stack is laid out as if
    [_exec(co)] had been called from the address NULL and had switched away before its first
    instruction. [co] is also the address of its context, its first field. *)
Definition init_context (co stack stack_size _exec : Z) : ST (cpu A) unit :=
  let top := stack + stack_size in
  store (top - 3 * word) 0;;
  store (top - 2 * word) co;;
  store (field co CTX_esp) (top - 4 * word);;
  store (field co CTX_ebp) (top - 3 * word);;
  store (field co CTX_eip) _exec.

(** The switches of [nty_coroutine_yield] and [nty_coroutine_resume]; [ret] is the address
    of the instruction after the call. *)
Definition yield_switch (co sched ret : Z) : ST (cpu A) unit := switch_to sched co ret.
Definition resume_switch (co sched ret : Z) : ST (cpu A) unit := switch_to co sched ret.

(** [madvise(addr, length, MADV_DONTNEED)]: the system's. *)
Variable madvise : Z → Z → ST (cpu A) Z.

(** Arithmetic of [size_t]. *)
Definition size_t (z : Z) : Z := z mod 2 ^ (8 * word).

(** The result is the new [co->last_stack_size]. *)
Definition nty_coroutine_madvise (co stack stack_size last_stack_size page_size : Z) :
    ST (cpu A) Z :=
  esp ← load (field co CTX_esp);
  let current_stack := size_t (stack + stack_size - esp) in
  c_assert (current_stack <=? stack_size);;
  (if (current_stack <? last_stack_size) && (page_size <? last_stack_size) then
     let tmp := size_t (current_stack
                        + Z.land (size_t (- current_stack)) (page_size - 1)) in
     r ← madvise stack (size_t (stack_size - tmp));
     c_assert (r =? 0)
   else mret tt);;
  mret current_stack.
End library.

(** * Rules for instructions *)

Section rules.
Context {A : Arch}.
Implicit Types c : cpu A.

Lemma upd_eq r v (f : reg → Z) : upd r v f r = v.
Proof. unfold upd. by rewrite decide_True. Qed.

Lemma upd_ne r r' v (f : reg → Z) : r' ≠ r → upd r v f r' = f r'.
Proof. intros. unfold upd. by rewrite decide_False. Qed.

Lemma wrap_small z : 0 ≤ z < 2 ^ (8 * word) → wrap z = z.
Proof. apply Z.mod_small. Qed.

Lemma aligned_test a : (word | a) → (a mod word =? 0) = true.
Proof. intros H. apply Z.eqb_eq, Z.mod_divide; [|done]. pose proof word_pos. lia. Qed.

Lemma wp_cpu_load a v Q c :
  (word | a) → mem c !! a = Some v → Q v c → wp (load a) Q c.
Proof.
  intros Ha Hm HQ. unfold wp, load.
  by rewrite aligned_test, Hm.
Qed.

Lemma wp_cpu_store a v (Q : unit → cpu A → Prop) c :
  (word | a) → is_Some (mem c !! a) →
  Q tt {| regs := regs c; pc := pc c; mem := <[a := v]> (mem c) |} → wp (store a v) Q c.
Proof.
  intros Ha [w Hm] HQ. unfold wp, store.
  by rewrite aligned_test, Hm.
Qed.

Lemma wp_set_reg r v (Q : unit → cpu A → Prop) c :
  Q tt {| regs := upd r v (regs c); pc := pc c; mem := mem c |} → wp (set_reg r v) Q c.
Proof. done. Qed.

Lemma wp_run_store r off b l (Q : unit → cpu A → Prop) c a :
  wrap (regs c b + off) = a → (word | a) → is_Some (mem c !! a) →
  wp (run l) Q {| regs := regs c; pc := pc c; mem := <[a := regs c r]> (mem c) |} →
  wp (run (Store r off b :: l)) Q c.
Proof.
  intros <- Ha Hm HQ. apply wp_bind. cbn [exec].
  apply wp_bind, wp_gets, wp_bind, wp_gets. by apply wp_cpu_store.
Qed.

Lemma wp_run_load off b r l (Q : unit → cpu A → Prop) c a v :
  wrap (regs c b + off) = a → (word | a) → mem c !! a = Some v →
  wp (run l) Q {| regs := upd r v (regs c); pc := pc c; mem := mem c |} →
  wp (run (Load off b r :: l)) Q c.
Proof.
  intros <- Ha Hm HQ. apply wp_bind. cbn [exec].
  apply wp_bind, wp_gets, wp_bind. by apply (wp_cpu_load _ v).
Qed.

Lemma wp_run_ret l (Q : unit → cpu A → Prop) c a v :
  regs c sp = a → (word | a) → mem c !! a = Some v →
  wp (run l) Q {| regs := upd sp (wrap (a + word)) (regs c); pc := v; mem := mem c |} →
  wp (run (Ret :: l)) Q c.
Proof.
  intros <- Ha Hm HQ. apply wp_bind. cbn [exec].
  apply wp_bind, wp_gets, wp_bind, (wp_cpu_load _ v); [done..|]. by apply wp_bind.
Qed.

Lemma wp_push v (Q : unit → cpu A → Prop) c a :
  wrap (regs c sp - word) = a → (word | a) → is_Some (mem c !! a) →
  Q tt {| regs := upd sp a (regs c); pc := pc c; mem := <[a := v]> (mem c) |} →
  wp (push v) Q c.
Proof.
  intros <- Ha Hm HQ. apply wp_bind, wp_gets, wp_bind, wp_set_reg. by apply wp_cpu_store.
Qed.
End rules.
