(* ===== verification/CpuSwitchProps.v ===== *)
(** * What the context switch guarantees

    First, that the two versions of the assembly have the law [switch_spec], by running them
    symbolically. The theorems then hold of every processor with the law: a coroutine that
    yields goes on, when it is resumed, as if [_switch] had been a function that returns; a
    new coroutine starts in its function; [nty_coroutine_madvise] leaves the used part of a
    stack alone, if the size of the stack is a multiple of the page size. *)

From S2P Require Import Prelude CpuSwitch.
Local Open Scope Z_scope.

Lemma apart_blocks w a b :
  0 < w → (∀ x, a ≤ x < a + w → ¬ (b ≤ x < b + w)) → a + w ≤ b ∨ b + w ≤ a.
Proof. intros Hw H. pose proof (H a). pose proof (H b). lia. Qed.

Lemma below_8 (P : Z → Prop) : (∀ i, 0 ≤ i < CTX_words → P i) → Forall P [0; 1; 2; 3; 4; 5; 6; 7].
Proof. intros H. unfold CTX_words in H. repeat constructor; apply H; lia. Qed.

Lemma divide_mod w a : 0 < w → (w | a) → a mod w = 0.
Proof. intros. apply Z.mod_divide; [lia|done]. Qed.
Lemma mod_divide w a : 0 < w → a mod w = 0 → (w | a).
Proof. intros. apply Z.mod_divide; [lia|done]. Qed.

(** ** Running the code *)

Ltac sp_simpl :=
  change (sp (Arch := X86_64.arch)) with X86_64.rsp;
  change (sp (Arch := I386.arch)) with I386.esp.
Ltac reg_simpl := sp_simpl; repeat first [rewrite upd_eq | rewrite upd_ne by discriminate].
Ltac mem_simpl := repeat first [rewrite lookup_insert_eq | rewrite lookup_insert_ne by lia].
Ltac aligned := apply mod_divide; [done|]; simpl word; Z.div_mod_to_equations; lia.
Ltac addr := cbn [regs mem pc]; reg_simpl;
  first [rewrite ?Z.add_0_r; apply Z.mod_small; simpl word; lia
        | rewrite wrap_small; simpl word; lia | reflexivity].
Ltac mapped := cbn [regs mem pc]; mem_simpl; first [eassumption | reflexivity | by eexists].
Ltac side := [> addr | aligned | mapped | cbn [regs mem pc]; reg_simpl].
Ltac step := first [eapply wp_run_store; side | eapply wp_run_load; side | eapply wp_run_ret; side].
(** Products of numerals. *)
Ltac norm_mul :=
  repeat match goal with
    | H : context [(?a * ?b)%Z] |- _ =>
        match isZcst a with true => match isZcst b with true =>
          let v := eval vm_compute in (a * b)%Z in change (a * b)%Z with v in * end end
    | |- context [(?a * ?b)%Z] =>
        match isZcst a with true => match isZcst b with true =>
          let v := eval vm_compute in (a * b)%Z in change (a * b)%Z with v end end
    end.

(** What is left when the code has been run. *)
Ltac finish_word :=
  unfold field, CTX_esp, CTX_eip, call_sp, arg_words, x86_64_switch, i386_switch;
  reg_simpl;
  simpl word;
  norm_mul; change (0 + 1) with 1; change (2 + 1) with 3; norm_mul; rewrite ?Z.add_0_r; mem_simpl;
  first [done | apply wrap_small; simpl word; lia].

Ltac first_argument :=
  cbn [first_arg x86_64_switch i386_switch regs mem]; reg_simpl;
  first [done | rewrite wrap_small; [|simpl word; lia]; simpl word; rewrite <- Z.add_assoc; done].

Ltac finish A :=
  apply wp_ret; unfold resumes, holds; split_and!; cbn [mem pc regs f_sp f_pc f_regs caller];
  [..|first_argument| | |rewrite !dom_insert_lookup_L; [done|mapped..]|intros a ???; mem_simpl; done];
  try (let l := eval cbv [callee_saved A] in (callee_saved (Arch := A)) in
       change (callee_saved (Arch := A)) with l; repeat (apply Forall_cons; split); [..|by apply Forall_nil]);
  try finish_word.

(** The facts of a call, with the numbers of the machine [A] and ready for [lia]. *)
Ltac call_facts A :=
  intros new_ctx cur_ctx ret f c
    [(An & Pn & Tn & _) (Ac & Pc & Tc & Mc) Hap Hal Hp0 Hpt Hroom Hst
     (At & Pt & Tt & Mt) Hto Hta] (Hsp & Hpc & Hf);
  unfold callee_saved, A in Hf; rewrite !Forall_cons in Hf;
  unfold in_ctx in *; apply apart_blocks in Hap; [|done];
  unfold field in *; apply below_8 in Mc; rewrite !Forall_cons in Mc;
  unfold CTX_esp, CTX_eip, CTX_words, call_sp, arg_words, x86_64_switch, i386_switch in *;
  apply divide_mod in Hal, An, Ac, At; [|done..];
  change (sp (Arch := X86_64.arch)) with X86_64.rsp in *;
  change (sp (Arch := I386.arch)) with I386.esp in *; simpl word in *;
  change (0 + 1) with 1 in *; change (2 + 1) with 3 in *;
  destruct_and? Mc; destruct_and? Hf;
  norm_mul; rewrite ?Z.add_0_r in *.

Lemma x86_64_spec : switch_spec (A := X86_64.arch).
Proof.
  call_facts X86_64.arch.
  specialize (Hroom 1 ltac:(lia)). rewrite Z.mul_1_l in Hroom.
  specialize (Hst (regs c X86_64.rsp - 8) ltac:(lia)).
  unfold switch_to, call_switch, switch_args, switch_code, x86_64_switch, X86_64.place_args.
  do 2 apply wp_bind. do 2 apply wp_set_reg. apply wp_bind, (wp_push _ _ _ (regs c X86_64.rsp - 8)).
  { addr. } { aligned. } { done. }
  cbn [regs mem pc]. reg_simpl.
  unfold X86_64._switch. do 19 step.
  finish X86_64.arch.
Qed.

Lemma i386_spec : switch_spec (A := I386.arch).
Proof.
  call_facts I386.arch.
  pose proof (Hroom 1 ltac:(lia)). pose proof (Hroom 2 ltac:(lia)). pose proof (Hroom 3 ltac:(lia)).
  pose proof (Hst (regs c I386.esp - 4) ltac:(lia)). pose proof (Hst (regs c I386.esp - 8) ltac:(lia)).
  pose proof (Hst (regs c I386.esp - 12) ltac:(lia)).
  clear Hroom Hst. norm_mul.
  unfold switch_to, call_switch, switch_args, switch_code, i386_switch, I386.place_args.
  do 2 apply wp_bind. apply (wp_push _ _ _ (regs c I386.esp - 4)).
  { addr. } { aligned. } { done. }
  apply (wp_push _ _ _ (regs c I386.esp - 8)).
  { addr. } { aligned. } { mapped. }
  apply wp_bind, (wp_push _ _ _ (regs c I386.esp - 12)).
  { addr. } { aligned. } { mapped. }
  cbn [regs mem pc]. reg_simpl.
  unfold I386._switch.
  eapply (wp_run_load _ _ _ _ _ _ (regs c I386.esp - 4)); side.
  do 7 step.
  eapply (wp_run_load _ _ _ _ _ _ (regs c I386.esp - 8)); side.
  do 8 step.
  finish I386.arch.
Qed.

#[export] Instance machine_laws m : SwitchLaws (arch_of m) (switch_of m).
Proof.
  destruct m; split.
  - apply i386_spec.
  - by vm_compute; repeat constructor; set_solver.
  - repeat constructor; done.
  - done.
  - apply x86_64_spec.
  - by vm_compute; repeat constructor; set_solver.
  - repeat constructor; done.
  - done.
Qed.

(** ** Away and back *)

Section switching.
Context {A : Arch} {SW : Switch A} {SL : SwitchLaws A SW}.
Implicit Types c : cpu A.

(** What a suspended coroutine relies on: its context and its stack from [lo] to [hi]. *)
Definition kept (ctx lo hi a : Z) : Prop := in_ctx ctx a ∨ lo ≤ a < hi.

(** A step of anything else: code that leaves what is kept alone, and switches between other
    contexts, on other stacks. *)
Inductive elsewhere (ctx lo hi : Z) : cpu A → cpu A → Prop :=
  | elsewhere_code c c' :
      (∀ a, kept ctx lo hi a → mem c' !! a = mem c !! a) → elsewhere ctx lo hi c c'
  | elsewhere_switch new_ctx cur_ctx ret f c c' :
      can_call new_ctx cur_ctx (f_sp f) c → holds (mem c) new_ctx f →
      switch_to new_ctx cur_ctx ret c = Ok (tt, c') →
      (∀ a, kept ctx lo hi a →
        ¬ in_ctx cur_ctx a ∧ a ≠ f_sp f ∧ ¬ (call_sp c ≤ a < regs c sp)) →
      elsewhere ctx lo hi c c'.

Lemma elsewhere_kept ctx lo hi c c' a :
  rtc (elsewhere ctx lo hi) c c' → kept ctx lo hi a → mem c' !! a = mem c !! a.
Proof.
  intros Hr Ha. induction Hr as [|c c1 c' Hs _ IH]; [done|]. rewrite IH.
  destruct Hs as [c c1 H|new_ctx cur_ctx ret f c c1 Hc Hh Hsw H]; [by apply H|].
  pose proof (switch_law _ _ ret _ _ Hc Hh) as Hw. unfold wp in Hw. rewrite Hsw in Hw.
  destruct Hw as (_&_&_&_&_&_&Hf). destruct (H a Ha) as (?&?&?). by apply Hf.
Qed.

Lemma holds_ext m m' ctx (f : frame A) :
  holds m ctx f → (∀ i, 0 ≤ i < CTX_words → m' !! field ctx i = m !! field ctx i) →
  holds m' ctx f.
Proof.
  intros (Hs & Hp & Hr) H. pose proof saved_fields as Hi. unfold holds.
  rewrite !H by (unfold CTX_esp, CTX_eip, CTX_words; lia). split_and!; [done..|].
  rewrite Forall_forall in *. intros [r i] Hin. specialize (Hr _ Hin). specialize (Hi _ Hin).
  cbn in Hr, Hi. by rewrite H.
Qed.

Lemma field_in_ctx ctx i : 0 ≤ i < CTX_words → in_ctx ctx (field ctx i).
Proof. unfold in_ctx, field. pose proof word_pos. nia. Qed.

Lemma call_sp_room c : call_sp c = regs c sp - arg_words * word - word.
Proof. unfold call_sp. lia. Qed.

(** A coroutine that switches away and back. *)
Lemma switch_away_and_back co sched ret ret' top f c0 :
  can_call sched co (f_sp f) c0 → holds (mem c0) sched f →
  (∀ a, regs c0 sp ≤ a < top → ¬ in_ctx co a ∧ ¬ in_ctx sched a ∧ a ≠ f_sp f) →
  regs c0 sp ≤ top →
  wp (switch_to sched co ret) (λ _ c1, resumes f c1 ∧
    ∀ c2, rtc (elsewhere co (call_sp c0) top) c1 c2 →
      can_call co sched (call_sp c0) c2 →
      (∀ a, call_sp c0 ≤ a < top → ¬ (call_sp c2 ≤ a < regs c2 sp)) →
      wp (switch_to co sched ret') (λ _ c3,
        pc c3 = ret ∧ regs c3 sp = regs c0 sp - arg_words * word ∧
        Forall (λ '(r, _), regs c3 r = regs c0 r) callee_saved ∧
        ∀ a, regs c0 sp ≤ a < top → mem c3 !! a = mem c0 !! a) c2) c0.
Proof.
  intros Hc Hh Hout Htop. pose proof word_pos. pose proof arg_words_nonneg.
  eapply wp_mono; [by apply (switch_law _ _ ret _ _ Hc Hh)|].
  intros _ c1 (Hres & Hco & _ & _ & _ & _ & Hfr). split; [done|]. intros c2 Hr Hc2 Hroom.
  assert (∀ a, kept co (call_sp c0) top a → mem c2 !! a = mem c1 !! a) as Hk.
  { intros a. by apply elsewhere_kept. }
  eapply wp_mono; [apply (switch_law _ _ ret' (caller c0 ret) _ Hc2)|].
  { eapply holds_ext; [exact Hco|]. intros i Hi. apply Hk. left. by apply field_in_ctx. }
  intros _ c3 ((Hpc & Hsp & Hregs) & _ & _ & _ & _ & _ & Hfr3).
  split_and!; [done| |done|].
  - rewrite Hsp. cbn [caller f_sp]. rewrite call_sp_room. lia.
  - intros a Ha. destruct (Hout a Ha) as (?&?&?). cbn [caller f_sp] in Hfr3.
    pose proof (call_sp_room c0).
    rewrite Hfr3; [|done|lia|apply Hroom; lia]. rewrite Hk by (right; lia).
    apply Hfr; [done..|lia].
Qed.

(** ** The first switch to a coroutine *)

Lemma regs_of_fields (l : list (reg * Z)) (m : Z → option Z) :
  NoDup l.*1 → Forall (λ p, is_Some (m p.2)) l →
  ∃ g : reg → Z, Forall (λ '(r, i), m i = Some (g r)) l.
Proof.
  induction l as [|[r i] l IH]; intros Hnd Hl; [by exists (λ _, 0)|].
  apply NoDup_cons in Hnd as [Hr Hnd]. apply Forall_cons in Hl as [[v Hv] Hl].
  destruct (IH Hnd Hl) as [g Hg]. exists (upd r v g). apply Forall_cons. split.
  { by rewrite upd_eq. }
  rewrite Forall_forall in Hg |- *. intros [r' i'] Hin. specialize (Hg _ Hin). cbn in Hg.
  rewrite upd_ne; [done|]. intros ->. apply Hr. by apply (list_elem_of_fmap_2 fst l (r, i')).
Qed.

Lemma frame_of_ctx m ctx s p :
  ctx_ok m ctx → m !! field ctx CTX_esp = Some s → m !! field ctx CTX_eip = Some p →
  ∃ f : frame A, holds m ctx f ∧ f_sp f = s ∧ f_pc f = p.
Proof.
  intros (_&_&_&Hm) Hs Hp.
  destruct (regs_of_fields callee_saved (λ i, m !! field ctx i) saved_nodup) as [g Hg].
  { eapply Forall_impl; [apply saved_fields|]. intros [r i]. apply Hm. }
  by exists {| f_sp := s; f_pc := p; f_regs := g |}.
Qed.

(** Calls depend on which words are mapped, not on what is in them. *)
Lemma can_call_dom new_ctx cur_ctx tsp c m :
  dom m = dom (mem c) → can_call new_ctx cur_ctx tsp c →
  can_call new_ctx cur_ctx tsp {| regs := regs c; pc := pc c; mem := m |}.
Proof.
  intros Hd. assert (∀ a, is_Some (mem c !! a) → is_Some (m !! a)) as Hm.
  { intros a. rewrite <- !elem_of_dom. by rewrite Hd. }
  intros [(?&?&?&?) (?&?&?&?) ?????? (?&?&?&?) ??].
  split; cbn [regs mem]; unfold ctx_ok, slot_ok; try done; try split_and!; auto.
Qed.

Lemma wp_stores_dom a v (Q : unit → cpu A → Prop) c d :
  dom (mem c) = d → (word | a) → a ∈ d →
  (dom (<[a := v]> (mem c)) = d →
   Q tt {| regs := regs c; pc := pc c; mem := <[a := v]> (mem c) |}) →
  wp (store a v) Q c.
Proof.
  intros Hd Ha Hin HQ. assert (is_Some (mem c !! a)) as Hs by (apply elem_of_dom; by rewrite Hd).
  apply wp_cpu_store; [done..|]. apply HQ. by rewrite dom_insert_lookup_L.
Qed.

Lemma divide_field ctx i : (word | ctx) → (word | field ctx i).
Proof. intros. apply Z.divide_add_r; [done|]. by exists i. Qed.

Lemma divide_sub a i : (word | a) → (word | a - i * word).
Proof. intros. apply Z.divide_sub_r; [done|]. by exists i. Qed.

(** What [nty_coroutine_init] leaves. *)
Lemma wp_init_context co stack size entry c :
  ctx_ok (mem c) co → (word | stack + size) →
  (∀ i, 2 ≤ i ≤ 4 → is_Some (mem c !! (stack + size - i * word))) →
  (∀ a, stack + size - 4 * word ≤ a < stack + size → ¬ in_ctx co a) →
  wp (init_context co stack size entry) (λ _ c',
    regs c' = regs c ∧ dom (mem c') = dom (mem c) ∧
    mem c' !! field co CTX_esp = Some (stack + size - 4 * word) ∧
    mem c' !! field co CTX_eip = Some entry ∧
    mem c' !! (stack + size - 3 * word) = Some 0 ∧
    mem c' !! (stack + size - 2 * word) = Some co) c.
Proof.
  intros Hco Hal Hst Hout. pose proof word_pos. destruct Hco as (Ac & _ & _ & Mc).
  assert (∀ i j, 2 ≤ i ≤ 4 → 0 ≤ j < CTX_words → stack + size - i * word ≠ field co j) as Hne.
  { intros i j Hi Hj E. apply (Hout (stack + size - i * word)); [nia|]. rewrite E.
    by apply field_in_ctx. }
  assert (∀ j, 0 ≤ j < CTX_words → field co j ∈ dom (mem c)) as Hfd.
  { intros. apply elem_of_dom. by apply Mc. }
  assert (∀ i, 2 ≤ i ≤ 4 → stack + size - i * word ∈ dom (mem c)) as Hsd.
  { intros. apply elem_of_dom. by apply Hst. }
  unfold init_context. cbv zeta.
  repeat (apply wp_bind); eapply wp_stores_dom;
    [reflexivity|by apply divide_sub|apply Hsd; lia|intros D1].
  repeat (apply wp_bind); eapply wp_stores_dom;
    [exact D1|by apply divide_sub|apply Hsd; lia|intros D2].
  do 2 (repeat (apply wp_bind); eapply wp_stores_dom;
    [done|by apply divide_field|apply Hfd; unfold CTX_esp, CTX_ebp, CTX_words; lia|intros ?]).
  eapply wp_stores_dom;
    [done|by apply divide_field|apply Hfd; unfold CTX_eip, CTX_words; lia|intros D].
  cbn [regs mem] in *.
  assert (∀ i j, i ≠ j → field co i ≠ field co j) as Hff by (unfold field; nia).
  assert (∀ i j, i ≠ j → stack + size - i * word ≠ stack + size - j * word) as Hss by nia.
  assert (∀ i j, 2 ≤ i ≤ 4 → 0 ≤ j < CTX_words → field co j ≠ stack + size - i * word) as Hne'.
  { intros i j ?? E. by eapply Hne. }
  unfold CTX_esp, CTX_ebp, CTX_eip, CTX_words in *.
  split_and!; [done|done| | | |];
    repeat first [rewrite lookup_insert_eq; done
      | rewrite lookup_insert_ne
          by first [apply Hff; lia | apply Hss; lia | apply Hne; lia | apply Hne'; lia]].
Qed.

Lemma first_switch co sched stack size entry ret c0 :
  can_call co sched (stack + size - 4 * word) c0 → (word | stack + size) →
  (∀ i, 2 ≤ i ≤ 4 → is_Some (mem c0 !! (stack + size - i * word))) →
  (∀ a, stack + size - 4 * word ≤ a < stack + size →
    ¬ in_ctx co a ∧ ¬ in_ctx sched a ∧ ¬ (call_sp c0 ≤ a < regs c0 sp)) →
  wp (init_context co stack size entry;; switch_to co sched ret) (λ _ c,
    pc c = entry ∧ first_arg c = Some co ∧
    regs c sp = stack + size - 3 * word ∧ mem c !! regs c sp = Some 0 ∧
    holds (mem c) sched (caller c0 ret)) c0.
Proof.
  intros Hc Hal Hst Hout. pose proof word_pos.
  apply wp_bind. eapply wp_mono.
  { apply wp_init_context; [apply Hc|done..|]. intros a Ha. by apply Hout. }
  intros _ c1 (Hr & Hd & Hs & Hp & Hn & Harg). cbv beta.
  assert (can_call co sched (stack + size - 4 * word) c1) as Hc1.
  { destruct c1 as [r1 p1 m1]. cbn [regs mem] in Hr, Hd. subst r1.
    pose proof (can_call_dom _ _ _ _ m1 Hd Hc) as [].  by split. }
  destruct (frame_of_ctx _ _ _ _ (call_new _ _ _ _ Hc1) Hs Hp) as (f & Hf & Efs & Efp).
  rewrite <- Efs in Hc1.
  assert (call_sp c1 = call_sp c0) as Esp by (unfold call_sp; by rewrite Hr).
  eapply wp_mono; [by apply (switch_law _ _ ret _ _ Hc1 Hf)|].
  intros _ c ((Hpc & Hcsp & _) & Hcaller & Hfirst & _ & _ & _ & Hfr).
  rewrite Efs, Efp, Esp, Hr in *.
  assert (∀ i, 2 ≤ i ≤ 3 → mem c !! (stack + size - i * word) = mem c1 !! (stack + size - i * word))
    as Hk.
  { intros i Hi. destruct (Hout (stack + size - i * word)) as (?&?&?); [nia|].
    apply Hfr; [done|nia|done]. }
  split_and!; [done| | | |].
  - apply Hfirst. replace (stack + size - 4 * word + 2 * word) with (stack + size - 2 * word) by lia.
    by rewrite Hk by lia.
  - rewrite Hcsp. lia.
  - rewrite Hcsp. replace (stack + size - 4 * word + word) with (stack + size - 3 * word) by lia.
    by rewrite Hk by lia.
  - unfold caller in *. by rewrite Hr, Esp in Hcaller.
Qed.
End switching.

(** ** Giving back the unused part of a stack *)

(** [x] rounded up to a multiple of [page]. *)
Definition round_up (page x : Z) : Z := (x + page - 1) / page * page.

Lemma round_up_tmp page x : 0 < page → x + (- x) mod page = round_up page x.
Proof.
  intros. unfold round_up. pose proof (Z.div_mod (- x) page) as E1.
  pose proof (Z.mod_pos_bound (- x) page) as B1.
  assert ((x + page - 1) / page = - ((- x) / page)) as ->; [|nia].
  symmetry. apply (Z.div_unique _ _ _ (page - 1 - (- x) mod page)); [lia|nia].
Qed.

Lemma round_up_multiple page x : 0 < page → (page | x) → round_up page x = x.
Proof.
  intros Hp [k ->]. unfold round_up. f_equal. symmetry.
  apply (Z.div_unique _ _ _ (page - 1)); [lia|nia].
Qed.

Lemma round_up_ge page x : 0 < page → x ≤ round_up page x.
Proof. intros. rewrite <- round_up_tmp by done. pose proof (Z.mod_pos_bound (- x) page). lia. Qed.

Lemma round_up_le page x y : 0 < page → x ≤ y → round_up page x ≤ round_up page y.
Proof. intros. unfold round_up. apply Z.mul_le_mono_nonneg_r; [lia|]. apply Z.div_le_mono; lia. Qed.

Lemma round_up_div page x : (page | round_up page x).
Proof. unfold round_up. by eexists. Qed.

Section madvise.
Context {A : Arch} {SW : Switch A}.
Implicit Types c : cpu A.

(** [-current_stack & (page_size - 1)]: what is missing to a multiple of the page size. *)
Lemma page_rest k cur :
  0 ≤ k ≤ 8 * word → Z.land (size_t (- cur)) (2 ^ k - 1) = (- cur) mod 2 ^ k.
Proof.
  intros Hk. replace (2 ^ k - 1) with (Z.ones k) by (rewrite Z.ones_equiv; lia).
  rewrite Z.land_ones by lia. apply Z.mod_mod_divide.
  exists (2 ^ (8 * word - k)). rewrite <- Z.pow_add_r by lia. f_equal. lia.
Qed.

(** What [madvise] is documented to do with [MADV_DONTNEED] on mapped pages: it succeeds and
    changes at most the pages the range covers. *)
Definition madvise_doc (madvise : Z → Z → ST (cpu A) Z) (page lo hi : Z) : Prop :=
  ∀ addr len c, (page | addr) → lo ≤ addr → 0 ≤ len → addr + round_up page len ≤ hi →
  wp (madvise addr len) (λ r c', r = 0 ∧ regs c' = regs c ∧
    ∀ a, ¬ (addr ≤ a < addr + round_up page len) → mem c' !! a = mem c !! a) c.

Lemma wp_madvise madvise co stack size last k esp c :
  0 ≤ k ≤ 8 * word → (2 ^ k | stack) → (2 ^ k | size) →
  0 ≤ stack → size < 2 ^ (8 * word) →
  (word | co) → mem c !! field co CTX_esp = Some esp → stack ≤ esp ≤ stack + size →
  madvise_doc madvise (2 ^ k) stack (stack + size) →
  wp (nty_coroutine_madvise madvise co stack size last (2 ^ k)) (λ used c',
    used = stack + size - esp ∧ regs c' = regs c ∧
    (∀ a, ¬ (stack ≤ a < esp) → mem c' !! a = mem c !! a) ∧ (last ≤ used → c' = c)) c.
Proof.
  intros Hk Hps Hpz Hs Hz Hco Hesp Hin Hmad.
  assert (0 < 2 ^ k) as Hp by (apply Z.pow_pos_nonneg; lia).
  unfold nty_coroutine_madvise. apply wp_bind.
  apply (wp_cpu_load _ esp); [by apply divide_field|done|]. cbv zeta.
  assert (size_t (stack + size - esp) = stack + size - esp) as -> by (apply Z.mod_small; lia).
  set (cur := stack + size - esp). rewrite (proj2 (Z.leb_le cur size)) by lia.
  apply wp_bind, wp_ret, wp_bind.
  destruct ((cur <? last) && (2 ^ k <? last)) eqn:E; [|by apply wp_ret, wp_ret].
  apply andb_true_iff in E as [E _]. apply Z.ltb_lt in E.
  rewrite page_rest by lia. rewrite round_up_tmp by done.
  pose proof (round_up_ge (2 ^ k) cur Hp).
  pose proof (round_up_le (2 ^ k) cur size Hp ltac:(lia)) as Hru.
  rewrite (round_up_multiple _ size) in Hru by done.
  assert (size_t (round_up (2 ^ k) cur) = round_up (2 ^ k) cur) as -> by (apply Z.mod_small; lia).
  assert (size_t (size - round_up (2 ^ k) cur) = size - round_up (2 ^ k) cur) as ->
    by (apply Z.mod_small; lia).
  assert (round_up (2 ^ k) (size - round_up (2 ^ k) cur) = size - round_up (2 ^ k) cur) as Er.
  { apply round_up_multiple; [done|]. apply Z.divide_sub_r; [done|]. apply round_up_div. }
  apply wp_bind. eapply wp_mono; [apply Hmad; [done|lia|lia|rewrite Er; lia]|].
  intros _ c' (-> & Hr & Hf). rewrite Er in Hf. apply wp_ret, wp_ret.
  split_and!; [done|done| |lia]. intros a Ha. apply Hf. lia.
Qed.
End madvise.

(** ** The properties *)

(** Where a statement is about one machine, that is the processor meant. *)
#[local] Hint Extern 0 Arch =>
  match goal with m : machine |- _ => exact (arch_of m) end : typeclass_instances.

(** C9: a coroutine that yields and is resumed goes on after its call of [_switch] as after
    the call of a C function: at the return address, with its stack pointer (below its
    arguments), its callee-saved registers and its stack as they were, whatever the
    scheduler and other coroutines did in the meantime short of writing to the
    coroutine's context and stack. Neither switch faults. *)
Theorem yield_round_trip (m : machine) co sched ret ret' top (f : frame (arch_of m)) c0 :
  can_call sched co (f_sp f) c0 → holds (mem c0) sched f →
  (∀ a, regs c0 sp ≤ a < top → ¬ in_ctx co a ∧ ¬ in_ctx sched a ∧ a ≠ f_sp f) →
  regs c0 sp ≤ top →
  wp (yield_switch co sched ret) (λ _ c1, resumes f c1 ∧
    ∀ c2, rtc (elsewhere co (call_sp c0) top) c1 c2 →
      can_call co sched (call_sp c0) c2 →
      (∀ a, call_sp c0 ≤ a < top → ¬ (call_sp c2 ≤ a < regs c2 sp)) →
      wp (resume_switch co sched ret') (λ _ c3,
        pc c3 = ret ∧ regs c3 sp = regs c0 sp - arg_words * word ∧
        Forall (λ '(r, _), regs c3 r = regs c0 r) callee_saved ∧
        ∀ a, regs c0 sp ≤ a < top → mem c3 !! a = mem c0 !! a) c2) c0.
Proof. apply switch_away_and_back. Qed.

(** C10: the first switch to a coroutine enters [_exec] with the coroutine as its argument,
    on the coroutine's own stack, with a null return address, and leaves the scheduler's
    context ready to be switched back to; on x86-64 the stack has the alignment the calling
    convention asks for. *)
Theorem new_coroutine_starts (m : machine) co sched stack size _exec ret (c0 : cpu (arch_of m)) :
  can_call co sched (stack + size - 4 * word) c0 → (word | stack + size) →
  (∀ i, 2 ≤ i ≤ 4 → is_Some (mem c0 !! (stack + size - i * word))) →
  (∀ a, stack + size - 4 * word ≤ a < stack + size →
    ¬ in_ctx co a ∧ ¬ in_ctx sched a ∧ ¬ (call_sp c0 ≤ a < regs c0 sp)) →
  wp (init_context co stack size _exec;; resume_switch co sched ret) (λ _ c,
    pc c = _exec ∧ first_arg c = Some co ∧
    regs c sp = stack + size - 3 * word ∧ mem c !! regs c sp = Some 0 ∧
    holds (mem c) sched (caller c0 ret) ∧
    (m = __x86_64__ → (16 | stack + size) → (16 | regs c sp + word))) c0.
Proof.
  intros Hc Hal Hst Hout. eapply wp_mono; [by apply first_switch|].
  intros _ c (?&?&Hs&?&?). split_and!; [done..|]. intros -> [k Hk]. rewrite Hs.
  exists (k - 1). simpl word. lia.
Qed.

(** C11: after a coroutine has switched away, [nty_coroutine_madvise] gives back only memory
    below the part of its stack that is in use, and nothing when the stack has not shrunk;
    its assertions hold. The size of the stack must be a multiple of the page size. *)
Theorem madvise_keeps_used_stack (m : machine) madvise co stack size last k esp
    (c : cpu (arch_of m)) :
  0 ≤ k ≤ 8 * word → (2 ^ k | stack) → (2 ^ k | size) →
  0 ≤ stack → size < 2 ^ (8 * word) →
  (word | co) → mem c !! field co CTX_esp = Some esp → stack ≤ esp ≤ stack + size →
  madvise_doc madvise (2 ^ k) stack (stack + size) →
  wp (nty_coroutine_madvise madvise co stack size last (2 ^ k)) (λ used c',
    used = stack + size - esp ∧ regs c' = regs c ∧
    (∀ a, ¬ (stack ≤ a < esp) → mem c' !! a = mem c !! a) ∧ (last ≤ used → c' = c)) c.
Proof. apply wp_madvise. Qed.

(** *** On a concrete memory *)

Module Sample.
(** Two contexts and the tops of two stacks of an x86-64; the scheduler has switched to
    the coroutine from 0x400. *)
Definition sched : Z := 0x1000.
Definition co : Z := 0x2000.

Definition words (from n : Z) : list (Z * Z) := (λ i, (from + i * 8, 0)) <$> seqZ 0 n.

Definition memory : gmap Z Z :=
  <[sched := 0x5fc0]> (<[sched + 16 := 0x400]> (<[sched + 24 := 77]>
    (list_to_map (words sched 11 ++ words co 11 ++ words 0x3f80 16 ++ words 0x5f80 16)))).

Definition running : cpu X86_64.arch :=
  Build_cpu (A := X86_64.arch)
    (λ r : X86_64.register, match r with X86_64.rsp => 0x3fc0 | X86_64.rbx => 5 | _ => 0 end)
    0x100 memory.

Definition scheduler : frame X86_64.arch :=
  Build_frame (A := X86_64.arch) 0x5fc0 0x400
    (λ r : X86_64.register, match r with X86_64.rbx => 77 | _ => 0 end).

(** A [madvise] that clears whole pages, as for private memory. *)
Definition clear (addr len : Z) : ST (cpu (arch_of __x86_64__)) Z := λ c,
  Ok (0, {| regs := regs c; pc := pc c;
            mem := map_imap (λ a v, Some (if (addr <=? a) && (a <? addr + round_up 4096 len)
                                          then 0 else v)) (mem c) |}).

(** A coroutine on a stack from 0x3000 whose last word is at 0x3ff8 and that has switched
    away with its stack pointer at [esp]. *)
Definition away (esp : Z) : cpu (arch_of __x86_64__) :=
  {| regs := λ _, 0; pc := 0; mem := <[co := esp]> (<[esp := 9]> memory) |}.
End Sample.

Lemma mapped_range (m : gmap Z Z) (f : Z → Z) a n :
  Forall (λ i, is_Some (m !! f i)) (seqZ a n) → ∀ i, a ≤ i < a + n → is_Some (m !! f i).
Proof. rewrite Forall_forall. intros H i Hi. apply H, elem_of_seqZ. lia. Qed.

Lemma can_call_away new cur tsp (c : cpu X86_64.arch) :
  (∀ i, 0 ≤ i < 0 + 11 → is_Some (mem c !! (new + i * 8))) →
  (∀ i, 0 ≤ i < 0 + 11 → is_Some (mem c !! (cur + i * 8))) →
  is_Some (mem c !! (regs c X86_64.rsp - 8)) → is_Some (mem c !! tsp) →
  new mod 8 = 0 → cur mod 8 = 0 → regs c X86_64.rsp mod 8 = 0 → tsp mod 8 = 0 →
  0 ≤ new < 2 ^ 32 → 0 ≤ cur < 2 ^ 32 → 8 ≤ regs c X86_64.rsp < 2 ^ 32 → 0 ≤ tsp < 2 ^ 32 →
  (new + 88 ≤ cur ∨ cur + 88 ≤ new) →
  (new + 88 ≤ regs c X86_64.rsp - 8 ∨ regs c X86_64.rsp ≤ new) →
  (cur + 88 ≤ regs c X86_64.rsp - 8 ∨ regs c X86_64.rsp ≤ cur) →
  (new + 88 ≤ tsp ∨ tsp < new) → (cur + 88 ≤ tsp ∨ tsp < cur) →
  (regs c X86_64.rsp ≤ tsp ∨ tsp < regs c X86_64.rsp - 8) →
  can_call (A := arch_of __x86_64__) new cur tsp c.
Proof.
  intros Hn Hc Hr Ht An Ac Ar At ??????????.
  change (arch_of __x86_64__) with X86_64.arch. change (switch_of __x86_64__) with x86_64_switch.
  assert (∀ a, a mod 8 = 0 → (word (Arch := X86_64.arch) | a)) as Hal.
  { intros a Ha. apply mod_divide; [done|]. by simpl word. }
  split; unfold ctx_ok, slot_ok, in_ctx, field, CTX_words, call_sp; simpl word;
    change (arg_words (Switch := x86_64_switch)) with 0;
    change (sp (Arch := X86_64.arch)) with X86_64.rsp; change (0 + 1) with 1; norm_mul;
    try (split_and!; auto; lia); auto; try lia.
  intros i Hi. assert (i = 1) as -> by lia. done.
Qed.

(** Ranges of mapped words, and the rest of the conditions, of a concrete memory. *)
Ltac mapped_now := apply (bool_decide_unpack _); vm_compute; exact I.
Ltac concrete_call :=
  apply can_call_away;
    [apply mapped_range; mapped_now|apply mapped_range; mapped_now|mapped_now|mapped_now|..];
  first [by vm_compute | by (left; vm_compute) | by (right; vm_compute)].

Lemma sample_callable :
  can_call (A := arch_of __x86_64__) Sample.sched Sample.co (f_sp Sample.scheduler) Sample.running.
Proof. concrete_call. Defined.

Lemma sample_holds :
  holds (A := arch_of __x86_64__) (mem Sample.running) Sample.sched Sample.scheduler.
Proof. repeat constructor. Defined.
(** The processor after the coroutine has yielded at 0x200. *)
Definition after_yield : cpu X86_64.arch :=
  match yield_switch Sample.co Sample.sched 0x200 Sample.running with
  | Ok (_, c) => c | Err _ => Sample.running end.

Lemma after_yield_callable :
  can_call (A := arch_of __x86_64__) Sample.co Sample.sched (call_sp Sample.running) after_yield.
Proof. concrete_call. Defined.

Lemma sample_stack a :
  regs Sample.running X86_64.rsp ≤ a < 0x4000 →
  ¬ in_ctx (A := X86_64.arch) Sample.co a ∧ ¬ in_ctx (A := X86_64.arch) Sample.sched a ∧
  a ≠ f_sp Sample.scheduler.
Proof.
  unfold in_ctx, Sample.co, Sample.sched, CTX_words.
  cbn [regs Sample.running f_sp Sample.scheduler]. simpl word. lia.
Defined.

(** The coroutine yields at 0x200 and is resumed at once. *)
Lemma yield_round_trip_witness :
  wp (resume_switch (A := arch_of __x86_64__) Sample.co Sample.sched 0x500) (λ _ c,
    pc c = 0x200 ∧ regs c X86_64.rsp = 0x3fc0 ∧ regs c X86_64.rbx = 5) after_yield.
Proof.
  pose proof (yield_round_trip __x86_64__ Sample.co Sample.sched 0x200 0x500 0x4000
    Sample.scheduler Sample.running sample_callable sample_holds sample_stack ltac:(done)) as H.
  assert (yield_switch (A := arch_of __x86_64__) Sample.co Sample.sched 0x200 Sample.running = Ok (tt, after_yield)) as E
    by (vm_compute; reflexivity).
  unfold wp in H at 1. rewrite E in H. destruct H as [_ H].
  eapply wp_mono; [apply (H after_yield); [apply rtc_refl|apply after_yield_callable|]|].
  - intros a Ha. change (call_sp Sample.running) with 0x3fb8 in Ha.
    change (call_sp after_yield) with 0x5fc0. change (regs after_yield sp) with 0x5fc8. lia.
  - intros _ c (Hpc & Hsp & Hr & _). split_and!; [exact Hpc|by etransitivity; [exact Hsp|]|].
    rewrite Forall_forall in Hr. apply (Hr (X86_64.rbx, 3)). repeat constructor.
Defined.

(** The same coroutine, on a new stack. *)
Definition dispatching : cpu X86_64.arch :=
  Build_cpu (A := X86_64.arch)
    (λ r : X86_64.register, match r with X86_64.rsp => 0x5fc0 | _ => 0 end) 0x100 Sample.memory.

Lemma new_coroutine_starts_witness :
  wp (init_context (A := arch_of __x86_64__) Sample.co 0x3000 0x1000 0x700;;
      resume_switch Sample.co Sample.sched 0x500)
    (λ _ c, pc c = 0x700 ∧ regs c X86_64.rdi = Sample.co ∧ (16 | regs c X86_64.rsp + 8))
    dispatching.
Proof.
  eapply wp_mono; [apply (new_coroutine_starts __x86_64__)|].
  - concrete_call.
  - by exists 0x800.
  - intros i Hi. assert (i = 2 ∨ i = 3 ∨ i = 4) as [-> | [-> | ->]] by lia; mapped_now.
  - intros a Ha. unfold in_ctx, Sample.co, Sample.sched, CTX_words.
    change (call_sp dispatching) with 0x5fb8. change (regs dispatching sp) with 0x5fc0.
    change (word (Arch := arch_of __x86_64__)) with 8 in *. lia.
  - intros _ c (Hpc & Ha & _ & _ & _ & H16). split_and!; [exact Hpc|by injection Ha|].
    apply H16; [done|by exists 0x400].
Defined.

Lemma clear_doc lo hi : madvise_doc (A := arch_of __x86_64__) Sample.clear (2 ^ 12) lo hi.
Proof.
  intros addr len c _ _ _ _. change (2 ^ 12) with 4096. unfold wp, Sample.clear.
  split_and!; [done|done|]. intros a Ha. cbn [mem]. rewrite map_lookup_imap.
  destruct (mem c !! a) as [v|]; [|done]. cbn. f_equal.
  destruct (addr <=? a) eqn:E1; [|done]. destruct (a <? _) eqn:E2; [|done].
  apply Z.leb_le in E1. apply Z.ltb_lt in E2. lia.
Defined.

Lemma madvise_keeps_used_stack_witness :
  wp (nty_coroutine_madvise Sample.clear Sample.co 0x2000 0x2000 8192 4096)
    (λ used c', used = 64 ∧ mem c' !! 0x3fc0 = Some 9) (Sample.away 0x3fc0).
Proof.
  eapply wp_mono; [apply (madvise_keeps_used_stack __x86_64__ Sample.clear Sample.co
                            0x2000 0x2000 8192 12 0x3fc0 (Sample.away 0x3fc0))|].
  - by vm_compute.
  - by exists 2.
  - by exists 2.
  - done.
  - done.
  - by exists 0x400.
  - by vm_compute.
  - done.
  - apply clear_doc.
  - intros used c' (-> & _ & Hm & _). split; [done|]. rewrite Hm by lia. by vm_compute.
Defined.

(** With a stack whose size is not a multiple of the page size, as
    [nty_schedule_create(5000)] asks for, [madvise] is called with a length that the system
    rounds up into the part in use: the coroutine's stack is cleared under it. *)
Theorem madvise_clears_odd_stack :
  ∃ c', nty_coroutine_madvise Sample.clear Sample.co 0x3000 5000 5000 4096 (Sample.away 0x3f80)
        = Ok (1032, c') ∧
    mem (Sample.away 0x3f80) !! 0x3f80 = Some 9 ∧ mem c' !! 0x3f80 = Some 0.
Proof. eexists. split_and!; vm_compute; reflexivity. Qed.
