(* ===== verification/Switch.v ===== *)
(** Code that runs inside a coroutine, as interaction trees: a step is a piece of code
    that runs to its end in the memory ([EOp]), a system call ([ESys]), or the context
    switch of [nty_coroutine_yield] back to the scheduler ([EYield]). What remains of a
    tree after [EYield] is the context and stack of the suspended coroutine. *)

From S2P Require Export Coroutine.
From ITree Require Export ITree.

#[export] Instance itree_ret {E} : MRet (itree E) := λ A x, Ret x.
#[export] Instance itree_bind {E} : MBind (itree E) := λ A B f t, ITree.bind t f.

Section events.
Context `{OS} {T Qt : Type}.

Inductive coE : Type → Type :=
  | EOp {A} (m : ST (mem T Qt) A) : coE A
  | ESys {A} (s : sysE A) : coE A
  | EYield : coE unit.
End events.
Arguments coE {_} T Qt _.

(** ** Unfolding *)

Lemma observe_bind_match {E A B} (t : itree E A) (k : A → itree E B) :
  observe (t ≫= k) =
    match observe t with
    | RetF r => observe (k r)
    | TauF t => TauF (t ≫= k)
    | VisF e h => VisF e (λ x, h x ≫= k)
    end.
Proof.
  change (observe (t ≫= k)) with (observe
    (match observe t with
     | RetF r => k r
     | TauF t => Tau (t ≫= k)
     | VisF e h => Vis e (λ x, h x ≫= k)
     end)).
  by destruct (observe t).
Qed.

Section context_switch.
Context `{OS} {T Qt : Type} `{TreeOps T} `{QueueOps Qt}.

Abbreviation prog := (itree (coE T Qt)).

Definition op {A} (m : ST (mem T Qt) A) : prog A := ITree.trigger (EOp m).
Definition sysc {A} (s : sysE A) : prog A := ITree.trigger (ESys s).

(** [nty_coroutine_yield(co)]: the stack of a coroutine that has not exited is saved
    with its context. *)
Definition nty_coroutine_yield (co : ptr) : prog unit :=
  op (co_update co (set_co_ops 0);; co_sched co;; mret tt);;
  ITree.trigger EYield.

Definition nty_coroutine_renice (co : ptr) : prog unit :=
  ops ← op (co_update co (λ c, set_co_ops (u32 (co_ops c + 1)) c);;
            c ← co_load co; mret (co_ops c));
  if (ops <? 5)%Z then mret tt
  else
    op (nty_coroutine_get_sched;; ready (queue_insert_tail co));;
    nty_coroutine_yield co.

Definition nty_coroutine_sleep (msecs : Z) : prog unit :=
  co ← op (s ← nty_coroutine_get_sched; mret (sched_curr_thread s));
  if (msecs =? 0)%Z then
    op (co_sched co;; ready (queue_insert_tail co));;
    nty_coroutine_yield co
  else op (nty_schedule_sched_sleepdown co msecs).
End context_switch.
