(* ===== verification/Trace.v ===== *)
(** The system calls a program makes, in order, with their results: what holds of every run,
    whatever the results are and whatever happens while the coroutine is suspended. The
    pieces of code that run in the memory ([EOp]) may yield any result here: a property
    of traces does not depend on the state of the scheduler. *)

From S2P Require Export Switch.

(** A system call that was made, and its result. *)
Inductive call `{OS} : Type :=
  | Call {A} (s : sysE A) (r : A).

Section traces.
Context `{OS} {T Qt : Type}.
Abbreviation prog := (itree (coE T Qt)).

(** What is assumed of the results of the calls. *)
Variable answers : ∀ A, sysE A → A → Prop.

(** The first [n] steps of [t], after the calls [tr], end with [Q] if they end. *)
Fixpoint run_upto {A} (n : nat) (t : prog A) (tr : list call) (Q : list call → A → Prop) : Prop :=
  match n with
  | O => True
  | S n =>
      match observe t with
      | RetF r => Q tr r
      | TauF t => run_upto n t tr Q
      | VisF e k =>
          match e in coE _ _ X return (X → prog A) → Prop with
          | EOp _ => λ k, ∀ x, run_upto n (k x) tr Q
          | ESys s => λ k, ∀ x, answers _ s x → run_upto n (k x) (tr ++ [Call s x]) Q
          | EYield => λ k, run_upto n (k tt) tr Q
          end k
      end
  end.

(** Every run of [t] that ends, after the calls [tr], ends with [Q]. *)
Definition every_run {A} (t : prog A) (tr : list call) (Q : list call → A → Prop) : Prop :=
  ∀ n, run_upto n t tr Q.

Lemma run_conseq {A} n (t : prog A) tr (Q Q' : list call → A → Prop) :
  (∀ tr x, Q tr x → Q' tr x) → run_upto n t tr Q → run_upto n t tr Q'.
Proof.
  intros HQ. revert t tr; induction n as [|n IH]; intros t tr; [done|]. simpl.
  destruct (observe t) as [r|t'|X e k]; [apply HQ|apply IH|].
  destruct e; intros Hr; [intros x; apply IH, Hr|intros x Hx; by apply IH, Hr|by apply IH].
Qed.

Lemma run_down {A} n (t : prog A) tr (Q : list call → A → Prop) :
  run_upto (S n) t tr Q → run_upto n t tr Q.
Proof.
  revert t tr; induction n as [|n IH]; intros t tr; [done|].
  change (run_upto (S (S n)) t tr Q) with
    (match observe t with
     | RetF r => Q tr r
     | TauF t => run_upto (S n) t tr Q
     | VisF e k =>
         match e in coE _ _ X return (X → prog A) → Prop with
         | EOp _ => λ k, ∀ x, run_upto (S n) (k x) tr Q
         | ESys s => λ k, ∀ x, answers _ s x → run_upto (S n) (k x) (tr ++ [Call s x]) Q
         | EYield => λ k, run_upto (S n) (k tt) tr Q
         end k
     end).
  cbn [run_upto]. destruct (observe t) as [r|t'|X e k]; [done|apply IH|].
  destruct e; intros Hr; [intros x; apply IH, Hr|intros x Hx; by apply IH, Hr|by apply IH].
Qed.

Lemma run_bind {A B} n (t : prog A) (k : A → prog B) tr (Q : list call → B → Prop) :
  run_upto n t tr (λ tr x, run_upto n (k x) tr Q) → run_upto n (t ≫= k) tr Q.
Proof.
  revert t tr; induction n as [|n IH]; intros t tr; [done|]. cbn [run_upto].
  rewrite observe_bind_match.
  assert (∀ t tr, run_upto n t tr (λ tr x, run_upto (S n) (k x) tr Q) →
    run_upto n (t ≫= k) tr Q) as Hstep.
  { intros t1 tr1 Ht1. apply IH. eapply run_conseq; [|exact Ht1]. intros. by apply run_down. }
  destruct (observe t) as [r|t'|X e h]; [done|apply Hstep|].
  destruct e; intros Hr; [intros x; apply Hstep, Hr|intros x Hx; by apply Hstep, Hr|by apply Hstep].
Qed.

(** ** Rules *)

Lemma every_ret {A} (x : A) tr (Q : list call → A → Prop) : Q tr x → every_run (mret x) tr Q.
Proof. intros HQ [|n]; [done|]. exact HQ. Qed.

Lemma every_bind {A B} (t : prog A) (k : A → prog B) tr (R : list call → A → Prop)
    (Q : list call → B → Prop) :
  every_run t tr R → (∀ tr x, R tr x → every_run (k x) tr Q) → every_run (t ≫= k) tr Q.
Proof.
  intros Ht Hk n. apply run_bind. eapply run_conseq; [|apply Ht]. intros tr' x HR. by apply Hk.
Qed.

Lemma every_conseq {A} (t : prog A) tr (Q Q' : list call → A → Prop) :
  every_run t tr Q → (∀ tr x, Q tr x → Q' tr x) → every_run t tr Q'.
Proof. intros Ht HQ n. by eapply run_conseq; [|apply Ht]. Qed.

Lemma every_op {A} (o : ST (mem T Qt) A) tr (Q : list call → A → Prop) :
  (∀ x, Q tr x) → every_run (op o) tr Q.
Proof. intros HQ [|n]; [done|]. intros x. destruct n; [done|]. apply HQ. Qed.

Lemma every_sys {A} (s : sysE A) tr (Q : list call → A → Prop) :
  (∀ x, answers A s x → Q (tr ++ [Call s x]) x) → every_run (sysc s) tr Q.
Proof. intros HQ [|n]; [done|]. intros x Hx. destruct n; [done|]. by apply HQ. Qed.

Lemma every_yield tr (Q : list call → unit → Prop) :
  Q tr tt → every_run (ITree.trigger EYield) tr Q.
Proof. intros HQ [|n]; [done|]. by destruct n. Qed.

Lemma every_bind_op {A B} (o : ST (mem T Qt) A) (k : A → prog B) tr (Q : list call → B → Prop) :
  (∀ x, every_run (k x) tr Q) → every_run (op o ≫= k) tr Q.
Proof. intros Hk. eapply (every_bind _ _ _ (λ tr' _, tr = tr')); [by apply every_op|]. by intros ? x <-. Qed.

Lemma every_bind_sys {A B} (s : sysE A) (k : A → prog B) tr (Q : list call → B → Prop) :
  (∀ x, answers A s x → every_run (k x) (tr ++ [Call s x]) Q) → every_run (sysc s ≫= k) tr Q.
Proof.
  intros Hk. eapply (every_bind _ _ _ (λ tr' x, tr' = tr ++ [Call s x] ∧ answers A s x)).
  - by apply every_sys.
  - intros ? x [-> Hx]. by apply Hk.
Qed.

Lemma every_iter {A B} (I : A → list call → Prop) (body : A → prog (A + B)) i tr
    (Q : list call → B → Prop) :
  I i tr →
  (∀ i tr, I i tr →
    every_run (body i) tr (λ tr r, match r with inl i => I i tr | inr x => Q tr x end)) →
  every_run (ITree.iter body i) tr Q.
Proof.
  intros HI Hbody n. revert i tr HI; induction n as [|n IH]; intros i tr HI; [done|].
  assert (∀ t t' : prog B, observe t = observe t' → run_upto (S n) t tr Q → run_upto (S n) t' tr Q)
    as Hobs by (intros t t' E; simpl; by rewrite E).
  apply (Hobs (body i ≫= λ r,
    match r with inl i => Tau (ITree.iter body i) | inr x => Ret x end)); [done|].
  apply run_bind. eapply run_conseq; [|by apply Hbody]. intros tr' [i'|x] Hr; simpl; [|done].
  by apply IH.
Qed.
End traces.
