(* ===== verification/Hoare.v ===== *)
(** Step-indexed Hoare triples for code that runs inside a coroutine.

    [wps n t Q g m]: the first [n] steps of [t], started in memory [m], make no error but
    those tolerated, stop in a state allowed to at each context switch, whatever the state is in which the
    coroutine is resumed, and end in [Q]. The ghost [g] describes the rest of the system;
    it is fixed between two switches. *)

From S2P Require Export Switch.

(** The errors that end a run without being faults of the library: fuel, and the
    failure of an assertion. *)
Definition tolerated (e : error) : Prop := e = OutOfFuel ∨ e = AssertFail.

Section hoare.
Context `{OS} {T Qt G : Type} `{TreeOps T} `{QueueOps Qt}.
Abbreviation prog := (itree (coE T Qt)).
Abbreviation assertion := (G → mem T Qt → Prop).

(** [switch K g m]: the coroutine may be switched out, and [K] holds of every ghost and
    memory it may be resumed in. *)
Variable switch : assertion → assertion.
Hypothesis switch_mono : ∀ (K K' : assertion) g m,
  (∀ g m, K g m → K' g m) → switch K g m → switch K' g m.

Section wps.
Context {A : Type}.

Fixpoint wps (n : nat) (t : prog A) (Q : A → assertion) (g : G) (m : mem T Qt) : Prop :=
  match n with
  | O => True
  | S n =>
      match observe t with
      | RetF r => Q r g m
      | TauF t => wps n t Q g m
      | VisF e k =>
          match e in coE _ _ X return (X → prog A) → Prop with
          | EOp o => λ k, wpe tolerated o (λ x, wps n (k x) Q g) m
          | ESys s => λ k, wpe tolerated (syscall s) (λ x, wps n (k x) Q g) m
          | EYield => λ k, switch (wps n (k tt) Q) g m
          end k
      end
  end.
End wps.

Lemma wps_down {A} n (t : prog A) (Q : A → assertion) g m : wps (S n) t Q g m → wps n t Q g m.
Proof.
  revert t g m; induction n as [|n IH]; intros t g m; [done|].
  change (wps (S (S n)) t Q g m) with
    (match observe t with
     | RetF r => Q r g m
     | TauF t => wps (S n) t Q g m
     | VisF e k =>
         match e in coE _ _ X return (X → prog A) → Prop with
         | EOp o => λ k, wpe tolerated o (λ x, wps (S n) (k x) Q g) m
         | ESys s => λ k, wpe tolerated (syscall s) (λ x, wps (S n) (k x) Q g) m
         | EYield => λ k, switch (wps (S n) (k tt) Q) g m
         end k
     end).
  simpl. destruct (observe t) as [r|t'|X e k]; [done|apply IH|].
  destruct e; intros Hw.
  - eapply wpe_mono; [exact Hw|]. cbv beta. eauto.
  - eapply wpe_mono; [exact Hw|]. cbv beta. eauto.
  - eapply switch_mono; [|exact Hw]. eauto.
Qed.

Lemma wps_conseq {A} n (t : prog A) (Q Q' : A → assertion) g m :
  (∀ x g m, Q x g m → Q' x g m) → wps n t Q g m → wps n t Q' g m.
Proof.
  intros HQ. revert t g m; induction n as [|n IH]; intros t g m; [done|]. simpl.
  destruct (observe t) as [r|t'|X e k]; [apply HQ|apply IH|].
  destruct e; intros Hw.
  - eapply wpe_mono; [exact Hw|]. cbv beta. eauto.
  - eapply wpe_mono; [exact Hw|]. cbv beta. eauto.
  - eapply switch_mono; [|exact Hw]. eauto.
Qed.

(** Trees that show the same first step satisfy the same triples. *)
Lemma wps_observe {A} n (t t' : prog A) (Q : A → assertion) g m :
  observe t = observe t' → wps n t Q g m → wps n t' Q g m.
Proof. intros E. destruct n; [done|]. simpl. by rewrite E. Qed.

Lemma wps_bind {A B} n (t : prog A) (k : A → prog B) (Q : B → assertion) g m :
  wps n t (λ x, wps n (k x) Q) g m → wps n (t ≫= k) Q g m.
Proof.
  revert t g m; induction n as [|n IH]; intros t g m; [done|]. cbn [wps].
  rewrite observe_bind_match. destruct (observe t) as [r|t'|X e h].
  - done.
  - intros Hw. apply IH. eapply wps_conseq; [|exact Hw]. intros x g' m'. apply wps_down.
  - destruct e; intros Hw.
    + eapply wpe_mono; [exact Hw|]. cbv beta. intros x m' Hx. apply IH.
      eapply wps_conseq; [|exact Hx]. intros y g' m''. apply wps_down.
    + eapply wpe_mono; [exact Hw|]. cbv beta. intros x m' Hx. apply IH.
      eapply wps_conseq; [|exact Hx]. intros y g' m''. apply wps_down.
    + eapply switch_mono; [|exact Hw]. cbv beta. intros g' m' Hx. apply IH.
      eapply wps_conseq; [|exact Hx]. intros y g'' m''. apply wps_down.
Qed.

(** ** Triples *)

Definition triple {A} (P : assertion) (t : prog A) (Q : A → assertion) : Prop :=
  ∀ n g m, P g m → wps n t Q g m.

Lemma triple_ret {A} (P : assertion) (x : A) (Q : A → assertion) :
  (∀ g m, P g m → Q x g m) → triple P (mret x) Q.
Proof. intros HQ [|n] g m HP; [done|]. by apply HQ. Qed.

Lemma triple_bind {A B} (P : assertion) (t : prog A) (k : A → prog B)
    (R : A → assertion) (Q : B → assertion) :
  triple P t R → (∀ x, triple (R x) (k x) Q) → triple P (t ≫= k) Q.
Proof.
  intros Ht Hk n g m HP. apply wps_bind. eapply wps_conseq; [|by apply Ht].
  intros x g' m' HR. by apply Hk.
Qed.

Lemma triple_conseq {A} (P P' : assertion) (t : prog A) (Q Q' : A → assertion) :
  (∀ g m, P g m → P' g m) → (∀ x g m, Q' x g m → Q x g m) → triple P' t Q' → triple P t Q.
Proof. intros HP HQ Ht n g m Hpre. eapply wps_conseq; [exact HQ|]. by apply Ht, HP. Qed.

Lemma triple_post {A} (P : assertion) (t : prog A) (Q Q' : A → assertion) :
  triple P t Q' → (∀ x g m, Q' x g m → Q x g m) → triple P t Q.
Proof. intros Ht HQ. by eapply triple_conseq; [|exact HQ|exact Ht]. Qed.

Lemma triple_op {A} (P : assertion) (o : ST (mem T Qt) A) (Q : A → assertion) :
  (∀ g m, P g m → wpe tolerated o (λ x, Q x g) m) → triple P (op o) Q.
Proof.
  intros Ho [|n] g m HP; [done|]. simpl. eapply wpe_mono; [by apply Ho|].
  cbv beta. intros x m' HQ. by destruct n.
Qed.

Lemma triple_sys {A} (P : assertion) (s : sysE A) (Q : A → assertion) :
  (∀ g m, P g m → wpe tolerated (syscall s) (λ x, Q x g) m) → triple P (sysc s) Q.
Proof.
  intros Ho [|n] g m HP; [done|]. simpl. eapply wpe_mono; [by apply Ho|].
  cbv beta. intros x m' HQ. by destruct n.
Qed.

Lemma triple_switch (P : assertion) (Q : unit → assertion) :
  (∀ g m, P g m → switch (Q tt) g m) → triple P (ITree.trigger EYield) Q.
Proof.
  intros Hs [|n] g m HP; [done|]. simpl. eapply switch_mono; [|by apply Hs].
  cbv beta. intros g' m' HQ. by destruct n.
Qed.

(** A loop: the invariant [I i] is kept by the body until it stops. *)
Lemma triple_iter {A B} (I : A → assertion) (body : A → prog (A + B)) (Q : B → assertion) i :
  (∀ i, triple (I i) (body i) (λ r, match r with inl i => I i | inr x => Q x end)) →
  triple (I i) (ITree.iter body i) Q.
Proof.
  intros Hbody n. revert i; induction n as [|n IH]; intros i g m HI; [done|].
  eapply (wps_observe _ (body i ≫= λ r,
    match r with inl i => Tau (ITree.iter body i) | inr x => Ret x end)); [done|].
  apply wps_bind. eapply wps_conseq; [|by apply Hbody]. intros [i'|x] g' m' Hr; simpl; [|done].
  by apply IH.
Qed.
End hoare.
