(* ===== verification/Hooks.v ===== *)
(** The pointers of src/core/nty_socket.c to the system's own functions, which the hooked
    functions of the same names are in front of: how [init_hook] finds them and how each
    hooked function uses its own. Socket.v models what the functions do with the system
    call they reach. *)

From S2P Require Export Prelude.

(** ** Data *)

Inductive hook : Type :=
  | hook_socket | hook_read | hook_recv | hook_recvfrom | hook_write | hook_send | hook_sendto
  | hook_accept | hook_close | hook_connect.

Record hooks : Type := Hooks {
  socket_f : ptr;
  read_f : ptr;
  recv_f : ptr;
  recvfrom_f : ptr;
  write_f : ptr;
  send_f : ptr;
  sendto_f : ptr;
  accept_f : ptr;
  close_f : ptr;
  connect_f : ptr;
}.

(** Before anything runs. *)
Definition no_hooks : hooks := Hooks NULL NULL NULL NULL NULL NULL NULL NULL NULL NULL.

(** The pointer a hooked function goes through. *)
Definition pointer_of (n : hook) (h : hooks) : ptr :=
  match n with
  | hook_socket => socket_f h | hook_read => read_f h | hook_recv => recv_f h
  | hook_recvfrom => recvfrom_f h | hook_write => write_f h | hook_send => send_f h
  | hook_sendto => sendto_f h | hook_accept => accept_f h | hook_close => close_f h
  | hook_connect => connect_f h
  end.

(** The name of the system's function. *)
Definition symbol (n : hook) : string :=
  match n with
  | hook_socket => "socket" | hook_read => "read" | hook_recv => "recv"
  | hook_recvfrom => "recvfrom" | hook_write => "write" | hook_send => "send"
  | hook_sendto => "sendto" | hook_accept => "accept" | hook_close => "close"
  | hook_connect => "connect"
  end%string.

(** ** Operations *)

Section hooks.
(** [dlsym(RTLD_NEXT, name)]: the next function of that name, behind the hooked one. *)
Variable dlsym : string → ptr.

Definition init_hook : ST hooks unit :=
  modify (λ _, Hooks (dlsym "socket") (dlsym "read") (dlsym "recv") (dlsym "recvfrom")
    (dlsym "write") (dlsym "send") (dlsym "sendto")
    (dlsym "accept") (dlsym "close") (dlsym "connect"))%string.

(** The first line of a hooked function, and the call of the system's function, whose address
    is the result. *)
Definition hooked (n : hook) : ST hooks addr :=
  p ← gets (pointer_of n);
  (if decide (p = NULL) then init_hook else mret tt);;
  p ← gets (pointer_of n);
  match p with None => throw NullDeref | Some a => mret a end.

(** A program may also call [init_hook] itself, as nty_mysql_client.c does. *)
Inductive use : Type :=
  | UInit
  | UCall (n : hook).

(** The addresses called, in order. *)
Fixpoint run_uses (us : list use) : ST hooks (list addr) :=
  match us with
  | [] => mret []
  | UInit :: us => init_hook;; run_uses us
  | UCall n :: us => a ← hooked n; l ← run_uses us; mret (a :: l)
  end.

Definition calls (us : list use) : list hook := omap (λ u, match u with UCall n => Some n | UInit => None end) us.

(** ** Correctness *)

(** The pointers are all [NULL], or each is that of its own function. *)
Definition hooks_ok (h : hooks) : Prop := h = no_hooks ∨ ∀ n, pointer_of n h = dlsym (symbol n).

Lemma init_hook_ok h : wp init_hook (λ _ h', ∀ n, pointer_of n h' = dlsym (symbol n)) h.
Proof. apply wp_modify. by intros []. Qed.

Lemma hooked_spec n a h : hooks_ok h → dlsym (symbol n) = Some a →
  wp (hooked n) (λ r h', r = a ∧ hooks_ok h') h.
Proof.
  intros Hh Ha. unfold hooked. apply wp_bind, wp_gets, wp_bind.
  destruct (decide (pointer_of n h = NULL)) as [Hp|Hp].
  - eapply wp_mono; [apply init_hook_ok|]. cbv beta. intros _ h' Hh'.
    apply wp_bind, wp_gets. rewrite Hh', Ha. apply wp_ret. split; [done|by right].
  - apply wp_ret, wp_bind, wp_gets. destruct Hh as [->|Hh]; [by destruct n|].
    rewrite Hh, Ha. apply wp_ret. split; [done|by right].
Qed.

(** When the system has the ten functions, every hooked call, in whatever order and whether or not
    the program calls [init_hook], reaches the system's function of its own name: no pointer is
    called before it is set. *)
Theorem hooks_reach_system (system : hook → addr) us :
  (∀ n, dlsym (symbol n) = Some (system n)) →
  wp (run_uses us) (λ r _, r = system <$> calls us) no_hooks.
Proof.
  intros Hd. assert (∀ h, hooks_ok h → wp (run_uses us) (λ r _, r = system <$> calls us) h) as Hrun.
  2: { apply Hrun. by left. }
  induction us as [|[|n] us IH]; intros h Hh; cbn [run_uses]; [by apply wp_ret|..].
  - eapply wp_seq; [apply init_hook_ok|]. cbv beta. intros _ h' Hh'. apply IH. by right.
  - eapply wp_seq; [by eapply hooked_spec|]. cbv beta. intros a h' [-> Hh'].
    eapply wp_seq; [by apply IH|]. cbv beta. intros l h2 ->. by apply wp_ret.
Qed.

(** A function the system does not have is called through a null pointer. *)
Theorem missing_function_crashes h n :
  hooks_ok h → dlsym (symbol n) = NULL → hooked n h = Err NullDeref.
Proof.
  intros Hh Hd. apply wpe_err. unfold hooked. apply wpe_wp_bind, wp_gets.
  assert (pointer_of n h = NULL) as -> by (destruct Hh as [->|Hh]; [by destruct n|by rewrite Hh]).
  rewrite decide_True by done. apply wpe_wp_bind. eapply wp_mono; [apply init_hook_ok|].
  cbv beta. intros _ h' Hh'. apply wpe_wp_bind, wp_gets. rewrite Hh', Hd. by constructor.
Qed.
End hooks.

(** A table of the system's functions, at the addresses 1 to 10. *)
Definition example_system (n : hook) : addr :=
  match n with
  | hook_socket => 1 | hook_read => 2 | hook_recv => 3 | hook_recvfrom => 4 | hook_write => 5
  | hook_send => 6 | hook_sendto => 7 | hook_accept => 8 | hook_close => 9 | hook_connect => 10
  end%positive.
Definition all_hooks : list hook :=
  [hook_socket; hook_read; hook_recv; hook_recvfrom; hook_write; hook_send; hook_sendto;
   hook_accept; hook_close; hook_connect].
Definition example_dlsym (s : string) : ptr :=
  example_system <$> head (filter (λ n, symbol n = s) all_hooks).

Lemma hooks_reach_system_witness :
  wp (run_uses example_dlsym [UCall hook_recv; UInit; UCall hook_socket; UCall hook_recv])
    (λ r _, r = [3; 1; 3]%positive) no_hooks.
Proof.
  apply (hooks_reach_system example_dlsym example_system
    [UCall hook_recv; UInit; UCall hook_socket; UCall hook_recv]).
  intros n. destruct n; vm_compute; reflexivity.
Defined.
