(* ===== verification/Socket.v ===== *)
(** src/core/nty_socket.c: the socket functions of the library, which wait in the
    scheduler until the descriptor is ready, and (Module [Hook]) the functions of the
    same file that replace those of the C library.

    The [nty_] functions call [socket], [accept], [recv], ... and so the hooked functions of
    the same program; the calls through the pointers [socket_f], [accept_f], ... filled in by
    [init_hook] (Hooks.v) are the system calls. An output buffer is returned next to the result. *)

From S2P Require Export Switch.

(** ** Event masks *)

Definition test (x mask : Z) : bool := negb (Z.land x mask =? 0)%Z.

Definition nty_pollevent_2epoll (events : Z) : Z :=
  let e := 0%Z in
  let e := if test events POLLIN then Z.lor e EPOLLIN else e in
  let e := if test events POLLOUT then Z.lor e EPOLLOUT else e in
  let e := if test events POLLHUP then Z.lor e EPOLLHUP else e in
  let e := if test events POLLERR then Z.lor e EPOLLERR else e in
  let e := if test events POLLRDNORM then Z.lor e EPOLLRDNORM else e in
  if test events POLLWRNORM then Z.lor e EPOLLWRNORM else e.

Definition nty_epollevent_2poll (events : Z) : Z :=
  let e := 0%Z in
  let e := if test events EPOLLIN then Z.lor e POLLIN else e in
  let e := if test events EPOLLOUT then Z.lor e POLLOUT else e in
  let e := if test events EPOLLHUP then Z.lor e POLLHUP else e in
  let e := if test events EPOLLERR then Z.lor e POLLERR else e in
  let e := if test events EPOLLRDNORM then Z.lor e POLLRDNORM else e in
  if test events EPOLLWRNORM then Z.lor e POLLWRNORM else e.

(** The masks of [fds.events] in the functions below. *)
Definition poll_read_events : Z := Z.lor (Z.lor POLLIN POLLERR) POLLHUP.
Definition poll_write_events : Z := Z.lor (Z.lor POLLOUT POLLERR) POLLHUP.

Section sockets.
Context `{OS} {T Qt : Type} `{TreeOps T} `{QueueOps Qt}.

Abbreviation M := (ST (mem T Qt)).
Abbreviation prog := (itree (coE T Qt)).

(** ** Waiting for readiness *)

(** The bodies of the two [for] loops of [nty_poll_inner]. *)
Definition poll_register (co : ptr) (timeout : Z) (pfd : pollfd) : M unit :=
  s ← nty_coroutine_get_sched;
  let ev := EpollEvent (nty_pollevent_2epoll (pfd_events pfd)) (pfd_fd pfd) in
  syscall (sys_epoll_ctl (sched_poller_fd s) EPOLL_CTL_ADD (pfd_fd pfd) ev);;
  co_update co (set_co_events (u16 (pfd_events pfd)));;
  nty_schedule_sched_wait co (pfd_fd pfd) (u16 (pfd_events pfd)) (u64 timeout).

Definition poll_unregister (pfd : pollfd) : M unit :=
  s ← nty_coroutine_get_sched;
  let ev := EpollEvent (nty_pollevent_2epoll (pfd_events pfd)) (pfd_fd pfd) in
  syscall (sys_epoll_ctl (sched_poller_fd s) EPOLL_CTL_DEL (pfd_fd pfd) ev);;
  nty_schedule_desched_wait (pfd_fd pfd);;
  mret tt.

Definition nty_poll_inner (fds : list pollfd) (timeout : Z) : prog Z :=
  if (timeout =? 0)%Z then sysc (sys_poll fds timeout)
  else
    let timeout := if (timeout <? 0)%Z then INT_MAX else timeout in
    null ← op sched_is_null;
    if null : bool then mret (-1)%Z
    else
      co ← op (s ← nty_coroutine_get_sched; mret (sched_curr_thread s));
      op (for_each fds (poll_register co timeout));;
      nty_coroutine_yield co;;
      op (for_each fds poll_unregister);;
      mret (Z.of_nat (length fds)).

(** [errno] *)
Definition errno : prog Z := op (gets m_errno).

(** The [send] loop the sending functions share, with [snd] the function that sends:
    what is left of [buf] is sent until all is sent or [snd] fails. *)
Definition send_loop (fd : Z) (buf : list byte) (snd : list byte → prog Z) : prog Z :=
  let len := Z.of_nat (length buf) in
  ret ← snd buf;
  let ret := i32 ret in
  if (ret =? 0)%Z then mret ret else
  let sent := if (ret >? 0)%Z then ret else 0%Z in
  '(ret, sent) ← ITree.iter (λ '(ret, sent),
    if (u64 sent <? len)%Z then
      nty_poll_inner [PollFd fd poll_write_events] 1;;
      ret ← snd (drop (Z.to_nat sent) buf);
      let ret := i32 ret in
      if (ret <=? 0)%Z then mret (inr (ret, sent))
      else mret (inl (ret, i32 (sent + ret)))
    else mret (inr (ret, sent))) (ret, sent);
  if (ret <=? 0)%Z && (sent =? 0)%Z then mret ret else mret sent.
End sockets.

(** ** The hooked functions *)

Module Hook.
Section hook.
Context `{OS} {T Qt : Type} `{TreeOps T} `{QueueOps Qt}.

Abbreviation prog := (itree (coE T Qt)).

Definition close (fd : Z) : prog Z := sysc (sys_close fd).

Definition socket (domain type protocol : Z) : prog Z :=
  null ← op sched_is_null;
  if null : bool then sysc (sys_socket domain type protocol) else
  fd ← sysc (sys_socket domain type protocol);
  if (fd =? -1)%Z then mret (-1)%Z else
  ret ← sysc (sys_fcntl_nonblock fd);
  if (ret =? -1)%Z then close ret;; mret (-1)%Z else
  sysc (sys_setsockopt_reuse fd);;
  mret fd.

Definition read (fd count : Z) : prog (Z * list byte) :=
  null ← op sched_is_null;
  if null : bool then sysc (sys_read fd count) else
  nty_poll_inner [PollFd fd poll_read_events] 1;;
  '(ret, buf) ← sysc (sys_read fd count);
  let ret := i32 ret in
  if (ret <? 0)%Z then
    e ← errno;
    if (e =? ECONNRESET)%Z then mret ((-1)%Z, buf) else mret (ret, buf)
  else mret (ret, buf).

Definition recv (fd len flags : Z) : prog (Z * list byte) :=
  null ← op sched_is_null;
  if null : bool then sysc (sys_recv fd len flags) else
  nty_poll_inner [PollFd fd poll_read_events] 1;;
  '(ret, buf) ← sysc (sys_recv fd len flags);
  let ret := i32 ret in
  if (ret <? 0)%Z then
    e ← errno;
    if (e =? ECONNRESET)%Z then mret ((-1)%Z, buf) else mret (ret, buf)
  else mret (ret, buf).

Definition recvfrom (fd len flags : Z) : prog (Z * list byte * sockaddr) :=
  null ← op sched_is_null;
  if null : bool then sysc (sys_recvfrom fd len flags) else
  nty_poll_inner [PollFd fd poll_read_events] 1;;
  '(ret, buf, src) ← sysc (sys_recvfrom fd len flags);
  let ret := i32 ret in
  if (ret <? 0)%Z then
    e ← errno;
    if (e =? EAGAIN)%Z then mret (ret, buf, src) else
    if (e =? ECONNRESET)%Z then mret (0%Z, buf, src) else
    op (c_assert false);; mret (ret, buf, src)
  else mret (ret, buf, src).

Definition write (fd : Z) (buf : list byte) : prog Z :=
  null ← op sched_is_null;
  if null : bool then sysc (sys_write fd buf) else
  send_loop fd buf (λ data, sysc (sys_write fd data)).

Definition send (fd : Z) (buf : list byte) (flags : Z) : prog Z :=
  null ← op sched_is_null;
  if null : bool then sysc (sys_send fd buf flags) else
  send_loop fd buf (λ data, sysc (sys_send fd data flags)).

Definition sendto (sockfd : Z) (buf : list byte) (flags : Z) (dest_addr : sockaddr) : prog Z :=
  null ← op sched_is_null;
  if null : bool then sysc (sys_sendto sockfd buf flags dest_addr) else
  nty_poll_inner [PollFd sockfd poll_write_events] 1;;
  ret ← sysc (sys_sendto sockfd buf flags dest_addr);
  let ret := i32 ret in
  if (ret <? 0)%Z then
    e ← errno;
    if (e =? EAGAIN)%Z then mret ret else
    if (e =? ECONNRESET)%Z then mret 0%Z else
    op (c_assert false);; mret ret
  else mret ret.

Definition accept (fd : Z) : prog (Z * sockaddr) :=
  null ← op sched_is_null;
  if null : bool then sysc (sys_accept fd) else
  op (nty_coroutine_get_sched;; mret tt);;
  '(sockfd, addr) ← ITree.iter (λ _ : unit,
    nty_poll_inner [PollFd fd poll_read_events] 1;;
    '(sockfd, addr) ← sysc (sys_accept fd);
    if (sockfd <? 0)%Z then
      e ← errno;
      if (e =? EAGAIN)%Z then mret (inl tt) else mret (inr ((-1)%Z, addr))
    else mret (inr (sockfd, addr))) tt;
  if (sockfd <? 0)%Z then mret ((-1)%Z, addr) else
  ret ← sysc (sys_fcntl_nonblock sockfd);
  if (ret =? -1)%Z then close sockfd;; mret ((-1)%Z, addr) else
  sysc (sys_setsockopt_reuse fd);;
  mret (sockfd, addr).

Definition connect (fd : Z) (addr : sockaddr) : prog Z :=
  null ← op sched_is_null;
  if null : bool then sysc (sys_connect fd addr) else
  ITree.iter (λ _ : unit,
    nty_poll_inner [PollFd fd poll_write_events] 1;;
    ret ← sysc (sys_connect fd addr);
    if (ret =? 0)%Z then mret (inr ret) else
    e ← errno;
    if (ret =? -1)%Z && ((e =? EAGAIN)%Z || (e =? EWOULDBLOCK)%Z || (e =? EINPROGRESS)%Z)
    then mret (inl tt) else mret (inr ret)) tt.
End hook.
End Hook.

(** ** The functions of the library *)

Section nty.
Context `{OS} {T Qt : Type} `{TreeOps T} `{QueueOps Qt}.

Abbreviation prog := (itree (coE T Qt)).

Definition nty_socket (domain type protocol : Z) : prog Z :=
  fd ← Hook.socket domain type protocol;
  if (fd =? -1)%Z then mret (-1)%Z else
  ret ← sysc (sys_fcntl_nonblock fd);
  if (ret =? -1)%Z then Hook.close ret;; mret (-1)%Z else
  sysc (sys_setsockopt_reuse fd);;
  mret fd.

Definition nty_accept (fd : Z) : prog (Z * sockaddr) :=
  op (nty_coroutine_get_sched;; mret tt);;
  '(sockfd, addr) ← ITree.iter (λ _ : unit,
    nty_poll_inner [PollFd fd poll_read_events] 1;;
    '(sockfd, addr) ← Hook.accept fd;
    if (sockfd <? 0)%Z then
      e ← errno;
      if (e =? EAGAIN)%Z then mret (inl tt) else mret (inr ((-1)%Z, addr))
    else mret (inr (sockfd, addr))) tt;
  if (sockfd <? 0)%Z then mret ((-1)%Z, addr) else
  ret ← sysc (sys_fcntl_nonblock sockfd);
  if (ret =? -1)%Z then Hook.close sockfd;; mret ((-1)%Z, addr) else
  sysc (sys_setsockopt_reuse fd);;
  mret (sockfd, addr).

Definition nty_connect (fd : Z) (name : sockaddr) : prog Z :=
  ITree.iter (λ _ : unit,
    nty_poll_inner [PollFd fd poll_write_events] 1;;
    ret ← Hook.connect fd name;
    if (ret =? 0)%Z then mret (inr ret) else
    e ← errno;
    if (ret =? -1)%Z && ((e =? EAGAIN)%Z || (e =? EWOULDBLOCK)%Z || (e =? EINPROGRESS)%Z)
    then mret (inl tt) else mret (inr ret)) tt.

Definition nty_recv (fd len flags : Z) : prog (Z * list byte) :=
  nty_poll_inner [PollFd fd poll_read_events] 1;;
  '(ret, buf) ← Hook.recv fd len flags;
  let ret := i32 ret in
  if (ret <? 0)%Z then
    e ← errno;
    if (e =? ECONNRESET)%Z then mret ((-1)%Z, buf) else mret (ret, buf)
  else mret (ret, buf).

Definition nty_send (fd : Z) (buf : list byte) (flags : Z) : prog Z :=
  send_loop fd buf (λ data, Hook.send fd data flags).

Definition nty_sendto (fd : Z) (buf : list byte) (flags : Z) (dest_addr : sockaddr) : prog Z :=
  let len := Z.of_nat (length buf) in
  ITree.iter (λ sent,
    if (u64 sent <? len)%Z then
      nty_poll_inner [PollFd fd poll_write_events] 1;;
      ret ← Hook.sendto fd (drop (Z.to_nat sent) buf) flags dest_addr;
      let ret := i32 ret in
      if (ret <=? 0)%Z then
        e ← errno;
        if (e =? EAGAIN)%Z then mret (inl sent) else
        if (e =? ECONNRESET)%Z then mret (inr ret) else
        op (c_assert false);; mret (inr ret)
      else mret (inl (i32 (sent + ret)))
    else mret (inr sent)) 0%Z.

Definition nty_recvfrom (fd len flags : Z) : prog (Z * list byte * sockaddr) :=
  nty_poll_inner [PollFd fd poll_read_events] 1;;
  '(ret, buf, src) ← Hook.recvfrom fd len flags;
  let ret := i32 ret in
  if (ret <? 0)%Z then
    e ← errno;
    if (e =? EAGAIN)%Z then mret (ret, buf, src) else
    if (e =? ECONNRESET)%Z then mret (0%Z, buf, src) else
    op (c_assert false);; mret (ret, buf, src)
  else mret (ret, buf, src).

Definition nty_close (fd : Z) : prog Z := Hook.close fd.
End nty.
