(* ===== verification/SocketProps.v ===== *)
(** What is proved of src/core/nty_socket.c: the bytes handed to the system by the sending
    functions, the descriptors opened and closed, and the event masks. *)

From S2P Require Export Socket Trace.
From S2P Require Import RBSet Fifo ToyOS.

(** ** Reading a trace *)

(** The bytes of [data] taken by a send that returned [r]. *)
Definition taken_bytes (r : Z) (data : list byte) : list byte := take (Z.to_nat r) data.

(** The bytes the system accepted, in order. *)
Definition call_bytes `{OS} (c : call) : list byte :=
  match c with
  | Call s r =>
      match s in sysE X return X → list byte with
      | sys_write _ data => λ r, taken_bytes r data
      | sys_send _ data _ => λ r, taken_bytes r data
      | sys_sendto _ data _ _ => λ r, taken_bytes r data
      | _ => λ _, []
      end r
  end.
Definition accepted `{OS} (tr : list call) : list byte := tr ≫= call_bytes.

(** The descriptors obtained, and those passed to [close]. *)
Definition call_opened `{OS} (c : call) : list Z :=
  match c with
  | Call s r =>
      match s in sysE X return X → list Z with
      | sys_socket _ _ _ => λ fd, if (fd =? -1)%Z then [] else [fd]
      | sys_accept _ => λ r, if (r.1 <? 0)%Z then [] else [r.1]
      | _ => λ _, []
      end r
  end.
Definition call_closed `{OS} (c : call) : list Z :=
  match c with Call (sys_close fd) _ => [fd] | _ => [] end.
Definition call_nonblock `{OS} (c : call) : list Z :=
  match c with
  | Call s r =>
      match s in sysE X return X → list Z with
      | sys_fcntl_nonblock fd => λ r, if (r =? -1)%Z then [] else [fd]
      | _ => λ _, []
      end r
  end.
Definition opened `{OS} (tr : list call) : list Z := tr ≫= call_opened.
Definition closed `{OS} (tr : list call) : list Z := tr ≫= call_closed.
Definition nonblocking `{OS} (tr : list call) : list Z := tr ≫= call_nonblock.

(** The documented range of the results: a send takes at most the bytes it is given. *)
Definition honest `{OS} (A : Type) (s : sysE A) : A → Prop :=
  match s in sysE X return X → Prop with
  | sys_write _ data => λ r, (-1 ≤ r ≤ Z.of_nat (length data))%Z
  | sys_send _ data _ => λ r, (-1 ≤ r ≤ Z.of_nat (length data))%Z
  | sys_sendto _ data _ _ => λ r, (-1 ≤ r ≤ Z.of_nat (length data))%Z
  | _ => λ _, True
  end.
Definition anything `{OS} (A : Type) (s : sysE A) (r : A) : Prop := True.

Section traces.
Context `{OS} {T Qt : Type} `{TreeOps T} `{QueueOps Qt}.
Abbreviation prog := (itree (coE T Qt)).

(** A view of the trace that [nty_poll_inner] with a time limit of 1 leaves alone. *)
Lemma poll_inner_silent answers pfds {B} (k : Z → prog B) tr (Q : list call → B → Prop) :
  (∀ r, every_run answers (k r) tr Q) →
  every_run answers (nty_poll_inner pfds 1 ≫= k) tr Q.
Proof.
  intros Hk. eapply (every_bind _ _ _ _ (λ tr' _, tr = tr')); [|by intros ? r <-].
  unfold nty_poll_inner. cbn [Z.eqb Z.ltb Z.compare]. apply every_bind_op. intros null.
  destruct null; [by apply every_ret|].
  apply every_bind_op. intros co. apply every_bind_op. intros _.
  eapply (every_bind _ _ _ _ (λ tr' _, tr = tr')).
  { unfold nty_coroutine_yield. apply every_bind_op. intros _. by apply every_yield. }
  intros ? _ <-. apply every_bind_op. intros _. by apply every_ret.
Qed.

Lemma accepted_app tr tr' : accepted (tr ++ tr') = accepted tr ++ accepted tr'.
Proof. apply bind_app. Qed.

(** [f] sends: it takes a prefix of what it is given, and says how long. *)
Definition sends (f : list byte → prog Z) : Prop := ∀ data tr,
  (Z.of_nat (length data) < 2 ^ 31)%Z →
  every_run honest (f data) tr (λ tr' r,
    accepted tr' = accepted tr ++ taken_bytes r data ∧ (-2 ^ 31 ≤ r ≤ Z.of_nat (length data))%Z).

Lemma take_take_drop (n m : nat) (l : list byte) :
  take n l ++ take m (drop n l) = take (n + m) l.
Proof. apply take_take_drop. Qed.

(** The state of the loop: [sent] bytes are gone. *)
Definition loop_inv (buf : list byte) (tr0 : list call) (st : Z * Z) (tr : list call) : Prop :=
  accepted tr = accepted tr0 ++ taken_bytes st.2 buf ∧ (0 ≤ st.2 ≤ Z.of_nat (length buf))%Z ∧
  (-2 ^ 31 ≤ st.1 < 2 ^ 31)%Z.

Lemma send_loop_sends fd f : sends f → sends (λ buf, send_loop fd buf f).
Proof.
  intros Hf buf tr Hlen. unfold send_loop. cbv zeta.
  eapply (every_bind _ _ _ _ (λ tr' r, accepted tr' = accepted tr ++ taken_bytes r buf ∧
    (-2 ^ 31 ≤ r ≤ Z.of_nat (length buf))%Z)); [by apply Hf|]. intros tr1 r [Ha Hr].
  rewrite i32_small by lia. destruct (Z.eqb_spec r 0) as [->|Hr0]; [by apply every_ret|].
  eapply (every_bind _ _ _ _ (λ tr' st, loop_inv buf tr st tr')).
  - eapply (every_iter _ (loop_inv buf tr)).
    { destruct (Z.gtb_spec r 0) as [Hpos|Hneg].
      - split_and!; simpl; [done|lia..].
      - split_and!; simpl; [|lia..]. rewrite Ha. unfold taken_bytes.
        by replace (Z.to_nat r) with 0 by lia. }
    intros [r1 s1] tr2 (Ha2 & Hs & Hr1). simpl in *.
    destruct (Z.ltb_spec (u64 s1) (Z.of_nat (length buf))) as [Hlt|Hge].
    2: { by apply every_ret. }
    rewrite u64_small in Hlt by lia. apply poll_inner_silent. intros _.
    eapply every_bind; [apply Hf; rewrite length_drop; lia|]. intros tr4 r2 [Ha4 Hr2]. rewrite length_drop in Hr2. cbv beta zeta.
    rewrite i32_small by lia. destruct (Z.leb_spec r2 0) as [Hle|Hgt].
    + apply every_ret. split_and!; simpl; [|lia..]. rewrite Ha4, Ha2. unfold taken_bytes.
      replace (Z.to_nat r2) with 0 by lia. by rewrite app_nil_r.
    + apply every_ret. rewrite i32_small by lia. split_and!; simpl; [|lia..].
      rewrite Ha4, Ha2, <- app_assoc. f_equal. unfold taken_bytes.
      rewrite take_take_drop. f_equal. lia.
  - intros tr2 [r1 s1] (Ha2 & Hs & Hr1). simpl in *.
    destruct (Z.leb_spec r1 0) as [Hle|Hgt]; simpl.
    + destruct (Z.eqb_spec s1 0) as [->|Hs1]; simpl; apply every_ret; (split; [|lia]).
      * rewrite Ha2. unfold taken_bytes. by replace (Z.to_nat r1) with 0 by lia.
      * done.
    + apply every_ret. split; [done|lia].
Qed.

(** The system calls themselves. *)
Lemma sys_sends (sc : list byte → sysE Z) :
  (∀ data r, call_bytes (Call (sc data) r) = taken_bytes r data) →
  (∀ data r, honest Z (sc data) r → (-1 ≤ r ≤ Z.of_nat (length data))%Z) →
  sends (λ data, sysc (sc data)).
Proof.
  intros Hb Hh data tr _. apply every_sys. intros r Hr. rewrite accepted_app.
  split; [|specialize (Hh _ _ Hr); lia]. f_equal.
  rewrite <- (app_nil_r (taken_bytes r data)), <- Hb. done.
Qed.

(** A hooked function: the system call alone, or in the loop. *)
Lemma hooked_sends fd (f : list byte → prog Z) :
  sends f →
  sends (λ data, null ← op sched_is_null; if null : bool then f data else send_loop fd data f).
Proof.
  intros Hf data tr Hlen. apply every_bind_op. intros [].
  - by apply Hf.
  - by apply (send_loop_sends fd f).
Qed.

Lemma hook_send_sends fd flags : sends (λ data, Hook.send (T := T) (Qt := Qt) fd data flags).
Proof. apply (hooked_sends fd (λ data, sysc (sys_send fd data flags))). by apply sys_sends. Qed.

Lemma hook_write_sends fd : sends (λ data, Hook.write (T := T) (Qt := Qt) fd data).
Proof. apply (hooked_sends fd (λ data, sysc (sys_write fd data))). by apply sys_sends. Qed.

Lemma nty_send_sends fd flags : sends (λ data, nty_send (T := T) (Qt := Qt) fd data flags).
Proof. unfold nty_send. apply (send_loop_sends fd (λ d, Hook.send fd d flags)), hook_send_sends. Qed.

(** C6: in every run of [nty_send], of the hooked [send] and of the hooked [write] on a buffer
    of less than 2^31 bytes, the bytes the system accepts, over all its partial sends and
    however often the coroutine is suspended, are exactly the prefix of the buffer whose
    length is the result; none when the result is negative. *)
Theorem send_exactly_prefix fd buf flags :
  (Z.of_nat (length buf) < 2 ^ 31)%Z →
  let spec := λ (tr : list call) (r : Z),
    accepted tr = take (Z.to_nat r) buf ∧ (r ≤ Z.of_nat (length buf))%Z in
  every_run (T := T) (Qt := Qt) honest (nty_send fd buf flags) [] spec ∧
  every_run (T := T) (Qt := Qt) honest (Hook.send fd buf flags) [] spec ∧
  every_run (T := T) (Qt := Qt) honest (Hook.write fd buf) [] spec.
Proof.
  intros Hlen spec.
  assert (∀ f : list byte → prog Z, sends f → every_run honest (f buf) [] spec) as Hspec.
  { intros f Hf. eapply every_conseq; [by apply Hf|]. cbv beta. intros tr r [Ha Hr].
    split; [exact Ha|lia]. }
  split_and!.
  - exact (Hspec (λ data, nty_send fd data flags) (nty_send_sends fd flags)).
  - exact (Hspec (λ data, Hook.send fd data flags) (hook_send_sends fd flags)).
  - exact (Hspec (λ data, Hook.write fd data) (hook_write_sends fd)).
Qed.
(** ** Descriptors *)

(** Every descriptor obtained was closed, but for the valid descriptor [fd]. *)
Definition settled (fd : Z) (tr : list call) : Prop :=
  ∀ x, x ∈ opened tr → x ∈ closed tr ∨ (x = fd ∧ (0 ≤ fd)%Z).

Lemma opened_snoc tr c : opened (tr ++ [c]) = opened tr ++ call_opened c.
Proof. unfold opened. rewrite bind_app. simpl. by rewrite app_nil_r. Qed.
Lemma closed_snoc tr c : closed (tr ++ [c]) = closed tr ++ call_closed c.
Proof. unfold closed. rewrite bind_app. simpl. by rewrite app_nil_r. Qed.
Lemma nonblocking_snoc tr c : nonblocking (tr ++ [c]) = nonblocking tr ++ call_nonblock c.
Proof. unfold nonblocking. rewrite bind_app. simpl. by rewrite app_nil_r. Qed.

(** A call that obtains no descriptor. *)
Lemma settled_call fd tr c : settled fd tr → call_opened c = [] → settled fd (tr ++ [c]).
Proof.
  intros Hs Hc x. rewrite opened_snoc, Hc, app_nil_r, closed_snoc, elem_of_app.
  intros Hx. destruct (Hs x Hx); auto.
Qed.

Lemma settled_none fd fd' tr : settled fd tr → (fd < 0)%Z → settled fd' tr.
Proof. intros Hs Hfd x Hx. destruct (Hs x Hx) as [?|[_ ?]]; [by left|lia]. Qed.

(** [accept] succeeds, or fails. *)
Lemma settled_accept tr lfd (r : Z * sockaddr) :
  settled (-1) tr → settled r.1 (tr ++ [Call (sys_accept lfd) r]).
Proof.
  intros Hs x. rewrite opened_snoc, closed_snoc. simpl. rewrite app_nil_r, elem_of_app.
  apply (settled_none _ r.1) in Hs; [|lia]. intros [Hx|Hx]; [auto|].
  destruct (Z.ltb_spec r.1 0); simpl in Hx; [by apply elem_of_nil in Hx|].
  apply list_elem_of_singleton in Hx as ->. by right.
Qed.

Lemma settled_close fd fd' tr r : settled fd tr → settled fd' (tr ++ [Call (sys_close fd) r]).
Proof.
  intros Hs x. rewrite opened_snoc, closed_snoc. simpl. rewrite app_nil_r, elem_of_app.
  rewrite list_elem_of_singleton. intros Hx. destruct (Hs x Hx) as [?|[-> _]]; auto.
Qed.

(** The end of both accepting functions: the new descriptor is made non-blocking. *)
Definition accept_finish (fd sockfd : Z) (addr : sockaddr) : prog (Z * sockaddr) :=
  if (sockfd <? 0)%Z then mret ((-1)%Z, addr) else
  ret ← sysc (sys_fcntl_nonblock sockfd);
  if (ret =? -1)%Z then Hook.close sockfd;; mret ((-1)%Z, addr) else
  sysc (sys_setsockopt_reuse fd);;
  mret (sockfd, addr).

Lemma accept_finish_settles fd sockfd addr tr :
  settled sockfd tr →
  every_run anything (accept_finish fd sockfd addr) tr (λ tr' r,
    settled r.1 tr' ∧ ((0 ≤ r.1)%Z → r.1 ∈ nonblocking tr')).
Proof.
  intros Hs. unfold accept_finish. destruct (Z.ltb_spec sockfd 0).
  { apply every_ret. split; [by eapply settled_none|]. simpl. lia. }
  apply every_bind_sys. intros ret _. pose proof (settled_call sockfd tr
    (Call (sys_fcntl_nonblock sockfd) ret) Hs eq_refl) as Hs1.
  set (tr1 := tr ++ _) in *.
  destruct (Z.eqb_spec ret (-1)) as [->|Hret].
  - apply every_bind_sys. intros x _. apply every_ret. split; [by apply settled_close|]. simpl. lia.
  - apply every_bind_sys. intros x _. apply every_ret. split; [by apply settled_call|].
    intros _. simpl. rewrite nonblocking_snoc. unfold tr1. rewrite nonblocking_snoc. simpl.
    rewrite (proj2 (Z.eqb_neq _ _) Hret). set_solver.
Qed.

(** The accepting loop. *)
Lemma accept_loop_settles fd (f : prog (Z * sockaddr)) tr :
  (∀ tr, settled (-1) tr → every_run anything f tr (λ tr' r, settled r.1 tr')) →
  settled (-1) tr →
  every_run anything (ITree.iter (λ _ : unit,
    nty_poll_inner [PollFd fd poll_read_events] 1;;
    '(sockfd, addr) ← f;
    if (sockfd <? 0)%Z then
      e ← errno;
      if (e =? EAGAIN)%Z then mret (inl tt) else mret (inr ((-1)%Z, addr))
    else mret (inr (sockfd, addr))) tt) tr (λ tr' r, settled r.1 tr').
Proof.
  intros Hf Hs. apply (every_iter _ (λ _, settled (-1))); [done|].
  intros [] tr1 Hs1. apply poll_inner_silent. intros _.
  eapply every_bind; [by apply Hf|]. cbv beta. intros tr2 [sockfd addr] Hs2. simpl in Hs2.
  destruct (Z.ltb_spec sockfd 0); [|by apply every_ret].
  apply every_bind_op. intros e.
  destruct (e =? EAGAIN)%Z; apply every_ret; by eapply settled_none.
Qed.

Lemma hook_accept_settles fd tr :
  settled (-1) tr →
  every_run anything (Hook.accept (T := T) (Qt := Qt) fd) tr (λ tr' r, settled r.1 tr').
Proof.
  intros Hs. unfold Hook.accept. apply every_bind_op. intros [].
  { apply every_sys. intros r _. by apply settled_accept. }
  apply every_bind_op. intros _. eapply every_bind.
  { apply accept_loop_settles; [|exact Hs]. intros tr1 Hs1. apply every_sys. intros r _.
    by apply settled_accept. }
  cbv beta. intros tr1 [sockfd addr] Hs1. simpl in Hs1.
  eapply every_conseq; [by apply (accept_finish_settles fd sockfd addr)|]. by intros tr2 r [? _].
Qed.

(** C7: in every run of [nty_accept], whatever the calls return, each descriptor obtained from
    the system is either the result, which was made non-blocking, or was closed. *)
Theorem accept_no_leak fd :
  every_run (T := T) (Qt := Qt) anything (nty_accept fd) [] (λ tr r,
    (∀ x, x ∈ opened tr → x ∈ closed tr ∨ x = r.1) ∧ ((0 ≤ r.1)%Z → r.1 ∈ nonblocking tr)).
Proof.
  unfold nty_accept. apply every_bind_op. intros _. eapply every_bind.
  { apply accept_loop_settles; [apply hook_accept_settles|]. by intros x ?%not_elem_of_nil. }
  cbv beta. intros tr1 [sockfd addr] Hs1. simpl in Hs1.
  eapply every_conseq; [by apply (accept_finish_settles fd sockfd addr)|].
  intros tr2 r [Hs2 Hn]. split; [|exact Hn]. intros x Hx. destruct (Hs2 x Hx) as [?|[? _]]; auto.
Qed.

(** The socket functions close -1 in place of the descriptor when it cannot be made
    non-blocking: in every run of [nty_socket] and of the hooked [socket] no descriptor but -1
    is ever closed, so a failure after the socket was obtained leaks it. *)
Theorem socket_failure_leaks domain type protocol :
  let spec := λ (tr : list call) (r : Z), Forall (λ fd, fd = (-1)%Z) (closed tr) in
  every_run (T := T) (Qt := Qt) anything (nty_socket domain type protocol) [] spec ∧
  every_run (T := T) (Qt := Qt) anything (Hook.socket domain type protocol) [] spec.
Proof.
  intros spec.
  assert (∀ tr c, Forall (λ fd, fd = (-1)%Z) (closed tr) → call_closed c = [] ∨ call_closed c = [(-1)%Z] →
    Forall (λ fd, fd = (-1)%Z) (closed (tr ++ [c]))) as Hstep.
  { intros tr c Htr Hc. rewrite closed_snoc, Forall_app. split; [done|].
    destruct Hc as [-> | ->]; by repeat constructor. }
  assert (∀ tr fd, Forall (λ fd, fd = (-1)%Z) (closed tr) → every_run (T := T) (Qt := Qt) anything
    (ret ← sysc (sys_fcntl_nonblock fd);
     if (ret =? -1)%Z then Hook.close ret;; mret (-1)%Z else
     sysc (sys_setsockopt_reuse fd);; mret fd) tr spec) as Htail.
  { intros tr fd Htr. apply every_bind_sys. intros ret _.
    destruct (Z.eqb_spec ret (-1)) as [->|]; apply every_bind_sys; intros x _; apply every_ret;
      apply Hstep; auto. }
  assert (∀ tr, Forall (λ fd, fd = (-1)%Z) (closed tr) →
    every_run (T := T) (Qt := Qt) anything (Hook.socket domain type protocol) tr spec) as Hhook.
  { intros tr Htr. unfold Hook.socket. apply every_bind_op. intros [].
    { apply every_sys. intros fd _. apply Hstep; auto. }
    apply every_bind_sys. intros fd _. destruct (fd =? -1)%Z; [apply every_ret; apply Hstep; auto|].
    apply Htail. apply Hstep; auto. }
  split; [|by apply Hhook]. unfold nty_socket. eapply every_bind; [by apply Hhook|].
  intros tr fd Htr. destruct (fd =? -1)%Z; [by apply every_ret|]. by apply Htail.
Qed.
End traces.

(** ** Event masks *)

Lemma or_bit v e m i : (0 ≤ i)%Z → m = (2 ^ i)%Z →
  (if test v m then Z.lor e m else e) = Z.lor e (Z.land v m).
Proof.
  intros Hi ->. unfold test.
  assert (Z.land v (2 ^ i) = if Z.testbit v i then 2 ^ i else 0)%Z as ->.
  { apply Z.bits_inj'. intros n Hn. rewrite Z.land_spec, Z.pow2_bits_eqb by done.
    destruct (Z.testbit v i) eqn:E; rewrite ?Z.pow2_bits_eqb, ?Z.bits_0 by done;
      destruct (Z.eqb_spec i n) as [<-|]; rewrite ?E; by rewrite ?andb_false_r. }
  destruct (Z.testbit v i); [|by rewrite Z.lor_0_r].
  rewrite (proj2 (Z.eqb_neq _ _)); [done|]. pose proof (Z.pow_pos_nonneg 2 i). lia.
Qed.

(** The events the conversions know about. *)
Definition known_events : Z :=
  Z.lor (Z.lor (Z.lor (Z.lor (Z.lor POLLIN POLLOUT) POLLHUP) POLLERR) POLLRDNORM) POLLWRNORM.

(** The conversion of poll events to epoll events keeps exactly the events it knows, and
    the conversion back is its inverse on them. *)
Theorem pollevent_roundtrip events :
  nty_pollevent_2epoll events = Z.land events known_events ∧
  nty_epollevent_2poll (nty_pollevent_2epoll events) = Z.land events known_events.
Proof.
  assert (∀ v, nty_pollevent_2epoll v = Z.land v known_events) as Hto.
  { intros v. unfold nty_pollevent_2epoll, known_events. cbv zeta.
    rewrite (or_bit v 0 _ 0), (or_bit v _ POLLOUT 2), (or_bit v _ POLLHUP 4), (or_bit v _ POLLERR 3),
      (or_bit v _ POLLRDNORM 6), (or_bit v _ POLLWRNORM 8) by done.
    rewrite !Z.land_lor_distr_r. done. }
  rewrite Hto. split; [done|].
  change (nty_epollevent_2poll (Z.land events known_events)) with
    (nty_pollevent_2epoll (Z.land events known_events)).
  rewrite Hto, <- Z.land_assoc. by rewrite Z.land_diag.
Qed.

(** ** Examples *)

Lemma send_exactly_prefix_witness :
  (Z.of_nat (length (toy_input 5)) < 2 ^ 31)%Z ∧
  every_run (T := rbtree) (Qt := qmem) honest (nty_send 7 (toy_input 5) 0) [] (λ tr r,
    accepted tr = take (Z.to_nat r) (toy_input 5) ∧ (r ≤ 5)%Z).
Proof.
  assert (Z.of_nat (length (toy_input 5)) < 2 ^ 31)%Z as Hlen by (vm_compute; reflexivity).
  split; [exact Hlen|].
  exact (proj1 (send_exactly_prefix (T := rbtree) (Qt := qmem) 7 (toy_input 5) 0 Hlen)).
Defined.
