(* ===== verification/Machine.v ===== *)
(** The scheduler of src/core/nty_schedule.c running coroutines: the memory together with
    the suspended context of every coroutine, [nty_coroutine_resume], [_exec] and
    [nty_schedule_run].

    The body of a coroutine is a program over the calls of the library, [apiE]. Loops of
    the scheduler and the stretches of a coroutine between two switches take fuel. *)

From S2P Require Export Socket.

(** ** The calls of the library *)

Inductive apiE `{OS} : Type → Type :=
  | api_socket (domain type protocol : Z) : apiE Z
  | api_accept (fd : Z) : apiE (Z * sockaddr)
  | api_connect (fd : Z) (name : sockaddr) : apiE Z
  | api_recv (fd len flags : Z) : apiE (Z * list byte)
  | api_send (fd : Z) (buf : list byte) (flags : Z) : apiE Z
  | api_sendto (fd : Z) (buf : list byte) (flags : Z) (dest_addr : sockaddr) : apiE Z
  | api_recvfrom (fd len flags : Z) : apiE (Z * list byte * sockaddr)
  | api_close (fd : Z) : apiE Z
  | api_hook_socket (domain type protocol : Z) : apiE Z
  | api_hook_read (fd count : Z) : apiE (Z * list byte)
  | api_hook_recv (fd len flags : Z) : apiE (Z * list byte)
  | api_hook_recvfrom (fd len flags : Z) : apiE (Z * list byte * sockaddr)
  | api_hook_write (fd : Z) (buf : list byte) : apiE Z
  | api_hook_send (fd : Z) (buf : list byte) (flags : Z) : apiE Z
  | api_hook_sendto (fd : Z) (buf : list byte) (flags : Z) (dest_addr : sockaddr) : apiE Z
  | api_hook_accept (fd : Z) : apiE (Z * sockaddr)
  | api_hook_connect (fd : Z) (name : sockaddr) : apiE Z
  | api_create (func arg : Z) : apiE (Z * ptr)
  | api_sleep (msecs : Z) : apiE unit
  | api_renice : apiE unit                               (* on the running coroutine *)
  | api_detach : apiE unit
  | api_usec_now : apiE Z
  | api_errno : apiE Z
  (* calls of the C library that the samples make *)
  | api_bind (fd : Z) (name : sockaddr) : apiE Z
  | api_listen (fd backlog : Z) : apiE Z
  | api_getsockname (fd : Z) : apiE (Z * sockaddr)
  | api_setsockopt_reuse (fd : Z) : apiE Z
  | api_fcntl (fd cmd arg : Z) : apiE Z
  | api_stat (path : list byte) : apiE (Z * Z)
  | api_fopen (path : list byte) : apiE (option (list byte))
  | api_shm (o : shm_op) : apiE Z
  | api_sys {A} (s : sysE A) : apiE A.                   (* any other call of the system *)

Section machine.
Context `{OS} {T Qt : Type} `{TreeOps T} `{QueueOps Qt}.

Abbreviation M := (ST (mem T Qt)).
Abbreviation prog := (itree (coE T Qt)).

Definition api {A} (e : apiE A) : prog A :=
  match e with
  | api_socket d t p => nty_socket d t p
  | api_accept fd => nty_accept fd
  | api_connect fd name => nty_connect fd name
  | api_recv fd len flags => nty_recv fd len flags
  | api_send fd buf flags => nty_send fd buf flags
  | api_sendto fd buf flags dest => nty_sendto fd buf flags dest
  | api_recvfrom fd len flags => nty_recvfrom fd len flags
  | api_close fd => nty_close fd
  | api_hook_socket d t p => Hook.socket d t p
  | api_hook_read fd count => Hook.read fd count
  | api_hook_recv fd len flags => Hook.recv fd len flags
  | api_hook_recvfrom fd len flags => Hook.recvfrom fd len flags
  | api_hook_write fd buf => Hook.write fd buf
  | api_hook_send fd buf flags => Hook.send fd buf flags
  | api_hook_sendto fd buf flags dest => Hook.sendto fd buf flags dest
  | api_hook_accept fd => Hook.accept fd
  | api_hook_connect fd name => Hook.connect fd name
  | api_create func arg => op (nty_coroutine_create func arg)
  | api_sleep msecs => nty_coroutine_sleep msecs
  | api_renice =>
      co ← op (s ← nty_coroutine_get_sched; mret (sched_curr_thread s));
      nty_coroutine_renice co
  | api_detach => op nty_coroutine_detach
  | api_usec_now => op nty_coroutine_usec_now
  | api_errno => errno
  | api_bind fd name => sysc (sys_bind fd name)
  | api_listen fd backlog => sysc (sys_listen fd backlog)
  | api_getsockname fd => sysc (sys_getsockname fd)
  | api_setsockopt_reuse fd => sysc (sys_setsockopt_reuse fd)
  | api_fcntl fd cmd arg => sysc (sys_fcntl fd cmd arg)
  | api_stat path => sysc (sys_stat path)
  | api_fopen path => sysc (sys_fopen path)
  | api_shm o => sysc (sys_shm o)
  | api_sys s => sysc s
  end.

(** [code func arg]: what a call of the function pointer [func] with [arg] does. *)
Variable code : Z → Z → itree apiE unit.

Definition _exec (co : ptr) : prog unit :=
  c ← op (co_load co);
  interp (λ _, api) (code (co_func c) (co_arg c));;
  op (status_or co (Z.lor (Z.lor (BIT NTY_COROUTINE_STATUS_EXITED)
    (BIT NTY_COROUTINE_STATUS_FDEOF)) (BIT NTY_COROUTINE_STATUS_DETACH)));;
  nty_coroutine_yield co.

(** ** The machine *)

Record machine : Type := Machine {
  mc_mem : mem T Qt;
  mc_ctx : gmap addr (prog unit);       (* co->ctx and co->stack *)
}.

Definition in_mem {A} (m : M A) : ST machine A :=
  zoom mc_mem (λ m s, Machine m (mc_ctx s)) m.

Definition get_ctx (co : ptr) : ST machine (prog unit) := λ s,
  match co with
  | None => Err NullDeref
  | Some a => match mc_ctx s !! a with None => Err Undefined | Some t => Ok (t, s) end
  end.
Definition set_ctx (co : ptr) (t : prog unit) : ST machine unit := λ s,
  match co with
  | None => Err NullDeref
  | Some a => Ok (tt, Machine (mc_mem s) (<[a := t]> (mc_ctx s)))
  end.

(** [swapcontext] into a coroutine: it runs up to its next switch. Returning from the
    last function of the stack is excluded by [_exec]. *)
Fixpoint run_ctx (fuel : nat) (t : prog unit) : M (prog unit) :=
  match fuel with
  | O => throw OutOfFuel
  | S fuel =>
      match observe t with
      | RetF _ => throw Undefined
      | TauF t => run_ctx fuel t
      | VisF e k =>
          match e in coE _ _ X return (X → prog unit) → M (prog unit) with
          | EOp m => λ k, a ← m; run_ctx fuel (k a)
          | ESys s => λ k, a ← syscall s; run_ctx fuel (k a)
          | EYield => λ k, mret (k tt)
          end k
      end
  end.

(** ** The scheduler *)

Definition nty_coroutine_resume (fuel : nat) (co : ptr) : ST machine Z :=
  c ← in_mem (co_load co);
  (if has_bit (co_status c) NTY_COROUTINE_STATUS_NEW then
     in_mem (nty_coroutine_init co);;
     set_ctx co (_exec co)
   else get_ctx co;; mret tt);;
  in_mem (sched_update (set_curr_thread co));;
  t ← get_ctx co;
  t ← in_mem (run_ctx fuel t);
  set_ctx co t;;
  in_mem (sched_update (set_curr_thread NULL));;
  c ← in_mem (co_load co);
  if has_bit (co_status c) NTY_COROUTINE_STATUS_EXITED then
    when (has_bit (co_status c) NTY_COROUTINE_STATUS_DETACH) (in_mem (nty_coroutine_free co));;
    mret (-1)%Z
  else mret 0%Z.

(** The loops below make at most [n] iterations and give each coroutine [fuel] steps.

    1. The sleepers whose time has come. *)
Fixpoint run_expired (fuel n : nat) : ST machine unit :=
  match n with
  | O => throw OutOfFuel
  | S n =>
      expired ← in_mem nty_schedule_expired;
      match expired with
      | None => mret tt
      | Some _ => nty_coroutine_resume fuel expired;; run_expired fuel n
      end
  end.

(** 2. The coroutines that were ready at the start of the pass. *)
Fixpoint run_ready (last_co_ready : ptr) (fuel n : nat) : ST machine unit :=
  match n with
  | O => throw OutOfFuel
  | S n =>
      empty ← in_mem (nty_coroutine_get_sched;; ready queue_empty);
      if (empty : bool) then mret tt else
      co ← in_mem (ready queue_first);
      in_mem (co_sched co;; ready (queue_remove co));;
      c ← in_mem (co_load co);
      if has_bit (co_status c) NTY_COROUTINE_STATUS_FDEOF then
        in_mem (nty_coroutine_free co)
      else
        nty_coroutine_resume fuel co;;
        if decide (co = last_co_ready) then mret tt else run_ready last_co_ready fuel n
  end.

(** 3. The events [epoll_wait] reported, from the last to the first. *)
Fixpoint run_events (fuel n : nat) : ST machine unit :=
  match n with
  | O => throw OutOfFuel
  | S n =>
      s ← in_mem nty_coroutine_get_sched;
      if (sched_num_new_events s =? 0)%Z then mret tt else
      let idx := i32 (sched_num_new_events s - 1) in
      in_mem (sched_update (set_num_new_events idx));;
      ev ← of_res (match sched_eventlist s !! Z.to_nat idx with
                   | Some ev => if (idx <? 0)%Z then Err Undefined else Ok ev
                   | None => Err Undefined
                   end);
      let fd := ev_fd ev in
      let is_eof := test (ev_events ev) EPOLLHUP in
      when is_eof (in_mem (modify (with_errno ECONNRESET)));;
      co ← in_mem (nty_schedule_search_wait fd);
      (match co with
       | Some _ =>
           when is_eof (in_mem (status_or co (BIT NTY_COROUTINE_STATUS_FDEOF)));;
           nty_coroutine_resume fuel co;;
           mret tt
       | None => mret tt
       end);;
      run_events fuel n
  end.

(** One turn of the loop of [nty_schedule_run]. *)
Definition schedule_turn (fuel : nat) : ST machine unit :=
  run_expired fuel fuel;;
  last_co_ready ← in_mem (nty_coroutine_get_sched;; ready queue_last);
  run_ready last_co_ready fuel fuel;;
  in_mem (nty_schedule_epoll fuel);;
  run_events fuel fuel.

Fixpoint schedule_loop (fuel n : nat) : ST machine unit :=
  match n with
  | O => throw OutOfFuel
  | S n =>
      done ← in_mem nty_schedule_isdone;
      if (done : bool) then mret tt
      else schedule_turn fuel;; schedule_loop fuel n
  end.

Definition nty_schedule_run (fuel : nat) : ST machine unit :=
  null ← in_mem sched_is_null;
  if (null : bool) then mret tt
  else
    schedule_loop fuel fuel;;
    in_mem nty_schedule_free.

(** A main function that creates coroutines and runs the scheduler. *)
Definition main_program (fuel : nat) (cos : list (Z * Z)) : ST machine unit :=
  for_each cos (λ '(func, arg), in_mem (nty_coroutine_create func arg);; mret tt);;
  nty_schedule_run fuel.

Definition machine_init (k : kernel) : machine :=
  Machine (Mem ∅ tree_none tree_none queue_none queue_none None 0 k) ∅.
End machine.
Arguments machine {_} T Qt.
