(* ===== verification/CString.v ===== *)
(** Bytes, character arrays and the string functions of the C library the samples use. A
    [char] array is the list of its bytes; an access outside it is an error. *)

From S2P Require Export Prelude.
From Stdlib Require Export Strings.Byte.
From Stdlib Require Strings.String.

(** ** Bytes *)

Definition bz (b : byte) : Z := Z.of_N (Byte.to_N b).
(** The low eight bits. *)
Definition zb (z : Z) : byte :=
  match Byte.of_N (Z.to_N (z mod 256)) with Some b => b | None => x00 end.

Definition byte_xor (a b : byte) : byte := zb (Z.lxor (bz a) (bz b)).

#[export] Instance byte_eq_dec : EqDecision byte.
Proof. intros a b. destruct (Byte.byte_eq_dec a b); [by left|by right]. Defined.

Lemma bz_range b : (0 ≤ bz b < 256)%Z.
Proof. unfold bz. pose proof (Byte.to_N_bounded b). lia. Qed.

Lemma bz_zb z : bz (zb z) = (z mod 256)%Z.
Proof.
  unfold bz, zb. pose proof (Z.mod_pos_bound z 256 ltac:(lia)).
  destruct (Byte.of_N _) as [b|] eqn:E.
  - apply Byte.to_of_N in E. rewrite E. lia.
  - apply Byte.of_N_None_iff in E. lia.
Qed.

Lemma zb_bz b : zb (bz b) = b.
Proof.
  unfold zb. rewrite Z.mod_small by apply bz_range. unfold bz. by rewrite N2Z.id, Byte.of_to_N.
Qed.

Lemma bz_inj a b : bz a = bz b → a = b.
Proof. intros E. rewrite <- (zb_bz a), <- (zb_bz b). by rewrite E. Qed.

Lemma bz_xor a b : bz (byte_xor a b) = Z.lxor (bz a) (bz b).
Proof.
  unfold byte_xor. rewrite bz_zb. pose proof (bz_range a) as Ha. pose proof (bz_range b) as Hb.
  rewrite <- (Z.land_ones _ 8) by lia. apply Z.bits_inj'. intros n Hn.
  rewrite Z.land_spec, Z.testbit_ones_nonneg, Z.lxor_spec by lia.
  destruct (Z.ltb_spec n 8); [by rewrite andb_true_r|]. rewrite andb_false_r.
  assert (∀ x, (0 ≤ x < 256)%Z → Z.testbit x n = false) as Hz.
  { intros x Hx. rewrite <- (Z.mod_small x (2 ^ 8)) by lia. apply Z.mod_pow2_bits_high. lia. }
  by rewrite !Hz.
Qed.

Lemma byte_xor_twice a b : byte_xor (byte_xor a b) b = a.
Proof. apply bz_inj. rewrite !bz_xor, Z.lxor_assoc, Z.lxor_nilpotent. apply Z.lxor_0_r. Qed.

(** The bytes of a literal. *)
Definition lit (s : string) : list byte := String.list_byte_of_string s.

(** ** Arrays *)

(** [b[i]] *)
Definition rd (b : list byte) (i : nat) : res byte :=
  match b !! i with Some c => Ok c | None => Err Undefined end.
(** [b[i] = c] *)
Definition wr (b : list byte) (i : nat) (c : byte) : res (list byte) :=
  if decide (i < length b) then Ok (<[i := c]> b) else Err Undefined.

(** [n] bytes at [off]. *)
Definition rdn (b : list byte) (off n : nat) : res (list byte) :=
  if decide (off + n ≤ length b) then Ok (take n (drop off b)) else Err Undefined.
(** [memcpy(b + off, src, length of src)] *)
Definition wrn (b : list byte) (off : nat) (src : list byte) : res (list byte) :=
  if decide (off + length src ≤ length b)
  then Ok (take off b ++ src ++ drop (off + length src) b) else Err Undefined.

(** An unsigned integer in little-endian order. *)
Fixpoint le_val (b : list byte) : Z :=
  match b with [] => 0 | c :: b => bz c + 256 * le_val b end.
Fixpoint le_bytes (n : nat) (z : Z) : list byte :=
  match n with O => [] | S n => zb z :: le_bytes n (z / 256) end.

Lemma le_val_bytes n z : le_val (le_bytes n z) = (z mod 256 ^ Z.of_nat n)%Z.
Proof.
  revert z; induction n as [|n IH]; intros z; simpl le_val; [by rewrite Z.mod_1_r|].
  rewrite IH, bz_zb, Nat2Z.inj_succ, Z.pow_succ_r by lia. rewrite Z.rem_mul_r; [lia|lia|].
  apply Z.pow_pos_nonneg; lia.
Qed.

Lemma le_val_nonneg b : (0 ≤ le_val b)%Z.
Proof. induction b as [|c b IH]; simpl; [lia|]. pose proof (bz_range c). lia. Qed.

Lemma le_val_bound b : (0 ≤ le_val b < 256 ^ Z.of_nat (length b))%Z.
Proof.
  induction b as [|c b IH]; cbn [le_val length]; [lia|]. pose proof (bz_range c).
  rewrite Nat2Z.inj_succ, Z.pow_succ_r by lia. lia.
Qed.

Lemma le_val_app a b : le_val (a ++ b) = (le_val a + 256 ^ Z.of_nat (length a) * le_val b)%Z.
Proof.
  induction a as [|c a IH]; [simpl; lia|]. cbn [app le_val length].
  rewrite IH, Nat2Z.inj_succ, Z.pow_succ_r by lia. lia.
Qed.

Lemma length_le_bytes n z : length (le_bytes n z) = n.
Proof. revert z; induction n as [|n IH]; intros z; simpl; auto. Qed.

(** ** Strings *)

(** [strlen(b)] *)
Fixpoint strlen (b : list byte) : res nat :=
  match b with
  | [] => Err Undefined
  | c :: b => if decide (c = x00) then Ok 0 else n ← strlen b; Ok (S n)
  end.

(** The characters before the terminating NUL. *)
Fixpoint cstr (b : list byte) : res (list byte) :=
  match b with
  | [] => Err Undefined
  | c :: b => if decide (c = x00) then Ok [] else s ← cstr b; Ok (c :: s)
  end.

(** [strcpy(b + off, s)] and [sprintf] of a string [s]: the bytes and a NUL. *)
Definition put_str (b : list byte) (off : nat) (s : list byte) : res (list byte) := wrn b off (s ++ [x00]).

(** [strcat(b, s)] *)
Definition strcat (b s : list byte) : res (list byte) := n ← strlen b; put_str b n s.

Fixpoint is_prefix (p s : list byte) : bool :=
  match p, s with
  | [], _ => true
  | c :: p, d :: s => bool_decide (c = d) && is_prefix p s
  | _, [] => false
  end.
(** [strstr(s, p) != NULL] *)
Fixpoint contains (p s : list byte) : bool :=
  is_prefix p s || match s with [] => false | _ :: s => contains p s end.

(** [tolower] of the C locale *)
Definition tolower (c : byte) : byte :=
  if (65 <=? bz c)%Z && (bz c <=? 90)%Z then zb (bz c + 32) else c.
(** [strcasecmp(s, t) == 0] *)
Definition same_nocase (s t : list byte) : bool := bool_decide (tolower <$> s = tolower <$> t).

(** [isspace] of the C locale *)
Definition isspace (c : byte) : bool := ((9 <=? bz c)%Z && (bz c <=? 13)%Z) || (bz c =? 32)%Z.

(** [%d] of a number that is not negative: its digits in front of [acc]. *)
Fixpoint digits (fuel : nat) (z : Z) (acc : list byte) : list byte :=
  match fuel with
  | O => acc
  | S fuel =>
      let acc := zb (48 + z mod 10) :: acc in
      if (z <? 10)%Z then acc else digits fuel (z / 10) acc
  end.
(** [%d] and [%ld]. *)
Definition decimal (z : Z) : list byte :=
  if (z <? 0)%Z then x2d :: digits 20 (- z) [] else digits 20 z [].

(** [isdigit] *)
Definition isdigit (c : byte) : bool := (48 <=? bz c)%Z && (bz c <=? 57)%Z.

Fixpoint atoi_digits (b : list byte) (acc : Z) : res Z :=
  match b with
  | [] => Err Undefined
  | c :: b => if isdigit c then atoi_digits b (10 * acc + (bz c - 48)) else Ok acc
  end.
Fixpoint atoi_space (b : list byte) : res (list byte) :=
  match b with
  | [] => Err Undefined
  | c :: b' => if isspace c then atoi_space b' else Ok b
  end.
(** [atoi(b)]: the behaviour is undefined when an [int] cannot hold the number. *)
Definition atoi (b : list byte) : res Z :=
  b ← atoi_space b;
  match b with
  | [] => Err Undefined
  | c :: b' =>
      z ← (if decide (c = x2d) then n ← atoi_digits b' 0; Ok (- n)%Z
           else if decide (c = x2b) then atoi_digits b' 0
           else atoi_digits b 0);
      c_int z
  end.

Lemma cstr_app s rest : x00 ∉ s → cstr (s ++ x00 :: rest) = Ok s.
Proof.
  induction s as [|c s IH]; [done|]. rewrite not_elem_of_cons. intros [Hc Hs]. cbn [app cstr].
  rewrite decide_False by congruence. by rewrite IH.
Qed.

Lemma strlen_app s rest : x00 ∉ s → strlen (s ++ x00 :: rest) = Ok (length s).
Proof.
  induction s as [|c s IH]; [done|]. rewrite not_elem_of_cons. intros [Hc Hs]. cbn [app strlen].
  rewrite decide_False by congruence. by rewrite IH.
Qed.

Lemma wrn_ok b off src : off + length src ≤ length b →
  wrn b off src = Ok (take off b ++ src ++ drop (off + length src) b).
Proof. intros. unfold wrn. by rewrite decide_True. Qed.

Lemma rdn_ok b off n : off + n ≤ length b → rdn b off n = Ok (take n (drop off b)).
Proof. intros. unfold rdn. by rewrite decide_True. Qed.

Lemma rd_ok b i : i < length b → ∃ c, rd b i = Ok c ∧ b !! i = Some c.
Proof. intros [c E]%lookup_lt_is_Some. exists c. unfold rd. by rewrite E. Qed.

Lemma rd_lookup b i c : b !! i = Some c → rd b i = Ok c.
Proof. unfold rd. by intros ->. Qed.

Lemma length_wrn b off src b' : wrn b off src = Ok b' → length b' = length b.
Proof.
  unfold wrn. case_decide; [|done]. intros [= <-].
  rewrite !length_app, length_take, length_drop. lia.
Qed.

(** What [memcpy] leaves up to the end of the copy. *)
Lemma wrn_at b off src : off + length src ≤ length b →
  ∃ b', wrn b off src = Ok b' ∧ length b' = length b ∧ take (off + length src) b' = take off b ++ src.
Proof.
  intros Hl. rewrite wrn_ok by done. eexists; split; [done|].
  rewrite !length_app, length_drop, length_take. split; [lia|]. rewrite app_assoc.
  apply take_app_length'. rewrite length_app, length_take. lia.
Qed.

(** Nothing in front of it changes. *)
Lemma take_wrn b off src n b' : off + length src ≤ length b → n ≤ off →
  wrn b off src = Ok b' → take n b' = take n b.
Proof.
  intros Hl Hn. rewrite wrn_ok by done. intros [= <-].
  rewrite take_app_le by (rewrite length_take; lia). rewrite take_take. f_equal. lia.
Qed.

Lemma wrn_zeros n src : length src ≤ n → wrn (replicate n x00) 0 src = Ok (src ++ replicate (n - length src) x00).
Proof.
  intros Hl. rewrite wrn_ok by (rewrite length_replicate; lia). cbn [Nat.add take app].
  by rewrite take_0, drop_replicate.
Qed.

(** The characters in front of the first NUL. *)
Fixpoint till_nul (b : list byte) : list byte :=
  match b with
  | [] => []
  | c :: b => if decide (c = x00) then [] else c :: till_nul b
  end.

Lemma till_nul_no_nul b : x00 ∉ till_nul b.
Proof.
  induction b as [|c b IH]; simpl; [apply not_elem_of_nil|]. case_decide; [apply not_elem_of_nil|].
  rewrite not_elem_of_cons. by split.
Qed.

(** An array that holds a NUL: the string and what follows it. *)
Lemma till_nul_split b : x00 ∈ b → ∃ rest, b = till_nul b ++ x00 :: rest.
Proof.
  induction b as [|c b IH]; [by intros ?%not_elem_of_nil|]. rewrite elem_of_cons. intros Hin. simpl.
  case_decide as Hc; [subst; by exists b|]. destruct Hin as [?|Hin]; [congruence|].
  destruct (IH Hin) as [rest E]. exists rest. simpl. by rewrite <- E.
Qed.

Lemma till_nul_id b : x00 ∉ b → till_nul b = b.
Proof.
  induction b as [|c b IH]; [done|]. rewrite not_elem_of_cons. intros [Hc Hb]. simpl.
  rewrite decide_False by congruence. by rewrite IH.
Qed.

Lemma till_nul_app b rest : till_nul (b ++ x00 :: rest) = till_nul b.
Proof. induction b as [|c b IH]; simpl; [done|]. case_decide; [done|]. by rewrite IH. Qed.

Lemma cstr_nul b : x00 ∈ b → cstr b = Ok (till_nul b).
Proof.
  intros Hin. destruct (till_nul_split b Hin) as [rest E]. rewrite E at 1. apply cstr_app, till_nul_no_nul.
Qed.

Lemma strlen_nul b : x00 ∈ b → strlen b = Ok (length (till_nul b)).
Proof.
  intros Hin. destruct (till_nul_split b Hin) as [rest E]. rewrite E at 1. apply strlen_app, till_nul_no_nul.
Qed.

Lemma cstr_unterminated b : x00 ∉ b → cstr b = Err Undefined.
Proof.
  induction b as [|c b IH]; [done|]. rewrite not_elem_of_cons. intros [Hc Hb]. simpl.
  rewrite decide_False by congruence. by rewrite IH.
Qed.

Lemma take_till_nul b : take (length (till_nul b)) b = till_nul b.
Proof. induction b as [|c b IH]; [done|]. simpl. case_decide; [done|]. simpl. by rewrite IH. Qed.

Lemma length_till_nul b : length (till_nul b) ≤ length b.
Proof. induction b as [|c b IH]; simpl; [lia|]. case_decide; simpl; lia. Qed.

(** [strcat] behind the string [s] that an array holds. *)
Lemma strcat_spec buf s t rest :
  buf = s ++ x00 :: rest → x00 ∉ s → length s + length t < length buf →
  ∃ rest', strcat buf t = Ok (s ++ t ++ x00 :: rest') ∧ length (s ++ t ++ x00 :: rest') = length buf.
Proof.
  intros -> Hs Hl. unfold strcat, put_str. rewrite strlen_app by done. cbn [mbind res_bind].
  rewrite length_app, length_cons in Hl.
  rewrite wrn_ok by (rewrite !length_app, !length_cons; simpl; lia). rewrite take_app_length.
  exists (drop (length s + length (t ++ [x00])) (s ++ x00 :: rest)). split.
  - by rewrite <- app_assoc.
  - rewrite !length_app, !length_cons, length_drop, !length_app, !length_cons. simpl. lia.
Qed.

(** Lengths of arrays built from their parts. *)
Ltac lengths :=
  repeat first [rewrite length_app | rewrite length_cons | rewrite length_drop | rewrite length_replicate
    | rewrite length_insert | rewrite length_nil]; lia.

Lemma is_prefix_app p s : is_prefix p (p ++ s) = true.
Proof. induction p as [|c p IH]; [done|]. cbn [app is_prefix]. by rewrite bool_decide_true, IH. Qed.
Lemma contains_prefix p s : contains p (p ++ s) = true.
Proof. pose proof (is_prefix_app p s) as E. destruct (p ++ s); simpl; by rewrite E. Qed.

(** ** Numbers *)

Lemma bz_digit k : (0 ≤ k ≤ 9)%Z → bz (zb (48 + k)) = (48 + k)%Z.
Proof. intros. rewrite bz_zb. apply Z.mod_small. lia. Qed.
Lemma isdigit_digit k : (0 ≤ k ≤ 9)%Z → isdigit (zb (48 + k)) = true.
Proof. intros. unfold isdigit. rewrite bz_digit by done. apply andb_true_intro. lia. Qed.

Lemma isdigit_plain c : isdigit c = true → isspace c = false ∧ c ≠ x2d ∧ c ≠ x2b ∧ c ≠ x00 ∧ c ≠ x0a ∧ c ≠ x0d.
Proof. by destruct c. Qed.

Lemma digits_all fuel z acc : (0 ≤ z)%Z →
  ∃ l, digits fuel z acc = l ++ acc ∧ Forall (λ c, isdigit c = true) l ∧ length l ≤ fuel ∧ (fuel ≠ 0 → l ≠ []).
Proof.
  revert z acc; induction fuel as [|fuel IH]; intros z acc Hz; cbn [digits]; [by exists []|].
  pose proof (Z.mod_pos_bound z 10 ltac:(lia)). pose proof (isdigit_digit (z mod 10) ltac:(lia)) as Hd.
  destruct (z <? 10)%Z.
  - exists [zb (48 + z mod 10)]. split_and!; [done|by repeat constructor|simpl; lia|done].
  - destruct (IH (z / 10)%Z (zb (48 + z mod 10) :: acc)) as (l & -> & Hl & Hlen & _); [by apply Z.div_pos|].
    exists (l ++ [zb (48 + z mod 10)]). rewrite <- app_assoc, length_app. cbn [length].
    split_and!; [done|by apply Forall_app; split; [|constructor]|lia|by destruct l].
Qed.

Lemma atoi_digits_read fuel z rest : (0 ≤ z < 10 ^ Z.of_nat fuel)%Z → fuel ≠ 0 →
  atoi_digits (digits fuel z rest) 0 = atoi_digits rest z.
Proof.
  revert z rest; induction fuel as [|fuel IH]; intros z rest Hz Hf; [done|]. cbn [digits].
  pose proof (Z.mod_pos_bound z 10 ltac:(lia)). pose proof (Z.div_mod z 10 ltac:(lia)) as Hdm.
  destruct (z <? 10)%Z eqn:E.
  - apply Z.ltb_lt in E. rewrite Z.mod_small by lia. cbn [atoi_digits].
    rewrite isdigit_digit, bz_digit by lia. f_equal. lia.
  - apply Z.ltb_ge in E. rewrite Nat2Z.inj_succ, Z.pow_succ_r in Hz by lia.
    rewrite IH; [| |intros ->; simpl in Hz; lia].
    + cbn [atoi_digits]. rewrite isdigit_digit, bz_digit by lia. f_equal. lia.
    + split; [apply Z.div_pos; lia|]. apply Z.div_lt_upper_bound; lia.
Qed.

Lemma decimal_nat z : (0 ≤ z)%Z → decimal z = digits 20 z [].
Proof. intros. unfold decimal. by rewrite (proj2 (Z.ltb_ge _ _)). Qed.

Lemma decimal_digits z : (0 ≤ z)%Z →
  Forall (λ c, isdigit c = true) (decimal z) ∧ 0 < length (decimal z) ≤ 20.
Proof.
  intros Hz. rewrite decimal_nat by done. destruct (digits_all 20 z [] Hz) as (l & -> & Hl & Hlen & Hn).
  rewrite app_nil_r. split; [done|]. destruct l; [by destruct Hn|simpl in *; lia].
Qed.

(** Reading a number that was printed; what follows must not be a digit. *)
Lemma atoi_decimal z c rest : (0 ≤ z < 2 ^ 31)%Z → isdigit c = false → atoi (decimal z ++ c :: rest) = Ok z.
Proof.
  intros Hz Hc. rewrite decimal_nat by lia.
  destruct (digits_all 20 z [] ltac:(lia)) as (l & El & Hl & _ & Hn).
  assert (∀ fuel z acc more, digits fuel z acc ++ more = digits fuel z (acc ++ more)) as Happ.
  { induction fuel as [|fuel IH]; intros z' acc more; [done|]. cbn [digits]. destruct (z' <? 10)%Z; [done|]. apply IH. }
  pose proof (atoi_digits_read 20 z (c :: rest) ltac:(split; [lia|]; eapply Z.lt_le_trans; [apply Hz|by vm_compute]) ltac:(done)) as Hr.
  rewrite Happ. cbn [app]. pose proof (Happ 20 z [] (c :: rest)) as Eapp. rewrite El, app_nil_r in Eapp. cbn [app] in Eapp.
  destruct Hl as [|d l Hd Hl]; [by destruct Hn|]. rewrite <- Eapp in Hr |- *. cbn [app] in Hr |- *. unfold atoi.
  destruct (isdigit_plain d Hd) as (Hsp & Hm & Hp & _). cbn [atoi_space]. rewrite Hsp. cbn [mbind res_bind].
  rewrite decide_False, decide_False by done. rewrite Hr. cbn [atoi_digits]. rewrite Hc. cbn [mbind res_bind].
  apply c_int_ok. lia.
Qed.
