(* ===== verification/Client.v ===== *)
(** Programs over calls, as the samples are over those of the library ([cl]): interaction trees
    whose result may be an error of the program itself. [every_call] says what holds of
    all runs of such a program: which calls it makes, and what the calls and their results
    satisfy when it ends. *)

From S2P Require Export Machine.

(** ** The monad *)

(** Programs whose calls are the events [E]. *)
Definition prg (E : Type → Type) (A : Type) : Type := itree E (res A).

#[export] Instance prg_ret {E} : MRet (prg E) := λ A a, Ret (Ok a).
#[export] Instance prg_bind {E} : MBind (prg E) := λ A B f m,
  ITree.bind m (λ r, match r with Ok a => f a | Err e => Ret (Err e) end).

(** Clients of the library. *)
Abbreviation cl := (prg apiE).

Section programs.
Context {E : Type → Type}.

Definition call {A} (e : E A) : prg E A := ITree.bind (ITree.trigger e) (λ a, Ret (Ok a)).
(** A computation of the program itself. *)
Definition pure {A} (r : res A) : prg E A := Ret r.

(** [while]: the body gives the next state, or the result. *)
Definition cl_loop {A B} (body : A → prg E (A + B)) (a : A) : prg E B :=
  ITree.iter (λ a, ITree.bind (body a) (λ r,
    match r with
    | Ok (inl a) => Ret (inl a)
    | Ok (inr b) => Ret (inr (Ok b))
    | Err e => Ret (inr (Err e))
    end)) a.

(** The body of a coroutine. Nothing happens any more after an error or an exit: the program
    does not go on. *)
Definition coroutine (m : prg E unit) : itree E unit :=
  ITree.bind m (λ r, match r with Ok _ => Ret tt | Err _ => ITree.spin end).
End programs.

(** ** All runs *)

(** A call and its result. *)
Inductive event {E : Type → Type} : Type :=
  | ACall {A} (e : E A) (r : A).
Arguments event E : clear implicits.
Abbreviation acall := (event apiE).

Section runs.
Context {E : Type → Type}.
(** Which calls may be made after a sequence of calls, and what is assumed of their
    results. *)
Variables (allowed : list (event E) → ∀ A, E A → Prop) (answers : ∀ A, E A → A → Prop).

Fixpoint call_upto {A} (n : nat) (t : itree E A) (tr : list (event E)) (Q : list (event E) → A → Prop) : Prop :=
  match n with
  | O => True
  | S n =>
      match observe t with
      | RetF r => Q tr r
      | TauF t => call_upto n t tr Q
      | VisF e k => allowed tr _ e ∧ ∀ x, answers _ e x → call_upto n (k x) (tr ++ [ACall e x]) Q
      end
  end.

Definition every_tree {A} (t : itree E A) (tr : list (event E)) (Q : list (event E) → A → Prop) : Prop :=
  ∀ n, call_upto n t tr Q.

Lemma call_upto_conseq {A} n (t : itree E A) tr (Q Q' : list (event E) → A → Prop) :
  (∀ tr x, Q tr x → Q' tr x) → call_upto n t tr Q → call_upto n t tr Q'.
Proof.
  intros HQ. revert t tr; induction n as [|n IH]; intros t tr; [done|]. simpl.
  destruct (observe t) as [r|t'|X e k]; [apply HQ|apply IH|]. intros [He Hk]. split; [done|].
  intros x Hx. by apply IH, Hk.
Qed.

Lemma call_upto_down {A} n (t : itree E A) tr (Q : list (event E) → A → Prop) :
  call_upto (S n) t tr Q → call_upto n t tr Q.
Proof.
  revert t tr; induction n as [|n IH]; intros t tr; [done|].
  change (call_upto (S (S n)) t tr Q) with
    (match observe t with
     | RetF r => Q tr r
     | TauF t => call_upto (S n) t tr Q
     | VisF e k => allowed tr _ e ∧ ∀ x, answers _ e x → call_upto (S n) (k x) (tr ++ [ACall e x]) Q
     end).
  cbn [call_upto]. destruct (observe t) as [r|t'|X e k]; [done|apply IH|].
  intros [He Hk]. split; [done|]. intros x Hx. by apply IH, Hk.
Qed.

Lemma call_upto_bind {A B} n (t : itree E A) (k : A → itree E B) tr (Q : list (event E) → B → Prop) :
  call_upto n t tr (λ tr x, call_upto n (k x) tr Q) → call_upto n (ITree.bind t k) tr Q.
Proof.
  revert t tr; induction n as [|n IH]; intros t tr; [done|]. cbn [call_upto].
  rewrite (observe_bind_match t k : observe (ITree.bind t k) = _).
  assert (∀ t tr, call_upto n t tr (λ tr x, call_upto (S n) (k x) tr Q) →
    call_upto n (ITree.bind t k) tr Q) as Hstep.
  { intros t1 tr1 Ht1. apply IH. eapply call_upto_conseq; [|exact Ht1]. intros. by apply call_upto_down. }
  destruct (observe t) as [r|t'|X e h]; [done|apply Hstep|].
  intros [He Hk]. split; [done|]. intros x Hx. by apply Hstep, Hk.
Qed.

Lemma tree_ret {A} (x : A) tr (Q : list (event E) → A → Prop) : Q tr x → every_tree (Ret x) tr Q.
Proof. intros HQ [|n]; [done|]. exact HQ. Qed.

Lemma tree_bind {A B} (t : itree E A) (k : A → itree E B) tr (R : list (event E) → A → Prop)
    (Q : list (event E) → B → Prop) :
  every_tree t tr R → (∀ tr x, R tr x → every_tree (k x) tr Q) → every_tree (ITree.bind t k) tr Q.
Proof.
  intros Ht Hk n. apply call_upto_bind. eapply call_upto_conseq; [|apply Ht]. intros tr' x HR. by apply Hk.
Qed.

Lemma tree_iter {A B} (I : A → list (event E) → Prop) (body : A → itree E (A + B)) i tr
    (Q : list (event E) → B → Prop) :
  I i tr →
  (∀ i tr, I i tr →
    every_tree (body i) tr (λ tr r, match r with inl i => I i tr | inr x => Q tr x end)) →
  every_tree (ITree.iter body i) tr Q.
Proof.
  intros HI Hbody n. revert i tr HI; induction n as [|n IH]; intros i tr HI; [done|].
  assert (∀ t t' : itree E B, observe t = observe t' → call_upto (S n) t tr Q → call_upto (S n) t' tr Q)
    as Hobs by (intros t t' Eo; simpl; by rewrite Eo).
  apply (Hobs (ITree.bind (body i) (λ r,
    match r with inl i => Tau (ITree.iter body i) | inr x => Ret x end))); [done|].
  apply call_upto_bind. eapply call_upto_conseq; [|by apply Hbody]. intros tr' [i'|x] Hr; simpl; [|done].
  by apply IH.
Qed.

(** ** Programs that make no error *)

Definition no_error {A} (Q : list (event E) → A → Prop) (tr : list (event E)) (r : res A) : Prop :=
  match r with Ok a => Q tr a | Err _ => False end.

(** Every run of [m] after the calls [tr] makes no error, and ends with [Q] if it ends. *)
Definition every_call {A} (m : prg E A) (tr : list (event E)) (Q : list (event E) → A → Prop) : Prop :=
  every_tree m tr (no_error Q).

Lemma ec_ret {A} (x : A) tr (Q : list (event E) → A → Prop) : Q tr x → every_call (mret x) tr Q.
Proof. intros HQ. by apply tree_ret. Qed.

Lemma ec_pure {A} (r : res A) x tr (Q : list (event E) → A → Prop) :
  r = Ok x → Q tr x → every_call (pure r) tr Q.
Proof. intros -> HQ. by apply tree_ret. Qed.

Lemma ec_bind {A B} (m : prg E A) (k : A → prg E B) tr (R : list (event E) → A → Prop) (Q : list (event E) → B → Prop) :
  every_call m tr R → (∀ tr x, R tr x → every_call (k x) tr Q) → every_call (m ≫= k) tr Q.
Proof.
  intros Hm Hk. apply (tree_bind _ _ _ (no_error R)); [done|]. intros tr' [x|e]; [apply Hk|done].
Qed.

Lemma ec_conseq {A} (m : prg E A) tr (Q Q' : list (event E) → A → Prop) :
  every_call m tr Q → (∀ tr x, Q tr x → Q' tr x) → every_call m tr Q'.
Proof.
  intros Hm HQ n. eapply call_upto_conseq; [|apply Hm]. intros tr' [x|e]; [apply HQ|done].
Qed.

Lemma ec_call {A} (e : E A) tr (Q : list (event E) → A → Prop) :
  allowed tr A e → (∀ x, answers A e x → Q (tr ++ [ACall e x]) x) → every_call (call e) tr Q.
Proof.
  intros He HQ. apply (tree_bind _ _ _ (λ tr' x, tr' = tr ++ [ACall e x] ∧ answers A e x)).
  - intros [|n]; [done|]. split; [done|]. intros x Hx. by destruct n.
  - intros ? x [-> Hx]. by apply tree_ret, HQ.
Qed.

Lemma ec_bind_call {A B} (e : E A) (k : A → prg E B) tr (Q : list (event E) → B → Prop) :
  allowed tr A e → (∀ x, answers A e x → every_call (k x) (tr ++ [ACall e x]) Q) →
  every_call (call e ≫= k) tr Q.
Proof.
  intros He Hk. eapply (ec_bind _ _ _ (λ tr' x, tr' = tr ++ [ACall e x] ∧ answers A e x)).
  - by apply ec_call.
  - intros ? x [-> Hx]. by apply Hk.
Qed.

Lemma ec_bind_pure {A B} (r : res A) x (k : A → prg E B) tr (Q : list (event E) → B → Prop) :
  r = Ok x → every_call (k x) tr Q → every_call (pure r ≫= k) tr Q.
Proof.
  intros -> Hk. eapply (ec_bind _ _ _ (λ tr' y, tr = tr' ∧ y = x)); [by apply tree_ret|].
  by intros ? ? [<- ->].
Qed.

Lemma ec_loop {A B} (I : A → list (event E) → Prop) (body : A → prg E (A + B)) a tr (Q : list (event E) → B → Prop) :
  I a tr →
  (∀ a tr, I a tr →
    every_call (body a) tr (λ tr r, match r with inl a => I a tr | inr b => Q tr b end)) →
  every_call (cl_loop body a) tr Q.
Proof.
  intros HI Hbody. apply (tree_iter I); [done|]. intros i tr' Hi.
  eapply tree_bind; [by apply Hbody|]. intros tr'' [[x|y]|e]; simpl; intros HQ; [..|done]; by apply tree_ret.
Qed.
End runs.

(** A program that never errs and makes only allowed calls, as the body of a coroutine. *)
Lemma coroutine_runs_post {E : Type → Type} allowed answers (m : prg E unit) tr Q (Q' : list (event E) → unit → Prop) :
  every_call allowed answers m tr Q → (∀ tr, Q tr tt → Q' tr tt) →
  every_tree allowed answers (coroutine m) tr Q'.
Proof.
  intros Hm HQ. eapply tree_bind; [exact Hm|]. intros tr' [[]|e]; [|done]. intros Hr. by apply tree_ret, HQ.
Qed.
Lemma coroutine_runs {E : Type → Type} allowed answers (m : prg E unit) tr Q :
  every_call allowed answers m tr Q → every_tree allowed answers (coroutine m) tr (λ _ _, True).
Proof. intros Hm. by eapply coroutine_runs_post. Qed.

(** ** What is sent *)

Section sent.
Context `{OS}.
(** A send accepts at most what it is given. *)
Definition sends (A : Type) (e : apiE A) : A → Prop :=
  match e in apiE A return A → Prop with
  | api_send _ data _ => λ n, (-1 ≤ n ≤ Z.of_nat (length data))%Z
  | api_sys s =>
      match s in sysE A return A → Prop with
      | sys_send _ data _ => λ n, (-1 ≤ n ≤ Z.of_nat (length data))%Z
      | _ => λ _, True
      end
  | _ => λ _, True
  end.
(** The bytes the system has accepted. *)
Definition accept_step (out : list byte) (c : acall) : list byte :=
  match c with
  | ACall e r =>
      match e in apiE A return A → list byte with
      | api_send _ data _ => λ n, out ++ take (Z.to_nat n) data
      | api_sys s =>
          match s in sysE A return A → list byte with
          | sys_send _ data _ => λ n, out ++ take (Z.to_nat n) data
          | _ => λ _, out
          end
      | _ => λ _, out
      end r
  end.
Definition accepted (tr : list acall) : list byte := foldl accept_step [] tr.

Lemma accepted_snoc tr c : accepted (tr ++ [c]) = accept_step (accepted tr) c.
Proof. unfold accepted. by rewrite foldl_app. Qed.

(** A part of [buf] that begins where the accepted prefix ends, of which [n] bytes are taken. *)
Lemma prefix_grows (buf data : list byte) sent n k :
  data = take k (drop (Z.to_nat sent) buf) → (0 ≤ sent)%Z → (n ≤ Z.of_nat (length data))%Z →
  take (Z.to_nat sent) buf ++ take (Z.to_nat n) data = take (Z.to_nat (sent + Z.max 0 n)) buf.
Proof.
  intros -> Hs Hn. rewrite length_take in Hn. rewrite take_take, Nat.min_l by lia.
  rewrite take_take_drop. f_equal. lia.
Qed.
End sent.

(** ** A run in a given environment

    [env] answers the calls and keeps a state of its own. [ends t s a s']: the program [t]
    ends with [a], and leaves the environment that was in [s] in [s']. *)
Section env.
Context {E : Type → Type} {S : Type}.
Variable env : ∀ A, E A → S → A * S.

Fixpoint exec {A} (fuel : nat) (t : itree E A) (s : S) : option (A * S) :=
  match fuel with
  | O => None
  | Datatypes.S fuel =>
      match observe t with
      | RetF a => Some (a, s)
      | TauF t => exec fuel t s
      | VisF e k => let '(x, s) := env _ e s in exec fuel (k x) s
      end
  end.

Definition ends {A} (t : itree E A) (s : S) (a : A) (s' : S) : Prop :=
  ∃ fuel, exec fuel t s = Some (a, s').

Lemma exec_more {A} fuel fuel' (t : itree E A) s r :
  exec fuel t s = Some r → fuel ≤ fuel' → exec fuel' t s = Some r.
Proof.
  revert fuel' t s; induction fuel as [|fuel IH]; intros [|fuel'] t s; try done; [lia|]. simpl.
  intros Hex Hle. assert (fuel ≤ fuel') by lia. destruct (observe t) as [a|t'|X e k]; [done|by apply IH|].
  destruct (env X e s). by apply IH.
Qed.

Lemma exec_obs {A} fuel (t t' : itree E A) s : observe t = observe t' → exec fuel t s = exec fuel t' s.
Proof. intros Eo. destruct fuel as [|fuel]; simpl; [done|]. by rewrite Eo. Qed.

Lemma exec_bind {A B} f1 f2 (t : itree E A) (k : A → itree E B) s a s1 r :
  exec f1 t s = Some (a, s1) → exec f2 (k a) s1 = Some r → exec (f1 + f2) (ITree.bind t k) s = Some r.
Proof.
  revert t s; induction f1 as [|f1 IH]; intros t s; [done|]. cbn [exec Nat.add].
  rewrite (observe_bind_match t k : observe (ITree.bind t k) = _).
  destruct (observe t) as [x|t'|X e h]; intros H1 H2.
  - simplify_eq. apply (exec_more _ (Datatypes.S (f1 + f2)) _ _ _ H2). lia.
  - by apply IH.
  - destruct (env X e s) as [x s2]. by apply IH.
Qed.

Lemma ends_ret {A} (a : A) s : ends (Ret a) s a s.
Proof. by exists 1. Qed.

Lemma ends_bind {A B} (t : itree E A) (k : A → itree E B) s a s1 b s2 :
  ends t s a s1 → ends (k a) s1 b s2 → ends (ITree.bind t k) s b s2.
Proof. intros [f1 H1] [f2 H2]. exists (f1 + f2). by eapply exec_bind. Qed.

Lemma ends_iter {A B} (body : A → itree E (A + B)) i s r s1 b s2 :
  ends (body i) s r s1 →
  (match r with inl j => ends (ITree.iter body j) s1 b s2 | inr b' => b' = b ∧ s1 = s2 end) →
  ends (ITree.iter body i) s b s2.
Proof.
  intros Hb Hr.
  assert (ends (ITree.bind (body i) (λ r,
    match r with inl i => Tau (ITree.iter body i) | inr x => Ret x end)) s b s2) as [fuel Hf].
  { eapply ends_bind; [exact Hb|]. destruct r as [j|b']; [|destruct Hr as [-> ->]; apply ends_ret].
    destruct Hr as [fuel Hf]. by exists (Datatypes.S fuel). }
  exists fuel. rewrite <- Hf. by apply exec_obs.
Qed.

(** *** Programs with errors *)

(** [m] makes no error and ends with [a]. *)
Definition yields {A} (m : prg E A) (s : S) (a : A) (s' : S) : Prop := ends m s (Ok a) s'.

Lemma yields_ret {A} (a : A) s : yields (mret a) s a s.
Proof. apply ends_ret. Qed.

Lemma yields_pure {A} (r : res A) a s : r = Ok a → yields (pure r) s a s.
Proof. intros ->. apply ends_ret. Qed.

Lemma yields_bind {A B} (m : prg E A) (k : A → prg E B) s a s1 b s2 :
  yields m s a s1 → yields (k a) s1 b s2 → yields (m ≫= k) s b s2.
Proof. intros Hm Hk. eapply ends_bind; [exact Hm|]. exact Hk. Qed.

(** The same with any outcome of the rest. *)
Lemma after_yields {A B} (m : prg E A) (k : A → prg E B) s a s1 r s2 :
  yields m s a s1 → ends (k a) s1 r s2 → ends (m ≫= k) s r s2.
Proof. intros Hm Hk. eapply ends_bind; [exact Hm|]. exact Hk. Qed.

Lemma after_error {A B} (m : prg E A) (k : A → prg E B) s e s1 :
  ends m s (Err e) s1 → ends (m ≫= k) s (Err e) s1.
Proof. intros Hm. eapply ends_bind; [exact Hm|]. apply ends_ret. Qed.

Lemma yields_call {A} (e : E A) s a s' : env A e s = (a, s') → yields (call e) s a s'.
Proof. intros He. exists 2. simpl. by rewrite He. Qed.

Lemma yields_loop {A B} (body : A → prg E (A + B)) i s r s1 b s2 :
  yields (body i) s r s1 →
  (match r with inl j => yields (cl_loop body j) s1 b s2 | inr b' => b' = b ∧ s1 = s2 end) →
  yields (cl_loop body i) s b s2.
Proof.
  intros Hb Hr. eapply (ends_iter _ _ _ (match r with inl j => inl j | inr b' => inr (Ok b') end)).
  - eapply ends_bind; [exact Hb|]. destruct r as [j|b']; apply ends_ret.
  - destruct r as [j|b']; [exact Hr|]. destruct Hr as [-> ->]. done.
Qed.

Lemma coroutine_ends (m : prg E unit) s s' : yields m s tt s' → ends (coroutine m) s tt s'.
Proof. intros Hm. eapply ends_bind; [exact Hm|]. apply ends_ret. Qed.
End env.

(** The goal is a call or a computation followed by the rest of the program. *)
Ltac yields_step := eapply yields_bind; [first [by apply yields_call | by eapply yields_pure | idtac]|].

(** What an environment answers to calls it does not know: failure. *)
Definition no_sys {A} (s : sysE A) : A :=
  match s with
  | sys_gettimeofday => (0, 0)
  | sys_calloc _ => NULL
  | sys_epoll_wait _ _ _ => (-1, [])
  | sys_accept _ => (-1, [])
  | sys_read _ _ => (-1, [])
  | sys_recv _ _ _ => (-1, [])
  | sys_recvfrom _ _ _ => (-1, [], [])
  | sys_getsockname _ => (-1, [])
  | sys_stat _ => (-1, 0)
  | sys_fopen _ => None
  | sys_gethostbyname _ => None
  | sys_pipe => (-1, 0, 0)
  | sys_posix_memalign => -1
  | sys_getpagesize => -1
  | sys_epoll_create _ => -1
  | sys_epoll_ctl _ _ _ _ => -1
  | sys_eventfd _ _ => -1
  | sys_poll _ _ => -1
  | sys_socket _ _ _ => -1
  | sys_fcntl_nonblock _ => -1
  | sys_setsockopt_reuse _ => -1
  | sys_connect _ _ => -1
  | sys_write _ _ => -1
  | sys_send _ _ _ => -1
  | sys_sendto _ _ _ _ => -1
  | sys_close _ => -1
  | sys_bind _ _ => -1
  | sys_listen _ _ => -1
  | sys_fcntl _ _ _ => -1
  | sys_shm _ => -1
  | sys_sleep _ => 0
  | sys_fork => -1
  | sys_dup2 _ _ => -1
  | sys_putenv _ => -1
  | sys_execl _ => -1
  | sys_waitpid _ => -1
  | sys_sigaction _ => -1
  | sys_alarm _ => 0
  end%Z.
Definition no_answer `{OS} {A} (e : apiE A) : A :=
  match e with
  | api_socket _ _ _ => -1
  | api_accept _ => (-1, [])
  | api_connect _ _ => -1
  | api_recv _ _ _ => (-1, [])
  | api_send _ _ _ => -1
  | api_sendto _ _ _ _ => -1
  | api_recvfrom _ _ _ => (-1, [], [])
  | api_close _ => -1
  | api_hook_socket _ _ _ => -1
  | api_hook_read _ _ => (-1, [])
  | api_hook_recv _ _ _ => (-1, [])
  | api_hook_recvfrom _ _ _ => (-1, [], [])
  | api_hook_write _ _ => -1
  | api_hook_send _ _ _ => -1
  | api_hook_sendto _ _ _ _ => -1
  | api_hook_accept _ => (-1, [])
  | api_hook_connect _ _ => -1
  | api_create _ _ => (-1, NULL)
  | api_sleep _ => tt
  | api_renice => tt
  | api_detach => tt
  | api_usec_now => 0
  | api_errno => 0
  | api_bind _ _ => -1
  | api_listen _ _ => -1
  | api_getsockname _ => (-1, [])
  | api_setsockopt_reuse _ => -1
  | api_fcntl _ _ _ => -1
  | api_stat _ => (-1, 0)
  | api_fopen _ => None
  | api_shm _ => 0
  | api_sys s => no_sys s
  end%Z.

(** ** A peer *)

(** A client that sends chunks, each received at once, and takes everything it is sent. *)
Record conn : Type := Conn {
  incoming : list (list byte);
  outgoing : list (list byte);
  closed : bool;
}.

Definition receive (s : conn) : Z * list byte * conn :=
  match incoming s with
  | [] => (0%Z, [], s)
  | c :: l => (Z.of_nat (length c), c, Conn l (outgoing s) (closed s))
  end.
Definition take_in (data : list byte) (s : conn) : Z * conn :=
  (Z.of_nat (length data), Conn (incoming s) (outgoing s ++ [data]) (closed s)).

Definition chunks `{OS} (A : Type) (e : apiE A) : conn → A * conn :=
  match e in apiE A return conn → A * conn with
  | api_recv _ _ _ => receive
  | api_hook_read _ _ => receive
  | api_hook_recv _ _ _ => receive
  | api_send _ data _ => take_in data
  | api_hook_write _ data => take_in data
  | api_hook_send _ data _ => take_in data
  | api_close _ => λ s, (0%Z, Conn (incoming s) (outgoing s) true)
  | e => λ s, (no_answer e, s)
  end.
