(* ===== verification/Sane.v ===== *)
(** The invariant of the scheduler while its coroutines only use the calls of the library
    and never ask for a timed sleep, and its preservation by the operations of the
    running coroutine. *)

From S2P Require Export ScheduleSpec Hoare Machine.

(** ** Containers determine their elements *)

Section unique.
Context {T : Type} `{TreeLaws T}.

Lemma tree_rep_inj l : ∀ t D l' D', tree_rep t D l → tree_rep t D' l' → l = l'.
Proof.
  induction l as [|x l IH]; intros t D l' D' Hl Hl';
    pose proof (tree_min_spec t D _ Hl) as H1; pose proof (tree_min_spec t D' _ Hl') as H2;
    apply wp_ok in H1 as (r & t1 & E1 & -> & ->); apply wp_ok in H2 as (r & t2 & E2 & -> & ->);
    rewrite E1 in E2; injection E2 as E2; destruct l' as [|x' l']; try done; simpl in E2.
  injection E2 as <-.
  pose proof (tree_remove_spec t D _ x Hl ltac:(set_solver)) as H1.
  pose proof (tree_remove_spec t D' _ x Hl' ltac:(set_solver)) as H2.
  apply wp_ok in H1 as (r1 & t1 & R1 & _ & k1 & k2 & L1 & Hr1).
  apply wp_ok in H2 as (r2 & t2 & R2 & _ & k1' & k2' & L2 & Hr2).
  rewrite R1 in R2. injection R2 as <- <-.
  apply (NoDup_split_unique [] l k1 k2 x) in L1 as [<- <-]; [|by eapply tree_rep_NoDup].
  apply (NoDup_split_unique [] l' k1' k2' x) in L2 as [<- <-]; [|by eapply tree_rep_NoDup].
  f_equal. by eapply IH.
Qed.
End unique.

Section unique_queue.
Context {T : Type} `{QueueLaws T}.

Lemma queue_rep_inj l : ∀ t D l' D', queue_rep t D l → queue_rep t D' l' → l = l'.
Proof.
  induction l as [|x l IH]; intros t D l' D' Hl Hl';
    pose proof (queue_first_spec t D _ Hl) as H1; pose proof (queue_first_spec t D' _ Hl') as H2;
    apply wp_ok in H1 as (r & t1 & E1 & -> & ->); apply wp_ok in H2 as (r & t2 & E2 & -> & ->);
    rewrite E1 in E2; injection E2 as E2; destruct l' as [|x' l']; try done; simpl in E2.
  injection E2 as <-.
  pose proof (queue_remove_spec t D [] x l Hl) as H1.
  pose proof (queue_remove_spec t D' [] x l' Hl') as H2.
  apply wp_ok in H1 as (r1 & t1 & R1 & Hr1). apply wp_ok in H2 as (r2 & t2 & R2 & Hr2).
  rewrite R1 in R2. injection R2 as <- <-. f_equal. by eapply IH.
Qed.
End unique_queue.

(** ** The ghost state *)

(** The suspended coroutines, each with the descriptor it waits for if any; the queue as
    it was at the last switch, which is only appended to; the events left to process. *)
Record ghost : Type := Ghost {
  g_ctx : gmap addr (option Z);
  g_ready : list addr;
  g_num : Z;
  g_evs : list epoll_event;
}.

Definition g_park (a : addr) (v : option Z) (g : ghost) : ghost :=
  Ghost (<[a := v]> (g_ctx g)) (g_ready g) (g_num g) (g_evs g).

(** A coroutine that was never run, and one that may be run. *)
Definition is_new (c : nty_coroutine) : Prop := co_status c = BIT NTY_COROUTINE_STATUS_NEW.
Definition clean (c : nty_coroutine) : Prop :=
  has_bit (co_status c) NTY_COROUTINE_STATUS_NEW = false ∧
  has_bit (co_status c) NTY_COROUTINE_STATUS_FDEOF = false ∧
  has_bit (co_status c) NTY_COROUTINE_STATUS_EXITED = false.

Section sane.
Context `{OSLaws} {T Qt : Type} `{TreeLaws T} `{QueueLaws Qt}.
Implicit Types m : mem T Qt.

Definition wait_fds m (lw : list addr) : gset Z := list_to_set (wait_key (m_cos m) <$> lw).

Record sane (cur : ptr) (g : ghost) D lw lr new (s : nty_schedule) m : Prop := {
  sn_wf : wf D [] lw lr m;
  sn_sched : m_sched m = Some s;
  sn_curr : sched_curr_thread s = cur;
  sn_timeout : sched_default_timeout s = 3000000%Z;
  sn_num : sched_num_new_events s = g_num g;
  sn_evs : sched_eventlist s = g_evs g;
  sn_new : lr = g_ready g ++ new;
  sn_wake : wakeable (m_kernel m) ⊆ wait_fds m lw;
  sn_ready : ∀ x, x ∈ lr → ∃ c, m_cos m !! x = Some c ∧
    (is_new c ∧ g_ctx g !! x = None ∨ g_ctx g !! x = Some None ∧ clean c);
  sn_wait : ∀ x, x ∈ lw → g_ctx g !! x = Some (Some (wait_key (m_cos m) x));
  sn_ready_ctx : ∀ x, g_ctx g !! x = Some None → x ∈ lr;
  sn_wait_ctx : ∀ x fd, g_ctx g !! x = Some (Some fd) → x ∈ lw ∧ wait_key (m_cos m) x = fd;
  sn_all : ∀ x, x ∈ D → cur = Some x ∨ x ∈ lr ∨ x ∈ lw;
}.

(** The coroutine [a] runs, and is in no container. *)
Definition Run (a : addr) (g : ghost) m : Prop :=
  ∃ D lw lr new s c, sane (Some a) g D lw lr new s m ∧ (a ∉ lr) ∧ g_ctx g !! a = None ∧
    m_cos m !! a = Some c ∧ clean c.

(** It runs but is registered in the wait tree, or in the ready queue. *)
Definition Parked (a : addr) (v : option Z) (g : ghost) m : Prop :=
  ∃ D lw lr new s c, sane (Some a) (g_park a v g) D lw lr new s m ∧ g_ctx g !! a = None ∧
    m_cos m !! a = Some c.

(** It is marked as finished. *)
Definition Exited (a : addr) (g : ghost) m : Prop :=
  ∃ D lw lr new s c, sane (Some a) g D lw lr new s m ∧ (a ∉ lr) ∧ g_ctx g !! a = None ∧
    m_cos m !! a = Some c ∧
    has_bit (co_status c) NTY_COROUTINE_STATUS_EXITED = true ∧
    has_bit (co_status c) NTY_COROUTINE_STATUS_DETACH = true.

Definition not_exited (a : addr) m : Prop :=
  ∀ c, m_cos m !! a = Some c → has_bit (co_status c) NTY_COROUTINE_STATUS_EXITED = false.

(** When the coroutine [a] may be switched out, and how it is resumed: from the ready
    queue it runs free, from the wait tree it is still registered. *)
Definition switch (a : addr) (K : ghost → mem T Qt → Prop) (g : ghost) m : Prop :=
  (Parked a None g m ∧ not_exited a m ∧ ∀ g' m', Run a g' m' → K g' m') ∨
  (∃ fd, Parked a (Some fd) g m ∧ not_exited a m ∧ ∀ g' m', Parked a (Some fd) g' m' → K g' m') ∨
  Exited a g m.

Lemma switch_mono a (K K' : ghost → mem T Qt → Prop) g m :
  (∀ g m, K g m → K' g m) → switch a K g m → switch a K' g m.
Proof.
  intros HK [(? & ? & ?)|[(fd & ? & ? & ?)|?]]; [left|right; left; exists fd|by right; right];
    eauto.
Qed.

(** ** Preservation *)

Lemma sane_sys cur g D lw lr new s m e k :
  sane cur g D lw lr new s m → wakeable k ⊆ wakeable (m_kernel m) →
  sane cur g D lw lr new s (sys_result e k m).
Proof.
  intros [] Hk.
  assert (m_cos (sys_result e k m) = m_cos m ∧ m_sched (sys_result e k m) = m_sched m ∧
    m_kernel (sys_result e k m) = k) as (Ec & Es & Ek) by (by destruct e).
  constructor; unfold wait_fds in *; rewrite ?Ec, ?Es, ?Ek; try done.
  - by apply wf_sys_result.
  - set_solver.
Qed.

Lemma sane_errno cur g D lw lr new s m e :
  sane cur g D lw lr new s m → sane cur g D lw lr new s (with_errno e m).
Proof. intros []. constructor; try done. by apply wf_with_errno. Qed.

(** Changing a coroutine that is in no container. *)
Lemma sane_update cur g D lw lr new s m a c c' :
  sane cur g D lw lr new s m → m_cos m !! a = Some c → a ∉ lw → a ∉ lr →
  sane cur g D lw lr new s (with_cos (insert a c') m).
Proof.
  intros [] Ha Hw Hr.
  assert (∀ x, x ∈ lw → wait_key (<[a:=c']> (m_cos m)) x = wait_key (m_cos m) x) as Hk.
  { intros x Hx. unfold wait_key. rewrite lookup_insert_ne; [done|by intros ->]. }
  assert (wait_fds (with_cos (insert a c') m) lw = wait_fds m lw) as Hf.
  { unfold wait_fds. simpl. f_equal. apply list_fmap_ext.
    intros i x Hx. apply Hk. by eapply list_elem_of_lookup_2. }
  constructor; rewrite ?Hf; try done; simpl.
  - eapply wf_update; [done|done|set_solver|done].
  - intros x Hx. rewrite lookup_insert_ne; [auto|by intros ->].
  - intros x Hx. rewrite Hk by done. auto.
  - intros x fd Hx. destruct (sn_wait_ctx0 x fd Hx) as [Hin Hkx]. by rewrite Hk.
Qed.

Lemma sane_not_waiting cur g D lw lr new s m a :
  sane cur g D lw lr new s m → g_ctx g !! a = None → a ∉ lw.
Proof. intros [] Ha Hin. apply sn_wait0 in Hin. congruence. Qed.

(** Replacing the scheduler record, its fields the invariant mentions aside. *)
Lemma sane_sched cur g D lw lr new s s' m :
  sane cur g D lw lr new s m → sched_curr_thread s' = sched_curr_thread s →
  sched_default_timeout s' = sched_default_timeout s →
  sched_num_new_events s' = sched_num_new_events s → sched_eventlist s' = sched_eventlist s →
  sane cur g D lw lr new s' (with_sched (Some s') m).
Proof. intros [] E1 E2 E3 E4. constructor; rewrite ?E1, ?E2, ?E3, ?E4; try done. by apply wf_with_sched. Qed.

Lemma Run_sys a g m e k :
  Run a g m → wakeable k ⊆ wakeable (m_kernel m) → Run a g (sys_result e k m).
Proof.
  intros (D & lw & lr & new & s & c & Hs & Hr & Hg & Ha & Hc) Hk.
  exists D, lw, lr, new, s, c. split_and!; try done; [by apply sane_sys|by destruct e].
Qed.

(** Every system call but [epoll_ctl] keeps the invariant. *)
Lemma Run_syscall {A} (sc : sysE A) a g m :
  Run a g m → match sc with sys_epoll_ctl _ _ _ _ => False | _ => True end →
  wp (syscall sc) (λ _ m', Run a g m') m.
Proof.
  intros HR Hsc. apply wp_syscall. intros r e k Hk. apply Run_sys; [done|].
  pose proof (other_wakeable sc _ _ _ _ Hk). by destruct sc.
Qed.

Lemma Run_update a g m f :
  Run a g m → (∀ c, clean c → clean (f c)) → wp (co_update (Some a) f) (λ _ m', Run a g m') m.
Proof.
  intros (D & lw & lr & new & s & c & Hs & Hr & Hg & Ha & Hc) Hf.
  eapply wp_co_update; [done|]. exists D, lw, lr, new, s, (f c).
  split_and!; [|done|done|apply lookup_insert_eq|by apply Hf].
  eapply sane_update; [done|done| |done]. by eapply sane_not_waiting.
Qed.

Lemma Run_curr a g m :
  Run a g m → wp (s ← nty_coroutine_get_sched; mret (sched_curr_thread s))
    (λ p m', p = Some a ∧ Run a g m') m.
Proof.
  intros HR. pose proof HR as (D & lw & lr & new & s & c & Hs & _).
  eapply wp_bind, wp_get_sched; [by apply sn_sched in Hs|]. apply wp_ret.
  split; [by apply sn_curr in Hs|done].
Qed.

(** ** Waiting for a descriptor *)

Lemma wait_key_insert (cos : gmap addr nty_coroutine) a c x :
  wait_key (<[a := c]> cos) x = if decide (a = x) then co_fd c else wait_key cos x.
Proof.
  unfold wait_key. destruct (decide (a = x)) as [->|].
  - by rewrite lookup_insert_eq.
  - by rewrite lookup_insert_ne.
Qed.

Lemma elem_of_wait_fds m lw fd :
  fd ∈ wait_fds m lw ↔ ∃ x, x ∈ lw ∧ wait_key (m_cos m) x = fd.
Proof.
  unfold wait_fds. rewrite elem_of_list_to_set, list_elem_of_fmap. naive_solver.
Qed.

(** The coroutine [a] enters the wait tree under [fd]. *)
Lemma sane_park cur g D l1 l2 lr new s m a c c' t :
  sane cur g D (l1 ++ l2) lr new s m → m_cos m !! a = Some c → a ∉ lr → g_ctx g !! a = None →
  wf D [] (l1 ++ a :: l2) lr (with_waiting t (with_cos (insert a c') m)) →
  ∀ k, wakeable k ⊆ {[co_fd c']} ∪ wakeable (m_kernel m) →
  sane cur (g_park a (Some (co_fd c')) g) D (l1 ++ a :: l2) lr new s
    (with_kernel k (with_waiting t (with_cos (insert a c') m))).
Proof.
  intros Hs Ha Hr Hg Hwf k Hk. pose proof (sane_not_waiting _ _ _ _ _ _ _ _ _ Hs Hg) as Hw.
  destruct Hs. constructor; simpl; try done.
  - eapply wf_same; [..|exact Hwf]; done.
  - intros fd Hfd. specialize (Hk fd Hfd). rewrite elem_of_wait_fds. simpl.
    apply elem_of_union in Hk as [->%elem_of_singleton|Hk].
    + exists a. rewrite wait_key_insert, decide_True by done. set_solver.
    + specialize (sn_wake0 fd Hk). apply elem_of_wait_fds in sn_wake0 as (x & Hx & <-).
      exists x. rewrite wait_key_insert, decide_False by (intros ->; done). set_solver.
  - intros x Hx. assert (a ≠ x) by (by intros ->). rewrite !lookup_insert_ne by done. auto.
  - intros x Hx. rewrite wait_key_insert. destruct (decide (a = x)) as [->|Hne].
    + by rewrite lookup_insert_eq.
    + rewrite lookup_insert_ne by done. apply sn_wait0. set_solver.
  - intros x Hx. destruct (decide (a = x)) as [->|Hne].
    + by rewrite lookup_insert_eq in Hx.
    + rewrite lookup_insert_ne in Hx by done. auto.
  - intros x fd Hx. rewrite wait_key_insert. destruct (decide (a = x)) as [->|Hne].
    + rewrite lookup_insert_eq in Hx. injection Hx as <-. set_solver.
    + rewrite lookup_insert_ne in Hx by done. destruct (sn_wait_ctx0 x fd Hx). set_solver.
  - intros x Hx. destruct (sn_all0 x Hx) as [?|[?|Hx']]; [auto..|]. right; right.
    clear -Hx'. set_solver.
Qed.

(** The bits of [status] the wait does not touch. *)
Lemma waiting_for_exited fd ev c :
  has_bit (co_status (waiting_for fd ev c)) NTY_COROUTINE_STATUS_EXITED =
  has_bit (co_status c) NTY_COROUTINE_STATUS_EXITED.
Proof.
  unfold waiting_for, has_bit, BIT. simpl. f_equal.
  rewrite Z.land_lor_distr_l. by destruct (negb _); rewrite Z.lor_0_r.
Qed.

Lemma Run_register a g m pfd :
  Run a g m →
  wpe tolerated (poll_register (Some a) 1 pfd)
    (λ _ m', Parked a (Some (pfd_fd pfd)) g m' ∧ not_exited a m') m.
Proof.
  intros (D & lw & lr & new & s & c & Hs & Hr & Hg & Ha & Hc). unfold poll_register.
  eapply wpe_wp_bind, wp_get_sched; [by apply sn_sched in Hs|].
  apply wpe_wp_bind, wp_syscall. intros r e k Hk.
  apply epoll_add_wakeable in Hk; [|done].
  set (fd := pfd_fd pfd) in *. set (ev := u16 (pfd_events pfd)).
  set (m1 := match e with Some e => with_errno e m | None => m end).
  assert (sane (Some a) g D lw lr new s m1 ∧ m_cos m1 !! a = Some c ∧ m_kernel m1 = m_kernel m) as
    (Hs1 & Ha1 & Ek) by (unfold m1; destruct e; split_and!; try done; by apply sane_errno).
  change (sys_result e k m) with (with_kernel k m1). clearbody m1.
  eapply wpe_wp_bind, wp_co_update; [exact Ha1|].
  set (c2 := set_co_events ev c).
  pose proof (sane_not_waiting _ _ _ _ _ _ _ _ _ Hs Hg) as Hw.
  pose proof (sane_update _ _ _ _ _ _ _ _ a c c2 Hs1 Ha1 Hw Hr) as Hs2.
  set (m2 := with_cos (insert a c2) m1) in *.
  change (with_cos _ (with_kernel k m1)) with (with_kernel k m2).
  assert (wf D [] lw lr (with_kernel k m2)) as Hwf2.
  { eapply wf_same; [..|by eapply sn_wf]; done. }
  change (u64 1) with 1%Z.
  destruct (decide (may_wait (m_cos m2) lw fd ev c2)) as [Hmay|Hmay].
  2: { unfold wpe. erewrite sched_wait_abort; [by right|exact Hwf2|by eapply sn_sched in Hs2
       |apply lookup_insert_eq|done|done]. }
  apply wpe_of_wp. eapply wp_mono.
  { eapply sched_wait_spec; [exact Hwf2|by eapply sn_sched in Hs2|apply lookup_insert_eq|done|done]. }
  cbv beta. intros _ m3 (l1 & l2 & t & -> & Hwf3 & ->). simpl in Hwf3. split.
  - exists D, (l1 ++ a :: l2), lr, new, s, (waiting_for fd ev c2). split_and!; [|done|].
    + apply (sane_park (Some a) g D l1 l2 lr new s m2 a c2 (waiting_for fd ev c2) t); try done.
      * apply lookup_insert_eq.
      * eapply wf_same; [..|exact Hwf3]; done.
      * assert (m_kernel m2 = m_kernel m) as -> by exact Ek. exact Hk.
    + apply lookup_insert_eq.
  - intros c3. simpl. rewrite lookup_insert_eq. intros [= <-].
    rewrite waiting_for_exited. apply Hc.
Qed.

(** The coroutine [a] leaves the wait tree. *)
Lemma sane_unpark cur g D l1 l2 lr new s m a c c' fd t k :
  sane cur (g_park a (Some fd) g) D (l1 ++ a :: l2) lr new s m → cur = Some a →
  m_cos m !! a = Some c → g_ctx g !! a = None →
  wf D [] (l1 ++ l2) lr (with_waiting t (with_cos (insert a c') m)) →
  wakeable k ⊆ wakeable (m_kernel m) ∖ {[fd]} →
  sane cur g D (l1 ++ l2) lr new s (with_kernel k (with_waiting t (with_cos (insert a c') m))).
Proof.
  intros Hs Hcur Ha Hg Hwf Hk. destruct Hs. simpl in *.
  assert (NoDup (l1 ++ a :: l2)) as Hnd by (eapply tree_rep_NoDup; by eapply wf_waiting).
  assert (∀ x, x ∈ l1 ++ l2 → a ≠ x) as Hne.
  { intros x Hx ->. nodup_facts. rewrite elem_of_app in Hx. tauto. }
  assert (∀ x, x ∈ l1 ++ a :: l2 → a ≠ x → x ∈ l1 ++ l2) as Hin by set_solver.
  assert (a ∉ lr) as Hr.
  { intros Har. destruct (sn_ready0 a Har) as (c0 & _ & [[_ E]|[E _]]);
      rewrite lookup_insert_eq in E; congruence. }
  constructor; simpl; try done.
  - eapply wf_same; [..|exact Hwf]; done.
  - intros fd' Hfd. specialize (Hk fd' Hfd). rewrite elem_of_wait_fds. simpl.
    assert (fd' ∈ wait_fds m (l1 ++ a :: l2) ∧ fd' ≠ fd) as [Hfd' Hne'] by set_solver.
    apply elem_of_wait_fds in Hfd' as (x & Hx & <-).
    assert (a ≠ x) as Hax.
    { intros ->. specialize (sn_wait0 x Hx). rewrite lookup_insert_eq in sn_wait0. congruence. }
    exists x. rewrite wait_key_insert, decide_False by done. auto.
  - intros x Hx. assert (a ≠ x) as Hax by (by intros ->). rewrite lookup_insert_ne by done.
    destruct (sn_ready0 x Hx) as (c0 & E & Hc0). exists c0. split; [done|].
    by rewrite lookup_insert_ne in Hc0.
  - intros x Hx. specialize (Hne x Hx). rewrite wait_key_insert, decide_False by done.
    specialize (sn_wait0 x ltac:(set_solver)). by rewrite lookup_insert_ne in sn_wait0.
  - intros x Hx. apply sn_ready_ctx0. rewrite lookup_insert_ne; [done|]. intros ->. congruence.
  - intros x fd' Hx. assert (a ≠ x) as Hax by (intros ->; congruence).
    rewrite wait_key_insert, decide_False by done.
    destruct (sn_wait_ctx0 x fd') as [Hx' Hk']; [by rewrite lookup_insert_ne|]. auto.
  - intros x Hx. destruct (decide (a = x)) as [->|Hax]; [by left|].
    destruct (sn_all0 x Hx) as [?|[?|?]]; auto.
Qed.

Lemma Parked_unregister a g m pfd :
  Parked a (Some (pfd_fd pfd)) g m → wp (poll_unregister pfd) (λ _ m', Run a g m') m.
Proof.
  intros (D & lw & lr & new & s & c & Hs & Hg & Ha). unfold poll_unregister.
  eapply wp_bind, wp_get_sched; [by apply sn_sched in Hs|].
  apply wp_bind, wp_syscall. intros r e k Hk. apply epoll_del_wakeable in Hk.
  set (fd := pfd_fd pfd) in *.
  set (m1 := match e with Some e => with_errno e m | None => m end).
  assert (sane (Some a) (g_park a (Some fd) g) D lw lr new s m1 ∧ m_cos m1 !! a = Some c ∧
    m_kernel m1 = m_kernel m) as (Hs1 & Ha1 & Ek)
    by (unfold m1; destruct e; split_and!; try done; by apply sane_errno).
  change (sys_result e k m) with (with_kernel k m1). clearbody m1.
  destruct (sn_wait_ctx _ _ _ _ _ _ _ _ Hs1 a fd) as [Hin Hfd]; [apply lookup_insert_eq|].
  unfold wait_key in Hfd. rewrite Ha1 in Hfd. simpl in Hfd. rewrite <- Hfd.
  apply wp_bind. eapply wp_mono.
  { eapply (desched_wait_spec D [] lw lr s a c (with_kernel k m1)); [|by apply sn_sched in Hs1|done..].
    eapply wf_same; [..|by eapply sn_wf]; done. }
  cbv beta. intros _ m2 (_ & l1 & l2 & t & -> & Hwf2 & ->). apply wp_ret.
  exists D, (l1 ++ l2), lr, new, s, (set_co_status 0 c). split_and!.
  - apply (sane_unpark (Some a) g D l1 l2 lr new s m1 a c (set_co_status 0 c) fd t k); try done.
    + eapply wf_same; [..|exact Hwf2]; done.
    + by rewrite Ek.
  - intros Har. destruct (sn_ready _ _ _ _ _ _ _ _ Hs1 a Har) as (c0 & _ & [[_ E]|[E _]]);
      simpl in E; rewrite lookup_insert_eq in E; congruence.
  - done.
  - apply lookup_insert_eq.
  - by split_and!.
Qed.

(** ** Waiting in the ready queue *)

Lemma Run_not_exited a g m : Run a g m → not_exited a m.
Proof.
  intros (D & lw & lr & new & s & c & _ & _ & _ & Ha & Hc) c' Ha'.
  rewrite Ha in Ha'. injection Ha' as <-. apply Hc.
Qed.

Lemma Run_enqueue a g m :
  Run a g m →
  wp (ready (queue_insert_tail (Some a))) (λ _ m', Parked a None g m' ∧ not_exited a m') m.
Proof.
  intros HR. pose proof (Run_not_exited _ _ _ HR) as Hne.
  destruct HR as (D & lw & lr & new & s & c & Hs & Hr & Hg & Ha & Hc).
  pose proof (sane_not_waiting _ _ _ _ _ _ _ _ _ Hs Hg) as Hw.
  eapply wp_ready_insert_tail; [by eapply sn_wf| |done|].
  { rewrite <- (wf_dom _ _ _ _ _ (sn_wf _ _ _ _ _ _ _ _ Hs)). by eapply elem_of_dom_2. }
  intros q Hwf. split; [|done]. exists D, lw, (lr ++ [a]), (new ++ [a]), s, c.
  split_and!; try done. destruct Hs. constructor; simpl; try done.
  - by rewrite sn_new0, app_assoc.
  - intros x [Hx| ->%list_elem_of_singleton]%elem_of_app.
    + assert (a ≠ x) by (by intros ->). rewrite lookup_insert_ne by done. auto.
    + exists c. rewrite lookup_insert_eq. auto.
  - intros x Hx. rewrite lookup_insert_ne; [auto|]. by intros ->.
  - intros x Hx. rewrite elem_of_app, list_elem_of_singleton.
    destruct (decide (x = a)) as [->|]; [by right|left]. rewrite lookup_insert_ne in Hx by done. auto.
  - intros x fd Hx. destruct (decide (x = a)) as [->|].
    + by rewrite lookup_insert_eq in Hx.
    + rewrite lookup_insert_ne in Hx by done. auto.
  - intros x Hx. rewrite elem_of_app. destruct (sn_all0 x Hx) as [?|[?|?]]; auto.
Qed.

(** ** Creating and ending coroutines *)

Lemma sane_elems cur g D lw lr new s m x :
  sane cur g D lw lr new s m → x ∈ lw ∨ x ∈ lr ∨ is_Some (g_ctx g !! x) → x ∈ D.
Proof.
  intros [] Hx. eapply wf_elems; [done|]. destruct Hx as [?|[?|[[fd|] Hx]]]; eauto.
  - destruct (sn_wait_ctx0 x fd Hx). auto.
Qed.

(** A new coroutine [b] joins the ready queue. *)
Lemma sane_spawn cur g D lw lr new s m b c q :
  sane cur g D lw lr new s m → b ∉ D → is_new c →
  let m1 := with_cos (insert b c) (alloc_entries b m) in
  wf ({[b]} ∪ D) [] lw (lr ++ [b]) (with_ready q m1) →
  sane cur g ({[b]} ∪ D) lw (lr ++ [b]) (new ++ [b]) s (with_ready q m1).
Proof.
  intros Hs Hb Hc m1 Hwf.
  assert (∀ x, x ∈ lw ∨ x ∈ lr ∨ is_Some (g_ctx g !! x) → b ≠ x) as Hne.
  { intros x Hx ->. by eapply Hb, sane_elems. }
  assert (∀ x, b ≠ x → m_cos (with_ready q m1) !! x = m_cos m !! x) as Hcos.
  { intros x Hx. simpl. by rewrite !lookup_insert_ne. }
  assert (∀ x, b ≠ x → wait_key (m_cos (with_ready q m1)) x = wait_key (m_cos m) x) as Hkey.
  { intros x Hx. unfold wait_key. by rewrite Hcos. }
  destruct Hs. constructor; simpl; try done.
  - by rewrite sn_new0, app_assoc.
  - intros fd Hfd. specialize (sn_wake0 fd Hfd). apply elem_of_wait_fds in sn_wake0 as (x & Hx & <-).
    apply elem_of_wait_fds. exists x. split; [done|]. apply Hkey. auto.
  - intros x [Hx| ->%list_elem_of_singleton]%elem_of_app.
    + simpl in Hcos. rewrite Hcos by auto. auto.
    + exists c. rewrite lookup_insert_eq. split; [done|]. left. split; [done|].
      destruct (g_ctx g !! b) eqn:E; [|done]. exfalso. apply (Hne b); [|done].
      right; right. by eexists.
  - intros x Hx. rewrite Hkey; auto.
  - intros x Hx. rewrite elem_of_app. auto.
  - intros x fd Hx. destruct (sn_wait_ctx0 x fd Hx) as [??]. rewrite Hkey; auto.
  - intros x [->%elem_of_singleton|Hx]%elem_of_union; rewrite elem_of_app, list_elem_of_singleton;
      [auto|]. destruct (sn_all0 x Hx) as [?|[?|?]]; auto.
Qed.

Lemma sane_create cur g D lw lr new s func arg m :
  sane cur g D lw lr new s m →
  wp (nty_coroutine_create func arg) (λ _ m', ∃ D' lr' new' s', sane cur g D' lw lr' new' s' m' ∧
    (∀ x, x ∈ D → m_cos m' !! x = m_cos m !! x ∧ (x ∈ lr' → x ∈ lr))) m.
Proof.
  intros Hs. pose proof (sn_sched _ _ _ _ _ _ _ _ Hs) as Es. unfold nty_coroutine_create.
  apply wp_bind, wp_gets. rewrite Es. cbn [negb bool_decide].
  rewrite bool_decide_true by eauto. apply wp_bind, wp_ret, wp_bind, wp_gets.
  rewrite Es, bool_decide_true by eauto. apply wp_bind.
  eapply wp_mono; [eapply calloc_spec; by eapply sn_wf|].
  cbv beta. intros r m1 (e & k & Hk & Hr).
  assert (sane cur g D lw lr new s (sys_result e k m) ∧ m_cos (sys_result e k m) = m_cos m) as [Hs1 Ec].
  { split; [by apply sane_sys|by destruct e]. }
  destruct r as [b|]; [|subst m1; apply wp_ret; exists D, lr, new, s; rewrite Ec; by split].
  destruct Hr as [Hb ->]. set (m1 := sys_result e k m) in *. clearbody m1.
  pose proof (sn_sched _ _ _ _ _ _ _ _ Hs1) as Es1.
  eapply wp_bind, wp_get_sched; [exact Es1|].
  eapply wp_bind, wp_sched_update; [exact Es1|].
  set (s1 := set_spawned_coroutines _ s).
  apply wp_bind, wp_bind, wp_syscall. intros t e2 k2 Hk2. apply wp_ret.
  pose proof (other_wakeable _ _ _ _ _ Hk2) as Hw2. simpl in Hw2.
  set (birth := u64 _).
  set (cb := NtyCoroutine func arg (BIT NTY_COROUTINE_STATUS_NEW) birth
    (u64 (sched_spawned_coroutines s)) (-1) 0 0 0).
  assert (sane cur g D lw lr new s1 (sys_result e2 k2 (with_sched (Some s1) m1)) ∧
          m_cos (sys_result e2 k2 (with_sched (Some s1) m1)) = m_cos m) as [Hs2 Ec2].
  { split; [|by destruct e2]. apply sane_sys; [|done]. by eapply sane_sched. }
  set (m2 := sys_result e2 k2 (with_sched (Some s1) m1)) in *.
  assert (sys_result e2 k2 (with_sched (Some s1) (alloc_entries b m1)) = alloc_entries b m2) as ->
    by (unfold m2; by destruct e2).
  clearbody m2. eapply wp_bind, wp_co_update; [apply lookup_insert_eq|].
  change (NtyCoroutine func arg (BIT NTY_COROUTINE_STATUS_NEW) birth
    (u64 (sched_spawned_coroutines s)) (-1) 0 (co_ops coroutine_zero)
    (co_sleep_usecs coroutine_zero)) with cb.
  eapply wp_bind, wp_co_sched; [apply lookup_insert_eq|exact (sn_sched _ _ _ _ _ _ _ _ Hs2)|].
  assert (∀ x, x ∈ lw ∨ x ∈ lr → b ≠ x) as Hne.
  { intros x Hx ->. eapply Hb, sane_elems; [exact Hs2|]. tauto. }
  assert (wf ({[b]} ∪ D) [] lw lr (with_cos (insert b cb) (alloc_entries b m2))) as Hwf3.
  { eapply wf_update; [apply wf_alloc; [by eapply sn_wf|done]|apply lookup_insert_eq| |].
    - by intros ?%not_elem_of_nil.
    - intros Hin. exfalso. by apply (Hne b); auto. }
  apply wp_bind. eapply wp_ready_insert_tail; [exact Hwf3|set_solver| |].
  { intros Hin. by apply (Hne b); auto. }
  intros q Hwf4. apply wp_ret.
  exists ({[b]} ∪ D), (lr ++ [b]), (new ++ [b]), s1. split.
  - by apply (sane_spawn cur g D lw lr new s1 m2 b cb q).
  - intros x Hx. assert (b ≠ x) by (by intros ->). simpl. rewrite !lookup_insert_ne by done.
    rewrite Ec2. split; [done|]. rewrite elem_of_app, list_elem_of_singleton. intros [?| ->]; done.
Qed.

Lemma Run_create a g m func arg :
  Run a g m → wp (nty_coroutine_create func arg) (λ _ m', Run a g m') m.
Proof.
  intros (D & lw & lr & new & s & c & Hs & Hr & Hg & Ha & Hc).
  eapply wp_mono; [by eapply sane_create|].
  cbv beta. intros _ m' (D' & lr' & new' & s' & Hs' & Hkeep).
  assert (a ∈ D) as HaD.
  { rewrite <- (wf_dom _ _ _ _ _ (sn_wf _ _ _ _ _ _ _ _ Hs)). by eapply elem_of_dom_2. }
  destruct (Hkeep a HaD) as [E Hin]. exists D', lw, lr', new', s', c. rewrite E.
  split_and!; try done. by intros ?%Hin.
Qed.

Lemma Run_detach a g m : Run a g m → wp nty_coroutine_detach (λ _ m', Run a g m') m.
Proof.
  intros HR. pose proof HR as (D & lw & lr & new & s & c & Hs & _).
  eapply wp_bind, wp_get_sched; [by apply sn_sched in Hs|].
  rewrite (sn_curr _ _ _ _ _ _ _ _ Hs). eapply Run_update; [done|].
  intros c1 (Hb1 & Hb2 & Hb3). unfold clean, has_bit, BIT in *. simpl.
  rewrite !Z.land_lor_distr_l. by rewrite !Z.lor_0_r.
Qed.

(** The end of [_exec]. *)
Lemma Run_exit a g m :
  Run a g m →
  wp (status_or (Some a) (Z.lor (Z.lor (BIT NTY_COROUTINE_STATUS_EXITED)
        (BIT NTY_COROUTINE_STATUS_FDEOF)) (BIT NTY_COROUTINE_STATUS_DETACH)))
    (λ _ m', Exited a g m') m.
Proof.
  intros (D & lw & lr & new & s & c & Hs & Hr & Hg & Ha & Hc).
  eapply wp_co_update; [done|].
  exists D, lw, lr, new, s, (set_co_status (Z.lor (co_status c)
    (Z.lor (Z.lor (BIT NTY_COROUTINE_STATUS_EXITED)
        (BIT NTY_COROUTINE_STATUS_FDEOF)) (BIT NTY_COROUTINE_STATUS_DETACH))) c).
  split_and!; [|done|done|apply lookup_insert_eq|..].
  - eapply sane_update; [done|done| |done]. by eapply sane_not_waiting.
  - unfold has_bit. simpl. rewrite Z.land_lor_distr_l. apply negb_true_iff, Z.eqb_neq.
    intros E%Z.lor_eq_0_iff. destruct E as [_ E]. by vm_compute in E.
  - unfold has_bit. simpl. rewrite Z.land_lor_distr_l. apply negb_true_iff, Z.eqb_neq.
    intros E%Z.lor_eq_0_iff. destruct E as [_ E]. by vm_compute in E.
Qed.
End sane.
