(* ===== verification/ApiSafe.v ===== *)
(** Every call of the library, made by the running coroutine without a timed sleep, keeps
    the invariant of the scheduler: the coroutine runs before and after it, and at each
    switch in between it is registered where it will be resumed from. *)

From S2P Require Export Sane.

Section keeps.
Context `{OSLaws} {T Qt : Type} `{TreeLaws T} `{QueueLaws Qt}.
Variable a : addr.

Abbreviation prog := (itree (coE T Qt)).
Abbreviation tr := (triple (switch a)).

Definition keeps {A} (t : prog A) : Prop := tr (Run a) t (λ _, Run a).

Lemma keeps_ret {A} (x : A) : keeps (mret x).
Proof. by apply triple_ret. Qed.

Lemma keeps_bind {A B} (t : prog A) (k : A → prog B) :
  keeps t → (∀ x, keeps (k x)) → keeps (t ≫= k).
Proof. apply triple_bind, switch_mono. Qed.

Lemma keeps_iter {A B} (body : A → prog (A + B)) i :
  (∀ i, keeps (body i)) → keeps (ITree.iter body i).
Proof.
  intros Hbody. apply (triple_iter _ (switch_mono a) (λ _, Run a)). intros i'.
  eapply triple_post; [apply switch_mono|apply Hbody|]. by intros [].
Qed.

Lemma keeps_op {A} (o : ST (mem T Qt) A) :
  (∀ g m, Run a g m → wpe tolerated o (λ _ m', Run a g m') m) → keeps (op o).
Proof. apply triple_op. Qed.

Lemma keeps_sys {A} (s : sysE A) :
  match s with sys_epoll_ctl _ _ _ _ => False | _ => True end → keeps (sysc s).
Proof. intros Hs. apply triple_sys. intros g m HR. by apply wpe_of_wp, Run_syscall. Qed.

Lemma keeps_gets {A} (f : mem T Qt → A) : keeps (op (gets f)).
Proof. by apply keeps_op. Qed.

Lemma keeps_abort : keeps (op (c_assert false)).
Proof. apply keeps_op. intros. by right. Qed.

Lemma keeps_get_sched : keeps (op (nty_coroutine_get_sched;; mret tt)).
Proof.
  apply keeps_op. intros g m HR. pose proof HR as (D & lw & lr & new & s & c & Hs & _).
  apply wpe_of_wp. eapply wp_bind, wp_get_sched; [by apply sn_sched in Hs|]. by apply wp_ret.
Qed.

(** ** Switching *)

(** Updating fields of a registered coroutine that no container looks at. *)
Lemma Parked_update v g (m : mem T Qt) f :
  Parked a v g m → not_exited a m →
  (∀ c, co_fd (f c) = co_fd c ∧ co_status (f c) = co_status c) →
  wp (co_update (Some a) f) (λ _ m', Parked a v g m' ∧ not_exited a m') m.
Proof.
  intros (D & lw & lr & new & s & c & Hs & Hg & Ha) Hne Hf.
  destruct (Hf c) as [Hfd Hst]. eapply wp_co_update; [done|]. split.
  2: { intros c'. simpl. rewrite lookup_insert_eq. intros [= <-]. rewrite Hst. by apply Hne. }
  exists D, lw, lr, new, s, (f c). split_and!; [|done|apply lookup_insert_eq].
  assert (∀ x, wait_key (<[a := f c]> (m_cos m)) x = wait_key (m_cos m) x) as Hk.
  { intros x. rewrite wait_key_insert. case_decide; [|done]. subst x.
    unfold wait_key. by rewrite Ha. }
  destruct Hs. constructor; simpl; try done.
  - eapply wf_update; [done|done| |done]. by intros ?%not_elem_of_nil.
  - intros fd Hin. specialize (sn_wake fd Hin). apply elem_of_wait_fds in sn_wake as (x & Hx & <-).
    apply elem_of_wait_fds. exists x. by rewrite Hk.
  - intros x Hx. destruct (sn_ready x Hx) as (cx & Hcx & Hok).
    destruct (decide (a = x)) as [->|]; [|exists cx; by rewrite lookup_insert_ne].
    rewrite Ha in Hcx. injection Hcx as <-. exists (f c). rewrite lookup_insert_eq.
    split; [done|]. unfold is_new, clean in *. by rewrite Hst.
  - intros x Hx. rewrite Hk. auto.
  - intros x fd Hx. rewrite Hk. auto.
Qed.

Lemma tr_yield v :
  tr (λ g m, Parked a v g m ∧ not_exited a m) (nty_coroutine_yield (Some a))
     (λ _ g m, match v with None => Run a g m | Some fd => Parked a (Some fd) g m end).
Proof.
  unfold nty_coroutine_yield.
  eapply (triple_bind _ (switch_mono a) _ _ _ (λ _ g m, Parked a v g m ∧ not_exited a m)).
  - apply triple_op. intros g m [HP Hne]. apply wpe_of_wp. eapply wp_seq; [by eapply Parked_update|].
    cbv beta. intros _ m' [HP' Hne']. pose proof HP' as (D & lw & lr & new & s & c & Hs & Hg & Ha).
    eapply wp_bind, wp_co_sched; [done|by apply sn_sched in Hs|]. by apply wp_ret.
  - intros _. apply (triple_switch _ (switch_mono a)). intros g m [HP Hne].
    destruct v as [fd|]; [right; left; exists fd|left]; by split_and!.
Qed.

(** [nty_poll_inner] on one descriptor, without time limit. *)
Lemma keeps_poll pfd : keeps (nty_poll_inner [pfd] 1).
Proof.
  unfold nty_poll_inner. simpl. apply keeps_bind; [apply keeps_gets|].
  intros null. destruct null; [apply keeps_ret|].
  eapply (triple_bind _ (switch_mono a) _ _ _ (λ co g m, co = Some a ∧ Run a g m)).
  { apply triple_op. intros g m HR. apply wpe_of_wp. by apply Run_curr. }
  intros co. eapply (triple_bind _ (switch_mono a) _ _ _
    (λ _ g m, Parked a (Some (pfd_fd pfd)) g m ∧ not_exited a m ∧ co = Some a)).
  { apply triple_op. intros g m [-> HR]. apply wpe_bind.
    eapply wpe_mono; [by eapply Run_register|]. cbv beta. intros _ m' [HP Hne]. by apply wp_ret. }
  intros _.
  eapply (triple_bind _ (switch_mono a) _ _ _ (λ _ g m, Parked a (Some (pfd_fd pfd)) g m)).
  { intros n g m (HP & Hne & ->). by apply (tr_yield (Some (pfd_fd pfd))). }
  intros _. eapply (triple_bind _ (switch_mono a) _ _ _ (λ _, Run a)); [|intros; apply keeps_ret].
  apply triple_op. intros g m HP. apply wpe_of_wp. eapply wp_seq; [by eapply Parked_unregister|].
  cbv beta. intros _ m' HR. by apply wp_ret.
Qed.

(** ** The calls *)

Lemma keeps_errno : keeps errno.
Proof. apply keeps_gets. Qed.

Lemma keeps_create func arg : keeps (op (nty_coroutine_create func arg)).
Proof. apply keeps_op. intros g m HR. by apply wpe_of_wp, Run_create. Qed.

Lemma keeps_detach : keeps (op nty_coroutine_detach).
Proof. apply keeps_op. intros g m HR. by apply wpe_of_wp, Run_detach. Qed.

Lemma keeps_usec_now : keeps (op nty_coroutine_usec_now).
Proof.
  apply keeps_op. intros g m HR. apply wpe_of_wp. unfold nty_coroutine_usec_now.
  eapply wp_seq; [by eapply Run_syscall|]. cbv beta. intros t m' HR'. by apply wp_ret.
Qed.

(** Enter the queue and switch. *)
Lemma keeps_requeue {B} (o : ST (mem T Qt) B) :
  (∀ m s, m_sched m = Some s → is_Some (m_cos m !! a) → wp o (λ _ m', m' = m) m) →
  keeps (op (o;; ready (queue_insert_tail (Some a)));; nty_coroutine_yield (Some a)).
Proof.
  intros Ho.
  eapply (triple_bind _ (switch_mono a) _ _ _ (λ _ g m, Parked a None g m ∧ not_exited a m)).
  - apply triple_op. intros g m HR. apply wpe_of_wp.
    pose proof HR as (D & lw & lr & new & s & c & Hs & _ & _ & Ha & _).
    eapply wp_seq; [eapply Ho; [by apply sn_sched in Hs|by eexists]|].
    cbv beta. intros _ m' ->. by apply Run_enqueue.
  - intros _. apply (tr_yield None).
Qed.

Lemma keeps_sleep : keeps (nty_coroutine_sleep 0).
Proof.
  unfold nty_coroutine_sleep.
  eapply (triple_bind _ (switch_mono a) _ _ _ (λ co g m, co = Some a ∧ Run a g m)).
  { apply triple_op. intros g m HR. apply wpe_of_wp. by apply Run_curr. }
  intros co n g m [-> HR]. apply keeps_requeue; [|done].
  intros m' s Hs [c Ha]. by eapply wp_co_sched.
Qed.

Lemma keeps_renice :
  keeps (co ← op (s ← nty_coroutine_get_sched; mret (sched_curr_thread s));
         nty_coroutine_renice co).
Proof.
  eapply (triple_bind _ (switch_mono a) _ _ _ (λ co g m, co = Some a ∧ Run a g m)).
  { apply triple_op. intros g m HR. apply wpe_of_wp. by apply Run_curr. }
  intros co n g m [-> HR]. revert n g m HR.
  change (keeps (nty_coroutine_renice (Some a))). apply keeps_bind.
  - apply keeps_op. intros g m HR. apply wpe_of_wp.
    eapply wp_seq; [by eapply Run_update|]. cbv beta. intros _ m' HR'.
    pose proof HR' as (D & lw & lr & new & s & c & Hs & _ & _ & Ha & _).
    eapply wp_bind, wp_co_load; [done|]. by apply wp_ret.
  - intros ops. destruct (ops <? 5)%Z; [apply keeps_ret|].
    apply keeps_requeue. intros m s Hs _. by eapply wp_get_sched.
Qed.
End keeps.

(** Walk through a program of the library. *)
Ltac solve_keeps :=
  repeat (cbv zeta;
    match goal with
    | |- keeps _ (mret _) => apply keeps_ret
    | |- keeps _ (mbind _ _) => apply keeps_bind; [|intros ?]
    | |- keeps _ (ITree.iter _ _) => apply keeps_iter; intros ?
    | |- keeps _ errno => apply keeps_errno
    | |- keeps _ (op (gets _)) => apply keeps_gets
    | |- keeps _ (op sched_is_null) => apply keeps_gets
    | |- keeps _ (op (c_assert false)) => apply keeps_abort
    | |- keeps _ (op (nty_coroutine_get_sched;; mret tt)) => apply keeps_get_sched
    | |- keeps _ (sysc _) => by apply keeps_sys
    | |- keeps _ (nty_poll_inner [_] 1) => apply keeps_poll
    | |- keeps _ (match ?x with _ => _ end) => destruct x
    | |- keeps _ (let '_ := ?x in _) => destruct x
    end).

Section api.
Context `{OSLaws} {T Qt : Type} `{TreeLaws T} `{QueueLaws Qt}.
Variable a : addr.

Lemma keeps_send_loop fd buf (snd : list byte → itree (coE T Qt) Z) :
  (∀ data, keeps a (snd data)) → keeps a (send_loop fd buf snd).
Proof. intros Hs. unfold send_loop. solve_keeps; auto; solve_keeps. Qed.

Lemma keeps_hook_close fd : keeps a (Hook.close (T := T) (Qt := Qt) fd).
Proof. by apply keeps_sys. Qed.
Lemma keeps_hook_socket d t p : keeps a (Hook.socket (T := T) (Qt := Qt) d t p).
Proof. unfold Hook.socket, Hook.close. solve_keeps. Qed.
Lemma keeps_hook_read fd n : keeps a (Hook.read (T := T) (Qt := Qt) fd n).
Proof. unfold Hook.read. solve_keeps. Qed.
Lemma keeps_hook_recv fd n fl : keeps a (Hook.recv (T := T) (Qt := Qt) fd n fl).
Proof. unfold Hook.recv. solve_keeps. Qed.
Lemma keeps_hook_recvfrom fd n fl : keeps a (Hook.recvfrom (T := T) (Qt := Qt) fd n fl).
Proof. unfold Hook.recvfrom. solve_keeps. Qed.
Lemma keeps_hook_write fd buf : keeps a (Hook.write (T := T) (Qt := Qt) fd buf).
Proof. unfold Hook.write. solve_keeps. apply keeps_send_loop. intros. solve_keeps. Qed.
Lemma keeps_hook_send fd buf fl : keeps a (Hook.send (T := T) (Qt := Qt) fd buf fl).
Proof. unfold Hook.send. solve_keeps. apply keeps_send_loop. intros. solve_keeps. Qed.
Lemma keeps_hook_sendto fd buf fl dst : keeps a (Hook.sendto (T := T) (Qt := Qt) fd buf fl dst).
Proof. unfold Hook.sendto. solve_keeps. Qed.
Lemma keeps_hook_accept fd : keeps a (Hook.accept (T := T) (Qt := Qt) fd).
Proof. unfold Hook.accept, Hook.close. solve_keeps. Qed.
Lemma keeps_hook_connect fd name : keeps a (Hook.connect (T := T) (Qt := Qt) fd name).
Proof. unfold Hook.connect. solve_keeps. Qed.

(** Calls that do not put the coroutine to sleep for a time, and do not change the interest
    list behind the back of the library. *)
Definition api_quiet {A} (e : apiE A) : Prop :=
  match e with
  | api_sleep msecs => msecs = 0%Z
  | api_sys s => match s with sys_epoll_ctl _ _ _ _ => False | _ => True end
  | _ => True
  end.

Lemma keeps_api {A} (e : apiE A) : api_quiet e → keeps a (api (T := T) (Qt := Qt) e).
Proof.
  intros Hq. destruct e; simpl; unfold nty_socket, nty_accept, nty_connect, nty_recv, nty_sendto,
    nty_recvfrom, nty_close, nty_send.
  all: try (first [apply keeps_hook_close|apply keeps_hook_socket|apply keeps_hook_read
    |apply keeps_hook_recv|apply keeps_hook_recvfrom|apply keeps_hook_write|apply keeps_hook_send
    |apply keeps_hook_sendto|apply keeps_hook_accept|apply keeps_hook_connect
    |apply keeps_create|apply keeps_detach|apply keeps_usec_now|apply keeps_errno|apply keeps_renice
    |by apply keeps_sys]).
  - solve_keeps; apply keeps_hook_socket || apply keeps_hook_close.
  - solve_keeps; apply keeps_hook_accept || apply keeps_hook_close.
  - solve_keeps. apply keeps_hook_connect.
  - solve_keeps. apply keeps_hook_recv.
  - apply keeps_send_loop. intros. apply keeps_hook_send.
  - solve_keeps. apply keeps_hook_sendto.
  - solve_keeps. apply keeps_hook_recvfrom.
  - simpl in Hq. subst msecs. apply keeps_sleep.
Qed.
End api.
