(* ===== verification/RunSafe.v ===== *)
(** The scheduling loop of src/core/nty_schedule.c keeps the invariant of Sane.v: programs
    whose coroutines never ask for a timed sleep run without dereferencing a null or
    dangling pointer, each pass resumes the ready coroutines in the order of their arrival,
    and no coroutine is left when the scheduler stops. *)

From S2P Require Export ApiSafe.

(** ** Programs of quiet calls *)

(** The first [n] steps of a program make only calls that satisfy [api_quiet]. *)
Fixpoint quiet_upto `{OS} (n : nat) (t : itree apiE unit) : Prop :=
  match n with
  | O => True
  | S n =>
      match observe t with
      | RetF _ => True
      | TauF t => quiet_upto n t
      | VisF e k => api_quiet e ∧ ∀ x, quiet_upto n (k x)
      end
  end.

Definition quiet_prog `{OS} (t : itree apiE unit) : Prop := ∀ n, quiet_upto n t.

Lemma quiet_prog_step `{OS} (t : itree apiE unit) :
  quiet_prog t →
  match observe t with
  | RetF _ => True
  | TauF t => quiet_prog t
  | VisF e k => api_quiet e ∧ ∀ x, quiet_prog (k x)
  end.
Proof.
  intros Ht. destruct (observe t) as [|t'|X e k] eqn:E; [done|..].
  - intros n. specialize (Ht (S n)). simpl in Ht. by rewrite E in Ht.
  - split; [|intros x n; specialize (Ht (S n))]; [specialize (Ht 1)|];
      simpl in Ht; rewrite E in Ht; [apply Ht|by apply Ht].
Qed.

Section contexts.
Context `{OSLaws} {T Qt : Type} `{TreeLaws T} `{QueueLaws Qt}.
Abbreviation prog := (itree (coE T Qt)).
Implicit Types m : mem T Qt.

Variable code : Z → Z → itree apiE unit.
Hypothesis code_quiet : ∀ func arg, quiet_prog (code func arg).

Lemma keeps_prog a t : quiet_prog t → keeps a (interp (λ A, api (T := T) (Qt := Qt)) t).
Proof.
  intros Ht n g m HR. unfold interp.
  eapply (triple_iter _ (switch_mono a) (λ t g m, quiet_prog t ∧ Run a g m)); [|by split].
  clear n g m HR. intros t' n g m [Hq HR]. pose proof (quiet_prog_step _ Hq) as Hs.
  destruct (observe t') as [r|t1|X e k].
  - by apply (triple_ret _ (λ g m, Run a g m) (inr r)).
  - apply (triple_ret _ (λ g m, quiet_prog t1 ∧ Run a g m) (inl t1)); auto.
  - destruct Hs as [He Hk]. change (fmap ?f ?x) with (x ≫= λ y, mret (f y)).
    eapply (triple_bind _ (switch_mono a) (Run a) _ _ (λ _, Run a)); [by apply keeps_api| |done].
    intros x. apply triple_ret. auto.
Qed.

Lemma Exited_update a g m f :
  Exited a g m → (∀ c, co_status (f c) = co_status c) →
  wp (co_update (Some a) f) (λ _ m', Exited a g m') m.
Proof.
  intros (D & lw & lr & new & s & c & Hs & Hr & Hg & Ha & Hx & Hd) Hf.
  eapply wp_co_update; [done|]. exists D, lw, lr, new, s, (f c).
  rewrite Hf. split_and!; try done; [|apply lookup_insert_eq].
  eapply sane_update; [done|done| |done]. by eapply sane_not_waiting.
Qed.

(** A coroutine runs its function, and never returns from its last switch. *)
Lemma tr_exec a : triple (switch a) (Run a) (_exec code (Some a)) (λ _ _ (_ : mem T Qt), False).
Proof.
  unfold _exec. eapply (triple_bind _ (switch_mono a) _ _ _ (λ _, Run a)).
  { apply triple_op. intros g m HR. pose proof HR as (D & lw & lr & new & s & c & _ & _ & _ & Ha & _).
    apply wpe_of_wp. by eapply wp_co_load. }
  intros c. eapply (triple_bind _ (switch_mono a) _ _ _ (λ _, Run a)); [by apply keeps_prog|].
  intros _. eapply (triple_bind _ (switch_mono a) _ _ _ (λ _, Exited a)).
  { apply triple_op. intros g m HR. by apply wpe_of_wp, Run_exit. }
  intros _. eapply (triple_bind _ (switch_mono a) _ _ _ (λ _, Exited a)).
  - apply triple_op. intros g m HE. apply wpe_of_wp. eapply wp_seq; [by eapply Exited_update|].
    cbv beta. intros _ m' HE'. pose proof HE' as (D & lw & lr & new & s & c' & Hs & _ & _ & Ha & _).
    eapply wp_bind, wp_co_sched; [done|by apply sn_sched in Hs|]. by apply wp_ret.
  - intros _. apply (triple_switch _ (switch_mono a)). intros g m HE. by right; right.
Qed.

(** ** Where a coroutine stops *)

Lemma Parked_inj a v v' g m : Parked a v g m → Parked a v' g m → v = v'.
Proof.
  intros (D & lw & lr & new & s & c & Hs & _) (D' & lw' & lr' & new' & s' & c' & Hs' & _).
  pose proof (tree_rep_inj _ _ _ _ _ (wf_waiting _ _ _ _ _ (sn_wf _ _ _ _ _ _ _ _ Hs))
    (wf_waiting _ _ _ _ _ (sn_wf _ _ _ _ _ _ _ _ Hs'))) as <-.
  assert (∀ v g, g_ctx (g_park a v g) !! a = Some v) as E by (intros; apply lookup_insert_eq).
  assert (∀ g0 D0 lr0 new0 s0 fd v0, sane (Some a) (g_park a (Some fd) g0) D0 lw lr0 new0 s0 m →
    sane (Some a) (g_park a v0 g0) D' lw lr' new' s' m ∨
    sane (Some a) (g_park a v0 g0) D lw lr new s m → v0 = Some fd) as Hfd.
  { intros g0 D0 lr0 new0 s0 fd v0 Hs1 Hs2.
    destruct (sn_wait_ctx _ _ _ _ _ _ _ _ Hs1 a fd (E _ _)) as [Hin Hk].
    destruct Hs2 as [Hs2|Hs2]; apply (sn_wait _ _ _ _ _ _ _ _ Hs2) in Hin;
      rewrite E in Hin; congruence. }
  destruct v as [fd|]; [by erewrite (Hfd _ _ _ _ _ fd v'); eauto|].
  destruct v' as [fd|]; [|done]. by eapply Hfd; eauto.
Qed.

Lemma Exited_not_parked a v g m : Exited a g m → not_exited a m → Parked a v g m → False.
Proof.
  intros (D & lw & lr & new & s & c & _ & _ & _ & Ha & Hx & _) Hne _.
  specialize (Hne c Ha). congruence.
Qed.

(** The way a coroutine is resumed does not depend on how far it is looked at. *)
Lemma switch_all a (K : nat → ghost → mem T Qt → Prop) g m :
  (∀ n, switch a (K n) g m) → switch a (λ g m, ∀ n, K n g m) g m.
Proof.
  intros Hall. destruct (Hall 0) as [(HP & Hne & _)|[(fd & HP & Hne & _)|?]]; [left|right; left|by right; right].
  - split_and!; [done|done|]. intros g' m' HR n.
    destruct (Hall n) as [(_ & _ & HK)|[(fd & HP' & _)|HE]]; [by apply HK| |].
    + by pose proof (Parked_inj _ _ _ _ _ HP HP').
    + by exfalso; eapply Exited_not_parked.
  - exists fd. split_and!; [done|done|]. intros g' m' HR n.
    destruct (Hall n) as [(HP' & _)|[(fd' & HP' & _ & HK)|HE]].
    + by pose proof (Parked_inj _ _ _ _ _ HP HP').
    + pose proof (Parked_inj _ _ _ _ _ HP HP') as [= <-]. by apply HK.
    + by exfalso; eapply Exited_not_parked.
Qed.

(** All steps of the program are safe. *)
Definition runs a (t : prog unit) g m : Prop := ∀ n, wps (switch a) n t (λ _ _ _, False) g m.

Lemma run_ctx_spec a fuel : ∀ t g m,
  runs a t g m → wpe tolerated (run_ctx fuel t) (λ t' m', switch a (runs a t') g m') m.
Proof.
  induction fuel as [|fuel IH]; intros t g m Hw; [by left|]. simpl.
  assert (∀ n, wps (switch a) (S n) t (λ _ _ _, False) g m) as Hw' by (intros n; apply Hw).
  simpl in Hw'. destruct (observe t) as [r|t'|X e k]; [by destruct (Hw' 0)|by apply IH|].
  destruct e.
  - apply wpe_bind. unfold wpe in *. specialize (IH).
    destruct (m0 m) as [[x m']|]; [|by apply (Hw' 0)]. apply IH. intros n. apply Hw'.
  - apply wpe_bind. unfold wpe in *.
    destruct (syscall s m) as [[x m']|]; [|by apply (Hw' 0)]. apply IH. intros n. apply Hw'.
  - by apply switch_all.
Qed.
End contexts.

(** ** The invariant between two coroutines *)

Section resting.
Context `{OSLaws} {T Qt : Type} `{TreeLaws T} `{QueueLaws Qt}.
Implicit Types m : mem T Qt.

(** Giving the control back. *)
Lemma sane_leave a g D lw lr new s m :
  sane (Some a) g D lw lr new s m → a ∈ lr ∨ a ∈ lw →
  sane NULL (Ghost (g_ctx g) lr (g_num g) (g_evs g)) D lw lr []
    (set_curr_thread NULL s) (with_sched (Some (set_curr_thread NULL s)) m).
Proof.
  intros [] Ha. constructor; try done; simpl.
  - by apply wf_with_sched.
  - by rewrite app_nil_r.
  - intros x Hx. destruct (sn_all x Hx) as [[= ->]|[?|?]]; tauto.
Qed.

(** Changing a coroutine that is not ready, its descriptor aside. *)
Lemma sane_update_waiting cur g D lw lr new s m a c c' :
  sane cur g D lw lr new s m → m_cos m !! a = Some c → a ∉ lr → co_fd c' = co_fd c →
  sane cur g D lw lr new s (with_cos (insert a c') m).
Proof.
  intros [] Ha Hr Hfd.
  assert (∀ x, wait_key (<[a := c']> (m_cos m)) x = wait_key (m_cos m) x) as Hk.
  { intros x. rewrite wait_key_insert. case_decide; [|done]. subst x. unfold wait_key. by rewrite Ha. }
  constructor; try done; simpl.
  - eapply wf_update; [done|done| |done]. by intros ?%not_elem_of_nil.
  - intros f Hin. specialize (sn_wake f Hin). apply elem_of_wait_fds in sn_wake as (x & Hx & <-).
    apply elem_of_wait_fds. exists x. split; [done|]. apply Hk.
  - intros x Hx. rewrite lookup_insert_ne by (intros ->; done). by apply sn_ready.
  - intros x Hx. rewrite Hk. by apply sn_wait.
  - intros x f Hx. rewrite Hk. by apply sn_wait_ctx.
Qed.

(** Changing what the scheduler knows of the events. *)
Lemma sane_events ctx lr0 num num' evs evs' cur D lw lr new s s' m :
  sane cur (Ghost ctx lr0 num evs) D lw lr new s m →
  sched_curr_thread s' = sched_curr_thread s → sched_default_timeout s' = sched_default_timeout s →
  sched_num_new_events s' = num' → sched_eventlist s' = evs' →
  sane cur (Ghost ctx lr0 num' evs') D lw lr new s' (with_sched (Some s') m).
Proof. intros [] E1 E2 E3 E4. constructor; rewrite ?E1, ?E2, ?E3, ?E4; try done. by apply wf_with_sched. Qed.

(** Freeing the coroutine that has exited. *)
Lemma sane_free a g D lw lr new s m c :
  sane (Some a) g D lw lr new s m → a ∉ lr → g_ctx g !! a = None → m_cos m !! a = Some c →
  wp (nty_coroutine_free (Some a)) (λ _ m',
    ∃ s', sane NULL (Ghost (g_ctx g) lr (g_num g) (g_evs g)) (D ∖ {[a]}) lw lr [] s' m')
    (with_sched (Some (set_curr_thread NULL s)) m).
Proof.
  intros Hs Hr Hg Ha. pose proof (sane_not_waiting _ _ _ _ _ _ _ _ _ Hs Hg) as Hw.
  eapply wp_mono.
  { eapply (free_spec D [] lw lr); [|done|exact Ha|by intros ?%not_elem_of_nil|done|done].
    apply wf_with_sched. by eapply sn_wf. }
  cbv beta. intros _ m' [Hwf ->]. eexists. destruct Hs.
  assert (∀ x, a ≠ x → m_cos (release_entries a m) !! x = m_cos m !! x) as Hcos
    by (intros; by apply lookup_delete_ne).
  assert (∀ x, x ∈ lw → wait_key (m_cos (release_entries a m)) x = wait_key (m_cos m) x) as Hk.
  { intros x Hx. unfold wait_key. rewrite Hcos; [done|by intros ->]. }
  constructor; try done; simpl.
  - by rewrite app_nil_r.
  - intros fd Hin. specialize (sn_wake fd Hin). apply elem_of_wait_fds in sn_wake as (x & Hx & <-).
    apply elem_of_wait_fds. exists x. split; [done|]. by apply Hk.
  - intros x Hx. destruct (sn_ready x Hx) as (cx & Hcx & ?). exists cx. split; [|done].
    rewrite <- Hcx. apply Hcos. by intros ->.
  - intros x Hx. rewrite (sn_wait x Hx). do 2 f_equal. symmetry. by apply Hk.
  - intros x fd Hx. destruct (sn_wait_ctx x fd Hx) as [Hin <-]. split; [done|]. by apply Hk.
  - intros x [Hx Hax%not_elem_of_singleton]%elem_of_difference.
    destruct (sn_all x Hx) as [[= ->]|?]; [done|by right].
Qed.

(** The first ready coroutine leaves the queue to run. *)
Lemma sane_pop a lr ctx num evs D lw s m :
  sane NULL (Ghost ctx (a :: lr) num evs) D lw (a :: lr) [] s m →
  wp (ready (queue_remove (Some a))) (λ _ m', ∃ q c, m' = with_ready q m ∧
    let s' := set_curr_thread (Some a) s in
    sane (Some a) (Ghost (delete a ctx) lr num evs) D lw lr [] s' (with_sched (Some s') m') ∧
    (a ∉ lr) ∧ m_cos m !! a = Some c ∧
    (is_new c ∧ ctx !! a = None ∨ ctx !! a = Some None ∧ clean c)) m.
Proof.
  intros Hs. pose proof Hs as [].
  assert (NoDup (a :: lr)) as [Har Hnd]%NoDup_cons
    by (eapply queue_rep_NoDup; by eapply wf_ready).
  destruct (sn_ready a) as (c & Ha & Hc); [by left|].
  assert (a ∉ lw) as Hw.
  { intros Hin. apply sn_wait in Hin. simpl in *. destruct Hc as [[_ E]|[E _]]; congruence. }
  assert (∀ x, x ∈ lw ∨ x ∈ lr → a ≠ x) as Hne by (intros x [?|?] ->; done).
  eapply (wp_ready_remove _ _ _ []); [exact sn_wf|]. intros q Hwf.
  exists q, c. cbv zeta. split_and!; [done| |done|done|done]. constructor; try done; simpl.
  - by apply (wf_with_sched _ _ _ _ _ (with_ready q m)).
  - by rewrite app_nil_r.
  - intros x Hx. rewrite lookup_delete_ne by auto. apply sn_ready. by right.
  - intros x Hx. rewrite lookup_delete_ne by auto. by apply sn_wait.
  - intros x Hx. destruct (decide (a = x)) as [->|]; [by rewrite lookup_delete_eq in Hx|].
    rewrite lookup_delete_ne in Hx by done. apply sn_ready_ctx in Hx. set_solver.
  - intros x fd Hx. destruct (decide (a = x)) as [->|]; [by rewrite lookup_delete_eq in Hx|].
    rewrite lookup_delete_ne in Hx by done. by apply sn_wait_ctx.
  - intros x Hx. destruct (sn_all x Hx) as [?|[[->|?]%elem_of_cons|?]]; [done|by left|auto..].
Qed.

(** A waiting coroutine runs, its status cleared, and stays registered. *)
Lemma sane_wakeup a fd lr ctx num evs D lw s m :
  sane NULL (Ghost ctx lr num evs) D lw lr [] s m → ctx !! a = Some (Some fd) →
  wp (nty_schedule_search_wait fd) (λ r m', r = Some a ∧ ∃ c, m' = with_cos (insert a (set_co_status 0 c)) m ∧
    let s' := set_curr_thread (Some a) s in
    sane (Some a) (g_park a (Some fd) (Ghost (delete a ctx) lr num evs)) D lw lr [] s'
      (with_sched (Some s') m') ∧ (a ∉ lr) ∧ m_cos m !! a = Some c) m.
Proof.
  intros Hs Hctx. destruct (sn_wait_ctx _ _ _ _ _ _ _ _ Hs a fd Hctx) as [Hw Hfd].
  assert (∃ c, m_cos m !! a = Some c) as [c Ha].
  { eapply wf_lookup; [by eapply sn_wf|]. eapply sane_elems; [done|]. by left. }
  unfold wait_key in Hfd. rewrite Ha in Hfd. simpl in Hfd. subst fd.
  eapply wp_mono; [eapply search_wait_spec; [by eapply sn_wf|by eapply sn_sched|done|done]|].
  cbv beta. intros r m' (-> & -> & Hwf). split; [done|]. exists c. split; [done|].
  pose proof Hs as [].
  assert (a ∉ lr) as Hr.
  { intros Hin. destruct (sn_ready a Hin) as (c' & _ & [[_ E]|[E _]]); simpl in *; congruence. }
  cbv zeta. split_and!; [|done|done].
  assert (g_park a (Some (co_fd c)) (Ghost (delete a ctx) lr num evs) = Ghost ctx lr num evs) as ->.
  { unfold g_park. simpl. by rewrite insert_delete_eq, insert_id. }
  assert (sane NULL (Ghost ctx lr num evs) D lw lr [] s (with_cos (insert a (set_co_status 0 c)) m))
    as [] by by eapply sane_update_waiting.
  constructor; try done.
  - by apply wf_with_sched.
  - intros x Hx. destruct (sn_all0 x Hx) as [?|?]; [done|by right].
Qed.
End resting.
