(* ===== verification/MachineSafe.v ===== *)
(** The scheduler running coroutines, on the invariant of Sane.v: [nty_coroutine_resume],
    the three loops of [nty_schedule_run], and whole programs. *)

From S2P Require Export RunSafe.

Section machine.
Context `{OSLaws} {T Qt : Type} `{TreeLaws T} `{QueueLaws Qt}.
Abbreviation prog := (itree (coE T Qt)).
Abbreviation mach := (machine T Qt).
Implicit Types (m : mem T Qt) (s : mach).

Variable code : Z → Z → itree apiE unit.
Hypothesis code_quiet : ∀ func arg, quiet_prog (code func arg).

Lemma wpe_in_mem {A} (o : ST (mem T Qt) A) (Q : A → mach → Prop) s :
  wpe tolerated o (λ x m, Q x (Machine m (mc_ctx s))) (mc_mem s) → wpe tolerated (in_mem o) Q s.
Proof. unfold wpe, in_mem, zoom. by destruct (o (mc_mem s)) as [[x m]|]. Qed.

Lemma wpe_in_mem_bind {A B} (o : ST (mem T Qt) A) (f : A → ST mach B) (Q : B → mach → Prop) s :
  wp o (λ x m, wpe tolerated (f x) Q (Machine m (mc_ctx s))) (mc_mem s) →
  wpe tolerated (in_mem o ≫= f) Q s.
Proof. intros Ho. apply wpe_bind, wpe_in_mem. by apply wpe_of_wp. Qed.

(** A context that may be resumed: from the ready queue, or from the wait tree. *)
Definition resumes_as (a : addr) (v : option Z) (t : prog unit) : Prop := ∀ g m,
  match v with None => Run a g m | Some fd => Parked a (Some fd) g m end → runs a t g m.

Definition contexts (ctx : gmap addr (option Z)) (cs : gmap addr (prog unit)) : Prop :=
  ∀ x v, ctx !! x = Some v → ∃ t, cs !! x = Some t ∧ resumes_as x v t.

(** The scheduler is in control: the suspended coroutines are those of [ctx], each with
    the descriptor it waits for; [lr] is the ready queue; [num] events of [evs] are left. *)
Definition resting (ctx : gmap addr (option Z)) (lr : list addr) num evs s : Prop :=
  (∃ D lw sc, sane NULL (Ghost ctx lr num evs) D lw lr [] sc (mc_mem s)) ∧
  contexts ctx (mc_ctx s).

(** After a coroutine ran: it is suspended again or gone, others may have been queued. *)
Definition ran (a : addr) ctx lr num evs s : Prop := ∃ ctx' more,
  (ctx' = ctx ∨ ∃ v, ctx' = <[a := v]> ctx) ∧ resting ctx' (lr ++ more) num evs s.

Lemma contexts_insert ctx cs a t :
  contexts ctx cs → ctx !! a = None → contexts ctx (<[a := t]> cs).
Proof.
  intros Hc Ha x v Hx. rewrite lookup_insert_ne by (intros ->; congruence). by apply Hc.
Qed.

Lemma contexts_park ctx cs a v t :
  contexts ctx cs → resumes_as a v t → contexts (<[a := v]> ctx) (<[a := t]> cs).
Proof.
  intros Hc Ht x w Hx. destruct (decide (a = x)) as [->|Hne].
  - rewrite lookup_insert_eq in Hx. injection Hx as <-. exists t. by rewrite lookup_insert_eq.
  - rewrite lookup_insert_ne in Hx by done. destruct (Hc x w Hx) as (t' & E & Ht').
    exists t'. by rewrite lookup_insert_ne.
Qed.

(** ** Resuming *)

(** What [nty_coroutine_resume] does once the coroutine is back. *)
Definition resume_end (a : addr) (t : prog unit) : ST mach Z :=
  set_ctx (Some a) t;;
  in_mem (sched_update (set_curr_thread NULL));;
  c ← in_mem (co_load (Some a));
  if has_bit (co_status c) NTY_COROUTINE_STATUS_EXITED then
    when (has_bit (co_status c) NTY_COROUTINE_STATUS_DETACH) (in_mem (nty_coroutine_free (Some a)));;
    mret (-1)%Z
  else mret 0%Z.

Lemma resume_end_parked a v g t s :
  Parked a v g (mc_mem s) → not_exited a (mc_mem s) → resumes_as a v t →
  contexts (g_ctx g) (mc_ctx s) →
  wpe tolerated (resume_end a t)
    (λ _ s', ran a (g_ctx g) (g_ready g) (g_num g) (g_evs g) s') s.
Proof.
  intros (D & lw & lr & new & sc & c & Hs & _ & Ha) Hne Hres Hc.
  apply wpe_bind. simpl.
  apply wpe_in_mem_bind. eapply wp_sched_update; [by apply sn_sched in Hs|].
  apply wpe_in_mem_bind. eapply wp_co_load; [exact Ha|]. rewrite (Hne c Ha).
  exists (<[a := v]> (g_ctx g)), new. split; [right; by exists v|]. split.
  - exists D, lw. eexists. rewrite <- (sn_new _ _ _ _ _ _ _ _ Hs : _ = g_ready g ++ _).
    eapply (sane_leave a (g_park a v g)); [exact Hs|].
    destruct v as [fd|]; [right|left].
    + eapply (sn_wait_ctx _ _ _ _ _ _ _ _ Hs a fd). apply lookup_insert_eq.
    + eapply (sn_ready_ctx _ _ _ _ _ _ _ _ Hs a). apply lookup_insert_eq.
  - by apply contexts_park.
Qed.

Lemma resume_end_exited a g t s :
  Exited a g (mc_mem s) → contexts (g_ctx g) (mc_ctx s) →
  wpe tolerated (resume_end a t)
    (λ _ s', ran a (g_ctx g) (g_ready g) (g_num g) (g_evs g) s') s.
Proof.
  intros (D & lw & lr & new & sc & c & Hs & Hr & Hg & Ha & Hx & Hd) Hc.
  apply wpe_bind. simpl.
  apply wpe_in_mem_bind. eapply wp_sched_update; [by apply sn_sched in Hs|].
  apply wpe_in_mem_bind. eapply wp_co_load; [exact Ha|]. rewrite Hx, Hd. simpl.
  apply wpe_in_mem_bind. eapply wp_mono; [by eapply sane_free|].
  cbv beta. intros _ m1 (sc' & Hs'). exists (g_ctx g), new. split; [by left|]. split.
  - exists (D ∖ {[a]}), lw, sc'. by rewrite <- (sn_new _ _ _ _ _ _ _ _ Hs).
  - by apply contexts_insert.
Qed.

Lemma resume_end_spec a g t s :
  switch a (runs a t) g (mc_mem s) → contexts (g_ctx g) (mc_ctx s) →
  wpe tolerated (resume_end a t)
    (λ _ s', ran a (g_ctx g) (g_ready g) (g_num g) (g_evs g) s') s.
Proof.
  intros [(HP & Hne & HK)|[(fd & HP & Hne & HK)|HE]] Hc.
  - by eapply (resume_end_parked a None).
  - by eapply (resume_end_parked a (Some fd)).
  - by apply resume_end_exited.
Qed.

(** From the switch into the coroutine on. *)
Definition resume_switch (fuel : nat) (a : addr) : ST mach Z :=
  in_mem (sched_update (set_curr_thread (Some a)));;
  t ← get_ctx (Some a);
  t ← in_mem (run_ctx fuel t);
  resume_end a t.

Lemma resume_switch_spec fuel a v g t sc s :
  m_sched (mc_mem s) = Some sc → mc_ctx s !! a = Some t → resumes_as a v t →
  contexts (g_ctx g) (mc_ctx s) →
  (let m := with_sched (Some (set_curr_thread (Some a) sc)) (mc_mem s) in
   match v with None => Run a g m | Some fd => Parked a (Some fd) g m end) →
  wpe tolerated (resume_switch fuel a)
    (λ _ s', ran a (g_ctx g) (g_ready g) (g_num g) (g_evs g) s') s.
Proof.
  intros Hsc Ht Hres Hc Hm. unfold resume_switch.
  apply wpe_in_mem_bind. eapply wp_sched_update; [exact Hsc|].
  apply wpe_bind. unfold wpe at 1, get_ctx. cbn [mc_ctx]. rewrite Ht.
  apply wpe_bind, wpe_in_mem.
  eapply wpe_mono; [apply run_ctx_spec, Hres; exact Hm|].
  cbv beta. intros t' m' Hsw. by apply resume_end_spec.
Qed.

Lemma resumes_as_exec a : resumes_as a None (_exec code (Some a)).
Proof. intros g m HR n. by apply (tr_exec code code_quiet a). Qed.

(** A coroutine just taken from the ready queue: it was never run, or may go on. *)
Definition startable (a : addr) (c : nty_coroutine) s : Prop :=
  is_new c ∨ clean c ∧ ∃ t, mc_ctx s !! a = Some t ∧ resumes_as a None t.

Lemma resume_ready fuel a ctx lr num evs D lw sc c s :
  m_sched (mc_mem s) = Some sc →
  sane (Some a) (Ghost ctx lr num evs) D lw lr [] (set_curr_thread (Some a) sc)
    (with_sched (Some (set_curr_thread (Some a) sc)) (mc_mem s)) →
  a ∉ lr → ctx !! a = None → m_cos (mc_mem s) !! a = Some c → startable a c s →
  contexts ctx (mc_ctx s) →
  wpe tolerated (nty_coroutine_resume code fuel (Some a)) (λ _ s', ran a ctx lr num evs s') s.
Proof.
  intros Hsc Hs Hr Hg Ha Hst Hc. unfold nty_coroutine_resume.
  apply wpe_in_mem_bind. eapply wp_co_load; [exact Ha|].
  change (wpe tolerated ((if has_bit (co_status c) NTY_COROUTINE_STATUS_NEW then
    in_mem (nty_coroutine_init (Some a));; set_ctx (Some a) (_exec code (Some a))
    else get_ctx (Some a);; mret tt);; resume_switch fuel a) (λ _ s', ran a ctx lr num evs s')
    (Machine (mc_mem s) (mc_ctx s))).
  set (g := Ghost ctx lr num evs) in *.
  destruct Hst as [Hnew|(Hcl & t & Ht & Hres)].
  - unfold is_new in Hnew. rewrite Hnew. simpl (has_bit _ _). apply wpe_bind.
    apply wpe_in_mem_bind. eapply wp_bind, wp_co_sched; [exact Ha|exact Hsc|].
    eapply wp_co_update; [exact Ha|].
    set (c' := set_co_status (BIT NTY_COROUTINE_STATUS_READY) c).
    eapply (resume_switch_spec fuel a None g _ sc).
    + exact Hsc.
    + apply lookup_insert_eq.
    + apply resumes_as_exec.
    + by apply contexts_insert.
    + exists D, lw, lr, [], (set_curr_thread (Some a) sc), c'.
      split_and!; [|done|done|apply lookup_insert_eq|by split_and!].
      pose proof (sane_not_waiting _ _ _ _ _ _ _ _ _ Hs Hg) as Hw.
      by apply (sane_update _ _ _ _ _ _ _ _ a c c' Hs Ha Hw Hr).
  - destruct Hcl as (Hn & Hf & Hx). rewrite Hn. apply wpe_bind, wpe_bind.
    unfold wpe at 1, get_ctx. cbn [mc_ctx]. rewrite Ht.
    eapply (resume_switch_spec fuel a None g t sc (Machine (mc_mem s) (mc_ctx s))); try done.
    exists D, lw, lr, [], (set_curr_thread (Some a) sc), c. by split_and!.
Qed.

(** A coroutine whose descriptor has an event. *)
Lemma resume_waiting fuel a fd ctx lr num evs D lw sc c t s :
  m_sched (mc_mem s) = Some sc →
  sane (Some a) (g_park a (Some fd) (Ghost ctx lr num evs)) D lw lr [] (set_curr_thread (Some a) sc)
    (with_sched (Some (set_curr_thread (Some a) sc)) (mc_mem s)) →
  ctx !! a = None → m_cos (mc_mem s) !! a = Some c →
  has_bit (co_status c) NTY_COROUTINE_STATUS_NEW = false →
  mc_ctx s !! a = Some t → resumes_as a (Some fd) t → contexts ctx (mc_ctx s) →
  wpe tolerated (nty_coroutine_resume code fuel (Some a)) (λ _ s', ran a ctx lr num evs s') s.
Proof.
  intros Hsc Hs Hg Ha Hn Ht Hres Hc. unfold nty_coroutine_resume.
  apply wpe_in_mem_bind. eapply wp_co_load; [exact Ha|]. rewrite Hn. apply wpe_bind, wpe_bind.
  unfold wpe at 1, get_ctx. cbn [mc_ctx]. rewrite Ht.
  eapply (resume_switch_spec fuel a (Some fd) (Ghost ctx lr num evs) t sc
    (Machine (mc_mem s) (mc_ctx s))); try done.
  exists D, lw, lr, [], (set_curr_thread (Some a) sc), c. by split_and!.
Qed.

(** ** The three loops *)

Lemma resting_sched ctx lr num evs s : resting ctx lr num evs s → ∃ sc, m_sched (mc_mem s) = Some sc.
Proof. intros [(D & lw & sc & Hs) _]. exists sc. by eapply sn_sched. Qed.

Lemma resting_sys ctx lr num evs m cs e k :
  resting ctx lr num evs (Machine m cs) → wakeable k ⊆ wakeable (m_kernel m) →
  resting ctx lr num evs (Machine (sys_result e k m) cs).
Proof. intros [(D & lw & sc & Hs) Hc] Hk. split; [|done]. exists D, lw, sc. by apply sane_sys. Qed.

(** Nobody sleeps, so nobody is woken. *)
Lemma run_expired_spec fuel n ctx lr num evs s :
  resting ctx lr num evs s →
  wpe tolerated (run_expired code fuel n) (λ _ s', resting ctx lr num evs s') s.
Proof.
  intros HR. destruct n as [|n]; [by left|]. simpl. apply wpe_in_mem_bind.
  pose proof HR as [(D & lw & sc & Hs) Hc].
  destruct (sys sys_gettimeofday (m_kernel (mc_mem s))) as [[t e] k] eqn:Hk.
  eapply wp_mono; [eapply expired_spec; [by eapply sn_wf|by eapply sn_sched|done]|].
  cbv beta. intros r m' [-> ->]. destruct s as [m cs]. apply resting_sys; [done|].
  by pose proof (other_wakeable _ _ _ _ _ Hk).
Qed.

Definition pop (a : addr) : ST mach unit := in_mem (co_sched (Some a);; ready (queue_remove (Some a))).

Lemma pop_spec a ctx lr num evs s :
  resting ctx (a :: lr) num evs s → ∃ s' c D lw sc, pop a s = Ok (tt, s') ∧
    m_sched (mc_mem s') = Some sc ∧ m_cos (mc_mem s') !! a = Some c ∧
    has_bit (co_status c) NTY_COROUTINE_STATUS_FDEOF = false ∧
    sane (Some a) (Ghost (delete a ctx) lr num evs) D lw lr [] (set_curr_thread (Some a) sc)
      (with_sched (Some (set_curr_thread (Some a) sc)) (mc_mem s')) ∧
    (a ∉ lr) ∧ startable a c s' ∧ contexts (delete a ctx) (mc_ctx s').
Proof.
  intros [(D & lw & sc & Hs) Hc]. pose proof (sn_sched _ _ _ _ _ _ _ _ Hs) as Hsc.
  assert (wp (co_sched (Some a);; ready (queue_remove (Some a))) (λ _ m', ∃ q c, m' = with_ready q (mc_mem s) ∧
    let s' := set_curr_thread (Some a) sc in
    sane (Some a) (Ghost (delete a ctx) lr num evs) D lw lr [] s' (with_sched (Some s') m') ∧
    (a ∉ lr) ∧ m_cos (mc_mem s) !! a = Some c ∧
    (is_new c ∧ ctx !! a = None ∨ ctx !! a = Some None ∧ clean c)) (mc_mem s)) as Hpop.
  { destruct (sn_ready _ _ _ _ _ _ _ _ Hs a) as (c & Ha & _); [by left|].
    eapply wp_bind, wp_co_sched; [exact Ha|exact Hsc|]. by apply sane_pop. }
  apply wp_ok in Hpop as ([] & m' & E & q & c & -> & Hs' & Hr & Ha & Hst).
  exists (Machine (with_ready q (mc_mem s)) (mc_ctx s)), c, D, lw, sc. split_and!; try done.
  - unfold pop, in_mem, zoom. by rewrite E.
  - destruct Hst as [[-> _]|[_ Hcl]]; [done|apply Hcl].
  - destruct Hst as [[? _]|[Hctx Hcl]]; [by left|right]. split; [done|]. by apply Hc in Hctx.
  - intros x v Hx. apply Hc. by apply lookup_delete_Some in Hx as [_ Hx].
Qed.

(** The reference for a pass over the ready queue: the coroutines of [l] are taken from
    the queue and resumed, one after the other. *)
Fixpoint run_list (fuel : nat) (l : list addr) : ST mach unit :=
  match l with
  | [] => mret tt
  | a :: l => pop a;; nty_coroutine_resume code fuel (Some a);; run_list fuel l
  end.

(** One coroutine of the pass. *)
Lemma ready_step fuel a ctx lr num evs s s1 :
  resting ctx (a :: lr) num evs s → pop a s = Ok (tt, s1) →
  wpe tolerated (nty_coroutine_resume code fuel (Some a))
    (λ _ s', ∃ ctx' more, resting ctx' (lr ++ more) num evs s') s1.
Proof.
  intros HR E. destruct (pop_spec _ _ _ _ _ _ HR)
    as (s1' & c & D & lw & sc & E' & Hsc & Ha & _ & Hs & Hr & Hst & Hc).
  rewrite E in E'. injection E' as <-. eapply wpe_mono.
  { eapply resume_ready; try done. apply lookup_delete_eq. }
  cbv beta. intros _ s' (ctx' & more & _ & HR'). by exists ctx', more.
Qed.

(** One turn of the loop of the pass. *)
Lemma run_ready_step last_co_ready fuel n a ctx lr num evs s :
  resting ctx (a :: lr) num evs s →
  run_ready code last_co_ready fuel (S n) s =
    (pop a;; nty_coroutine_resume code fuel (Some a);;
     if decide (Some a = last_co_ready) then mret tt else run_ready code last_co_ready fuel n) s.
Proof.
  intros HR. pose proof HR as [(D & lw & sc & Hs) _].
  assert (wp (nty_coroutine_get_sched;; ready queue_empty) (λ r m', r = false ∧ m' = mc_mem s)
    (mc_mem s)) as He.
  { eapply wp_bind, wp_get_sched; [by eapply sn_sched|].
    eapply wp_ready_empty; [by eapply sn_wf|]. done. }
  assert (wp (ready queue_first) (λ r m', r = Some a ∧ m' = mc_mem s) (mc_mem s)) as Hf.
  { eapply wp_ready_first; [by eapply sn_wf|]. done. }
  apply wp_ok in He as (r & m' & Ee & -> & ->). apply wp_ok in Hf as (r & m' & Ef & -> & ->).
  destruct (pop_spec _ _ _ _ _ _ HR) as (s1 & c & D1 & lw1 & sc1 & Ep & _ & Ha & Hfd & _).
  assert (∀ {A} (o : ST (mem T Qt) A) x, o (mc_mem s) = Ok (x, mc_mem s) →
    in_mem o s = Ok (x, s)) as Hin.
  { intros A o x E. unfold in_mem, zoom. rewrite E. by destruct s. }
  assert (in_mem (co_load (Some a)) s1 = Ok (c, s1)) as El.
  { unfold in_mem, zoom, co_load. rewrite Ha. by destruct s1. }
  cbn [run_ready].
  rewrite (bind_ok _ _ _ _ _ (Hin _ _ _ Ee)), (bind_ok _ _ _ _ _ (Hin _ _ _ Ef)).
  fold (pop a). by rewrite !(bind_ok _ _ _ _ _ Ep), (bind_ok _ _ _ _ _ El), Hfd.
Qed.

(** The pass resumes the coroutines that were ready when it began, each once, in the
    order of the queue; those queued meanwhile stay for the next pass. *)
Lemma run_ready_list fuel l : ∀ n ctx more num evs s,
  resting ctx (l ++ more) num evs s → l ≠ [] → length l ≤ n →
  run_ready code (last l) fuel n s = run_list fuel l s.
Proof.
  induction l as [|a l IH]; intros n ctx more num evs s HR Hne Hn; [done|].
  destruct n as [|n]; [simpl in Hn; lia|]. simpl in Hn.
  rewrite (run_ready_step _ _ _ _ _ _ _ _ _ HR). cbn [run_list].
  destruct (pop_spec _ _ _ _ _ _ HR) as (s1 & c & D1 & lw1 & sc1 & Ep & _).
  rewrite !(bind_ok _ _ _ _ _ Ep).
  pose proof (ready_step fuel _ _ _ _ _ _ _ HR Ep) as Hstep. unfold wpe in Hstep.
  destruct (nty_coroutine_resume code fuel (Some a) s1) as [[z s2]|e] eqn:Er;
    [|by rewrite !(bind_err _ _ _ _ Er)].
  rewrite !(bind_ok _ _ _ _ _ Er). destruct Hstep as (ctx' & more' & HR').
  destruct l as [|b l]; [by rewrite decide_True|].
  rewrite last_cons_cons. rewrite decide_False.
  - eapply (IH n ctx' (more ++ more')); [|done|lia]. rewrite app_assoc. exact HR'.
  - intros E. destruct HR as [(D & lw & sc & Hs) _].
    assert (NoDup ((a :: b :: l) ++ more)) as Hnd
      by (eapply queue_rep_NoDup, wf_ready; by eapply sn_wf).
    symmetry in E. apply last_Some_elem_of in E.
    rewrite <- app_comm_cons in Hnd. apply NoDup_cons in Hnd as [Hnin _]. apply Hnin.
    apply elem_of_app. by left.
Qed.

Lemma run_ready_spec last_co_ready fuel n : ∀ ctx lr num evs s,
  resting ctx lr num evs s →
  wpe tolerated (run_ready code last_co_ready fuel n) (λ _ s', ∃ ctx' lr', resting ctx' lr' num evs s') s.
Proof.
  induction n as [|n IH]; intros ctx lr num evs s HR; [by left|].
  destruct lr as [|a lr].
  - cbn [run_ready]. pose proof HR as [(D & lw & sc & Hs) _].
    apply wpe_in_mem_bind. eapply wp_bind, wp_get_sched; [by eapply sn_sched|].
    eapply wp_ready_empty; [by eapply sn_wf|]. exists ctx, []. by destruct s.
  - unfold wpe at 1. rewrite (run_ready_step _ _ _ _ _ _ _ _ _ HR).
    destruct (pop_spec _ _ _ _ _ _ HR) as (s1 & c & D1 & lw1 & sc1 & Ep & _).
    rewrite (bind_ok _ _ _ _ _ Ep).
    change (wpe tolerated (nty_coroutine_resume code fuel (Some a);;
      if decide (Some a = last_co_ready) then mret tt else run_ready code last_co_ready fuel n)
      (λ _ s', ∃ ctx' lr', resting ctx' lr' num evs s') s1).
    apply wpe_bind. eapply wpe_mono; [by eapply ready_step|].
    cbv beta. intros _ s2 (ctx' & more & HR'). destruct (decide _).
    + by exists ctx', (lr ++ more).
    + by eapply IH.
Qed.

(** ** Events *)

(** The first [num] events of [evs] are for different descriptors somebody waits for. *)
Definition pending (ctx : gmap addr (option Z)) (num : Z) (evs : list epoll_event) : Prop :=
  (0 ≤ num ≤ NTY_CO_MAX_EVENTS)%Z ∧ NoDup (ev_fd <$> take (Z.to_nat num) evs) ∧
  Z.to_nat num ≤ length evs ∧
  ∀ ev, ev ∈ take (Z.to_nat num) evs → ∃ x, ctx !! x = Some (Some (ev_fd ev)).

Lemma pending_none ctx evs : pending ctx 0 evs.
Proof. split_and!; [done|done|constructor|simpl; lia|]. by intros ev ?%not_elem_of_nil. Qed.

(** The last event, and those before it. *)
Lemma pending_pop ctx num evs :
  pending ctx num evs → num ≠ 0%Z → ∃ ev, evs !! Z.to_nat (num - 1) = Some ev ∧
    (∃ x, ctx !! x = Some (Some (ev_fd ev))) ∧
    ∀ x ctx', ctx !! x = Some (Some (ev_fd ev)) →
      (∀ y, x ≠ y → ctx' !! y = ctx !! y) → pending ctx' (num - 1) evs.
Proof.
  intros (Hnum & Hnd & Hlen & Hev) Hne.
  destruct (lookup_lt_is_Some_2 evs (Z.to_nat (num - 1))) as [ev Hl]; [lia|].
  assert (take (Z.to_nat num) evs = take (Z.to_nat (num - 1)) evs ++ [ev]) as Et.
  { replace (Z.to_nat num) with (S (Z.to_nat (num - 1))) by lia. by apply take_S_r. }
  rewrite Et in Hnd, Hev. exists ev. split_and!; [done|apply Hev; set_solver|].
  rewrite fmap_app, NoDup_app in Hnd. destruct Hnd as (Hnd & Hdisj & _).
  intros x ctx' Hx Hctx. split_and!; [lia|lia|done|lia|].
  intros ev' Hin. destruct (Hev ev') as (y & Hy); [set_solver|]. exists y.
  rewrite Hctx; [done|]. intros ->. assert (ev_fd ev' = ev_fd ev) as E by congruence.
  apply (Hdisj (ev_fd ev')); [by apply list_elem_of_fmap_2|]. rewrite E. set_solver.
Qed.

Lemma epoll_retry_spec n : ∀ ctx lr num evs D lw sc m,
  sane NULL (Ghost ctx lr num evs) D lw lr [] sc m →
  wpe tolerated (epoll_retry n (epoll_timespec 3000000)) (λ r m', ∃ num' evs' sc',
    sane NULL (Ghost ctx lr num' evs') D lw lr [] sc' m' ∧ pending ctx r evs') m.
Proof.
  induction n as [|n IH]; intros ctx lr num evs D lw sc m Hs; [by left|]. cbn [epoll_retry].
  apply wpe_bind, wpe_wp_bind. unfold nty_epoller_wait.
  eapply wp_get_sched; [by eapply sn_sched|]. apply wpe_wp_bind.
  eapply wp_of_res; [done|]. apply wpe_wp_bind, wp_syscall. intros [r evs'] e k Hk.
  assert (wakeable k ⊆ wakeable (m_kernel m)) as Hk1 by by pose proof (other_wakeable _ _ _ _ _ Hk).
  pose proof (sane_sys _ _ _ _ _ _ _ _ e k Hs Hk1) as Hs1.
  set (m1 := sys_result e k m) in *. apply wpe_wp_bind.
  eapply wp_sched_update; [by eapply sn_sched|]. apply wpe_of_wp, wp_ret.
  assert (sane NULL (Ghost ctx lr num evs') D lw lr [] (set_eventlist evs' sc)
    (with_sched (Some (set_eventlist evs' sc)) m1)) as Hs2.
  { eapply sane_events; [exact Hs1|done..|by eapply (sn_num _ _ _ _ _ _ _ _ Hs)|done]. }
  destruct (r =? -1)%Z eqn:Er.
  - apply wpe_wp_bind, wp_gets. destruct (_ =? EINTR)%Z; [by eapply IH|]. by right.
  - apply Z.eqb_neq in Er. apply wpe_of_wp, wp_ret. exists num, evs'. eexists. split; [exact Hs2|].
    destruct (epoll_wait_events _ _ _ _ _ _ _ _ Hk) as (-> & Hr & Hnd & Hin); [done|done|].
    assert (take (length evs') evs' = evs') as Et by by apply take_ge.
    unfold pending. rewrite Nat2Z.id, Et. split_and!; [lia|done|done|lia|].
    intros ev Hev. apply Hin, (sn_wake _ _ _ _ _ _ _ _ Hs), elem_of_wait_fds in Hev as (x & Hx & Ex).
    exists x. rewrite <- Ex. by apply (sn_wait _ _ _ _ _ _ _ _ Hs).
Qed.

(** With nobody asleep the wait is the default of three seconds. *)
Lemma epoll_spec n ctx lr num evs s :
  resting ctx lr num evs s →
  wpe tolerated (in_mem (nty_schedule_epoll n)) (λ _ s', ∃ num' evs',
    resting ctx lr num' evs' s' ∧ pending ctx num' evs') s.
Proof.
  intros [(D & lw & sc & Hs) Hc]. apply wpe_in_mem. unfold nty_schedule_epoll.
  eapply wpe_wp_bind, wp_sched_update; [by eapply sn_sched|].
  set (sc0 := set_num_new_events 0 sc). set (m0 := with_sched (Some sc0) (mc_mem s)).
  assert (sane NULL (Ghost ctx lr 0 evs) D lw lr [] sc0 m0) as Hs0
    by (eapply sane_events; [exact Hs|done..|by eapply (sn_evs _ _ _ _ _ _ _ _ Hs)]).
  clearbody m0. destruct (sys sys_gettimeofday (m_kernel m0)) as [[t e] k] eqn:Hk.
  apply wpe_wp_bind. eapply wp_mono.
  { eapply min_timeout_spec; [by eapply sn_wf|by eapply sn_sched|exact Hk]. }
  cbv beta. intros usecs m1 [-> ->].
  rewrite (sn_timeout _ _ _ _ _ _ _ _ Hs0).
  assert (sane NULL (Ghost ctx lr 0 evs) D lw lr [] sc0 (sys_result e k m0)) as Hs1.
  { apply sane_sys; [done|]. by pose proof (other_wakeable _ _ _ _ _ Hk). }
  set (m1 := sys_result e k m0) in *. clearbody m1.
  apply wpe_wp_bind. eapply wp_ready_empty; [by eapply sn_wf|].
  destruct (negb (3000000 =? 0)%Z && bool_decide (lr = [])).
  - apply wpe_bind. eapply wpe_mono; [by eapply epoll_retry_spec|].
    cbv beta. intros r m2 (num' & evs' & sc2 & Hs2 & Hp).
    eapply wpe_wp_bind, wp_sched_update; [by eapply sn_sched|].
    eapply wpe_wp_bind, wp_sched_update; [done|]. apply wpe_of_wp, wp_ret.
    exists r, evs'. split; [|done]. split; [|done]. exists D, lw. eexists.
    change (with_sched (Some ?x) (with_sched _ m2)) with (with_sched (Some x) m2).
    eapply sane_events; [exact Hs2|done..|by eapply (sn_evs _ _ _ _ _ _ _ _ Hs2)].
  - apply wpe_of_wp, wp_ret. exists 0%Z, evs. split; [|apply pending_none].
    split; [|done]. by exists D, lw, sc0.
Qed.

(** An event wakes up the coroutine that waits for its descriptor. *)
Definition event_step (fuel : nat) (ev : epoll_event) : ST mach unit :=
  let is_eof := test (ev_events ev) EPOLLHUP in
  when is_eof (in_mem (modify (with_errno ECONNRESET)));;
  co ← in_mem (nty_schedule_search_wait (ev_fd ev));
  match co with
  | Some _ =>
      when is_eof (in_mem (status_or co (BIT NTY_COROUTINE_STATUS_FDEOF)));;
      nty_coroutine_resume code fuel co;;
      mret tt
  | None => mret tt
  end.

Lemma event_spec fuel ev ctx lr num evs a s :
  resting ctx lr num evs s → ctx !! a = Some (Some (ev_fd ev)) →
  wpe tolerated (event_step fuel ev)
    (λ _ s', ran a (delete a ctx) lr num evs s') s.
Proof.
  intros [(D & lw & sc & Hs) Hc] Ha. unfold event_step. cbv zeta.
  set (is_eof := test _ _). clearbody is_eof. apply wpe_bind.
  assert (∀ s1, mc_ctx s1 = mc_ctx s → sane NULL (Ghost ctx lr num evs) D lw lr [] sc (mc_mem s1) →
    wpe tolerated (
      co ← in_mem (nty_schedule_search_wait (ev_fd ev));
      match co with
      | Some _ =>
          when is_eof (in_mem (status_or co (BIT NTY_COROUTINE_STATUS_FDEOF)));;
          nty_coroutine_resume code fuel co;; mret tt
      | None => mret tt
      end) (λ _ s', ran a (delete a ctx) lr num evs s') s1) as Hrest.
  2: { destruct is_eof; [|by apply Hrest]. by apply Hrest, sane_errno. }
  intros s1 Ecs Hs1. apply wpe_in_mem_bind. eapply wp_mono; [by eapply sane_wakeup|].
  cbv beta. intros r m2 (-> & c & -> & Hs2 & Hr & Hca). cbv zeta in Hs2. apply wpe_bind.
  set (m2 := with_cos _ _) in *. pose proof (sn_sched _ _ _ _ _ _ _ _ Hs1) as Hsc.
  assert (contexts (delete a ctx) (mc_ctx s1)) as Hc'.
  { rewrite Ecs. intros x v Hx. apply Hc. by apply lookup_delete_Some in Hx as [_ Hx]. }
  assert (∃ t, mc_ctx s1 !! a = Some t ∧ resumes_as a (Some (ev_fd ev)) t) as (t & Ht & Hres)
    by (rewrite Ecs; by apply Hc).
  assert (∀ c' m3, m_sched m3 = Some sc → m_cos m3 !! a = Some c' →
    has_bit (co_status c') NTY_COROUTINE_STATUS_NEW = false →
    sane (Some a) (g_park a (Some (ev_fd ev)) (Ghost (delete a ctx) lr num evs)) D lw lr []
      (set_curr_thread (Some a) sc) (with_sched (Some (set_curr_thread (Some a) sc)) m3) →
    wpe tolerated (nty_coroutine_resume code fuel (Some a);; mret tt)
      (λ _ s', ran a (delete a ctx) lr num evs s') (Machine m3 (mc_ctx s1))) as Hgo.
  { intros c' m3 E1 E2 E3 E4. apply wpe_bind. eapply wpe_mono.
    { eapply (resume_waiting fuel a (ev_fd ev)); try done. apply lookup_delete_eq. }
    cbv beta. done. }
  assert (m_cos m2 !! a = Some (set_co_status 0 c)) as Hca2 by apply lookup_insert_eq.
  destruct is_eof; [|by eapply Hgo].
  apply wpe_in_mem, wpe_of_wp. eapply wp_co_update; [exact Hca2|].
  eapply Hgo; [done|apply lookup_insert_eq|done|].
  exact (sane_update_waiting _ _ _ _ _ _ _
    (with_sched (Some (set_curr_thread (Some a) sc)) m2) a _
    (set_co_status (BIT NTY_COROUTINE_STATUS_FDEOF) (set_co_status 0 c)) Hs2 Hca2 Hr eq_refl).
Qed.

Lemma run_events_spec fuel n : ∀ ctx lr num evs s,
  resting ctx lr num evs s → pending ctx num evs →
  wpe tolerated (run_events code fuel n) (λ _ s', ∃ ctx' lr', resting ctx' lr' 0 evs s') s.
Proof.
  induction n as [|n IH]; intros ctx lr num evs s HR Hp; [by left|]. cbn [run_events].
  pose proof HR as [(D & lw & sc & Hs) Hc]. apply wpe_in_mem_bind.
  eapply wp_get_sched; [by eapply sn_sched|].
  rewrite (sn_num _ _ _ _ _ _ _ _ Hs), (sn_evs _ _ _ _ _ _ _ _ Hs). cbn [g_num g_evs].
  destruct (num =? 0)%Z eqn:E0.
  { apply Z.eqb_eq in E0. subst num. apply wpe_of_wp, wp_ret. exists ctx, lr. by destruct s. }
  apply Z.eqb_neq in E0.
  assert (0 ≤ num ≤ NTY_CO_MAX_EVENTS)%Z as Hnum by apply Hp. unfold NTY_CO_MAX_EVENTS in Hnum.
  rewrite i32_small by lia.
  destruct (pending_pop _ _ _ Hp E0) as (ev & Hl & (a & Ha) & Hp').
  apply wpe_in_mem_bind. eapply wp_sched_update; [by eapply sn_sched|]. rewrite Hl.
  apply wpe_wp_bind. eapply wp_of_res; [by rewrite (proj2 (Z.ltb_ge _ _)) by lia|].
  assert (resting ctx lr (num - 1) evs
    (Machine (with_sched (Some (set_num_new_events (num - 1) sc)) (mc_mem s)) (mc_ctx s))) as HR1.
  { split; [|done]. exists D, lw. eexists.
    eapply sane_events; [exact Hs|done..|by eapply (sn_evs _ _ _ _ _ _ _ _ Hs)]. }
  cbn [mc_mem mc_ctx]. set (s1 := Machine _ _) in *. clearbody s1.
  pose proof (event_spec fuel ev _ _ _ _ _ _ HR1 Ha) as Hev.
  assert (wpe tolerated (event_step fuel ev;; run_events code fuel n)
    (λ _ s', ∃ ctx' lr', resting ctx' lr' 0 evs s') s1) as Hgo.
  { apply wpe_bind. eapply wpe_mono; [exact Hev|]. cbv beta. intros _ s2 (ctx' & more & Hctx & HR2).
    eapply IH; [exact HR2|]. apply (Hp' a); [done|]. intros y Hy.
    destruct Hctx as [->|[v ->]]; rewrite ?lookup_insert_ne by done; by rewrite lookup_delete_ne. }
  unfold wpe in *. revert Hgo. unfold event_step. cbv zeta. rewrite !bind_assoc.
  erewrite bind_ext; [intros Hgo; exact Hgo|]. intros [] s2. simpl.
  rewrite !bind_assoc. apply bind_ext. intros co s3. destruct co; [|done].
  by rewrite !bind_assoc.
Qed.

(** ** The scheduling loop *)

Definition at_rest s : Prop := ∃ ctx lr num evs, resting ctx lr num evs s.

Lemma schedule_turn_spec fuel s :
  at_rest s → wpe tolerated (schedule_turn code fuel) (λ _ s', at_rest s') s.
Proof.
  intros (ctx & lr & num & evs & HR). unfold schedule_turn. apply wpe_bind.
  eapply wpe_mono; [by apply run_expired_spec|]. cbv beta. intros _ s1 HR1.
  pose proof HR1 as [(D & lw & sc & Hs) _].
  apply wpe_in_mem_bind. eapply wp_bind, wp_get_sched; [by eapply sn_sched|].
  eapply wp_ready_last; [by eapply sn_wf|]. destruct s1 as [m1 cs1]. cbn [mc_mem mc_ctx].
  apply wpe_bind. eapply wpe_mono; [by eapply run_ready_spec|].
  cbv beta. intros _ s2 (ctx2 & lr2 & HR2). apply wpe_bind.
  eapply wpe_mono; [by eapply epoll_spec|]. cbv beta. intros _ s3 (num3 & evs3 & HR3 & Hp).
  eapply wpe_mono; [by eapply run_events_spec|]. cbv beta. intros _ s4 (ctx4 & lr4 & HR4).
  by exists ctx4, lr4, 0%Z, evs3.
Qed.

(** When the loop stops no coroutine is left. *)
Lemma schedule_loop_spec fuel n : ∀ s,
  at_rest s →
  wpe tolerated (schedule_loop code fuel n) (λ _ s', is_Some (m_sched (mc_mem s')) ∧ m_cos (mc_mem s') = ∅) s.
Proof.
  induction n as [|n IH]; intros s HR; [by left|]. cbn [schedule_loop].
  pose proof HR as (ctx & lr & num & evs & (D & lw & sc & Hs) & _). apply wpe_in_mem_bind.
  eapply wp_mono; [eapply isdone_spec; [by eapply sn_wf|by eapply sn_sched]|].
  cbv beta. intros r m' [-> ->]. case_bool_decide as Hdone.
  - destruct Hdone as (-> & _ & _ & ->). apply wpe_of_wp, wp_ret. cbn [mc_mem].
    split; [eexists; by eapply sn_sched|].
    apply dom_empty_iff_L. rewrite (wf_dom _ _ _ _ _ (sn_wf _ _ _ _ _ _ _ _ Hs)).
    apply set_eq. intros x. split; [|set_solver]. intros Hx. exfalso.
    destruct (sn_all _ _ _ _ _ _ _ _ Hs x Hx) as [?|[?%not_elem_of_nil|?%not_elem_of_nil]]; done.
  - apply wpe_bind. destruct s as [m cs]. cbn [mc_mem mc_ctx].
    eapply wpe_mono; [by apply schedule_turn_spec|]. cbv beta. intros _ s1. apply IH.
Qed.

Lemma schedule_free_spec m :
  is_Some (m_sched m) → wp nty_schedule_free (λ _ m', m_sched m' = None ∧ m_cos m' = m_cos m) m.
Proof.
  intros [sc Hsc]. unfold nty_schedule_free. eapply wp_bind, wp_get_sched; [exact Hsc|].
  assert (∀ fd (b : bool) (Q : unit → mem T Qt → Prop) m1,
    (∀ m2, m_cos m2 = m_cos m1 → Q tt m2) →
    wp (if b then syscall (sys_close fd);; mret tt else mret tt) Q m1) as Hclose.
  { intros fd b Q m1 HQ. destruct b; [|by apply HQ].
    apply wp_bind, wp_syscall. intros r e k _. apply wp_ret, HQ. by destruct e. }
  apply wp_bind, Hclose. intros m2 E2. apply wp_bind, Hclose. intros m3 E3.
  apply wp_modify. split; [done|]. simpl. by rewrite E3, E2.
Qed.

Definition all_over s : Prop := m_sched (mc_mem s) = None ∧ m_cos (mc_mem s) = ∅.

Lemma schedule_run_spec fuel s :
  at_rest s ∨ all_over s → wpe tolerated (nty_schedule_run code fuel) (λ _ s', all_over s') s.
Proof.
  intros [HR|Hover]; unfold nty_schedule_run; apply wpe_in_mem_bind, wp_gets.
  - pose proof HR as (ctx & lr & num & evs & (D & lw & sc & Hs) & _).
    rewrite (sn_sched _ _ _ _ _ _ _ _ Hs). rewrite bool_decide_true by eauto. simpl.
    apply wpe_bind. destruct s as [m cs]. cbn [mc_mem mc_ctx].
    eapply wpe_mono; [by apply schedule_loop_spec|]. cbv beta. intros _ s1 [Hsc Hcos].
    apply wpe_in_mem, wpe_of_wp. eapply wp_mono; [by apply schedule_free_spec|].
    cbv beta. intros _ m2 [E1 E2]. split; [done|]. simpl. by rewrite E2.
  - destruct Hover as [E ?]. rewrite E. rewrite bool_decide_false by (by intros []). simpl.
    apply wpe_of_wp, wp_ret. by split.
Qed.
End machine.
