(* ===== verification/Boot.v ===== *)
(** Creating the scheduler ([nty_schedule_create]) and whole programs ([main_program]). *)

From S2P Require Export MachineSafe.

Section boot.
Context `{OSLaws} {T Qt : Type} `{TreeLaws T} `{QueueLaws Qt}.
Implicit Types m : mem T Qt.

(** No scheduler, no coroutine, no descriptor of interest. *)
Record pristine m : Prop := {
  fr_cos : m_cos m = ∅;
  fr_sleeping : m_sleeping m = tree_none;
  fr_waiting : m_waiting m = tree_none;
  fr_ready : m_ready m = queue_none;
  fr_defer : m_defer m = queue_none;
  fr_sched : m_sched m = None;
  fr_wake : wakeable (m_kernel m) ⊆ ∅;
}.

(** What the setup changes: the scheduler, [errno] and the system. *)
Definition same_data m m' : Prop :=
  m_cos m' = m_cos m ∧ m_sleeping m' = m_sleeping m ∧ m_waiting m' = m_waiting m ∧
  m_ready m' = m_ready m ∧ m_defer m' = m_defer m ∧
  wakeable (m_kernel m') ⊆ wakeable (m_kernel m).

Lemma same_data_refl m : same_data m m.
Proof. by split_and!. Qed.

Lemma same_data_trans m m' m'' : same_data m m' → same_data m' m'' → same_data m m''.
Proof. unfold same_data. intros; split_hyps. split_and!; (congruence || set_solver). Qed.

Lemma same_data_sys e k m : wakeable k ⊆ wakeable (m_kernel m) → same_data m (sys_result e k m).
Proof. intros. by destruct e. Qed.

(** A call other than [epoll_ctl]. *)
Lemma wp_harmless {A} (sc : sysE A) (Q : A → mem T Qt → Prop) m :
  match sc with sys_epoll_ctl _ _ _ _ => False | _ => True end →
  (∀ r e k, sys sc (m_kernel m) = (r, e, k) → same_data m (sys_result e k m) →
    m_sched (sys_result e k m) = m_sched m → Q r (sys_result e k m)) →
  wp (syscall sc) Q m.
Proof.
  intros Hsc HQ. apply wp_syscall. intros r e k Hk. apply (HQ _ _ _ Hk); [|by destruct e].
  apply same_data_sys. pose proof (other_wakeable _ _ _ _ _ Hk). by destruct sc.
Qed.

(** The event descriptor is created and registered; it wakes nobody. *)
Lemma register_trigger_spec s m :
  m_sched m = Some s → sched_eventfd s = 0%Z →
  wpe tolerated nty_epoller_ev_register_trigger
    (λ _ m', ∃ fd, m_sched m' = Some (set_eventfd fd s) ∧ same_data m m') m.
Proof.
  intros Hs Hfd. unfold nty_epoller_ev_register_trigger.
  eapply wpe_wp_bind, wp_get_sched; [exact Hs|]. rewrite Hfd. cbn [Z.eqb].
  apply wpe_bind, wpe_wp_bind. apply wp_harmless; [done|]. intros fd e k Hk Hd Hs1.
  set (m1 := sys_result e k m) in *.
  eapply wpe_wp_bind, wp_sched_update; [by rewrite Hs1|].
  destruct (fd =? -1)%Z eqn:E; [by right|]. apply Z.eqb_neq in E. apply wpe_of_wp, wp_ret.
  assert (fd ∈ quiet (m_kernel m1)) as Hq.
  { pose proof (eventfd_quiet _ _ _ _ _ _ Hk E). unfold m1. by destruct e. }
  clearbody m1. eapply wpe_wp_bind, wp_get_sched; [done|].
  apply wpe_wp_bind, wp_syscall. intros r e2 k2 Hk2. simpl in Hk2.
  pose proof (epoll_add_quiet _ _ _ _ _ _ _ Hk2 Hq) as Hw.
  set (m2 := with_sched _ m1) in *.
  assert (same_data m (sys_result e2 k2 m2)) as Hd2.
  { eapply same_data_trans; [exact Hd|]. by apply (same_data_sys e2 k2 m2). }
  assert (m_sched (sys_result e2 k2 m2) = Some (set_eventfd fd s)) as Hs2 by by destruct e2.
  destruct (r =? -1)%Z; [by right|]. apply wpe_of_wp, wp_ret. by exists fd.
Qed.

Lemma fresh_wf m1 m2 t1 t2 q1 q2 s m :
  pristine m → same_data m m1 → tree_rep t1 ∅ [] → tree_rep t2 ∅ [] → queue_rep q1 ∅ [] →
  queue_rep q2 ∅ [] →
  m2 = with_defer q2 (with_ready q1 (with_sched (Some s) (with_waiting t2 (with_sleeping t1 m1)))) →
  sched_curr_thread s = NULL → sched_default_timeout s = 3000000%Z →
  sched_num_new_events s = 0%Z → sched_eventlist s = [] →
  sane NULL (Ghost ∅ [] 0 []) ∅ [] [] [] s m2.
Proof.
  intros [] Hd Ht1 Ht2 Hq1 Hq2 -> E1 E2 E3 E4. destruct Hd as (Dc & _ & _ & _ & _ & Dw).
  constructor; simpl; try done.
  - constructor; simpl; try done; [|by constructor..].
    by rewrite Dc, fr_cos0, dom_empty_L.
  - set_solver.
  - by intros x ?%not_elem_of_nil.
  - by intros x ?%not_elem_of_nil.
Qed.

Lemma wp_zoom_same {S} (prj : mem T Qt → S) upd (o : ST S unit) (P : S → Prop) (Q : unit → mem T Qt → Prop) m :
  wp o (λ _, P) (prj m) → (∀ t, P t → Q tt (upd t m)) → wp (zoom prj upd o) Q m.
Proof. intros Ho HQ. eapply wp_zoom; [exact Ho|]. intros [] t. apply HQ. Qed.

(** [nty_schedule_create] builds an empty scheduler, or fails and leaves none. *)
Lemma schedule_create_spec stack_size m :
  pristine m →
  wpe tolerated (nty_schedule_create stack_size) (λ _ m', pristine m' ∨
    ∃ s, sane NULL (Ghost ∅ [] 0 []) ∅ [] [] [] s m') m.
Proof.
  intros Hf. unfold nty_schedule_create. cbv zeta.
  assert (∀ m', m_sched m' = None → same_data m m' → pristine m') as Hstay.
  { intros m' Hs (E1 & E2 & E3 & E4 & E5 & Hw). destruct Hf. constructor; try congruence. set_solver. }
  pose proof (fr_sched _ Hf) as Hs0.
  apply wpe_wp_bind, wp_gets, wpe_wp_bind, wp_harmless; [done|]. intros p e k _ Hd Hs1.
  destruct p as [p|]; [|apply wpe_of_wp, wp_ret; left; apply Hstay; congruence].
  set (m1 := sys_result e k m) in *. clearbody m1. apply wpe_wp_bind, wp_modify.
  apply wpe_wp_bind, wp_harmless; [done|]. intros fd e2 k2 _ Hd2 Hs2.
  assert (m_sched (sys_result e2 k2 (with_sched (Some schedule_zero) m1)) = Some schedule_zero)
    as Hs3 by done. clear Hs2.
  set (m2 := sys_result e2 k2 _) in *.
  assert (same_data m m2) as Hd3 by by eapply same_data_trans. clearbody m2.
  eapply wpe_wp_bind, wp_sched_update; [exact Hs3|].
  destruct (Z.eqb_spec fd (-1)) as [->|_].
  { apply wpe_of_wp, wp_bind. unfold nty_schedule_free. eapply wp_bind, wp_get_sched; [done|].
    apply wp_bind, wp_ret, wp_bind, wp_ret, wp_modify, wp_ret. left. by apply Hstay. }
  apply wpe_bind. eapply wpe_mono; [by eapply register_trigger_spec|].
  cbv beta. intros _ m3 (efd & Hs4 & Hd4).
  assert (same_data m m3) as Hd5 by by eapply same_data_trans. clear Hd4.
  apply wpe_wp_bind, wp_harmless; [done|]. intros pg e4 k4 _ Hd6 Hs5. rewrite Hs4 in Hs5.
  set (m4 := sys_result e4 k4 m3) in *.
  assert (same_data m m4) as Hd7 by by eapply same_data_trans. clear Hd6. clearbody m4.
  apply wpe_wp_bind, wp_harmless; [done|]. intros ret e5 k5 _ Hd8 Hs6. rewrite Hs5 in Hs6.
  set (m5 := sys_result e5 k5 m4) in *.
  assert (same_data m m5) as Hd9 by by eapply same_data_trans. clear Hd8. clearbody m5.
  destruct (ret =? 0)%Z; [|by right]. apply wpe_wp_bind, wp_ret, wpe_of_wp.
  pose proof Hd9 as (_ & Et1 & Et2 & Eq1 & Eq2 & _). destruct Hf.
  apply wp_bind. eapply (wp_zoom_same _ _ _ (λ t, tree_rep t ∅ [])).
  { rewrite Et1, fr_sleeping0. apply tree_none_spec. }
  intros t1 Ht1. apply wp_bind. eapply (wp_zoom_same _ _ _ (λ t, tree_rep t ∅ [])).
  { simpl. rewrite Et2, fr_waiting0. apply tree_none_spec. }
  intros t2 Ht2. apply wp_bind, wp_bind, wp_harmless; [done|]. intros tv e6 k6 _ Hd10 Hs7.
  apply wp_ret.
  set (m6 := with_waiting t2 _) in *.
  set (birth := u64 _).
  eapply wp_bind, wp_sched_update; [by rewrite Hs7|].
  set (sc := NtySchedule _ _ _ _ _ _ _ _ _ _ _ _ _).
  set (m7 := sys_result e6 k6 m6) in *.
  assert (m_ready m7 = queue_none ∧ m_defer m7 = queue_none) as [Eq3 Eq4].
  { destruct Hd10 as (_ & _ & _ & E1 & E2 & _). rewrite E1, E2. simpl. by rewrite Eq1, Eq2. }
  apply wp_bind. eapply (wp_zoom_same _ _ _ (λ t, queue_rep t ∅ [])).
  { change (wp queue_init (λ _ t, queue_rep t ∅ []) (m_ready m7)). rewrite Eq3. apply queue_none_spec. }
  intros q1 Hq1. apply wp_bind. eapply (wp_zoom_same _ _ _ (λ t, queue_rep t ∅ [])).
  { change (wp queue_init (λ _ t, queue_rep t ∅ []) (m_defer m7)). rewrite Eq4. apply queue_none_spec. }
  intros q2 Hq2. apply wp_ret. right. exists sc.
  eapply (fresh_wf (sys_result e6 k6 m5) _ t1 t2 q1 q2 sc m);
    [by constructor| |done|done|done|done| |done..].
  - eapply same_data_trans; [exact Hd9|]. apply same_data_sys.
    destruct Hd10 as (_ & _ & _ & _ & _ & Hw). by destruct e6.
  - unfold m7, m6. by destruct e6.
Qed.

(** ** Whole programs *)

Variable code : Z → Z → itree apiE unit.
Hypothesis code_quiet : ∀ func arg, quiet_prog (code func arg).

Definition booted (s : machine T Qt) : Prop := at_rest s ∨ pristine (mc_mem s).

Lemma create_at_rest func arg s :
  at_rest s → wp (nty_coroutine_create func arg) (λ _ m', at_rest (Machine m' (mc_ctx s))) (mc_mem s).
Proof.
  intros (ctx & lr & num & evs & (D & lw & sc & Hs) & Hc).
  eapply wp_mono; [by eapply sane_create|].
  cbv beta. intros _ m' (D' & lr' & new' & sc' & Hs' & _).
  exists ctx, lr', num, evs. split; [|done]. exists D', lw, sc'.
  destruct Hs'. constructor; try done. simpl in *. by rewrite app_nil_r.
Qed.

Lemma create_booted func arg s :
  booted s →
  wpe tolerated (in_mem (nty_coroutine_create func arg)) (λ _ s', booted s') s.
Proof.
  intros [HR|Hf]; apply wpe_in_mem.
  - apply wpe_of_wp. eapply wp_mono; [by apply create_at_rest|]. intros. by left.
  - unfold nty_coroutine_create. apply wpe_wp_bind, wp_gets.
    rewrite (fr_sched _ Hf), bool_decide_false by (by intros []). simpl.
    apply wpe_bind, wpe_bind. eapply wpe_mono; [by apply schedule_create_spec|].
    cbv beta. intros _ m' [Hf'|[sc Hs]]; apply wpe_of_wp, wp_ret, wpe_of_wp.
    + apply wp_bind, wp_gets. rewrite (fr_sched _ Hf'), bool_decide_false by (by intros []).
      apply wp_ret. by right.
    + assert (at_rest (Machine m' (mc_ctx s))) as HR.
      { exists ∅, [], 0%Z, []. split; [by exists ∅, [], sc|]. intros x v. by rewrite lookup_empty. }
      apply (create_at_rest func arg) in HR. cbn [mc_mem mc_ctx] in HR.
      unfold nty_coroutine_create in HR. pose proof (sn_sched _ _ _ _ _ _ _ _ Hs) as Hsc.
      apply wp_unbind in HR. unfold wp at 1, sched_is_null, gets in HR.
      rewrite Hsc, bool_decide_true in HR by eauto.
      eapply wp_mono; [exact HR|]. intros. by left.
Qed.

(** From a system without descriptors of interest, the program ends with the scheduler
    released and no coroutine allocated; or it runs out of fuel, or an assertion fails. *)
Lemma main_program_safe fuel cos (k : kernel) :
  wakeable k ⊆ ∅ →
  wpe tolerated (main_program (T := T) (Qt := Qt) code fuel cos) (λ _ s', all_over s') (machine_init k).
Proof.
  intros Hk. unfold main_program. apply wpe_bind.
  assert (∀ s, booted s → wpe tolerated
    (for_each cos (λ '(func, arg), in_mem (nty_coroutine_create func arg);; mret tt))
    (λ _ s', booted s') s) as Hcreate.
  { induction cos as [|[func arg] cos IH]; intros s Hs; simpl; [done|].
    apply wpe_bind, wpe_bind. eapply wpe_mono; [by apply create_booted|].
    cbv beta. intros _ s' Hs'. apply wpe_of_wp, wp_ret. by apply IH. }
  eapply wpe_mono; [apply Hcreate; right; by constructor|].
  cbv beta. intros _ s' Hs'. apply schedule_run_spec; [done|].
  destruct Hs' as [HR|Hf]; [by left|right]. by destruct Hf.
Qed.
End boot.
