(* ===== verification/WebSocket.v ===== *)
(** The WebSocket server of src/sample/nty_websocket_server.c: lines of the request, the
    handshake, frames, and the coroutines that accept and serve the clients.

    A [char] array is the list of its bytes. OpenSSL's SHA-1 and base64 filter are
    parameters, and so is what uninitialised arrays hold. What is only printed is left out,
    but the string a [printf] reads must end inside its array. *)

From S2P Require Export CString Client.

Module WebSocket.
Definition MAX_BUFFER_LENGTH : nat := 1024.
Definition NTY_WEBSOCKET_SERVER_PORT : Z := 9096.
Definition GUID : list byte := lit "258EAFA5-E914-47DA-95CA-C5AB0DC85B11".
Definition SHA_DIGEST_LENGTH : nat := 20.

(** ** Frames *)

(** [struct _nty_ophdr]: two bytes of bit fields, the lowest bits first. *)
Record nty_ophdr : Type := Ophdr {
  opcode : Z; rsv3 : Z; rsv2 : Z; rsv1 : Z; fin : Z;
  payload_length : Z; mask : Z;
}.
Definition ophdr_of (b0 b1 : byte) : nty_ophdr :=
  let bit b i := Z.land (Z.shiftr (bz b) i) 1 in
  Ophdr (Z.land (bz b0) 15) (bit b0 4%Z) (bit b0 5%Z) (bit b0 6%Z) (bit b0 7%Z)
    (Z.land (bz b1) 127) (bit b1 7%Z).
Definition ophdr_bytes (h : nty_ophdr) : list byte :=
  let field v w i := Z.shiftl (Z.land v (Z.ones w)) i in
  [zb (field (opcode h) 4 0 + field (rsv3 h) 1 4 + field (rsv2 h) 1 5 + field (rsv1 h) 1 6
       + field (fin h) 1 7);
   zb (field (payload_length h) 7 0 + field (mask h) 1 7)]%Z.

(** [struct _nty_websocket_head_126] and [_127]: a length of [w] bytes, the key, and eight
    bytes of data, all zero but the first two fields. *)
Definition websocket_head (w : nat) (len : Z) (mask_key : list byte) : list byte :=
  le_bytes w len ++ mask_key ++ replicate 8 x00.

(** [umask(data + off, len, mask)], from the [i]-th byte on. *)
Fixpoint umask_loop (n i : nat) (data : list byte) (off : nat) (mask : list byte) : res (list byte) :=
  match n with
  | O => Ok data
  | S n =>
      c ← rd data (off + i);
      k ← rd mask (i mod 4);
      data ← wr data (off + i) (byte_xor c k);
      umask_loop n (S i) data off mask
  end.
Definition umask (data : list byte) (off len : nat) (mask : list byte) : res (list byte) :=
  umask_loop len 0 data off mask.

(** Returns the stream, unmasked in place, the key, [*ret] and the offset of the data. *)
Definition decode_packet (stream mask_buf : list byte) : res (list byte * list byte * nat * nat) :=
  b0 ← rd stream 0;
  b1 ← rd stream 1;
  let hdr := ophdr_of b0 b1 in
  '(size, mask_buf, start) ←
    (if (Z.land (mask hdr) 0x7F =? 126)%Z then
       len ← rdn stream 2 2;
       key ← rdn stream 4 4;
       mask_buf ← wrn mask_buf 0 key;
       Ok (le_val len, mask_buf, 8)
     else if (Z.land (mask hdr) 0x7F =? 127)%Z then
       len ← rdn stream 2 8;
       key ← rdn stream 10 4;
       mask_buf ← wrn mask_buf 0 key;
       Ok (i32 (le_val len), mask_buf, 14)
     else
       key ← rdn stream 2 4;
       mask_buf ← wrn mask_buf 0 key;
       Ok (payload_length hdr, mask_buf, 6));
  stream ← umask stream start (Z.to_nat size) mask_buf;
  Ok (stream, mask_buf, Z.to_nat size, start).

(** [encode_packet(buffer, mask, stream + off, length)]: the buffer and the result. *)
Definition encode_packet (buffer mask_buf stream : list byte) (off length : nat) : res (list byte * nat) :=
  let head := Ophdr 1 0 0 0 1 0 0 in
  buffer ←
    (if decide (length < 126) then
       wrn buffer 0 (ophdr_bytes (Ophdr 1 0 0 0 1 (Z.of_nat length) 0))
     else if (Z.of_nat length <? 0xffff)%Z then
       key ← rdn mask_buf 0 4;
       buffer ← wrn buffer 0 (ophdr_bytes head);
       wrn buffer 2 (websocket_head 2 (Z.of_nat length) key)
     else
       key ← rdn mask_buf 0 4;
       buffer ← wrn buffer 0 (ophdr_bytes head);
       wrn buffer 2 (websocket_head 8 (Z.of_nat length) key));
  data ← rdn stream off length;
  buffer ← wrn buffer 2 data;
  Ok (buffer, length + 2).

(** ** The request *)

(** From [allbuf + level], [n] characters before its end, to [linebuf + j]. *)
Fixpoint readline_loop (n : nat) (allbuf : list byte) (level : nat) (linebuf : list byte) (j : nat) :
    res (Z * list byte) :=
  match n with
  | O => Ok ((-1)%Z, linebuf)
  | S n =>
      c ← rd allbuf level;
      crlf ← (if decide (c = x0d) then d ← rd allbuf (S level); Ok (bool_decide (d = x0a)) else Ok false);
      if (crlf : bool) then Ok (Z.of_nat (level + 2), linebuf)
      else
        linebuf ← wr linebuf j c;
        readline_loop n allbuf (S level) linebuf (S j)
  end.
Definition readline (allbuf : list byte) (level : nat) (linebuf : list byte) : res (Z * list byte) :=
  len ← strlen allbuf;
  readline_loop (len - level) allbuf level linebuf 0.

Section openssl.
Context `{OS}.
(** [SHA1], and what the base64 filter leaves in the memory BIO. *)
Variables (SHA1 : list byte → list byte) (b64 : list byte → list byte).
(** What an uninitialised buffer of [handshake] holds, and the padding of an address. *)
Variables (buffer_junk sin_zero : list byte).

(** The result and [out_str]; a [None] stands for a null pointer. *)
Definition base64_encode (in_str : option (list byte)) (in_len : nat) (out_str : option (list byte)) :
    res (Z * option (list byte)) :=
  match in_str, out_str with
  | Some inb, Some out =>
      inb ← rdn inb 0 in_len;
      let data := b64 inb in
      out ← wrn out 0 data;
      match length data with
      | O => Err Undefined                          (* out_str[-1] *)
      | S n => out ← wr out n x00; Ok (Z.of_nat (S n), Some out)
      end
  | _, _ => Ok ((-1)%Z, out_str)
  end.

(** The bytes [sprintf] puts in front of and behind the accept key. *)
Definition response_head : list byte :=
  lit "HTTP/1.1 101 Switching Protocols" ++ [x0d; x0a] ++
  lit "Upgrade: websocket" ++ [x0d; x0a] ++
  lit "Connection: Upgrade" ++ [x0d; x0a] ++
  lit "Sec-WebSocket-Accept: ".
Definition response_tail : list byte := [x0d; x0a; x0d; x0a].

(** What [handshake] does with the line that holds the key: the buffer to be written. *)
Definition accept_key (linebuf : list byte) : res (list byte) :=
  linebuf ← strcat linebuf GUID;
  len ← strlen (drop 19 linebuf);
  key ← rdn linebuf 19 len;
  sha1_data ← wrn (replicate (SHA_DIGEST_LENGTH + 1) x00) 0 (SHA1 key);
  let buffer := replicate MAX_BUFFER_LENGTH x00 in
  n ← strlen sha1_data;
  '(_, sec_accept) ← base64_encode (Some sha1_data) n (Some (replicate 32 x00));
  accept ← cstr (default [] sec_accept);
  put_str buffer 0 (response_head ++ accept ++ response_tail).

(** One turn of the loop over the lines: the new level, or the end. *)
Definition handshake_line (cli_fd : Z) (buffer : list byte) (level : nat) : cl (nat + unit) :=
  '(level, linebuf) ← pure (readline buffer level (replicate 128 x00));
  s ← pure (cstr linebuf);
  if contains (lit "Sec-WebSocket-Key") s then
    buffer ← pure (accept_key linebuf);
    len ← pure (strlen buffer);
    call (api_hook_write cli_fd (take len buffer));;
    mret (inr tt)
  else if (level <? 0)%Z then pure (Err Undefined)  (* buffer[-1] *)
  else
    let level := Z.to_nat level in
    c ← pure (rd buffer level);
    d ← pure (if decide (c = x0d) then rd buffer (S level) else Ok x00);
    mret (if decide (c = x0d ∧ d = x0a) then inr tt else inl level).

Definition handshake (cli_fd : Z) : cl Z :=
  '(n, data) ← call (api_hook_read cli_fd (Z.of_nat MAX_BUFFER_LENGTH));
  buffer ← pure (if (n <=? 0)%Z then Ok buffer_junk else wrn buffer_junk 0 data);
  pure (cstr buffer);;                              (* printf *)
  cl_loop (handshake_line cli_fd buffer) 0;;
  mret 0%Z.

(** ** Serving a client *)

(** One turn of the loop of [server_reader], on [stream] as [nty_recv] left it. *)
Definition reply_packet (data : list byte) : res (list byte) :=
  stream ← wrn (replicate MAX_BUFFER_LENGTH x00) 0 data;
  '(stream, mask_buf, ret, start) ← decode_packet stream (replicate 4 x00);
  cstr (drop start stream);;                        (* printf *)
  '(buffer, ret) ← encode_packet (replicate (MAX_BUFFER_LENGTH + 14) x00) mask_buf stream start ret;
  rdn buffer 0 ret.

Definition server_reader (fd : Z) : cl unit :=
  cl_loop (λ _ : unit,
    '(length, data) ← call (api_recv fd (Z.of_nat MAX_BUFFER_LENGTH) 0);
    if (0 <? length)%Z then
      frame ← pure (reply_packet data);
      call (api_send fd frame 0);;
      mret (inl tt)
    else if (length =? 0)%Z then
      call (api_close fd);;
      mret (inr tt)
    else mret (inl tt)) tt.

(** ** The server *)

Definition F_GETFL : Z := 3.
Definition F_SETFL : Z := 4.
Definition O_NONBLOCK : Z := 0x800.

Definition ntySetNonblock (fd : Z) : cl Z :=
  flags ← call (api_fcntl fd F_GETFL 0);
  if (flags <? 0)%Z then mret flags else
  r ← call (api_fcntl fd F_SETFL (Z.lor flags O_NONBLOCK));
  mret (if (r <? 0)%Z then -1 else 0)%Z.

Definition ntySetBlock (fd : Z) : cl Z :=
  flags ← call (api_fcntl fd F_GETFL 0);
  if (flags <? 0)%Z then mret flags else
  r ← call (api_fcntl fd F_SETFL (Z.ldiff flags O_NONBLOCK));
  mret (if (r <? 0)%Z then -1 else 0)%Z.

(** [struct sockaddr_in] of port [port] and any address. *)
Definition sockaddr_in (port : Z) : sockaddr :=
  le_bytes 2 2 ++ rev (le_bytes 2 port) ++ replicate 4 x00 ++ sin_zero.

Definition init_server : cl Z :=
  sockfd ← call (api_hook_socket 2 1 0);
  if (sockfd <? 0)%Z then mret (-1)%Z else
  r ← call (api_bind sockfd (sockaddr_in NTY_WEBSOCKET_SERVER_PORT));
  if (r <? 0)%Z then mret (-2)%Z else
  r ← call (api_listen sockfd 5);
  if (r <? 0)%Z then mret (-3)%Z else
  mret sockfd.

(** The functions that [nty_coroutine_create] is given. *)
Definition fn_server : Z := 0.
Definition fn_server_reader : Z := 1.

(** [server_reader] gets the address of [cli_fd]; its value stands for it. *)
Definition server : cl unit :=
  sockfd ← init_server;
  cl_loop (λ _ : unit,
    '(cli_fd, _) ← call (api_accept sockfd);
    ntySetBlock cli_fd;;
    handshake cli_fd;;
    ntySetNonblock cli_fd;;
    call (api_create fn_server_reader cli_fd);;
    mret (inl tt)) tt.

Definition websocket_code (func arg : Z) : itree apiE unit :=
  if (func =? fn_server)%Z then coroutine server else coroutine (server_reader arg).
End openssl.
End WebSocket.
