(* ===== verification/WebSocketProps.v ===== *)
(** What is proved of the WebSocket server: frames survive decoding and encoding, the echo
    loop follows its protocol, the handshake answers the key, and where long frames go
    wrong. *)

From S2P Require Export WebSocket ToyOS.
Import WebSocket.

(** ** Frames as they are on the wire *)

(** The bytes of [l] with the key applied from its [i]-th byte on. *)
Fixpoint masked (key : list byte) (i : nat) (l : list byte) : list byte :=
  match l with
  | [] => []
  | c :: l => byte_xor c (default x00 (key !! (i mod 4))) :: masked key (S i) l
  end.

(** A client's frame of less than 126 bytes, and the server's text frame. *)
Definition client_frame (b0 : byte) (key payload : list byte) : list byte :=
  b0 :: zb (128 + Z.of_nat (length payload)) :: key ++ masked key 0 payload.

Lemma length_masked key i l : length (masked key i l) = length l.
Proof. revert i; induction l as [|c l IH]; intros i; simpl; auto. Qed.

Lemma masked_twice key i l : masked key i (masked key i l) = l.
Proof. revert i; induction l as [|c l IH]; intros i; simpl; [done|]. by rewrite byte_xor_twice, IH. Qed.

(** ** [umask] *)

Lemma umask_loop_spec l pre done post key :
  length key = 4 →
  umask_loop (length l) (length done) (pre ++ done ++ l ++ post) (length pre) key =
    Ok (pre ++ done ++ masked key (length done) l ++ post).
Proof.
  intros Hk. revert done; induction l as [|c l IH]; intros done; [done|]. cbn [length umask_loop].
  assert ((pre ++ done ++ (c :: l) ++ post) !! (length pre + length done) = Some c) as Hc.
  { rewrite lookup_app_r, lookup_app_r by lia.
    by replace (length pre + length done - length pre - length done) with 0 by lia. }
  destruct (lookup_lt_is_Some_2 key (length done mod 4)) as [k Hl].
  { rewrite Hk. apply Nat.mod_upper_bound. lia. }
  rewrite (rd_lookup _ _ _ Hc), (rd_lookup _ _ _ Hl). cbn [mbind res_bind]. unfold wr.
  rewrite decide_True by (rewrite !length_app; simpl; lia). cbn [mbind res_bind].
  rewrite insert_app_r, insert_app_r_alt, Nat.sub_diag by lia. cbn [app insert list_insert].
  specialize (IH (done ++ [byte_xor c k])). rewrite length_app in IH. simpl in IH.
  rewrite <- !app_assoc in IH. cbn [app] in IH. rewrite Nat.add_1_r in IH. rewrite IH.
  cbn [masked]. by rewrite Hl.
Qed.

Lemma umask_spec pre l post key :
  length key = 4 →
  umask (pre ++ l ++ post) (length pre) (length l) key = Ok (pre ++ masked key 0 l ++ post).
Proof. intros Hk. exact (umask_loop_spec l pre [] post key Hk). Qed.

(** ** [decode_packet] *)

Lemma land_127 z : Z.land z 127 = (z mod 128)%Z.
Proof. exact (Z.land_ones z 7 ltac:(lia)). Qed.

Lemma mask_bit b0 b1 : mask (ophdr_of b0 b1) = 0%Z ∨ mask (ophdr_of b0 b1) = 1%Z.
Proof.
  unfold ophdr_of. cbn [mask]. change (Z.land ?x 1) with (Z.land x (Z.ones 1)).
  rewrite Z.land_ones by lia. pose proof (Z.mod_pos_bound (Z.shiftr (bz b1) 7) (2 ^ 1)). lia.
Qed.

(** Only the first byte of the length is ever looked at, as the test is made on a field of
    one bit. *)
Lemma decode_packet_spec b0 b1 key rest mask_buf :
  length key = 4 → length mask_buf = 4 → Z.to_nat (bz b1 mod 128) ≤ length rest →
  let n := Z.to_nat (bz b1 mod 128) in
  decode_packet (b0 :: b1 :: key ++ rest) mask_buf =
    Ok (b0 :: b1 :: key ++ masked key 0 (take n rest) ++ drop n rest, key, n, 6).
Proof.
  intros Hk Hm Hn n. unfold decode_packet. cbn [rd lookup list_lookup mbind res_bind].
  assert ((Z.land (mask (ophdr_of b0 b1)) 0x7F =? 126)%Z = false ∧
    (Z.land (mask (ophdr_of b0 b1)) 0x7F =? 127)%Z = false) as [-> ->]
    by (destruct (mask_bit b0 b1) as [-> | ->]; done).
  rewrite rdn_ok by (rewrite !length_cons, length_app; lia). cbn [mbind res_bind drop].
  rewrite drop_0, take_app_length' by done. rewrite wrn_ok by lia. cbn [mbind res_bind].
  cbn [Nat.add]. rewrite Hk, (drop_ge mask_buf), app_nil_r, take_0 by lia. cbn [app].
  change (payload_length (ophdr_of b0 b1)) with (Z.land (bz b1) 127). rewrite land_127.
  fold n. rewrite <- (take_drop n rest) at 1.
  assert (length (take n rest) = n) as Hl by (rewrite length_take; lia).
  pose proof (umask_spec (b0 :: b1 :: key) (take n rest) (drop n rest) key Hk) as Hu.
  rewrite Hl in Hu. cbn [length] in Hu. rewrite Hk in Hu. simpl app in Hu. rewrite Hu. done.
Qed.

Lemma frame_length n : n ≤ 125 → (bz (zb (128 + Z.of_nat n)) mod 128 = Z.of_nat n)%Z.
Proof.
  intros Hn. rewrite bz_zb, (Z.mod_small _ 256) by lia.
  rewrite <- (Z.mod_add _ (-1) 128) by lia. rewrite Z.mod_small; lia.
Qed.

Lemma decode_frame b0 key payload rest mask_buf :
  length key = 4 → length mask_buf = 4 → length payload ≤ 125 →
  decode_packet (client_frame b0 key payload ++ rest) mask_buf =
    Ok (b0 :: zb (128 + Z.of_nat (length payload)) :: key ++ payload ++ rest, key, length payload, 6).
Proof.
  intros Hk Hm Hp. unfold client_frame. simpl app. rewrite <- app_assoc.
  rewrite decode_packet_spec; rewrite ?frame_length, ?Nat2Z.id by done; [|done..|].
  - rewrite <- (length_masked key 0 payload), take_app_length, drop_app_length, masked_twice.
    by rewrite length_masked.
  - rewrite length_app, length_masked. lia.
Qed.

(** ** [encode_packet] *)

Lemma short_header n : n ≤ 125 →
  ophdr_bytes (Ophdr 1 0 0 0 1 (Z.of_nat n) 0) = [x81; zb (Z.of_nat n)].
Proof.
  intros Hn. unfold ophdr_bytes. cbn [opcode rsv1 rsv2 rsv3 fin payload_length mask]. do 2 f_equal.
  rewrite Z.land_0_l, Z.shiftl_0_l, Z.add_0_r, Z.shiftl_0_r, Z.land_ones, Z.mod_small by lia. done.
Qed.

(** The header byte [encode_packet] writes for a payload of [n] bytes. *)
Definition length_byte (n : nat) : byte := if decide (n < 126) then zb (Z.of_nat n) else x00.

(** It writes the payload right behind the first two bytes, whatever header it has put
    there. *)
Lemma header_written buffer n mask_buf : length mask_buf = 4 → n + 16 ≤ length buffer →
  let head := Ophdr 1 0 0 0 1 0 0 in
  ∃ b,
    (if decide (n < 126) then
       wrn buffer 0 (ophdr_bytes (Ophdr 1 0 0 0 1 (Z.of_nat n) 0))
     else if (Z.of_nat n <? 0xffff)%Z then
       key ← rdn mask_buf 0 4;
       buffer ← wrn buffer 0 (ophdr_bytes head);
       wrn buffer 2 (websocket_head 2 (Z.of_nat n) key)
     else
       key ← rdn mask_buf 0 4;
       buffer ← wrn buffer 0 (ophdr_bytes head);
       wrn buffer 2 (websocket_head 8 (Z.of_nat n) key)) = Ok b ∧
    length b = length buffer ∧ take 2 b = [x81; length_byte n].
Proof.
  intros Hm Hb head. unfold length_byte.
  assert (∀ h, length h = 2 → ∃ b0, wrn buffer 0 h = Ok b0 ∧ length b0 = length buffer ∧ take 2 b0 = h)
    as H2.
  { intros h Hh. destruct (wrn_at buffer 0 h) as (b0 & E & Hl & Ht); [lia|].
    exists b0. split_and!; [done..|]. rewrite <- Hh. exact Ht. }
  destruct (decide (n < 126)) as [Hd|Hd].
  - rewrite short_header by lia. by apply H2.
  - destruct (H2 (ophdr_bytes head)) as (b0 & E0 & Hb0 & Ht0); [done|].
    rewrite rdn_ok, drop_0, (take_ge mask_buf) by lia. cbn [mbind res_bind]. rewrite E0. cbn [mbind res_bind].
    assert (∀ w, w ≤ 8 → ∃ b, wrn b0 2 (websocket_head w (Z.of_nat n) mask_buf) = Ok b ∧
      length b = length buffer ∧ take 2 b = [x81; x00]) as Hw.
    { intros w Hw. assert (2 + length (websocket_head w (Z.of_nat n) mask_buf) ≤ length b0) as Hle.
      { unfold websocket_head. rewrite !length_app, length_le_bytes, length_replicate. lia. }
      destruct (wrn_at b0 2 _ Hle) as (b & E & Hl & _). exists b. split_and!; [done|congruence|].
      rewrite (take_wrn _ _ _ 2 _ Hle) by done. rewrite Ht0. done. }
    destruct (_ <? _)%Z; apply Hw; lia.
Qed.

Lemma encode_packet_spec buffer mask_buf pre data post :
  length mask_buf = 4 → length data + 16 ≤ length buffer →
  ∃ b, encode_packet buffer mask_buf (pre ++ data ++ post) (length pre) (length data) =
         Ok (b, length data + 2) ∧ length b = length buffer ∧
       take (length data + 2) b = x81 :: length_byte (length data) :: data.
Proof.
  intros Hm Hb. unfold encode_packet.
  destruct (header_written buffer (length data) mask_buf) as (b1 & E1 & Hb1 & Ht1); [lia..|].
  cbv zeta. rewrite E1. cbn [mbind res_bind].
  rewrite rdn_ok by (rewrite !length_app; lia). rewrite drop_app_length, take_app_length.
  cbn [mbind res_bind]. destruct (wrn_at b1 2 data) as (b & E & Hl & Ht); [lia|].
  rewrite E. cbn [mbind res_bind]. exists b. split_and!; [done|congruence|].
  rewrite Nat.add_comm, Ht, Ht1. done.
Qed.

(** ** The reply to a chunk *)

(** [stream] as it is after [nty_recv] has put [data] at its start. *)
Definition stream_of (data : list byte) : list byte :=
  data ++ replicate (MAX_BUFFER_LENGTH - length data) x00.

Section reply.
Variables (data key rest : list byte) (b0 b1 : byte).
Hypothesis Hdata : length data ≤ MAX_BUFFER_LENGTH.
Hypothesis Hstream : stream_of data = b0 :: b1 :: key ++ rest.
Hypothesis Hkey : length key = 4.
(** [ret] and the data as [decode_packet] leaves them. *)
Local Abbreviation n := (Z.to_nat (bz b1 mod 128)).
Local Abbreviation payload := (masked key 0 (take n rest)).

Lemma reply_fits : n < 128 ∧ length rest = 1018.
Proof.
  pose proof (Z.mod_pos_bound (bz b1) 128). split; [lia|].
  apply (f_equal length) in Hstream. unfold stream_of, MAX_BUFFER_LENGTH in *.
  rewrite !length_cons, !length_app, length_replicate in Hstream. lia.
Qed.

Lemma reply_decoded :
  decode_packet (stream_of data) (replicate 4 x00) =
    Ok (b0 :: b1 :: key ++ payload ++ drop n rest, key, n, 6).
Proof. destruct reply_fits. rewrite Hstream. apply decode_packet_spec; [done..|lia]. Qed.

Lemma reply_packet_spec : x00 ∈ payload ++ drop n rest →
  reply_packet data = Ok (x81 :: length_byte n :: payload).
Proof.
  intros Hnul. destruct reply_fits as [Hn Hr]. unfold reply_packet.
  rewrite wrn_zeros by done. cbn [mbind res_bind]. fold (stream_of data). rewrite reply_decoded.
  cbn [mbind res_bind].
  rewrite (cstr_nul (drop 6 _))
    by (cbn [drop]; by rewrite drop_app_length' by done).
  cbn [mbind res_bind].
  assert (length payload = n) as Hp by (rewrite length_masked, length_take; lia).
  destruct (encode_packet_spec (replicate (MAX_BUFFER_LENGTH + 14) x00) key (b0 :: b1 :: key) payload (drop n rest))
    as (b & Eb & Hlb & Htb); [done|rewrite length_replicate; unfold MAX_BUFFER_LENGTH; lia|].
  rewrite Hp in Eb. simpl length in Eb. rewrite Hkey in Eb. simpl app in Eb.
  rewrite Eb. cbn [mbind res_bind]. rewrite Hp in Htb.
  rewrite rdn_ok by (rewrite Hlb, length_replicate; unfold MAX_BUFFER_LENGTH; lia). by rewrite drop_0, Htb.
Qed.

Lemma reply_packet_overrun : x00 ∉ payload ++ drop n rest → reply_packet data = Err Undefined.
Proof.
  intros Hnul. unfold reply_packet. rewrite wrn_zeros by done. cbn [mbind res_bind].
  fold (stream_of data). rewrite reply_decoded. cbn [mbind res_bind].
  rewrite (cstr_unterminated (drop 6 _)); [done|]. cbn [drop]. by rewrite drop_app_length' by done.
Qed.
End reply.

(** A chunk shorter than the array is answered, whatever it holds. *)
Lemma reply_packet_total data : length data < MAX_BUFFER_LENGTH → ∃ frame, reply_packet data = Ok frame.
Proof.
  intros Hd. assert (length (stream_of data) = 1024) as Hl.
  { unfold stream_of, MAX_BUFFER_LENGTH in *. rewrite length_app, length_replicate. lia. }
  destruct (stream_of data) as [|b0 [|b1 [|k0 [|k1 [|k2 [|k3 rest]]]]]] eqn:E; try done.
  eexists. apply (reply_packet_spec data [k0; k1; k2; k3] rest b0 b1); [lia|done..|].
  destruct (reply_fits data [k0; k1; k2; k3] rest b0 b1 ltac:(lia) E eq_refl) as [Hn Hr].
  apply elem_of_app. right. apply list_elem_of_lookup. exists (1017 - Z.to_nat (bz b1 mod 128)).
  rewrite lookup_drop. replace (_ + _) with 1017 by lia.
  change (rest !! 1017) with ((b0 :: b1 :: k0 :: k1 :: k2 :: k3 :: rest) !! 1023). rewrite <- E.
  unfold stream_of, MAX_BUFFER_LENGTH in *. rewrite lookup_app_r by lia. apply lookup_replicate. split; [done|lia].
Qed.


(** ** The echo loop *)

(** The calls of [server_reader] in their order: a chunk that was received is answered by
    its reply, the end of the stream by closing. *)
Inductive echo_step `{OS} (fd : Z) : list acall → ∀ A, apiE A → Prop :=
  | echo_first : echo_step fd [] _ (api_recv fd 1024 0)
  | echo_again tr frame r : echo_step fd (tr ++ [ACall (api_send fd frame 0) r]) _ (api_recv fd 1024 0)
  | echo_failed tr n data : (n < 0)%Z →
      echo_step fd (tr ++ [ACall (api_recv fd 1024 0) (n, data)]) _ (api_recv fd 1024 0)
  | echo_reply tr n data frame : (0 < n)%Z → reply_packet data = Ok frame →
      echo_step fd (tr ++ [ACall (api_recv fd 1024 0) (n, data)]) _ (api_send fd frame 0)
  | echo_close tr data :
      echo_step fd (tr ++ [ACall (api_recv fd 1024 0) (0%Z, data)]) _ (api_close fd).

(** A receive gives fewer bytes than the array holds. *)
Definition short_chunks `{OS} (A : Type) (e : apiE A) : A → Prop :=
  match e in apiE A return A → Prop with
  | api_recv _ _ _ => λ '(n, data), (length data < 1024)
  | _ => λ _, True
  end.

Section echo.
Context `{OS}.

(** C25: whatever its client sends, as long as each chunk is shorter than the array it is
    received in, [server_reader] stays inside its arrays, answers each chunk by the reply
    to that chunk before it receives the next, and closes its descriptor, as its last call,
    when the stream ends. *)
Theorem server_reader_protocol fd :
  every_call (echo_step fd) short_chunks (server_reader fd) []
    (λ tr _, ∃ tr' r, tr = tr' ++ [ACall (api_close fd) r]).
Proof.
  apply (ec_loop _ _ (λ _ tr, echo_step fd tr _ (api_recv fd 1024 0))); [constructor|].
  intros [] tr Hrecv. apply ec_bind_call; [exact Hrecv|]. intros [n data] Hshort. simpl in Hshort.
  destruct (0 <? n)%Z eqn:Hn; [|destruct (n =? 0)%Z eqn:Hz].
  - destruct (reply_packet_total data Hshort) as [frame Hf].
    eapply ec_bind_pure; [exact Hf|]. apply ec_bind_call; [by constructor; [lia|]|]. intros r _.
    apply ec_ret. constructor.
  - apply Z.eqb_eq in Hz as ->. apply ec_bind_call; [constructor|]. intros r _. apply ec_ret. by eexists _, _.
  - apply ec_ret. apply echo_failed. lia.
Qed.


End echo.

(** ** Coding *)

Lemma server_header n : n < 126 →
  ophdr_of x81 (zb (Z.of_nat n)) = Ophdr 1 0 0 0 1 (Z.of_nat n) 0.
Proof.
  intros Hn. unfold ophdr_of. rewrite bz_zb, (Z.mod_small _ 256), land_127, Z.mod_small by lia.
  rewrite (Z.shiftr_div_pow2 (Z.of_nat n)), (Z.div_small (Z.of_nat n)) by lia. done.
Qed.

(** [umask] twice with the same key gives the data back, and touches nothing else. *)
Theorem umask_involutive pre l post key :
  length key = 4 →
  ∃ data, umask (pre ++ l ++ post) (length pre) (length l) key = Ok data ∧
    umask data (length pre) (length l) key = Ok (pre ++ l ++ post) ∧
    take (length pre) data = pre ∧ drop (length pre + length l) data = post.
Proof.
  intros Hk. eexists. split; [by apply umask_spec|].
  pose proof (umask_spec pre (masked key 0 l) post key Hk) as Hu.
  rewrite length_masked, masked_twice in Hu. split; [exact Hu|]. split; [apply take_app_length|].
  rewrite app_assoc. apply drop_app_length'. by rewrite length_app, length_masked.
Qed.

(** C27: decoding a client's frame of at most 125 bytes gives its key and its payload, and
    encoding that payload gives a final text frame of the server that announces the
    payload's length and carries the payload unmasked. *)
Theorem frame_roundtrip b0 key payload rest mask_buf :
  length key = 4 → length mask_buf = 4 → length payload ≤ 125 →
  ∃ stream buffer h0 h1,
    decode_packet (client_frame b0 key payload ++ rest) mask_buf =
      Ok (stream, key, length payload, 6) ∧
    encode_packet (replicate (MAX_BUFFER_LENGTH + 14) x00) key stream 6 (length payload) =
      Ok (buffer, length payload + 2) ∧
    take (length payload + 2) buffer = h0 :: h1 :: payload ∧
    ophdr_of h0 h1 = Ophdr 1 0 0 0 1 (Z.of_nat (length payload)) 0.
Proof.
  intros Hk Hm Hp. set (n := length payload).
  set (pre := b0 :: zb (128 + Z.of_nat n) :: key).
  destruct (encode_packet_spec (replicate (MAX_BUFFER_LENGTH + 14) x00) key pre payload rest)
    as (b & Eb & _ & Htb); [done|rewrite length_replicate; unfold MAX_BUFFER_LENGTH; lia|].
  assert (length pre = 6) as Hpre by (unfold pre; rewrite !length_cons, Hk; done). rewrite Hpre in Eb.
  eexists _, b, _, _. split; [by apply decode_frame|]. split; [exact Eb|]. split; [exact Htb|].
  fold n. unfold length_byte. rewrite decide_True by lia.
  apply server_header. lia.
Qed.

(** A client's frame with an extended length is misread: the server takes the two bytes
    of the length for the first half of the key and 126 bytes from the middle of the key
    on for the payload, and answers by a frame that announces no payload at all. *)
Theorem long_frame_misread b0 h l k0 k1 k2 k3 payload :
  126 ≤ length payload → length payload < 1016 →
  let garbage := masked [h; l; k0; k1] 0 (take 126 (k2 :: k3 :: masked [k0; k1; k2; k3] 0 payload)) in
  reply_packet (b0 :: xfe :: h :: l :: [k0; k1; k2; k3] ++ masked [k0; k1; k2; k3] 0 payload) =
    Ok (x81 :: x00 :: garbage) ∧ length garbage = 126 ∧
  payload_length (ophdr_of x81 x00) = 0%Z.
Proof.
  intros Hlo Hhi garbage.
  set (wire := masked [k0; k1; k2; k3] 0 payload) in *.
  assert (length wire = length payload) as Hw by apply length_masked.
  set (data := b0 :: xfe :: h :: l :: [k0; k1; k2; k3] ++ wire).
  assert (length data = 8 + length payload) as Hd by (unfold data; simpl; by rewrite Hw).
  set (zeros := replicate (MAX_BUFFER_LENGTH - length data) x00).
  assert (length garbage = 126) as Hg.
  { unfold garbage. rewrite length_masked, length_take. rewrite !length_cons. lia. }
  split_and!; [|done..].
  assert (take 126 (k2 :: k3 :: wire ++ zeros) = take 126 (k2 :: k3 :: wire)) as Ht.
  { change (k2 :: k3 :: wire ++ zeros) with ((k2 :: k3 :: wire) ++ zeros). apply take_app_le. rewrite !length_cons. lia. }
  pose proof (reply_packet_spec data [h; l; k0; k1] (k2 :: k3 :: wire ++ zeros) b0 xfe) as Hr.
  change (Z.to_nat (bz xfe mod 128)) with 126 in Hr. rewrite Ht in Hr. rewrite Hr; [done|..].
  - unfold MAX_BUFFER_LENGTH. lia.
  - unfold stream_of, data. simpl app. done.
  - done.
  - apply elem_of_app. right.
    change (k2 :: k3 :: wire ++ zeros) with ((k2 :: k3 :: wire) ++ zeros).
    rewrite drop_app_le by (rewrite !length_cons; lia). apply elem_of_app. right. apply elem_of_replicate.
    split; [done|]. unfold MAX_BUFFER_LENGTH. lia.
Qed.

(** When a client fills the array of 1024 bytes and no byte of it is zero after unmasking,
    [server_reader] prints a string that has no end: it reads past its array. *)
Theorem full_chunk_overrun data b0 b1 key rest :
  data = b0 :: b1 :: key ++ rest → length key = 4 → length data = MAX_BUFFER_LENGTH →
  let n := Z.to_nat (bz b1 mod 128) in
  x00 ∉ masked key 0 (take n rest) ++ drop n rest →
  reply_packet data = Err Undefined.
Proof.
  intros E Hk Hd n. apply (reply_packet_overrun data key rest b0 b1); [lia| |done].
  unfold stream_of. rewrite Hd, Nat.sub_diag, app_nil_r. exact E.
Qed.

(** ** The handshake *)

Definition CRLF : list byte := [x0d; x0a].
(** The lines of a request, each with its end. *)
Definition wire_lines (lines : list (list byte)) : list byte := concat ((λ l, l ++ CRLF) <$> lines).

(** One call of [readline]: from the start of a line. *)
Lemma readline_loop_spec line pre rest linebuf j n :
  x0d ∉ line → length line < n → j + length line ≤ length linebuf →
  readline_loop n (pre ++ line ++ CRLF ++ rest) (length pre) linebuf j =
    Ok (Z.of_nat (length pre + length line + 2),
        take j linebuf ++ line ++ drop (j + length line) linebuf).
Proof.
  revert pre linebuf j n; induction line as [|c line IH]; intros pre linebuf j [|n] Hcr Hn Hj;
    [simpl in Hn; lia| |simpl in Hn; lia|]; cbn [readline_loop].
  - assert (∀ i c, CRLF !! i = Some c → (pre ++ [] ++ CRLF ++ rest) !! (length pre + i) = Some c) as Hl.
    { intros i c Hc. rewrite lookup_app_r by lia. rewrite Nat.add_comm, Nat.add_sub. cbn [app].
      by apply lookup_app_l_Some. }
    pose proof (Hl 0 _ eq_refl) as H0. rewrite Nat.add_0_r in H0. rewrite (rd_lookup _ _ _ H0).
    pose proof (Hl 1 _ eq_refl) as H1. rewrite Nat.add_1_r in H1. cbn [mbind res_bind].
    rewrite decide_True, (rd_lookup _ _ _ H1) by done. cbn [mbind res_bind].
    rewrite bool_decide_true by done. cbn [length app].
    rewrite !Nat.add_0_r. by rewrite take_drop.
  - rewrite not_elem_of_cons in Hcr. destruct Hcr as [Hc Hcr]. cbn [length] in *.
    assert ((pre ++ (c :: line) ++ CRLF ++ rest) !! length pre = Some c) as Hl
      by (rewrite lookup_app_r by lia; by rewrite Nat.sub_diag).
    rewrite (rd_lookup _ _ _ Hl). cbn [mbind res_bind]. rewrite decide_False by congruence.
    cbn [mbind res_bind]. unfold wr. rewrite decide_True by lia. cbn [mbind res_bind].
    specialize (IH (pre ++ [c]) (<[j:=c]> linebuf) (S j) n Hcr).
    rewrite length_app in IH. simpl length in IH. rewrite <- app_assoc in IH. cbn [app] in IH.
    rewrite Nat.add_1_r in IH. cbn [app]. rewrite IH by (rewrite ?length_insert; lia). f_equal. f_equal.
    + lia.
    + rewrite (take_S_r _ _ c) by (apply list_lookup_insert_eq; lia).
      rewrite take_insert_ge, drop_insert_lt by lia. rewrite <- app_assoc. cbn [app].
      by rewrite Nat.add_succ_r.
Qed.

Lemma readline_spec pre line rest :
  x00 ∈ rest → x00 ∉ pre ++ line → x0d ∉ line → length line ≤ 128 →
  readline (pre ++ line ++ CRLF ++ rest) (length pre) (replicate 128 x00) =
    Ok (Z.of_nat (length pre + length line + 2), line ++ replicate (128 - length line) x00).
Proof.
  intros Hr Hnul Hcr Hl. unfold readline.
  set (all := pre ++ line ++ CRLF ++ rest).
  assert (x00 ∈ all) as Hall by (unfold all; rewrite !elem_of_app; auto).
  rewrite strlen_nul by done. cbn [mbind res_bind].
  assert (length pre + length line + 2 ≤ length (till_nul all)) as Hlen.
  { destruct (till_nul_split rest Hr) as [post E]. unfold all. rewrite E.
    assert (till_nul (pre ++ line ++ CRLF ++ till_nul rest ++ x00 :: post) = pre ++ line ++ CRLF ++ till_nul rest)
      as ->; [|rewrite !length_app; simpl; lia].
    replace (pre ++ line ++ CRLF ++ till_nul rest ++ x00 :: post)
      with ((pre ++ line ++ CRLF ++ till_nul rest) ++ x00 :: post) by (by rewrite <- !app_assoc).
    rewrite till_nul_app, till_nul_id; [done|]. pose proof (till_nul_no_nul rest).
    rewrite !elem_of_app in *. unfold CRLF. rewrite !elem_of_cons, elem_of_nil. naive_solver. }
  unfold all. rewrite readline_loop_spec; [|done|fold all; lia|rewrite length_replicate; lia].
  rewrite take_0, drop_replicate. cbn [app Nat.add]. done.
Qed.

(** Putting a string behind the one an array holds. *)
Lemma strcat_zeros s t n : x00 ∉ s → length s + length t < n →
  strcat (s ++ replicate (n - length s) x00) t = Ok (s ++ t ++ replicate (n - length s - length t) x00).
Proof.
  intros Hs Hn. unfold strcat, put_str.
  assert (n - length s = S (n - length s - 1)) as E by lia. rewrite E at 1. cbn [replicate].
  rewrite strlen_app by done. cbn [mbind res_bind].
  rewrite wrn_ok by (rewrite !length_app, length_replicate; simpl; lia).
  rewrite take_app_length, drop_app_ge by lia. f_equal. f_equal. rewrite <- app_assoc. f_equal.
  rewrite drop_replicate, length_app. simpl length.
  replace (n - length s - length t) with (S (n - length s - (length s + (length t + 1) - length s))) by lia.
  done.
Qed.

Definition key_prefix : list byte := lit "Sec-WebSocket-Key: ".

Section handshake.
Context `{OS}.
Variables (SHA1 b64 : list byte → list byte) (buffer_junk : list byte).
Variables (key code : list byte).
(** The characters of the key, and the digest as [handshake] sees it: up to its first zero. *)
Hypothesis key_text : (x00 ∉ key) ∧ (x0d ∉ key) ∧ length key ≤ 72.
Local Abbreviation digest := (SHA1 (key ++ GUID)).
Hypothesis digest_length : length digest = SHA_DIGEST_LENGTH.
(** The filter ends what it encodes by a line feed. *)
Hypothesis encoded : b64 (till_nul digest) = code ++ [x0a] ∧ (x00 ∉ code) ∧ length code < 32.

(** The answer. *)
Definition handshake_response : list byte := response_head ++ code ++ response_tail.

Lemma key_line_text : (x00 ∉ key_prefix ++ key) ∧ (x0d ∉ key_prefix ++ key) ∧
  length (key_prefix ++ key) = 19 + length key.
Proof.
  destruct key_text as (H1 & H2 & _). rewrite !not_elem_of_app, length_app.
  split_and!; [|done| |done|done]; apply (bool_decide_unpack _); vm_compute; done.
Qed.

Lemma accept_key_spec :
  ∃ post, accept_key SHA1 b64 (key_prefix ++ key ++ replicate (128 - (19 + length key)) x00) =
    Ok (handshake_response ++ x00 :: post).
Proof.
  destruct key_line_text as (Hk0 & _ & Hkl). destruct encoded as (Eb & Hc0 & Hcl). unfold accept_key.
  rewrite app_assoc, <- Hkl. destruct key_text as (Hk & _ & Hk72).
  rewrite strcat_zeros by (rewrite ?Hkl; try done; change (length GUID) with 36; lia).
  cbn [mbind res_bind]. rewrite <- app_assoc. assert (∀ l, drop 19 (key_prefix ++ l) = l) as H19 by done.
  rewrite H19. rewrite Hkl. change (length GUID) with 36.
  set (z := 128 - (19 + length key) - 36).
  assert (z = S (z - 1)) as -> by lia. cbn [replicate]. rewrite (app_assoc key GUID).
  assert (x00 ∉ key ++ GUID) as Hkg.
  { rewrite not_elem_of_app. split; [done|]. apply (bool_decide_unpack _). vm_compute. done. }
  rewrite strlen_app by done. cbn [mbind res_bind].
  rewrite rdn_ok by (rewrite !length_app; change (length key_prefix) with 19; lia).
  rewrite H19, take_app_length.
  cbn [mbind res_bind].
  rewrite wrn_zeros by (rewrite digest_length; lia). cbn [mbind res_bind]. rewrite digest_length.
  change (replicate (SHA_DIGEST_LENGTH + 1 - SHA_DIGEST_LENGTH) x00) with [x00].
  rewrite strlen_nul by set_solver. cbn [mbind res_bind]. rewrite till_nul_app. unfold base64_encode.
  pose proof (length_till_nul digest) as Hle.
  rewrite rdn_ok by (rewrite length_app; lia). rewrite drop_0, take_app_le, take_till_nul by lia.
  cbn [mbind res_bind]. rewrite Eb.
  rewrite (wrn_zeros 32) by (rewrite length_app; simpl; lia). cbn [mbind res_bind].
  rewrite length_app, Nat.add_1_r. cbn [mbind res_bind].
  unfold wr. rewrite decide_True by (rewrite !length_app; simpl; lia). cbn [mbind res_bind].
  rewrite insert_app_l, insert_app_r_alt, Nat.sub_diag by (rewrite ?length_app; simpl; lia).
  cbn [insert list_insert default from_option id].
  rewrite <- app_assoc. cbn [app]. rewrite cstr_app by done. cbn [mbind res_bind].
  unfold put_str. rewrite wrn_zeros.
  - rewrite <- app_assoc. cbn [app]. eexists. reflexivity.
  - rewrite !length_app. change (length response_head) with 97. change (length response_tail) with 4.
    unfold MAX_BUFFER_LENGTH. simpl. lia.
Qed.

(** A line in front of the key. *)
Definition other_line (l : list byte) : Prop :=
  l ≠ [] ∧ (x00 ∉ l) ∧ (x0d ∉ l) ∧ length l < 128 ∧ contains (lit "Sec-WebSocket-Key") l = false.

(** [handshake_line] on a line that is in the buffer at [level]. *)
Lemma line_read pre line tail : x00 ∈ tail → x00 ∉ pre ++ line → x0d ∉ line → length line < 128 →
  ∃ linebuf, readline (pre ++ line ++ CRLF ++ tail) (length pre) (replicate 128 x00) =
    Ok (Z.of_nat (length pre + length line + 2), linebuf) ∧ cstr linebuf = Ok line ∧
    linebuf = line ++ replicate (128 - length line) x00.
Proof.
  intros Ht Hnul Hcr Hl. eexists. split; [apply readline_spec; [done..|lia]|]. split; [|done].
  replace (128 - length line) with (S (127 - length line)) by lia. apply cstr_app. set_solver.
Qed.

Lemma handshake_lines cli_fd lines pre tail s :
  Forall other_line lines → x00 ∉ pre → x00 ∈ tail →
  yields chunks (cl_loop (handshake_line SHA1 b64 cli_fd
      (pre ++ wire_lines lines ++ (key_prefix ++ key) ++ CRLF ++ tail)) (length pre)) s tt
    (Conn (incoming s) (outgoing s ++ [handshake_response]) (closed s)).
Proof.
  intros Hlines Hpre Ht. destruct key_line_text as (Hk0 & Hkd & Hkl). destruct key_text as (_ & _ & Hk72).
  revert pre Hpre; induction Hlines as [|line lines (Hne & H0 & Hd & Hlen & Hno) Hlines IH]; intros pre Hpre.
  - destruct (line_read pre (key_prefix ++ key) tail) as (linebuf & Er & Ec & El); [set_solver|set_solver|done|lia|].
    eapply (yields_loop _ _ _ _ (inr tt)); [|by split]. unfold handshake_line. cbn [wire_lines fmap list_fmap concat app].
    eapply yields_bind; [eapply yields_pure, Er|]. eapply yields_bind; [eapply yields_pure, Ec|].
    change key_prefix with (lit "Sec-WebSocket-Key" ++ lit ": "). rewrite <- app_assoc, contains_prefix.
    destruct accept_key_spec as [post Ea]. rewrite El, Hkl, <- app_assoc.
    eapply yields_bind; [eapply yields_pure, Ea|].
    assert (x00 ∉ handshake_response) as Hresp.
    { destruct encoded as (_ & Hc & _). unfold handshake_response. rewrite !not_elem_of_app.
      split_and!; [|done|]; apply (bool_decide_unpack _); vm_compute; done. }
    eapply yields_bind; [eapply yields_pure; by apply strlen_app|]. rewrite take_app_length.
    eapply yields_bind; [by apply yields_call|]. apply yields_ret.
  - set (after := wire_lines lines ++ (key_prefix ++ key) ++ CRLF ++ tail).
    assert (pre ++ wire_lines (line :: lines) ++ (key_prefix ++ key) ++ CRLF ++ tail =
      pre ++ line ++ CRLF ++ after) as Eall.
    { unfold wire_lines. cbn [fmap list_fmap concat]. by rewrite <- !app_assoc. }
    rewrite Eall. destruct (line_read pre line after) as (linebuf & Er & Ec & _);
      [unfold after; rewrite !elem_of_app; auto|set_solver|done..|].
    specialize (IH (pre ++ line ++ CRLF)). rewrite <- !app_assoc in IH.
    assert (length (pre ++ line ++ CRLF) = length pre + length line + 2) as Elen by (rewrite !length_app; simpl; lia).
    rewrite Elen in IH.
    eapply (yields_loop _ _ _ _ (inl (length pre + length line + 2))); [|apply IH; unfold CRLF; set_solver].
    unfold handshake_line.
    eapply yields_bind; [eapply yields_pure, Er|]. eapply yields_bind; [eapply yields_pure, Ec|].
    rewrite Hno, (proj2 (Z.ltb_ge _ _)), Nat2Z.id by lia.
    assert (∃ c, (pre ++ line ++ CRLF ++ after) !! (length pre + length line + 2) = Some c ∧ c ≠ x0d) as (c & Hc & Hcd).
    { replace (pre ++ line ++ CRLF ++ after) with ((pre ++ line ++ CRLF) ++ after) by (by rewrite <- !app_assoc).
      rewrite <- Elen, lookup_app_r, Nat.sub_diag by lia. unfold after. destruct Hlines as [|l2 ? (Hne2 & _ & Hd2 & _)].
      - exists x53. split; [done|by intros ?].
      - destruct l2 as [|c l2]; [done|]. exists c. split; [done|]. set_solver. }
    eapply yields_bind; [eapply yields_pure, rd_lookup, Hc|]. rewrite decide_False by done.
    eapply yields_bind; [by eapply yields_pure|]. rewrite decide_False by naive_solver. apply yields_ret.
Qed.

(** C28: a request that comes in one piece, with lines of less than 128 characters in front of
    its key and no zero byte, and a zero behind it in the (uninitialised) buffer, is answered
    once, by the accept value for the key followed by the GUID; but the value is that of the
    digest up to its first zero byte, the whole digest only when it has none. *)
Theorem handshake_correct cli_fd lines rest more sent cl :
  let req := wire_lines lines ++ (key_prefix ++ key) ++ CRLF ++ rest in
  Forall other_line lines → x00 ∉ rest → length buffer_junk = MAX_BUFFER_LENGTH →
  length req ≤ MAX_BUFFER_LENGTH → x00 ∈ drop (length req) buffer_junk →
  yields chunks (handshake SHA1 b64 buffer_junk cli_fd) (Conn (req :: more) sent cl) 0%Z
    (Conn more (sent ++ [response_head ++ code ++ response_tail]) cl).
Proof.
  intros req Hlines Hrest Hj Hreq Hz. unfold handshake.
  eapply yields_bind; [by apply yields_call|]. cbn [fst snd].
  assert (length req ≠ 0) as Hne.
  { unfold req. rewrite !length_app. destruct key_line_text as (_ & _ & Hkl). rewrite length_app in Hkl. lia. }
  rewrite (proj2 (Z.leb_gt _ _)) by lia.
  eapply yields_bind; [apply yields_pure, wrn_ok; lia|]. cbn [Nat.add]. rewrite take_0. cbn [app].
  eapply yields_bind; [apply yields_pure, cstr_nul; set_solver|].
  eapply yields_bind; [|apply yields_ret].
  unfold req. rewrite <- !app_assoc. rewrite (app_assoc key_prefix key).
  apply (handshake_lines cli_fd lines [] _ (Conn more sent cl)); [done|set_solver|].
  apply elem_of_app. right. exact Hz.
Qed.
End handshake.

(** ** Witnesses *)

Definition toy_key : list byte := [x01; x02; x03; x04].

Lemma umask_involutive_witness :
  ∃ data, umask ([x61] ++ [x62; x63] ++ [x64]) 1 2 toy_key = Ok data ∧
    umask data 1 2 toy_key = Ok ([x61] ++ [x62; x63] ++ [x64]) ∧ take 1 data = [x61] ∧ drop (1 + 2) data = [x64].
Proof. apply (umask_involutive [x61] [x62; x63] [x64] toy_key). reflexivity. Defined.

Lemma frame_roundtrip_witness :
  ∃ stream buffer h0 h1,
    decode_packet (client_frame x81 toy_key [x68; x69] ++ [x00]) (replicate 4 x00) =
      Ok (stream, toy_key, 2, 6) ∧
    encode_packet (replicate (MAX_BUFFER_LENGTH + 14) x00) toy_key stream 6 2 = Ok (buffer, 2 + 2) ∧
    take (2 + 2) buffer = h0 :: h1 :: [x68; x69] ∧
    ophdr_of h0 h1 = Ophdr 1 0 0 0 1 (Z.of_nat 2) 0.
Proof. apply (frame_roundtrip x81 toy_key [x68; x69] [x00] (replicate 4 x00)); simpl; lia. Defined.

Lemma long_frame_misread_witness :
  let payload := replicate 200 x61 in
  let garbage := masked [x00; xc8; x01; x02] 0 (take 126 (x03 :: x04 :: masked toy_key 0 payload)) in
  reply_packet (x81 :: xfe :: x00 :: xc8 :: toy_key ++ masked toy_key 0 payload) =
    Ok (x81 :: x00 :: garbage) ∧ length garbage = 126 ∧ payload_length (ophdr_of x81 x00) = 0%Z.
Proof.
  apply (long_frame_misread x81 x00 xc8 x01 x02 x03 x04 (replicate 200 x61)); rewrite length_replicate; lia.
Defined.

Lemma full_chunk_overrun_witness :
  reply_packet (x81 :: x80 :: toy_key ++ replicate 1018 x61) = Err Undefined.
Proof.
  apply (full_chunk_overrun _ x81 x80 toy_key (replicate 1018 x61)); [reflexivity..|].
  apply (bool_decide_unpack _). vm_compute. reflexivity.
Defined.


Lemma handshake_correct_witness :
  let key := lit "dGhlIHNhbXBsZSBub25jZQ==" in
  let SHA1 := λ _ : list byte, replicate 20 x41 in
  let b64 := λ l : list byte, l ++ [x0a] in
  let req := wire_lines [lit "GET / HTTP/1.1"] ++ (key_prefix ++ key) ++ CRLF ++ CRLF in
  yields chunks (handshake SHA1 b64 (replicate 1024 x00) 5) (Conn [req] [] false) 0%Z
    (Conn [] [response_head ++ replicate 20 x41 ++ response_tail] false).
Proof.
  intros key SHA1 b64 req.
  apply (handshake_correct SHA1 b64 (replicate 1024 x00) key (replicate 20 x41)) with (sent := []).
  - split_and!; [apply (bool_decide_unpack _); vm_compute; reflexivity..|simpl; lia].
  - reflexivity.
  - split_and!; [reflexivity|apply (bool_decide_unpack _); vm_compute; reflexivity|simpl; lia].
  - constructor; [|constructor]. split_and!; [done| | |simpl; lia|vm_compute; reflexivity];
      apply (bool_decide_unpack _); vm_compute; reflexivity.
  - apply (bool_decide_unpack _); vm_compute; reflexivity.
  - reflexivity.
  - apply (bool_decide_unpack _); vm_compute; reflexivity.
  - apply (bool_decide_unpack _); vm_compute; reflexivity.
Defined.
