(* ===== verification/Http.v ===== *)
(** The HTTP server of src/sample/nty_http_server.c: the request of a client, the files and
    the messages that answer it, and the coroutines that accept and serve the clients.

    As in WebSocket.v, what uninitialised arrays hold is a parameter. [execute_cgi] is left
    out: [accept_request] sets [cgi] to zero before it looks at it. *)

From S2P Require Export CString Client.

Module Http.
Definition MAX_BUFFER_LENGTH : nat := 1024.
Definition SERVER_STRING : list byte := lit "Server: ntyco_httpd/0.1.0" ++ [x0d; x0a].
Definition MSG_PEEK : Z := 2.
(** A line of text with its end. *)
Definition crlf (s : string) : list byte := lit s ++ [x0d; x0a].

Section http.
Context `{OS}.
(** What the arrays of [accept_request] (1024, 255, 255 and 512 bytes) and the 1024 bytes
    of the other functions hold at first. *)
Variables (buf_junk method_junk url_junk path_junk : list byte).

(** ** Messages *)

(** [sprintf(buf, s); send(client, buf, strlen(buf), 0);] *)
Definition say (client : Z) (s buf : list byte) : cl (list byte) :=
  buf ← pure (put_str buf 0 s);
  n ← pure (strlen buf);
  call (api_send client (take n buf) 0);;
  mret buf.

(** [sprintf(buf, s); send(client, buf, sizeof(buf), 0);] *)
Definition say_buf (client : Z) (s buf : list byte) : cl (list byte) :=
  buf ← pure (put_str buf 0 s);
  call (api_send client buf 0);;
  mret buf.

Fixpoint say_all (client : Z) (l : list (list byte)) (buf : list byte) : cl (list byte) :=
  match l with
  | [] => mret buf
  | s :: l => buf ← say client s buf; say_all client l buf
  end.

Definition headers (client : Z) (filename : list byte) : cl unit :=
  say_all client
    [crlf "HTTP/1.0 200 OK"; SERVER_STRING; crlf "Content-Type: text/html"; crlf ""] buf_junk;;
  mret tt.

Definition not_found (client : Z) : cl unit :=
  say_all client
    [crlf "HTTP/1.0 404 NOT FOUND"; SERVER_STRING; crlf "Content-Type: text/html"; crlf "";
     crlf "<HTML><TITLE>Not Found</TITLE>";
     crlf "<BODY><P>The server could not fulfill";
     crlf "your request because the resource specified";
     crlf "is unavailable or nonexistent.";
     crlf "</BODY></HTML>"] buf_junk;;
  mret tt.

Definition unimplemented (client : Z) : cl unit :=
  say_all client
    [crlf "HTTP/1.0 501 Method Not Implemented"; SERVER_STRING; crlf "Content-Type: text/html"; crlf "";
     crlf "<HTML><HEAD><TITLE>Method Not Implemented";
     crlf "</TITLE></HEAD>";
     crlf "<BODY><P>HTTP request method not supported.";
     crlf "</BODY></HTML>"] buf_junk;;
  mret tt.

Definition cannot_execute (client : Z) : cl unit :=
  say_all client
    [crlf "HTTP/1.0 500 Internal Server Error"; crlf "Content-type: text/html"; crlf "";
     crlf "<P>Error prohibited CGI execution."] buf_junk;;
  mret tt.

Definition bad_request (client : Z) : cl unit :=
  buf ← say_buf client (crlf "HTTP/1.0 400 BAD REQUEST") buf_junk;
  buf ← say_buf client (crlf "Content-type: text/html") buf;
  buf ← say_buf client (crlf "") buf;
  buf ← say_buf client (lit "<P>Your browser sent a bad request, ") buf;
  say_buf client (crlf "such as a POST without a Content-Length.") buf;;
  mret tt.

Definition error_die {A} : cl A := pure (Err ProcExit).

(** ** Lines from the socket *)

(** The byte a [recv] of length one leaves in [c]. *)
Definition recv1 (sock : Z) (c : byte) (flags : Z) : cl (Z * byte) :=
  '(n, data) ← call (api_recv sock 1 flags);
  mret (n, match data with c' :: _ => c' | [] => c end).

(** One turn of the loop of [get_line]. *)
Definition get_line_step (sock : Z) (size : nat) (st : nat * byte * list byte) :
    cl ((nat * byte * list byte) + (nat * list byte)) :=
  let '(i, c, buf) := st in
  if decide (i < size - 1 ∧ c ≠ x0a) then
    '(n, c) ← recv1 sock c 0;
    if (0 <? n)%Z then
      c ← (if decide (c = x0d) then
             '(n, c) ← recv1 sock c MSG_PEEK;
             if decide ((0 < n)%Z ∧ c = x0a) then
               '(_, c) ← recv1 sock c 0;
               mret c
             else mret x0a
           else mret c);
      buf ← pure (wr buf i c);
      mret (inl (S i, c, buf))
    else mret (inl (i, x0a, buf))
  else
    buf ← pure (wr buf i x00);
    mret (inr (i, buf)).

Definition get_line (sock : Z) (buf : list byte) (size : nat) : cl (nat * list byte) :=
  cl_loop (get_line_step sock size) (0, x00, buf).

(** ** Files *)

(** An open file: the bytes that are left, and the end-of-file indicator. *)
Record FILE : Type := File { left_bytes : list byte; feof : bool }.

(** At most [n] characters, up to and with a line feed; whether the end was met. *)
Fixpoint fgets_chars (n : nat) (l : list byte) : list byte * list byte * bool :=
  match n with
  | O => ([], l, false)
  | S n =>
      match l with
      | [] => ([], [], true)
      | c :: l =>
          if decide (c = x0a) then ([c], l, false)
          else let '(s, l, e) := fgets_chars n l in (c :: s, l, e)
      end
  end.

(** [fgets(buf, size, stream)] *)
Definition fgets (buf : list byte) (size : nat) (f : FILE) : res (list byte * FILE) :=
  let '(s, l, e) := fgets_chars (size - 1) (left_bytes f) in
  let f := File l (feof f || e) in
  match s with
  | [] => Ok (buf, f)
  | _ => buf ← put_str buf 0 s; Ok (buf, f)
  end.

Definition cat (client : Z) (resource : FILE) : cl unit :=
  '(buf, resource) ← pure (fgets buf_junk 1024 resource);
  cl_loop (λ '(buf, resource),
    if feof resource then mret (inr tt)
    else
      n ← pure (strlen buf);
      call (api_send client (take n buf) 0);;
      st ← pure (fgets buf 1024 resource);
      mret (inl st)) (buf, resource).

(** The path is a string. *)
Definition serve_file (client : Z) (filename : list byte) : cl unit :=
  resource ← call (api_fopen filename);
  match resource with
  | None => not_found client;; pure (Err NullDeref)       (* fclose(NULL) *)
  | Some contents =>
      headers client filename;;
      cat client (File contents false)
  end.

(** ** Requests *)

(** [i = j = 0; while (!ISspace(buf[i]) && (i < sizeof(method) - 1)) method[i ++] = buf[i];
    method[i] = 0] *)
Fixpoint method_loop (n : nat) (buf method : list byte) (i : nat) : res (nat * list byte) :=
  match n with
  | O => Err OutOfFuel
  | S n =>
      c ← rd buf i;
      if negb (isspace c) && bool_decide (i < length method - 1) then
        method ← wr method i c;
        method_loop n buf method (S i)
      else
        method ← wr method i x00;
        Ok (i, method)
  end.

Fixpoint skip_space (n : nat) (buf : list byte) (j : nat) (numchars : Z) : res nat :=
  match n with
  | O => Err OutOfFuel
  | S n =>
      c ← rd buf j;
      if isspace c && (Z.of_nat j <? numchars)%Z then skip_space n buf (S j) numchars else Ok j
  end.

Fixpoint url_loop (n : nat) (buf url : list byte) (i j : nat) (numchars : Z) : res (list byte) :=
  match n with
  | O => Err OutOfFuel
  | S n =>
      c ← rd buf j;
      if negb (isspace c) && bool_decide (i < length url - 1) && (Z.of_nat j <? numchars)%Z then
        url ← wr url i c;
        url_loop n buf url (S i) (S j) numchars
      else wr url i x00
  end.

(** [query_string] moves to the first question mark, which ends the url. *)
Fixpoint cut_query (n : nat) (url : list byte) (q : nat) : res (list byte) :=
  match n with
  | O => Err OutOfFuel
  | S n =>
      c ← rd url q;
      if decide (c = x3f) then wr url q x00
      else if decide (c = x00) then Ok url
      else cut_query n url (S q)
  end.

(** The loops make at most as many turns as [buf] and [url] have bytes. *)
Definition parse_method (buf : list byte) : res (nat * list byte) :=
  '(i, method) ← method_loop 1025 buf method_junk 0;
  method ← cstr method;
  Ok (i, method).

(** From the end of the method to the path of the file. *)
Definition parse_path (buf method : list byte) (j : nat) (numchars : Z) : res (list byte) :=
  j ← skip_space 1026 buf j numchars;
  url ← url_loop 1026 buf url_junk 0 j numchars;
  url ← (if same_nocase method (lit "GET") then cut_query 256 url 0 else Ok url);
  u ← cstr url;
  path ← put_str path_junk 0 (lit "htdocs" ++ u);
  len ← strlen path;
  c ← (match len with O => Err Undefined | S n => rd path n end);
  if decide (c = x2f) then strcat path (lit "index.html") else Ok path.

Definition S_IFMT : Z := 0xf000.
Definition S_IFDIR : Z := 0x4000.

(** [strcmp("\n", buf) == 0] *)
Definition is_blank (buf : list byte) : res bool :=
  c ← rd buf 0;
  if decide (c = x0a) then d ← rd buf 1; Ok (bool_decide (d = x00)) else Ok false.

(** Read and discard headers. *)
Definition discard_headers (client : Z) (buf : list byte) (numchars : Z) : cl unit :=
  cl_loop (λ '(buf, numchars),
    blank ← pure (if (0 <? numchars)%Z then is_blank buf else Ok true);
    if (blank : bool) then mret (inr tt)
    else
      '(n, buf) ← get_line client buf 1024;
      mret (inl (buf, Z.of_nat n))) (buf, numchars).

(** *** [accept_request]

    The functions that answer are parameters, as nty_http_server_mulcore.c has the same text
    around others. *)
Section request.
Variables (unimplemented_ not_found_ : Z → cl unit) (serve_file_ : Z → list byte → cl unit).

(** The part behind the check of the method. *)
Definition serve_request (client : Z) (buf method : list byte) (i : nat) (numchars : Z) : cl unit :=
  path ← pure (parse_path buf method i numchars);
  p ← pure (cstr path);
  '(r, st_mode) ← call (api_stat p);
  (if (r =? -1)%Z then
     discard_headers client buf numchars;;
     not_found_ client
   else
     path ← pure (if (Z.land st_mode S_IFMT =? S_IFDIR)%Z then strcat path (lit "/index.html") else Ok path);
     p ← pure (cstr path);
     serve_file_ client p);;
  call (api_close client);;
  mret tt.

(** [arg] points to the descriptor, whose value stands for it. *)
Definition handle_request (client : Z) : cl unit :=
  '(n, data) ← call (api_recv client 1024 0);
  buf ← pure (wrn buf_junk 0 data);
  '(i, method) ← pure (parse_method buf);
  if negb (same_nocase method (lit "GET")) && negb (same_nocase method (lit "POST")) then
    unimplemented_ client
  else serve_request client buf method i (u64 n).
End request.

Definition accept_request : Z → cl unit := handle_request unimplemented not_found serve_file.

(** ** The server *)

Definition sockaddr_in (port : Z) : sockaddr :=
  le_bytes 2 2 ++ rev (le_bytes 2 port) ++ replicate 12 x00.
(** [ntohs(name.sin_port)] *)
Definition sin_port (name : sockaddr) : Z := le_val (rev (take 2 (drop 2 name))).

(** The socket and the port. *)
Definition startup (port : Z) : cl (Z * Z) :=
  httpd ← call (api_socket 2 1 0);
  if (httpd =? -1)%Z then error_die else
  r ← call (api_setsockopt_reuse httpd);
  if (r <? 0)%Z then error_die else
  r ← call (api_bind httpd (sockaddr_in port));
  if (r <? 0)%Z then error_die else
  port ←
    (if (port =? 0)%Z then
       '(r, name) ← call (api_getsockname httpd);
       if (r =? -1)%Z then error_die else mret (sin_port name)
     else mret port);
  r ← call (api_listen httpd 5);
  if (r <? 0)%Z then error_die else
  mret (httpd, port).

(** The functions that [nty_coroutine_create] is given. *)
Definition fn_server : Z := 0.
Definition fn_accept_request : Z := 1.

Definition server : cl unit :=
  '(server_sock, port) ← startup 4000;
  cl_loop (λ _ : unit,
    '(client_sock, _) ← call (api_accept server_sock);
    if (client_sock =? -1)%Z then error_die else
    call (api_create fn_accept_request client_sock);;
    mret (inl tt)) tt.

Definition http_code (func arg : Z) : itree apiE unit :=
  if (func =? fn_server)%Z then coroutine server else coroutine (accept_request arg).
End http.
End Http.
