(* ===== verification/Cgi.v ===== *)
(** [execute_cgi] of src/sample/nty_http_server.c and of src/sample/nty_http_server_mulcore.c,
    which have the same text: the headers of a request are read, a process is started for the
    script, and the bytes of the request and of the answer are passed on.

    [accept_request] never comes to call it, because it sets [cgi] to zero first. [fork]
    answers zero in the new process, whose run is the one with that answer. *)

From S2P Require Export Http.

Module Cgi.
Import Http.

Definition STDIN : Z := 0.
Definition STDOUT : Z := 1.

Section cgi.
Context `{OS}.
(** What [buf], the arrays of the environment and [c] hold at first. *)
Variables (buf_junk env_junk : list byte) (c_junk : byte).

(** ** The headers *)

(** One turn of the loop over the headers of a POST. *)
Definition header_step (client : Z) (st : list byte * Z * Z) : cl ((list byte * Z * Z) + Z) :=
  let '(buf, numchars, content_length) := st in
  blank ← pure (if (0 <? numchars)%Z then is_blank buf else Ok true);
  if (blank : bool) then mret (inr content_length)
  else
    buf ← pure (wr buf 15 x00);
    s ← pure (cstr buf);
    content_length ←
      (if same_nocase s (lit "Content-Length:") then pure (atoi (drop 16 buf)) else mret content_length);
    '(n, buf) ← get_line client buf 1024;
    mret (inl (buf, Z.of_nat n, content_length)).

(** The content length, or nothing when the function returns. *)
Definition read_headers (client : Z) (method : list byte) : cl (option Z) :=
  buf ← pure (put_str buf_junk 0 (lit "A"));
  if same_nocase method (lit "GET") then discard_headers client buf 1;; mret (Some (-1)%Z)
  else if same_nocase method (lit "POST") then
    '(n, buf) ← get_line client buf 1024;
    content_length ← cl_loop (header_step client) (buf, Z.of_nat n, (-1)%Z);
    if (content_length =? -1)%Z then bad_request buf_junk client;; mret None
    else mret (Some content_length)
  else mret (Some (-1)%Z).

(** ** The script *)

(** The two ends of a pipe are [fd[0]] and [fd[1]]. A successful [execl] does not return. *)
Definition cgi_child (path method query_string : list byte) (content_length : Z) (output input : Z * Z) : cl unit :=
  call (api_sys (sys_dup2 output.2 STDOUT));;
  call (api_sys (sys_dup2 input.1 STDIN));;
  call (api_close output.1);;
  call (api_close input.2);;
  meth_env ← pure (put_str env_junk 0 (lit "REQUEST_METHOD=" ++ method));
  s ← pure (cstr meth_env);
  call (api_sys (sys_putenv s));;
  env ← pure (put_str env_junk 0
    (if same_nocase method (lit "GET") then lit "QUERY_STRING=" ++ query_string
     else lit "CONTENT_LENGTH=" ++ decimal content_length));
  s ← pure (cstr env);
  call (api_sys (sys_putenv s));;
  call (api_sys (sys_execl path));;
  pure (Err ProcExit).

(** [for (i = 0; i < content_length; i++) { recv(client, &c, 1, 0); write(fd, &c, 1); }] *)
Definition body_step (client fd content_length : Z) (st : Z * byte) : cl (Z * byte + byte) :=
  let '(i, c) := st in
  if (i <? content_length)%Z then
    '(_, c) ← recv1 client c 0;
    call (api_hook_write fd [c]);;
    mret (inl ((i + 1)%Z, c))
  else mret (inr c).

(** [while (read(fd, &c, 1) > 0) send(client, &c, 1, 0);] *)
Definition output_step (client fd : Z) (c : byte) : cl (byte + unit) :=
  '(n, data) ← call (api_hook_read fd 1);
  if (0 <? n)%Z then
    let c := match data with c :: _ => c | [] => c end in
    call (api_send client [c] 0);;
    mret (inl c)
  else mret (inr tt).

Definition cgi_parent (client pid : Z) (method : list byte) (content_length : Z) (output input : Z * Z) : cl unit :=
  call (api_close output.2);;
  call (api_close input.1);;
  c ← (if same_nocase method (lit "POST")
       then cl_loop (body_step client input.2 content_length) (0%Z, c_junk) else mret c_junk);
  cl_loop (output_step client output.1) c;;
  call (api_close output.1);;
  call (api_close input.2);;
  call (api_sys (sys_waitpid pid));;
  mret tt.

Definition execute_cgi (client : Z) (path method query_string : list byte) : cl unit :=
  headers ← read_headers client method;
  match headers with
  | None => mret tt
  | Some content_length =>
      '(r, out0, out1) ← call (api_sys sys_pipe);
      if (r <? 0)%Z then cannot_execute buf_junk client else
      '(r, in0, in1) ← call (api_sys sys_pipe);
      if (r <? 0)%Z then cannot_execute buf_junk client else
      pid ← call (api_sys sys_fork);
      if (pid <? 0)%Z then cannot_execute buf_junk client else
      say client (crlf "HTTP/1.0 200 OK") buf_junk;;
      if (pid =? 0)%Z then cgi_child path method query_string content_length (out0, out1) (in0, in1)
      else cgi_parent client pid method content_length (out0, out1) (in0, in1)
  end.
End cgi.
End Cgi.
