(* ===== verification/HttpParse.v ===== *)
(** The parsers of Http.v: what they find in a request that is one, that they stay inside their
    arrays when a request does not fill its own, and that they do not when it does. The sizes
    of the arrays differ between the servers. *)

From S2P Require Export Http.
Import Http.

Lemma put_str_spec s buf : length s < length buf →
  put_str buf 0 s = Ok (s ++ x00 :: drop (S (length s)) buf).
Proof.
  intros Hl. unfold put_str. rewrite wrn_ok by (rewrite length_app; simpl; lia).
  rewrite take_0, length_app, Nat.add_0_l, Nat.add_1_r. cbn [app]. by rewrite <- app_assoc.
Qed.

(** [buf] with the string [l] written at [i]. *)
Definition ended (i : nat) (l buf : list byte) : list byte :=
  take i buf ++ l ++ x00 :: drop (S (i + length l)) buf.

Lemma ended_nil i buf : i < length buf → wr buf i x00 = Ok (ended i [] buf).
Proof.
  intros Hi. unfold wr, ended. rewrite decide_True by done. rewrite insert_take_drop by done. simpl.
  by rewrite Nat.add_0_r.
Qed.

Lemma ended_cons i c l buf : i < length buf → ended (S i) l (<[i:=c]> buf) = ended i (c :: l) buf.
Proof.
  intros Hi. unfold ended. rewrite (take_S_r _ _ c) by (by apply list_lookup_insert_eq).
  rewrite take_insert_ge, drop_insert_lt by lia. rewrite <- app_assoc. cbn [app length].
  by rewrite Nat.add_succ_r.
Qed.

(** ** Parsing *)

(** A word of a request: no white space and no zero. *)
Definition word (w : list byte) : Prop := Forall (λ c, isspace c = false ∧ c ≠ x00) w.

Lemma word_no_nul w : word w → x00 ∉ w.
Proof. intros Hw Hin. by destruct (proj1 (Forall_forall _ _) Hw _ Hin). Qed.

Lemma lookup_at (pre : list byte) c l : (pre ++ c :: l) !! length pre = Some c.
Proof. by rewrite lookup_app_r, Nat.sub_diag by lia. Qed.

Lemma method_loop_word w pre sp rest method n i :
  word w → isspace sp = true → i = length pre → i + length w < length method → length w < n →
  method_loop n (pre ++ w ++ sp :: rest) method i = Ok (i + length w, ended i w method).
Proof.
  intros Hw Hsp. revert pre method n i; induction Hw as [|c w [Hc _] _ IH];
    intros pre method [|n] i -> Hi Hn; simpl in Hn; try lia; cbn [app method_loop].
  - rewrite (rd_lookup _ _ _ (lookup_at pre sp rest)). cbn [mbind res_bind]. rewrite Hsp. cbn [negb andb].
    rewrite ended_nil by lia. by rewrite Nat.add_0_r.
  - rewrite (rd_lookup _ _ _ (lookup_at pre c _)). cbn [mbind res_bind]. cbn [length] in *.
    rewrite Hc, bool_decide_true by lia. cbn [negb andb]. unfold wr. rewrite decide_True by lia.
    cbn [mbind res_bind]. specialize (IH (pre ++ [c]) (<[length pre:=c]> method) n (S (length pre))).
    rewrite <- app_assoc in IH. cbn [app] in IH. rewrite IH, ended_cons by
      (rewrite ?length_app, ?length_insert; simpl; lia). by rewrite Nat.add_succ_r.
Qed.

Lemma url_loop_word w pre sp rest url n i numchars :
  word w → isspace sp = true → i + length w < length url → length w < n →
  (Z.of_nat (length pre + length w) ≤ numchars)%Z →
  url_loop n (pre ++ w ++ sp :: rest) url i (length pre) numchars = Ok (ended i w url).
Proof.
  intros Hw Hsp. revert pre url n i; induction Hw as [|c w [Hc _] _ IH];
    intros pre url [|n] i Hi Hn Hnum; simpl in Hn; try lia; cbn [app url_loop].
  - rewrite (rd_lookup _ _ _ (lookup_at pre sp rest)). cbn [mbind res_bind]. rewrite Hsp. cbn [negb andb].
    by rewrite ended_nil by lia.
  - rewrite (rd_lookup _ _ _ (lookup_at pre c _)). cbn [mbind res_bind]. cbn [length] in *.
    rewrite Hc, bool_decide_true, (proj2 (Z.ltb_lt _ _)) by lia. cbn [negb andb]. unfold wr.
    rewrite decide_True by lia. cbn [mbind res_bind].
    specialize (IH (pre ++ [c]) (<[i:=c]> url) n (S i)).
    rewrite <- app_assoc, length_app in IH. cbn [app length] in IH. rewrite Nat.add_1_r in IH.
    rewrite IH, ended_cons by (rewrite ?length_insert; lia). done.
Qed.

(** The url up to its question mark. *)
Fixpoint before_query (u : list byte) : list byte :=
  match u with [] => [] | c :: u => if decide (c = x3f) then [] else c :: before_query u end.

Lemma before_query_length u : length (before_query u) ≤ length u.
Proof. induction u as [|c u IH]; simpl; [lia|]. case_decide; simpl; lia. Qed.

Lemma before_query_no_nul u : x00 ∉ u → x00 ∉ before_query u.
Proof.
  induction u as [|c u IH]; simpl; [done|]. rewrite not_elem_of_cons. intros [Hc Hu].
  case_decide; [apply not_elem_of_nil|]. rewrite not_elem_of_cons. auto.
Qed.

Lemma cut_query_spec u pre rest n :
  x00 ∉ u → length u < n →
  ∃ rest', cut_query n (pre ++ u ++ x00 :: rest) (length pre) = Ok (pre ++ before_query u ++ x00 :: rest').
Proof.
  revert pre n; induction u as [|c u IH]; intros pre [|n] Hu Hn; simpl in Hn; try lia; cbn [app cut_query].
  - rewrite (rd_lookup _ _ _ (lookup_at pre x00 rest)). cbn [mbind res_bind].
    rewrite decide_False, decide_True by done. by exists rest.
  - rewrite (rd_lookup _ _ _ (lookup_at pre c _)). cbn [mbind res_bind before_query].
    rewrite not_elem_of_cons in Hu. destruct Hu as [Hc Hu]. destruct (decide (c = x3f)) as [E|E].
    + unfold wr. rewrite decide_True by (rewrite length_app; simpl; lia).
      rewrite insert_app_r_alt, Nat.sub_diag by lia. cbn [insert list_insert]. eexists. reflexivity.
    + rewrite decide_False by congruence. destruct (IH (pre ++ [c]) n Hu) as [rest' E']; [lia|].
      exists rest'. rewrite <- !app_assoc, length_app in E'. cbn [app length] in E'.
      rewrite Nat.add_1_r in E'. exact E'.
Qed.

(** The file a url stands for. *)
Definition path_of (u : list byte) : list byte :=
  let p := lit "htdocs" ++ u in
  match last p with Some x2f => p ++ lit "index.html" | _ => p end.

Lemma skip_one pre sp c rest numchars n : isspace sp = true → isspace c = false →
  (Z.of_nat (length pre) < numchars)%Z →
  skip_space (S (S n)) (pre ++ sp :: c :: rest) (length pre) numchars = Ok (S (length pre)).
Proof.
  intros Hsp Hc Hn. cbn [skip_space]. rewrite (rd_lookup _ _ _ (lookup_at pre sp _)). cbn [mbind res_bind].
  rewrite Hsp, (proj2 (Z.ltb_lt _ _)) by done. cbn [andb].
  pose proof (lookup_at (pre ++ [sp]) c rest) as Hl. rewrite <- app_assoc, length_app, Nat.add_1_r in Hl. cbn [app] in Hl.
  rewrite (rd_lookup _ _ _ Hl). cbn [mbind res_bind]. by rewrite Hc.
Qed.

Lemma path_spec (path_junk u : list byte) : length u + 17 ≤ length path_junk → x00 ∉ u →
  ∃ path rest,
    (path ← put_str path_junk 0 (lit "htdocs" ++ u);
     len ← strlen path;
     c ← (match len with O => Err Undefined | S n => rd path n end);
     if decide (c = x2f) then strcat path (lit "index.html") else Ok path) = Ok path ∧
    path = path_of u ++ x00 :: rest ∧ length path = length path_junk.
Proof.
  intros Hj H0. set (p := lit "htdocs" ++ u).
  assert (length p = 6 + length u) as Hp by (unfold p; by rewrite length_app).
  assert (x00 ∉ p) as Hp0.
  { unfold p. rewrite not_elem_of_app. split; [|done]. apply (bool_decide_unpack _). by vm_compute. }
  rewrite put_str_spec by lia. cbn [mbind res_bind]. rewrite strlen_app by done. cbn [mbind res_bind].
  destruct (last p) as [c|] eqn:El; [|by apply last_None in El; rewrite El in Hp].
  apply last_Some in El as [p' El]. rewrite El, length_app, Nat.add_1_r. rewrite <- app_assoc. cbn [app].
  rewrite (rd_lookup _ _ _ (lookup_at p' c _)). cbn [mbind res_bind].
  assert (length (p' ++ c :: x00 :: drop (S (S (length p'))) path_junk) = length path_junk) as Hl.
  { rewrite length_app, !length_cons, length_drop. rewrite El, length_app in Hp. simpl in Hp. lia. }
  assert (path_of u = if decide (c = x2f) then p ++ lit "index.html" else p) as Epath.
  { unfold path_of. fold p. rewrite El, last_snoc. case_decide as E; [by subst|]. by destruct c. }
  rewrite Epath. destruct (decide (c = x2f)) as [E|E].
  - destruct (strcat_spec (p' ++ c :: x00 :: drop (S (S (length p'))) path_junk) p (lit "index.html")
      (drop (S (S (length p'))) path_junk)) as (rest & Es & Els); [by rewrite El, <- app_assoc|done| |].
    { rewrite Hl, Hp. simpl. lia. }
    exists (p ++ lit "index.html" ++ x00 :: rest), rest. rewrite <- app_assoc. split; [exact Es|].
    split; [done|]. by rewrite Els.
  - exists (p' ++ c :: x00 :: drop (S (S (length p'))) path_junk), (drop (S (S (length p'))) path_junk).
    split_and!; [done| |done]. by rewrite El, <- app_assoc.
Qed.

(** The loops on any array. *)
Lemma method_loop_total n i buf method :
  length buf = 1024 → length method ≤ 1024 → i < length method → length method - i ≤ n →
  ∃ i' method', method_loop n buf method i = Ok (i', method') ∧ i' < length method ∧ x00 ∈ method'.
Proof.
  intros Hb. revert i method; induction n as [|n IH]; intros i method Hm Hi Hn; [lia|]. cbn [method_loop].
  destruct (rd_ok buf i) as (c & -> & _); [lia|]. cbn [mbind res_bind].
  assert (∀ c', wr method i c' = Ok (<[i:=c']> method)) as Hw by (intros c'; unfold wr; by rewrite decide_True by lia).
  rewrite !Hw. destruct (negb (isspace c) && bool_decide (i < length method - 1)) eqn:E; cbn [mbind res_bind].
  - apply andb_prop in E as [_ E%bool_decide_eq_true]. rewrite <- (length_insert method i c).
    apply IH; rewrite length_insert; lia.
  - eexists _, _. split; [done|]. split; [lia|]. apply (list_elem_of_lookup_2 _ i).
    apply list_lookup_insert_eq. lia.
Qed.

Lemma skip_space_total n j buf numchars :
  length buf = 1024 → (numchars < 1024)%Z → j < 1024 → 1024 - j < n →
  ∃ j', skip_space n buf j numchars = Ok j' ∧ j' < 1024.
Proof.
  intros Hb Hnum. revert j; induction n as [|n IH]; intros j Hj Hn; [lia|]. cbn [skip_space].
  destruct (rd_ok buf j) as (c & -> & _); [lia|]. cbn [mbind res_bind].
  destruct (isspace c && (Z.of_nat j <? numchars)%Z) eqn:E; [|eauto].
  apply andb_prop in E as [_ E%Z.ltb_lt]. apply IH; lia.
Qed.

Lemma url_loop_total n i j buf url numchars :
  length buf = 1024 → (numchars < 1024)%Z → i < length url → j < 1024 → length url - i ≤ n →
  ∃ url', url_loop n buf url i j numchars = Ok url' ∧ x00 ∈ url' ∧ length url' = length url.
Proof.
  intros Hb Hnum. revert i j url; induction n as [|n IH]; intros i j url Hi Hj Hn; [lia|]. cbn [url_loop].
  destruct (rd_ok buf j) as (c & -> & _); [lia|]. cbn [mbind res_bind].
  assert (∀ c', wr url i c' = Ok (<[i:=c']> url)) as Hw by (intros c'; unfold wr; by rewrite decide_True by lia).
  rewrite !Hw. destruct (_ && _ && _) eqn:E; cbn [mbind res_bind].
  - apply andb_prop in E as [[_ E%bool_decide_eq_true]%andb_prop E'%Z.ltb_lt].
    rewrite <- (length_insert url i c). apply IH; rewrite ?length_insert; lia.
  - eexists. split; [done|]. split; [|by rewrite length_insert].
    apply (list_elem_of_lookup_2 _ i). apply list_lookup_insert_eq. lia.
Qed.

(** The sizes of the arrays: a path has room for the directory, the url and the index twice. *)
Record rooms (method_junk url_junk path_junk : list byte) : Prop := Rooms {
  method_room : 0 < length method_junk ≤ 1024;
  url_room : 0 < length url_junk ≤ 256;
  path_room : length url_junk + 27 ≤ length path_junk;
}.

Section parse.
Variables (method_junk url_junk path_junk : list byte).
Hypothesis room : rooms method_junk url_junk path_junk.

(** The first words of a request in the array, as the parsers find them. *)
Section request.
Variables (m u rest : list byte) (sp sp2 : byte) (numchars : Z).
Hypothesis m_word : word m.
Hypothesis m_length : length m < length method_junk.
Hypothesis sp_space : isspace sp = true.
Local Abbreviation buf := (m ++ sp :: u ++ sp2 :: rest).

Lemma parse_method_spec : parse_method method_junk buf = Ok (length m, m).
Proof.
  destruct room. unfold parse_method.
  assert (method_loop 1025 buf method_junk 0 = Ok (0 + length m, ended 0 m method_junk)) as ->
    by (apply (method_loop_word m []); done || lia).
  cbn [mbind res_bind Nat.add].
  unfold ended. rewrite take_0. cbn [app]. rewrite cstr_app; [done|by apply word_no_nul].
Qed.

Lemma parse_path_spec : word u → u ≠ [] → length u < length url_junk → isspace sp2 = true →
  (Z.of_nat (length m + 1 + length u) ≤ numchars)%Z →
  ∃ path post, parse_path url_junk path_junk buf m (length m) numchars = Ok path ∧
    path = path_of (if same_nocase m (lit "GET") then before_query u else u) ++ x00 :: post ∧
    length path = length path_junk.
Proof.
  destruct room. intros Hu Hne Hul Hsp2 Hnum. unfold parse_path. destruct u as [|c v] eqn:Eu; [done|]. rewrite <- Eu in *.
  assert (isspace c = false) as Hc by (subst; by inversion Hu as [|? ? [? _]]).
  assert (skip_space 1026 buf (length m) numchars = Ok (S (length m))) as ->.
  { rewrite Eu. cbn [app]. apply skip_one; [done..|]. lia. }
  cbn [mbind res_bind].
  pose proof (url_loop_word u (m ++ [sp]) sp2 rest url_junk 1026 0 numchars) as Hloop.
  rewrite <- app_assoc, length_app, Nat.add_1_r in Hloop. cbn [app] in Hloop.
  rewrite Hloop by (done || lia). clear Hloop. cbn [mbind res_bind].
  unfold ended. rewrite take_0. cbn [app Nat.add]. pose proof (word_no_nul u Hu) as H0.
  set (u' := if same_nocase m (lit "GET") then before_query u else u).
  assert (∃ post, (if same_nocase m (lit "GET") then cut_query 256 (u ++ x00 :: drop (S (length u)) url_junk) 0
    else Ok (u ++ x00 :: drop (S (length u)) url_junk)) = Ok (u' ++ x00 :: post)) as [post ->].
  { unfold u'. destruct (same_nocase m (lit "GET")); [|by eexists].
    apply (cut_query_spec u [] _ 256); [done|lia]. }
  cbn [mbind res_bind].
  assert ((x00 ∉ u') ∧ length u' < length url_junk) as [Hu0 Hu'].
  { unfold u'. destruct (same_nocase m (lit "GET")); [|by split]. pose proof (before_query_length u).
    split; [by apply before_query_no_nul|lia]. }
  rewrite cstr_app by done. cbn [mbind res_bind].
  destruct (path_spec path_junk u') as (path & post' & E & Hpath); [lia|done|]. exists path, post'. by split.
Qed.
End request.


(** ** Any request *)

Lemma parse_method_total buf : length buf = 1024 →
  ∃ i method, parse_method method_junk buf = Ok (i, method) ∧ i < length method_junk.
Proof.
  destruct room. intros Hb. unfold parse_method.
  destruct (method_loop_total 1025 0 buf method_junk) as (i & method & -> & Hi & Hm0); [done|lia..|].
  cbn [mbind res_bind]. rewrite cstr_nul by done. cbn [mbind res_bind]. eauto.
Qed.

Lemma parse_path_total buf method i numchars :
  length buf = 1024 → (numchars < 1024)%Z → i < length method_junk →
  ∃ u post, parse_path url_junk path_junk buf method i numchars = Ok (path_of u ++ x00 :: post) ∧
    (x00 ∉ u) ∧ length u < length url_junk ∧ length (path_of u ++ x00 :: post) = length path_junk.
Proof.
  destruct room. intros Hb Hnum Hi. unfold parse_path.
  destruct (skip_space_total 1026 i buf numchars) as (j & -> & Hj); [done|done|lia|lia|]. cbn [mbind res_bind].
  destruct (url_loop_total 1026 0 j buf url_junk numchars) as (url & -> & Hu & Hul); [done|done|lia|done|lia|].
  cbn [mbind res_bind]. destruct (till_nul_split url Hu) as [rest E].
  assert (length (till_nul url) < length url_junk) as Htl by (rewrite E, length_app, length_cons in Hul; lia).
  pose proof (till_nul_no_nul url) as Hn0.
  assert (∃ u post, (if same_nocase method (lit "GET") then cut_query 256 url 0 else Ok url) = Ok (u ++ x00 :: post) ∧
    (x00 ∉ u) ∧ length u < length url_junk) as (u & post & -> & Hu0 & Hul').
  { destruct (same_nocase method (lit "GET")); [|by exists (till_nul url), rest; rewrite E at 1].
    destruct (cut_query_spec (till_nul url) [] rest 256) as [rest' Ec]; [done|lia|].
    cbn [app length] in Ec. rewrite <- E in Ec. exists (before_query (till_nul url)), rest'.
    split; [done|]. pose proof (before_query_length (till_nul url)). split; [by apply before_query_no_nul|lia]. }
  cbn [mbind res_bind]. rewrite cstr_app by done. cbn [mbind res_bind].
  destruct (path_spec path_junk u) as (path & post' & -> & -> & Hl); [lia|done|].
  exists u, post'. done.
Qed.

End parse.

Lemma path_of_text u : x00 ∉ u → (x00 ∉ path_of u) ∧ length (path_of u) ≤ length u + 16.
Proof.
  intros Hu. assert ((x00 ∉ lit "htdocs") ∧ (x00 ∉ lit "index.html")) as [H1 H2]
    by (split; apply (bool_decide_unpack _); by vm_compute).
  unfold path_of. set (p := lit "htdocs" ++ u).
  assert (length p = 6 + length u) as Hl by (unfold p; by rewrite length_app).
  assert (x00 ∉ p) as Hp by (unfold p; rewrite not_elem_of_app; by split). clearbody p.
  assert ((x00 ∉ p ++ lit "index.html") ∧ length (p ++ lit "index.html") ≤ length u + 16) as Hi.
  { rewrite not_elem_of_app, length_app, Hl. simpl. split; [by split|]. clear. lia. }
  assert (length p ≤ length u + 16) as Hle by (rewrite Hl; clear; lia).
  by destruct (last p) as [[]|].
Qed.

Lemma below_htdocs u s : is_prefix (lit "htdocs") (path_of u ++ s) = true.
Proof.
  unfold path_of. destruct (last _) as [[]|]; rewrite <- ?app_assoc; apply is_prefix_app.
Qed.

(** ** A request that fills its array *)

Lemma skip_space_overrun n buf j numchars :
  (∀ k c, j ≤ k → buf !! k = Some c → isspace c = true) → (Z.of_nat (length buf) ≤ numchars)%Z →
  j ≤ length buf → length buf - j < n → skip_space n buf j numchars = Err Undefined.
Proof.
  intros Hall Hnum. revert j Hall; induction n as [|n IH]; intros j Hall Hj Hn; [lia|]. cbn [skip_space].
  destruct (buf !! j) as [c|] eqn:E; [|by unfold rd; rewrite E].
  rewrite (rd_lookup _ _ _ E). cbn [mbind res_bind]. pose proof (lookup_lt_Some _ _ _ E).
  rewrite (Hall j c), (proj2 (Z.ltb_lt _ _)) by (done || lia). cbn [andb].
  apply IH; [|lia..]. intros k c' Hk. apply Hall. lia.
Qed.

