(* ===== verification/HttpLines.v ===== *)
(** [get_line] of Http.v reads the lines of a client, in every environment whose receives give
    what the client has sent. *)

From S2P Require Export HttpParse.
Import Http.

(** What the comment on [get_line] promises: at most [n] characters of a line, whose end (a
    line feed, a carriage return, or both) becomes one line feed; and what is left. *)
Fixpoint spec_line (n : nat) (inp : list byte) : list byte * list byte :=
  match n, inp with
  | O, _ => ([], inp)
  | _, [] => ([], [])
  | S n, c :: r =>
      if decide (c = x0d) then ([x0a], match r with d :: r' => if decide (d = x0a) then r' else r | [] => [] end)
      else if decide (c = x0a) then ([x0a], r)
      else let '(l, rest) := spec_line n r in (c :: l, rest)
  end.

Lemma spec_line_length n inp : length (spec_line n inp).1 ≤ n.
Proof.
  revert inp; induction n as [|n IH]; intros [|c inp]; simpl; [lia..|].
  destruct (decide (c = x0d)); [simpl; lia|]. destruct (decide (c = x0a)); [simpl; lia|].
  specialize (IH inp). destruct (spec_line n inp). simpl in *. lia.
Qed.


(** An environment whose state holds the bytes that are not received yet, of which a receive
    gives as many as asked for and there are; with [MSG_PEEK] it leaves them. *)
Class Reads `{OS} {St : Type} (env : ∀ A, apiE A → St → A * St) := {
  unread : St → list byte;
  keep : list byte → St → St;
  unread_keep l s : unread (keep l s) = l;
  keep_keep l l' s : keep l (keep l' s) = keep l s;
  keep_unread s : keep (unread s) s = s;
  recv_reads sock len flags s :
    env _ (api_recv sock len flags) s =
      let data := take (Z.to_nat len) (unread s) in
      ((Z.of_nat (length data), data),
       if (flags =? MSG_PEEK)%Z then s else keep (drop (Z.to_nat len) (unread s)) s);
}.

Section lines.
Context `{OS} {St : Type} (env : ∀ A, apiE A → St → A * St) `{!Reads env}.

Lemma recv1_some sock c d inp s :
  yields env (recv1 sock c 0) (keep (d :: inp) s) (1%Z, d) (keep inp s).
Proof.
  eapply yields_bind; [apply yields_call; rewrite recv_reads, unread_keep, keep_keep; reflexivity|]. apply yields_ret.
Qed.
Lemma recv1_peek sock c d inp s :
  yields env (recv1 sock c MSG_PEEK) (keep (d :: inp) s) (1%Z, d) (keep (d :: inp) s).
Proof. eapply yields_bind; [apply yields_call; rewrite recv_reads, unread_keep; reflexivity|]. apply yields_ret. Qed.
Lemma recv1_none sock c flags s :
  yields env (recv1 sock c flags) (keep [] s) (0%Z, c) (keep [] s).
Proof.
  eapply yields_bind; [apply yields_call; rewrite recv_reads, unread_keep; reflexivity|].
  rewrite keep_keep, take_nil, drop_nil. cbn [length Z.of_nat mbind]. destruct (flags =? MSG_PEEK)%Z; apply yields_ret.
Qed.

(** The turns of [get_line_step]. *)
Lemma step_full sock size i c buf s : ¬ (i < size - 1 ∧ c ≠ x0a) → i < length buf →
  yields env (cl_loop (get_line_step sock size) (i, c, buf)) s (i, ended i [] buf) s.
Proof.
  intros Hn Hi. eapply (yields_loop _ _ _ _ (inr _)); [|by split]. unfold get_line_step.
  rewrite decide_False by done. eapply yields_bind; [by apply yields_pure, ended_nil|]. apply yields_ret.
Qed.

Lemma step_char sock size i c buf c1 c2 inp rest s r s' :
  i < size - 1 → c ≠ x0a → size ≤ length buf →
  (c1 = x0d → c2 = x0a ∧ rest = match inp with d :: r' => if decide (d = x0a) then r' else inp | [] => [] end) →
  (c1 ≠ x0d → c2 = c1 ∧ rest = inp) →
  yields env (cl_loop (get_line_step sock size) (S i, c2, <[i:=c2]> buf)) (keep rest s) r s' →
  yields env (cl_loop (get_line_step sock size) (i, c, buf)) (keep (c1 :: inp) s) r s'.
Proof.
  intros Hi Hc Hl Hcr Hncr Hnext. eapply (yields_loop _ _ _ _ (inl (S i, c2, <[i:=c2]> buf))); [|exact Hnext].
  unfold get_line_step. rewrite decide_True by done.
  eapply yields_bind; [apply recv1_some|]. cbn [Z.ltb Z.compare].
  eapply (yields_bind _ _ _ _ c2 (keep rest s)).
  - destruct (decide (c1 = x0d)) as [E|E]; [|destruct (Hncr E) as [-> ->]; apply yields_ret].
    destruct (Hcr E) as [-> ->]. destruct inp as [|d r']; cbn.
    { eapply yields_bind; [apply recv1_none|]. apply yields_ret. }
    eapply yields_bind; [apply recv1_peek|]. destruct (decide (d = x0a)) as [->|Hd].
    + rewrite decide_True by done. eapply yields_bind; [apply recv1_some|]. apply yields_ret.
    + rewrite decide_False by naive_solver. apply yields_ret.
  - eapply yields_bind; [apply yields_pure; unfold wr; by rewrite decide_True by lia|]. apply yields_ret.
Qed.

Lemma get_line_loop sock size n i c buf inp s l rest :
  n = size - 1 - i → i < size → c ≠ x0a → size ≤ length buf → spec_line n inp = (l, rest) →
  yields env (cl_loop (get_line_step sock size) (i, c, buf)) (keep inp s)
    (i + length l, ended i l buf) (keep rest s).
Proof.
  revert i c buf inp l rest; induction n as [|n IH]; intros i c buf inp l rest Hn Hi Hc Hb Hs.
  { simpl in Hs. simplify_eq. rewrite Nat.add_0_r. apply step_full; lia. }
  destruct inp as [|c1 inp]; simpl in Hs.
  { simplify_eq. eapply (yields_loop _ _ _ _ (inl (i, x0a, buf))).
    - unfold get_line_step. rewrite decide_True by (split; [lia|done]).
      eapply yields_bind; [apply recv1_none|]. apply yields_ret.
    - rewrite Nat.add_0_r. apply step_full; [naive_solver|lia]. }
  assert (∀ rest', yields env (cl_loop (get_line_step sock size) (S i, x0a, <[i:=x0a]> buf)) (keep rest' s)
    (S i, ended i [x0a] buf) (keep rest' s)) as Hend.
  { intros rest'. rewrite <- ended_cons by lia. apply step_full; [naive_solver|rewrite length_insert; lia]. }
  destruct (decide (c1 = x0d)) as [E|E]; [|destruct (decide (c1 = x0a)) as [E'|E']].
  - simplify_eq. rewrite Nat.add_1_r. eapply step_char; [lia|done..| | |apply Hend]; [done|done].
  - simplify_eq. rewrite Nat.add_1_r. eapply step_char; [lia|done..| | |apply Hend]; [done|done].
  - destruct (spec_line n inp) as [l' rest'] eqn:Es. simplify_eq. cbn [length].
    rewrite Nat.add_succ_r, <- ended_cons by lia.
    eapply step_char; [lia|done..| | |apply (IH (S i))]; try done; [lia|lia|].
    by rewrite length_insert.
Qed.

(** [get_line] in such an environment. *)
Lemma get_line_reads sock buf size s l rest :
  0 < size ≤ length buf → spec_line (size - 1) (unread s) = (l, rest) →
  yields env (get_line sock buf size) s (length l, l ++ x00 :: drop (S (length l)) buf) (keep rest s).
Proof.
  intros [Hs Hb] Hl. rewrite <- (keep_unread s) at 1.
  apply (get_line_loop sock size (size - 1) 0 x00 buf (unread s) s l rest); [lia|done..].
Qed.
End lines.
