(* ===== verification/HttpRequest.v ===== *)
(** What the requests to nty_http_server.c and nty_http_server_mulcore.c have in common: a client
    and its files, messages, and how [handle_request] finds the file a request asks for, for
    arrays of any sizes that fit together and whatever functions answer. *)

From S2P Require Export HttpLines ToyOS.
Import Http.

(** ** A client and a file system *)

(** The bytes the client has sent and are not received yet, what it was sent, and whether
    its connection was closed. *)
Record web : Type := Web { web_in : list byte; web_out : list byte; web_closed : bool }.

Section env.
Context `{OS}.
(** Mode and contents of the files. *)
Variable files : list byte → option (Z * list byte).

Definition stream (A : Type) (e : apiE A) : web → A * web :=
  match e in apiE A return web → A * web with
  | api_recv _ len flags => λ s,
      let data := take (Z.to_nat len) (web_in s) in
      ((Z.of_nat (length data), data),
       if (flags =? MSG_PEEK)%Z then s
       else Web (drop (Z.to_nat len) (web_in s)) (web_out s) (web_closed s))
  | api_send _ data _ => λ s,
      (Z.of_nat (length data), Web (web_in s) (web_out s ++ data) (web_closed s))
  | api_close _ => λ s, (0%Z, Web (web_in s) (web_out s) true)
  | api_stat p => λ s, (match files p with Some (mode, _) => (0, mode) | None => (-1, 0) end%Z, s)
  | api_fopen p => λ s, (snd <$> files p, s)
  | e => λ s, (no_answer e, s)
  end.

(** [m] sends [out] and changes nothing else. *)
Definition says {A} (m : cl A) (out : list byte) (s : web) (a : A) : Prop :=
  yields stream m s a (Web (web_in s) (web_out s ++ out) (web_closed s)).

(** A message: it fits its array with its zero. *)
Definition message (s : list byte) : Prop := (x00 ∉ s) ∧ length s < 1024.

Definition is_message (s : list byte) : bool := forallb (λ c, negb (Byte.eqb c x00)) s && (length s <? 1024).
Lemma messages_ok l : forallb is_message l = true → Forall message l.
Proof.
  intros Hl. apply Forall_forall. intros s Hs. rewrite forallb_forall in Hl.
  specialize (Hl s ltac:(by apply list_elem_of_In)). apply andb_prop in Hl as [H0 H1%Nat.ltb_lt].
  split; [|done]. intros Hin%list_elem_of_In. rewrite forallb_forall in H0. by apply H0 in Hin.
Qed.

Lemma says_say client s buf st : message s → length buf = 1024 →
  ∃ buf', says (say client s buf) s st buf' ∧ length buf' = 1024.
Proof.
  intros [H0 Hs] Hb. exists (s ++ x00 :: drop (S (length s)) buf). split.
  - eapply yields_bind; [apply yields_pure, put_str_spec; lia|].
    eapply yields_bind; [by apply yields_pure, strlen_app|].
    rewrite take_app_length. eapply yields_bind; [by apply yields_call|]. apply yields_ret.
  - rewrite length_app, length_cons, length_drop. lia.
Qed.

Lemma says_say_all client l buf st : Forall message l → length buf = 1024 →
  ∃ buf', says (say_all client l buf) (concat l) st buf'.
Proof.
  intros Hl. revert buf st; induction Hl as [|s l Hs _ IH]; intros buf st Hb.
  - exists buf. unfold says. cbn [concat say_all]. rewrite app_nil_r. destruct st. apply yields_ret.
  - destruct (says_say client s buf st Hs Hb) as (buf1 & Hsay & Hb1).
    destruct (IH buf1 (Web (web_in st) (web_out st ++ s) (web_closed st)) Hb1) as (buf2 & Hall).
    exists buf2. unfold says in *. cbn [concat say_all]. simpl in Hall. rewrite <- app_assoc in Hall.
    eapply yields_bind; [exact Hsay|exact Hall].
Qed.

#[export] Instance stream_reads : Reads stream.
Proof.
  refine {| unread := web_in; keep := λ l s, Web l (web_out s) (web_closed s) |}; try done.
  by intros [].
Defined.

Variables (buf_junk method_junk url_junk path_junk : list byte).
Hypothesis buf_size : length buf_junk = 1024.
Hypothesis room : rooms method_junk url_junk path_junk.
Variables (unimplemented_ not_found_ : Z → cl unit) (serve_file_ : Z → list byte → cl unit).
Local Abbreviation handle := (handle_request buf_junk method_junk url_junk path_junk unimplemented_ not_found_ serve_file_).

(** The request of one client. *)
Section served.
Variables (m u rest : list byte) (sp sp2 : byte) (client : Z) (out : list byte).
Local Abbreviation data := (m ++ sp :: u ++ sp2 :: rest).
Hypothesis m_word : word m.
Hypothesis m_length : length m < length method_junk.
Hypothesis sp_space : isspace sp = true.
Hypothesis data_length : length data ≤ 1024.

(** The end of the array keeps what it held. *)
Local Abbreviation tail := (rest ++ drop (length data) buf_junk).

(** What [handle_request] does is decided by the first word. *)
Lemma request_parsed r st' :
  let other := negb (same_nocase m (lit "GET")) && negb (same_nocase m (lit "POST")) in
  ends stream
    (if other then unimplemented_ client
     else serve_request url_junk path_junk not_found_ serve_file_ client (m ++ sp :: u ++ sp2 :: tail) m (length m)
            (Z.of_nat (length data))) (Web [] out false) r st' →
  ends stream (handle client) (Web data out false) r st'.
Proof.
  intros other Hk. unfold handle_request.
  eapply after_yields; [apply yields_call; reflexivity|]. cbn [web_in web_out web_closed Z.eqb].
  change (Z.to_nat 1024) with 1024. rewrite take_ge by lia. rewrite drop_ge by lia.
  eapply after_yields; [apply yields_pure, wrn_ok; lia|]. cbn [Nat.add]. rewrite take_0. cbn [app].
  rewrite <- app_assoc. cbn [app]. rewrite <- app_assoc. cbn [app].
  eapply after_yields; [apply yields_pure, (parse_method_spec _ _ _ room); done|].
  rewrite u64_small by lia. exact Hk.
Qed.

Hypothesis u_word : word u.
Hypothesis u_length : u ≠ [] ∧ length u < length url_junk.
Hypothesis sp2_space : isspace sp2 = true.
Hypothesis known : same_nocase m (lit "GET") || same_nocase m (lit "POST") = true.

Local Abbreviation path := (path_of (if same_nocase m (lit "GET") then before_query u else u)).

Lemma path_text : (x00 ∉ path) ∧ length path ≤ length url_junk + 15.
Proof.
  pose proof (word_no_nul u u_word) as Hu. destruct u_length as [_ Hl].
  destruct (same_nocase m (lit "GET")).
  - pose proof (before_query_length u).
    destruct (path_of_text (before_query u)) as [? ?]; [by apply before_query_no_nul|]. split; [done|lia].
  - destruct (path_of_text u) as [? ?]; [done|]. split; [done|lia].
Qed.

Lemma request_path r st' :
  (∀ post, length (path ++ x00 :: post) = length path_junk →
    ends stream
      ('(r, st_mode) ← call (api_stat path);
       (if (r =? -1)%Z then
          discard_headers client (m ++ sp :: u ++ sp2 :: tail) (Z.of_nat (length data));;
          not_found_ client
        else
          path' ← pure (if (Z.land st_mode S_IFMT =? S_IFDIR)%Z then strcat (path ++ x00 :: post) (lit "/index.html")
                        else Ok (path ++ x00 :: post));
          p ← pure (cstr path');
          serve_file_ client p);;
       call (api_close client);;
       mret tt) (Web [] out false) r st') →
  ends stream (handle client) (Web data out false) r st'.
Proof.
  intros Hk. apply request_parsed.
  assert (negb (same_nocase m (lit "GET")) && negb (same_nocase m (lit "POST")) = false) as ->.
  { rewrite <- negb_orb, known. done. }
  destruct (parse_path_spec _ _ _ room m u tail sp sp2 (Z.of_nat (length data))) as (p & post & Ep & -> & Hl);
    [done..|naive_solver|naive_solver|done| |].
  { rewrite !length_app, !length_cons, !length_app, length_cons. lia. }
  unfold serve_request. eapply after_yields; [apply yields_pure, Ep|].
  destruct path_text as [H0 _].
  eapply after_yields; [by apply yields_pure, cstr_app|]. apply Hk. by rewrite Hl.
Qed.

(** The file a request is answered with. *)
Definition served_file (mode : Z) : list byte :=
  if (Z.land mode S_IFMT =? S_IFDIR)%Z then path ++ lit "/index.html" else path.

Lemma file_path mode post : length (path ++ x00 :: post) = length path_junk →
  ∃ rest, (if (Z.land mode S_IFMT =? S_IFDIR)%Z then strcat (path ++ x00 :: post) (lit "/index.html")
           else Ok (path ++ x00 :: post)) = Ok (served_file mode ++ x00 :: rest) ∧
    x00 ∉ served_file mode.
Proof.
  intros Hpost. destruct path_text as [H0 Hl], room. unfold served_file.
  destruct (Z.land mode S_IFMT =? S_IFDIR)%Z; [|by exists post].
  destruct (strcat_spec (path ++ x00 :: post) path (lit "/index.html") post) as (rest' & E & _);
    [done..|rewrite Hpost; simpl; lia|].
  exists rest'. rewrite <- app_assoc. split; [exact E|]. rewrite not_elem_of_app. split; [done|].
  apply (bool_decide_unpack _). by vm_compute.
Qed.

(** A file that is found is served, and the connection closed unless that fails. *)
Lemma file_served mode contents out' :
  files path = Some (mode, contents) →
  yields stream (serve_file_ client (served_file mode)) (Web [] out false) tt (Web [] out' false) →
  yields stream (handle client) (Web data out false) tt (Web [] out' true).
Proof.
  intros Hstat Hk. apply request_path. intros post Hpost.
  eapply after_yields; [apply yields_call; simpl; rewrite Hstat; reflexivity|]. cbn [Z.eqb].
  destruct (file_path mode post Hpost) as (rest' & E & Hfile).
  eapply (after_yields _ _ _ _ tt (Web [] out' false));
    [|eapply after_yields; [apply yields_call; reflexivity|apply yields_ret]].
  eapply yields_bind; [apply yields_pure, E|]. eapply yields_bind; [by apply yields_pure, cstr_app|]. exact Hk.
Qed.
Lemma file_failed mode contents e s' :
  files path = Some (mode, contents) →
  ends stream (serve_file_ client (served_file mode)) (Web [] out false) (Err e) s' →
  ends stream (handle client) (Web data out false) (Err e) s'.
Proof.
  intros Hstat Hk. apply request_path. intros post Hpost.
  eapply after_yields; [apply yields_call; simpl; rewrite Hstat; reflexivity|]. cbn [Z.eqb].
  destruct (file_path mode post Hpost) as (rest' & E & Hfile). apply after_error.
  eapply after_yields; [apply yields_pure, E|]. eapply after_yields; [by apply yields_pure, cstr_app|]. exact Hk.
Qed.

(** With nothing left in the input the loop over the headers ends. *)
Lemma discard_nothing buf n st :
  length buf = 1024 → head buf ≠ Some x0a →
  yields stream (discard_headers client buf n) (Web [] st false) tt (Web [] st false).
Proof.
  intros Hb Hne. unfold discard_headers. destruct buf as [|c buf]; [done|].
  assert (c ≠ x0a) by (intros ->; done).
  destruct (decide (0 < n)%Z) as [Hn|Hn].
  - eapply (yields_loop _ _ _ _ (inl (x00 :: buf, 0%Z))).
    + rewrite (proj2 (Z.ltb_lt _ _)) by done.
      eapply yields_bind; [apply yields_pure; unfold is_blank; cbn [rd lookup list_lookup mbind res_bind];
        by rewrite decide_False|].
      eapply yields_bind; [apply (get_line_reads stream client (c :: buf) 1024 (Web [] st false) [] []); [lia|done]|].
      cbn [length app drop]. rewrite drop_0. apply yields_ret.
    + eapply (yields_loop _ _ _ _ (inr tt)); [|by split]. cbn. eapply yields_bind; [by apply yields_pure|].
      apply yields_ret.
  - eapply (yields_loop _ _ _ _ (inr tt)); [|by split]. rewrite (proj2 (Z.ltb_ge _ _)) by lia.
    eapply yields_bind; [by apply yields_pure|]. apply yields_ret.
Qed.

(** A file that is not found. *)
Lemma file_missing out' :
  files path = None → yields stream (not_found_ client) (Web [] out false) tt (Web [] out' false) →
  yields stream (handle client) (Web data out false) tt (Web [] out' true).
Proof.
  intros Hstat Hk. apply request_path. intros post Hpost.
  eapply after_yields; [apply yields_call; simpl; rewrite Hstat; reflexivity|]. cbn [Z.eqb Pos.eqb].
  eapply (after_yields _ _ _ _ tt (Web [] out' false));
    [|eapply after_yields; [apply yields_call; reflexivity|apply yields_ret]].
  eapply (yields_bind _ _ _ _ tt (Web [] out false)); [|exact Hk].
  apply discard_nothing.
  - pose proof data_length as Hd.
    repeat (rewrite length_app in * || rewrite length_cons in * || rewrite length_drop). lia.
  - pose proof known as Hk'. destruct m_word as [|c ? [Hc _] _]; [done|]. cbn [app head]. by intros [= ->].
Qed.
End served.
End env.
(** ** Safety *)

(** What the peer and the system may answer: a receive gives what it says and never fills the
    array, a file that was found can be opened. *)
Definition peer `{OS} (A : Type) (e : apiE A) : A → Prop :=
  match e in apiE A return A → Prop with
  | api_recv _ len _ => λ '(n, data), n = Z.of_nat (length data) ∧ (n ≤ len)%Z ∧ length data < 1024
  | api_fopen _ => λ r, r ≠ None
  | _ => λ _, True
  end.

(** The calls a request may cause: on the client's connection, and on files below [htdocs]
    (as far as their name tells). *)
Definition own_calls `{OS} (client : Z) (tr : list acall) (A : Type) (e : apiE A) : Prop :=
  match e with
  | api_recv fd _ _ | api_send fd _ _ | api_close fd => fd = client
  | api_stat p | api_fopen p => is_prefix (lit "htdocs") p = true
  | _ => False
  end.

Section safety.
Context `{OS}.
Variable client : Z.
Local Abbreviation safe m := (∀ tr, every_call (own_calls client) peer m tr (λ _ _, True)).

Lemma safe_say s buf : message s → length buf = 1024 →
  ∀ tr, every_call (own_calls client) peer (say client s buf) tr (λ _ b, length b = 1024).
Proof.
  intros [H0 Hs] Hb tr. unfold say.
  eapply ec_bind_pure; [apply put_str_spec; lia|]. eapply ec_bind_pure; [by apply strlen_app|].
  apply ec_bind_call; [done|]. intros r _. apply ec_ret. lengths.
Qed.

Lemma safe_say_list l buf : Forall message l → length buf = 1024 → safe (say_all client l buf).
Proof.
  intros Hl. revert buf; induction Hl as [|s l Hs _ IH]; intros buf Hb tr; [by apply ec_ret|]. cbn [say_all].
  eapply ec_bind; [by apply safe_say|]. intros tr' b Hb'. by apply IH.
Qed.

Lemma safe_say_all l buf_junk : Forall message l → length buf_junk = 1024 → safe (say_all client l buf_junk;; mret tt).
Proof.
  intros Hl Hb tr. eapply ec_bind; [by apply safe_say_list|]. intros. by apply ec_ret.
Qed.

(** The array of [get_line] keeps its size, whatever the receives give. *)
Lemma safe_get_line buf : length buf = 1024 →
  ∀ tr, every_call (own_calls client) peer (get_line client buf 1024) tr
    (λ _ '(n, b), n < 1024 ∧ length b = 1024 ∧ b !! n = Some x00).
Proof.
  intros Hb tr. unfold get_line.
  apply (ec_loop _ _ (λ '(i, _, b) _, i < 1024 ∧ length b = 1024)); [simpl; lia|].
  clear tr. intros [[i c] b] tr [Hi Hbl]. unfold get_line_step.
  assert (∀ c flags tr, every_call (own_calls client) peer (recv1 client c flags) tr (λ _ _, True)) as Hrecv.
  { intros c' flags tr'. apply ec_bind_call; [done|]. intros [n d] _. by apply ec_ret. }
  assert (∀ c', wr b i c' = Ok (<[i:=c']> b)) as Hw by (intros c'; unfold wr; by rewrite decide_True by lia).
  destruct (decide _) as [[Hlt _]|].
  - eapply ec_bind; [apply Hrecv|]. intros tr1 [n c1] _. destruct (0 <? n)%Z; [|by apply ec_ret].
    eapply (ec_bind _ _ _ _ _ (λ _ _, True)).
    + destruct (decide (c1 = x0d)); [|by apply ec_ret].
      eapply ec_bind; [apply Hrecv|]. intros tr2 [n2 c2] _. destruct (decide _); [|by apply ec_ret].
      eapply ec_bind; [apply Hrecv|]. intros tr3 [n3 c3] _. by apply ec_ret.
    + intros tr2 c2 _. eapply ec_bind_pure; [apply Hw|]. apply ec_ret. rewrite length_insert. lia.
  - eapply ec_bind_pure; [apply Hw|]. apply ec_ret. rewrite length_insert.
    split_and!; [done..|]. apply list_lookup_insert_eq. lia.
Qed.

Lemma safe_discard buf n : length buf = 1024 → safe (discard_headers client buf n).
Proof.
  intros Hb tr. unfold discard_headers.
  apply (ec_loop _ _ (λ '(b, _) _, length b = 1024)); [done|]. clear tr. intros [b num] tr Hbl.
  assert (∃ r, (if (0 <? num)%Z then is_blank b else Ok true) = Ok r) as [r E].
  { destruct (0 <? num)%Z; [|eauto]. unfold is_blank. destruct (rd_ok b 0) as (c & -> & _); [lia|]. cbn [mbind res_bind].
    destruct (decide _); [|eauto]. destruct (rd_ok b 1) as (d & -> & _); [lia|]. cbn [mbind res_bind]. eauto. }
  eapply ec_bind_pure; [exact E|]. destruct r; [by apply ec_ret|].
  eapply ec_bind; [by apply safe_get_line|]. intros tr' [k b'] (_ & Hb' & _). by apply ec_ret.
Qed.

(** [handle_request] with answers that are safe. *)
Section request.
Variables (buf_junk method_junk url_junk path_junk : list byte).
Hypothesis buf_size : length buf_junk = 1024.
Hypothesis room : rooms method_junk url_junk path_junk.
Variables (unimplemented_ not_found_ : Z → cl unit) (serve_file_ : Z → list byte → cl unit).
Hypothesis unimplemented_safe : safe (unimplemented_ client).
Hypothesis not_found_safe : safe (not_found_ client).
Hypothesis serve_file_safe : ∀ p, (x00 ∉ p) → is_prefix (lit "htdocs") p = true → safe (serve_file_ client p).

Lemma handle_request_safe :
  safe (handle_request buf_junk method_junk url_junk path_junk unimplemented_ not_found_ serve_file_ client).
Proof.
  intros tr. unfold handle_request. apply ec_bind_call; [done|]. intros [n d] (-> & _ & Hd).
  assert (wrn buf_junk 0 d = Ok (d ++ drop (length d) buf_junk)) as Ew
    by (rewrite wrn_ok by lia; by rewrite take_0).
  eapply ec_bind_pure; [exact Ew|]. clear Ew. set (buf := d ++ drop (length d) buf_junk).
  assert (length buf = 1024) as Hb by (unfold buf; lengths).
  destruct (parse_method_total _ _ _ room buf Hb) as (i & method & Ep & Hi).
  eapply ec_bind_pure; [exact Ep|]. cbv beta iota.
  destruct (negb (same_nocase method (lit "GET")) && negb (same_nocase method (lit "POST"))); [done|].
  rewrite u64_small by lia. unfold serve_request. pose proof room as [Hmr _ Hpr].
  destruct (parse_path_total _ _ _ room buf method i (Z.of_nat (length d))) as (u & post & Epp & Hu0 & Hu & Hl);
    [done|lia|done|].
  eapply ec_bind_pure; [exact Epp|]. destruct (path_of_text u Hu0) as [Hp0 Hpl].
  eapply ec_bind_pure; [by apply cstr_app|].
  pose proof (below_htdocs u []) as Hpre. rewrite app_nil_r in Hpre.
  apply ec_bind_call; [done|]. intros [r mode] _.
  eapply (ec_bind _ _ _ _ _ (λ _ _, True)); [|intros; apply ec_bind_call; [done|]; intros; by apply ec_ret].
  destruct (r =? -1)%Z; [eapply ec_bind; [by apply safe_discard|]; auto|].
  assert (∃ p rest, (if (Z.land mode S_IFMT =? S_IFDIR)%Z then strcat (path_of u ++ x00 :: post) (lit "/index.html")
    else Ok (path_of u ++ x00 :: post)) = Ok (p ++ x00 :: rest) ∧ (x00 ∉ p) ∧ is_prefix (lit "htdocs") p = true)
    as (p & rest & E & Hp & Hpp).
  { destruct (Z.land mode S_IFMT =? S_IFDIR)%Z; [|by exists (path_of u), post].
    destruct (strcat_spec _ (path_of u) (lit "/index.html") post eq_refl Hp0) as (rest & Es & _);
      [rewrite Hl; simpl; lia|].
    exists (path_of u ++ lit "/index.html"), rest. rewrite <- app_assoc. split; [exact Es|].
    split; [|apply below_htdocs]. rewrite not_elem_of_app. split; [done|].
    apply (bool_decide_unpack _). by vm_compute. }
  eapply ec_bind_pure; [exact E|]. eapply ec_bind_pure; [by apply cstr_app|]. by apply serve_file_safe.
Qed.
End request.
End safety.
