(* ===== verification/HttpProps.v ===== *)
(** What is proved of the HTTP server: lines are read as the comment on [get_line] promises,
    its messages and files go out byte for byte (but the last line of a file), a request
    is parsed inside its arrays unless it fills them, and where a connection is leaked. *)

From S2P Require Export HttpRequest.
Import Http.

Section env.
Context `{OS}.
(** Mode and contents of the files. *)
Variable files : list byte → option (Z * list byte).
Local Abbreviation stream := (HttpRequest.stream files).
Local Abbreviation says := (HttpRequest.says files).

(** ** Lines *)

(** C29: [get_line] reads one line: at most [size - 1] characters, the end of the line made a
    line feed whichever of its three forms it has, a zero behind it, and it returns their
    number; the rest of the input stays, and the rest of the array too. *)
Theorem get_line_correct sock buf size inp out cl l rest :
  0 < size ≤ length buf → spec_line (size - 1) inp = (l, rest) →
  yields stream (get_line sock buf size) (Web inp out cl)
    (length l, l ++ x00 :: drop (S (length l)) buf) (Web rest out cl).
Proof.
  intros Hs Hl. exact (get_line_reads _ sock buf size (Web inp out cl) l rest Hs Hl).
Qed.

(** ** Files *)

(** A line with its end, and a piece of text without one, that fit the array of [cat]. *)
Definition text_line (l : list byte) : Prop :=
  ∃ body, l = body ++ [x0a] ∧ (x0a ∉ body) ∧ (x00 ∉ body) ∧ length body < 1023.
Definition text_end (l : list byte) : Prop := (x0a ∉ l) ∧ (x00 ∉ l) ∧ length l < 1023.

Lemma fgets_chars_line n body rest : x0a ∉ body → length body < n →
  fgets_chars n (body ++ x0a :: rest) = (body ++ [x0a], rest, false).
Proof.
  revert n; induction body as [|c body IH]; intros [|n] Hb Hn; simpl in Hn; try lia; [done|].
  rewrite not_elem_of_cons in Hb. destruct Hb as [Hc Hb]. cbn [app fgets_chars].
  rewrite decide_False by congruence. rewrite IH by (done || lia). done.
Qed.

Lemma fgets_chars_end n last : x0a ∉ last → length last < n → fgets_chars n last = (last, [], true).
Proof.
  revert n; induction last as [|c last IH]; intros [|n] Hb Hn; simpl in Hn; try lia; [done|].
  rewrite not_elem_of_cons in Hb. destruct Hb as [Hc Hb]. cbn [fgets_chars].
  rewrite decide_False by congruence. rewrite IH by (done || lia). done.
Qed.

Lemma fgets_line buf line rest : text_line line → length buf = 1024 →
  fgets buf 1024 (File (line ++ rest) false) = Ok (line ++ x00 :: drop (S (length line)) buf, File rest false).
Proof.
  intros (body & -> & Hlf & H0 & Hl) Hb. unfold fgets. cbn [left_bytes feof Nat.sub]. rewrite <- app_assoc. cbn [app].
  rewrite fgets_chars_line by (done || lia).
  assert (put_str buf 0 (body ++ [x0a]) =
    Ok ((body ++ [x0a]) ++ x00 :: drop (S (length (body ++ [x0a]))) buf)) as Hp.
  { apply put_str_spec. rewrite length_app. simpl. lia. }
  rewrite Hp. destruct (body ++ [x0a]) eqn:E; [by destruct body|done].
Qed.

Lemma fgets_end buf last : text_end last → length buf = 1024 →
  ∃ buf', fgets buf 1024 (File last false) = Ok (buf', File [] true).
Proof.
  intros (Hlf & H0 & Hl) Hb. unfold fgets. cbn [left_bytes feof Nat.sub].
  rewrite fgets_chars_end by (done || lia). rewrite put_str_spec by lia.
  destruct last; eexists; done.
Qed.

Lemma cat_loop client lines last buf buf' f st :
  Forall text_line lines → text_end last → length buf = 1024 →
  fgets buf 1024 (File (concat lines ++ last) false) = Ok (buf', f) →
  says (cl_loop (λ '(buf, resource),
    if feof resource then mret (inr tt)
    else
      n ← pure (strlen buf);
      call (api_send client (take n buf) 0);;
      st ← pure (fgets buf 1024 resource);
      mret (inl st)) (buf', f)) (concat lines) st tt.
Proof.
  intros Hlines Hlast. revert buf buf' f st; induction Hlines as [|line lines Hline Hlines IH];
    intros buf buf' f st Hb Hf.
  - destruct (fgets_end buf last Hlast Hb) as [b E]. cbn [concat app] in *. rewrite E in Hf. simplify_eq.
    unfold says. rewrite app_nil_r. destruct st. eapply (yields_loop _ _ _ _ (inr tt)); [|by split]. apply yields_ret.
  - cbn [concat] in *. rewrite <- app_assoc, (fgets_line _ _ _ Hline Hb) in Hf. simplify_eq.
    set (b := line ++ x00 :: drop (S (length line)) buf).
    assert (length b = 1024) as Hbl.
    { destruct Hline as (body & -> & _ & _ & Hl). unfold b.
      rewrite length_app, length_cons, length_drop, length_app. change (length [x0a]) with 1. lia. }
    assert (∃ st', fgets b 1024 (File (concat lines ++ last) false) = Ok st') as [[b' f'] Ef].
    { destruct Hlines as [|l2 ls H2]; cbn [concat app].
      - destruct (fgets_end b last Hlast Hbl) as [? ->]. eauto.
      - rewrite <- app_assoc, fgets_line by done. eauto. }
    pose proof (IH b b' f' (Web (web_in st) (web_out st ++ line) (web_closed st)) Hbl Ef) as Hloop.
    unfold says in *. cbn [web_in web_out web_closed] in Hloop. rewrite <- app_assoc in Hloop.
    eapply (yields_loop _ _ _ _ (inl (b', f'))); [|exact Hloop]. cbn [feof].
    assert (x00 ∉ line) as H0 by (destruct Hline as (body & -> & _ & ? & _); by intros [?|?%list_elem_of_singleton]%elem_of_app).
    eapply yields_bind; [by apply yields_pure, strlen_app|]. unfold b. rewrite take_app_length.
    eapply yields_bind; [by apply yields_call|]. eapply yields_bind; [apply yields_pure, Ef|]. apply yields_ret.
Qed.

(** ** Answers *)

Definition nl : list byte := [x0d; x0a].
Definition server_line : list byte := lit "Server: ntyco_httpd/0.1.0" ++ nl ++ lit "Content-Type: text/html" ++ nl ++ nl.
Definition ok_text : list byte := lit "HTTP/1.0 200 OK" ++ nl ++ server_line.
Definition missing_text : list byte :=
  lit "HTTP/1.0 404 NOT FOUND" ++ nl ++ server_line ++ lit "<HTML><TITLE>Not Found</TITLE>" ++ nl ++
  lit "<BODY><P>The server could not fulfill" ++ nl ++ lit "your request because the resource specified" ++ nl ++
  lit "is unavailable or nonexistent." ++ nl ++ lit "</BODY></HTML>" ++ nl.
Definition unimplemented_text : list byte :=
  lit "HTTP/1.0 501 Method Not Implemented" ++ nl ++ server_line ++
  lit "<HTML><HEAD><TITLE>Method Not Implemented" ++ nl ++ lit "</TITLE></HEAD>" ++ nl ++
  lit "<BODY><P>HTTP request method not supported." ++ nl ++ lit "</BODY></HTML>" ++ nl.

Variables (buf_junk method_junk url_junk path_junk : list byte).
Hypothesis buf_size : length buf_junk = 1024.
Hypothesis method_size : length method_junk = 255.
Hypothesis url_size : length url_junk = 255.
Hypothesis path_size : length path_junk = 512.

Lemma room : rooms method_junk url_junk path_junk.
Proof. split; rewrite ?method_size, ?url_size, ?path_size; lia. Qed.

Lemma says_texts client l text st :
  Forall message l → concat l = text → says (say_all client l buf_junk;; mret tt) text st tt.
Proof.
  intros Hl <-. destruct (says_say_all files client l buf_junk st Hl buf_size) as [buf' Hsay].
  eapply yields_bind; [exact Hsay|]. apply yields_ret.
Qed.

Lemma says_headers client filename st : says (headers buf_junk client filename) ok_text st tt.
Proof. apply says_texts; [apply messages_ok; vm_compute; reflexivity|reflexivity]. Qed.
Lemma says_not_found client st : says (not_found buf_junk client) missing_text st tt.
Proof. apply says_texts; [apply messages_ok; vm_compute; reflexivity|reflexivity]. Qed.
Lemma says_unimplemented client st : says (unimplemented buf_junk client) unimplemented_text st tt.
Proof. apply says_texts; [apply messages_ok; vm_compute; reflexivity|reflexivity]. Qed.

(** [cat] sends every line of a text file but what follows the last line feed: a file that
    does not end in a line feed arrives without its last line. *)
Theorem cat_drops_last_line client lines last st :
  Forall text_line lines → text_end last →
  says (cat buf_junk client (File (concat lines ++ last) false)) (concat lines) st tt.
Proof.
  intros Hlines Hlast. unfold cat.
  assert (∃ r, fgets buf_junk 1024 (File (concat lines ++ last) false) = Ok r) as [[b f] Ef].
  { destruct Hlines as [|l ls Hl Hls]; cbn [concat app].
    - destruct (fgets_end buf_junk last Hlast buf_size) as [? ->]. eauto.
    - rewrite <- app_assoc, fgets_line by done. eauto. }
  eapply yields_bind; [apply yields_pure, Ef|]. by eapply cat_loop.
Qed.

(** The request of one client. *)
Section served.
Variables (m u rest : list byte) (sp sp2 : byte) (client : Z) (out : list byte).
Local Abbreviation data := (m ++ sp :: u ++ sp2 :: rest).
Hypothesis m_word : word m.
Hypothesis m_length : length m < 255.
Hypothesis sp_space : isspace sp = true.
Hypothesis data_length : length data ≤ 1024.

(** A request whose method is neither GET nor POST gets the 501 message, and nothing else
    happens: its connection is never closed. *)
Theorem unknown_method_leaks :
  same_nocase m (lit "GET") = false → same_nocase m (lit "POST") = false →
  yields stream (accept_request buf_junk method_junk url_junk path_junk client) (Web data out false) tt
    (Web [] (out ++ unimplemented_text) false).
Proof.
  intros HG HP. eapply (request_parsed _ _ _ _ _ buf_size room); [done|by rewrite method_size|done|done|]. rewrite HG, HP. cbn [negb andb].
  exact (says_unimplemented client (Web [] out false)).
Qed.


Hypothesis u_word : word u.
Hypothesis u_length : u ≠ [] ∧ length u < 255.
Hypothesis sp2_space : isspace sp2 = true.
Hypothesis known : same_nocase m (lit "GET") || same_nocase m (lit "POST") = true.
Local Abbreviation path := (path_of (if same_nocase m (lit "GET") then before_query u else u)).
Local Abbreviation served_file := (HttpRequest.served_file m u).

(** C30: a GET or POST of a regular file, or of a directory with an index, is answered by the
    headers and the lines of the file (the last only when it ends in a line feed), and the
    connection is closed. The query of a GET is cut off, and the file of a url is the url
    behind [htdocs], whatever it holds. *)
Theorem request_served mode contents lines end_ mode' :
  files path = Some (mode, contents) → files (served_file mode) = Some (mode', concat lines ++ end_) →
  Forall text_line lines → text_end end_ →
  yields stream (accept_request buf_junk method_junk url_junk path_junk client) (Web data out false) tt
    (Web [] (out ++ ok_text ++ concat lines) true).
Proof.
  intros Hstat Hopen Hlines Hend. eapply (file_served _ _ _ _ _ buf_size room _ _ _ m u rest sp sp2);
    [done|by rewrite method_size|done|done|done|by rewrite url_size|done|done|exact Hstat|].
  unfold serve_file. eapply yields_bind; [apply yields_call; simpl; rewrite Hopen; reflexivity|].
  cbn [snd fmap option_fmap option_map]. eapply yields_bind; [apply says_headers|].
  rewrite app_assoc. apply (cat_drops_last_line client lines end_ (Web [] (out ++ ok_text) false)); done.
Qed.

(** A directory without an index is answered by the 404 message, and then [serve_file]
    closes the null file. *)
Theorem directory_without_index mode contents :
  files path = Some (mode, contents) → Z.land mode S_IFMT = S_IFDIR →
  files (path ++ lit "/index.html") = None →
  ends stream (accept_request buf_junk method_junk url_junk path_junk client) (Web data out false) (Err NullDeref)
    (Web [] (out ++ missing_text) false).
Proof.
  intros Hstat Hdir Hopen. eapply (file_failed _ _ _ _ _ buf_size room _ _ _ m u rest sp sp2);
    [done|by rewrite method_size|done|done|done|by rewrite url_size|done|done|exact Hstat|].
  unfold HttpRequest.served_file, serve_file. rewrite Hdir.
  eapply after_yields; [apply yields_call; simpl; rewrite Hopen; reflexivity|].
  eapply after_yields; [apply says_not_found|]. apply ends_ret.
Qed.

(** When the file does not exist and the client has no more to say and closes its side,
    it is sent the 404 message and the connection is closed; before that, the server waits
    for the client's next line although the request has been read. *)
Theorem missing_file_answered :
  files path = None →
  yields stream (accept_request buf_junk method_junk url_junk path_junk client) (Web data out false) tt
    (Web [] (out ++ missing_text) true).
Proof.
  intros Hstat. eapply (file_missing _ _ _ _ _ buf_size room _ _ _ m u rest sp sp2);
    [done|by rewrite method_size|done|done|done|by rewrite url_size|done|done|done|]. exact (says_not_found client (Web [] out false)).
Qed.
End served.

(** A request that fills the array and is white space from its method on makes the server
    read behind the array: the loop tests the character before it tests the index. *)
Theorem request_overread m sp k client out :
  word m → length m < 255 → isspace sp = true → length m + S k = 1024 →
  same_nocase m (lit "GET") || same_nocase m (lit "POST") = true →
  ends stream (accept_request buf_junk method_junk url_junk path_junk client)
    (Web (m ++ replicate (S k) sp) out false) (Err Undefined) (Web [] out false).
Proof.
  intros Hm Hml Hsp Hk Hknown. destruct k as [|k]; [lia|].
  apply (request_parsed _ _ _ _ _ buf_size room _ _ _ m [] (replicate k sp) sp sp client out);
    [done|by rewrite method_size|done| |].
  { cbn [app]. lengths. }
  assert (negb (same_nocase m (lit "GET")) && negb (same_nocase m (lit "POST")) = false) as ->
    by (by rewrite <- negb_orb, Hknown).
  apply after_error. unfold parse_path. rewrite skip_space_overrun; [apply ends_ret|..].
  - intros i c Hi. cbn [app]. rewrite drop_ge, app_nil_r.
    + rewrite lookup_app_r by done. change (sp :: sp :: replicate k sp) with (replicate (S (S k)) sp).
      intros [-> _]%lookup_replicate. done.
    + lengths.
  - cbn [app]. lengths.
  - lengths.
  - cbn [app]. lengths.
Qed.

(** ** Safety *)

Section safety.
Variable client : Z.
Local Abbreviation safe m := (∀ tr, every_call (own_calls client) peer m tr (λ _ _, True)).

(** [fgets] reads something unless it meets the end. *)
Lemma fgets_chars_ok n l s l' e : fgets_chars n l = (s, l', e) → length s ≤ n ∧ (s = [] → n = 0 ∨ e = true).
Proof.
  revert l s l' e; induction n as [|n IH]; intros [|c l] s l' e; simpl; intros E; simplify_eq;
    [simpl; split; [lia|auto]..|].
  destruct (decide _); [by simplify_eq; simpl; split; [lia|]|].
  destruct (fgets_chars n l) as [[s1 l1] e1] eqn:E1. simplify_eq. destruct (IH _ _ _ _ E1) as [Hl _].
  simpl. split; [lia|done].
Qed.

Lemma fgets_total buf f : length buf = 1024 →
  ∃ buf' f', fgets buf 1024 f = Ok (buf', f') ∧ length buf' = 1024 ∧ (feof f' = false → x00 ∈ buf').
Proof.
  intros Hb. unfold fgets. cbn [Nat.sub].
  destruct (fgets_chars 1023 (left_bytes f)) as [[s l] e] eqn:E. destruct (fgets_chars_ok _ _ _ _ _ E) as [Hl He].
  destruct s as [|c s].
  - eexists _, _. split; [done|]. split; [done|]. cbn [feof]. destruct (He eq_refl) as [?| ->]; [done|].
    by rewrite orb_true_r.
  - rewrite put_str_spec by lia. rewrite length_cons in Hl. eexists _, _. split; [done|]. split; [lengths|].
    intros _. apply elem_of_app. right. apply list_elem_of_here.
Qed.

Lemma safe_cat f : safe (cat buf_junk client f).
Proof.
  intros tr. unfold cat. destruct (fgets_total buf_junk f buf_size) as (b & f' & E & Hb & Hn).
  eapply ec_bind_pure; [exact E|].
  apply (ec_loop _ _ (λ '(b, f) _, length b = 1024 ∧ (feof f = false → x00 ∈ b))); [done|].
  clear tr. intros [b1 f1] tr [Hb1 Hn1]. destruct (feof f1); [by apply ec_ret|].
  eapply ec_bind_pure; [by apply strlen_nul, Hn1|]. apply ec_bind_call; [done|]. intros r _.
  destruct (fgets_total b1 f1 Hb1) as (b2 & f2 & E2 & Hb2 & Hn2).
  eapply ec_bind_pure; [exact E2|]. by apply ec_ret.
Qed.

(** C31: whatever bytes a client sends, as long as a receive does not fill the array, and
    however the file system answers, as long as a file that was found can be opened,
    [accept_request] stays inside its arrays, makes calls on its own connection only, and
    asks only for files whose name begins with [htdocs]. *)
Theorem accept_request_safe tr :
  every_call (own_calls client) peer (accept_request buf_junk method_junk url_junk path_junk client) tr
    (λ _ _, True).
Proof using buf_size method_size url_size path_size.
  apply handle_request_safe; [done|by apply room| | |].
  - apply safe_say_all; [apply messages_ok; vm_compute; reflexivity|done].
  - apply safe_say_all; [apply messages_ok; vm_compute; reflexivity|done].
  - intros p Hp Hpp tr'. unfold serve_file. apply ec_bind_call; [done|]. intros [contents|] Hopen; [|done].
    eapply ec_bind; [apply safe_say_all; [apply messages_ok; vm_compute; reflexivity|done]|]. intros tr2 _ _. apply safe_cat.
Qed.
End safety.
End env.


(** ** Witnesses *)

(** A site with one page, which does not end in a line feed, and a directory. *)
Definition toy_site (p : list byte) : option (Z * list byte) :=
  if decide (p = lit "htdocs/a") then Some (0x81a4, lit "hello" ++ [x0a] ++ lit "rest")%Z
  else if decide (p = lit "htdocs/d") then Some (0x41ed, [])%Z else None.
Local Abbreviation junk n := (replicate n xff).

Ltac by_evaluation := first [reflexivity | apply (bool_decide_unpack _); vm_compute; reflexivity | simpl; lia].
Ltac closed_word := repeat constructor; discriminate.

Lemma get_line_correct_witness :
  yields (stream toy_site) (get_line 5 (junk 16) 8) (Web [x61; x62; x0d; x0a; x63] [] false)
    (3, [x61; x62; x0a] ++ x00 :: drop 4 (junk 16)) (Web [x63] [] false).
Proof. apply (get_line_correct toy_site 5 (junk 16) 8 [x61; x62; x0d; x0a; x63] [] false [x61; x62; x0a] [x63]); [simpl; lia|reflexivity]. Defined.

Lemma toy_text : Forall text_line [lit "hello" ++ [x0a]] ∧ text_end (lit "rest").
Proof.
  split; [constructor; [|constructor]; exists (lit "hello")|]; split_and!; by_evaluation.
Qed.

Lemma cat_drops_last_line_witness :
  says toy_site (cat (junk 1024) 5 (File (concat [lit "hello" ++ [x0a]] ++ lit "rest") false))
    (concat [lit "hello" ++ [x0a]]) (Web [] [] false) tt.
Proof. destruct toy_text. apply cat_drops_last_line; [reflexivity|assumption..]. Defined.

Lemma unknown_method_leaks_witness :
  yields (stream toy_site) (accept_request (junk 1024) (junk 255) (junk 255) (junk 512) 5)
    (Web (lit "PUT" ++ x20 :: lit "/a" ++ x20 :: []) [] false) tt (Web [] ([] ++ unimplemented_text) false).
Proof.
  apply (unknown_method_leaks toy_site (junk 1024) (junk 255) (junk 255) (junk 512));
    first [closed_word | by_evaluation].
Defined.

Lemma request_served_witness :
  yields (stream toy_site) (accept_request (junk 1024) (junk 255) (junk 255) (junk 512) 5)
    (Web (lit "GET" ++ x20 :: lit "/a?q" ++ x20 :: []) [] false) tt
    (Web [] ([] ++ ok_text ++ concat [lit "hello" ++ [x0a]]) true).
Proof.
  destruct toy_text as [Hl He].
  apply (request_served toy_site (junk 1024) (junk 255) (junk 255) (junk 512)) with
    (mode := 0x81a4%Z) (contents := lit "hello" ++ [x0a] ++ lit "rest") (end_ := lit "rest") (mode' := 0x81a4%Z);
    first [exact Hl | exact He | closed_word | by_evaluation | split; [discriminate|simpl; lia]].
Defined.

Lemma directory_without_index_witness :
  ends (stream toy_site) (accept_request (junk 1024) (junk 255) (junk 255) (junk 512) 5)
    (Web (lit "GET" ++ x20 :: lit "/d" ++ x20 :: []) [] false) (Err NullDeref)
    (Web [] ([] ++ missing_text) false).
Proof.
  apply (directory_without_index toy_site (junk 1024) (junk 255) (junk 255) (junk 512)) with
    (mode := 0x41ed%Z) (contents := []);
    first [closed_word | by_evaluation | split; [discriminate|simpl; lia]].
Defined.

Lemma missing_file_answered_witness :
  yields (stream toy_site) (accept_request (junk 1024) (junk 255) (junk 255) (junk 512) 5)
    (Web (lit "POST" ++ x20 :: lit "/b" ++ x20 :: []) [] false) tt (Web [] ([] ++ missing_text) true).
Proof.
  apply (missing_file_answered toy_site (junk 1024) (junk 255) (junk 255) (junk 512));
    first [closed_word | by_evaluation | split; [discriminate|simpl; lia]].
Defined.

Lemma request_overread_witness :
  ends (stream toy_site) (accept_request (junk 1024) (junk 255) (junk 255) (junk 512) 5)
    (Web (lit "GET" ++ replicate 1021 x20) [] false) (Err Undefined) (Web [] [] false).
Proof.
  apply (request_overread toy_site (junk 1024) (junk 255) (junk 255) (junk 512));
    first [closed_word | by_evaluation].
Defined.

Lemma accept_request_safe_witness :
  every_call (own_calls 5) peer (accept_request (junk 1024) (junk 255) (junk 255) (junk 512) 5) [] (λ _ _, True).
Proof. apply accept_request_safe; reflexivity. Defined.
