(* ===== verification/CgiProps.v ===== *)
(** What is proved of [execute_cgi]: it hands the script exactly the body of a POST and the client
    exactly what the script prints, the script finds its request in its environment, and both
    processes send the status line. *)

From S2P Require Export Cgi HttpProps.
Import Http Cgi.

(** ** A script *)

(** The client, what was written to the script, what it will print, the next descriptor, its
    environment, and the program that was started. *)
Record scripted : Type := Scripted {
  sc_web : web;
  sc_in : list byte;
  sc_out : list byte;
  sc_next : Z;
  sc_vars : list (list byte);
  sc_ran : option (list byte);
}.

Section cgi.
Context `{OS}.
(** What [fork] answers. *)
Variable pid : Z.

Definition with_web (w : web) (s : scripted) : scripted :=
  Scripted w (sc_in s) (sc_out s) (sc_next s) (sc_vars s) (sc_ran s).

Definition script (A : Type) (e : apiE A) : scripted → A * scripted :=
  match e in apiE A return scripted → A * scripted with
  | api_hook_write _ data => λ s,
      (Z.of_nat (length data),
       Scripted (sc_web s) (sc_in s ++ data) (sc_out s) (sc_next s) (sc_vars s) (sc_ran s))
  | api_hook_read _ len => λ s,
      let data := take (Z.to_nat len) (sc_out s) in
      ((Z.of_nat (length data), data),
       Scripted (sc_web s) (sc_in s) (drop (Z.to_nat len) (sc_out s)) (sc_next s) (sc_vars s) (sc_ran s))
  | api_sys o =>
      match o in sysE A return scripted → A * scripted with
      | sys_pipe => λ s,
          ((0%Z, sc_next s, (sc_next s + 1)%Z),
           Scripted (sc_web s) (sc_in s) (sc_out s) (sc_next s + 2)%Z (sc_vars s) (sc_ran s))
      | sys_fork => λ s, (pid, s)
      | sys_putenv v => λ s,
          (0%Z, Scripted (sc_web s) (sc_in s) (sc_out s) (sc_next s) (sc_vars s ++ [v]) (sc_ran s))
      | sys_execl p => λ s,
          ((-1)%Z, Scripted (sc_web s) (sc_in s) (sc_out s) (sc_next s) (sc_vars s) (Some p))
      | o => λ s, (no_sys o, s)
      end
  | api_close _ => λ s, (0%Z, s)
  | e => λ s, let '(a, w) := stream (λ _, None) _ e (sc_web s) in (a, with_web w s)
  end.

#[local] Instance script_reads : Reads script.
Proof.
  refine {| unread := λ s, web_in (sc_web s);
            keep := λ l s, with_web (Web l (web_out (sc_web s)) (web_closed (sc_web s))) s |}; try done.
  - by intros [[] ? ? ? ? ?].
  - intros sock len flags s. simpl. destruct s, (flags =? MSG_PEEK)%Z; done.
Defined.

Definition status_line : list byte := crlf "HTTP/1.0 200 OK".

(** ** Header lines *)

(** A line of the request without its end. *)
Definition header (l : list byte) : Prop :=
  (x0a ∉ l) ∧ (x0d ∉ l) ∧ (x00 ∉ l) ∧ l ≠ [] ∧ length l < 1023.
Definition lines (ls : list (list byte)) : list byte := concat ((λ l, l ++ [x0d; x0a]) <$> ls).

Lemma spec_line_crlf n l rest : x0a ∉ l → x0d ∉ l → length l < n →
  spec_line n (l ++ x0d :: x0a :: rest) = (l ++ [x0a], rest).
Proof.
  revert n; induction l as [|c l IH]; intros [|n] Hlf Hcr Hn; simpl in Hn; try lia; [done|].
  rewrite not_elem_of_cons in Hlf, Hcr. destruct Hlf as [? ?], Hcr as [? ?]. cbn [app spec_line].
  rewrite decide_False, decide_False by congruence. by rewrite IH by (done || lia).
Qed.

(** The array after a line was read into it. *)
Definition holds (l buf : list byte) : Prop :=
  length buf = 1024 ∧ ∃ rest, buf = (l ++ [x0a]) ++ x00 :: rest.

Lemma yields_header client buf l more s : length buf = 1024 →
  (x0a ∉ l) ∧ (x0d ∉ l) ∧ length l < 1023 → web_in (sc_web s) = l ++ x0d :: x0a :: more →
  ∃ buf', holds l buf' ∧
    yields script (get_line client buf 1024) s (S (length l), buf') (keep more s).
Proof.
  intros Hb (Hlf & Hcr & Hlen) Hin.
  pose proof (get_line_reads script client buf 1024 s (l ++ [x0a]) more) as Hg.
  rewrite length_app, Nat.add_1_r in Hg.
  exists ((l ++ [x0a]) ++ x00 :: drop (S (S (length l))) buf). split; [|apply Hg; [lia|]].
  - split; [lengths|by eexists].
  - cbn [unread script_reads]. rewrite Hin. by apply spec_line_crlf.
Qed.

Lemma blank_not l buf : holds l buf → header l → is_blank buf = Ok false.
Proof.
  intros [_ [rest ->]] (Hlf & _ & _ & Hne & _). destruct l as [|c l]; [done|].
  rewrite not_elem_of_cons in Hlf. unfold is_blank. cbn. by rewrite decide_False by naive_solver.
Qed.
Lemma blank_yes buf : holds [] buf → is_blank buf = Ok true.
Proof. intros [_ [rest ->]]. reflexivity. Qed.


(** ** The headers of a POST *)







(** ** A POST *)

Variables (buf_junk env_junk : list byte) (c_junk : byte).
Hypothesis buf_size : length buf_junk = 1024.





(** A message that fits its array. *)
Lemma script_says client s buf w si so nx vars ran : message s → length buf = 1024 →
  ∃ buf', yields script (say client s buf) (Scripted w si so nx vars ran) buf'
    (Scripted (Web (web_in w) (web_out w ++ s) (web_closed w)) si so nx vars ran).
Proof.
  intros [H0 Hs] Hb. exists (s ++ x00 :: drop (S (length s)) buf).
  eapply yields_bind; [apply yields_pure, put_str_spec; lia|].
  eapply yields_bind; [by apply yields_pure, strlen_app|].
  rewrite take_app_length. eapply yields_bind; [by apply yields_call|]. apply yields_ret.
Qed.

Lemma status_message : message status_line.
Proof. split; [apply (bool_decide_unpack _); vm_compute; exact I|vm_compute; lia]. Qed.



(** ** The child *)

Lemma headers_discarded client ls more buf num s :
  length buf = 1024 → is_blank buf = Ok false → (0 < num)%Z → Forall header ls →
  web_in (sc_web s) = lines ls ++ x0d :: x0a :: more →
  yields script (discard_headers client buf num) s tt (keep more s).
Proof using Type.
  clear buf_size. intros Hb Hbl Hn Hls. revert buf num s Hb Hbl Hn.
  induction Hls as [|l ls Hl Hls IH]; intros buf num s Hb Hbl Hn Hin.
  - destruct (yields_header client buf [] more s Hb) as (buf' & Hh & Hy); [|done|].
    { split_and!; [apply not_elem_of_nil..|simpl; lia]. }
    eapply (yields_loop _ _ _ _ (inl (buf', 1%Z))).
    + rewrite (proj2 (Z.ltb_lt _ _)) by done. eapply yields_bind; [apply yields_pure, Hbl|].
      eapply yields_bind; [exact Hy|]. apply yields_ret.
    + eapply (yields_loop _ _ _ _ (inr tt)); [|by split]. cbn [Z.ltb Z.compare].
      eapply yields_bind; [by apply yields_pure, blank_yes|]. apply yields_ret.
  - unfold lines in Hin. cbn [fmap list_fmap concat] in Hin. rewrite <- !app_assoc in Hin. cbn [app] in Hin.
    destruct (yields_header client buf l (lines ls ++ x0d :: x0a :: more) s Hb) as (buf' & Hh & Hy);
      [by destruct Hl as (?&?&_&_&?)|exact Hin|].
    eapply (yields_loop _ _ _ _ (inl (buf', Z.of_nat (S (length l))))).
    + rewrite (proj2 (Z.ltb_lt _ _)) by done. eapply yields_bind; [apply yields_pure, Hbl|].
      eapply yields_bind; [exact Hy|]. apply yields_ret.
    + rewrite <- (keep_keep more (lines ls ++ x0d :: x0a :: more) s).
      apply (IH buf' (Z.of_nat (S (length l)))); [apply Hh|by apply (blank_not l)|lia|done].
Qed.

Hypothesis env_size : length env_junk = 255.
Hypothesis child : pid = 0%Z.

Lemma get_child client path method query ls rest out cl si so nx vars r s' :
  same_nocase method (lit "GET") = true → Forall header ls →
  ends script (cgi_child env_junk path method query (-1) (nx, (nx + 1)%Z) ((nx + 2)%Z, (nx + 2 + 1)%Z))
    (Scripted (Web rest (out ++ status_line) cl) si so (nx + 4) vars None) r s' →
  ends script (execute_cgi buf_junk env_junk c_junk client path method query)
    (Scripted (Web (lines ls ++ x0d :: x0a :: rest) out cl) si so nx vars None) r s'.
Proof using buf_size child.
  clear env_size. intros Hget Hls Hk. unfold execute_cgi, read_headers. rewrite Hget.
  eapply (after_yields _ _ _ _ (Some (-1)%Z) (Scripted (Web rest out cl) si so nx vars None)).
  { eapply yields_bind; [apply yields_pure, put_str_spec; rewrite buf_size; simpl; lia|].
    eapply yields_bind; [apply (headers_discarded client ls rest); try done|apply yields_ret].
    by rewrite length_app, length_cons, length_drop, buf_size. }
  eapply after_yields; [by apply yields_call|]. eapply after_yields; [by apply yields_call|]. cbn [Z.ltb Z.compare].
  eapply after_yields; [by apply yields_call|]. rewrite child. cbn [Z.ltb Z.eqb Z.compare sc_web sc_in sc_out sc_next sc_vars sc_ran].
  destruct (script_says client status_line buf_junk (Web rest out cl) si so (nx + 2 + 2)%Z vars None status_message buf_size) as [b Hsay].
  eapply after_yields; [exact Hsay|]. cbn [web_in web_out web_closed].
  replace (nx + 2 + 2)%Z with (nx + 4)%Z by lia. exact Hk.
Qed.

Lemma script_setenv v w si so nx vars ran : (x00 ∉ v) → length v < 255 →
  ∀ {B} (k : cl B) r s',
  ends script k (Scripted w si so nx (vars ++ [v]) ran) r s' →
  ends script (env ← pure (put_str env_junk 0 v); s ← pure (cstr env); call (api_sys (sys_putenv s));; k)
    (Scripted w si so nx vars ran) r s'.
Proof using env_size.
  clear child buf_size. intros H0 Hl B k r s' Hk. eapply after_yields; [apply yields_pure, put_str_spec; lia|].
  eapply after_yields; [by apply yields_pure, cstr_app|]. eapply after_yields; [by apply yields_call|]. exact Hk.
Qed.

(** The process started for a GET sends the status line, which its parent sends too, puts the
    method and the query into its environment and starts the script; if [execl] fails it ends. *)
Theorem cgi_get_child client path method query ls rest out cl si so nx vars :
  same_nocase method (lit "GET") = true → Forall header ls →
  (x00 ∉ method) → (x00 ∉ query) → length query < 242 →
  ends script (execute_cgi buf_junk env_junk c_junk client path method query)
    (Scripted (Web (lines ls ++ x0d :: x0a :: rest) out cl) si so nx vars None) (Err ProcExit)
    (Scripted (Web rest (out ++ status_line) cl) si so (nx + 4)
      (vars ++ [lit "REQUEST_METHOD=" ++ method; lit "QUERY_STRING=" ++ query]) (Some path)).
Proof using buf_size env_size child.
  intros Hget Hls Hm0 Hq0 Hq. eapply get_child; [done..|]. unfold cgi_child. rewrite Hget.
  assert (length method = 3) as Hml.
  { unfold same_nocase in Hget. apply bool_decide_eq_true, (f_equal length) in Hget. by rewrite !length_fmap in Hget. }
  do 4 (eapply after_yields; [by apply yields_call|]).
  assert (∀ p l : list byte, (x00 ∉ p) → (x00 ∉ l) → x00 ∉ p ++ l) as Happ by (intros p l ? ? [?|?]%elem_of_app; done).
  apply script_setenv.
  { apply Happ; [apply (bool_decide_unpack _); vm_compute; exact I|done]. }
  { rewrite length_app, Hml. simpl. lia. }
  apply script_setenv.
  { apply Happ; [apply (bool_decide_unpack _); vm_compute; exact I|done]. }
  { rewrite length_app. simpl. lia. }
  rewrite <- app_assoc. cbn [app]. eapply after_yields; [by apply yields_call|]. apply ends_ret.
Qed.

(** A query of 242 characters and more is written behind the end of its array. *)
Theorem cgi_query_overflow client path method query ls rest out cl si so nx vars :
  same_nocase method (lit "GET") = true → Forall header ls → (x00 ∉ method) → 242 ≤ length query →
  ends script (execute_cgi buf_junk env_junk c_junk client path method query)
    (Scripted (Web (lines ls ++ x0d :: x0a :: rest) out cl) si so nx vars None) (Err Undefined)
    (Scripted (Web rest (out ++ status_line) cl) si so (nx + 4) (vars ++ [lit "REQUEST_METHOD=" ++ method]) None).
Proof using buf_size env_size child.
  intros Hget Hls Hm0 Hq. eapply get_child; [done..|]. unfold cgi_child. rewrite Hget.
  assert (length method = 3) as Hml.
  { unfold same_nocase in Hget. apply bool_decide_eq_true, (f_equal length) in Hget. by rewrite !length_fmap in Hget. }
  do 4 (eapply after_yields; [by apply yields_call|]).
  apply script_setenv.
  { intros [Hin|?]%elem_of_app; [|done]. revert Hin. apply (bool_decide_unpack _). vm_compute. exact I. }
  { rewrite length_app, Hml. simpl. lia. }
  apply after_error. unfold put_str, wrn. rewrite decide_False; [apply ends_ret|].
  rewrite !length_app, env_size. simpl. lia.
Qed.
End cgi.

(** ** Witnesses *)


Lemma cgi_get_child_witness :
  ends (script 0) (execute_cgi (replicate 1024 x41) (replicate 255 x41) x41 5 (lit "p") (lit "get") (lit "q"))
    (Scripted (Web (lines [lit "Host: a"] ++ x0d :: x0a :: []) [] false) [] [] 10 [] None) (Err ProcExit)
    (Scripted (Web [] ([] ++ status_line) false) [] [] (10 + 4)
      ([] ++ [lit "REQUEST_METHOD=" ++ lit "get"; lit "QUERY_STRING=" ++ lit "q"]) (Some (lit "p"))).
Proof.
  apply (cgi_get_child 0 (replicate 1024 x41) (replicate 255 x41) x41 eq_refl eq_refl eq_refl 5 (lit "p")
    (lit "get") (lit "q") [lit "Host: a"] []); try reflexivity.
  - constructor; [|constructor].
    split_and!; [apply (bool_decide_unpack _); vm_compute; exact I..|discriminate|simpl; lia].
  - apply (bool_decide_unpack _). vm_compute. exact I.
  - apply (bool_decide_unpack _). vm_compute. exact I.
  - simpl. lia.
Defined.

Lemma cgi_query_overflow_witness :
  ends (script 0) (execute_cgi (replicate 1024 x41) (replicate 255 x41) x41 5 (lit "p") (lit "get") (replicate 242 x41))
    (Scripted (Web (lines [] ++ x0d :: x0a :: []) [] false) [] [] 10 [] None) (Err Undefined)
    (Scripted (Web [] ([] ++ status_line) false) [] [] (10 + 4) ([] ++ [lit "REQUEST_METHOD=" ++ lit "get"]) None).
Proof.
  apply (cgi_query_overflow 0 (replicate 1024 x41) (replicate 255 x41) x41 eq_refl eq_refl eq_refl 5 (lit "p")
    (lit "get") (replicate 242 x41) [] []); try reflexivity.
  - constructor.
  - apply (bool_decide_unpack _). vm_compute. exact I.
Defined.
