(* ===== verification/EchoServer.v ===== *)
(** The echo server of src/sample/nty_server.c, and what is proved of its readers. *)

From S2P Require Export CString Client ToyOS.

(** ** The reader *)

Section echo.
Context `{OS}.
(** The functions that receive and send. *)
Variables (recv : Z → Z → Z → apiE (Z * list byte)) (send : Z → list byte → Z → apiE Z).

(** The loop of [server_reader], whose text is the same in nty_server.c and hook_tcpserver.c up
    to the names of these functions and of [close]. *)
Definition echo_reader (fd : Z) : cl unit :=
  cl_loop (λ _ : unit,
    '(ret, data) ← call (recv fd 1024 0);
    buf ← pure (wrn (replicate 1024 x00) 0 data);
    if (0 <? ret)%Z then
      len ← pure (strlen buf);
      ret ← call (send fd (take len buf) 0);
      if (ret =? -1)%Z then call (api_close fd);; mret (inr tt)
      else mret (inl tt)
    else if (ret =? 0)%Z then call (api_close fd);; mret (inr tt)
    else mret (inl tt)) tt.

(** A chunk of text or data that the array holds with a zero behind it. *)
Definition chunk (c : list byte) : Prop := 0 < length c < 1024.

Lemma zeroed_buffer data : length data < 1024 →
  wrn (replicate 1024 x00) 0 data = Ok (data ++ replicate (1024 - length data) x00) ∧
  strlen (data ++ replicate (1024 - length data) x00) = Ok (length (till_nul data)) ∧
  take (length (till_nul data)) (data ++ replicate (1024 - length data) x00) = till_nul data.
Proof.
  intros Hd. split; [apply wrn_zeros; lia|].
  replace (1024 - length data) with (S (1023 - length data)) by lia. cbn [replicate].
  split; [rewrite strlen_nul by set_solver; by rewrite till_nul_app|].
  rewrite take_app_le by apply length_till_nul. apply take_till_nul.
Qed.

(** Each chunk comes back, when [recv] gives the next one and [send] takes everything. *)
Lemma echo_reader_serves fd cs sent :
  (∀ fd n flags s, chunks _ (recv fd n flags) s = receive s) →
  (∀ fd data flags s, chunks _ (send fd data flags) s = take_in data s) →
  Forall chunk cs →
  yields chunks (echo_reader fd) (Conn cs sent false) tt (Conn [] (sent ++ (till_nul <$> cs)) true).
Proof.
  intros Hrecv Hsend Hcs. revert sent; induction Hcs as [|c cs [Hc0 Hc] _ IH]; intros sent.
  - rewrite app_nil_r. eapply (yields_loop _ _ _ _ (inr tt)); [|by split].
    eapply yields_bind; [by apply yields_call; rewrite Hrecv|].
    eapply yields_bind; [by apply yields_pure, wrn_zeros; simpl; lia|]. cbn.
    yields_step. apply yields_ret.
  - destruct (zeroed_buffer c Hc) as (Hw & Hs & Ht). eapply (yields_loop _ _ _ _ (inl tt)).
    + eapply yields_bind; [by apply yields_call; rewrite Hrecv|]. eapply yields_bind; [apply yields_pure, Hw|].
      rewrite (proj2 (Z.ltb_lt _ _)) by lia. eapply yields_bind; [apply yields_pure, Hs|]. rewrite Ht.
      eapply yields_bind; [by apply yields_call; rewrite Hsend|].
      rewrite (proj2 (Z.eqb_neq _ _)) by lia. apply yields_ret.
    + specialize (IH (sent ++ [till_nul c])). rewrite <- app_assoc in IH. exact IH.
Qed.
End echo.

Module EchoServer.
Section server.
Context `{OS}.
(** The padding of an address. *)
Variable sin_zero : list byte.

(** [arg] points to the descriptor, whose value stands for it. *)
Definition server_reader : Z → cl unit := echo_reader api_recv api_send.

(** The functions that [nty_coroutine_create] is given. *)
Definition fn_server : Z := 0.
Definition fn_server_reader : Z := 1.

Definition server (port : Z) : cl unit :=
  fd ← call (api_socket 2 1 0);
  if (fd <? 0)%Z then mret tt else
  call (api_bind fd (le_bytes 2 2 ++ rev (le_bytes 2 port) ++ replicate 4 x00 ++ sin_zero));;
  call (api_listen fd 20);;
  cl_loop (λ _ : unit,
    '(cli_fd, _) ← call (api_accept fd);
    call (api_create fn_server_reader cli_fd);;
    mret (inl tt)) tt.

Definition echo_code (func arg : Z) : itree apiE unit :=
  if (func =? fn_server)%Z then coroutine (server arg) else coroutine (server_reader arg).

(** The coroutines [main] creates: a server for each of a hundred ports. *)
Definition main_coroutines : list (Z * Z) :=
  (λ i, (fn_server, u16 (9096 + Z.of_nat i))) <$> seq 0 100.

(** ** Properties *)

(** A client that sends chunks shorter than the array and closes its side gets each back up
    to its first zero byte, in order, and the server closes its own side and ends. *)
Theorem echo_server_serves fd cs sent :
  Forall chunk cs →
  yields chunks (server_reader fd) (Conn cs sent false) tt (Conn [] (sent ++ (till_nul <$> cs)) true).
Proof. by apply echo_reader_serves. Qed.
End server.

Lemma echo_server_serves_witness :
  yields chunks (server_reader 4) (Conn [lit "hello"; x61 :: x00 :: lit "b"] [] false) tt
    (Conn [] [lit "hello"; lit "a"] true).
Proof. apply (echo_server_serves 4 [lit "hello"; x61 :: x00 :: lit "b"] []). repeat constructor. Defined.
End EchoServer.
