(* ===== verification/SmallSamples.v ===== *)
(** The two smallest samples: the echo server of src/sample/hook_tcpserver.c, which runs on the
    hooked functions of the C library, and the client of src/sample/nty_client.c. *)

From S2P Require Export EchoServer.

Module HookServer.
Section server.
Context `{OS}.
(** The padding of an address. *)
Variable sin_zero : list byte.

Definition server_reader : Z → cl unit := echo_reader api_hook_recv api_hook_send.

(** The functions that [nty_coroutine_create] is given. *)
Definition fn_server : Z := 0.
Definition fn_server_reader : Z := 1.

Definition server (port : Z) : cl unit :=
  fd ← call (api_hook_socket 2 1 0);
  if (fd <? 0)%Z then mret tt else
  call (api_bind fd (le_bytes 2 2 ++ rev (le_bytes 2 port) ++ replicate 4 x00 ++ sin_zero));;
  call (api_listen fd 20);;
  cl_loop (λ _ : unit,
    '(cli_fd, _) ← call (api_hook_accept fd);
    call (api_create fn_server_reader cli_fd);;
    mret (inl tt)) tt.

Definition hook_code (func arg : Z) : itree apiE unit :=
  if (func =? fn_server)%Z then coroutine (server arg) else coroutine (server_reader arg).

(** The coroutine [main] creates: [port] is an [int] of which [server] reads the first two
    bytes. *)
Definition main_coroutine (arg : list byte) : res (Z * Z) :=
  port ← atoi arg; Ok (fn_server, u16 port).

(** What the echo server answers is answered here too. *)
Theorem hook_server_serves fd cs sent :
  Forall chunk cs →
  yields chunks (server_reader fd) (Conn cs sent false) tt (Conn [] (sent ++ (till_nul <$> cs)) true).
Proof. by apply echo_reader_serves. Qed.
End server.

Lemma hook_server_serves_witness :
  yields chunks (server_reader 4) (Conn [lit "hello"] [] false) tt (Conn [] [lit "hello"] true).
Proof. apply (hook_server_serves 4 [lit "hello"] []). repeat constructor. Defined.
End HookServer.

Module NtyClient.
Section client.
Context `{OS}.

(** [htons(9096)] and [inet_addr("127.0.0.1")] in a structure of zeros. *)
Definition serveraddr : list byte :=
  le_bytes 2 2 ++ rev (le_bytes 2 9096) ++ [x7f; x00; x00; x01] ++ replicate 8 x00.

Definition init_client : cl Z :=
  clientfd ← call (api_socket 2 1 0);
  if (clientfd <=? 0)%Z then mret (-1)%Z else
  result ← call (api_connect clientfd serveraddr);
  if negb (result =? 0)%Z then mret (-2)%Z else mret clientfd.

Definition greeting : list byte := lit "ntyco_client" ++ [x0d; x0a].

(** [sleep] is that of the C library, which suspends the whole process. *)
Definition client : cl unit :=
  clientfd ← init_client;
  cl_loop (λ _ : unit,
    call (api_send clientfd greeting 0);;
    call (api_sys (sys_sleep 1));;
    mret (inl tt)) tt.

(** The one coroutine that [main] creates. *)
Definition client_code (func arg : Z) : itree apiE unit := coroutine client.

(** ** Properties *)

(** The results of the calls that [init_client] makes. *)
Definition outcome (c : acall) : Z :=
  match c with
  | ACall e r =>
      match e in apiE A return A → Z with
      | api_socket _ _ _ => λ r, r
      | api_connect _ _ => λ r, r
      | _ => λ _, 0%Z
      end r
  end.
(** The descriptor used after the calls [tr]: that of the connection, or a code of failure. *)
Definition used_fd (tr : list acall) : Z :=
  match outcome <$> tr with
  | s :: l => if (s <=? 0)%Z then -1 else if (default (-1) (head l) =? 0)%Z then s else -2
  | [] => -1
  end%Z.
(** The socket and the connection first, then only greetings and sleeps. *)
Definition client_calls (tr : list acall) (A : Type) (e : apiE A) : Prop :=
  match e with
  | api_socket domain type protocol => tr = [] ∧ (domain, type, protocol) = (2, 1, 0)%Z
  | api_connect fd name => (∃ d t p, tr = [ACall (api_socket d t p) fd]) ∧ (0 < fd)%Z ∧ name = serveraddr
  | api_send fd data flags => 1 ≤ length tr ∧ fd = used_fd tr ∧ data = greeting
  | api_sys s => match s with sys_sleep secs => secs = 1%Z | _ => False end
  | _ => False
  end.

(** Once the descriptor is settled. *)
Lemma greets fd tr : 1 ≤ length tr → (∀ l, used_fd (tr ++ l) = fd) →
  every_call client_calls (λ _ _ _, True)
    (cl_loop (λ _ : unit,
      call (api_send fd greeting 0);; call (api_sys (sys_sleep 1));; mret (inl tt)) tt)
    tr (λ _ (_ : unit), False).
Proof.
  intros Hlen Hfd. apply (ec_loop _ _ (λ _ tr', ∃ l, tr' = tr ++ l)); [exists []; by rewrite app_nil_r|].
  intros [] ? [l ->]. apply ec_bind_call; [unfold client_calls; rewrite length_app, Hfd; split_and!; [lia|done..]|]. intros r _.
  apply ec_bind_call; [done|]. intros r' _. apply ec_ret. rewrite <- !app_assoc. by eexists.
Qed.

(** The client connects once and greets for ever, through the connection or, when there is
    none, through the code of the failure; it never closes a socket and never ends. *)
Theorem client_greets_for_ever :
  every_call client_calls (λ _ _ _, True) client [] (λ _ _, False).
Proof.
  apply (ec_bind _ _ _ _ _ (λ tr fd, 1 ≤ length tr ∧ ∀ l, used_fd (tr ++ l) = fd)).
  - apply ec_bind_call; [done|]. intros s _. destruct (s <=? 0)%Z eqn:Hs.
    + apply ec_ret. split; [simpl; lia|]. intros l. unfold used_fd. simpl. by rewrite Hs.
    + apply Z.leb_gt in Hs. apply ec_bind_call; [by split; [eexists _, _, _|]|]. intros r _.
      assert (∀ l, used_fd ([ACall (api_socket 2 1 0) s] ++ [ACall (api_connect s serveraddr) r] ++ l) =
        if (r =? 0)%Z then s else (-2)%Z) as Hu.
      { intros l. unfold used_fd. simpl. by rewrite (proj2 (Z.leb_gt _ _)). }
      destruct (r =? 0)%Z; apply ec_ret; (split; [simpl; lia|]); intros l; rewrite <- app_assoc; apply Hu.
  - intros tr fd [Hlen Hfd]. by apply greets.
Qed.
End client.
End NtyClient.
