(* ===== verification/Mysql.v ===== *)
(** The clients of MySQL: src/sample/nty_mysql_oper.c, which queries a table and moves an image
    from a file into the database and back, and src/sample/nty_mysql_client.c, which only
    connects.

    The functions of the MySQL client library, which is not in the repository, and those of
    stdio are events: what they answer is left to the environment. Pointers that are only
    handed on are integers, with zero for NULL. What is only printed is left out. *)

From S2P Require Export CString Client.

(** ** The calls *)

Inductive dbE : Type → Type :=
  | mysql_init (handle : Z) : dbE Z
  | mysql_real_connect (handle : Z) (host user passwd db : list byte) (port flags : Z) : dbE Z
  | mysql_real_query (handle : Z) (sql : list byte) : dbE Z
  | mysql_store_result (handle : Z) : dbE Z
  | mysql_num_rows (res : Z) : dbE Z
  | mysql_num_fields (res : Z) : dbE Z
  | mysql_fetch_row (res : Z) : dbE Z
  | mysql_free_result (res : Z) : dbE unit
  | mysql_stmt_init (handle : Z) : dbE Z
  | mysql_stmt_prepare (stmt : Z) (sql : list byte) : dbE Z
  | mysql_stmt_bind_param (stmt : Z) : dbE Z
  | mysql_stmt_send_long_data (stmt number : Z) (data : list byte) : dbE Z
  | mysql_stmt_execute (stmt : Z) : dbE Z
  | mysql_stmt_close (stmt : Z) : dbE Z
  | mysql_stmt_bind_result (stmt : Z) : dbE Z
  | mysql_stmt_store_result (stmt : Z) : dbE Z
  | mysql_stmt_fetch (stmt : Z) : dbE (Z * Z)            (* and what [*length] is then *)
  | mysql_stmt_fetch_column (stmt buffer_length column offset : Z) : dbE (Z * list byte)
  | mysql_close (handle : Z) : dbE unit
  | fopen (filename mode : list byte) : dbE Z
  | fseek (fp offset whence : Z) : dbE Z
  | ftell (fp : Z) : dbE Z
  | fread (fp n : Z) : dbE (list byte)
  | fwrite (fp : Z) (data : list byte) : dbE Z
  | fclose (fp : Z) : dbE Z.

Module Mysql.
Definition KING_DB_SERVER_IP : list byte := lit "192.168.233.133".
Definition KING_DB_SERVER_PORT : Z := 3306.
Definition KING_DB_USERNAME : list byte := lit "king".
Definition KING_DB_PASSWORD : list byte := lit "123456".
Definition KING_DB_DEFAULTDB : list byte := lit "KING_DB".
Definition SQL_INSERT_TBL_USER : list byte := lit "INSERT TBL_USER(U_NAME, U_GENDER) VALUES('King', 'man');".
Definition SQL_SELECT_TBL_USER : list byte := lit "SELECT * FROM TBL_USER;".
Definition SQL_DELETE_TBL_USER : list byte := lit "CALL PROC_DELETE_USER('King')".
Definition SQL_INSERT_IMG_USER : list byte :=
  lit "INSERT TBL_USER(U_NAME, U_GENDER, U_IMG) VALUES('King', 'man', ?);".
Definition SQL_SELECT_IMG_USER : list byte := lit "SELECT U_IMG FROM TBL_USER WHERE U_NAME='King';".
Definition FILE_IMAGE_LENGTH : nat := 64 * 1024.
Definition MYSQL_DATA_TRUNCATED : Z := 101.
Definition SEEK_SET : Z := 0.
Definition SEEK_END : Z := 2.

(** ** Queries *)

(** The fields of the rows are only printed. *)
Definition king_mysql_select (handle : Z) : prg dbE Z :=
  r ← call (mysql_real_query handle SQL_SELECT_TBL_USER);
  if negb (r =? 0)%Z then mret (-1)%Z else
  res ← call (mysql_store_result handle);
  if (res =? 0)%Z then mret (-2)%Z else
  call (mysql_num_rows res);;
  call (mysql_num_fields res);;
  cl_loop (λ _ : unit,
    row ← call (mysql_fetch_row res);
    if (row =? 0)%Z then mret (inr tt) else mret (inl tt)) tt;;
  call (mysql_free_result res);;
  mret 0%Z.

(** ** Files *)

(** [buffer] is the array behind the pointer; the functions give it back as they leave it. *)
Definition read_image (filename buffer : option (list byte)) : prg dbE (Z * option (list byte)) :=
  match filename, buffer with
  | Some name, Some buf =>
      fp ← call (fopen name (lit "rb"));
      if (fp =? 0)%Z then mret ((-2)%Z, buffer) else
      call (fseek fp 0 SEEK_END);;
      n ← call (ftell fp);
      let length := i32 n in
      call (fseek fp 0 SEEK_SET);;
      data ← call (fread fp (u64 length));
      buf ← pure (wrn buf 0 data);
      let size := i32 (Z.of_nat (List.length data)) in
      if negb (size =? length)%Z then mret ((-3)%Z, Some buf) else
      call (fclose fp);;
      mret (size, Some buf)
  | _, _ => mret ((-1)%Z, buffer)
  end.

Definition write_image (filename buffer : option (list byte)) (length : Z) : prg dbE Z :=
  match filename, buffer with
  | Some name, Some buf =>
      if (length <=? 0)%Z then mret (-1)%Z else
      fp ← call (fopen name (lit "wb+"));
      if (fp =? 0)%Z then mret (-2)%Z else
      data ← pure (rdn buf 0 (Z.to_nat length));
      n ← call (fwrite fp data);
      let size := i32 n in
      if negb (size =? length)%Z then mret (-3)%Z else
      call (fclose fp);;
      mret size
  | _, _ => mret (-1)%Z
  end.

(** ** Statements *)

Definition mysql_write (handle : Z) (buffer : option (list byte)) (length : Z) : prg dbE Z :=
  match buffer with
  | Some buf =>
      if (handle =? 0)%Z || (length <=? 0)%Z then mret (-1)%Z else
      stmt ← call (mysql_stmt_init handle);
      ret ← call (mysql_stmt_prepare stmt SQL_INSERT_IMG_USER);
      if negb (ret =? 0)%Z then mret (-2)%Z else
      ret ← call (mysql_stmt_bind_param stmt);
      if negb (ret =? 0)%Z then mret (-3)%Z else
      data ← pure (rdn buf 0 (Z.to_nat length));
      ret ← call (mysql_stmt_send_long_data stmt 0 data);
      if negb (ret =? 0)%Z then mret (-4)%Z else
      ret ← call (mysql_stmt_execute stmt);
      if negb (ret =? 0)%Z then mret (-5)%Z else
      ret ← call (mysql_stmt_close stmt);
      if negb (ret =? 0)%Z then mret (-6)%Z else
      mret ret
  | None => mret (-1)%Z
  end.

(** The loop over the bytes of a column: each is fetched by a call of its own. *)
Definition column_step (stmt total_length : Z) (st : Z * list byte) : prg dbE (Z * list byte + list byte) :=
  let '(start, buf) := st in
  if (start <? i32 total_length)%Z then
    '(_, data) ← call (mysql_stmt_fetch_column stmt 1 0 start);
    buf ← pure (wrn buf (Z.to_nat start) data);
    mret (inl ((start + 1)%Z, buf))
  else mret (inr buf).
(** The loop over the rows: [total_length] and the array. *)
Definition row_step (stmt : Z) (st : Z * list byte) : prg dbE (Z * list byte + Z * list byte) :=
  let '(_, buf) := st in
  '(ret, total_length) ← call (mysql_stmt_fetch stmt);
  if negb (ret =? 0)%Z && negb (ret =? MYSQL_DATA_TRUNCATED)%Z then mret (inr (total_length, buf))
  else
    buf ← cl_loop (column_step stmt total_length) (0%Z, buf);
    mret (inl (total_length, buf)).
Definition mysql_read (handle : Z) (buffer : option (list byte)) (length : Z) : prg dbE (Z * option (list byte)) :=
  match buffer with
  | Some buf =>
      if (handle =? 0)%Z || (length <=? 0)%Z then mret ((-1)%Z, buffer) else
      stmt ← call (mysql_stmt_init handle);
      ret ← call (mysql_stmt_prepare stmt SQL_SELECT_IMG_USER);
      if negb (ret =? 0)%Z then mret ((-2)%Z, buffer) else
      ret ← call (mysql_stmt_bind_result stmt);
      if negb (ret =? 0)%Z then mret ((-3)%Z, buffer) else
      ret ← call (mysql_stmt_execute stmt);
      if negb (ret =? 0)%Z then mret ((-4)%Z, buffer) else
      ret ← call (mysql_stmt_store_result stmt);
      if negb (ret =? 0)%Z then mret ((-5)%Z, buffer) else
      '(total_length, buf) ← cl_loop (row_step stmt) (0%Z, buf);
      call (mysql_stmt_close stmt);;
      mret (i32 total_length, Some buf)
  | None => mret ((-1)%Z, buffer)
  end.

(** ** The coroutine *)

(** Between the connection and the label [Exit]. *)
Definition session (mysql : Z) : prg dbE unit :=
  r ← call (mysql_real_query mysql SQL_INSERT_TBL_USER);
  if negb (r =? 0)%Z then mret tt else
  king_mysql_select mysql;;
  r ← call (mysql_real_query mysql SQL_DELETE_TBL_USER);
  if negb (r =? 0)%Z then mret tt else
  king_mysql_select mysql;;
  '(length, buffer) ← read_image (Some (lit "0voice.jpg")) (Some (replicate FILE_IMAGE_LENGTH x00));
  if (length <? 0)%Z then mret tt else
  mysql_write mysql buffer length;;
  let buffer := Some (replicate FILE_IMAGE_LENGTH x00) in
  '(length, buffer) ← mysql_read mysql buffer (Z.of_nat FILE_IMAGE_LENGTH);
  write_image (Some (lit "a.jpg")) buffer length;;
  mret tt.

(** [mysql] is the address of the local object. *)
Definition coroutine_func (mysql : Z) : prg dbE unit :=
  r ← call (mysql_init mysql);
  if (r =? 0)%Z then mret tt else
  r ← call (mysql_real_connect mysql KING_DB_SERVER_IP KING_DB_USERNAME KING_DB_PASSWORD
              KING_DB_DEFAULTDB KING_DB_SERVER_PORT 0);
  (if (r =? 0)%Z then mret tt else session mysql);;
  call (mysql_close mysql);;
  mret tt.
End Mysql.

Module MysqlClient.
Definition CLIENT_FOUND_ROWS : Z := 2.
Definition func : prg dbE unit :=
  m_mysql ← call (mysql_init 0);
  if (m_mysql =? 0)%Z then mret tt else
  call (mysql_real_connect m_mysql (lit "192.168.233.133") (lit "king") (lit "123456") (lit "KING_DB")
          3306 CLIENT_FOUND_ROWS);;
  mret tt.
End MysqlClient.
