(* ===== verification/MysqlProps.v ===== *)
(** What is proved of the MySQL clients: the calls of every run, the way of an image through the
    database, and what happens to images that are too long. *)

From S2P Require Export Mysql.

Import Mysql.

(** ** The calls of a run *)

(** Whether the handle is initialised. *)
Definition handle_step (b : bool) (c : event dbE) : bool :=
  match c with
  | ACall e r =>
      match e in dbE A return A → bool with
      | mysql_init _ => λ h, negb (h =? 0)%Z
      | mysql_close _ => λ _, false
      | _ => λ _, b
      end r
  end.
Definition opened (tr : list (event dbE)) : bool := foldl handle_step false tr.

Lemma handle_opened_snoc tr c : opened (tr ++ [c]) = handle_step (opened tr) c.
Proof. unfold opened. by rewrite foldl_app. Qed.

(** The handle is initialised once and used until it is closed; no call gets the null pointer for
    a result or a file. *)
Definition db_calls (mysql : Z) (tr : list (event dbE)) (A : Type) (e : dbE A) : Prop :=
  match e with
  | mysql_init h => tr = [] ∧ h = mysql
  | mysql_real_connect h _ _ _ _ _ _ | mysql_real_query h _ | mysql_store_result h
  | mysql_stmt_init h | mysql_close h => opened tr = true ∧ h = mysql
  | mysql_num_rows res | mysql_num_fields res | mysql_fetch_row res | mysql_free_result res =>
      opened tr = true ∧ res ≠ 0%Z
  | mysql_stmt_prepare _ _ | mysql_stmt_bind_param _ | mysql_stmt_send_long_data _ _ _
  | mysql_stmt_execute _ | mysql_stmt_close _ | mysql_stmt_bind_result _ | mysql_stmt_store_result _
  | mysql_stmt_fetch _ | mysql_stmt_fetch_column _ _ _ _ => opened tr = true
  | fopen _ _ => True
  | fseek fp _ _ | ftell fp | fread fp _ | fwrite fp _ | fclose fp => fp ≠ 0%Z
  end.
(** The file and the image in the database fit the array, and no call gives more bytes than it
    was asked for. *)
Definition moderate (A : Type) (e : dbE A) : A → Prop :=
  match e in dbE A return A → Prop with
  | ftell _ => λ n, (0 ≤ n ≤ Z.of_nat FILE_IMAGE_LENGTH)%Z
  | fread _ n => λ data, (Z.of_nat (length data) ≤ n)%Z
  | mysql_stmt_fetch _ => λ r, (i32 r.2 ≤ Z.of_nat FILE_IMAGE_LENGTH)%Z
  | mysql_stmt_fetch_column _ n _ _ => λ r, (Z.of_nat (length r.2) ≤ n)%Z
  | _ => λ _, True
  end.

Section calls.
Variable mysql : Z.

(** A program that runs while the handle is initialised and leaves it so. *)
Definition inside {A} (m : prg dbE A) (Q : A → Prop) : Prop :=
  ∀ tr, opened tr = true → every_call (db_calls mysql) moderate m tr (λ tr x, opened tr = true ∧ Q x).

Lemma inside_ret {A} (x : A) (Q : A → Prop) : Q x → inside (mret x) Q.
Proof. intros HQ tr Ho. by apply ec_ret. Qed.
Lemma inside_bind {A B} (m : prg dbE A) (k : A → prg dbE B) (R : A → Prop) (Q : B → Prop) :
  inside m R → (∀ x, R x → inside (k x) Q) → inside (m ≫= k) Q.
Proof.
  intros Hm Hk tr Ho. eapply ec_bind; [by apply Hm|]. intros tr' x [Ho' HR]. by apply Hk.
Qed.
Lemma inside_pure {A} (r : res A) x (Q : A → Prop) : r = Ok x → Q x → inside (pure r) Q.
Proof. intros Hr HQ tr Ho. by eapply ec_pure. Qed.
(** Any call but [mysql_init] and [mysql_close]. *)
Lemma inside_call {A} (e : dbE A) :
  (∀ tr, opened tr = true → db_calls mysql tr A e) → (∀ r, handle_step true (ACall e r) = true) →
  inside (call e) (moderate A e).
Proof.
  intros Ha Hs tr Ho. apply ec_call; [by apply Ha|]. intros x Hx. rewrite handle_opened_snoc, Ho. by split.
Qed.
Lemma inside_loop {A B} (I : A → Prop) (body : A → prg dbE (A + B)) a (Q : B → Prop) :
  I a → (∀ a, I a → inside (body a) (λ r, match r with inl a => I a | inr b => Q b end)) →
  inside (cl_loop body a) Q.
Proof.
  intros HI Hb tr Ho. apply (ec_loop _ _ (λ a tr, opened tr = true ∧ I a)); [done|].
  intros a' tr' [Ho' Ha']. eapply ec_conseq; [by apply Hb|]. by intros tr'' [x|x] [??].
Qed.
Lemma inside_any {A} (m : prg dbE A) (Q : A → Prop) : inside m Q → inside m (λ _, True).
Proof. intros Hm tr Ho. eapply ec_conseq; [by apply Hm|]. by intros ? ? [? _]. Qed.

(** Walk through a program up to its next condition. *)
Ltac inside_step := lazymatch goal with
  | |- inside (call _ ≫= _) _ => eapply inside_bind; [apply inside_call; done|intros ? ?]
  | |- inside (mret _) _ => apply inside_ret
  | |- inside (if negb (?x =? 0)%Z then _ else _) _ => destruct (Z.eqb_spec x 0); cbn [negb]
  | |- inside (if (?x =? 0)%Z then _ else _) _ => destruct (Z.eqb_spec x 0)
  end.
Ltac inside_steps := cbv zeta; repeat inside_step.

Lemma select_inside : inside (king_mysql_select mysql) (λ _, True).
Proof.
  unfold king_mysql_select. inside_steps; try done.
  eapply (inside_bind _ _ (λ _, True)); [|intros; by inside_steps].
  apply (inside_loop (λ _, True)); [done|]. intros [] _. by inside_steps.
Qed.

(** A read image fits the array. *)
Definition stored (r : Z * option (list byte)) : Prop :=
  ∃ buf, r.2 = Some buf ∧ length buf = FILE_IMAGE_LENGTH ∧ (r.1 ≤ Z.of_nat FILE_IMAGE_LENGTH)%Z.

Lemma read_image_inside name buf : length buf = FILE_IMAGE_LENGTH →
  inside (read_image (Some name) (Some buf)) stored.
Proof.
  intros Hl. assert (Z.of_nat FILE_IMAGE_LENGTH < 2 ^ 31)%Z as Hsmall by (unfold FILE_IMAGE_LENGTH; lia).
  unfold read_image. inside_step. inside_step; [inside_step; by exists buf|].
  eapply inside_bind; [by apply inside_call|]. intros ? _.
  eapply inside_bind; [by apply inside_call|]. intros size Hn. cbn [moderate] in Hn. cbv zeta.
  eapply inside_bind; [by apply inside_call|]. intros ? _.
  eapply inside_bind; [by apply inside_call|]. intros data Hd. cbn [moderate] in Hd.
  rewrite (i32_small size) in Hd |- * by lia. rewrite u64_small in Hd by lia.
  assert (length data ≤ length buf) as Hfit by lia.
  destruct (wrn buf 0 data) as [buf'|] eqn:Ew; [|by rewrite wrn_ok in Ew by lia].
  eapply (inside_bind _ _ (λ b, b = buf')); [by apply (inside_pure _ buf')|]. intros ? ->.
  apply length_wrn in Ew as Hl'. rewrite i32_small by lia.
  destruct (negb _); [apply inside_ret; exists buf'; simpl; split_and!; [done|lia..]|].
  inside_steps. exists buf'. simpl. split_and!; [done|lia..].
Qed.

Lemma write_image_inside name buf len : (len ≤ Z.of_nat (length buf))%Z →
  inside (write_image (Some name) (Some buf) len) (λ _, True).
Proof.
  intros Hl. unfold write_image. destruct (Z.leb_spec len 0); [by inside_steps|].
  inside_step. inside_step; [by inside_steps|].
  eapply (inside_bind _ _ (λ _, True)); [by eapply inside_pure; [apply rdn_ok; lia|]|]. intros data _.
  eapply inside_bind; [by apply inside_call|]. intros written _. cbv zeta.
  destruct (negb _); inside_steps; done.
Qed.

Lemma mysql_write_inside buf len : (len ≤ Z.of_nat (length buf))%Z →
  inside (mysql_write mysql (Some buf) len) (λ _, True).
Proof.
  intros Hl. unfold mysql_write. destruct (mysql =? 0)%Z; cbn [orb]; [by inside_steps|].
  destruct (Z.leb_spec len 0); [by inside_steps|]. inside_steps; try done.
  eapply (inside_bind _ _ (λ _, True)); [by eapply inside_pure; [apply rdn_ok; lia|]|]. intros data _.
  inside_steps; done.
Qed.

Lemma column_inside stmt total buf : length buf = FILE_IMAGE_LENGTH →
  (i32 total ≤ Z.of_nat FILE_IMAGE_LENGTH)%Z →
  inside (cl_loop (column_step stmt total) (0%Z, buf)) (λ b, length b = FILE_IMAGE_LENGTH).
Proof.
  intros Hl Ht. apply (inside_loop (λ st, 0 ≤ st.1 ∧ length st.2 = FILE_IMAGE_LENGTH)%Z); [done|].
  intros [start b] [Hs Hb]. cbn [fst snd] in *. unfold column_step.
  destruct (Z.ltb_spec start (i32 total)); [|by apply inside_ret].
  eapply inside_bind; [by apply inside_call|]. intros [r data] Hd. cbn [moderate snd] in Hd.
  destruct (wrn b (Z.to_nat start) data) as [b'|] eqn:Ew; [|by rewrite wrn_ok in Ew by lia].
  eapply (inside_bind _ _ (λ x, x = b')); [by eapply inside_pure|]. intros ? ->.
  apply length_wrn in Ew. apply inside_ret. simpl. lia.
Qed.

Lemma mysql_read_inside buf len : length buf = FILE_IMAGE_LENGTH →
  inside (mysql_read mysql (Some buf) len) stored.
Proof.
  intros Hl. assert (stored (0%Z, Some buf)) as H0 by (exists buf; simpl; split_and!; [done..|unfold FILE_IMAGE_LENGTH; lia]).
  assert (∀ c, (c ≤ 0)%Z → stored (c, Some buf)) as Hneg
    by (intros c Hc; exists buf; simpl; split_and!; [done..|unfold FILE_IMAGE_LENGTH; lia]).
  unfold mysql_read. destruct (mysql =? 0)%Z; cbn [orb]; [inside_steps; by apply Hneg|].
  destruct (len <=? 0)%Z; [inside_steps; by apply Hneg|]. inside_steps; try by apply Hneg.
  eapply (inside_bind _ _ (λ r, (i32 r.1 ≤ Z.of_nat FILE_IMAGE_LENGTH)%Z ∧ length r.2 = FILE_IMAGE_LENGTH)).
  - apply (inside_loop (λ st, length st.2 = FILE_IMAGE_LENGTH)); [done|].
    intros [t b] Hb. cbn [snd] in Hb. unfold row_step.
    eapply inside_bind; [by apply inside_call|]. intros [ret total] Ht. cbn [moderate snd] in Ht.
    destruct (_ && _); [by apply inside_ret|]. eapply inside_bind; [by apply column_inside|].
    intros b' Hb'. by apply inside_ret.
  - intros [t b] [Ht Hb]. cbn [fst snd] in *. inside_steps. by exists b.
Qed.

Lemma session_inside : inside (session mysql) (λ _, True).
Proof.
  unfold session. inside_steps; try done.
  eapply inside_bind; [apply select_inside|]. intros _ _. inside_steps; try done.
  eapply inside_bind; [apply select_inside|]. intros _ _.
  assert (length (replicate FILE_IMAGE_LENGTH x00) = FILE_IMAGE_LENGTH) as Hz by apply length_replicate.
  set (zeros := replicate FILE_IMAGE_LENGTH x00) in *. clearbody zeros.
  eapply inside_bind; [by apply read_image_inside|]. intros [len b] (buf & Hb & Hl & Hlen). cbn [fst snd] in *. subst b.
  destruct (len <? 0)%Z; [by inside_steps|].
  eapply inside_bind; [apply mysql_write_inside; lia|]. intros _ _. cbv zeta.
  eapply inside_bind; [by apply mysql_read_inside|]. intros [n b] (buf' & Hb & Hl' & Hn). cbn [fst snd] in *. subst b.
  eapply inside_bind; [apply write_image_inside; lia|]. intros _ _. by inside_steps.
Qed.

(** Whatever the database and the file answer, as long as the image fits the array, every run
    of [coroutine_func] stays inside the array, hands no null pointer for a result or a file to a
    library, uses its handle only while that is initialised, and closes it exactly once if
    it could be initialised. *)
Theorem database_session_safe :
  every_call (db_calls mysql) moderate (coroutine_func mysql) []
    (λ tr _, opened tr = false).
Proof.
  unfold coroutine_func. apply ec_bind_call; [done|]. intros r _.
  destruct (Z.eqb_spec r 0) as [->|Hr]; [by apply ec_ret|].
  assert (opened [ACall (mysql_init mysql) r] = true) as Ho by (unfold opened; simpl; by rewrite (proj2 (Z.eqb_neq _ _))).
  generalize dependent [ACall (mysql_init mysql) r]. intros tr Ho.
  eapply ec_bind; [apply (inside_call (mysql_real_connect mysql _ _ _ _ _ _)); done|].
  clear tr Ho Hr r. intros tr r [Ho _].
  eapply (ec_bind _ _ _ _ _ (λ tr _, opened tr = true)).
  - destruct (r =? 0)%Z; [by apply ec_ret|].
    eapply ec_conseq; [by apply session_inside|]. by intros ? ? [? _].
  - clear tr Ho r. intros tr _ Ho. apply ec_bind_call; [done|]. intros r _. apply ec_ret.
    by rewrite handle_opened_snoc.
Qed.
End calls.
(** ** The way of an image *)

Section server.
(** The handle, the image in the file, and what the stored procedure leaves of the rows of the
    user; a row is its image, or nothing for NULL. *)
Variables (mysql : Z) (img : list byte) (procedure : list (option (list byte)) → list (option (list byte))).

(** The rows, the file that was written, and the state of the one statement: its text, the data
    sent for its parameter, the rows that are still to come and the image of the last one. *)
Record db : Type := Db {
  rows : list (option (list byte));
  saved : option (list byte);
  text : list byte;
  sent : list byte;
  cursor : list (option (list byte));
  current : list byte;
  pos : Z;
}.

Definition run_query (sql : list byte) (s : db) : Z * db :=
  let rows := if decide (sql = SQL_INSERT_TBL_USER) then rows s ++ [None]
              else if decide (sql = SQL_DELETE_TBL_USER) then procedure (rows s) else rows s in
  (0%Z, Db rows (saved s) (text s) (sent s) (cursor s) (current s) (pos s)).
Definition run_statement (s : db) : Z * db :=
  if decide (text s = SQL_INSERT_IMG_USER)
  then (0%Z, Db (rows s ++ [Some (sent s)]) (saved s) (text s) [] (cursor s) (current s) (pos s))
  else (0%Z, Db (rows s) (saved s) (text s) (sent s) (rows s) [] (pos s)).
Definition with_pos (p : Z) (s : db) : db :=
  Db (rows s) (saved s) (text s) (sent s) (cursor s) (current s) p.
Definition with_cursor (l : list (option (list byte))) (c : list byte) (s : db) : db :=
  Db (rows s) (saved s) (text s) (sent s) l c (pos s).
Definition next_row (s : db) : Z * Z * db :=
  match cursor s with
  | [] => (100%Z, Z.of_nat (length (current s)), s)
  | Some c :: l =>
      (if decide (c = []) then 0%Z else MYSQL_DATA_TRUNCATED, Z.of_nat (length c), with_cursor l c s)
  | None :: l => (0%Z, 0%Z, with_cursor l [] s)
  end.

(** A database and files that answer every call. *)
Definition server (A : Type) (e : dbE A) : db → A * db :=
  match e in dbE A return db → A * db with
  | mysql_init _ => λ s, (mysql, s)
  | mysql_real_connect _ _ _ _ _ _ _ => λ s, (mysql, s)
  | mysql_real_query _ sql => run_query sql
  | mysql_store_result _ => λ s, (1%Z, s)
  | mysql_num_rows _ => λ s, (Z.of_nat (length (rows s)), s)
  | mysql_num_fields _ => λ s, (3%Z, s)
  | mysql_fetch_row _ => λ s, (0%Z, s)
  | mysql_free_result _ => λ s, (tt, s)
  | mysql_stmt_init _ => λ s, (1%Z, s)
  | mysql_stmt_prepare _ sql => λ s, (0%Z, Db (rows s) (saved s) sql [] [] [] (pos s))
  | mysql_stmt_bind_param _ => λ s, (0%Z, s)
  | mysql_stmt_send_long_data _ _ data => λ s,
      (0%Z, Db (rows s) (saved s) (text s) (sent s ++ data) (cursor s) (current s) (pos s))
  | mysql_stmt_execute _ => run_statement
  | mysql_stmt_close _ => λ s, (0%Z, s)
  | mysql_stmt_bind_result _ => λ s, (0%Z, s)
  | mysql_stmt_store_result _ => λ s, (0%Z, s)
  | mysql_stmt_fetch _ => next_row
  | mysql_stmt_fetch_column _ n _ offset => λ s,
      ((0%Z, take (Z.to_nat n) (drop (Z.to_nat offset) (current s))), s)
  | mysql_close _ => λ s, (tt, s)
  | fopen _ _ => λ s, (1%Z, with_pos 0 s)
  | fseek _ offset whence => λ s,
      (0%Z, with_pos (if (whence =? SEEK_END)%Z then Z.of_nat (length img) + offset else offset)%Z s)
  | ftell _ => λ s, (pos s, s)
  | fread _ n => λ s, (take (Z.to_nat n) (drop (Z.to_nat (pos s)) img), s)
  | fwrite _ data => λ s,
      (Z.of_nat (length data), Db (rows s) (Some data) (text s) (sent s) (cursor s) (current s) (pos s))
  | fclose _ => λ s, (0%Z, s)
  end.

Lemma select_served s : yields server (king_mysql_select mysql) s 0%Z s.
Proof.
  assert (run_query SQL_SELECT_TBL_USER s = (0%Z, s)) as Hq.
  { unfold run_query. rewrite !decide_False by (intros E; discriminate). by destruct s. }
  eapply (yields_bind _ _ _ _ 0%Z s); [by apply yields_call|]. clear Hq.
  do 3 yields_step. eapply yields_bind; [|by yields_step; apply yields_ret].
  eapply (yields_loop _ _ _ _ (inr tt)); [|done]. yields_step. apply yields_ret.
Qed.


Definition with_rows (l : list (option (list byte))) (s : db) : db :=
  Db l (saved s) (text s) (sent s) (cursor s) (current s) (pos s).





(** A file that does not fit the array is written behind its end. *)
Theorem long_image_overflows s :
  mysql ≠ 0%Z → FILE_IMAGE_LENGTH < length img → (Z.of_nat (length img) < 2 ^ 31)%Z →
  ∃ s', ends server (coroutine_func mysql) s (Err Undefined) s'.
Proof.
  intros Hm Himg Hsmall. unfold coroutine_func. eexists.
  assert (length (replicate FILE_IMAGE_LENGTH x00) = FILE_IMAGE_LENGTH) as Hz by apply length_replicate.
  set (zeros := replicate FILE_IMAGE_LENGTH x00) in *.
  eapply (after_yields _ _ _ _ mysql s); [by apply yields_call|]. rewrite (proj2 (Z.eqb_neq _ _)) by done.
  eapply (after_yields _ _ _ _ mysql s); [by apply yields_call|]. rewrite (proj2 (Z.eqb_neq _ _)) by done.
  apply after_error. unfold session. fold zeros.
  eapply (after_yields _ _ _ _ 0%Z (with_rows (rows s ++ [None]) s)); [by apply yields_call|].
  cbn [negb Z.eqb]. eapply after_yields; [apply select_served|].
  eapply (after_yields _ _ _ _ 0%Z (with_rows (procedure (rows s ++ [None])) s)).
  { apply yields_call. unfold server, run_query. rewrite decide_False by (intros E; discriminate).
    by rewrite decide_True by done. }
  cbn [negb Z.eqb]. eapply after_yields; [apply select_served|]. apply after_error.
  unfold read_image. do 2 (eapply after_yields; [by apply yields_call|]). cbn [Z.eqb].
  eapply (after_yields _ _ _ _ (Z.of_nat (length img))); [apply yields_call; simpl; by rewrite Z.add_0_r|].
  cbv zeta. rewrite i32_small, u64_small by lia. do 2 (eapply after_yields; [by apply yields_call|]).
  apply after_error. rewrite Nat2Z.id. change (Z.to_nat (pos (with_pos 0 _))) with 0. rewrite drop_0, take_ge by done.
  unfold wrn. rewrite decide_False by lia. apply ends_ret.
Qed.
End server.


Lemma long_image_overflows_witness :
  ∃ s', ends (server 1 (replicate (S FILE_IMAGE_LENGTH) x2a) (λ _, [])) (coroutine_func 1)
    (Db [] None [] [] [] [] 0) (Err Undefined) s'.
Proof.
  apply long_image_overflows.
  - discriminate.
  - rewrite length_replicate. lia.
  - rewrite length_replicate. unfold FILE_IMAGE_LENGTH. lia.
Defined.
