(* ===== verification/Redis.v ===== *)
(** The client of Redis, src/sample/nty_rediscli.c, and what is proved of its calls.

    The functions of hiredis, which is not in the repository, are events: what they answer is
    left to the environment. A command is its format and the arguments behind it. What is only
    printed is left out, but not the pointers that are followed for it. *)

From S2P Require Export CString Client.

(** What the program looks at in a reply: the pointer, the type, and the pointers of the
    elements, with zero for NULL. *)
Record redisReply : Type := Reply { reply_ptr : Z; reply_type : Z; reply_elements : list Z }.
(** What it looks at in a context. *)
Record redisContext : Type := Context { context_ptr : Z; context_err : Z }.

Inductive redisE : Type → Type :=
  | redisConnectUnixWithTimeout (path : list byte) (timeout : Z * Z) : redisE (option redisContext)
  | redisConnectWithTimeout (ip : list byte) (port : Z) (timeout : Z * Z) : redisE (option redisContext)
  | redisCommand (c : Z) (format : list byte) (args : list (list byte)) : redisE (option redisReply)
  | freeReplyObject (reply : Z) : redisE unit
  | redisFree (c : Z) : redisE unit.

Module Redis.
Definition REDIS_REPLY_ARRAY : Z := 2.
Definition hostname : list byte := lit "192.168.233.133".
Definition port : Z := 6379.
Definition timeout : Z * Z := (1, 500000)%Z.
Definition isunix : bool := false.

(** [reply->...] *)
Definition deref {A} (p : option A) : res A := match p with Some r => Ok r | None => Err NullDeref end.
Definition ptr_of (p : option redisReply) : Z := match p with Some r => reply_ptr r | None => 0%Z end.

(** [reply = redisCommand(c, ...); printf(..., reply->...); freeReplyObject(reply);] *)
Definition command_printed (c : Z) (format : list byte) (args : list (list byte)) : prg redisE unit :=
  reply ← call (redisCommand c format args);
  pure (deref reply);;
  call (freeReplyObject (ptr_of reply)).
(** [reply = redisCommand(c, ...); freeReplyObject(reply);] *)
Definition command (c : Z) (format : list byte) (args : list (list byte)) : prg redisE unit :=
  reply ← call (redisCommand c format args);
  call (freeReplyObject (ptr_of reply)).

(** [for (j = 0; j < 10; j++)] with [togo] turns left. *)
Fixpoint push_elements (c : Z) (togo : nat) (j : Z) : prg redisE unit :=
  match togo with
  | O => mret tt
  | S togo => command c (lit "LPUSH mylist element-%s") [decimal j];; push_elements c togo (j + 1)
  end.

(** [reply->element[j]->str] for each element. *)
Fixpoint print_elements (l : list Z) : res unit :=
  match l with [] => Ok tt | p :: l => if decide (p = 0%Z) then Err NullDeref else print_elements l end.

Definition coroutine_func : prg redisE unit :=
  c ← (if isunix then call (redisConnectUnixWithTimeout hostname timeout)
       else call (redisConnectWithTimeout hostname port timeout));
  match c with
  | None => pure (Err ProcExit)
  | Some c =>
      if negb (context_err c =? 0)%Z then call (redisFree (context_ptr c));; pure (Err ProcExit)
      else
        let c := context_ptr c in
        command_printed c (lit "PING") [];;
        command_printed c (lit "SET %s %s") [lit "foo"; lit "hello world"];;
        command_printed c (lit "SET %b %b") [lit "bar"; lit "hello"];;
        command_printed c (lit "GET foo") [];;
        command_printed c (lit "INCR counter") [];;
        command_printed c (lit "INCR counter") [];;
        command c (lit "DEL mylist") [];;
        push_elements c 10 0;;
        reply ← call (redisCommand c (lit "LRANGE mylist 0 -1") []);
        r ← pure (deref reply);
        (if (reply_type r =? REDIS_REPLY_ARRAY)%Z then pure (print_elements (reply_elements r)) else mret tt);;
        call (freeReplyObject (ptr_of reply));;
        call (redisFree c)
  end.

(** ** Properties *)

(** The commands sent, and the replies received and not released. *)
Definition command_step (l : list (list byte * list (list byte))) (c : event redisE) :=
  match c with
  | ACall (redisCommand _ format args) _ => l ++ [(format, args)]
  | _ => l
  end.
Definition commands (tr : list (event redisE)) : list (list byte * list (list byte)) := foldl command_step [] tr.
Definition held_step (l : list Z) (c : event redisE) : list Z :=
  match c with
  | ACall e r =>
      match e in redisE A return A → list Z with
      | redisCommand _ _ _ => λ p, l ++ [ptr_of p]
      | freeReplyObject p => λ _, filter (λ q, q ≠ p) l
      | _ => λ _, l
      end r
  end.
Definition held (tr : list (event redisE)) : list Z := foldl held_step [] tr.
Definition freed_step (b : bool) (c : event redisE) : bool :=
  match c with ACall (redisFree _) _ => true | _ => b end.
Definition freed (tr : list (event redisE)) : bool := foldl freed_step false tr.

(** The commands of the sample, in order. *)
Definition sample_commands : list (list byte * list (list byte)) :=
  [(lit "PING", []); (lit "SET %s %s", [lit "foo"; lit "hello world"]); (lit "SET %b %b", [lit "bar"; lit "hello"]);
   (lit "GET foo", []); (lit "INCR counter", []); (lit "INCR counter", []); (lit "DEL mylist", [])]
  ++ ((λ j, (lit "LPUSH mylist element-%s", [decimal (Z.of_nat j)])) <$> seq 0 10)
  ++ [(lit "LRANGE mylist 0 -1", [])].

(** Every connection and every command is answered. *)
Definition answered (A : Type) (e : redisE A) : A → Prop :=
  match e in redisE A return A → Prop with
  | redisConnectWithTimeout _ _ _ => λ c, ∃ p, c = Some (Context p 0)
  | redisCommand _ _ _ => λ r, ∃ p t l, r = Some (Reply p t l) ∧ Forall (λ q, q ≠ 0%Z) l
  | _ => λ _, True
  end.
(** A reply is released before the next command is sent, and the context is used until it is
    freed, once. *)
Definition in_turn (tr : list (event redisE)) (A : Type) (e : redisE A) : Prop :=
  match e with
  | redisConnectUnixWithTimeout _ _ => False
  | redisConnectWithTimeout _ _ _ => tr = []
  | redisCommand _ _ _ => held tr = [] ∧ freed tr = false
  | freeReplyObject p => held tr = [p]
  | redisFree _ => held tr = [] ∧ freed tr = false
  end.

(** After a command the reply is released and the command noted. *)
Definition idle (l : list (list byte * list (list byte))) (tr : list (event redisE)) : Prop :=
  commands tr = l ∧ held tr = [] ∧ freed tr = false.

Lemma idle_command l tr c format args p :
  idle l tr →
  idle (l ++ [(format, args)]) ((tr ++ [ACall (redisCommand c format args) p]) ++ [ACall (freeReplyObject (ptr_of p)) tt]) ∧
  held (tr ++ [ACall (redisCommand c format args) p]) = [ptr_of p] ∧
  freed (tr ++ [ACall (redisCommand c format args) p]) = false ∧
  commands (tr ++ [ACall (redisCommand c format args) p]) = l ++ [(format, args)].
Proof.
  intros (Hc & Hh & Hf). unfold idle, commands, held, freed in *. rewrite !foldl_app. simpl. rewrite Hc, Hh, Hf. simpl.
  rewrite filter_cons_False by tauto. by rewrite filter_nil.
Qed.

Lemma command_idle c format args l tr : idle l tr →
  every_call in_turn answered (command c format args) tr (λ tr _, idle (l ++ [(format, args)]) tr).
Proof.
  intros Hi. apply ec_bind_call; [by destruct Hi as (_ & ? & ?)|]. intros p _.
  destruct (idle_command l tr c format args p Hi) as (Hi' & Hh & _). apply ec_call; [done|]. by intros [] _.
Qed.
Lemma command_printed_idle c format args l tr : idle l tr →
  every_call in_turn answered (command_printed c format args) tr (λ tr _, idle (l ++ [(format, args)]) tr).
Proof.
  intros Hi. apply ec_bind_call; [by destruct Hi as (_ & ? & ?)|]. intros p (q & t & els & -> & _).
  eapply ec_bind_pure; [done|].
  destruct (idle_command l tr c format args (Some (Reply q t els)) Hi) as (Hi' & Hh & _).
  apply ec_call; [done|]. by intros [] _.
Qed.
Lemma push_idle c togo j l tr : idle l tr →
  every_call in_turn answered (push_elements c togo (Z.of_nat j)) tr
    (λ tr _, idle (l ++ ((λ j, (lit "LPUSH mylist element-%s", [decimal (Z.of_nat j)])) <$> seq j togo)) tr).
Proof.
  revert j l tr; induction togo as [|togo IH]; intros j l tr Hi; cbn [push_elements seq fmap list_fmap].
  - apply ec_ret. by rewrite app_nil_r.
  - eapply ec_bind; [by apply command_idle|]. intros tr' [] Hi'. cbn beta in Hi'. replace (Z.of_nat j + 1)%Z with (Z.of_nat (S j)) by lia.
    eapply ec_conseq; [by apply IH|]. intros tr'' []. by rewrite <- app_assoc.
Qed.

Lemma elements_printed l : Forall (λ q, q ≠ 0%Z) l → print_elements l = Ok tt.
Proof. induction 1 as [|q l Hq _ IH]; [done|]. simpl. by rewrite decide_False. Qed.

(** When the connection stands and every command is answered, the client sends its eighteen
    commands in order, releases every reply before it sends the next, and frees the context as
    its last call. *)
Theorem redis_commands_sent :
  every_call in_turn answered coroutine_func [] (λ tr _,
    commands tr = sample_commands ∧ held tr = [] ∧ freed tr = true).
Proof.
  apply ec_bind_call; [done|]. intros c [p ->]. cbn [app context_err context_ptr negb Z.eqb].
  assert (idle [] [ACall (redisConnectWithTimeout hostname port timeout) (Some (Context p 0))]) as Hi by done.
  cbv zeta. revert Hi. generalize [ACall (redisConnectWithTimeout hostname port timeout) (Some (Context p 0))].
  intros tr Hi.
  do 6 (eapply ec_bind; [by apply command_printed_idle|]; clear tr Hi; intros tr [] Hi; cbn beta in Hi).
  eapply ec_bind; [by apply command_idle|]. clear tr Hi. intros tr [] Hi. cbn beta in Hi.
  eapply ec_bind; [by apply (push_idle p 10 0)|]. clear tr Hi. intros tr [] Hi. cbn beta in Hi.
  apply ec_bind_call; [by destruct Hi as (_ & ? & ?)|]. intros r (q & t & els & -> & Hels).
  destruct (idle_command _ tr p (lit "LRANGE mylist 0 -1") [] (Some (Reply q t els)) Hi) as ((Hc & Hh' & Hf') & Hh & Hf & _).
  eapply ec_bind_pure; [done|]. cbn [reply_type reply_elements].
  eapply (ec_bind _ _ _ _ _ (λ tr' _, tr' = tr ++ [ACall (redisCommand p (lit "LRANGE mylist 0 -1") []) (Some (Reply q t els))])).
  { destruct (t =? REDIS_REPLY_ARRAY)%Z; [|by apply ec_ret]. eapply ec_pure; [by apply elements_printed|done]. }
  intros ? [] ->. apply ec_bind_call; [done|]. intros [] _. apply ec_call; [by split|]. intros [] _.
  unfold commands, held, freed in *. split; [|split].
  - rewrite foldl_snoc, Hc. by vm_compute.
  - by rewrite foldl_snoc, Hh'.
  - by rewrite foldl_snoc.
Qed.

(** A lost connection, for which [redisCommand] gives NULL, ends the program with a null
    dereference. *)
Theorem lost_connection_crashes :
  ends (λ A e, match e in redisE A return unit → A * unit with
    | redisConnectUnixWithTimeout _ _ => λ s, (None, s)
    | redisConnectWithTimeout _ _ _ => λ s, (Some (Context 1 0), s)
    | redisCommand _ _ _ => λ s, (None, s)
    | freeReplyObject _ => λ s, (tt, s)
    | redisFree _ => λ s, (tt, s)
    end) coroutine_func tt (Err NullDeref) tt.
Proof. exists 20. vm_compute. reflexivity. Qed.
End Redis.
