(* ===== verification/Httpd.v ===== *)
(** The multi-process server of src/sample/ntyco_httpd.c: processes that share a segment of
    memory take turns at accepting, by a lock in the segment, and count their connections
    in it.

    Each access to the segment is a call; SharedMemory.v says what the segment does, and
    what the processes do together. What starts the processes
    (fork, affinity, [shmget]) is in Mains.v. *)

From S2P Require Export CString Client.

Module Httpd.
Definition TOTALFDS : nat := 16.
(** The offsets of [totalfds[i]], [cpu_lb[i]] and [accept_mtx] in [shm_area]. *)
Definition totalfds (i : nat) : nat := 4 * i.
Definition cpu_lb (i : nat) : nat := 4 * TOTALFDS + i.
Definition accept_mtx : nat := 4 * TOTALFDS + TOTALFDS.

Definition SERVER_STRING : list byte := lit "Server: ntyco_httpd/0.1.0" ++ [x0d; x0a].
Definition HTML_PAGE : list byte :=
  lit "<!DOCTYPE html> <html> <head> <title>Welcome to nginx!</title> <style>     body {         width: 35em;        margin: 0 auto;        font-family: Tahoma, Verdana, Arial, sans-serif;    }</style></head><body><h1>Welcome to nginx!</h1><p>If you see this page, the nginx web server is successfully installed andworking. Further configuration is required.</p><p>For online documentation and support please refer to<a href=" ++ [x22] ++
  lit "http://nginx.org/" ++ [x22] ++ lit ">nginx.org</a>.<br/>Commercial support is available at<a href=" ++ [x22] ++
  lit "http://nginx.com/" ++ [x22] ++ lit ">nginx.com</a>.</p><p><em>Thank you for using nginx.</em></p></body></html>".

Section httpd.
Context `{OS}.
(** The globals of a process. *)
Variables (self_id cpu_size : Z).
Definition slot : nat := Z.to_nat (Z.rem self_id cpu_size).

(** ** The segment *)

(** The assembly works on registers of 64 bits: the instruction for size 4 compares and
    writes 8 bytes, and the narrower ones leave the upper part of the result as it was. *)
Definition cmpxchg (addr : nat) (_old _new : Z) (size : nat) : cl Z :=
  match size with
  | 1 => v ← call (api_shm (ShmCas addr 1 _old _new)); mret (_old - _old mod 2 ^ 8 + v)%Z
  | 2 => v ← call (api_shm (ShmCas addr 2 _old _new)); mret (_old - _old mod 2 ^ 16 + v)%Z
  | 4 => call (api_shm (ShmCas addr 8 _old _new))
  | _ => pure (Err Undefined)
  end.

Definition atomic_add (value : nat) (add : Z) : cl Z :=
  call (api_shm (ShmAdd value add));; mret add.
Definition atomic_sub (value : nat) (sub : Z) : cl Z :=
  call (api_shm (ShmAdd value (- sub)));; mret sub.

Definition INC_COUNTFD : cl unit := atomic_add (totalfds slot) 1;; mret tt.
Definition DEC_COUNTFD : cl unit := atomic_sub (totalfds slot) 1;; mret tt.

Definition read_count (i : nat) : cl Z :=
  v ← call (api_shm (ShmRead (totalfds i) 4)); mret (i32 v).
Definition get_countfd : cl Z := read_count slot.

(** [for (i = n - togo; i < n; i ++) if (better(totalfds[i], count)) count = totalfds[i];]
    where the value is read again for the assignment. *)
Fixpoint scan_counts (better : Z → Z → bool) (togo i : nat) (count : Z) : cl Z :=
  match togo with
  | O => mret count
  | S togo =>
      v ← read_count i;
      if better v count then v ← read_count i; scan_counts better togo (S i) v
      else scan_counts better togo (S i) count
  end.
Definition max_countfd : cl Z := scan_counts (λ v count, count <? v)%Z (Z.to_nat cpu_size) 0 (-1).
Definition min_countfd : cl Z :=
  scan_counts (λ v count, v <? count)%Z (Z.to_nat cpu_size) 0 (i32 0xffffffff).

Definition compare_out_countfd : cl Z :=
  current ← get_countfd;
  min ← min_countfd;
  mret (if (Z.quot (i32 (current * 7)) 8 >? min)%Z then 1 else 0)%Z.
Definition compare_in_countfd : cl Z :=
  current ← get_countfd;
  max ← max_countfd;
  mret (if (Z.quot (i32 (current * 8)) 7 <? max)%Z then 1 else 0)%Z.

(** The second loop of [lock_accept]. *)
Fixpoint grant_counts (count : Z) (togo i : nat) : cl unit :=
  match togo with
  | O => mret tt
  | S togo =>
      v ← read_count i;
      (if (count =? v)%Z then call (api_shm (ShmWrite (cpu_lb i) 1 3));; mret tt else mret tt);;
      grant_counts count togo (S i)
  end.
Definition lock_accept : cl unit :=
  call (api_shm (ShmWrite (cpu_lb slot) 1 1));;
  count ← min_countfd;                              (* the same loop *)
  grant_counts count (Z.to_nat cpu_size) 0.
(** The byte is read as a signed [char]. *)
Definition read_accept : cl Z :=
  v ← call (api_shm (ShmRead (cpu_lb slot) 1)); mret (if v <? 128 then v else v - 256)%Z.
Definition write_accept (state : Z) : cl unit := call (api_shm (ShmWrite (cpu_lb slot) 1 state));; mret tt.

Definition lock : cl Z := prev ← cmpxchg accept_mtx 0 1 4; mret (i32 prev).
Definition unlock : cl unit := call (api_shm (ShmWrite accept_mtx 4 0));; mret tt.

(** ** Connections *)

(** The buffer [headers] builds. *)
Definition page_buffer : res (list byte) :=
  let buf := replicate 1024 x00 in
  buf ← put_str buf 0 (lit "HTTP/1.0 200 OK" ++ [x0d; x0a]);
  buf ← strcat buf SERVER_STRING;
  buf ← strcat buf (lit "Content-Type: text/html" ++ [x0d; x0a]);
  content ← put_str (replicate 128 x00) 0
    (lit "Content-Length: " ++ decimal (Z.of_nat (length HTML_PAGE)) ++ [x0d; x0a]);
  s ← cstr content;
  buf ← strcat buf s;
  buf ← strcat buf [x0d; x0a];
  strcat buf HTML_PAGE.
Definition headers (client : Z) : cl unit :=
  buf ← pure page_buffer;
  n ← pure (strlen buf);
  call (api_send client (take n buf) 0);;
  mret tt.
Definition serve_file (client : Z) : cl unit := headers client.

(** [numchars] is a [size_t]. *)
Definition accept_request (client : Z) : cl unit :=
  cl_loop (λ _ : unit,
    '(n, _) ← call (api_recv client 1024 0);
    let numchars := u64 n in
    if (0 <? numchars)%Z then serve_file client;; mret (inl tt)
    else if (numchars =? 0)%Z then
      call (api_close client);; DEC_COUNTFD;; mret (inr tt)
    else if (numchars =? 2 ^ 64 - 1)%Z then
      e ← call api_errno;
      if (e =? EAGAIN)%Z then mret (inl tt)
      else call (api_close client);; DEC_COUNTFD;; mret (inr tt)
    else mret (inl tt)) tt.

(** The functions that [nty_coroutine_create] is given. *)
Definition fn_server : Z := 0.
Definition fn_accept_request : Z := 1.

Fixpoint print_countfds_loop (togo i : nat) : cl unit :=
  match togo with O => mret tt | S togo => read_count i;; print_countfds_loop togo (S i) end.
Definition print_countfds : cl unit := print_countfds_loop (Z.to_nat cpu_size) 0.

(** One turn of the loop of [server]. *)
Definition server_turn (fd : Z) : cl (unit + unit) :=
  l ← lock;
  if negb (l =? 0)%Z then call (api_sleep 0);; mret (inl tt)
  else
    '(clientfd, _) ← call (api_accept fd);
    unlock;;
    if (clientfd <? 0)%Z then mret (inr tt)
    else
      INC_COUNTFD;;
      call (api_create fn_accept_request clientfd);;
      print_countfds;;
      mret (inl tt).
Definition server (fd : Z) : cl unit := cl_loop (λ _, server_turn fd) tt.

Definition httpd_code (func arg : Z) : itree apiE unit :=
  if (func =? fn_server)%Z then coroutine (server arg) else coroutine (accept_request arg).

(** ** The socket that the processes inherit from [main] *)

Definition listen_socket (sin_zero : list byte) : cl (option Z) :=
  fd ← call (api_socket 2 1 0);
  if (fd <? 0)%Z then mret None else
  call (api_bind fd (le_bytes 2 2 ++ rev (le_bytes 2 9001) ++ replicate 4 x00 ++ sin_zero));;
  call (api_listen fd 5);;
  mret (Some fd).
End httpd.

(** The segment as [init_shmvalue] leaves it: a page of zeros. *)
Definition init_shmvalue : list byte := replicate 4096 x00.
End Httpd.
