(* ===== verification/SharedMemory.v ===== *)
(** A segment of memory that processes share, and threads of several processes that run in
    any order on it: each step is one call of one thread. *)

From S2P Require Export CString Client.

(** ** The segment *)

(** One operation, on the bytes of the segment, lowest byte first. *)
Definition shm_run (o : shm_op) (seg : list byte) : res (Z * list byte) :=
  match o with
  | ShmCas off size old new =>
      v ← rdn seg off size;
      if (le_val v =? old mod 256 ^ Z.of_nat size)%Z
      then seg ← wrn seg off (le_bytes size new); Ok (le_val v, seg)
      else Ok (le_val v, seg)
  | ShmAdd off d =>
      v ← rdn seg off 4;
      seg ← wrn seg off (le_bytes 4 (le_val v + d));
      Ok (0%Z, seg)
  | ShmRead off size => v ← rdn seg off size; Ok (le_val v, seg)
  | ShmWrite off size z => seg ← wrn seg off (le_bytes size z); Ok (0%Z, seg)
  end.

(** The unsigned integer of [n] bytes at [off]. *)
Definition word_at (off n : nat) (seg : list byte) : Z := le_val (take n (drop off seg)).

Lemma word_at_wrn off src seg seg' : off + length src ≤ length seg →
  wrn seg off src = Ok seg' → word_at off (length src) seg' = le_val src.
Proof.
  intros Hl. rewrite wrn_ok by done. intros [= <-]. unfold word_at.
  rewrite drop_app_length' by (rewrite length_take; lia). by rewrite take_app_length.
Qed.

(** A write does not touch the words before and behind it. *)
Lemma word_at_apart off n o src seg seg' :
  o + length src ≤ length seg → off + n ≤ o ∨ o + length src ≤ off →
  wrn seg o src = Ok seg' → word_at off n seg' = word_at off n seg.
Proof.
  intros Hl Hap. rewrite wrn_ok by done. intros [= <-]. unfold word_at. f_equal.
  destruct Hap as [Hap|Hap].
  - rewrite drop_app_le by (rewrite length_take; lia). rewrite take_app_le by (rewrite length_drop, length_take; lia).
    rewrite !take_drop_commute, take_take. do 2 f_equal. lia.
  - rewrite app_assoc, drop_app_ge by (rewrite length_app, length_take; lia).
    rewrite length_app, length_take, drop_drop. do 2 f_equal. lia.
Qed.

(** ** Threads *)

Section threads.
Context `{OS}.
(** [code self func arg]: the function [func] of the process [self]. *)
Variable code : Z → Z → Z → itree apiE unit.

(** What is left of a thread, the calls it has made, and its process. *)
Record thread : Type := Thread {
  th_prog : itree apiE unit;
  th_calls : list acall;
  th_self : Z;
}.
Record world : Type := World { w_threads : list thread; w_seg : list byte }.

Definition spawn (self func arg : Z) : thread := Thread (code self func arg) [] self.

(** A call that does not concern other threads. *)
Definition private {A} (e : apiE A) : Prop :=
  match e with api_shm _ | api_create _ _ | api_sys (sys_shm _) => False | _ => True end.

Inductive wstep : world → world → Prop :=
  | step_tau ths seg i th t :
      ths !! i = Some th → observe (th_prog th) = TauF t →
      wstep (World ths seg) (World (<[i := Thread t (th_calls th) (th_self th)]> ths) seg)
  | step_shm ths seg i th o k z seg' :
      ths !! i = Some th → observe (th_prog th) = VisF (api_shm o) k → shm_run o seg = Ok (z, seg') →
      wstep (World ths seg)
        (World (<[i := Thread (k z) (th_calls th ++ [ACall (api_shm o) z]) (th_self th)]> ths) seg')
  | step_create ths seg i th func arg k x :
      ths !! i = Some th → observe (th_prog th) = VisF (api_create func arg) k →
      wstep (World ths seg)
        (World (<[i := Thread (k x) (th_calls th ++ [ACall (api_create func arg) x]) (th_self th)]> ths ++
                [spawn (th_self th) func arg]) seg)
  | step_call ths seg i th A (e : apiE A) k x :
      ths !! i = Some th → observe (th_prog th) = VisF e k → private e →
      wstep (World ths seg)
        (World (<[i := Thread (k x) (th_calls th ++ [ACall e x]) (th_self th)]> ths) seg).
End threads.

(** A step of a program that keeps to a protocol. *)
Lemma every_tree_step {Ev} allowed answers {A} (t : itree Ev A) tr Q :
  every_tree allowed answers t tr Q →
  match observe t with
  | RetF _ => True
  | TauF t => every_tree allowed answers t tr Q
  | VisF e k => allowed tr _ e ∧ ∀ x, answers _ e x → every_tree allowed answers (k x) (tr ++ [ACall e x]) Q
  end.
Proof.
  intros Ht. destruct (observe t) as [r|t'|X e k] eqn:E; [done|..].
  - intros n. specialize (Ht (S n)). simpl in Ht. by rewrite E in Ht.
  - split; [|intros x Hx n; specialize (Ht (S n))]; [specialize (Ht 1)|];
      simpl in Ht; rewrite E in Ht; [apply Ht|by apply Ht].
Qed.

(** ** Threads that keep to a protocol *)

Section keeping.
Context `{OS}.
Variable code : Z → Z → Z → itree apiE unit.
(** The calls a thread may make, what it may be answered, what holds when it ends, and the
    processes this is about. *)
Variables (allowed : list acall → ∀ A, apiE A → Prop) (answers : ∀ A, apiE A → A → Prop).
Variables (final : list acall → Prop) (self_ok : Z → Prop).

Definition keeps (th : thread) : Prop :=
  self_ok (th_self th) ∧ every_tree allowed answers (th_prog th) (th_calls th) (λ tr _, final tr).

Hypothesis code_keeps : ∀ self func arg, self_ok self →
  every_tree allowed answers (code self func arg) [] (λ tr _, final tr).

Lemma spawn_keeps self func arg : self_ok self → keeps (spawn code self func arg).
Proof. intros Hs. split; [done|]. by apply code_keeps. Qed.

(** What a call of the process [self] does to the segment, and the threads it starts. *)
Definition performs (self : Z) {A} (e : apiE A) (x : A) (seg seg' : list byte) (new : list thread) : Prop :=
  match e in apiE A return A → Prop with
  | api_shm o => λ x, shm_run o seg = Ok (x, seg') ∧ new = []
  | api_create func arg => λ _, seg' = seg ∧ new = [spawn code self func arg]
  | api_sys (sys_shm _) => λ _, False
  | _ => λ _, seg' = seg ∧ new = []
  end x.

(** A step changes one thread: it goes on by itself, or makes a call, which the protocol
    allows. *)
Lemma keeps_step w w' : Forall keeps (w_threads w) → wstep code w w' →
  ∃ i th th' new seg', w_threads w !! i = Some th ∧ keeps th ∧ th_self th' = th_self th ∧
    w' = World (<[i := th']> (w_threads w) ++ new) seg' ∧
    (keeps th' ∧ th_calls th' = th_calls th ∧ seg' = w_seg w ∧ new = [] ∨
     ∃ A (e : apiE A) x, th_calls th' = th_calls th ++ [ACall e x] ∧ allowed (th_calls th) A e ∧
       (answers A e x → keeps th') ∧ performs (th_self th) e x (w_seg w) seg' new).
Proof.
  intros Hall Hstep. rewrite Forall_lookup in Hall.
  assert (∀ th A (e : apiE A) k x, keeps th → observe (th_prog th) = VisF e k →
    allowed (th_calls th) A e ∧
    (answers A e x → keeps (Thread (k x) (th_calls th ++ [ACall e x]) (th_self th)))) as Hcall.
  { intros th A e k x [Hs Ht] E. apply every_tree_step in Ht. rewrite E in Ht. destruct Ht as [He Hk].
    split; [done|]. intros Hx. split; [done|]. by apply Hk. }
  destruct Hstep as [ths seg i th t Hi Ht|ths seg i th o k z seg' Hi Ht Hrun
    |ths seg i th func arg k x Hi Ht|ths seg i th A e k x Hi Ht Hp];
    cbn [w_threads w_seg] in *; pose proof (Hall i th Hi) as Hth.
  - exists i, th, (Thread t (th_calls th) (th_self th)), [], seg. rewrite app_nil_r.
    do 4 (split; [done|]). left. split; [|done]. destruct Hth as [Hs Htree]. split; [done|].
    apply every_tree_step in Htree. by rewrite Ht in Htree.
  - destruct (Hcall th _ _ k z Hth Ht) as [Hal Hk].
    exists i, th, (Thread (k z) (th_calls th ++ [ACall (api_shm o) z]) (th_self th)), [], seg'. rewrite app_nil_r. do 4 (split; [done|]). right.
    exists Z, (api_shm o), z. by split_and!.
  - destruct (Hcall th _ _ k x Hth Ht) as [Hal Hk].
    exists i, th, (Thread (k x) (th_calls th ++ [ACall (api_create func arg) x]) (th_self th)), [spawn code (th_self th) func arg], seg. do 4 (split; [done|]). right.
    exists _, (api_create func arg), x. by split_and!.
  - destruct (Hcall th _ _ k x Hth Ht) as [Hal Hk].
    exists i, th, (Thread (k x) (th_calls th ++ [ACall e x]) (th_self th)), [], seg. rewrite app_nil_r. do 4 (split; [done|]). right.
    exists A, e, x. split_and!; [done..|]. unfold performs. unfold private in Hp. destruct e; try done. by destruct s.
Qed.
End keeping.

(** ** Sums over all threads *)

Definition total_of {A} (f : A → Z) (l : list A) : Z := foldr (λ x n, f x + n)%Z 0%Z l.

Lemma total_of_app {A} (f : A → Z) l1 l2 : total_of f (l1 ++ l2) = (total_of f l1 + total_of f l2)%Z.
Proof. induction l1 as [|x l1 IH]; simpl; [done|]. rewrite IH. lia. Qed.

Lemma total_of_insert {A} (f : A → Z) l i x y : l !! i = Some x →
  total_of f (<[i:=y]> l) = (total_of f l + (f y - f x))%Z.
Proof.
  revert i; induction l as [|z l IH]; intros [|i] Hi; try done; simpl in *; [simplify_eq; lia|].
  rewrite (IH _ Hi). lia.
Qed.

Lemma total_of_bounds {A} (f : A → Z) l a b : Forall (λ x, a ≤ f x ≤ b)%Z l →
  (a * Z.of_nat (length l) ≤ total_of f l ≤ b * Z.of_nat (length l))%Z.
Proof. induction 1 as [|x l Hx _ IH]; simpl; lia. Qed.

Lemma total_of_zero {A} (f : A → Z) l : Forall (λ x, f x = 0%Z) l → total_of f l = 0%Z.
Proof. induction 1 as [|x l Hx _ IH]; simpl; [done|]. by rewrite Hx, IH. Qed.
