(* ===== verification/LockProtocol.v ===== *)
(** A lock in memory that processes share, taken by a compare-and-exchange that turns 0 into 1
    and given back by writing 0: whatever the threads of the processes do otherwise, if all
    keep to the protocol at most one holds the lock.

    The protocol is a condition on the calls of one thread; that a program keeps to it is
    proved by the rules of Client.v. *)

From S2P Require Export SharedMemory.

Section protocol.
Context `{OS}.
(** The offset of the lock. *)
Variable mtx : nat.

(** What a call does to the ownership of the lock. *)
Definition own_step (b : bool) (c : acall) : bool :=
  match c with
  | ACall e r =>
      match e in apiE A return A → bool with
      | api_shm (ShmCas off _ _ _) => λ r, if decide (off = mtx) then (r =? 0)%Z else b
      | api_shm (ShmWrite off _ _) => λ _, if decide (off = mtx) then false else b
      | _ => λ _, b
      end r
  end.
(** Whether a thread that has made these calls holds the lock: its last attempt found it
    free, and it has not given it back. *)
Definition owns (tr : list acall) : bool := foldl own_step false tr.

(** The eight bytes the compare-and-exchange works on. *)
Definition outside (off size : nat) : Prop :=
  off ≠ mtx ∧ (off + size ≤ mtx ∨ mtx + 8 ≤ off).

(** A thread tries to take the lock when it does not hold it, accepts and gives the lock
    back only when it holds it, and touches it in no other way. *)
Definition lock_protocol (tr : list acall) (A : Type) (e : apiE A) : Prop :=
  match e with
  | api_shm (ShmCas off size old new) =>
      off = mtx ∧ size = 8 ∧ old = 0%Z ∧ new = 1%Z ∧ owns tr = false
  | api_shm (ShmWrite off size v) =>
      (off = mtx ∧ size = 4 ∧ v = 0%Z ∧ owns tr = true) ∨ outside off size
  | api_shm (ShmAdd off _) => outside off 4
  | api_accept _ | api_sys (sys_accept _) => owns tr = true
  | api_sys (sys_shm _) => False
  | _ => True
  end.
(** The lock is found free or taken. *)
Definition lock_answers (A : Type) (e : apiE A) : A → Prop :=
  match e in apiE A return A → Prop with
  | api_shm (ShmCas _ _ _ _) => λ v, v = 0%Z ∨ v = 1%Z
  | _ => λ _, True
  end.

Lemma owns_snoc tr c : owns (tr ++ [c]) = own_step (owns tr) c.
Proof. unfold owns. by rewrite foldl_app. Qed.
(** ** All processes *)

Variable code : Z → Z → Z → itree apiE unit.
(** Every function of every process keeps to the protocol. *)
Hypothesis code_protocol : ∀ self func arg, (0 ≤ self)%Z →
  every_tree lock_protocol lock_answers (code self func arg) [] (λ _ _, True).
Local Abbreviation lock_word seg := (word_at mtx 8 seg).

(** Every thread keeps to the protocol, and the lock says whether one holds it. *)
Local Abbreviation keeps_protocol :=
  (keeps lock_protocol lock_answers (λ _, True) (λ pid, 0 ≤ pid)%Z).
Definition owner (o : option nat) (ths : list thread) : Prop :=
  (∀ j, o = Some j → j < length ths) ∧
  ∀ j th, ths !! j = Some th → owns (th_calls th) = bool_decide (o = Some j).
Definition owner_word (o : option nat) : Z := match o with Some _ => 1 | None => 0 end.
(** The segment has room for the lock, or there is none. *)
Definition mapped (seg : list byte) : Prop := mtx + 8 ≤ length seg ∨ seg = [].
Definition locked (w : world) : Prop :=
  mapped (w_seg w) ∧ Forall keeps_protocol (w_threads w) ∧
  ∃ o, owner o (w_threads w) ∧ lock_word (w_seg w) = owner_word o.

(** The thread [i] takes the lock, gives it back, or leaves it as it is. *)
Definition passes (i : nat) (o o' : option nat) : Prop :=
  o' = o ∨ (o = None ∧ o' = Some i) ∨ (o = Some i ∧ o' = None).

Lemma owner_step i o o' ths th th' new : owner o ths → ths !! i = Some th → passes i o o' →
  owns (th_calls th') = bool_decide (o' = Some i) → Forall (λ t, th_calls t = []) new →
  owner o' (<[i:=th']> ths ++ new).
Proof.
  intros [Hlen Ho] Hi Hp Hown Hnew. pose proof (lookup_lt_Some _ _ _ Hi) as Hlt.
  assert (∀ j, o' = Some j → j < length ths) as Hlen'.
  { intros j E. destruct Hp as [->|[[_ ->]|[_ ->]]]; [by apply Hlen| |done]. congruence. }
  split; [intros j E; rewrite length_app, length_insert; specialize (Hlen' j E); lia|].
  intros j t Hj. apply lookup_app_Some in Hj as [Hj|[Hge Hj]].
  - destruct (decide (i = j)) as [<-|Hne].
    + rewrite list_lookup_insert_eq in Hj by done. by simplify_eq.
    + rewrite list_lookup_insert_ne in Hj by done. rewrite (Ho j t Hj).
      destruct Hp as [->|[[-> ->]|[-> ->]]]; [done|..]; repeat case_bool_decide; congruence.
  - rewrite length_insert in Hge. rewrite (proj1 (Forall_lookup _ _) Hnew _ _ Hj). simpl. symmetry.
    apply bool_decide_eq_false_2. intros E. specialize (Hlen' j E). lia.
Qed.

(** Giving the lock back clears the lower half of the word, whose upper half is zero. *)
Lemma unlock_word seg seg' : mtx + 8 ≤ length seg → lock_word seg = 1%Z →
  wrn seg mtx (le_bytes 4 0) = Ok seg' → lock_word seg' = 0%Z.
Proof.
  intros Hl. unfold word_at. rewrite wrn_ok by (rewrite length_le_bytes; lia). intros H1 E'. rewrite length_le_bytes in E'.
  assert (seg' = take mtx seg ++ le_bytes 4 0 ++ drop (mtx + 4) seg) as -> by congruence.
  assert (drop mtx seg = take 4 (drop mtx seg) ++ drop (mtx + 4) seg) as E
    by (rewrite <- (take_drop 4 (drop mtx seg)) at 1; by rewrite drop_drop).
  assert (∀ lo : list byte, length lo = 4 →
    take 8 (lo ++ drop (mtx + 4) seg) = lo ++ take 4 (drop (mtx + 4) seg)) as Ht.
  { intros lo Hlo. rewrite take_app, Hlo. rewrite take_ge by lia. done. }
  assert (length (take 4 (drop mtx seg)) = 4) as H4 by (rewrite length_take, length_drop; lia).
  rewrite E, Ht, le_val_app, H4 in H1 by done.
  rewrite drop_app_length' by (rewrite length_take; lia). rewrite Ht, le_val_app by done.
  change (le_val (le_bytes 4 0)) with 0%Z. change (Z.of_nat (length (le_bytes 4 0))) with 4%Z.
  pose proof (le_val_nonneg (take 4 (drop mtx seg))).
  pose proof (le_val_nonneg (take 4 (drop (mtx + 4) seg))). simpl Z.of_nat in H1. lia.
Qed.

Lemma shm_word_kept o seg z seg' tr :
  lock_protocol tr Z (api_shm o) → shm_run o seg = Ok (z, seg') →
  match o with ShmCas _ _ _ _ => False | ShmWrite off _ _ => off ≠ mtx | _ => True end →
  length seg' = length seg ∧ lock_word seg' = lock_word seg ∧
  ∀ b, own_step b (ACall (api_shm o) z) = b.
Proof.
  intros Hp Hrun Ho.
  assert (∀ off size src, length src = size → outside off size → wrn seg off src = Ok seg' →
    length seg' = length seg ∧ lock_word seg' = lock_word seg) as Hw.
  { intros off size src <- [_ Hout] E. split; [by eapply length_wrn|].
    assert (off + length src ≤ length seg) by (unfold wrn in E; by case_decide).
    assert (mtx + 8 ≤ off ∨ off + length src ≤ mtx) as Hap by (destruct Hout; auto).
    by apply (word_at_apart mtx 8 off src seg seg'). }
  destruct o as [|off d|off size|off size v]; [done|..]; simpl in Hrun.
  - destruct (rdn seg off 4) as [b|]; [|done]. simpl in Hrun.
    destruct (wrn seg off _) as [s1|] eqn:E; [|done]. simpl in Hrun. simplify_eq.
    destruct (Hw off 4 _ (length_le_bytes 4 (le_val b + d)) Hp E). by split_and!.
  - destruct (rdn seg off size) as [b|]; [|done]. simpl in Hrun. by simplify_eq.
  - destruct (wrn seg off _) as [s1|] eqn:E; [|done]. simpl in Hrun. simplify_eq.
    destruct Hp as [(? & _)|Hout]; [done|].
    destruct (Hw off size _ (length_le_bytes size v) Hout E) as [? ?]. split_and!; [done..|].
    intros b. cbn [own_step]. by rewrite decide_False.
Qed.

(** Without a segment the lock cannot be taken. *)
Lemma cas_mapped seg old new : mapped seg →
  (∃ x seg', shm_run (ShmCas mtx 8 old new) seg = Ok (x, seg')) → mtx + 8 ≤ length seg.
Proof. intros [Hl| ->] (x & seg' & Hrun); [done|]. simpl in Hrun. unfold rdn in Hrun. case_decide; [simpl in *; lia|done]. Qed.
Lemma word_mapped seg : mapped seg → lock_word seg = 1%Z → mtx + 8 ≤ length seg.
Proof. intros [Hl| ->] Hw; [done|]. unfold word_at in Hw. by rewrite drop_nil, take_nil in Hw. Qed.

(** What a call that the protocol allows does to the lock. *)
Lemma call_lock A (e : apiE A) x self seg seg' new tr o i :
  mapped seg → lock_word seg = owner_word o → owns tr = bool_decide (o = Some i) →
  lock_protocol tr A e → performs code self e x seg seg' new →
  lock_answers A e x ∧ length seg' = length seg ∧
  ∃ o', passes i o o' ∧ lock_word seg' = owner_word o' ∧ owns (tr ++ [ACall e x]) = bool_decide (o' = Some i).
Proof.
  intros Hl Hword Hown Hp Hrun. rewrite owns_snoc.
  assert (∀ A (e : apiE A) (x : A), own_step (owns tr) (ACall e x) = owns tr → seg' = seg →
    length seg' = length seg ∧ ∃ o', passes i o o' ∧ lock_word seg' = owner_word o' ∧
      own_step (owns tr) (ACall e x) = bool_decide (o' = Some i)) as Hsame.
  { intros A' e' x' -> ->. split; [done|]. exists o. by split; [left|]. }
  destruct e; simpl in Hp, Hrun; try (destruct Hrun as [-> _]; split; [done|]; by apply Hsame).
  2: { by destruct s; try (destruct Hrun as [-> _]; split; [done|]; apply Hsame). }
  destruct Hrun as [Hrun _].
  assert (match o0 with ShmCas _ _ _ _ => False | ShmWrite off _ _ => off ≠ mtx | _ => True end →
    length seg' = length seg ∧ ∃ o', passes i o o' ∧ lock_word seg' = owner_word o' ∧
      own_step (owns tr) (ACall (api_shm o0) x) = bool_decide (o' = Some i)) as Hkept.
  { intros Ho. destruct (shm_word_kept o0 seg x seg' tr Hp Hrun Ho) as (Hlen & Hw & Hs).
    split; [done|]. exists o. rewrite Hs, Hw. by split; [left|]. }
  destruct o0 as [off size old new'|off d|off size|off size v]; simpl in Hp; [|by split; [|apply Hkept]..|].
  - destruct Hp as (-> & -> & -> & -> & Hno). apply (cas_mapped seg 0 1) in Hl; [|by eexists _, _]. simpl in Hrun. rewrite rdn_ok in Hrun by done.
    cbn [mbind res_bind] in Hrun. change (le_val (take 8 (drop mtx seg))) with (lock_word seg) in Hrun.
    change (0 mod _)%Z with 0%Z in Hrun. rewrite Hword in Hrun. unfold own_step. rewrite decide_True by done.
    destruct o as [j|]; cbn [owner_word Z.eqb] in Hrun.
    + simplify_eq. split; [by right|]. split; [done|]. exists (Some j).
      split; [by left|]. split; [done|]. by rewrite <- Hown, Hno.
    + destruct (wrn seg mtx _) as [s1|] eqn:E in Hrun; [|done]. cbn [mbind res_bind] in Hrun. simplify_eq.
      split; [by left|]. split; [by eapply length_wrn|]. exists (Some i).
      pose proof (word_at_wrn mtx (le_bytes 8 1) seg seg') as Hw. rewrite length_le_bytes in Hw.
      split; [by right; left|]. rewrite Hw by done. by rewrite bool_decide_true.
  - split; [done|]. destruct (decide (off = mtx)) as [->|Hne]; [|by apply Hkept].
    destruct Hp as [(_ & -> & -> & Hyes)|[? _]]; [|done]. simpl in Hrun.
    destruct (wrn seg mtx _) as [s1|] eqn:E in Hrun; [|done]. simpl in Hrun. simplify_eq.
    rewrite Hown in Hyes. apply bool_decide_eq_true in Hyes as ->.
    split; [by eapply length_wrn|]. exists None. split; [by right; right|].
    split; [eapply unlock_word; [by apply word_mapped|exact Hword|exact E]|].
    unfold own_step. by rewrite decide_True.
Qed.

Lemma performs_new self A (e : apiE A) x seg seg' new : performs code self e x seg seg' new →
  new = [] ∨ ∃ func arg, new = [spawn code self func arg].
Proof using Type. destruct e; simpl; try (intros [_ ->]; eauto). by destruct s; try (intros [_ ->]; eauto). Qed.

Lemma mapped_length seg seg' : mapped seg → length seg' = length seg → mapped seg'.
Proof using Type. intros [Hl| ->] Hlen; [left; lia|right; by apply nil_length_inv]. Qed.

Lemma locked_step w w' : locked w → wstep code w w' → locked w'.
Proof.
  intros (Hl & Hall & o & Ho & Hword) Hstep.
  destruct (keeps_step _ _ _ _ _ _ _ Hall Hstep) as (i & th & th' & new & seg' & Hi & Hth & Hs & -> & Hcase).
  assert (∀ o', keeps_protocol th' → length seg' = length (w_seg w) → passes i o o' →
    lock_word seg' = owner_word o' → owns (th_calls th') = bool_decide (o' = Some i) →
    (new = [] ∨ ∃ func arg, new = [spawn code (th_self th) func arg]) →
    locked (World (<[i:=th']> (w_threads w) ++ new) seg')) as Hupd.
  { intros o' Hth' Hlen Hp Hw' Hown Hnew. split; [by apply (mapped_length (w_seg w))|]. split.
    - apply Forall_app. split; [by apply Forall_insert|]. destruct Hnew as [->|(func & arg & ->)]; [done|].
      constructor; [|done]. apply spawn_keeps; [exact code_protocol|apply Hth].
    - exists o'. split; [|done]. eapply owner_step; [done..|].
      destruct Hnew as [->|(func & arg & ->)]; [done|]. by constructor. }
  pose proof (proj2 Ho i th Hi) as Hown.
  destruct Hcase as [(Hth' & Ecalls & -> & ->)|(A & e & x & Ecalls & Hal & Hk & Hperf)].
  - apply (Hupd o); [done|done|by left|done|by rewrite Ecalls|by left].
  - destruct (call_lock A e x _ _ _ _ _ o i Hl Hword Hown Hal Hperf) as (Hx & Hlen & o' & Hp & Hw & Hown').
    apply (Hupd o'); [by apply Hk|done..|by rewrite Ecalls|by eapply performs_new].
Qed.

(** The processes as a main function starts them: each calls [func] with [arg], on the segment
    [seg]. *)
Definition start (func arg : Z) (seg : list byte) (pids : list Z) : world :=
  World ((λ pid, spawn code pid func arg) <$> pids) seg.

Lemma start_locked func arg seg pids : Forall (λ pid, 0 ≤ pid)%Z pids →
  mapped seg → lock_word seg = 0%Z → locked (start func arg seg pids).
Proof.
  intros Hpids Hseg H0. split; [done|]. split.
  - apply Forall_fmap. eapply Forall_impl; [exact Hpids|]. intros pid Hp. by apply spawn_keeps.
  - exists None. split; [|done]. split; [done|].
    intros j th Hj. unfold start in Hj. cbn [w_threads] in Hj. apply list_lookup_fmap_Some in Hj as (pid & -> & _). done.
Qed.

(** One more process that begins to serve. *)
Lemma locked_spawn w self func arg : locked w → (0 ≤ self)%Z →
  locked (World (w_threads w ++ [spawn code self func arg]) (w_seg w)).
Proof.
  intros (Hl & Hall & o & [Hlen Ho] & Hword) Hself. split; [done|]. split.
  - apply Forall_app. split; [done|]. constructor; [|done]. by apply spawn_keeps.
  - exists o. split; [|done]. cbn [w_threads]. split.
    + intros j E. rewrite length_app. specialize (Hlen j E). lia.
    + intros j th Hj. apply lookup_app_Some in Hj as [Hj|[Hge Hj]]; [by apply Ho|].
      apply list_lookup_singleton_Some in Hj as [Hj <-]. symmetry. apply bool_decide_eq_false_2.
      intros E. specialize (Hlen j E). lia.
Qed.

Lemma locked_reachable w w' : locked w → rtc (wstep code) w w' → locked w'.
Proof. intros Hw Hsteps. induction Hsteps as [w|w w1 w2 Hst _ IH]; [done|]. apply IH. by eapply locked_step. Qed.

(** A thread that is in an accepting call. *)
Definition accepting (th : thread) : Prop :=
  (∃ fd k, observe (th_prog th) = VisF (api_accept fd) k) ∨
  (∃ fd k, observe (th_prog th) = VisF (api_sys (sys_accept fd)) k).

Lemma accepting_owns th : keeps_protocol th → accepting th → owns (th_calls th) = true.
Proof.
  intros [_ Ht] [(fd & k & E)|(fd & k & E)]; apply every_tree_step in Ht; rewrite E in Ht; apply Ht.
Qed.

(** In every state that threads reach which keep to the protocol, at most one is in an
    accepting call, and the lock is taken then. *)
Lemma locked_exclusive w i j th1 th2 :
  locked w → w_threads w !! i = Some th1 → w_threads w !! j = Some th2 →
  accepting th1 → accepting th2 → i = j ∧ lock_word (w_seg w) = 1%Z.
Proof using Type.
  intros (_ & Hall & o & [_ Ho] & Hword) Hi Hj H1 H2.
  rewrite Forall_lookup in Hall.
  pose proof (accepting_owns _ (Hall _ _ Hi) H1) as P1. pose proof (accepting_owns _ (Hall _ _ Hj) H2) as P2.
  rewrite (Ho _ _ Hi) in P1. rewrite (Ho _ _ Hj) in P2. apply bool_decide_eq_true in P1, P2.
  split; [congruence|]. by rewrite Hword, P1.
Qed.
Lemma lock_exclusive w w' i j th1 th2 :
  locked w → rtc (wstep code) w w' → w_threads w' !! i = Some th1 → w_threads w' !! j = Some th2 →
  accepting th1 → accepting th2 → i = j ∧ lock_word (w_seg w') = 1%Z.
Proof. intros Hw Hsteps. by apply locked_exclusive, (locked_reachable w). Qed.
End protocol.
