(* ===== verification/HttpdProps.v ===== *)
(** What is proved of the multi-process server: at most one thread of all processes is in
    [nty_accept]; the page and its length; and where connections and counts go wrong. *)

From S2P Require Export Httpd LockProtocol ToyOS.
Import Httpd.

(** ** The protocol of the lock *)

Section protocol.
Context `{OS}.

Lemma page_ok : ∃ page, page_buffer = Ok page ∧ x00 ∈ page.
Proof.
  eexists. split; [vm_compute; reflexivity|]. apply (bool_decide_unpack _). vm_compute. reflexivity.
Qed.

Section process.
Variables self_id cpu_size : Z.
Hypothesis pid : (0 ≤ self_id)%Z.
Hypothesis cpus : (0 < cpu_size ≤ Z.of_nat TOTALFDS)%Z.

Lemma slot_range : slot self_id cpu_size < TOTALFDS.
Proof.
  unfold slot. pose proof (Z.rem_bound_pos self_id cpu_size pid ltac:(lia)). lia.
Qed.

(** Code that leaves the ownership as it is, from any calls on. *)
Local Abbreviation neutral b m := (∀ tr, owns accept_mtx tr = b →
  every_call (lock_protocol accept_mtx) lock_answers m tr (λ tr _, owns accept_mtx tr = b)).

Lemma neutral_add b d : neutral b (call (api_shm (ShmAdd (totalfds (slot self_id cpu_size)) d))).
Proof.
  intros tr Hb. apply ec_call.
  - change (outside accept_mtx (totalfds (slot self_id cpu_size)) 4). pose proof slot_range. unfold outside, totalfds, accept_mtx, TOTALFDS in *. lia.
  - intros x _. by rewrite owns_snoc.
Qed.

Lemma neutral_print b n i : neutral b (print_countfds_loop n i).
Proof.
  revert i; induction n as [|n IH]; intros i tr Hb; [by apply ec_ret|]. simpl.
  eapply (ec_bind _ _ _ _ _ (λ tr _, owns accept_mtx tr = b)); [|intros tr' x Hb'; by apply IH].
  apply ec_bind_call; [done|]. intros v _. apply ec_ret. by rewrite owns_snoc.
Qed.

Lemma neutral_serve client b : neutral b (serve_file client).
Proof.
  intros tr Hb. unfold serve_file, headers. destruct page_ok as (page & E & H0).
  eapply ec_bind_pure; [exact E|]. eapply ec_bind_pure; [by apply strlen_nul|].
  apply ec_bind_call; [done|]. intros r _. apply ec_ret. by rewrite owns_snoc.
Qed.

Lemma accept_request_protocol client : neutral false (accept_request self_id cpu_size client).
Proof.
  intros tr Hb. apply (ec_loop _ _ (λ _ tr, owns accept_mtx tr = false)); [done|]. clear tr Hb. intros [] tr Hb.
  assert (∀ tr, owns accept_mtx tr = false → every_call (lock_protocol accept_mtx) lock_answers
    (call (api_close client);; DEC_COUNTFD self_id cpu_size;; mret (inr tt)) tr
    (λ tr (r : unit + unit), match r with inl _ => owns accept_mtx tr = false | inr _ => owns accept_mtx tr = false end)) as Hend.
  { intros tr' Hb'. apply ec_bind_call; [done|]. intros r _.
    eapply (ec_bind _ _ _ _ _ (λ tr _, owns accept_mtx tr = false)); [|intros tr2 [] Hb2; by apply ec_ret].
    eapply (ec_bind _ _ _ _ _ (λ tr _, owns accept_mtx tr = false)); [|intros tr2 ? Hb2; by apply ec_ret].
    eapply ec_bind; [apply neutral_add; by rewrite owns_snoc|]. intros tr2 ? Hb2. by apply ec_ret. }
  apply ec_bind_call; [done|]. intros [n d] _. cbv zeta.
  destruct (0 <? u64 n)%Z; [|destruct (u64 n =? 0)%Z; [|destruct (u64 n =? 2 ^ 64 - 1)%Z]].
  - eapply ec_bind; [apply (neutral_serve client false); by rewrite owns_snoc|].
    intros tr' [] Hb'. by apply ec_ret.
  - apply Hend. by rewrite owns_snoc.
  - apply ec_bind_call; [done|]. intros e _. destruct (e =? EAGAIN)%Z.
    + apply ec_ret. by rewrite !owns_snoc.
    + apply Hend. by rewrite !owns_snoc.
  - apply ec_ret. by rewrite owns_snoc.
Qed.

Lemma server_protocol fd : neutral false (server self_id cpu_size fd).
Proof.
  intros tr Hb. apply (ec_loop _ _ (λ _ tr, owns accept_mtx tr = false)); [done|]. clear tr Hb. intros [] tr Hb.
  unfold server_turn, lock, cmpxchg.
  eapply (ec_bind _ _ _ _ _ (λ tr l, owns accept_mtx tr = (l =? 0)%Z)).
  { apply ec_bind_call; [by split_and!|]. intros v Hv. apply ec_ret. rewrite owns_snoc. simpl.
    by destruct Hv as [-> | ->]. }
  intros tr1 l Hl. destruct (negb (l =? 0)%Z) eqn:El.
  { apply ec_bind_call; [done|]. intros [] _. apply ec_ret. rewrite owns_snoc. simpl.
    by rewrite Hl, <- negb_true_iff. }
  apply negb_false_iff in El. rewrite El in Hl.
  apply ec_bind_call; [exact Hl|]. intros [clientfd a] _.
  eapply (ec_bind _ _ _ _ _ (λ tr _, owns accept_mtx tr = false)).
  { apply ec_bind_call; [left; split_and!; [done..|]; by rewrite owns_snoc|]. intros v _.
    apply ec_ret. by rewrite owns_snoc. }
  intros tr2 [] Hb2. destruct (clientfd <? 0)%Z; [by apply ec_ret|].
  eapply (ec_bind _ _ _ _ _ (λ tr _, owns accept_mtx tr = false)).
  { eapply (ec_bind _ _ _ _ _ (λ tr _, owns accept_mtx tr = false)); [|intros tr3 ? Hb3; by apply ec_ret].
    eapply ec_bind; [by apply neutral_add|]. intros tr3 ? Hb3. by apply ec_ret. }
  intros tr3 [] Hb3. apply ec_bind_call; [done|]. intros r _.
  eapply ec_bind; [apply (neutral_print false); by rewrite owns_snoc|]. intros tr4 [] Hb4. by apply ec_ret.
Qed.

(** Every thread of the process keeps to the protocol. *)
Lemma code_protocol func arg :
  every_tree (lock_protocol accept_mtx) lock_answers (httpd_code self_id cpu_size func arg) [] (λ _ _, True).
Proof.
  unfold httpd_code. destruct (func =? fn_server)%Z; eapply coroutine_runs.
  - by apply server_protocol.
  - by apply accept_request_protocol.
Qed.
End process.
End protocol.

(** ** All processes *)

(** The processes as [main] starts them, each running [server] on the inherited socket. *)
Definition start `{OS} (cpu_size : Z) (pids : list Z) (fd : Z) : world :=
  LockProtocol.start (λ self, httpd_code self cpu_size) fn_server fd init_shmvalue pids.

(** However the threads of the processes are interleaved, whatever the system answers and
    however many connections there are, at most one thread of all processes is in
    [nty_accept], and that one holds the lock. *)
Theorem accept_exclusive `{OS} cpu_size pids fd w :
  (0 < cpu_size ≤ Z.of_nat TOTALFDS)%Z → Forall (λ pid, 0 ≤ pid)%Z pids →
  rtc (wstep (λ self, httpd_code self cpu_size)) (start cpu_size pids fd) w →
  ∀ i j th1 th2, w_threads w !! i = Some th1 → w_threads w !! j = Some th2 →
    accepting th1 → accepting th2 → i = j ∧ word_at accept_mtx 8 (w_seg w) = 1%Z.
Proof.
  intros Hcpus Hpids Hsteps i j th1 th2.
  assert (∀ self func arg, (0 ≤ self)%Z → every_tree (lock_protocol accept_mtx) lock_answers
    (httpd_code self cpu_size func arg) [] (λ _ _, True)) as Hcode by (intros; by apply code_protocol).
  eapply (lock_exclusive accept_mtx _ Hcode); [|exact Hsteps].
  apply start_locked; [done|done|left; unfold init_shmvalue, accept_mtx, TOTALFDS; rewrite length_replicate; lia|].
  by vm_compute.
Qed.

(** ** The page *)

(** [headers] sends one message: the status, the type, the length of the page in decimal,
    an empty line and the page, all of which fit its buffer. *)
Theorem page_complete :
  (page ← page_buffer; cstr page) = Ok (lit "HTTP/1.0 200 OK" ++ [x0d; x0a] ++ SERVER_STRING ++
    lit "Content-Type: text/html" ++ [x0d; x0a] ++ lit "Content-Length: 593" ++ [x0d; x0a; x0d; x0a] ++ HTML_PAGE) ∧
  length HTML_PAGE = 593.
Proof. split; vm_compute; reflexivity. Qed.

(** ** Counts *)

Section counts.
Context `{OS}.
(** What a reader of the segment sees: the counts of the processes, none negative. *)
Variable counts : nat → Z.
Hypothesis in_range : ∀ i, (0 ≤ counts i < 2 ^ 28)%Z.
Definition counted (A : Type) (e : apiE A) : A → Prop :=
  match e in apiE A return A → Prop with
  | api_shm (ShmRead off 4) => λ v, ∀ i, off = totalfds i → v = counts i
  | _ => λ _, True
  end.
Local Abbreviation finds m r := (∀ tr, every_call (λ _ _ _, True) counted m tr (λ _ v, v = r)).

Lemma read_count_finds i : finds (read_count i) (counts i).
Proof.
  intros tr. apply ec_bind_call; [done|]. intros v Hv. apply ec_ret. rewrite (Hv i eq_refl).
  apply i32_small. pose proof (in_range i). lia.
Qed.

Fixpoint max_of (n i : nat) (count : Z) : Z :=
  match n with O => count | S n => max_of n (S i) (Z.max count (counts i)) end.

(** [max_countfd] finds the largest of the counts, -1 when there are none; but
    [min_countfd] starts at the int 0xffffffff, which is -1, and so returns -1 whatever the
    counts are: the comparison [compare_out_countfd] makes with it always succeeds. *)
Theorem count_scans self_id cpu_size :
  finds (max_countfd cpu_size) (max_of (Z.to_nat cpu_size) 0 (-1)) ∧
  finds (min_countfd cpu_size) (-1)%Z ∧
  finds (compare_out_countfd self_id cpu_size) 1%Z.
Proof.
  assert (∀ n i c, finds (scan_counts (λ v count, count <? v)%Z n i c) (max_of n i c)) as Hmax.
  { induction n as [|n IH]; intros i c tr; [by apply ec_ret|]. cbn [scan_counts max_of].
    eapply ec_bind; [apply read_count_finds|]. intros tr1 v ->. destruct (c <? counts i)%Z eqn:E.
    - eapply ec_bind; [apply read_count_finds|]. intros tr2 v ->. rewrite Z.max_r by lia. apply IH.
    - rewrite Z.max_l by lia. apply IH. }
  assert (∀ n i, finds (scan_counts (λ v count, v <? count)%Z n i (-1)) (-1)%Z) as Hmin.
  { induction n as [|n IH]; intros i tr; [by apply ec_ret|]. cbn [scan_counts].
    eapply ec_bind; [apply read_count_finds|]. intros tr1 v ->. pose proof (in_range i).
    rewrite (proj2 (Z.ltb_ge _ _)) by lia. apply IH. }
  split_and!; [apply Hmax|apply Hmin|]. intros tr. unfold compare_out_countfd, get_countfd.
  eapply ec_bind; [apply read_count_finds|]. intros tr1 v ->.
  eapply ec_bind; [apply Hmin|]. intros tr2 v ->. apply ec_ret.
  pose proof (in_range (slot self_id cpu_size)). rewrite i32_small by lia.
  assert (0 ≤ Z.quot (counts (slot self_id cpu_size) * 7) 8)%Z by (apply Z.quot_pos; lia).
  rewrite (proj2 (Z.gtb_gt _ _)); [done|lia].
Qed.
End counts.

(** The counter of the twenty-first processor lies where the lock is: with more than
    twenty processors, a process that counts a connection there makes the lock look taken
    although nobody holds it, and no process can accept any more. *)
Theorem count_overlaps_lock self_id cpu_size :
  slot self_id cpu_size = 20 →
  totalfds (slot self_id cpu_size) = accept_mtx ∧
  ∃ seg, shm_run (ShmAdd (totalfds (slot self_id cpu_size)) 1) init_shmvalue = Ok (0%Z, seg) ∧
    shm_run (ShmCas accept_mtx 8 0 1) seg = Ok (1%Z, seg).
Proof.
  intros ->. split; [done|]. eexists. split; [vm_compute; reflexivity|]. vm_compute. reflexivity.
Qed.

(** ** Failed receives *)

(** The calls of a connection that is not closed. *)
Definition keeps_open `{OS} (client : Z) (tr : list acall) (A : Type) (e : apiE A) : Prop :=
  match e with
  | api_recv fd _ _ | api_send fd _ _ => fd = client
  | _ => False
  end.
Definition failing `{OS} (A : Type) (e : apiE A) : A → Prop :=
  match e in apiE A return A → Prop with
  | api_recv _ _ _ => λ '(n, _), n = (-1)%Z
  | _ => λ _, True
  end.

(** When receives fail, for whatever reason, [accept_request] takes -1 for a huge number
    of bytes: it sends the page again for every failure, looks at [errno] never, and neither
    closes the connection nor takes it off the count, for ever. *)
Theorem failed_receive_never_closes `{OS} self_id cpu_size client :
  every_call (keeps_open client) failing (accept_request self_id cpu_size client) [] (λ _ _, False).
Proof.
  apply (ec_loop _ _ (λ _ _, True)); [done|]. intros [] tr _. apply ec_bind_call; [done|].
  intros [n d] Hf. change (n = (-1)%Z) in Hf. subst n. change (0 <? u64 (-1))%Z with true. cbv iota zeta.
  unfold serve_file, headers. destruct page_ok as (page & E & Hnul).
  eapply (ec_bind _ _ _ _ _ (λ _ _, True)); [|intros tr' [] _; by apply ec_ret].
  eapply ec_bind_pure; [exact E|]. eapply ec_bind_pure; [by apply strlen_nul|].
  apply ec_bind_call; [done|]. intros r _. by apply ec_ret.
Qed.

(** ** Witnesses *)

(** The next event of a concrete thread. *)
Ltac next_event := lazymatch goal with |- ?l = _ => let r := eval hnf in l in transitivity r; reflexivity end.

(** The first of two processes takes the lock and waits in [nty_accept]. *)
Lemma accept_exclusive_witness :
  ∃ w th, rtc (wstep (λ self, httpd_code self 4)) (start 4 [100; 101]%Z 3) w ∧
    w_threads w !! 0 = Some th ∧ accepting th ∧ (0 = 0 ∧ word_at accept_mtx 8 (w_seg w) = 1%Z).
Proof.
  eassert (wstep (λ self, httpd_code self 4) (start 4 [100; 101]%Z 3) _) as Hstep.
  { eapply (step_shm _ _ _ 0); [reflexivity|next_event|vm_compute; reflexivity]. }
  eexists _, _. split; [exact (rtc_once _ _ Hstep)|]. split; [reflexivity|].
  eassert (accepting _) as Hacc; [|split; [exact Hacc|]].
  { left. eexists 3%Z, _. next_event. }
  eapply (accept_exclusive 4 [100; 101]%Z 3 _ _ _ (rtc_once _ _ Hstep) 0 0);
    [reflexivity|reflexivity|exact Hacc|exact Hacc].
Unshelve. all: [> unfold TOTALFDS; lia | repeat constructor; lia].
Defined.

Lemma count_scans_witness :
  every_call (λ _ _ _, True) (counted (λ i, Z.of_nat (i mod 8))) (min_countfd 4) [] (λ _ v, v = (-1)%Z).
Proof.
  refine (proj1 (proj2 (count_scans (λ i, Z.of_nat (i mod 8)) _ 0 4)) []).
  intros i. pose proof (Nat.mod_upper_bound i 8). lia.
Defined.

Lemma count_overlaps_lock_witness :
  totalfds (slot 20 32) = accept_mtx ∧
  ∃ seg, shm_run (ShmAdd (totalfds (slot 20 32)) 1) init_shmvalue = Ok (0%Z, seg) ∧
    shm_run (ShmCas accept_mtx 8 0 1) seg = Ok (1%Z, seg).
Proof. apply (count_overlaps_lock 20 32). reflexivity. Defined.
