(* ===== verification/ServerMulcore.v ===== *)
(** The multi-process server of src/sample/nty_server_mulcore.c: each process runs a scheduler
    whose coroutines answer every request with the same page, and all count their connections
    in one integer of a shared segment, which they change by compare-and-exchange. *)

From S2P Require Export CString Client Httpd.

Module ServerMulcore.
(** The offsets of the members of [shm_area]; [tv_begin] holds two longs. *)
Definition total : nat := 0.
Definition lock : nat := 4.
Definition tv_begin : nat := 8.
Definition MAX_CLIENT_NUM : Z := 1000000.
Definition SERVER_STRING : list byte := lit "Server: ntyco" ++ [x0d; x0a].

(** ** The page *)

(** [headers(buffer)]: the buffer and its length. *)
Definition headers (buffer : list byte) : res (list byte * nat) :=
  buffer ← strcat buffer (lit "HTTP/1.0 200 OK" ++ [x0d; x0a]);
  buffer ← strcat buffer SERVER_STRING;
  buffer ← strcat buffer (lit "Content-Type: text/html" ++ [x0d; x0a]);
  buffer ← strcat buffer [x0d; x0a];
  len ← strlen buffer;
  Ok (buffer, len).
Definition body (buffer : list byte) : res (list byte * nat) :=
  buffer ← strcat buffer (lit "<html><h1> coroutine --> ntyco<h1></html>");
  len ← strlen buffer;
  Ok (buffer, len).
(** [memset(buf, 0, 1024); hlen = headers(buf); body(buf + hlen);] *)
Definition page : res (list byte) :=
  '(buf, hlen) ← headers (replicate 1024 x00);
  '(rest, _) ← body (drop hlen buf);
  Ok (take hlen buf ++ rest).

Section server.
Context `{OS}.
(** The padding of an address. *)
Variable sin_zero : list byte.

(** ** The segment *)

(** The same text as in ntyco_httpd.c. *)
Definition cmpxchg : nat → Z → Z → nat → cl Z := Httpd.cmpxchg.

Definition read_total : cl Z := v ← call (api_shm (ShmRead total 4)); mret (i32 v).

(** [value] is cast to [unsigned long], the result to [int]. *)
Definition add_shmvalue : cl Z :=
  cl_loop (λ _ : unit,
    value ← read_total;
    next ← pure (c_int (value + 1));
    prev ← cmpxchg total (u64 value) (u64 next) 4;
    if (i32 prev =? value)%Z then mret (inr tt) else mret (inl tt)) tt;;
  read_total.
Definition sub_shmvalue : cl Z :=
  cl_loop (λ _ : unit,
    value ← read_total;
    next ← pure (c_int (value - 1));
    prev ← cmpxchg total (u64 value) (u64 next) 4;
    if (i32 prev =? value)%Z then mret (inr tt) else mret (inl tt)) tt;;
  read_total.

(** What the pointer that [get_shm_timevalue] returns points to. *)
Definition get_shm_timevalue : cl (Z * Z) :=
  sec ← call (api_shm (ShmRead tv_begin 8));
  usec ← call (api_shm (ShmRead (tv_begin + 8) 8));
  mret (sec, usec).
Definition set_shm_timevalue (tv : Z * Z) : cl unit :=
  call (api_shm (ShmWrite tv_begin 8 tv.1));;
  call (api_shm (ShmWrite (tv_begin + 8) 8 tv.2));;
  mret tt.

(** ** Coroutines *)

(** [arg] points to the descriptor, whose value stands for it. What is received is only
    printed. *)
Definition server_reader (fd : Z) : cl unit :=
  cl_loop (λ _ : unit,
    '(ret, _) ← call (api_recv fd 1024 0);
    if (0 <? ret)%Z then
      buf ← pure page;
      len ← pure (strlen buf);
      ret ← call (api_send fd (take len buf) 0);
      if (ret =? -1)%Z then
        call (api_close fd);; sub_shmvalue;; mret (inr tt)
      else mret (inl tt)
    else if (ret =? 0)%Z then
      call (api_close fd);; sub_shmvalue;; mret (inr tt)
    else mret (inl tt)) tt.

(** The functions that [nty_coroutine_create] is given. *)
Definition fn_server : Z := 0.
Definition fn_server_reader : Z := 1.

(** One turn of the loop of [server]. [gettimeofday] writes into the segment. *)
Definition server_turn (fd : Z) : cl (unit + unit) :=
  '(cli_fd, _) ← call (api_accept fd);
  call (api_create fn_server_reader cli_fd);;
  value ← add_shmvalue;
  (if (Z.rem value 1000 =? 999)%Z then
     get_shm_timevalue;;
     now ← call (api_sys sys_gettimeofday);
     set_shm_timevalue now
   else mret tt);;
  mret (inl tt).
Definition server (port : Z) : cl unit :=
  fd ← call (api_socket 2 1 0);
  if (fd <? 0)%Z then mret tt else
  call (api_bind fd (le_bytes 2 2 ++ rev (le_bytes 2 port) ++ replicate 4 x00 ++ sin_zero));;
  call (api_listen fd 20);;
  cl_loop (λ _, server_turn fd) tt.

Definition mulcore_code (func arg : Z) : itree apiE unit :=
  if (func =? fn_server)%Z then coroutine (server arg) else coroutine (server_reader arg).

(** The coroutine that [mulcore_entry] creates. *)
Definition mulcore_entry (begin_port : Z) : Z * Z := (fn_server, u16 (u16 begin_port + 0)).
(** The port of [process_bind]. *)
Definition process_bind : Z * Z := mulcore_entry 9096.
End server.

(** The segment as [init_shmvalue] leaves it when it starts at the time [tv], on a page of
    zeros. *)
Definition init_shmvalue (tv : Z * Z) : list byte :=
  le_bytes 4 0 ++ replicate 4 x00 ++ le_bytes 8 tv.1 ++ le_bytes 8 tv.2 ++ replicate 4072 x00.
End ServerMulcore.
