(* ===== verification/ServerMulcoreProps.v ===== *)
(** What is proved of nty_server_mulcore.c: in every interleaving of the processes the shared
    integer counts the open connections, up to those that are being counted. *)

From S2P Require Export ServerMulcore SharedMemory ToyOS.
Import ServerMulcore.

Section count.
Context `{OS}.

(** ** Connections of a thread *)

(** The connections a thread has opened (by starting a reader) less those it has closed. *)
Definition net_step (n : Z) (c : acall) : Z :=
  match c with
  | ACall e _ => match e with api_create _ _ => n + 1 | api_close _ => n - 1 | _ => n end
  end%Z.
Definition net (tr : list acall) : Z := foldl net_step 0%Z tr.

(** Those of them it has not yet added to or taken off the shared integer; a
    compare-and-exchange that finds what it expects counts them. *)
Definition uncounted_step (n : Z) (c : acall) : Z :=
  match c with
  | ACall e r =>
      match e in apiE A return A → Z with
      | api_create _ _ => λ _, n + 1
      | api_close _ => λ _, n - 1
      | api_shm (ShmCas _ _ old _) => λ r, if (r =? old)%Z then 0 else n
      | _ => λ _, n
      end r
  end%Z.
Definition uncounted (tr : list acall) : Z := foldl uncounted_step 0%Z tr.

Lemma net_snoc tr c : net (tr ++ [c]) = net_step (net tr) c.
Proof. unfold net. by rewrite foldl_app. Qed.
Lemma uncounted_snoc tr c : uncounted (tr ++ [c]) = uncounted_step (uncounted tr) c.
Proof. unfold uncounted. by rewrite foldl_app. Qed.

(** ** The protocol *)

(** Values of the integer that can still be counted up and down. *)
Definition countable (v : Z) : Prop := (- 2 ^ 31 < v < 2 ^ 31 - 1)%Z.

(** A thread changes the integer by what it has not counted, opens and closes a connection only
    when all is counted, and does nothing else in between but read the segment. *)
Definition count_protocol (tr : list acall) (A : Type) (e : apiE A) : Prop :=
  match e with
  | api_shm (ShmCas off size old new) =>
      off = total ∧ size = 8 ∧ ∃ v, countable v ∧ old = u64 v ∧ new = u64 (v + uncounted tr)
  | api_shm (ShmRead _ _) => True
  | api_shm (ShmWrite off _ _) => 8 ≤ off ∧ uncounted tr = 0%Z
  | api_shm (ShmAdd _ _) => False
  | api_create _ _ => (0 ≤ net tr)%Z ∧ uncounted tr = 0%Z
  | api_close _ => net tr = 0%Z ∧ uncounted tr = 0%Z
  | api_sys (sys_shm _) => False
  | _ => uncounted tr = 0%Z
  end.
Definition count_answers (A : Type) (e : apiE A) : A → Prop :=
  match e in apiE A return A → Prop with
  | api_shm (ShmRead off size) => λ x, off = total → size = 4 → countable (i32 x)
  | api_shm (ShmCas _ _ _ _) => λ x, ∃ v, countable v ∧ x = u64 v
  | _ => λ _, True
  end.
Definition all_counted (tr : list acall) : Prop := uncounted tr = 0%Z.

Local Abbreviation counts m tr Q := (every_call count_protocol count_answers m tr Q).

(** The state of a thread: its connections, and those that are not counted. *)
Definition at_ (n u : Z) (tr : list acall) : Prop := net tr = n ∧ uncounted tr = u.

Lemma at_quiet {A} (e : apiE A) x n u tr :
  match e with api_create _ _ | api_close _ | api_shm (ShmCas _ _ _ _) => False | _ => True end →
  at_ n u tr → at_ n u (tr ++ [ACall e x]).
Proof.
  intros He [Hn Hu]. unfold at_. rewrite net_snoc, uncounted_snoc, Hn, Hu. destruct e; try done. by destruct o.
Qed.

Lemma i32_u64 v : (- 2 ^ 31 ≤ v < 2 ^ 31)%Z → i32 (u64 v) = v.
Proof.
  intros Hv. unfold i32, u64. rewrite Zplus_mod.
  rewrite (Z.mod_mod_divide v (2 ^ 64) (2 ^ 32)) by (by exists (2 ^ 32)%Z).
  rewrite <- Zplus_mod, Z.mod_small; lia.
Qed.

Lemma i32_mod z : i32 (z mod 256 ^ Z.of_nat 4) = i32 z.
Proof. unfold i32. change (256 ^ Z.of_nat 4)%Z with (2 ^ 32)%Z. by rewrite Zplus_mod_idemp_l. Qed.

Lemma counts_read n u tr Q : at_ n u tr →
  (∀ tr v, at_ n u tr → countable v → Q tr v) → counts read_total tr Q.
Proof.
  intros Ha HQ. apply ec_bind_call; [done|]. intros v Hv. apply ec_ret, HQ; [|by apply Hv].
  by apply at_quiet.
Qed.

(** The loop of both functions, which adds [d]. *)
Lemma counts_change d n tr Q :
  (d = 1 ∨ d = -1)%Z → at_ n d tr → (∀ tr, at_ n 0 tr → Q tr tt) →
  counts (cl_loop (λ _ : unit,
    value ← read_total;
    next ← pure (c_int (value + d));
    prev ← cmpxchg total (u64 value) (u64 next) 4;
    if (i32 prev =? value)%Z then mret (inr tt) else mret (inl tt)) tt) tr Q.
Proof.
  intros Hd Ha HQ. apply (ec_loop _ _ (λ _ tr, at_ n d tr)); [done|]. clear tr Ha. intros [] tr Ha.
  eapply (ec_bind _ _ _ _ _ (λ tr v, at_ n d tr ∧ countable v)); [by eapply counts_read|].
  clear tr Ha. intros tr v [Ha Hv]. unfold countable in Hv.
  eapply ec_bind_pure; [apply c_int_ok; lia|]. cbn [cmpxchg Httpd.cmpxchg].
  apply ec_bind_call.
  - split; [done|]. split; [done|]. exists v. destruct Ha as [_ ->]. done.
  - intros x (w & Hw & ->). unfold countable in Hw. rewrite i32_u64 by lia. destruct Ha as [Hn Hu].
    assert ((u64 w =? u64 v)%Z = (w =? v)%Z) as E.
    { destruct (Z.eqb_spec w v) as [->|Hne]; [apply Z.eqb_refl|]. apply Z.eqb_neq. intros E.
      apply Hne. rewrite <- (i32_u64 w), <- (i32_u64 v), E by lia. done. }
    destruct (w =? v)%Z; apply ec_ret; [apply HQ|]; split;
      rewrite ?net_snoc, ?uncounted_snoc; simpl; rewrite ?E; done.
Qed.

Lemma counts_add n tr Q : at_ n 1 tr → (∀ tr v, at_ n 0 tr → Q tr v) → counts add_shmvalue tr Q.
Proof.
  intros Ha HQ. eapply (ec_bind _ _ _ _ _ (λ tr _, at_ n 0 tr)); [apply (counts_change 1 n); auto|].
  intros tr' [] Ht. eapply counts_read; [exact Ht|]. auto.
Qed.
Lemma counts_sub n tr Q : at_ n (-1) tr → (∀ tr v, at_ n 0 tr → Q tr v) → counts sub_shmvalue tr Q.
Proof.
  intros Ha HQ. eapply (ec_bind _ _ _ _ _ (λ tr _, at_ n 0 tr)); [apply (counts_change (-1) n); auto|].
  intros tr' [] Ht. eapply counts_read; [exact Ht|]. auto.
Qed.

(** ** The coroutines *)

Lemma counts_plain {A} (e : apiE A) n tr Q :
  match e with api_create _ _ | api_close _ | api_shm _ | api_sys (sys_shm _) => False | _ => True end →
  at_ n 0 tr → (∀ tr x, at_ n 0 tr → Q tr x) → counts (call e) tr Q.
Proof.
  intros He Ha HQ. apply ec_call.
  - destruct Ha as [_ Hu]. destruct e; try done. by destruct s.
  - intros x _. apply HQ, at_quiet; [by destruct e|done].
Qed.

Lemma mulcore_page_ok : ∃ buf len, page = Ok buf ∧ strlen buf = Ok len.
Proof. eexists _, _. split; vm_compute; reflexivity. Qed.

(** A reader closes its connection and takes it off the count. *)
Lemma counts_close {A} (a : A) fd tr Q :
  at_ 0 0 tr → (∀ tr, at_ (-1) 0 tr → Q tr a) → counts (call (api_close fd);; sub_shmvalue;; mret a) tr Q.
Proof.
  intros Ha HQ. apply ec_bind_call; [by destruct Ha|]. intros r _.
  eapply (ec_bind _ _ _ _ _ (λ tr _, at_ (-1) 0 tr)).
  - apply (counts_sub (-1)); [|done]. destruct Ha as [Hn Hu]. split; by rewrite ?net_snoc, ?uncounted_snoc, ?Hn, ?Hu.
  - intros tr' v Ht. by apply ec_ret, HQ.
Qed.

Lemma reader_counts fd tr : at_ 0 0 tr → counts (server_reader fd) tr (λ tr _, all_counted tr).
Proof.
  intros Ha. apply (ec_loop _ _ (λ _ tr, at_ 0 0 tr)); [done|]. clear tr Ha. intros [] tr Ha.
  eapply (ec_bind _ _ _ _ _ (λ tr _, at_ 0 0 tr)); [by eapply counts_plain|]. clear tr Ha. intros tr [ret d] Ha.
  assert (∀ tr, at_ 0 0 tr → counts (call (api_close fd);; sub_shmvalue;; mret (inr tt)) tr
    (λ tr (r : unit + unit), match r with inl _ => at_ 0 0 tr | inr _ => all_counted tr end)) as Hend.
  { intros tr' Ht. apply counts_close; [done|]. by intros tr2 [_ H2]. }
  destruct (0 <? ret)%Z; [|destruct (ret =? 0)%Z; [by apply Hend|by apply ec_ret]].
  destruct mulcore_page_ok as (buf & len & Ep & El). eapply ec_bind_pure; [exact Ep|]. eapply ec_bind_pure; [exact El|].
  eapply (ec_bind _ _ _ _ _ (λ tr _, at_ 0 0 tr)); [by eapply counts_plain|]. clear tr Ha. intros tr r Ha.
  destruct (r =? -1)%Z; [by apply Hend|by apply ec_ret].
Qed.

Lemma turn_counts fd tr n : (0 ≤ n)%Z → at_ n 0 tr →
  counts (server_turn fd) tr
    (λ tr r, match r with inl _ => ∃ n, (0 ≤ n)%Z ∧ at_ n 0 tr | inr _ => all_counted tr end).
Proof.
  intros Hn Ha. unfold server_turn.
  eapply (ec_bind _ _ _ _ _ (λ tr _, at_ n 0 tr)); [by eapply counts_plain|]. clear tr Ha. intros tr [cli a] Ha.
  apply ec_bind_call; [destruct Ha as [En Eu]; split; [by rewrite En|done]|]. intros r _.
  eapply (ec_bind _ _ _ _ _ (λ tr _, at_ (n + 1) 0 tr)).
  { apply (counts_add (n + 1)); [|done]. destruct Ha as [En Eu].
    split; by rewrite ?net_snoc, ?uncounted_snoc, ?En, ?Eu. }
  clear tr Ha. intros tr value Ha.
  assert (∀ tr, at_ (n + 1) 0 tr → counts (mret (inl tt)) tr (λ tr (r : unit + unit),
    match r with inl _ => ∃ n, (0 ≤ n)%Z ∧ at_ n 0 tr | inr _ => all_counted tr end)) as Hret.
  { intros tr' Ht. apply ec_ret. exists (n + 1)%Z. split; [lia|done]. }
  eapply (ec_bind _ _ _ _ _ (λ tr _, at_ (n + 1) 0 tr)); [|by auto].
  destruct (_ =? 999)%Z; [|by apply ec_ret]. unfold get_shm_timevalue, set_shm_timevalue.
  apply (ec_bind _ _ _ _ _ (λ tr _, at_ (n + 1) 0 tr)).
  { apply ec_bind_call; [done|]. intros s _. apply ec_bind_call; [done|]. intros u _.
    apply ec_ret. by do 2 (apply at_quiet; [done|]). }
  clear tr Ha. intros tr _ Ha.
  eapply (ec_bind _ _ _ _ _ (λ tr _, at_ (n + 1) 0 tr)); [by eapply counts_plain|]. clear tr Ha. intros tr now Ha.
  apply ec_bind_call; [split; [unfold tv_begin; lia|by destruct Ha]|]. intros x _.
  pose proof (at_quiet (api_shm (ShmWrite tv_begin 8 now.1)) x _ _ _ I Ha) as Ha'. clear Ha.
  apply ec_bind_call; [split; [unfold tv_begin; lia|by destruct Ha']|]. intros y _. apply ec_ret. by apply at_quiet.
Qed.

Lemma server_counts pad port tr : at_ 0 0 tr → counts (server pad port) tr (λ tr _, all_counted tr).
Proof.
  intros Ha. unfold server.
  eapply (ec_bind _ _ _ _ _ (λ tr _, at_ 0 0 tr)); [by eapply counts_plain|]. clear tr Ha. intros tr fd Ha.
  destruct (fd <? 0)%Z; [apply ec_ret; by destruct Ha|].
  do 2 (eapply (ec_bind _ _ _ _ _ (λ tr _, at_ 0 0 tr)); [by eapply counts_plain|]; clear tr Ha; intros tr ? Ha).
  apply (ec_loop _ _ (λ _ tr, ∃ n, (0 ≤ n)%Z ∧ at_ n 0 tr)); [by exists 0%Z|].
  clear tr Ha. intros [] tr (n & Hn & Ha). by eapply turn_counts.
Qed.

Lemma code_counts pad func arg :
  every_tree count_protocol count_answers (mulcore_code pad func arg) [] (λ tr _, all_counted tr).
Proof.
  unfold mulcore_code. destruct (func =? fn_server)%Z.
  - eapply coroutine_runs_post; [by apply server_counts|done].
  - eapply coroutine_runs_post; [by apply reader_counts|done].
Qed.
End count.

(** ** All processes *)

Lemma word_low off a b seg : off + a + b ≤ length seg →
  word_at off a seg = (word_at off (a + b) seg mod 256 ^ Z.of_nat a)%Z.
Proof.
  intros Hl. unfold word_at. rewrite <- (take_drop a (drop off seg)) at 2.
  assert (length (take a (drop off seg)) = a) as Ha by (rewrite length_take, length_drop; lia).
  rewrite take_app_ge, Ha, le_val_app, Ha by lia. rewrite (Z.mul_comm (256 ^ _)), Z_mod_plus_full.
  symmetry. apply Z.mod_small. pose proof (le_val_bound (take a (drop off seg))) as Hb. by rewrite Ha in Hb.
Qed.

Section world.
Context `{OS}.
Variable sin_zero : list byte.
Local Abbreviation code := (λ _ : Z, mulcore_code sin_zero).
Local Abbreviation count_word seg := (word_at total 8 seg).
Local Abbreviation keeps_count := (keeps count_protocol count_answers all_counted (λ _, True)).

(** The connections that all threads have open, and what the integer should be. *)
Definition connections (ths : list thread) : Z := total_of (λ th, net (th_calls th)) ths.
Definition counted_of (th : thread) : Z := net (th_calls th) - uncounted (th_calls th).

Definition sound (tr : list acall) : Prop := (-1 ≤ net tr ∧ -1 ≤ uncounted tr ≤ 1)%Z.
(** The segment has room for the integer, or there is none. *)
Definition mapped (seg : list byte) : Prop := total + 8 ≤ length seg ∨ seg = [].
Definition counted (w : world) : Prop :=
  mapped (w_seg w) ∧ Forall keeps_count (w_threads w) ∧
  Forall (λ th, sound (th_calls th)) (w_threads w) ∧
  (connections (w_threads w) ≤ Z.of_nat (length (w_threads w)))%Z ∧
  count_word (w_seg w) = u64 (total_of counted_of (w_threads w)).

(** Few enough threads for an [int]. *)
Definition few (w : world) : Prop := (2 * Z.of_nat (length (w_threads w)) < 2 ^ 31 - 1)%Z.

Lemma counted_of_total ths :
  total_of counted_of ths = (connections ths - total_of (λ th, uncounted (th_calls th)) ths)%Z.
Proof. unfold connections. induction ths as [|th ths IH]; simpl; [done|]. rewrite IH. unfold counted_of. lia. Qed.

Lemma counted_countable w : counted w → few w → countable (total_of counted_of (w_threads w)).
Proof.
  intros (_ & _ & Hs & Hn & _) Hf. unfold few, countable in *. rewrite counted_of_total.
  pose proof (total_of_bounds (λ th, uncounted (th_calls th)) (w_threads w) (-1) 1) as Hu.
  assert (Forall (λ th, -1 ≤ uncounted (th_calls th) ≤ 1)%Z (w_threads w)) as Hu'
    by (eapply Forall_impl; [exact Hs|]; intros th Hth; apply Hth).
  specialize (Hu Hu'). assert (- Z.of_nat (length (w_threads w)) ≤ connections (w_threads w))%Z; [|lia].
  unfold connections. clear -Hs. induction Hs as [|th ths [Hth _] _ IH]; simpl; [done|]. simpl in IH. lia.
Qed.

(** An operation on the segment by a thread that has not counted [u] connections. *)
Lemma shm_counted o x seg seg' u V :
  mapped seg → count_word seg = u64 V → countable V →
  match o with
  | ShmCas off size old new => off = total ∧ size = 8 ∧ ∃ v, countable v ∧ old = u64 v ∧ new = u64 (v + u)
  | ShmRead _ _ => True
  | ShmWrite off _ _ => 8 ≤ off
  | ShmAdd _ _ => False
  end →
  shm_run o seg = Ok (x, seg') →
  let u' := match o with ShmCas _ _ old _ => if (x =? old)%Z then 0%Z else u | _ => u end in
  count_answers Z (api_shm o) x ∧ length seg' = length seg ∧ (u' = 0%Z ∨ u' = u) ∧
  count_word seg' = u64 (V + (u - u')).
Proof.
  intros Hl Hw HV Hp Hrun. destruct o as [off size old new|off d|off size|off size v]; cbn zeta.
  - destruct Hp as (-> & -> & v & Hv & -> & ->). simpl in Hrun.
    destruct Hl as [Hl| ->]; [|done]. rewrite rdn_ok in Hrun by done.
    cbn [mbind res_bind] in Hrun. change (le_val (take 8 (drop total seg))) with (count_word seg) in Hrun.
    rewrite Hw in Hrun. change (256 ^ Z.of_nat 8)%Z with (2 ^ 64)%Z in Hrun.
    assert (∀ z, u64 z mod 2 ^ 64 = u64 z)%Z as Hmod by (intros; by apply Z.mod_mod).
    rewrite Hmod in Hrun. destruct (u64 V =? u64 v)%Z eqn:E.
    + destruct (wrn seg total _) as [s1|] eqn:Es in Hrun; [|done]. cbn [mbind res_bind] in Hrun. simplify_eq.
      rewrite E. split; [by exists V|]. split; [by eapply length_wrn|]. split; [by left|].
      pose proof (word_at_wrn total (le_bytes 8 (u64 (v + u))) seg seg') as Hwr. rewrite length_le_bytes in Hwr.
      rewrite Hwr, le_val_bytes by done. change (256 ^ Z.of_nat 8)%Z with (2 ^ 64)%Z. rewrite Hmod, Z.sub_0_r.
      apply Z.eqb_eq in E. unfold u64 in E |- *. rewrite Zplus_mod, <- E, <- Zplus_mod. done.
    + simplify_eq. rewrite E. split; [by exists V|]. split; [done|]. split; [by right|].
      by rewrite Z.sub_diag, Z.add_0_r.
  - done.
  - simpl in Hrun. destruct (rdn seg off size) as [b|] eqn:Er; [|done]. cbn [mbind res_bind] in Hrun. simplify_eq.
    rewrite Z.sub_diag, Z.add_0_r. split_and!; [|done|by right|done]. intros -> ->.
    destruct Hl as [Hl| ->]; [|done]. rewrite rdn_ok in Er by lia. simplify_eq.
    change (le_val (take 4 (drop total seg'))) with (word_at total 4 seg'). rewrite (word_low total 4 4) by lia.
    change (4 + 4) with 8. rewrite Hw.
    rewrite i32_mod, i32_u64; [done|]. unfold countable in HV. lia.
  - simpl in Hrun. destruct (wrn seg off _) as [s1|] eqn:Es in Hrun; [|done]. cbn [mbind res_bind] in Hrun. simplify_eq.
    rewrite Z.sub_diag, Z.add_0_r. split_and!; [done|by eapply length_wrn|by right|]. rewrite <- Hw.
    eapply (word_at_apart total 8); [|left; exact Hp|exact Es]. unfold wrn in Es. by case_decide.
Qed.

(** What one call does to the integer and to the connections of its thread. *)
Lemma call_counted A (e : apiE A) x self seg seg' new tr V :
  mapped seg → count_word seg = u64 V → countable V → sound tr →
  count_protocol tr A e → performs code self e x seg seg' new →
  count_answers A e x ∧ length seg' = length seg ∧ sound (tr ++ [ACall e x]) ∧
  (net (tr ++ [ACall e x]) ≤ net tr + Z.of_nat (length new))%Z ∧
  count_word seg' =
    u64 (V + (net (tr ++ [ACall e x]) - uncounted (tr ++ [ACall e x]) - (net tr - uncounted tr))).
Proof.
  intros Hl Hw HV Hs Hp Hrun. unfold sound. rewrite net_snoc, uncounted_snoc. destruct Hs as [Hn Hu].
  assert (seg' = seg → new = [] → count_word seg' = u64 (V + (net tr - uncounted tr - (net tr - uncounted tr)))
    ∧ length seg' = length seg ∧ (net tr ≤ net tr + Z.of_nat (length new))%Z) as Hsame.
  { intros -> ->. rewrite Hw, Z.sub_diag, Z.add_0_r. split_and!; [done..|simpl; lia]. }
  destruct e; simpl in Hp, Hrun |- *; try (destruct Hrun; destruct Hsame as (? & ? & ?); [done..|]; split_and!; done || lia).
  - destruct Hrun as [-> _]. destruct Hp as [Hp1 Hp2]. split_and!; try lia; [done..|]. rewrite Hw. f_equal. lia.
  - destruct Hrun as [-> ->]. destruct Hp as [Hp1 Hp2]. split_and!; try lia; [done..|].
    rewrite Hw. f_equal. lia.
  - destruct Hrun as [Hrun ->].
    destruct (shm_counted o x seg seg' (uncounted tr) V Hl Hw HV) as (Ha & Hlen & Hu' & Hw'); [|done|].
    { destruct o; naive_solver. }
    split; [done|]. split; [done|]. split; [split; [done|]; destruct o; cbv beta; lia|]. split; [simpl; lia|].
    rewrite Hw'. destruct o; cbv beta; f_equal; lia.
  - destruct Hsame as (? & ? & ?); [by destruct s; destruct Hrun..|]. split_and!; done || lia.
Qed.

(** New threads have opened nothing. *)
Lemma performs_fresh self A (e : apiE A) x seg seg' new : performs code self e x seg seg' new →
  Forall (λ th, keeps_count th ∧ th_calls th = []) new.
Proof.
  intros Hp. assert (new = [] ∨ ∃ func arg, new = [spawn code self func arg]) as [->|(func & arg & ->)].
  { destruct e; simpl in Hp; try (destruct Hp; by eauto). by destruct s; try (destruct Hp; by eauto). }
  { done. }
  repeat constructor. apply code_counts.
Qed.

Lemma counter_mapped_length seg seg' : mapped seg → length seg' = length seg → mapped seg'.
Proof using Type. intros [Hl| ->] Hlen; [left; lia|right; by apply nil_length_inv]. Qed.

Lemma counted_step w w' : counted w → few w → wstep code w w' → counted w'.
Proof.
  intros Hc Hf Hstep. pose proof (counted_countable w Hc Hf) as HV.
  destruct Hc as (Hl & Hall & Hs & Hn & Hw).
  destruct (keeps_step _ _ _ _ _ _ _ Hall Hstep) as (i & th & th' & new & seg' & Hi & Hth & _ & -> & Hcase).
  pose proof (proj1 (Forall_lookup _ _) Hs _ _ Hi) as Hsi. simpl in Hsi.
  destruct Hcase as [(Hth' & Ecalls & -> & ->)|(A & e & x & Ecalls & Hal & Hk & Hperf)].
  - rewrite app_nil_r. split; [done|]. cbn [w_threads w_seg]. unfold connections, counted_of in *.
    rewrite !(total_of_insert _ _ _ _ _ Hi), length_insert, Ecalls, !Z.sub_diag, !Z.add_0_r.
    split_and!; [by apply Forall_insert|apply Forall_insert; by rewrite ?Ecalls|done..].
  - destruct (call_counted A e x _ _ _ _ _ _ Hl Hw HV Hsi Hal Hperf) as (Ha & Hlen & Hs' & Hn' & Hw').
    pose proof (performs_fresh _ _ _ _ _ _ _ Hperf) as Hnew.
    assert (Forall (λ th, th_calls th = []) new) as Hnil by (eapply Forall_impl; [exact Hnew|]; intros t Ht; apply Ht).
    assert (∀ f, f [] = 0%Z → total_of (λ th, f (th_calls th)) new = 0%Z) as Hzero.
    { intros f Hf0. apply total_of_zero. eapply Forall_impl; [exact Hnil|]. by intros t ->. }
    split; [by apply (counter_mapped_length (w_seg w))|]. cbn [w_threads w_seg]. rewrite <- Ecalls in *.
    unfold connections in *. rewrite !total_of_app, !(total_of_insert _ _ _ _ _ Hi), length_app, length_insert.
    rewrite (Hzero net), (Hzero (λ tr, net tr - uncounted tr)%Z eq_refl : total_of counted_of new = 0%Z), !Z.add_0_r by done.
    split_and!; [| |lia|done].
    + apply Forall_app. split; [apply Forall_insert; auto|]. eapply Forall_impl; [exact Hnew|]. intros t Ht; apply Ht.
    + apply Forall_app. split; [apply Forall_insert; auto|]. eapply Forall_impl; [exact Hnil|].
      intros t ->. unfold sound, net, uncounted. simpl. lia.
Qed.

Lemma few_step w w' : wstep code w w' → few w' → few w.
Proof.
  unfold few. intros Hstep. destruct Hstep; cbn [w_threads]; rewrite ?length_app, ?length_insert; lia.
Qed.

(** The processes as [main] starts them at the time [tv]: each has one [server]. *)
Definition start (pids : list Z) (port : Z) (tv : Z * Z) : world :=
  World ((λ pid, spawn code pid fn_server port) <$> pids) (init_shmvalue tv).

Lemma start_counted pids port tv : counted (start pids port tv).
Proof.
  assert (∀ f, f [] = 0%Z → total_of (λ th, f (th_calls th)) (w_threads (start pids port tv)) = 0%Z) as Hzero.
  { intros f Hf. apply total_of_zero, Forall_fmap. apply Forall_true. intros pid. exact Hf. }
  split; [|split_and!].
  - left. unfold start, init_shmvalue, total. cbn [w_seg]. rewrite !length_app, !length_le_bytes, !length_replicate. lia.
  - apply Forall_fmap, Forall_true. intros pid. split; [done|]. apply code_counts.
  - apply Forall_fmap, Forall_true. intros pid. unfold sound, net, uncounted. simpl. lia.
  - unfold connections. rewrite (Hzero net) by done. lia.
  - rewrite (Hzero (λ tr, net tr - uncounted tr)%Z eq_refl : total_of counted_of _ = 0%Z). unfold start. by destruct tv.
Qed.

Lemma counted_reachable w w' : counted w → rtc (wstep code) w w' → few w' → counted w'.
Proof.
  intros Hc Hsteps. revert w' Hsteps. apply (rtc_ind_r (λ w', few w' → counted w')); [done|].
  intros w1 w2 _ Hstep IH Hf. pose proof (few_step _ _ Hstep Hf). apply (counted_step w1); auto.
Qed.

(** A thread that has ended or is in a call that does not concern the segment. *)
Definition resting (th : thread) : Prop :=
  match observe (th_prog th) with
  | RetF _ => True
  | VisF (api_shm _) _ => False
  | VisF _ _ => True
  | TauF _ => False
  end.

Lemma resting_counted th : keeps_count th → resting th → uncounted (th_calls th) = 0%Z.
Proof.
  intros [_ Ht] Hr. unfold resting in Hr. pose proof (every_tree_step _ _ _ _ _ Ht) as Hs.
  destruct (observe (th_prog th)) as [r|t|X e k] eqn:E; [|done|].
  - specialize (Ht 1). simpl in Ht. by rewrite E in Ht.
  - destruct Hs as [Hp _]. destruct e; simpl in Hp; try done; try (by destruct Hp). by destruct s.
Qed.

(** What the integer says in a state where all is counted as it should be. *)
Definition counts_connections (w : world) : Prop :=
  i32 (word_at total 4 (w_seg w)) =
    (connections (w_threads w) - total_of (λ th, uncounted (th_calls th)) (w_threads w))%Z ∧
  Forall (λ th, -1 ≤ uncounted (th_calls th) ≤ 1)%Z (w_threads w) ∧
  (Forall resting (w_threads w) → i32 (word_at total 4 (w_seg w)) = connections (w_threads w)).

Lemma counted_connections w : counted w → few w → counts_connections w.
Proof.
  intros Hc Hf. pose proof (counted_countable w Hc Hf) as HV. destruct Hc as (Hl & Hall & Hs & _ & Hw).
  assert (i32 (word_at total 4 (w_seg w)) = total_of counted_of (w_threads w)) as Ei.
  { destruct Hl as [Hl|Hl].
    - rewrite (word_low total 4 4) by done. change (4 + 4) with 8. rewrite Hw. unfold countable in HV.
      rewrite i32_mod. apply i32_u64. lia.
    - rewrite Hl in Hw |- *. change (word_at total 8 []) with 0%Z in Hw. unfold countable in HV.
      rewrite <- (i32_u64 (total_of counted_of (w_threads w))) by lia. by rewrite <- Hw. }
  unfold counts_connections. rewrite Ei, counted_of_total. split; [done|]. split.
  - eapply Forall_impl; [exact Hs|]. intros th Hth. apply Hth.
  - intros Hr. rewrite (total_of_zero (λ th, uncounted (th_calls th))); [lia|].
    rewrite Forall_lookup in Hall, Hr |- *. intros j th Hj. eapply resting_counted; eauto.
Qed.

(** One more process that begins to serve. *)
Lemma counted_spawn w self func arg : counted w →
  counted (World (w_threads w ++ [spawn code self func arg]) (w_seg w)).
Proof.
  intros (Hl & Hall & Hs & Hn & Hw). split; [done|]. cbn [w_threads w_seg]. unfold connections in *.
  rewrite !total_of_app, length_app. cbn [total_of foldr spawn th_calls length].
  change (counted_of (spawn code self func arg)) with 0%Z. change (net []) with 0%Z.
  rewrite !Z.add_0_r. split_and!; [..|lia|done].
  - apply Forall_app. split; [done|]. repeat constructor. apply code_counts.
  - apply Forall_app. split; [done|]. constructor; [|done]. unfold sound, net, uncounted. simpl. lia.
Qed.

(** However the coroutines of all processes are interleaved and whatever the system answers,
    the shared integer is the number of open connections less those a coroutine has opened or
    closed and not counted yet, at most one each; when no coroutine is changing the integer it
    is exactly the number of open connections, as long as these fit an [int]. *)
Theorem total_counts_connections pids port tv w :
  rtc (wstep code) (start pids port tv) w → few w → counts_connections w.
Proof.
  intros Hsteps Hf. apply counted_connections; [|done].
  by apply (counted_reachable _ _ (start_counted pids port tv) Hsteps).
Qed.
End world.

(** ** One connection *)

(** The peer of Client.v, with a segment nobody else uses. *)
Section serve.
Context `{OS}.
Definition chunks_seg (A : Type) (e : apiE A) : conn * list byte → A * (conn * list byte) :=
  match e in apiE A return conn * list byte → A * (conn * list byte) with
  | api_shm o => λ '(s, seg), match shm_run o seg with Ok (z, seg') => (z, (s, seg')) | Err _ => (0%Z, (s, seg)) end
  | e => λ '(s, seg), let '(a, s') := chunks _ e s in (a, (s', seg))
  end.

(** A segment whose integer is [v]. *)
Definition counts_to (v : Z) (seg : list byte) : Prop :=
  total + 8 ≤ length seg ∧ word_at total 8 seg = u64 v.

Lemma yields_read v s seg : counts_to v seg → countable v →
  yields chunks_seg read_total (s, seg) v (s, seg).
Proof.
  intros [Hl Hw] Hv. unfold countable in Hv. eapply yields_bind.
  { apply yields_call. cbn [chunks_seg shm_run]. rewrite rdn_ok by (unfold total in *; lia). reflexivity. }
  change (le_val (take 4 (drop total seg))) with (word_at total 4 seg). rewrite (word_low total 4 4) by done.
  change (4 + 4) with 8. rewrite Hw, i32_mod, i32_u64 by lia. apply yields_ret.
Qed.

(** Nobody interferes: the first attempt succeeds. *)
Lemma yields_change d v s seg : (d = 1 ∨ d = -1)%Z → counts_to v seg → countable v →
  ∃ seg', counts_to (v + d) seg' ∧
  yields chunks_seg (cl_loop (λ _ : unit,
    value ← read_total;
    next ← pure (c_int (value + d));
    prev ← cmpxchg total (u64 value) (u64 next) 4;
    if (i32 prev =? value)%Z then mret (inr tt) else mret (inl tt)) tt) (s, seg) tt (s, seg').
Proof.
  intros Hd Hc Hv. pose proof Hc as [Hl Hw]. unfold countable in Hv.
  destruct (wrn_at seg total (le_bytes 8 (u64 (v + d)))) as (seg' & E & Hlen & _); [by rewrite length_le_bytes|].
  exists seg'. split.
  - split; [lia|]. pose proof (word_at_wrn total (le_bytes 8 (u64 (v + d))) seg seg') as Hwr.
    rewrite length_le_bytes, le_val_bytes in Hwr. rewrite Hwr by done. by apply Z.mod_mod.
  - eapply (yields_loop _ _ _ _ (inr tt)); [|by split].
    eapply yields_bind; [by apply (yields_read v)|]. eapply yields_bind; [apply yields_pure, c_int_ok; lia|].
    eapply yields_bind.
    { apply yields_call. cbn [chunks_seg shm_run]. rewrite rdn_ok by done. cbn [mbind res_bind].
      change (le_val (take 8 (drop total seg))) with (word_at total 8 seg). rewrite Hw.
      rewrite (proj2 (Z.eqb_eq (u64 v) _)) by (symmetry; by apply Z.mod_mod).
      rewrite E. cbn [mbind res_bind]. reflexivity. }
    rewrite i32_u64, Z.eqb_refl by lia. apply yields_ret.
Qed.

Definition page_text : list byte :=
  lit "HTTP/1.0 200 OK" ++ [x0d; x0a] ++ lit "Server: ntyco" ++ [x0d; x0a] ++
  lit "Content-Type: text/html" ++ [x0d; x0a; x0d; x0a] ++ lit "<html><h1> coroutine --> ntyco<h1></html>".

(** A reader answers every chunk with the page; when the client closes it closes its own side
    and takes the connection off the count. *)
Theorem reader_serves fd cs sent v seg :
  Forall (λ c, c ≠ []) cs → counts_to v seg → countable v → countable (v - 1) →
  ∃ seg', counts_to (v - 1) seg' ∧
    yields chunks_seg (server_reader fd) (Conn cs sent false, seg) tt
      (Conn [] (sent ++ replicate (length cs) page_text) true, seg').
Proof.
  intros Hcs Hc Hv Hv'. destruct (yields_change (-1) v (Conn [] (sent ++ replicate (length cs) page_text) true) seg)
    as (seg' & Hc' & Hy); [by right|done|done|]. exists seg'. split; [done|].
  assert (∃ buf len, page = Ok buf ∧ strlen buf = Ok len ∧ take len buf = page_text) as (buf & len & Ep & El & Et)
    by (eexists _, _; split_and!; vm_compute; reflexivity).
  revert sent Hy; induction Hcs as [|c cs Hc0 _ IH]; intros sent Hy.
  - cbn [length replicate] in *. rewrite app_nil_r in *.
    eapply (yields_loop _ _ _ _ (inr tt)); [|by split]. yields_step. cbn.
    yields_step. eapply yields_bind; [|apply yields_ret]. eapply yields_bind; [exact Hy|].
    by apply (yields_read (v - 1)).
  - eapply (yields_loop _ _ _ _ (inl tt)).
    + yields_step. cbv beta iota. rewrite (proj2 (Z.ltb_lt _ _)) by (destruct c; simpl; [done|lia]).
      eapply yields_bind; [apply yields_pure, Ep|]. eapply yields_bind; [apply yields_pure, El|]. rewrite Et.
      yields_step. rewrite (proj2 (Z.eqb_neq _ _)) by lia. apply yields_ret.
    + specialize (IH (sent ++ [page_text])). rewrite <- app_assoc in IH. by apply IH.
Qed.
End serve.

(** ** Witnesses *)

Lemma reader_serves_witness :
  ∃ seg', counts_to 4 seg' ∧
    yields chunks_seg (server_reader 7) (Conn [lit "GET"; lit "a"] [] false, le_bytes 8 5 ++ replicate 16 x00) tt
      (Conn [] [page_text; page_text] true, seg').
Proof.
  apply (reader_serves 7 [lit "GET"; lit "a"] [] 5).
  - repeat constructor; discriminate.
  - split; [simpl; unfold total; lia|vm_compute; reflexivity].
  - split; vm_compute; reflexivity.
  - split; vm_compute; reflexivity.
Defined.

(** The next event of a concrete thread. *)
Ltac next_event := lazymatch goal with |- ?l = _ => let r := eval hnf in l in transitivity r; reflexivity end.

(** A process has accepted a connection and started its reader, but not counted it. *)
Lemma total_counts_connections_witness :
  ∃ w, i32 (word_at total 4 (w_seg w)) = 0%Z ∧ connections (w_threads w) = 1%Z ∧
    i32 (word_at total 4 (w_seg w)) =
      (connections (w_threads w) - total_of (λ th, uncounted (th_calls th)) (w_threads w))%Z.
Proof.
  eassert (rtc (wstep (λ _, mulcore_code [])) (start [] [7]%Z 9096 (1, 2)%Z) _) as Hsteps.
  { eapply rtc_l; [eapply (step_call _ _ _ 0 _ _ _ _ 3%Z); [reflexivity|next_event|exact I]|].
    eapply rtc_l; [eapply (step_call _ _ _ 0 _ _ _ _ 0%Z); [reflexivity|next_event|exact I]|].
    eapply rtc_l; [eapply (step_call _ _ _ 0 _ _ _ _ 0%Z); [reflexivity|next_event|exact I]|].
    eapply rtc_l; [eapply (step_call _ _ _ 0 _ _ _ _ (4, [])%Z); [reflexivity|next_event|exact I]|].
    eapply rtc_l; [eapply (step_create _ _ _ 0 _ _ _ _ (0, Some 1%positive)%Z); [reflexivity|next_event]|].
    apply rtc_refl. }
  eexists. split; [|split; [|exact (proj1 (total_counts_connections [] [7]%Z 9096 (1, 2)%Z _ Hsteps ltac:(vm_compute; reflexivity)))]].
  - vm_compute. reflexivity.
  - vm_compute. reflexivity.
Defined.
