(* ===== verification/HttpMulcore.v ===== *)
(** The multi-process HTTP server of src/sample/nty_http_server_mulcore.c: requests are parsed as
    in nty_http_server.c, in smaller arrays; every message is built in one buffer and sent at
    once, and every file is answered by the same page.

    Functions with the same text as in Http.v, Cgi.v, WebSocket.v and ServerMulcore.v are
    those. What starts the processes (fork, affinity, [shmget]) is in Mains.v. *)

From S2P Require Export Cgi ServerMulcore WebSocket.

Module HttpMulcore.
(** The offset of [accept_lock] in [shm_area]; [total] and [tv_begin] are those of
    ServerMulcore.v. *)
Definition total : nat := ServerMulcore.total.
Definition accept_lock : nat := 4.
Definition tv_begin : nat := ServerMulcore.tv_begin.
Definition MAX_CLIENT_NUM : Z := 1000000.
Definition MAX_BUFFER_LENGTH : nat := 1024.
Definition SERVER_STRING : list byte := lit "Server: ntyco_httpd/0.1.0" ++ [x0d; x0a].
Definition tabs : list byte := replicate 6 x09.
Definition HTML_PAGE : list byte :=
    lit "<HTML> " ++ tabs ++ lit "<TITLE>Index</TITLE> " ++ tabs ++ lit "<BODY> " ++ tabs
    ++ lit "<P>Welcome to J. David's webserver." ++ tabs ++ lit "<H1>CGI demo " ++ tabs
    ++ lit "<FORM ACTION=" ++ [x22] ++ lit "color.cgi" ++ [x22] ++ lit " METHOD=" ++ [x22]
    ++ lit "POST" ++ [x22] ++ lit ">" ++ tabs ++ lit "Enter a color: <INPUT TYPE=" ++ [x22]
    ++ lit "text" ++ [x22] ++ lit " NAME=" ++ [x22] ++ lit "color" ++ [x22] ++ lit ">" ++ tabs
    ++ lit "<INPUT TYPE=" ++ [x22] ++ lit "submit" ++ [x22] ++ lit ">" ++ tabs ++ lit "</FORM>"
    ++ tabs ++ lit "</BODY>" ++ tabs ++ lit "</HTML>".

Section httpd.
Context `{OS}.
(** What the arrays of [accept_request] (1024, 16, 32 and 64 bytes), the 1024 bytes of the other
    functions, the arrays of [execute_cgi] and the padding of an address hold at first. *)
Variables (buf_junk method_junk url_junk path_junk env_junk : list byte) (c_junk : byte) (sin_zero : list byte).

(** ** The segment *)

Definition cmpxchg : nat → Z → Z → nat → cl Z := Httpd.cmpxchg.
Definition get_shm_timevalue : cl (Z * Z) := ServerMulcore.get_shm_timevalue.
Definition set_shm_timevalue : Z * Z → cl unit := ServerMulcore.set_shm_timevalue.
Definition add_shmvalue : cl Z := ServerMulcore.add_shmvalue.
Definition sub_shmvalue : cl Z := ServerMulcore.sub_shmvalue.

Definition lock_accept_mutex : cl Z := ret ← cmpxchg accept_lock 0 1 4; mret (i32 ret).
Definition unlock_accept_mutex : cl Z := ret ← cmpxchg accept_lock 1 0 4; mret (i32 ret).

(** ** Messages *)

(** [strcat(buf, s)] of each string *)
Fixpoint strcat_all (buf : list byte) (l : list (list byte)) : res (list byte) :=
  match l with
  | [] => Ok buf
  | s :: l => buf ← strcat buf s; strcat_all buf l
  end.
(** [sprintf(buf, s); strcat(buf, ...); ... send(client, buf, strlen(buf), 0);] *)
Definition answer (client : Z) (s : list byte) (l : list (list byte)) (buf : list byte) : cl unit :=
  buf ← pure (buf ← put_str buf 0 s; strcat_all buf l);
  n ← pure (strlen buf);
  call (api_send client (take n buf) 0);;
  mret tt.

Definition headers (client : Z) (filename : list byte) : cl unit :=
  answer client (Http.crlf "HTTP/1.0 200 OK")
    [SERVER_STRING; Http.crlf "Content-Type: text/html"; Http.crlf ""] (replicate 1024 x00).

Definition not_found (client : Z) : cl unit :=
  answer client (Http.crlf "HTTP/1.0 404 NOT FOUND")
    [SERVER_STRING; Http.crlf "Content-Type: text/html"; Http.crlf "";
     Http.crlf "<HTML><TITLE>Not Found</TITLE>";
     Http.crlf "<BODY><P>The server could not fulfill";
     Http.crlf "your request because the resource specified";
     Http.crlf "is unavailable or nonexistent.";
     Http.crlf "</BODY></HTML>"] buf_junk.

Definition unimplemented (client : Z) : cl unit :=
  answer client (Http.crlf "HTTP/1.0 501 Method Not Implemented")
    [SERVER_STRING; Http.crlf "Content-Type: text/html"; Http.crlf "";
     Http.crlf "<HTML><HEAD><TITLE>Method Not Implemented";
     Http.crlf "</TITLE></HEAD>";
     Http.crlf "<BODY><P>HTTP request method not supported.";
     Http.crlf "</BODY></HTML>"] buf_junk.

Definition bad_request : Z → cl unit := Http.bad_request buf_junk.
Definition cannot_execute : Z → cl unit := Http.cannot_execute buf_junk.
Definition error_die {A} : cl A := Http.error_die.
Definition get_line : Z → list byte → nat → cl (nat * list byte) := Http.get_line.
Definition readline : list byte → nat → list byte → res (Z * list byte) := WebSocket.readline.
Definition execute_cgi : Z → list byte → list byte → list byte → cl unit :=
  Cgi.execute_cgi buf_junk env_junk c_junk.

(** [char buf[1024] = HTML_PAGE]; the file is not used. *)
Definition cat (client : Z) : cl unit :=
  let buf := HTML_PAGE ++ replicate (1024 - length HTML_PAGE) x00 in
  n ← pure (strlen buf);
  call (api_send client (take n buf) 0);;
  mret tt.
Definition serve_file (client : Z) (filename : list byte) : cl unit :=
  headers client filename;;
  cat client.

Definition accept_request : Z → cl unit :=
  Http.handle_request buf_junk method_junk url_junk path_junk unimplemented not_found serve_file.

(** ** The server *)

Definition startup : Z → cl (Z * Z) := Http.startup.

(** The functions that [nty_coroutine_create] is given. *)
Definition fn_server : Z := 0.
Definition fn_accept_request : Z := 1.

(** One turn of the loop of [server]. *)
Definition server_turn (fd : Z) : cl (unit + unit) :=
  '(client_sock, _) ← call (api_accept fd);
  if (client_sock =? -1)%Z then error_die else
  call (api_create fn_accept_request client_sock);;
  mret (inl tt).
Definition server (port : Z) : cl unit :=
  fd ← call (api_socket 2 1 0);
  if (fd <? 0)%Z then mret tt else
  call (api_bind fd (le_bytes 2 2 ++ rev (le_bytes 2 port) ++ replicate 4 x00 ++ sin_zero));;
  call (api_listen fd 20);;
  cl_loop (λ _, server_turn fd) tt.

Definition mulcore_code (func arg : Z) : itree apiE unit :=
  if (func =? fn_server)%Z then coroutine (server arg) else coroutine (accept_request arg).

(** The coroutine that [mulcore_entry] creates, and the port of [process_bind]. *)
Definition mulcore_entry (begin_port : Z) : Z * Z := (fn_server, u16 (u16 begin_port + 0)).
Definition process_bind : Z * Z := mulcore_entry 9096.
End httpd.

(** The segment as [init_shmvalue] leaves it at the time [tv], on a page of zeros. *)
Definition init_shmvalue (tv : Z * Z) : list byte := ServerMulcore.init_shmvalue tv.
End HttpMulcore.
