(* ===== verification/HttpMulcoreProps.v ===== *)
(** What is proved of nty_http_server_mulcore.c: every file is answered by the same page, requests
    stay inside their smaller arrays, and the lock of the segment excludes nobody. *)

From S2P Require Export HttpMulcore HttpRequest SharedMemory.
Import Http HttpMulcore.

Section messages.
Context `{OS}.

(** A text built of parts, each without a zero. *)
Lemma strcat_all_spec l p rest : (x00 ∉ p) → Forall (λ s, x00 ∉ s) l →
  length (concat l) ≤ length rest →
  ∃ rest', strcat_all (p ++ x00 :: rest) l = Ok ((p ++ concat l) ++ x00 :: rest').
Proof.
  intros Hp Hl. revert p rest Hp; induction Hl as [|s l Hs _ IH]; intros p rest Hp Hlen; cbn [concat strcat_all] in *.
  - exists rest. by rewrite app_nil_r.
  - rewrite length_app in Hlen.
    destruct (strcat_spec (p ++ x00 :: rest) p s rest eq_refl Hp) as (rest' & E & Hl');
      [rewrite !length_app; cbn [length]; lia|].
    rewrite E. cbn [mbind res_bind]. rewrite app_assoc in E |- *. rewrite app_assoc.
    apply IH; [by intros [?|?]%elem_of_app|].
    rewrite !length_app in Hl'. cbn [length] in Hl'. lia.
Qed.

(** The parts of an answer, and that they fit the buffer. *)
Definition is_answer (l : list (list byte)) : bool :=
  forallb (forallb (λ c, negb (Byte.eqb c x00))) l && (length (concat l) <? 1024).
Lemma is_answer_ok l : is_answer l = true → Forall (λ s, x00 ∉ s) l ∧ length (concat l) < 1024.
Proof.
  intros [H0 H1%Nat.ltb_lt]%andb_prop. split; [|done]. apply Forall_forall. intros s Hs Hin.
  rewrite forallb_forall in H0. specialize (H0 s ltac:(by apply list_elem_of_In)). rewrite forallb_forall in H0.
  by apply list_elem_of_In, H0 in Hin.
Qed.

(** What [answer] sends. *)
Lemma answer_built s l buf : is_answer (s :: l) = true → length buf = 1024 →
  ∃ rest, (buf ← put_str buf 0 s; strcat_all buf l) = Ok (concat (s :: l) ++ x00 :: rest) ∧ (x00 ∉ concat (s :: l)).
Proof.
  intros [Hl Hlen]%is_answer_ok Hb. inversion Hl as [|? ? Hs Hl']; subst. cbn [concat] in Hlen |- *.
  rewrite length_app in Hlen. rewrite put_str_spec by lia. cbn [mbind res_bind].
  destruct (strcat_all_spec l s (drop (S (length s)) buf) Hs Hl') as [rest E]; [rewrite length_drop; lia|].
  exists rest. rewrite E. split; [done|]. intros [?|Hin]%elem_of_app; [done|].
  apply list_elem_of_In, in_concat in Hin as (x & Hx & Hin). rewrite Forall_forall in Hl'.
  apply (Hl' x); by apply list_elem_of_In.
Qed.
End messages.

Section env.
Context `{OS}.
Variable files : list byte → option (Z * list byte).
Local Abbreviation stream := (HttpRequest.stream files).
Local Abbreviation says := (HttpRequest.says files).
Variables (buf_junk method_junk url_junk path_junk : list byte).
Hypothesis buf_size : length buf_junk = 1024.
Hypothesis method_size : length method_junk = 16.
Hypothesis url_size : length url_junk = 32.
Hypothesis path_size : length path_junk = 64.

Lemma small_room : rooms method_junk url_junk path_junk.
Proof. split; rewrite ?method_size, ?url_size, ?path_size; lia. Qed.

Lemma says_answer client s l buf text st :
  is_answer (s :: l) = true → length buf = 1024 → concat (s :: l) = text → says (answer client s l buf) text st tt.
Proof using Type.
  intros Ha Hb <-. destruct (answer_built s l buf Ha Hb) as (rest & E & H0). unfold HttpRequest.says, answer.
  eapply yields_bind; [apply yields_pure, E|]. eapply yields_bind; [by apply yields_pure, strlen_app|].
  rewrite take_app_length. eapply yields_bind; [by apply yields_call|]. apply yields_ret.
Qed.

(** The messages, line by line. *)
Definition nl : list byte := [x0d; x0a].
Definition ok_text : list byte :=
  lit "HTTP/1.0 200 OK" ++ nl ++ lit "Server: ntyco_httpd/0.1.0" ++ nl ++ lit "Content-Type: text/html" ++ nl ++ nl.
Definition missing_text : list byte :=
  lit "HTTP/1.0 404 NOT FOUND" ++ nl ++ lit "Server: ntyco_httpd/0.1.0" ++ nl ++ lit "Content-Type: text/html" ++ nl ++
  nl ++ lit "<HTML><TITLE>Not Found</TITLE>" ++ nl ++
  lit "<BODY><P>The server could not fulfill" ++ nl ++ lit "your request because the resource specified" ++ nl ++
  lit "is unavailable or nonexistent." ++ nl ++ lit "</BODY></HTML>" ++ nl.

Lemma page_text : strlen (HTML_PAGE ++ replicate (1024 - length HTML_PAGE) x00) = Ok (length HTML_PAGE).
Proof. vm_compute. reflexivity. Qed.

Lemma says_file client filename st : says (serve_file client filename) (ok_text ++ HTML_PAGE) st tt.
Proof using Type.
  unfold HttpRequest.says, serve_file.
  eapply yields_bind; [apply (says_answer client _ _ _ ok_text); reflexivity|]. unfold cat.
  eapply yields_bind; [apply yields_pure, page_text|]. rewrite take_app_length.
  eapply yields_bind; [by apply yields_call|]. cbn [web_in web_out web_closed]. rewrite app_assoc. apply yields_ret.
Qed.

(** The request of one client. *)
Section served.
Variables (m u rest : list byte) (sp sp2 : byte) (client : Z) (out : list byte).
Local Abbreviation data := (m ++ sp :: u ++ sp2 :: rest).
Local Abbreviation path := (path_of (if same_nocase m (lit "GET") then before_query u else u)).
Local Abbreviation accept := (accept_request buf_junk method_junk url_junk path_junk).

(** A GET or POST of anything that exists, file or directory, is answered by the same page and
    the connection is closed; what does not exist is answered by the 404 message, when the
    client has no more to say. The file is never opened. *)
Theorem same_page_served :
  word m → length m < 16 → isspace sp = true → length data ≤ 1024 →
  word u → u ≠ [] ∧ length u < 32 → isspace sp2 = true →
  same_nocase m (lit "GET") || same_nocase m (lit "POST") = true →
  yields stream (accept client) (Web data out false) tt
    (Web [] (out ++ match files path with Some _ => ok_text ++ HTML_PAGE | None => missing_text end) true).
Proof using buf_size method_size url_size path_size.
  intros Hm Hml Hsp Hd Hu Hul Hsp2 Hk. rewrite <- method_size in Hml. rewrite <- url_size in Hul.
  destruct (files path) as [[mode contents]|] eqn:Ef.
  - eapply (file_served _ _ _ _ _ buf_size small_room _ _ _ m u rest sp sp2); try done.
    exact (says_file client _ (Web [] out false)).
  - eapply (file_missing _ _ _ _ _ buf_size small_room _ _ _ m u rest sp sp2); try done.
    apply (says_answer client _ _ _ missing_text (Web [] out false)); [reflexivity|done|reflexivity].
Qed.
End served.

(** ** Safety *)

Lemma safe_answer client s l buf : is_answer (s :: l) = true → length buf = 1024 →
  ∀ tr, every_call (own_calls client) peer (answer client s l buf) tr (λ _ _, True).
Proof using Type.
  intros Ha Hb tr. destruct (answer_built s l buf Ha Hb) as (rest & E & H0). unfold answer.
  eapply ec_bind_pure; [exact E|]. eapply ec_bind_pure; [by apply strlen_app|].
  apply ec_bind_call; [done|]. intros r _. by apply ec_ret.
Qed.

(** Whatever bytes a client sends that do not fill the array, the requests stay inside the
    smaller arrays of this server. *)
Theorem mulcore_request_safe client tr :
  every_call (own_calls client) peer (accept_request buf_junk method_junk url_junk path_junk client) tr (λ _ _, True).
Proof using buf_size method_size url_size path_size.
  apply handle_request_safe; [done|exact small_room|by apply safe_answer..|].
  intros p _ _ tr'. unfold serve_file. eapply ec_bind; [by apply safe_answer|]. intros tr2 [] _. unfold cat.
  eapply ec_bind_pure; [apply page_text|]. apply ec_bind_call; [done|]. intros r _. by apply ec_ret.
Qed.
End env.

(** ** The lock *)

Section lock.
Context `{OS}.
(** The segment, used by one function at a time. *)
Definition segment (A : Type) (e : apiE A) : list byte → A * list byte :=
  match e in apiE A return list byte → A * list byte with
  | api_shm o => λ seg, match shm_run o seg with Ok r => r | Err _ => (0%Z, seg) end
  | e => λ seg, (no_answer e, seg)
  end.

(** C35: the instruction compares the lock together with the lower half of the seconds in
    [tv_begin] behind it: while the lock is free and these are not zero, an attempt to take
    the lock changes nothing and its result is the zero that means success, so that any
    number of processes "hold" it at once; and giving it back changes nothing either. *)
Theorem lock_excludes_nobody seg :
  accept_lock + 8 ≤ length seg → word_at accept_lock 4 seg = 0%Z → word_at tv_begin 4 seg ≠ 0%Z →
  yields segment lock_accept_mutex seg 0%Z seg ∧ yields segment unlock_accept_mutex seg 0%Z seg.
Proof.
  intros Hl H0 Htv. set (hi := word_at tv_begin 4 seg) in *.
  assert (word_at accept_lock 8 seg = 2 ^ 32 * hi)%Z as Hw.
  { unfold word_at, accept_lock in *. rewrite <- (take_drop 4 (take 8 (drop 4 seg))), take_take, skipn_firstn_comm, drop_drop.
    cbn [Nat.min Nat.sub Nat.add]. rewrite le_val_app, H0, length_take, length_drop.
    rewrite Nat.min_l by lia. unfold hi, word_at, tv_begin, ServerMulcore.tv_begin. simpl Z.of_nat. lia. }
  assert (0 < hi < 2 ^ 32)%Z as Hhi.
  { pose proof (le_val_bound (take 4 (drop tv_begin seg))) as Hb. fold (word_at tv_begin 4 seg) in Hb. fold hi in Hb.
    rewrite length_take in Hb. assert (256 ^ Z.of_nat (4 `min` length (drop tv_begin seg)) ≤ 256 ^ 4)%Z; [|lia].
    apply Z.pow_le_mono_r; lia. }
  assert (∀ old new, (0 ≤ old ≤ 1)%Z →
    segment _ (api_shm (ShmCas accept_lock 8 old new)) seg = ((2 ^ 32 * hi)%Z, seg)) as Hcas.
  { intros old new Hold. cbn [segment shm_run]. rewrite rdn_ok by done. cbn [mbind res_bind].
    change (le_val (take 8 (drop accept_lock seg))) with (word_at accept_lock 8 seg). rewrite Hw.
    rewrite (proj2 (Z.eqb_neq _ _)); [done|]. rewrite Z.mod_small; [lia|].
    change (256 ^ Z.of_nat 8)%Z with (2 ^ 64)%Z. lia. }
  assert (i32 (2 ^ 32 * hi) = 0)%Z as Hi.
  { unfold i32. rewrite Z.mul_comm, Z.add_comm, Z_mod_plus_full. reflexivity. }
  split; unfold lock_accept_mutex, unlock_accept_mutex, cmpxchg; cbn [Httpd.cmpxchg].
  - eapply yields_bind; [by apply yields_call, Hcas|]. rewrite Hi. apply yields_ret.
  - eapply yields_bind; [by apply yields_call, Hcas|]. rewrite Hi. apply yields_ret.
Qed.
End lock.

(** ** Witnesses *)

Definition small_site (p : list byte) : option (Z * list byte) :=
  if decide (p = lit "htdocs/a") then Some (0x81a4%Z, []) else None.
Definition junk (n : nat) : list byte := replicate n x41.

Lemma same_page_served_witness :
  yields (stream small_site) (accept_request (junk 1024) (junk 16) (junk 32) (junk 64) 5)
    (Web (lit "GET" ++ x20 :: lit "/a?x" ++ x20 :: []) [] false) tt (Web [] (ok_text ++ HTML_PAGE) true).
Proof.
  apply (same_page_served small_site (junk 1024) (junk 16) (junk 32) (junk 64) eq_refl eq_refl eq_refl eq_refl
    (lit "GET") (lit "/a?x") [] x20 x20 5 []).
  - repeat constructor; discriminate.
  - simpl; lia.
  - reflexivity.
  - simpl; lia.
  - repeat constructor; discriminate.
  - split; [discriminate|simpl; lia].
  - reflexivity.
  - reflexivity.
Defined.

Lemma mulcore_request_safe_witness :
  every_call (own_calls 5) peer (accept_request (junk 1024) (junk 16) (junk 32) (junk 64) 5) [] (λ _ _, True).
Proof. apply mulcore_request_safe; reflexivity. Defined.

Lemma lock_excludes_nobody_witness :
  yields segment lock_accept_mutex (init_shmvalue (1700000000, 5)%Z) 0%Z (init_shmvalue (1700000000, 5)%Z).
Proof.
  apply lock_excludes_nobody; [|vm_compute; reflexivity|vm_compute; discriminate].
  vm_compute. lia.
Defined.
