(* ===== verification/HttpEpoll.v ===== *)
(** The multi-process HTTP server of src/sample/nty_http_epoll.c, which does not use the library:
    each process has an event loop of its own around [epoll_wait], and calls the system
    directly. It is the server ntyco_httpd.c is compared with.

    The shared segment, its lock and its counts have the same text as in Httpd.v. *)

From S2P Require Export Httpd.

Module HttpEpoll.
Definition MAX_CLIENT_NUM : Z := 1000000.
Definition TOTALFDS : nat := Httpd.TOTALFDS.
Definition totalfds : nat → nat := Httpd.totalfds.
Definition cpu_lb : nat → nat := Httpd.cpu_lb.
Definition accept_mtx : nat := Httpd.accept_mtx.
Definition SERVER_STRING : list byte := Httpd.SERVER_STRING.
Definition HTML_PAGE : list byte := Httpd.HTML_PAGE.
Definition MAX_EPOLLSIZE : Z := 10240.
Definition F_GETFL : Z := 3.
Definition F_SETFL : Z := 4.
Definition O_NONBLOCK : Z := 0x800.

Section httpd.
Context `{OS}.
(** The globals of a process. *)
Variables (self_id cpu_size : Z).

(** ** The segment *)

Definition cmpxchg : nat → Z → Z → nat → cl Z := Httpd.cmpxchg.
Definition atomic_add : nat → Z → cl Z := Httpd.atomic_add.
Definition atomic_sub : nat → Z → cl Z := Httpd.atomic_sub.
Definition INC_COUNTFD : cl unit := Httpd.INC_COUNTFD self_id cpu_size.
Definition DEC_COUNTFD : cl unit := Httpd.DEC_COUNTFD self_id cpu_size.
Definition get_countfd : cl Z := Httpd.get_countfd self_id cpu_size.
Definition max_countfd : cl Z := Httpd.max_countfd cpu_size.
Definition min_countfd : cl Z := Httpd.min_countfd cpu_size.
Definition compare_out_countfd : cl Z := Httpd.compare_out_countfd self_id cpu_size.
Definition compare_in_countfd : cl Z := Httpd.compare_in_countfd self_id cpu_size.
Definition print_countfds : cl unit := Httpd.print_countfds cpu_size.
Definition lock_accept : cl unit := Httpd.lock_accept self_id cpu_size.
Definition read_accept : cl Z := Httpd.read_accept self_id cpu_size.
Definition write_accept : Z → cl unit := Httpd.write_accept self_id cpu_size.
Definition lock : cl Z := Httpd.lock.
Definition unlock : cl unit := Httpd.unlock.

(** ** Calls of the system *)

Definition close (fd : Z) : cl Z := call (api_sys (sys_close fd)).
(** The result is stored in an [int]. *)
Definition send (fd : Z) (buf : list byte) (flags : Z) : cl Z :=
  n ← call (api_sys (sys_send fd buf flags)); mret (i32 n).
Definition epoll_ctl (epfd op fd events : Z) : cl Z :=
  call (api_sys (sys_epoll_ctl epfd op fd (EpollEvent events fd))).

(** One turn of the loop of [nsend]: [ret] and [sent]. *)
Definition nsend_turn (fd : Z) (buf : list byte) (flags : Z) (st : Z * Z) : cl (Z * Z + Z * Z) :=
  let '(ret, sent) := st in
  if (sent <? Z.of_nat (length buf))%Z then
    ret ← send fd (drop (Z.to_nat sent) buf) flags;
    if (ret <=? 0)%Z then
      e ← call api_errno;
      if (e =? EAGAIN)%Z then mret (inl (ret, sent)) else mret (inr (ret, sent))
    else mret (inl (ret, (sent + ret)%Z))
  else mret (inr (ret, sent)).
Definition nsend (fd : Z) (buf : list byte) (flags : Z) : cl Z :=
  ret ← send fd buf flags;
  if (ret =? 0)%Z then mret ret
  else
    '(ret, sent) ← cl_loop (nsend_turn fd buf flags) (ret, if (0 <? ret)%Z then ret else 0%Z);
    mret (if (ret <=? 0)%Z && (sent =? 0)%Z then ret else sent).

Definition ntySetNonblock (fd : Z) : cl Z :=
  flags ← call (api_sys (sys_fcntl fd F_GETFL 0));
  if (flags <? 0)%Z then mret flags
  else
    r ← call (api_sys (sys_fcntl fd F_SETFL (Z.lor flags O_NONBLOCK)));
    mret (if (r <? 0)%Z then -1 else 0)%Z.
Definition ntySetReUseAddr (fd : Z) : cl Z := call (api_sys (sys_setsockopt_reuse fd)).

(** ** Connections *)

(** The connection is over. *)
Definition drop_client (client epfd : Z) : cl unit :=
  close client;;
  epoll_ctl epfd EPOLL_CTL_DEL client (Z.lor EPOLLIN EPOLLET);;
  DEC_COUNTFD.

(** [numchars] is a [size_t]; what was received is not looked at. *)
Definition accept_request (fd epfd : Z) : cl unit :=
  '(n, _) ← call (api_sys (sys_recv fd 1024 0));
  let numchars := u64 n in
  if (numchars =? 2 ^ 64 - 1)%Z then
    e ← call api_errno;
    if (e =? ECONNRESET)%Z then drop_client fd epfd else mret tt
  else if (numchars =? 0)%Z then drop_client fd epfd
  else mret tt.

Definition cat (client : Z) : cl unit := send client HTML_PAGE 0;; mret tt.
Definition error_die {A} : cl A := pure (Err ProcExit).

Definition headers (client : Z) : cl unit :=
  buf ← pure Httpd.page_buffer;
  n ← pure (strlen buf);
  send client (take n buf) 0;;
  mret tt.
Definition serve_file (client : Z) : cl unit := headers client.

(** ** The event loop *)

(** An event of the listening socket; the result says whether [server] returns. *)
Definition accept_event (epfd sockfd : Z) : cl bool :=
  l ← lock;
  if negb (l =? 0)%Z then mret false
  else
    '(clientfd, _) ← call (api_sys (sys_accept sockfd));
    unlock;;
    if (clientfd <? 0)%Z then
      e ← call api_errno;
      mret (negb (e =? EAGAIN)%Z)
    else
      INC_COUNTFD;;
      ntySetNonblock clientfd;;
      ntySetReUseAddr clientfd;;
      epoll_ctl epfd EPOLL_CTL_ADD clientfd (Z.lor (Z.lor EPOLLIN EPOLLET) EPOLLONESHOT);;
      mret false.

(** An event of a connection. *)
Definition client_event (epfd sockfd events : Z) : cl unit :=
  if negb (Z.land events EPOLLIN =? 0)%Z then
    accept_request sockfd epfd;;
    epoll_ctl epfd EPOLL_CTL_MOD sockfd (Z.lor (Z.lor EPOLLOUT EPOLLET) EPOLLONESHOT);;
    mret tt
  else if negb (Z.land events EPOLLOUT =? 0)%Z then
    serve_file sockfd;;
    epoll_ctl epfd EPOLL_CTL_MOD sockfd (Z.lor (Z.lor (Z.lor EPOLLIN EPOLLHUP) EPOLLRDHUP) EPOLLERR);;
    DEC_COUNTFD
  else if negb (Z.land events (Z.lor (Z.lor EPOLLHUP EPOLLRDHUP) EPOLLERR) =? 0)%Z then
    close sockfd;;
    epoll_ctl epfd EPOLL_CTL_DEL sockfd (Z.lor (Z.lor EPOLLIN EPOLLET) EPOLLONESHOT);;
    DEC_COUNTFD
  else mret tt.

Definition handle_event (fd epfd : Z) (ev : epoll_event) : cl bool :=
  if (ev_fd ev =? fd)%Z then accept_event epfd (ev_fd ev)
  else client_event epfd (ev_fd ev) (ev_events ev);; mret false.

(** [for (i = 0; i < nready; i ++)] over the entries that [epoll_wait] has filled. *)
Fixpoint handle_events (fd epfd : Z) (events : list epoll_event) : cl bool :=
  match events with
  | [] => mret false
  | ev :: events =>
      stop ← handle_event fd epfd ev;
      if (stop : bool) then mret true else handle_events fd epfd events
  end.

(** One turn of the loop of [server]. After a failure the loop goes on whatever [errno] is. *)
Definition server_turn (fd epfd : Z) : cl (unit + unit) :=
  '(nready, events) ← call (api_sys (sys_epoll_wait epfd MAX_EPOLLSIZE 1));
  if (nready =? -1)%Z then mret (inl tt)
  else
    stop ← handle_events fd epfd (take (Z.to_nat nready) events);
    mret (if (stop : bool) then inr tt else inl tt).
Definition server (fd : Z) : cl unit :=
  epfd ← call (api_sys (sys_epoll_create 1));
  epoll_ctl epfd EPOLL_CTL_ADD fd EPOLLIN;;
  cl_loop (λ _, server_turn fd epfd) tt.

(** [server] reads an [int] where [mulcore_entry] has stored a [short]. *)
Definition mulcore_entry (begin_port : Z) : cl unit :=
  b ← pure (rdn (le_bytes 2 begin_port) 0 4);
  server (i32 (le_val b)).
Definition process_bind (fd : Z) : cl unit := server fd.

(** What a process runs. *)
Definition epoll_code (func arg : Z) : itree apiE unit := coroutine (process_bind arg).

(** The socket that the processes inherit from [main]. *)
Definition listen_socket (sin_zero : list byte) : cl (option Z) :=
  fd ← call (api_sys (sys_socket 2 1 0));
  if (fd <? 0)%Z then mret None else
  ntySetNonblock fd;;
  ntySetReUseAddr fd;;
  call (api_sys (sys_bind fd (le_bytes 2 2 ++ rev (le_bytes 2 9000) ++ replicate 4 x00 ++ sin_zero)));;
  call (api_sys (sys_listen fd 20));;
  mret (Some fd).
End httpd.

Definition init_shmvalue : list byte := Httpd.init_shmvalue.
End HttpEpoll.
