(* ===== verification/HttpEpollProps.v ===== *)
(** What is proved of nty_http_epoll.c: at most one process is in [accept], [nsend] sends exactly
    a prefix of its buffer, and the count of a process goes down by one for every answer. *)

From S2P Require Export HttpEpoll HttpdProps.
Import HttpEpoll.

Section protocol.
Context `{OS}.

(** ** The protocol of the lock *)

(** Code that leaves the ownership as it is, from any calls on. *)
Local Abbreviation neutral b m := (∀ tr, owns accept_mtx tr = b →
  every_call (lock_protocol accept_mtx) lock_answers m tr (λ tr _, owns accept_mtx tr = b)).

Lemma neutral_ret {A} b (x : A) : neutral b (mret x).
Proof. intros tr Hb. by apply ec_ret. Qed.
Lemma neutral_bind {A B} b (m : cl A) (k : A → cl B) :
  neutral b m → (∀ x, neutral b (k x)) → neutral b (m ≫= k).
Proof. intros Hm Hk tr Hb. eapply ec_bind; [by apply Hm|]. intros tr' x Hb'. by apply Hk. Qed.
Lemma neutral_pure {A B} b (r : res A) x (k : A → cl B) : r = Ok x → neutral b (k x) → neutral b (pure r ≫= k).
Proof. intros E Hk tr Hb. eapply ec_bind_pure; [exact E|]. by apply Hk. Qed.
Lemma neutral_sys {A} b (s : sysE A) :
  match s with sys_accept _ | sys_shm _ => False | _ => True end → neutral b (call (api_sys s)).
Proof.
  intros Hs tr Hb. apply ec_call; [by destruct s|]. intros x _. by rewrite owns_snoc.
Qed.
Lemma neutral_errno b : neutral b (call api_errno).
Proof. intros tr Hb. apply ec_call; [done|]. intros x _. by rewrite owns_snoc. Qed.

Ltac neutral := repeat first
  [ lazymatch goal with |- ∀ tr, _ → every_call _ _ (mret _) _ _ => apply neutral_ret end
  | lazymatch goal with |- ∀ tr, _ → every_call _ _ (_ ≫= _) _ _ => apply neutral_bind; [|intros ?] end
  | apply neutral_sys; exact I
  | apply neutral_errno
  | progress unfold close, send, epoll_ctl
  | match goal with |- context [if ?b then _ else _] => destruct b end ].

Section process.
Variables self_id cpu_size : Z.
Hypothesis pid : (0 ≤ self_id)%Z.
Hypothesis cpus : (0 < cpu_size ≤ Z.of_nat TOTALFDS)%Z.

Lemma neutral_inc b : neutral b (INC_COUNTFD self_id cpu_size).
Proof. do 2 (apply neutral_bind; [|intros ?; apply neutral_ret]). by apply neutral_add. Qed.
Lemma neutral_dec b : neutral b (DEC_COUNTFD self_id cpu_size).
Proof. do 2 (apply neutral_bind; [|intros ?; apply neutral_ret]). by apply neutral_add. Qed.

Lemma neutral_drop b client epfd : neutral b (drop_client self_id cpu_size client epfd).
Proof. unfold drop_client. neutral. apply neutral_dec. Qed.

Lemma neutral_client b epfd sockfd events : neutral b (client_event self_id cpu_size epfd sockfd events).
Proof.
  assert (∀ b fd epfd, neutral b (accept_request self_id cpu_size fd epfd)) as Hreq.
  { intros b' fd epfd'. unfold accept_request. apply neutral_bind; [by apply neutral_sys|]. intros [n d]. cbv zeta.
    neutral; apply neutral_drop. }
  assert (∀ b fd, neutral b (serve_file fd)) as Hserve.
  { intros b' fd. unfold serve_file, headers. destruct page_ok as (page & E & H0).
    eapply neutral_pure; [exact E|]. eapply neutral_pure; [by apply strlen_nul|]. neutral. }
  unfold client_event. neutral; first [apply Hreq | apply Hserve | apply neutral_dec].
Qed.

(** The attempt to take the lock, and what depends on it. *)
Lemma accept_protocol epfd sockfd : neutral false (accept_event self_id cpu_size epfd sockfd).
Proof.
  intros tr Hb. unfold accept_event, lock, Httpd.lock.
  eapply (ec_bind _ _ _ _ _ (λ tr l, owns accept_mtx tr = (l =? 0)%Z)).
  { apply ec_bind_call; [by split_and!|]. intros v Hv. apply ec_ret. rewrite owns_snoc. simpl.
    by destruct Hv as [-> | ->]. }
  clear tr Hb. intros tr l Hl. destruct (negb (l =? 0)%Z) eqn:El.
  { apply negb_true_iff in El. rewrite El in Hl. by apply ec_ret. }
  apply negb_false_iff in El. rewrite El in Hl.
  apply ec_bind_call; [exact Hl|]. intros [clientfd a] _.
  eapply (ec_bind _ _ _ _ _ (λ tr _, owns accept_mtx tr = false)).
  { apply ec_bind_call; [left; split_and!; [done..|]; by rewrite owns_snoc|]. intros v _.
    apply ec_ret. by rewrite owns_snoc. }
  clear tr Hl. intros tr [] Hb. revert tr Hb.
  assert (neutral false (if (clientfd <? 0)%Z then e ← call api_errno; mret (negb (e =? EAGAIN)%Z)
    else INC_COUNTFD self_id cpu_size;; ntySetNonblock clientfd;; ntySetReUseAddr clientfd;;
      epoll_ctl epfd EPOLL_CTL_ADD clientfd (Z.lor (Z.lor EPOLLIN EPOLLET) EPOLLONESHOT);; mret false)) as Hn;
    [|exact Hn]. unfold ntySetNonblock, ntySetReUseAddr. neutral. apply neutral_inc.
Qed.

Lemma neutral_events fd epfd events : neutral false (handle_events self_id cpu_size fd epfd events).
Proof.
  induction events as [|ev events IH]; [apply neutral_ret|]. cbn [handle_events].
  apply neutral_bind; [|intros []; [apply neutral_ret|apply IH]]. unfold handle_event.
  destruct (ev_fd ev =? fd)%Z; [apply accept_protocol|]. neutral. apply neutral_client.
Qed.

Lemma epoll_server_protocol fd : neutral false (server self_id cpu_size fd).
Proof.
  unfold server. apply neutral_bind; [by apply neutral_sys|]. intros epfd. neutral.
  intros tr Hb. apply (ec_loop _ _ (λ _ tr, owns accept_mtx tr = false)); [done|]. clear tr Hb. intros [] tr Hb.
  eapply (ec_conseq _ _ _ _ (λ tr _, owns accept_mtx tr = false)); [|by intros tr' [] Hb']. revert tr Hb. change (neutral false (server_turn self_id cpu_size fd epfd)).
  unfold server_turn. apply neutral_bind; [by apply neutral_sys|]. intros [nready events].
  neutral. apply neutral_events.
Qed.

Lemma epoll_protocol func arg :
  every_tree (lock_protocol accept_mtx) lock_answers (epoll_code self_id cpu_size func arg) [] (λ _ _, True).
Proof. eapply coroutine_runs. by apply epoll_server_protocol. Qed.
End process.
End protocol.

(** ** All processes *)

(** The processes as [main] starts them, each running [server] on the inherited socket. *)
Definition start `{OS} (cpu_size : Z) (pids : list Z) (fd : Z) : world :=
  LockProtocol.start (λ self, epoll_code self cpu_size) 0 fd init_shmvalue pids.

(** However the processes are interleaved and whatever the system answers, at most one of them
    is in [accept], and that one holds the lock. *)
Theorem epoll_accept_exclusive `{OS} cpu_size pids fd w :
  (0 < cpu_size ≤ Z.of_nat TOTALFDS)%Z → Forall (λ pid, 0 ≤ pid)%Z pids →
  rtc (wstep (λ self, epoll_code self cpu_size)) (start cpu_size pids fd) w →
  ∀ i j th1 th2, w_threads w !! i = Some th1 → w_threads w !! j = Some th2 →
    accepting th1 → accepting th2 → i = j ∧ word_at accept_mtx 8 (w_seg w) = 1%Z.
Proof.
  intros Hcpus Hpids Hsteps i j th1 th2.
  assert (∀ self func arg, (0 ≤ self)%Z → every_tree (lock_protocol accept_mtx) lock_answers
    (epoll_code self cpu_size func arg) [] (λ _ _, True)) as Hcode by (intros; by apply epoll_protocol).
  eapply (lock_exclusive accept_mtx _ Hcode); [|exact Hsteps].
  apply start_locked; [done|done|left; vm_compute; lia|by vm_compute].
Qed.

(** ** [nsend] *)

Section nsend.
Context `{OS}.

(** Whatever the system accepts of each send, when [nsend] returns the bytes it has accepted
    are exactly the prefix of the buffer whose length is the result, none when it is -1. *)
Theorem nsend_exactly_prefix fd buf flags :
  (Z.of_nat (length buf) < 2 ^ 31)%Z →
  every_call (λ _ _ _, True) sends (nsend fd buf flags) []
    (λ tr r, (-1 ≤ r ≤ Z.of_nat (length buf))%Z ∧ accepted tr = take (Z.to_nat r) buf).
Proof.
  intros Hl. unfold nsend.
  assert (∀ sent tr, (0 ≤ sent ≤ Z.of_nat (length buf))%Z → accepted tr = take (Z.to_nat sent) buf →
    every_call (λ _ _ _, True) sends (send fd (drop (Z.to_nat sent) buf) flags) tr
      (λ tr n, (-1 ≤ n)%Z ∧ (sent + n ≤ Z.of_nat (length buf))%Z ∧
        accepted tr = take (Z.to_nat (sent + Z.max 0 n)) buf)) as Hsend.
  { intros sent tr Hs Ha. apply ec_bind_call; [done|]. intros n [Hn1 Hn2]. rewrite length_drop in Hn2. apply ec_ret.
    rewrite i32_small by lia. split; [lia|]. split; [lia|]. rewrite accepted_snoc. cbn [accept_step]. rewrite Ha.
    apply (prefix_grows _ _ _ _ (length buf)); [|lia|rewrite length_drop; lia].
    symmetry. apply take_ge. rewrite length_drop. lia. }
  eapply ec_bind; [apply (Hsend 0%Z []); [lia|reflexivity]|]. intros tr n (Hn & Hle & Ha).
  destruct (Z.eqb_spec n 0) as [->|Hne]; [apply ec_ret; by split; [lia|]|].
  eapply (ec_bind _ _ _ _ _ (λ tr '(ret, sent),
    (-1 ≤ ret)%Z ∧ (0 ≤ sent ≤ Z.of_nat (length buf))%Z ∧ accepted tr = take (Z.to_nat sent) buf)).
  - apply (ec_loop _ _ (λ '(ret, sent) tr,
      (-1 ≤ ret)%Z ∧ (0 ≤ sent ≤ Z.of_nat (length buf))%Z ∧ accepted tr = take (Z.to_nat sent) buf)).
    { split; [done|]. destruct (Z.ltb_spec 0 n); rewrite Ha; split; [lia|f_equal; lia|lia|f_equal; lia]. }
    clear tr n Hn Hle Ha Hne. intros [ret sent] tr (Hr & Hs & Ha). unfold nsend_turn.
    destruct (sent <? Z.of_nat (length buf))%Z; [|by apply ec_ret].
    eapply ec_bind; [by apply (Hsend sent)|]. clear tr Ha. intros tr n (Hn & Hle & Ha).
    destruct (Z.leb_spec n 0) as [Hn0|Hn0].
    + rewrite Z.max_l, Z.add_0_r in Ha by lia. apply ec_bind_call; [done|]. intros e _.
      destruct (e =? EAGAIN)%Z; apply ec_ret; rewrite accepted_snoc; exact (conj Hn (conj Hs Ha)).
    + rewrite Z.max_r in Ha by lia. apply ec_ret. split; [lia|]. split; [lia|done].
  - intros tr' [ret sent] (Hr & Hs & Ha'). apply ec_ret. destruct (Z.leb_spec ret 0) as [Hr0|Hr0]; cbn [andb].
    + destruct (Z.eqb_spec sent 0) as [->|_]; [|by split; [lia|]]. split; [lia|]. rewrite Ha'. f_equal. lia.
    + by split; [lia|].
Qed.

(** While the peer takes nothing [nsend] does not wait: it calls [send] again at once, without
    end. *)
Definition full (A : Type) (e : apiE A) : A → Prop :=
  match e with
  | api_sys s => match s in sysE A return A → Prop with sys_send _ _ _ => λ n, n = (-1)%Z | _ => λ _, True end
  | api_errno => λ e, e = EAGAIN
  | _ => λ _, True
  end.
Definition only_sends (fd : Z) (tr : list acall) (A : Type) (e : apiE A) : Prop :=
  match e with api_sys (sys_send f _ _) => f = fd | api_errno => True | _ => False end.
Theorem nsend_busy_waits fd buf flags : buf ≠ [] →
  every_call (only_sends fd) full (nsend fd buf flags) [] (λ _ _, False).
Proof.
  intros Hb. unfold nsend, send. eapply (ec_bind _ _ _ _ _ (λ _ r, r = (-1)%Z)).
  { apply ec_bind_call; [done|]. intros n ->. by apply ec_ret. }
  intros tr n ->. cbn [Z.eqb Z.ltb Z.compare]. eapply (ec_bind _ _ _ _ _ (λ _ _, False)); [|done].
  apply (ec_loop _ _ (λ '(_, sent) _, sent = 0%Z)); [done|]. clear tr. intros [ret sent] tr ->. unfold nsend_turn.
  rewrite (proj2 (Z.ltb_lt _ _)) by (destruct buf; [done|simpl; lia]).
  eapply (ec_bind _ _ _ _ _ (λ _ r, r = (-1)%Z)).
  { apply ec_bind_call; [done|]. intros n ->. by apply ec_ret. }
  intros tr' n ->. cbn [Z.leb Z.compare]. apply ec_bind_call; [done|]. intros e ->.
  rewrite Z.eqb_refl. by apply ec_ret.
Qed.
End nsend.

(** ** The count of a process *)

Section count.
Context `{OS}.
Variables self_id cpu_size : Z.
Hypothesis pid : (0 ≤ self_id)%Z.
Hypothesis cpus : (0 < cpu_size ≤ Z.of_nat TOTALFDS)%Z.
Local Abbreviation mine := (totalfds (Httpd.slot self_id cpu_size)).

(** The results of the receives to come, and the segment, which nobody else changes. *)
Definition quiet (client : Z) (A : Type) (e : apiE A) : list Z * list byte → A * (list Z * list byte) :=
  match e in apiE A return list Z * list byte → A * (list Z * list byte) with
  | api_shm o => λ '(l, seg), match shm_run o seg with Ok (z, seg') => (z, (l, seg')) | Err _ => (0%Z, (l, seg)) end
  | api_sys s =>
      match s in sysE A return list Z * list byte → A * (list Z * list byte) with
      | sys_accept _ => λ st, ((client, []), st)
      | sys_recv _ _ _ => λ '(l, seg), match l with n :: l => ((n, []), (l, seg)) | [] => ((0%Z, []), ([], seg)) end
      | sys_send _ data _ => λ st, (Z.of_nat (length data), st)
      | s => λ st, (no_sys s, st)
      end
  | e => λ st, (no_answer e, st)
  end.

(** A free lock, and the count. *)
Definition counted (v : Z) (seg : list byte) : Prop :=
  accept_mtx + 8 ≤ length seg ∧ word_at accept_mtx 8 seg = 0%Z ∧ word_at mine 4 seg = (v mod 2 ^ 32)%Z.

Lemma mine_below : mine + 4 ≤ accept_mtx.
Proof.
  pose proof (slot_range self_id cpu_size pid cpus). unfold totalfds, Httpd.totalfds, accept_mtx, Httpd.accept_mtx, TOTALFDS, Httpd.TOTALFDS in *. lia.
Qed.

(** Adding to the count. *)
Lemma added d v l seg client : counted v seg → ∃ seg', counted (v + d) seg' ∧
  yields (quiet client) (call (api_shm (ShmAdd mine d))) (l, seg) 0%Z (l, seg').
Proof.
  intros (Hl & H0 & Hv). pose proof mine_below as Hm.
  destruct (wrn_at seg mine (le_bytes 4 (le_val (take 4 (drop mine seg)) + d))) as (seg' & E & Hlen & _);
    [rewrite length_le_bytes; lia|].
  exists seg'. split.
  - split; [lia|]. split.
    + rewrite <- H0. eapply word_at_apart; [|right; rewrite length_le_bytes; exact Hm|exact E].
      rewrite length_le_bytes. lia.
    + pose proof (word_at_wrn mine (le_bytes 4 (le_val (take 4 (drop mine seg)) + d)) seg seg') as Hw.
      rewrite length_le_bytes, le_val_bytes in Hw. rewrite Hw by (done || lia).
      change (256 ^ Z.of_nat 4)%Z with (2 ^ 32)%Z. fold (word_at mine 4 seg). rewrite Hv. by rewrite Zplus_mod_idemp_l.
  - apply yields_call. cbn [quiet shm_run]. rewrite rdn_ok by lia. cbn [mbind res_bind]. rewrite E. reflexivity.
Qed.

Lemma incremented v l seg client : counted v seg → ∃ seg', counted (v + 1) seg' ∧
  yields (quiet client) (INC_COUNTFD self_id cpu_size) (l, seg) tt (l, seg').
Proof.
  intros Hc. destruct (added 1 v l seg client Hc) as (seg' & Hc' & Hy). exists seg'. split; [done|].
  do 2 (eapply yields_bind; [|apply yields_ret]). exact Hy.
Qed.
Lemma decremented v l seg client : counted v seg → ∃ seg', counted (v - 1) seg' ∧
  yields (quiet client) (DEC_COUNTFD self_id cpu_size) (l, seg) tt (l, seg').
Proof.
  intros Hc. destruct (added (-1) v l seg client Hc) as (seg' & Hc' & Hy). exists seg'. split; [done|].
  do 2 (eapply yields_bind; [|apply yields_ret]). exact Hy.
Qed.

(** Taking the lock and giving it back leaves the segment as it was counted. *)
Lemma locked_unlocked v l seg client : counted v seg → ∃ seg1 seg2, counted v seg2 ∧
  yields (quiet client) lock (l, seg) 0%Z (l, seg1) ∧ yields (quiet client) unlock (l, seg1) tt (l, seg2).
Proof.
  intros (Hl & H0 & Hv). pose proof mine_below as Hm.
  destruct (wrn_at seg accept_mtx (le_bytes 8 1)) as (seg1 & E1 & Hl1 & _); [by rewrite length_le_bytes|].
  destruct (wrn_at seg1 accept_mtx (le_bytes 4 0)) as (seg2 & E2 & Hl2 & _); [rewrite length_le_bytes; lia|].
  assert (word_at accept_mtx 8 seg1 = 1%Z) as H1.
  { pose proof (word_at_wrn accept_mtx (le_bytes 8 1) seg seg1) as Hw. rewrite length_le_bytes in Hw.
    rewrite Hw by done. by vm_compute. }
  exists seg1, seg2. split; [split; [lia|split]|split].
  - apply (unlock_word accept_mtx seg1 seg2); [lia|done|done].
  - rewrite <- Hv. transitivity (word_at mine 4 seg1).
    + eapply word_at_apart; [|left; exact Hm|exact E2]. rewrite length_le_bytes. lia.
    + eapply word_at_apart; [|left; exact Hm|exact E1]. by rewrite length_le_bytes.
  - eapply yields_bind; [apply yields_call; cbn [quiet shm_run]; rewrite rdn_ok by done; cbn [mbind res_bind];
      change (le_val (take 8 (drop Httpd.accept_mtx seg))) with (word_at accept_mtx 8 seg); rewrite H0;
      change (0 =? 0 mod 256 ^ Z.of_nat 8)%Z with true; change (wrn seg Httpd.accept_mtx) with (wrn seg accept_mtx); rewrite E1; reflexivity|].
    apply yields_ret.
  - eapply yields_bind; [|apply yields_ret]. apply yields_call. cbn [quiet shm_run].
    change (wrn seg1 Httpd.accept_mtx) with (wrn seg1 accept_mtx). rewrite E2. reflexivity.
Qed.

(** The events of a connection: a request, room for its answer, and the end. *)
Local Abbreviation readable client := (EpollEvent EPOLLIN client).
Local Abbreviation writable client := (EpollEvent EPOLLOUT client).
Local Abbreviation handles fd epfd client ev st st' :=
  (yields (quiet client) (handle_event self_id cpu_size fd epfd ev) st false st').

Lemma accepted_event fd epfd client v l seg : (0 ≤ client)%Z → counted v seg →
  ∃ seg', counted (v + 1) seg' ∧ handles fd epfd client (readable fd) (l, seg) (l, seg').
Proof.
  intros Hcl Hc. destruct (locked_unlocked v l seg client Hc) as (s1 & s2 & Hc2 & Hy1 & Hy2).
  destruct (incremented v l s2 client Hc2) as (s3 & Hc3 & Hy3). exists s3. split; [done|].
  unfold handle_event. cbn [ev_fd]. rewrite Z.eqb_refl. unfold accept_event.
  eapply yields_bind; [exact Hy1|]. cbn [Z.eqb negb]. eapply yields_bind; [by apply yields_call|].
  eapply yields_bind; [exact Hy2|]. rewrite (proj2 (Z.ltb_ge _ _)) by done.
  eapply yields_bind; [exact Hy3|]. eapply yields_bind.
  { eapply yields_bind; [by apply yields_call|]. apply yields_ret. }
  eapply yields_bind; [by apply yields_call|]. eapply yields_bind; [by apply yields_call|]. apply yields_ret.
Qed.

Lemma request_event fd epfd client l seg : client ≠ fd →
  handles fd epfd client (readable client) (100%Z :: l, seg) (l, seg).
Proof using Type.
  clear pid cpus. intros Hne. unfold handle_event. cbn [ev_fd ev_events]. rewrite (proj2 (Z.eqb_neq _ _)) by done.
  eapply yields_bind; [|apply yields_ret]. unfold client_event.
  change (negb (Z.land EPOLLIN EPOLLIN =? 0)%Z) with true. cbv iota.
  eapply yields_bind; [eapply yields_bind; [by apply yields_call|]; apply yields_ret|].
  eapply yields_bind; [by apply yields_call|]. apply yields_ret.
Qed.

Lemma answer_event fd epfd client v l seg : client ≠ fd → counted v seg →
  ∃ seg', counted (v - 1) seg' ∧ handles fd epfd client (writable client) (l, seg) (l, seg').
Proof.
  intros Hne Hc. destruct (decremented v l seg client Hc) as (s & Hs & Hy). exists s. split; [done|].
  unfold handle_event. cbn [ev_fd ev_events]. rewrite (proj2 (Z.eqb_neq _ _)) by done. destruct page_ok as (page & E & H0).
  eapply yields_bind; [|apply yields_ret]. unfold client_event.
  change (negb (Z.land EPOLLOUT EPOLLIN =? 0)%Z) with false. change (negb (Z.land EPOLLOUT EPOLLOUT =? 0)%Z) with true.
  cbv iota. eapply yields_bind.
  { eapply yields_bind; [apply yields_pure, E|]. eapply yields_bind; [by apply yields_pure, strlen_nul|].
    eapply yields_bind; [eapply yields_bind; [by apply yields_call|]; apply yields_ret|]. apply yields_ret. }
  eapply yields_bind; [by apply yields_call|]. exact Hy.
Qed.

Lemma close_event fd epfd client v l seg : client ≠ fd → counted v seg →
  ∃ seg', counted (v - 1) seg' ∧ handles fd epfd client (readable client) (0%Z :: l, seg) (l, seg').
Proof.
  intros Hne Hc. destruct (decremented v l seg client Hc) as (s & Hs & Hy). exists s. split; [done|].
  unfold handle_event. cbn [ev_fd ev_events]. rewrite (proj2 (Z.eqb_neq _ _)) by done.
  eapply yields_bind; [|apply yields_ret]. unfold client_event.
  change (negb (Z.land EPOLLIN EPOLLIN =? 0)%Z) with true. cbv iota. eapply yields_bind.
  { eapply yields_bind; [by apply yields_call|]. cbv zeta. change (u64 0 =? 2 ^ 64 - 1)%Z with false.
    change (u64 0 =? 0)%Z with true. cbv iota. unfold drop_client.
    eapply yields_bind; [by apply yields_call|]. eapply yields_bind; [by apply yields_call|]. exact Hy. }
  eapply yields_bind; [by apply yields_call|]. apply yields_ret.
Qed.

Lemma handled fd epfd client ev events st st1 st2 : handles fd epfd client ev st st1 →
  yields (quiet client) (handle_events self_id cpu_size fd epfd events) st1 false st2 →
  yields (quiet client) (handle_events self_id cpu_size fd epfd (ev :: events)) st false st2.
Proof using Type. clear pid cpus. intros Hev Hevs. cbn [handle_events]. eapply yields_bind; [exact Hev|exact Hevs]. Qed.

(** A connection that sends [k] requests and closes. *)
Definition connection (fd client : Z) (k : nat) : list epoll_event :=
  readable fd :: concat (replicate k [readable client; writable client]) ++ [readable client].

(** The count of a process goes up by one when a connection is accepted, but down by one for
    every answer and once more when the connection closes: a connection that made [k]
    requests leaves the count [k] too low. *)
Theorem requests_counted_down fd epfd client k v seg :
  client ≠ fd → (0 ≤ client)%Z → counted v seg →
  ∃ seg', counted (v - Z.of_nat k) seg' ∧
    yields (quiet client) (handle_events self_id cpu_size fd epfd (connection fd client k))
      (replicate k 100%Z ++ [0%Z], seg) false ([], seg').
Proof.
  intros Hne Hcl Hc. unfold connection.
  destruct (accepted_event fd epfd client v (replicate k 100%Z ++ [0%Z]) seg Hcl Hc) as (s & Hs & Hy).
  assert (∃ seg', counted (v - Z.of_nat k) seg' ∧
    yields (quiet client) (handle_events self_id cpu_size fd epfd
      (concat (replicate k [readable client; writable client]) ++ [readable client]))
      (replicate k 100%Z ++ [0%Z], s) false ([], seg')) as (seg' & Hc' & Hy').
  - clear Hy Hc seg. revert v s Hs. induction k as [|k IH]; intros v s Hs.
    + destruct (close_event fd epfd client (v + 1) [] s Hne Hs) as (s4 & Hc4 & Hy4). exists s4.
      split; [by replace (v - Z.of_nat 0)%Z with (v + 1 - 1)%Z by lia|].
      eapply handled; [exact Hy4|]. apply yields_ret.
    + destruct (answer_event fd epfd client (v + 1) (replicate k 100%Z ++ [0%Z]) s Hne Hs) as (s4 & Hc4 & Hy4).
      destruct (IH (v - 1)%Z s4) as (seg' & Hc' & Hy'); [by replace (v - 1 + 1)%Z with (v + 1 - 1)%Z by lia|].
      exists seg'. split; [by replace (v - Z.of_nat (S k))%Z with (v - 1 - Z.of_nat k)%Z by lia|].
      eapply handled; [by apply request_event|]. eapply handled; [exact Hy4|exact Hy'].
  - exists seg'. split; [done|]. eapply handled; [exact Hy|exact Hy'].
Qed.
End count.

(** ** Witnesses *)

Lemma epoll_accept_exclusive_witness :
  ∃ w th, rtc (wstep (λ self, epoll_code self 4)) (start 4 [100; 101]%Z 3) w ∧
    w_threads w !! 0 = Some th ∧ accepting th ∧ (0 = 0 ∧ word_at accept_mtx 8 (w_seg w) = 1%Z).
Proof.
  eassert (rtc (wstep (λ self, epoll_code self 4)) (start 4 [100; 101]%Z 3) _) as Hsteps.
  { eapply rtc_l; [eapply (step_call _ _ _ 0 _ _ _ _ 5%Z); [reflexivity|next_event|exact I]|].
    eapply rtc_l; [eapply (step_call _ _ _ 0 _ _ _ _ 0%Z); [reflexivity|next_event|exact I]|].
    eapply rtc_l; [eapply (step_call _ _ _ 0 _ _ _ _ (1, [EpollEvent EPOLLIN 3])%Z); [reflexivity|next_event|exact I]|].
    eapply rtc_l; [eapply (step_shm _ _ _ 0); [reflexivity|next_event|vm_compute; reflexivity]|].
    apply rtc_refl. }
  eexists _, _. split; [exact Hsteps|]. split; [reflexivity|].
  eassert (accepting _) as Hacc; [|split; [exact Hacc|]].
  { right. eexists 3%Z, _. next_event. }
  eapply (epoll_accept_exclusive 4 [100; 101]%Z 3 _ _ _ Hsteps 0 0);
    [reflexivity|reflexivity|exact Hacc|exact Hacc].
Unshelve. all: [> vm_compute; split; [reflexivity|discriminate] | repeat constructor; lia].
Defined.

Lemma nsend_exactly_prefix_witness :
  every_call (λ _ _ _, True) sends (nsend 7 (lit "hello") 0) []
    (λ tr r, (-1 ≤ r ≤ 5)%Z ∧ accepted tr = take (Z.to_nat r) (lit "hello")).
Proof. apply (nsend_exactly_prefix 7 (lit "hello") 0). vm_compute. reflexivity. Defined.

Lemma nsend_busy_waits_witness :
  every_call (only_sends 7) full (nsend 7 (lit "hello") 0) [] (λ _ _, False).
Proof. apply nsend_busy_waits. discriminate. Defined.

Lemma requests_counted_down_witness :
  ∃ seg', counted 0 4 (0 - Z.of_nat 2) seg' ∧
    yields (quiet 7) (handle_events 0 4 3 5 (connection 3 7 2))
      (replicate 2 100%Z ++ [0%Z], init_shmvalue) false ([], seg').
Proof.
  apply (requests_counted_down 0 4); [lia|vm_compute; split; [reflexivity|discriminate]|lia|lia|].
  split; [vm_compute; lia|]. split; vm_compute; reflexivity.
Defined.
