(* ===== verification/Processes.v ===== *)
(** How the servers of several processes come to be: their [main] functions open a socket, map
    a segment of shared memory, fork, and let each process run its server.

    A [main] is a program over [mainE]: the calls of Client.v, those that set processes
    up, and [m_run], from which on a process runs a function of Client.v's programs. [pstep]
    interleaves all of them: the processes that are still in [main] and the threads of
    SharedMemory.v, on one segment. What holds of the threads from the start on is lifted to
    runs from the call of [main] on by [boot_invariant]; how many processes there can be
    follows from a weight of each ([weight_bound]). *)

From S2P Require Export SharedMemory.

Section mains.
Context `{OS}.

Inductive mainE : Type → Type :=
  | m_api {A} (e : apiE A) : mainE A
  | m_sysconf : mainE Z                        (* sysconf(_SC_NPROCESSORS_CONF) *)
  | m_shmget (size : nat) : mainE Z            (* shmget(IPC_PRIVATE, size, IPC_CREAT|0600) *)
  | m_shmat (shmid : Z) : mainE Z              (* the address, -1 for a failure *)
  | m_fork : mainE Z
  | m_gettid : mainE Z
  | m_setaffinity (pid cpu : Z) : mainE Z
  | m_usleep (usec : Z) : mainE Z
  | m_getchar : mainE Z
  | m_run (cpu_size self func arg : Z) : mainE unit.

Abbreviation mcall := (event mainE).

(** A function over the calls of Client.v, called by [main]. *)
Definition lib {A} (m : cl A) : prg mainE A := translate (λ A e, m_api e) m.

(** ** All processes *)

(** The processors of the machine, and what a process runs in the end: as in SharedMemory.v,
    with the number of processors the process has found. *)
Variable cpus : Z.
Variable code : Z → Z → Z → Z → itree apiE unit.

(** A process in [main]: what is left of it, its calls, its identity. *)
Record proc : Type := Proc {
  pr_prog : itree mainE unit;
  pr_calls : list mcall;
  pr_self : Z;
}.
Record pworld : Type := PWorld { p_procs : list proc; p_world : world }.

Definition goes_on {A} (p : proc) (t : itree mainE unit) (e : mainE A) (x : A) : proc :=
  Proc t (pr_calls p ++ [ACall e x]) (pr_self p).

(** Calls that concern no other process, and what they answer: anything, but the number of
    processors and the identity of the process are what they are. *)
Definition answered (self : Z) {A} (e : mainE A) : A → Prop :=
  match e in mainE A return A → Prop with
  | m_api e => λ _, private e
  | m_sysconf => λ x, x = cpus
  | m_gettid => λ x, x = self
  | m_shmat _ => λ x, x = (-1)%Z
  | m_fork => λ x, x = (-1)%Z
  | m_run _ _ _ _ => λ _, False
  | _ => λ _, True
  end.

(** The size of a page: what [shmget] rounds the size of the segment up to. *)
Definition shm_page : nat := 4096.

Inductive pstep : pworld → pworld → Prop :=
  | p_tau ps w i p t :
      ps !! i = Some p → observe (pr_prog p) = TauF t →
      pstep (PWorld ps w) (PWorld (<[i := Proc t (pr_calls p) (pr_self p)]> ps) w)
  | p_call ps w i p A (e : mainE A) k x :
      ps !! i = Some p → observe (pr_prog p) = VisF e k → answered (pr_self p) e x →
      pstep (PWorld ps w) (PWorld (<[i := goes_on p (k x) e x]> ps) w)
  | p_attach ps w i p shmid k x :
      (* a new segment, of zeros *)
      ps !! i = Some p → observe (pr_prog p) = VisF (m_shmat shmid) k → x ≠ (-1)%Z →
      w_seg w = [] →
      pstep (PWorld ps w)
        (PWorld (<[i := goes_on p (k x) (m_shmat shmid) x]> ps)
           (World (w_threads w) (replicate shm_page x00)))
  | p_shm ps w i p o k x seg' :
      ps !! i = Some p → observe (pr_prog p) = VisF (m_api (api_shm o)) k →
      shm_run o (w_seg w) = Ok (x, seg') →
      pstep (PWorld ps w)
        (PWorld (<[i := goes_on p (k x) (m_api (api_shm o)) x]> ps) (World (w_threads w) seg'))
  | p_fork ps w i p k pid :
      (* the child goes on as the parent does, with the result 0 *)
      ps !! i = Some p → observe (pr_prog p) = VisF m_fork k →
      (0 < pid)%Z → Forall (λ q, pr_self q ≠ pid) ps →
      pstep (PWorld ps w)
        (PWorld (<[i := goes_on p (k pid) m_fork pid]> ps ++
                 [Proc (k 0%Z) (pr_calls p ++ [ACall m_fork 0%Z]) pid]) w)
  | p_run ps w i p cpu self func arg k :
      ps !! i = Some p → observe (pr_prog p) = VisF (m_run cpu self func arg) k →
      pstep (PWorld ps w)
        (PWorld (<[i := goes_on p (k tt) (m_run cpu self func arg) tt]> ps)
           (World (w_threads w ++ [spawn (code cpu) self func arg]) (w_seg w)))
  | p_threads ps w w' : wstep (code cpus) w w' → pstep (PWorld ps w) (PWorld ps w').

(** The machine when [main] is called, in the process [pid]. *)
Definition boot (main : prg mainE unit) (pid : Z) : pworld :=
  PWorld [Proc (coroutine main) [] pid] (World [] []).
End mains.
Arguments mainE {_}.

(** ** What holds of all runs of a [main] *)

Section invariants.
Context `{OS}.
Variable cpus : Z.
Variable code : Z → Z → Z → Z → itree apiE unit.

(** Processes are numbered from 0 on, and all see the same number of processors. *)
Definition boot_answers (A : Type) (e : mainE A) : A → Prop :=
  match e in mainE A return A → Prop with
  | m_sysconf => λ x, x = cpus
  | m_gettid => λ x, (0 ≤ x)%Z
  | _ => λ _, True
  end.

(** The calls a process makes in [main]. *)
Variable allowed : list (event mainE) → ∀ A, mainE A → Prop.
Definition pkeeps (p : proc) : Prop :=
  (0 ≤ pr_self p)%Z ∧ every_tree allowed boot_answers (pr_prog p) (pr_calls p) (λ _ _, True).

Lemma pkeeps_tau p t : pkeeps p → observe (pr_prog p) = TauF t →
  pkeeps (Proc t (pr_calls p) (pr_self p)).
Proof.
  intros [Hs Ht] E. split; [done|]. apply every_tree_step in Ht. by rewrite E in Ht.
Qed.

Lemma pkeeps_call p A (e : mainE A) k : pkeeps p → observe (pr_prog p) = VisF e k →
  allowed (pr_calls p) A e ∧
  ∀ x self, boot_answers A e x → (0 ≤ self)%Z → pkeeps (Proc (k x) (pr_calls p ++ [ACall e x]) self).
Proof.
  intros [Hs Ht] E. apply every_tree_step in Ht. rewrite E in Ht. destruct Ht as [He Hk].
  split; [done|]. intros x self Hx Hself. split; [done|]. by apply Hk.
Qed.

Lemma answered_boot self A (e : mainE A) x : (0 ≤ self)%Z → answered cpus self e x → boot_answers A e x.
Proof. intros Hs Hx. destruct e; cbn in *; try done. by subst. Qed.

Lemma pkeeps_goes_on p A (e : mainE A) k x : pkeeps p → observe (pr_prog p) = VisF e k →
  boot_answers A e x → pkeeps (goes_on p (k x) e x).
Proof. intros Hp E Hx. destruct (pkeeps_call _ _ _ _ Hp E) as [_ Hk]. apply Hk; [done|apply Hp]. Qed.

Lemma pkeeps_pstep pw pw' : Forall pkeeps (p_procs pw) → pstep cpus code pw pw' →
  Forall pkeeps (p_procs pw').
Proof.
  intros Hall Hstep. pose proof (proj1 (Forall_lookup _ _) Hall) as Hp.
  destruct Hstep as [ps w i p t Hi E|ps w i p A e k x Hi E Hx|ps w i p sz k x Hi E|ps w i p o k x seg' Hi E
    |ps w i p k pid Hi E Hpid|ps w i p cpu self func arg k Hi E|]; cbn [p_procs] in *; try done;
    specialize (Hp i p Hi); try (apply Forall_insert; [done|]).
  - by apply pkeeps_tau.
  - apply pkeeps_goes_on; [done..|]. eapply answered_boot; [apply Hp|done].
  - by apply pkeeps_goes_on.
  - by apply pkeeps_goes_on.
  - apply Forall_app. split; [apply Forall_insert; [done|]; by apply pkeeps_goes_on|].
    constructor; [|done]. destruct (pkeeps_call _ _ _ _ Hp E) as [_ Hk]. by apply Hk; [|lia].
  - by apply pkeeps_goes_on.
Qed.

Variable main : prg mainE unit.
Hypothesis main_allowed : every_call allowed boot_answers main [] (λ _ _, True).

Lemma boot_pkeeps pid : (0 ≤ pid)%Z → Forall pkeeps (p_procs (boot main pid)).
Proof.
  intros Hp. repeat constructor; [done|]. by eapply coroutine_runs.
Qed.

(** *** What the threads keep *)

(** A process that has neither forked nor begun to serve. *)
Definition alone_step (b : bool) (c : event mainE) : bool :=
  match c with ACall e _ => match e with m_fork | m_run _ _ _ _ => false | _ => b end end.
Definition alone (tr : list (event mainE)) : bool := foldl alone_step true tr.

Lemma alone_snoc tr c : alone (tr ++ [c]) = alone_step (alone tr) c.
Proof. unfold alone. by rewrite foldl_app. Qed.

Lemma alone_same tr A (e : mainE A) x :
  match e with m_fork | m_run _ _ _ _ => False | _ => True end → alone (tr ++ [ACall e x]) = alone tr.
Proof. rewrite alone_snoc. by destruct e. Qed.
Lemma alone_leaves tr A (e : mainE A) x :
  match e with m_fork | m_run _ _ _ _ => True | _ => False end → alone (tr ++ [ACall e x]) = false.
Proof. rewrite alone_snoc. by destruct e. Qed.

(** What a call does to the segment. *)
Definition effect {A} (e : mainE A) (x : A) (seg seg' : list byte) : Prop :=
  match e in mainE A return A → Prop with
  | m_api a =>
      match a in apiE A return A → Prop with
      | api_shm o => λ x, shm_run o seg = Ok (x, seg')
      | _ => λ _, seg' = seg
      end
  | m_shmat _ => λ x, (x = (-1)%Z ∧ seg' = seg) ∨ (x ≠ (-1)%Z ∧ seg = [] ∧ seg' = replicate shm_page x00)
  | _ => λ _, seg' = seg
  end x.
Definition touches {A} (e : mainE A) : bool :=
  match e with m_api (api_shm _) | m_shmat _ => true | _ => false end.

(** [I]: what the threads keep; [setup tr]: what the only process, having made the calls [tr],
    has made of the segment. It may touch the segment only as long as it is alone. *)
Variables (I : world → Prop) (setup : list (event mainE) → list byte → Prop).
Definition boot_protocol (tr : list (event mainE)) (A : Type) (e : mainE A) : Prop :=
  (touches e = true → alone tr = true) ∧
  match e with
  | m_fork => alone tr = true → ∀ seg, setup tr seg → I (World [] seg)
  | m_run cpu self _ _ => cpu = cpus ∧ (0 ≤ self)%Z ∧
      (alone tr = true → ∀ seg, setup tr seg → I (World [] seg))
  | _ => alone tr = true → ∀ x seg seg', boot_answers A e x → setup tr seg → effect e x seg seg' →
      setup (tr ++ [ACall e x]) seg'
  end.

Hypothesis allowed_boot : ∀ tr A e, allowed tr A e → boot_protocol tr A e.
Hypothesis setup_first : setup [] [].
Hypothesis I_step : ∀ w w', I w → wstep (code cpus) w w' → I w'.
Hypothesis I_spawn : ∀ w self func arg, I w → (0 ≤ self)%Z →
  I (World (w_threads w ++ [spawn (code cpus) self func arg]) (w_seg w)).

(** Either the only process sets the segment up, or every process has forked or serves, and
    the threads keep [I]. *)
Definition booted (pw : pworld) : Prop :=
  (∃ p seg, pw = PWorld [p] (World [] seg) ∧ alone (pr_calls p) = true ∧ setup (pr_calls p) seg) ∨
  (Forall (λ p, alone (pr_calls p) = false) (p_procs pw) ∧ I (p_world pw)).

Lemma wstep_thread w w' : wstep (code cpus) w w' → w_threads w ≠ [].
Proof. by destruct 1 as [[|]|[|]|[|]|[|]]. Qed.

(** A call of one process that starts none. *)
Lemma booted_call ps w i p A (e : mainE A) k x seg' :
  booted (PWorld ps w) → Forall pkeeps ps → ps !! i = Some p →
  observe (pr_prog p) = VisF e k → boot_answers A e x →
  effect e x (w_seg w) seg' → (touches e = false → seg' = w_seg w) →
  match e with m_fork | m_run _ _ _ _ => False | _ => True end →
  booted (PWorld (<[i := goes_on p (k x) e x]> ps) (World (w_threads w) seg')).
Proof.
  intros Hb Hall Hi E Hx Heff Hsame He.
  destruct (pkeeps_call p A e k (proj1 (Forall_lookup _ _) Hall _ _ Hi) E) as [Hal _].
  apply allowed_boot in Hal as [Htouch Hset].
  destruct Hb as [(q & seg & [= -> ->] & Hq & Hs)|[Hq HI]].
  - destruct i; [|done]. simplify_eq/=. left. eexists _, seg'. split; [done|].
    cbn [goes_on pr_calls]. rewrite alone_same by done. split; [done|].
    destruct e; try done; by eapply Hset.
  - right. cbn [p_procs p_world] in *. split.
    + apply Forall_insert; [done|]. cbn [goes_on pr_calls]. rewrite alone_same by done.
      by apply (proj1 (Forall_lookup _ _) Hq _ _ Hi).
    + destruct (touches e); [|by rewrite Hsame by done; destruct w].
      pose proof (proj1 (Forall_lookup _ _) Hq _ _ Hi) as Hqi. cbn in Hqi. by rewrite Htouch in Hqi.
Qed.

(** The processes behind a fork or the beginning of a server. *)
Lemma booted_leaves ps w i p A (e : mainE A) k :
  booted (PWorld ps w) → Forall pkeeps ps → ps !! i = Some p → observe (pr_prog p) = VisF e k →
  match e with m_fork | m_run _ _ _ _ => True | _ => False end →
  I w ∧ ∀ x t, Forall (λ p, alone (pr_calls p) = false) (<[i := goes_on p t e x]> ps).
Proof.
  intros Hb Hall Hi E He.
  destruct (pkeeps_call p A e k (proj1 (Forall_lookup _ _) Hall _ _ Hi) E) as [Hal _].
  apply allowed_boot in Hal as [_ Hset].
  assert (∀ x t, alone (pr_calls (goes_on p t e x)) = false) as Hno.
  { intros x t. by apply alone_leaves. }
  destruct Hb as [(q & seg & [= -> ->] & Hq & Hs)|[Hq HI]].
  - destruct i; [|done]. simplify_eq/=. split; [destruct e; try done; by apply Hset|].
    intros x t. constructor; [exact (Hno x t)|done].
  - split; [done|]. intros x t. apply Forall_insert; [done|apply Hno].
Qed.

Lemma booted_step pw pw' : booted pw → Forall pkeeps (p_procs pw) → pstep cpus code pw pw' → booted pw'.
Proof.
  intros Hb Hall Hstep.
  destruct Hstep as [ps w i p t Hi E|ps w i p A e k x Hi E Hx|ps w i p sz k x Hi E Hx Hseg
    |ps w i p o k x seg' Hi E Hrun|ps w i p k pid Hi E Hpid|ps w i p cpu self func arg k Hi E|ps w w' Hw];
    cbn [p_procs] in Hall.
  - destruct Hb as [(q & seg & [= -> ->] & Hq & Hs)|[Hq HI]].
    + destruct i; [|done]. simplify_eq/=. left. by eexists _, seg.
    + right. split; [|done]. cbn [p_procs] in *. apply Forall_insert; [done|].
      by apply (proj1 (Forall_lookup _ _) Hq _ _ Hi).
  - pose proof (proj1 (Forall_lookup _ _) Hall _ _ Hi) as Hp.
    assert (boot_answers A e x) as Ha by (eapply answered_boot; [apply Hp|done]).
    destruct (match e with m_fork | m_run _ _ _ _ => true | _ => false end) eqn:Ef.
    { destruct (booted_leaves _ _ _ _ _ _ _ Hb Hall Hi E) as [HI Hno]; [by destruct e|].
      right. split; [apply Hno|done]. }
    destruct w as [ths seg].
    apply (booted_call ps (World ths seg) i p A e k x seg); [done..| |done|by destruct e].
    destruct e as [B e| | | | | | | | |]; cbn in Hx |- *; try done; [by destruct e|left; by rewrite Hx].
  - eapply booted_call; [done..| | |done]; [|done]. by right.
  - by eapply booted_call.
  - destruct (booted_leaves _ _ _ _ _ _ _ Hb Hall Hi E Logic.I) as [HI Hno]. right. split; [|done].
    cbn [p_procs]. apply Forall_app. split; [apply Hno|]. constructor; [|done].
    by apply alone_leaves.
  - destruct (booted_leaves _ _ _ _ _ _ _ Hb Hall Hi E Logic.I) as [HI Hno]. right. split; [apply Hno|].
    destruct (pkeeps_call p _ _ k (proj1 (Forall_lookup _ _) Hall _ _ Hi) E) as [Hal _].
    apply allowed_boot in Hal as [_ (-> & Hself & _)]. by apply I_spawn.
  - destruct Hb as [(q & seg & [= -> ->] & _)|[Hq HI]]; [by apply wstep_thread in Hw|].
    right. split; [done|]. by eapply I_step.
Qed.

(** In every run of [main], the threads keep [I] once there are any; before that the segment
    is as the process has set it up so far. *)
Lemma boot_invariant pid pw : (0 ≤ pid)%Z → rtc (pstep cpus code) (boot main pid) pw →
  (∃ tr seg, p_world pw = World [] seg ∧ setup tr seg) ∨ I (p_world pw).
Proof.
  intros Hpid Hsteps.
  assert (booted pw ∧ Forall pkeeps (p_procs pw)) as [Hb _].
  { revert pw Hsteps. apply (rtc_ind_r (λ pw, booted pw ∧ Forall pkeeps (p_procs pw))).
    - split; [|by apply boot_pkeeps]. left. eexists _, []. split; [done|]. by split.
    - intros pw1 pw2 _ Hst [Hb Hk]. split; [by eapply booted_step|by eapply pkeeps_pstep]. }
  destruct Hb as [(q & seg & -> & _ & Hs)|[_ HI]]; [left; by eexists _, seg|by right].
Qed.
End invariants.

(** *** How many processes there are *)

Section counting.
Context `{OS}.
Variable cpus : Z.
Variable code : Z → Z → Z → Z → itree apiE unit.
Variable allowed : list (event mainE) → ∀ A, mainE A → Prop.

(** A fork shares the weight of a process with the child; no other call adds to it. *)
Variable weight : list (event mainE) → Z.
Definition spends (tr : list (event mainE)) (A : Type) (e : mainE A) : Prop :=
  match e with
  | m_fork =>
      (∀ pid, 0 < pid → weight (tr ++ [ACall m_fork pid]) + weight (tr ++ [ACall m_fork 0]) ≤ weight tr) ∧
      weight (tr ++ [ACall m_fork (-1)]) ≤ weight tr
  | _ => ∀ x, weight (tr ++ [ACall e x]) ≤ weight tr
  end%Z.
Hypothesis allowed_spends : ∀ tr A e, allowed tr A e → spends tr A e.

Local Abbreviation weigh := (total_of (λ p, weight (pr_calls p))).

Lemma weigh_goes_on ps i p A (e : mainE A) t x : ps !! i = Some p →
  (weight (pr_calls p ++ [ACall e x]) ≤ weight (pr_calls p))%Z →
  (weigh (<[i := goes_on p t e x]> ps) ≤ weigh ps)%Z.
Proof. intros Hi Hw. rewrite (total_of_insert _ _ _ _ _ Hi). cbn [goes_on pr_calls]. lia. Qed.

Lemma weigh_step pw pw' : Forall (pkeeps cpus allowed) (p_procs pw) → pstep cpus code pw pw' →
  (weigh (p_procs pw') ≤ weigh (p_procs pw))%Z.
Proof.
  intros Hall Hstep. pose proof (proj1 (Forall_lookup _ _) Hall) as Hp.
  assert (∀ i p A (e : mainE A) k, p_procs pw !! i = Some p → observe (pr_prog p) = VisF e k →
    spends (pr_calls p) A e) as Hsp.
  { intros i p A e k Hi E. apply allowed_spends. by eapply pkeeps_call; [apply (Hp i)|]. }
  destruct Hstep as [ps w i p t Hi E|ps w i p A e k x Hi E Hx|ps w i p sz k x Hi E Hx Hseg
    |ps w i p o k x seg' Hi E Hrun|ps w i p k pid Hi E Hpid|ps w i p cpu self func arg k Hi E|ps w w' Hw];
    cbn [p_procs] in *; try (apply weigh_goes_on; [done|]; by apply (Hsp _ _ _ _ _ Hi E)).
  - rewrite (total_of_insert _ _ _ _ _ Hi). cbn [pr_calls]. lia.
  - apply weigh_goes_on; [done|]. specialize (Hsp _ _ _ _ _ Hi E).
    destruct e; cbn in Hx; try done; [apply Hsp..|]. subst. apply Hsp.
  - rewrite total_of_app, (total_of_insert _ _ _ _ _ Hi). cbn [total_of foldr goes_on pr_calls].
    pose proof (proj1 (Hsp _ _ _ _ _ Hi E) pid Hpid). lia.
  - done.
Qed.

Variable main : prg mainE unit.
Hypothesis main_allowed : every_call allowed (boot_answers cpus) main [] (λ _ _, True).

(** All processes together never weigh more than the first one did. *)
Lemma weight_bound pid pw : (0 ≤ pid)%Z → rtc (pstep cpus code) (boot main pid) pw →
  (weigh (p_procs pw) ≤ weight [])%Z.
Proof.
  intros Hpid Hsteps.
  assert ((weigh (p_procs pw) ≤ weight [])%Z ∧ Forall (pkeeps cpus allowed) (p_procs pw)) as [Hb _]; [|done].
  revert pw Hsteps. apply rtc_ind_r.
  - split; [cbn; lia|by apply boot_pkeeps].
  - intros pw1 pw2 _ Hst [Hb Hk]. split; [|by eapply pkeeps_pstep].
    etransitivity; [by apply weigh_step|done].
Qed.

Lemma total_of_le {A} (f g : A → Z) l : (∀ x, f x ≤ g x)%Z → (total_of f l ≤ total_of g l)%Z.
Proof using Type. intros Hfg. induction l as [|x l IH]; simpl; [done|]. specialize (Hfg x). lia. Qed.

(** What is at most the weight of each process is bounded in the sum. *)
Lemma bounded_by_weight (f : list (event mainE) → Z) pid pw :
  (∀ tr, f tr ≤ weight tr)%Z → (0 ≤ pid)%Z → rtc (pstep cpus code) (boot main pid) pw →
  (total_of (λ p, f (pr_calls p)) (p_procs pw) ≤ weight [])%Z.
Proof.
  intros Hf Hpid Hsteps. etransitivity; [|by eapply weight_bound].
  apply total_of_le. intros p. apply Hf.
Qed.
End counting.

(** ** The history of a process *)

Section life.
Context `{OS}.

Inductive role : Type := Parent | Child | Forkless.

(** How many times a process and those it comes from have forked, whether it came from the
    last fork or the last fork failed, and how many servers it has begun to run. *)
Record life : Type := Life { l_forks : Z; l_role : role; l_runs : Z }.
Definition life_step (l : life) (c : event mainE) : life :=
  match c with
  | ACall e r =>
      match e in mainE A return A → life with
      | m_fork => λ pid, Life (l_forks l + 1)
          (if (pid =? 0)%Z then Child else if (pid <? 0)%Z then Forkless else l_role l) (l_runs l)
      | m_run _ _ _ _ => λ _, Life (l_forks l) (l_role l) (l_runs l + 1)
      | _ => λ _, l
      end r
  end.
Definition life_of (tr : list (event mainE)) : life := foldl life_step (Life 0 Parent 0) tr.

Lemma life_snoc tr c : life_of (tr ++ [c]) = life_step (life_of tr) c.
Proof. unfold life_of. by rewrite foldl_app. Qed.

(** The servers that all processes have begun to run. *)
Definition servers (pw : pworld) : Z := total_of (λ p, l_runs (life_of (pr_calls p))) (p_procs pw).
Definition processes (pw : pworld) : Z := Z.of_nat (length (p_procs pw)).

Lemma processes_total pw : processes pw = total_of (λ _, 1%Z) (p_procs pw).
Proof. unfold processes. induction (p_procs pw) as [|p ps IH]; simpl; lia. Qed.

(** Calls that are neither forks nor the beginning of a server leave it as it is. *)
Definition ordinary {A} (e : mainE A) : Prop :=
  match e with m_fork | m_run _ _ _ _ => False | _ => True end.
Lemma life_ordinary tr A (e : mainE A) x : ordinary e → life_of (tr ++ [ACall e x]) = life_of tr.
Proof. rewrite life_snoc. by destruct e. Qed.

Lemma spends_ordinary (weight : life → Z) tr A (e : mainE A) : ordinary e →
  spends (λ tr, weight (life_of tr)) tr A e.
Proof. intros Hq. destruct e; try done; cbn; intros x; by rewrite life_ordinary. Qed.
End life.

(** *** Functions of the library in [main] *)

Section library.
Context `{OS}.
Variables (allowed : list (event mainE) → ∀ A, mainE A → Prop) (answers : ∀ A, mainE A → A → Prop).
(** [J] holds before and after every call that [harmless] allows. *)
Variables (harmless : ∀ A, apiE A → Prop) (J : list (event mainE) → Prop).
Hypothesis harmless_allowed : ∀ tr A (e : apiE A), J tr → harmless A e → allowed tr A (m_api e).
Hypothesis harmless_keeps : ∀ tr A (e : apiE A) x, J tr → harmless A e → J (tr ++ [ACall (m_api e) x]).

Lemma every_tree_lib {A} (t : itree apiE A) tr0 tr (Q : A → Prop) :
  every_tree (λ _, harmless) (λ _ _ _, True) t tr0 (λ _, Q) → J tr →
  every_tree allowed answers (translate (λ A e, m_api e) t) tr (λ tr x, J tr ∧ Q x).
Proof.
  intros Ht HJ n. specialize (Ht n). revert t tr0 tr Ht HJ; induction n as [|n IH]; intros t tr0 tr Ht HJ; [done|].
  cbn [call_upto] in *. unfold observe at 1. cbn.
  destruct (observe t) as [r|t'|X e k]; cbn; [done|by eapply IH|].
  destruct Ht as [He Hk]. split; [by apply harmless_allowed|]. intros x _.
  eapply IH; [by apply Hk|by apply harmless_keeps].
Qed.

Lemma ec_lib {A} (m : cl A) tr :
  every_call (λ _, harmless) (λ _ _ _, True) m [] (λ _ _, True) → J tr →
  every_call allowed answers (lib m) tr (λ tr _, J tr).
Proof.
  intros Hm HJ. unfold every_call in *.
  assert (every_tree (λ _, harmless) (λ _ _ _, True) m [] (λ _ r, match r with Ok _ => True | Err _ => False end)) as Hm'.
  { intros n. eapply call_upto_conseq; [|apply Hm]. by intros ? []. }
  intros n. eapply call_upto_conseq; [|by eapply every_tree_lib]. by intros tr' [x|e] [? ?].
Qed.
End library.
