(* ===== verification/Mains.v ===== *)
(** The [main] functions of the servers of several processes, up to where each process runs
    its server: ntyco_httpd.c, nty_http_epoll.c, nty_server_mulcore.c and
    nty_http_server_mulcore.c in src/sample.

    [init_shmvalue] ends without a return statement when it succeeds; [fell_off] is the value
    its caller then finds. The processes answer from within [m_run]; what they run is
    the code of Httpd.v, HttpEpoll.v, ServerMulcore.v and HttpMulcore.v. *)

From S2P Require Export Processes Httpd ServerMulcore HttpMulcore HttpEpoll.

Section common.
Context `{OS}.

(** [shmget], [shmat] and what is done with a segment that could be attached. *)
Definition attach_shm (size : nat) (fill : prg mainE Z) : prg mainE Z :=
  shmid ← call (m_shmget size);
  if (shmid <? 0)%Z then mret (-1)%Z else
  shmaddr ← call (m_shmat shmid);
  if (shmaddr =? -1)%Z then mret (-1)%Z else fill.

Definition shm_write (off size : nat) (v : Z) : prg mainE unit :=
  call (m_api (api_shm (ShmWrite off size v)));; mret tt.

(** [for (i = 0; i < num; i ++) { pid = fork(); if (pid <= 0) { usleep(1); break; } }]: the
    last [pid]. *)
Definition fork_loop (num : Z) : prg mainE Z :=
  cl_loop (λ '(i, pid),
    if (i <? num)%Z then
      pid ← call m_fork;
      if (pid <=? 0)%Z then call (m_usleep 1);; mret (inr pid)
      else mret (inl (i + 1, pid)%Z)
    else mret (inr pid)) (0, 0)%Z.

(** [self_id % num], undefined for no processors. *)
Definition c_rem (a b : Z) : res Z := if (b =? 0)%Z then Err Undefined else Ok (Z.rem a b).

(** The beginning of every [process_bind]: the process binds itself to a processor. *)
Definition bind_processor : prg mainE Z :=
  num ← call m_sysconf;
  self_id ← call m_gettid;
  cpu ← pure (c_rem self_id num);
  call (m_setaffinity 0 cpu);;
  mret self_id.
End common.

Module HttpdMain.
Section main.
Context `{OS}.
Variables (sin_zero : list byte) (fell_off : Z).

Definition init_shmvalue : prg mainE Z :=
  attach_shm 84 (
    shm_write (Httpd.totalfds 0) (4 * Httpd.TOTALFDS) 0;;
    shm_write (Httpd.cpu_lb 0) Httpd.TOTALFDS 0;;
    shm_write Httpd.accept_mtx 4 0;;
    mret fell_off).

Definition process_bind (cpu_size fd : Z) : prg mainE unit :=
  self_id ← bind_processor;
  call (m_run cpu_size self_id Httpd.fn_server fd).

Definition main : prg mainE unit :=
  fd ← lib (Httpd.listen_socket sin_zero);
  match fd with
  | None => mret tt
  | Some fd =>
      num ← call m_sysconf;
      init_shmvalue;;
      pid ← fork_loop num;
      if (0 <? pid)%Z then call m_getchar;; mret tt
      else if (pid =? 0)%Z then process_bind num fd
      else mret tt
  end.
End main.
End HttpdMain.

Module HttpEpollMain.
Section main.
Context `{OS}.
Variables (sin_zero : list byte) (fell_off : Z).

(** The same text as in ntyco_httpd.c. *)
Definition init_shmvalue : prg mainE Z := HttpdMain.init_shmvalue fell_off.

(** The process runs [server] itself. *)
Definition process_bind (cpu_size fd : Z) : prg mainE unit :=
  self_id ← bind_processor;
  call (m_run cpu_size self_id 0 fd).

Definition main : prg mainE unit :=
  fd ← lib (HttpEpoll.listen_socket sin_zero);
  match fd with
  | None => mret tt
  | Some fd =>
      num ← call m_sysconf;
      init_shmvalue;;
      pid ← fork_loop num;
      if (0 <? pid)%Z then call m_getchar;; mret tt
      else if (pid =? 0)%Z then process_bind num fd
      else mret tt
  end.
End main.
End HttpEpollMain.

Module ServerMulcoreMain.
Section main.
Context `{OS}.
Variable fell_off : Z.

(** [gettimeofday] writes into the segment. *)
Definition init_shmvalue : prg mainE Z :=
  attach_shm 24 (
    shm_write ServerMulcore.total 4 0;;
    tv ← call (m_api (api_sys sys_gettimeofday));
    shm_write ServerMulcore.tv_begin 8 tv.1;;
    shm_write (ServerMulcore.tv_begin + 8) 8 tv.2;;
    mret fell_off).

(** There is no global number of processors: [m_run] gets the one of this process. *)
Definition process_bind : prg mainE unit :=
  num ← call m_sysconf;
  self_id ← call m_gettid;
  cpu ← pure (c_rem self_id num);
  call (m_setaffinity 0 cpu);;
  let '(func, arg) := ServerMulcore.process_bind in
  call (m_run num self_id func arg).

Definition main : prg mainE unit :=
  ret ← init_shmvalue;
  if (ret =? -1)%Z then mret tt else
  call m_fork;;
  call m_fork;;
  process_bind.
End main.
End ServerMulcoreMain.

Module HttpMulcoreMain.
Section main.
Context `{OS}.
Variable fell_off : Z.

(** [init_shmvalue] and [process_bind] have the same text as in nty_server_mulcore.c, on a
    segment of the same layout. *)
Definition init_shmvalue : prg mainE Z := ServerMulcoreMain.init_shmvalue fell_off.
Definition process_bind : prg mainE unit := ServerMulcoreMain.process_bind.

Definition main : prg mainE unit :=
  ret ← init_shmvalue;
  if (ret =? -1)%Z then mret tt else
  num ← call m_sysconf;
  pid ← fork_loop num;
  if (0 <? pid)%Z then call m_getchar;; mret tt
  else if (pid =? 0)%Z then process_bind
  else mret tt.
End main.
End HttpMulcoreMain.
