(* ===== verification/MainsProps.v ===== *)
(** What is proved of the servers of several processes from the call of [main] on: how many
    processes there come to be, and that what the threads keep (one accepts at a time; the
    integer counts the connections) holds in all runs, whatever is forked when, and also when
    there is no segment. *)

From S2P Require Export Mains HttpdProps ServerMulcoreProps HttpEpollProps.

Local Open Scope Z_scope.

(** ** The protocol of a [main] *)

Section boots.
Context `{OS}.
Variable cpus : Z.
Hypothesis cpus_pos : 0 < cpus.
(** What the threads keep, and what the segment may be before there are any. *)
Variables (I : world → Prop) (setup : list byte → Prop).
Hypothesis setup_none : setup [].
Hypothesis setup_attach : setup (replicate shm_page x00).
Hypothesis setup_I : ∀ seg, setup seg → I (World [] seg).
(** The weights of a process by which processes and servers are counted. *)
Variables (wP wS : life → Z).

Definition boots (tr : list (event mainE)) (A : Type) (e : mainE A) : Prop :=
  boot_protocol cpus I (λ _, setup) tr A e ∧
  spends (λ tr, wP (life_of tr)) tr A e ∧ spends (λ tr, wS (life_of tr)) tr A e.

Local Abbreviation books m tr Q := (every_call boots (boot_answers cpus) m tr Q).

(** A process is alone as long as it has neither forked nor served. *)
Lemma alone_life tr :
  0 ≤ l_forks (life_of tr) ∧ 0 ≤ l_runs (life_of tr) ∧
  alone tr = (l_forks (life_of tr) =? 0) && (l_runs (life_of tr) =? 0).
Proof using Type.
  induction tr as [|[A e x] tr (Hf & Hr & IH)] using rev_ind; [done|].
  rewrite life_snoc. unfold alone in *. rewrite foldl_app. cbn [foldl alone_step life_step]. rewrite IH.
  destruct e; cbn [l_forks l_runs]; try done; (split_and!; [lia|lia|]); symmetry; apply andb_false_iff;
    [left|right]; apply Z.eqb_neq; lia.
Qed.

Lemma alone_first tr : life_of tr = Life 0 Parent 0 → alone tr = true.
Proof using Type. intros E. destruct (alone_life tr) as (_ & _ & ->). by rewrite E. Qed.
Lemma not_alone tr : l_forks (life_of tr) ≠ 0 ∨ l_runs (life_of tr) ≠ 0 → alone tr = false.
Proof using Type.
  intros Hne. destruct (alone_life tr) as (_ & _ & ->).
  apply andb_false_iff. rewrite !Z.eqb_neq. tauto.
Qed.

Lemma boots_ordinary tr A (e : mainE A) :
  ordinary e → (touches e = true → alone tr = true) →
  (∀ x seg seg', setup seg → effect e x seg seg' → setup seg') → boots tr A e.
Proof using Type.
  intros Hq Ht Hs. split; [|split; by apply spends_ordinary]. split; [done|].
  destruct e; try (by destruct Hq); intros _ x seg seg' _; by apply Hs.
Qed.

(** A call that concerns neither the segment nor other processes. *)
Lemma books_plain {A} (e : mainE A) l tr : ordinary e → touches e = false → life_of tr = l →
  books (call e) tr (λ tr x, life_of tr = l ∧ boot_answers cpus A e x).
Proof using Type.
  intros Hq Ht El. apply ec_call; [|intros x Hx; by rewrite life_ordinary].
  apply boots_ordinary; [done|by rewrite Ht|]. intros x seg seg' Hs Heff.
  assert (seg' = seg) as ->; [|done]. destruct e; try done. by destruct e.
Qed.

(** Functions of the library that do not touch the segment. *)
Definition harmless (A : Type) (e : apiE A) : Prop := match e with api_shm _ => False | _ => True end.
Lemma books_lib {A} (m : cl A) l tr :
  every_call (λ _, harmless) (λ _ _ _, True) m [] (λ _ _, True) → life_of tr = l →
  books (lib m) tr (λ tr _, life_of tr = l).
Proof using Type.
  intros Hm Hl. apply (ec_lib _ _ harmless (λ tr, life_of tr = l)); [..|done|done].
  - intros tr' B e E He. apply boots_ordinary; [done|by destruct e|]. intros x seg seg' Hs.
    destruct e; cbn; try done; by intros ->.
  - intros tr' B e x E _. by rewrite life_ordinary.
Qed.

(** Setting up the segment. *)
Lemma books_write off size v tr : life_of tr = Life 0 Parent 0 →
  (∀ x seg seg', setup seg → shm_run (ShmWrite off size v) seg = Ok (x, seg') → setup seg') →
  books (shm_write off size v) tr (λ tr _, life_of tr = Life 0 Parent 0).
Proof using Type.
  intros El Hs. apply ec_bind_call; [|intros x _; apply ec_ret; by rewrite life_ordinary].
  apply boots_ordinary; [done|intros _; by apply alone_first|done].
Qed.

Lemma books_attach size fill tr : life_of tr = Life 0 Parent 0 →
  (∀ tr, life_of tr = Life 0 Parent 0 → books fill tr (λ tr _, life_of tr = Life 0 Parent 0)) →
  books (attach_shm size fill) tr (λ tr _, life_of tr = Life 0 Parent 0).
Proof using setup_attach.
  intros El Hfill. unfold attach_shm.
  eapply ec_bind; [by apply books_plain|]. intros tr1 shmid [E1 _].
  destruct (shmid <? 0); [by apply ec_ret|].
  apply ec_bind_call.
  - apply boots_ordinary; [done|intros _; by apply alone_first|].
    intros x seg seg' Hs [[_ ->]|(_ & _ & ->)]; done.
  - intros x _. destruct (x =? -1); [apply ec_ret; by rewrite life_ordinary|].
    apply Hfill. by rewrite life_ordinary.
Qed.

Lemma books_bind_processor l tr : life_of tr = l →
  books bind_processor tr (λ tr self, life_of tr = l ∧ 0 ≤ self).
Proof using cpus_pos.
  intros El. unfold bind_processor.
  eapply ec_bind; [by apply books_plain|]. intros tr1 num [E1 Hnum].
  eapply ec_bind; [by apply books_plain|]. intros tr2 self [E2 Hself].
  cbn in Hnum, Hself. subst num. eapply ec_bind_pure.
  { unfold c_rem. by rewrite (proj2 (Z.eqb_neq cpus 0)) by lia. }
  eapply ec_bind; [by apply books_plain|]. intros tr3 ? [E3 _]. by apply ec_ret.
Qed.

(** A fork and the beginning of a server, which the weights allow. *)
Lemma boots_fork tr f r n : life_of tr = Life f r n →
  (∀ w, w = wP ∨ w = wS →
    w (Life (f + 1) r n) + w (Life (f + 1) Child n) ≤ w (Life f r n) ∧
    w (Life (f + 1) Forkless n) ≤ w (Life f r n)) →
  boots tr Z m_fork.
Proof using setup_I.
  intros El Hw. split; [split; [done|intros _; by apply setup_I]|].
  assert (∀ w, w = wP ∨ w = wS → spends (λ tr, w (life_of tr)) tr Z m_fork) as Hsp; [|auto].
  intros w Hin. specialize (Hw w Hin) as [H1 H2].
  cbn [spends]. split; [intros pid Hpid|]; rewrite !life_snoc, El; cbn [life_step l_forks l_role l_runs].
  - rewrite (proj2 (Z.eqb_neq pid 0)), (proj2 (Z.ltb_ge pid 0)) by lia. exact H1.
  - exact H2.
Qed.

Lemma boots_run tr f r n cpu self func arg : life_of tr = Life f r n →
  cpu = cpus → 0 ≤ self → (∀ w, w = wP ∨ w = wS → w (Life f r (n + 1)) ≤ w (Life f r n)) →
  boots tr unit (m_run cpu self func arg).
Proof using setup_I.
  intros El -> Hs Hw. split; [split; [done|]; split_and!; [done|done|intros _; by apply setup_I]|].
  split; cbn [spends]; intros x; rewrite life_snoc, El; apply Hw; auto.
Qed.
End boots.

(** ** Workers: every child serves, the parent does not *)

Section workers.
Context `{OS}.
Variable cpus : Z.
Hypothesis cpus_pos : 0 < cpus.
Variables (I : world → Prop) (setup : list byte → Prop).
Hypothesis setup_I : ∀ seg, setup seg → I (World [] seg).

Definition worker_processes (l : life) : Z :=
  match l_role l with Parent => 1 + Z.max 0 (cpus - l_forks l) | _ => 1 end.
Definition worker_servers (l : life) : Z :=
  match l_role l with
  | Parent => Z.max 0 (cpus - l_forks l) + l_runs l
  | Child => Z.max 1 (l_runs l)
  | Forkless => l_runs l
  end.

Local Abbreviation books m tr Q :=
  (every_call (boots cpus I setup worker_processes worker_servers) (boot_answers cpus) m tr Q).

(** After the loop: a child, or a parent. *)
Lemma books_fork_loop tr : life_of tr = Life 0 Parent 0 →
  books (fork_loop cpus) tr (λ tr pid, ∃ f r, life_of tr = Life f r 0 ∧ 0 < f ∧ (pid = 0 → r = Child)).
Proof.
  intros El.
  apply (ec_loop _ _ (λ (s : Z * Z) tr, 0 ≤ s.1 ≤ cpus ∧ life_of tr = Life s.1 Parent 0 ∧ (s.1 = 0 ∨ 0 < s.2))).
  { cbn. split_and!; [lia|lia|done|by left]. }
  clear tr El. intros [i pid] tr (Hi & El & Hpid). cbn [fst snd] in *.
  destruct (i <? cpus) eqn:E; [apply Z.ltb_lt in E|apply Z.ltb_ge in E].
  - apply ec_bind_call.
    + eapply boots_fork; [done..|]. intros w [-> | ->]; unfold worker_processes, worker_servers; cbn; lia.
    + intros x _. pose proof (life_snoc tr (ACall m_fork x)) as E1. rewrite El in E1.
      cbn [life_step l_forks l_role l_runs] in E1.
      destruct (x <=? 0) eqn:Ex; [apply Z.leb_le in Ex|apply Z.leb_gt in Ex].
      * eapply ec_bind; [by apply books_plain|]. intros tr2 ? [E2 _]. apply ec_ret.
        rewrite ?E1 in E2. eexists _, _. split; [exact E2|]. split; [lia|]. by intros ->.
      * apply ec_ret. cbn [fst snd]. rewrite E1, (proj2 (Z.eqb_neq x 0)), (proj2 (Z.ltb_ge x 0)) by lia.
        split_and!; [lia|lia|done|by right].
  - apply ec_ret. eexists _, _. split; [exact El|]. split; [lia|]. intros ->. lia.
Qed.

(** What is done with its result in all three programs. *)
Lemma books_workers (bind : prg mainE unit) tr :
  life_of tr = Life 0 Parent 0 →
  (∀ tr f, life_of tr = Life f Child 0 → 0 < f → books bind tr (λ _ _, True)) →
  books (pid ← fork_loop cpus;
         if 0 <? pid then call m_getchar;; mret tt
         else if pid =? 0 then bind else mret tt) tr (λ _ _, True).
Proof.
  intros El Hbind. eapply ec_bind; [by apply books_fork_loop|]. intros tr1 pid (f & r & E1 & Hf & Hr).
  destruct (0 <? pid) eqn:E; [|destruct (pid =? 0) eqn:E0; [|by apply ec_ret]].
  - eapply ec_bind; [by apply books_plain|]. intros. by apply ec_ret.
  - apply Z.eqb_eq in E0. rewrite Hr in E1 by done. by eapply Hbind.
Qed.

Lemma boots_worker tr f cpu self func arg : life_of tr = Life f Child 0 → cpu = cpus → 0 ≤ self →
  boots cpus I setup worker_processes worker_servers tr unit (m_run cpu self func arg).
Proof.
  intros El Hc Hs. eapply boots_run; [done..|]. intros w [-> | ->]; unfold worker_processes, worker_servers; cbn; lia.
Qed.

(** At most one process and one server for each processor, and the parent. *)
Lemma workers_bounded code main pid pw :
  books main [] (λ _ _, True) → 0 ≤ pid → rtc (pstep cpus code) (boot main pid) pw →
  processes pw ≤ cpus + 1 ∧ servers pw ≤ cpus.
Proof.
  intros Hmain Hpid Hsteps. split.
  - rewrite processes_total. etransitivity.
    + eapply (bounded_by_weight cpus code _ (λ tr, worker_processes (life_of tr))
        (λ tr A e Hal, proj1 (proj2 Hal)) _ Hmain (λ _, 1)); [|done|done].
      intros tr. unfold worker_processes. destruct (l_role _); lia.
    + unfold worker_processes. cbn. lia.
  - etransitivity.
    + eapply (bounded_by_weight cpus code _ (λ tr, worker_servers (life_of tr))
        (λ tr A e Hal, proj2 (proj2 Hal)) _ Hmain (λ tr, l_runs (life_of tr))); [|done|done].
      intros tr. unfold worker_servers. destruct (l_role _); lia.
    + unfold worker_servers. cbn. lia.
Qed.
End workers.

(** ** The four programs *)

Lemma le_bytes_zero n : le_bytes n 0 = replicate n x00.
Proof. induction n as [|n IH]; [done|]. cbn [le_bytes replicate]. change (0 / 256) with 0. by rewrite IH. Qed.

(** The segment while it is being set up: none, or one that satisfies [P]. *)
Definition segment_of (P : list byte → Prop) (seg : list byte) : Prop :=
  seg = [] ∨ (length seg = shm_page ∧ P seg).

Lemma segment_write (P : list byte → Prop) off size v x seg seg' :
  (∀ seg seg', length seg = shm_page → P seg → wrn seg off (le_bytes size v) = Ok seg' → P seg') →
  segment_of P seg → shm_run (ShmWrite off size v) seg = Ok (x, seg') → segment_of P seg'.
Proof.
  intros HP Hs Hrun. cbn in Hrun. destruct (wrn seg off _) as [s|] eqn:E; [|done].
  cbn in Hrun. simplify_eq. pose proof (length_wrn _ _ _ _ E) as Hl.
  destruct Hs as [-> |[Hlen HPs]]; [left; by apply nil_length_inv|right]. split; [lia|]. by eapply HP.
Qed.

(** Writing zeros to zeros. *)
Definition zeros (seg : list byte) : Prop := seg = replicate (length seg) x00.
Lemma zeros_write off size seg seg' : zeros seg → wrn seg off (le_bytes size 0) = Ok seg' → zeros seg'.
Proof.
  unfold zeros, wrn. rewrite le_bytes_zero, length_replicate. case_decide as Hd; [|done]. intros E [= <-].
  rewrite E at 1 2. rewrite take_replicate, drop_replicate, <- !replicate_add. f_equal.
  rewrite !length_app, length_take, length_replicate, length_drop. lia.
Qed.

Section httpd.
Context `{OS}.
Variables (cpus : Z) (sin_zero : list byte) (fell_off : Z).
Hypothesis cpus_pos : 0 < cpus.
Variables (I : world → Prop).
Hypothesis I_zeros : ∀ seg, segment_of zeros seg → I (World [] seg).

Local Abbreviation books m tr Q :=
  (every_call (boots cpus I (segment_of zeros) (worker_processes cpus) (worker_servers cpus))
     (boot_answers cpus) m tr Q).

Lemma segment_page : segment_of zeros (replicate shm_page x00).
Proof. right. split; [by rewrite length_replicate|]. unfold zeros. by rewrite length_replicate. Qed.

Lemma books_init_zeros tr : life_of tr = Life 0 Parent 0 →
  books (HttpdMain.init_shmvalue fell_off) tr (λ tr _, life_of tr = Life 0 Parent 0).
Proof.
  intros El. apply books_attach; [exact segment_page|done|]. clear tr El. intros tr El.
  assert (∀ off size tr, life_of tr = Life 0 Parent 0 →
    books (shm_write off size 0) tr (λ tr _, life_of tr = Life 0 Parent 0)) as Hw.
  { intros off size tr' E. apply books_write; [done|]. intros x seg seg'. apply segment_write.
    intros s s' _. apply zeros_write. }
  do 3 (eapply ec_bind; [by apply Hw|]; clear tr El; intros tr ? El). by apply ec_ret.
Qed.

Lemma httpd_main_books : books (HttpdMain.main sin_zero fell_off) [] (λ _ _, True).
Proof.
  unfold HttpdMain.main. eapply (ec_bind _ _ _ _ _ (λ tr _, life_of tr = Life 0 Parent 0)).
  { apply books_lib; [|done]. unfold Httpd.listen_socket. apply ec_bind_call; [done|]. intros fd _.
    destruct (fd <? 0); [by apply ec_ret|].
    do 2 (apply ec_bind_call; [done|]; intros ? _). by apply ec_ret. }
  intros tr [fd|] El; [|by apply ec_ret].
  eapply ec_bind; [by apply books_plain|]. intros tr1 num [E1 Hnum]. cbn in Hnum. subst num.
  eapply ec_bind; [by apply books_init_zeros|]. intros tr2 ? E2.
  apply books_workers; [done..|]. intros tr3 f E3 Hf. unfold HttpdMain.process_bind.
  eapply ec_bind; [by apply books_bind_processor|]. intros tr4 self [E4 Hself].
  apply ec_call; [|done]. by eapply boots_worker.
Qed.

Lemma epoll_main_books : books (HttpEpollMain.main sin_zero fell_off) [] (λ _ _, True).
Proof.
  unfold HttpEpollMain.main. eapply (ec_bind _ _ _ _ _ (λ tr _, life_of tr = Life 0 Parent 0)).
  { apply books_lib; [|done]. unfold HttpEpoll.listen_socket. apply ec_bind_call; [done|]. intros fd _.
    destruct (fd <? 0); [by apply ec_ret|].
    apply (ec_bind _ _ _ _ _ (λ _ _, True)).
    { apply ec_bind_call; [done|]. intros flags _. destruct (flags <? 0); [by apply ec_ret|].
      apply ec_bind_call; [done|]. intros r _. by apply ec_ret. }
    intros t1 ? _. apply (ec_bind _ _ _ _ _ (λ _ _, True)).
    { by apply ec_call. }
    intros t2 ? _. do 2 (apply ec_bind_call; [done|]; intros ? _). by apply ec_ret. }
  intros tr [fd|] El; [|by apply ec_ret].
  eapply ec_bind; [by apply books_plain|]. intros tr1 num [E1 Hnum]. cbn in Hnum. subst num.
  eapply ec_bind; [by apply books_init_zeros|]. intros tr2 ? E2.
  apply books_workers; [done..|]. intros tr3 f E3 Hf. unfold HttpEpollMain.process_bind.
  eapply ec_bind; [by apply books_bind_processor|]. intros tr4 self [E4 Hself].
  apply ec_call; [|done]. by eapply boots_worker.
Qed.
End httpd.

(** A call after which the process is as before. *)
Ltac plain_call El := eapply ec_bind; [apply books_plain; [done|done|exact El]|].

Section mulcore.
Context `{OS}.
Variables (cpus : Z) (fell_off : Z).
Hypothesis cpus_pos : 0 < cpus.
Variables (I : world → Prop).

(** The integer of nty_server_mulcore.c is zero. *)
Definition total_zero (seg : list byte) : Prop := take 8 seg = replicate 8 x00.
Hypothesis I_zero : ∀ seg, segment_of total_zero seg → I (World [] seg).

(** Each of the two forks doubles the processes. *)
Definition family_weight (l : life) : Z := 2 ^ Z.max 0 (2 - l_forks l) * Z.max 1 (l_runs l).

Section weights.
Variables wP wS : life → Z.
Local Abbreviation books m tr Q :=
  (every_call (boots cpus I (segment_of total_zero) wP wS) (boot_answers cpus) m tr Q).

Lemma total_zero_page : segment_of total_zero (replicate shm_page x00).
Proof using Type. right. by rewrite length_replicate. Qed.

Lemma total_zero_behind off size v seg seg' : (8 ≤ off)%nat → length seg = shm_page → total_zero seg →
  wrn seg off (le_bytes size v) = Ok seg' → total_zero seg'.
Proof using Type.
  unfold total_zero, wrn, shm_page. intros Ho Hl Hz. case_decide as Hd; [|done]. intros [= <-].
  rewrite take_app_le by (rewrite length_take; lia). rewrite take_take, Nat.min_l by done. exact Hz.
Qed.

Lemma total_zero_total seg seg' : length seg = shm_page → total_zero seg →
  wrn seg ServerMulcore.total (le_bytes 4 0) = Ok seg' → total_zero seg'.
Proof using Type.
  unfold total_zero, wrn, shm_page, ServerMulcore.total. intros Hl Hz. case_decide as Hd; [|done].
  intros [= <-]. change (le_bytes 4 0) with (replicate 4 x00). cbn [take app Nat.add length replicate].
  do 4 f_equal. assert (drop 4 (take 8 seg) = replicate 4 x00) as E by (by rewrite Hz).
  rewrite take_drop_commute. exact E.
Qed.

Lemma books_init_total tr : life_of tr = Life 0 Parent 0 →
  books (ServerMulcoreMain.init_shmvalue fell_off) tr (λ tr _, life_of tr = Life 0 Parent 0).
Proof using Type.
  intros El. apply books_attach; [exact total_zero_page|done|]. clear tr El. intros tr El.
  eapply ec_bind.
  { apply books_write; [done|]. intros x seg seg'. apply segment_write. apply total_zero_total. }
  clear tr El. intros tr [] El.
  plain_call El. clear tr El. intros tr tv [El _].
  do 2 (eapply ec_bind; [apply books_write; [done|]; intros ? ? ?; apply segment_write;
    intros ? ?; apply total_zero_behind; unfold ServerMulcore.tv_begin; lia|]; clear tr El; intros tr [] El).
  by apply ec_ret.
Qed.

Lemma books_mulcore_bind tr f r : life_of tr = Life f r 0 →
  (∀ w, w = wP ∨ w = wS → w (Life f r 1) ≤ w (Life f r 0)) →
  books ServerMulcoreMain.process_bind tr (λ _ _, True).
Proof.
  intros El Hw. unfold ServerMulcoreMain.process_bind.
  plain_call El. clear tr El. intros tr num [El Hnum].
  plain_call El. clear tr El. intros tr self [El Hself].
  cbn in Hnum, Hself. subst num. eapply ec_bind_pure.
  { unfold c_rem. by rewrite (proj2 (Z.eqb_neq cpus 0)) by lia. }
  plain_call El. clear tr El. intros tr ? [El _].
  apply ec_call; [|done]. by eapply boots_run.
Qed.
End weights.

Lemma mulcore_main_books :
  every_call (boots cpus I (segment_of total_zero) family_weight family_weight) (boot_answers cpus)
    (ServerMulcoreMain.main fell_off) [] (λ _ _, True).
Proof.
  unfold ServerMulcoreMain.main. eapply ec_bind; [by apply books_init_total|]. intros tr ret El.
  destruct (ret =? -1); [by apply ec_ret|].
  assert (∀ f r tr, life_of tr = Life f r 0 → (f = 0 ∨ f = 1) →
    boots cpus I (segment_of total_zero) family_weight family_weight tr Z m_fork) as Hfork.
  { intros f r tr' E Hf. eapply boots_fork; [exact I_zero|exact E|].
    destruct Hf as [-> | ->]; intros w [-> | ->]; split; by vm_compute. }
  assert (∀ f r tr x, life_of tr = Life f r 0 → ∃ r', life_of (tr ++ [ACall m_fork x]) = Life (f + 1) r' 0)
    as Hlife.
  { intros f r tr' x E. rewrite life_snoc, E. by eexists. }
  apply ec_bind_call; [by apply (Hfork 0 Parent); [|left]|]. intros x _. destruct (Hlife _ _ _ x El) as (r1 & E1).
  apply ec_bind_call; [by apply (Hfork 1 r1); [|right]|]. intros y _. destruct (Hlife _ _ _ y E1) as (r2 & E2).
  eapply books_mulcore_bind; [exact E2|]. by intros w [-> | ->].
Qed.

Lemma http_mulcore_main_books :
  every_call (boots cpus I (segment_of total_zero) (worker_processes cpus) (worker_servers cpus))
    (boot_answers cpus) (HttpMulcoreMain.main fell_off) [] (λ _ _, True).
Proof.
  unfold HttpMulcoreMain.main. eapply ec_bind; [by apply books_init_total|]. intros tr ret El.
  destruct (ret =? -1); [by apply ec_ret|].
  plain_call El. clear tr El. intros tr num [El Hnum]. cbn in Hnum. subst num.
  apply books_workers; [done..|]. intros tr3 f E3 Hf.
  eapply books_mulcore_bind; [exact E3|]. intros w [-> | ->]; unfold worker_processes, worker_servers; cbn; lia.
Qed.

Lemma family_bounded code main pid pw :
  every_call (boots cpus I (segment_of total_zero) family_weight family_weight) (boot_answers cpus)
    main [] (λ _ _, True) → 0 ≤ pid → rtc (pstep cpus code) (boot main pid) pw →
  processes pw ≤ 4 ∧ servers pw ≤ 4.
Proof using Type.
  intros Hmain Hpid Hsteps.
  assert (∀ l, 1 ≤ 2 ^ Z.max 0 (2 - l_forks l)) as Hpow.
  { intros l. pose proof (Z.pow_pos_nonneg 2 (Z.max 0 (2 - l_forks l))). lia. }
  assert (∀ f, (∀ tr, f tr ≤ family_weight (life_of tr)) →
    total_of (λ p, f (pr_calls p)) (p_procs pw) ≤ 4) as B.
  { intros f Hf. by apply (bounded_by_weight cpus code _ (λ tr, family_weight (life_of tr))
      (λ tr A e Hal, proj1 (proj2 Hal)) _ Hmain f pid). }
  split; [rewrite processes_total; apply (B (λ _, 1))|apply (B (λ tr, l_runs (life_of tr)))];
    intros tr; unfold family_weight; specialize (Hpow (life_of tr)); nia.
Qed.
End mulcore.

(** ** The properties *)

Section properties.
Context `{OS}.
Variables (cpus : Z) (sin_zero : list byte) (fell_off : Z).








(** C33: each of the three servers that fork in a loop has at most one process for each
    processor and one more, and at most one server for each processor; nty_server_mulcore.c
    has at most four of each. *)
Theorem main_process_bounds code pid pw :
  0 < cpus → 0 ≤ pid →
  (rtc (pstep cpus code) (boot (HttpdMain.main sin_zero fell_off) pid) pw ∨
   rtc (pstep cpus code) (boot (HttpEpollMain.main sin_zero fell_off) pid) pw ∨
   rtc (pstep cpus code) (boot (HttpMulcoreMain.main fell_off) pid) pw →
   processes pw ≤ cpus + 1 ∧ servers pw ≤ cpus) ∧
  (rtc (pstep cpus code) (boot (ServerMulcoreMain.main fell_off) pid) pw →
   processes pw ≤ 4 ∧ servers pw ≤ 4).
Proof.
  intros Hc Hpid. split; [intros [Hs|[Hs|Hs]]|intros Hs].
  - eapply (workers_bounded cpus Hc (λ _, True) (segment_of zeros)); [|exact Hpid|exact Hs].
    by apply httpd_main_books.
  - eapply (workers_bounded cpus Hc (λ _, True) (segment_of zeros)); [|exact Hpid|exact Hs].
    by apply epoll_main_books.
  - eapply (workers_bounded cpus Hc (λ _, True) (segment_of total_zero)); [|exact Hpid|exact Hs].
    by apply http_mulcore_main_books.
  - eapply (family_bounded cpus (λ _, True)); [|exact Hpid|exact Hs]. by apply mulcore_main_books.
Qed.

(** The value [init_shmvalue] does not return decides whether the server starts: if its caller
    happens to find -1, [main] ends although the segment is there, and nothing is forked. *)
Theorem missing_return_can_stop_server :
  every_call (λ _ A e, ordinary e) (λ _ _ _, True) (ServerMulcoreMain.main (-1)) [] (λ _ _, True).
Proof using Type.
  unfold ServerMulcoreMain.main. eapply (ec_bind _ _ _ _ _ (λ _ r, r = -1)).
  - apply ec_bind_call; [done|]. intros shmid _. destruct (shmid <? 0); [by apply ec_ret|].
    apply ec_bind_call; [done|]. intros a _. destruct (a =? -1); [by apply ec_ret|].
    assert (∀ off size v tr, every_call (λ _ A (e : mainE A), ordinary e) (λ _ _ _, True)
      (shm_write off size v) tr (λ _ _, True)) as Hw.
    { intros. apply ec_bind_call; [done|]. intros x _. by apply ec_ret. }
    eapply ec_bind; [apply Hw|]. intros ? ? _. apply ec_bind_call; [done|]. intros tv _.
    do 2 (eapply ec_bind; [apply Hw|]; intros ? ? _). by apply ec_ret.
  - intros tr r ->. by apply ec_ret.
Qed.
End properties.

(** ** Witnesses: runs from the call of [main] on *)

(** A step of the process [i] of [main], by what its next call is. *)
Ltac p_next i x := eapply rtc_l;
  [eapply (p_call _ _ _ _ i _ _ _ _ x); [reflexivity|next_event|first [exact Logic.I | reflexivity]]|].
Ltac p_attaches i := eapply rtc_l;
  [eapply (p_attach _ _ _ _ i _ _ _ 4096); [reflexivity|next_event|done|reflexivity]|].
Ltac p_writes i := eapply rtc_l;
  [eapply (p_shm _ _ _ _ i); [reflexivity|next_event|vm_compute; reflexivity]|].
Ltac p_forks i pid := eapply rtc_l;
  [eapply (p_fork _ _ _ _ i _ _ pid); [reflexivity|next_event|done|repeat constructor; discriminate]|].
Ltac p_starts i := eapply rtc_l; [eapply (p_run _ _ _ _ i); [reflexivity|next_event]|].

Ltac httpd_boots :=
  p_next 0%nat 3; p_next 0%nat 0; p_next 0%nat 0; p_next 0%nat 2; p_next 0%nat 7; p_attaches 0%nat;
  p_writes 0%nat; p_writes 0%nat; p_writes 0%nat; p_forks 0%nat 101;
  p_next 1%nat 0; p_next 1%nat 2; p_next 1%nat 101; p_next 1%nat 0; p_starts 1%nat.


Lemma main_process_bounds_witness :
  ∃ pw, rtc (pstep 2 (λ cpu self, Httpd.httpd_code self cpu)) (boot (HttpdMain.main [] 0) 100) pw ∧
    processes pw = 2 ∧ servers pw = 1 ∧ (processes pw ≤ 2 + 1 ∧ servers pw ≤ 2).
Proof.
  eassert (rtc (pstep 2 (λ cpu self, Httpd.httpd_code self cpu)) (boot (HttpdMain.main [] 0) 100) _) as Hsteps.
  { httpd_boots. apply rtc_refl. }
  eexists. split; [exact Hsteps|]. split; [reflexivity|]. split; [reflexivity|].
  apply (proj1 (main_process_bounds 2 [] 0 (λ cpu self, Httpd.httpd_code self cpu) 100 _ eq_refl ltac:(done))).
  left. exact Hsteps.
Defined.


