(* ===== verification/Bench.v ===== *)
(** The load generator src/sample/nty_bench.c: its options, the request it builds from a URL, the
    coroutines that send the request again and again and count the answers, and the report
    that the processes give to their parent.

    [getopt_long] and [inet_addr] are parameters, as is what uninitialised arrays hold. Of what
    is printed only the announcement of [main] is kept. *)

From S2P Require Export CString Client.

Module Bench.
Definition MAX_BUFFER_LENGTH : nat := 1024.
Definition REQUEST_SIZE : nat := 2048.
Definition MAXHOSTNAMELEN : nat := 64.
Definition METHOD_GET : Z := 0.
Definition METHOD_HEAD : Z := 1.
Definition METHOD_OPTIONS : Z := 2.
Definition METHOD_TRACE : Z := 3.
Definition INADDR_NONE : Z := 0xffffffff.
Definition SIGALRM : Z := 14.

(** ** Searching in strings *)

(** [strchr(s, c) - s] *)
Fixpoint strchr (s : list byte) (c : byte) : option nat :=
  match s with
  | [] => None
  | d :: s => if decide (d = c) then Some 0 else S <$> strchr s c
  end.
(** [strrchr(s, c) - s] *)
Fixpoint strrchr (s : list byte) (c : byte) : option nat :=
  match s with
  | [] => None
  | d :: s => match strrchr s c with Some i => Some (S i) | None => if decide (d = c) then Some 0 else None end
  end.
(** [strstr(s, p) - s] *)
Fixpoint strstr (s p : list byte) : option nat :=
  if is_prefix p s then Some 0 else match s with [] => None | _ :: s => S <$> strstr s p end.
(** [strcspn(s, c)] for a string of one character *)
Definition strcspn (s : list byte) (c : byte) : nat := match strchr s c with Some i => i | None => length s end.
(** [strncpy(b, s, n)]: [n] bytes are written, zeros behind the end of the string. *)
Definition strncpy (b s : list byte) (n : nat) : res (list byte) :=
  wrn b 0 (take n s ++ replicate (n - length s) x00).

(** ** Options *)

(** The global variables. *)
Record globals : Type := Globals {
  http10 : Z;                       (* 0 - http/0.9, 1 - http/1.0, 2 - http/1.1 *)
  method : Z;
  clients : Z;
  nreqs : Z;
  sockets : Z;
  force : Z;
  force_reload : Z;
  proxyport : Z;
  proxyhost : option (list byte);
  benchtime : Z;
}.
Definition defaults : globals := Globals 1 METHOD_GET 1 0 0 0 0 80 None 30.

(** An assignment to one of them. *)
Inductive setting : Type :=
  | Http10 (v : Z) | Method (v : Z) | Clients (v : Z) | Nreqs (v : Z) | Sockets (v : Z)
  | Force (v : Z) | ForceReload (v : Z) | ProxyPort (v : Z) | ProxyHost (v : list byte) | BenchTime (v : Z).
Definition assign (g : globals) (s : setting) : globals :=
  let '(Globals h m c n k f r p ph b) := g in
  match s with
  | Http10 v => Globals v m c n k f r p ph b
  | Method v => Globals h v c n k f r p ph b
  | Clients v => Globals h m v n k f r p ph b
  | Nreqs v => Globals h m c v k f r p ph b
  | Sockets v => Globals h m c n v f r p ph b
  | Force v => Globals h m c n k v r p ph b
  | ForceReload v => Globals h m c n k f v p ph b
  | ProxyPort v => Globals h m c n k f r v ph b
  | ProxyHost v => Globals h m c n k f r p (Some v) b
  | BenchTime v => Globals h m c n k f r p ph v
  end.

(** What [getopt_long] returns: zero when a long option has set its flag, or a character. *)
Inductive parsed : Type :=
  | long_flag (s : setting)
  | short (opt : byte) (optarg : list byte).
(** The long options that set a flag. *)
Definition long_options : list (string * setting) :=
  [("force"%string, Force 1); ("reload"%string, ForceReload 1); ("get"%string, Method METHOD_GET);
   ("head"%string, Method METHOD_HEAD); ("options"%string, Method METHOD_OPTIONS); ("trace"%string, Method METHOD_TRACE)].

(** [atoi] of a string. *)
Definition atoi_str (s : list byte) : res Z := atoi (s ++ [x00]).

(** The case [p]: the globals, or the code [main] returns. *)
Definition parse_proxy (g : globals) (optarg : list byte) : res (globals + Z) :=
  match strrchr optarg x3a with
  | None => Ok (inl (assign g (ProxyHost optarg)))
  | Some tmp =>
      if decide (tmp = 0) then Ok (inr 2%Z)
      else if decide (tmp = length optarg - 1) then Ok (inr 2%Z)
      else
        port ← atoi_str (drop (S tmp) optarg);
        Ok (inl (assign (assign g (ProxyHost (take tmp optarg))) (ProxyPort port)))
  end.

(** The body of the loop over the options. *)
Definition handle_option (g : globals) (o : parsed) : res (globals + Z) :=
  match o with
  | long_flag s => Ok (inl (assign g s))
  | short opt optarg =>
      let number set := v ← atoi_str optarg; Ok (inl (assign g (set v))) in
      match opt with
      | x66 => Ok (inl (assign g (Force 1)))                              (* f *)
      | x72 => Ok (inl (assign g (ForceReload 1)))                        (* r *)
      | x39 => Ok (inl (assign g (Http10 0)))                             (* 9 *)
      | x31 => Ok (inl (assign g (Http10 1)))                             (* 1 *)
      | x32 => Ok (inl (assign g (Http10 2)))                             (* 2 *)
      | x56 => Err ProcExit                                               (* V *)
      | x74 => number BenchTime                                           (* t *)
      | x70 => parse_proxy g optarg                                       (* p *)
      | x3a | x68 | x3f => Ok (inr 2%Z)                                   (* : h ? *)
      | x63 => number Clients                                             (* c *)
      | x6e => number Nreqs                                               (* n *)
      | x73 => number Sockets                                             (* s *)
      | _ => Ok (inl g)
      end
  end.
Fixpoint handle_options (g : globals) (l : list parsed) : res (globals + Z) :=
  match l with
  | [] => Ok (inl g)
  | o :: l =>
      r ← handle_option g o;
      match r with inl g => handle_options g l | inr code => Ok (inr code) end
  end.

(** Division of [int]s, which is undefined by zero and when the quotient does not fit. *)
Definition c_div (a b : Z) : res Z := if decide (b = 0%Z) then Err Undefined else c_int (Z.quot a b).

(** What [main] does to the options before the benchmark. *)
Definition clamp (g : globals) : res globals :=
  let g := if (clients g =? 0)%Z then assign g (Clients 1) else g in
  let g := if (benchtime g =? 0)%Z then assign g (BenchTime 60) else g in
  let g := if (10 <? clients g)%Z then assign g (Clients 10) else g in
  let g := if (nreqs g <? 1000)%Z then assign g (Nreqs 1000) else g in
  q ← c_div (sockets g) (clients g);
  if (Z.rem (sockets g) (clients g) =? 0)%Z then Ok g
  else s ← c_int (q * clients g); Ok (assign g (Sockets s)).

(** ** The request *)

Definition method_name (m : Z) : list byte :=
  if (m =? METHOD_HEAD)%Z then lit "HEAD"
  else if (m =? METHOD_OPTIONS)%Z then lit "OPTIONS"
  else if (m =? METHOD_TRACE)%Z then lit "TRACE"
  else lit "GET".

(** The version that options and method ask for. *)
Definition raise_version (g : globals) : globals :=
  let g := if negb (force_reload g =? 0)%Z && bool_decide (is_Some (proxyhost g)) && (http10 g <? 1)%Z
           then assign g (Http10 1) else g in
  let g := if (method g =? METHOD_HEAD)%Z && (http10 g <? 1)%Z then assign g (Http10 1) else g in
  let g := if (method g =? METHOD_OPTIONS)%Z && (http10 g <? 2)%Z then assign g (Http10 2) else g in
  if (method g =? METHOD_TRACE)%Z && (http10 g <? 2)%Z then assign g (Http10 2) else g.

(** Host and port of a URL from its host on; [slash] is where the host ends. *)
Definition url_host (g : globals) (rest : list byte) (slash : nat) : res (globals * list byte) :=
  let host := replicate MAXHOSTNAMELEN x00 in
  match strchr rest x3a with
  | Some colon =>
      if decide (colon < slash) then
        host ← strncpy host rest colon;
        tmp ← strncpy (replicate 10 x00) (drop (S colon) rest) (slash - colon - 1);
        port ← atoi tmp;
        Ok (assign g (ProxyPort (if (port =? 0)%Z then 80 else port)), host)
      else host ← strncpy host rest (strcspn rest x2f); Ok (g, host)
  | None => host ← strncpy host rest (strcspn rest x2f); Ok (g, host)
  end.

Definition strcat_if (b : bool) (request s : list byte) : res (list byte) :=
  if b then strcat request s else Ok request.

(** The part behind the target: the version and the headers. *)
Definition finish_request (g : globals) (direct : bool) (host request : list byte) : res (list byte) :=
  request ← (if (http10 g =? 1)%Z then strcat request (lit " HTTP/1.0")
             else strcat_if (http10 g =? 2)%Z request (lit " HTTP/1.1"));
  request ← strcat request [x0d; x0a];
  request ← strcat_if (0 <? http10 g)%Z request (lit "User-Agent: WebBench 1.5" ++ [x0d; x0a]);
  request ← (if direct && (0 <? http10 g)%Z then
               request ← strcat request (lit "Host: ");
               h ← cstr host;
               request ← strcat request h;
               strcat request [x0d; x0a]
             else Ok request);
  request ← strcat_if (negb (force_reload g =? 0)%Z && negb direct) request (lit "Pragma: no-cache" ++ [x0d; x0a]);
  request ← strcat_if (1 <? http10 g)%Z request (lit "Connection: close" ++ [x0d; x0a]);
  strcat_if (0 <? http10 g)%Z request [x0d; x0a].

(** The globals, [host] and [request]; [exit] is the error [ProcExit]. *)
Definition build_request (g : globals) (url : list byte) : res (globals * list byte * list byte) :=
  let g := raise_version g in
  let direct := bool_decide (proxyhost g = None) in
  request ← put_str (replicate REQUEST_SIZE x00) 0 (method_name (method g));
  request ← strcat request (lit " ");
  match strstr url (lit "://") with
  | None => Err ProcExit
  | Some p =>
      if decide (1500 < length url) then Err ProcExit
      else if direct && negb (same_nocase (lit "http://") (take 7 url)) then Err ProcExit
      else
        let rest := drop (p + 3) url in
        match strchr rest x2f with
        | None => Err ProcExit
        | Some slash =>
            '(g, host) ← (if (direct : bool) then url_host g rest slash
                          else Ok (g, replicate MAXHOSTNAMELEN x00));
            request ← strcat request (if (direct : bool) then drop (strcspn rest x2f) rest else url);
            request ← finish_request g direct host request;
            Ok (g, host, request)
        end
  end.

(** ** Connections *)

Section bench.
Context `{OS}.
(** [inet_addr], whose results are addresses in network order or [INADDR_NONE]. *)
Variable inet_addr : list byte → Z.

(** [memcpy] of eight bytes: the address and the padding behind it. *)
Definition Socket (host : list byte) (clientPort : Z) : cl Z :=
  let ad := le_bytes 2 2 ++ replicate 14 x00 in
  let inaddr := inet_addr host in
  ad ← (if negb (inaddr =? INADDR_NONE)%Z then pure (Ok (Some (wrn ad 4 (le_bytes 8 inaddr))))
        else
          hp ← call (api_sys (sys_gethostbyname host));
          mret ((λ addr, wrn ad 4 addr) <$> (hp : option (list byte))));
  match ad with
  | None => mret (-1)%Z
  | Some ad =>
      ad ← pure ad;
      ad ← pure (wrn ad 2 (rev (le_bytes 2 clientPort)));
      sock ← call (api_socket 2 1 0);
      if (sock <? 0)%Z then mret sock
      else
        r ← call (api_connect sock ad);
        if (r <? 0)%Z then mret (-1)%Z else mret sock
  end.

(** The first line of the answer must hold [200 OK]. *)
Definition testok (response : list byte) : res bool :=
  s ← cstr response;
  match strchr s x0a with
  | None => Err NullDeref
  | Some p => Ok (bool_decide (is_Some (strstr (take p s) (lit "200 OK"))))
  end.

(** Pieces of at most 1024 bytes; the count that was sent. *)
Definition send_step (sockfd : Z) (buffer : list byte) (idx : Z) : cl (Z + Z) :=
  let length := Z.of_nat (length buffer) in
  if (idx <? length)%Z then
    let rest := drop (Z.to_nat idx) buffer in
    n ← call (api_send sockfd (if (idx + 1024 <? length)%Z then take MAX_BUFFER_LENGTH rest else rest) 0);
    let count := i32 n in
    if (count <? 0)%Z then mret (inr idx) else mret (inl (idx + count)%Z)
  else mret (inr idx).
Definition send_buffer (sockfd : Z) (buffer : list byte) : cl Z := cl_loop (send_step sockfd buffer) 0%Z.

(** Up to the end of the connection: the count, the buffer and what [*ret] is. The length of the
    buffer, which is an argument, is not looked at. *)
Definition recv_step (sockfd : Z) (st : Z * list byte) : cl (Z * list byte + Z * list byte * Z) :=
  let '(idx, buffer) := st in
  '(n, data) ← call (api_recv sockfd 1024 0);
  let count := i32 n in
  if (count <? 0)%Z then mret (inr (idx, buffer, (-1)%Z))
  else if (count =? 0)%Z then
    call (api_close sockfd);;
    mret (inr (idx, buffer, 0%Z))
  else
    buffer ← pure (wrn buffer (Z.to_nat idx) data);
    mret (inl ((idx + count)%Z, buffer)).
Definition recv_buffer (sockfd : Z) (buffer : list byte) : cl (Z * list byte * Z) :=
  '(idx, buffer, ret) ← cl_loop (recv_step sockfd) (0%Z, buffer);
  mret (idx, buffer, if (0 <? idx)%Z then 1%Z else ret).

(** ** The benchmark *)

(** What a coroutine adds to [speed], [failed] and [bytes]; as they are only added to, the order
    in which coroutines do so does not matter. *)
Record counters : Type := Counters { speed : Z; failed : Z; bytes : Z }.
Definition zero : counters := Counters 0 0 0.
Definition plus (a b : counters) : counters :=
  Counters (speed a + speed b) (failed a + failed b) (bytes a + bytes b).

(** One turn of the loop of [httprequest_commit]: what the request adds. *)
Definition request_once (host : list byte) (port : Z) (req : list byte) : cl counters :=
  s ← Socket host port;
  if (s <? 0)%Z then mret (Counters 0 1 0)
  else
    n ← call (api_send s req 0);
    if negb (n =? Z.of_nat (length req))%Z then
      call (api_close s);;
      mret (Counters 0 1 0)
    else
      '(rlen, buf, ret) ← recv_buffer s (replicate 1500 x00);
      if (ret <? 0)%Z then mret (Counters 0 1 0)
      else
        ok ← pure (testok buf);
        mret (if (ok : bool) then Counters 1 0 rlen else Counters 0 1 rlen).
Fixpoint requests (togo : nat) (host : list byte) (port : Z) (req : list byte) (c : counters) : cl counters :=
  match togo with
  | O => mret c
  | S togo => d ← request_once host port req; requests togo host port req (plus c d)
  end.
(** The host, the port and the request are those of [shost]. *)
Definition httprequest_commit (g : globals) (host : list byte) (port : Z) (req : list byte) : cl counters :=
  n ← pure (c_div (nreqs g) (sockets g));
  requests (Z.to_nat n) host port req zero.

(** The coroutines that [benchcore] creates. *)
Definition benchcore_coroutines (g : globals) : res nat :=
  n ← c_div (sockets g) (clients g); Ok (Z.to_nat n).
(** What it does before the scheduler runs. [alarm_handler] sets [timerexpired], which nothing
    reads. *)
Definition benchcore_start (g : globals) : cl unit :=
  r ← call (api_sys (sys_sigaction SIGALRM));
  if negb (r =? 0)%Z then pure (Err ProcExit)
  else call (api_sys (sys_alarm (u32 (benchtime g))));; mret tt.
End bench.

(** ** The report *)

(** [fprintf(f, "%d %d %d\n", speed, failed, bytes)] *)
Definition report (c : counters) : list byte :=
  decimal (speed c) ++ [x20] ++ decimal (failed c) ++ [x20] ++ decimal (bytes c) ++ [x0a].

(** [%d] of [fscanf]: white space, a sign, digits; nothing when there is no number. *)
Fixpoint scan_digits (s : list byte) (acc : Z) : Z * list byte :=
  match s with
  | c :: s' => if isdigit c then scan_digits s' (10 * acc + (bz c - 48)) else (acc, s)
  | [] => (acc, [])
  end.
Definition scan_unsigned (s : list byte) : option (Z * list byte) :=
  match s with c :: _ => if isdigit c then Some (scan_digits s 0) else None | [] => None end.
Fixpoint scan_int (s : list byte) : option (Z * list byte) :=
  match s with
  | [] => None
  | c :: s' =>
      if isspace c then scan_int s'
      else if decide (c = x2d) then (λ '(z, r), ((- z)%Z, r)) <$> scan_unsigned s'
      else if decide (c = x2b) then scan_unsigned s'
      else scan_unsigned s
  end.
(** [fscanf(f, "%d %d %d", &i, &j, &k)]: how many were read, the three variables, and what is
    left. *)
Definition fscanf3 (s : list byte) (i j k : Z) : nat * (Z * Z * Z) * list byte :=
  match scan_int s with
  | None => (0, (i, j, k), s)
  | Some (i, s) =>
      match scan_int s with
      | None => (1, (i, j, k), s)
      | Some (j, s) =>
          match scan_int s with None => (2, (i, j, k), s) | Some (k, s) => (3, (i, j, k), s) end
      end
  end.

(** The loop of the parent over the bytes the pipe delivers until its writers have closed it:
    the sums, and [i], which [bench] returns. *)
Fixpoint collect (fuel : nat) (s : list byte) (clients : Z) (st : Z * Z * Z) (sum : counters) : res (counters * Z) :=
  match fuel with
  | O => Err OutOfFuel
  | S fuel =>
      let '(i, j, k) := st in
      let '(n, (i, j, k), s) := fscanf3 s i j k in
      if decide (n < 2) then Ok (sum, i)
      else
        sp ← c_int (speed sum + i);
        fa ← c_int (failed sum + j);
        by_ ← c_int (bytes sum + k);
        let clients := (clients - 1)%Z in
        if (clients =? 0)%Z then Ok (Counters sp fa by_, i)
        else collect fuel s clients (i, j, k) (Counters sp fa by_)
  end.

Section processes.
Context `{OS}.

(** The loop that forks: the last answer of [fork] and the number of the child. *)
Fixpoint fork_clients (togo : nat) (i : Z) (pid : Z) : cl (Z * Z) :=
  match togo with
  | O => mret (pid, i)
  | S togo =>
      pid ← call (api_sys sys_fork);
      if (pid <=? 0)%Z then call (api_sys (sys_sleep 1));; mret (pid, i)
      else fork_clients togo (i + 1) pid
  end.

(** What the coroutines of [benchcore] add up to, the bytes that arrive in the pipe and the value
    [k] has before anything is read are parameters. The exit code. *)
Definition bench (benchcore : cl counters) (arrives : list byte) (j_junk k_junk : Z) (g : globals) : cl Z :=
  '(r, read_end, write_end) ← call (api_sys sys_pipe);
  if negb (r =? 0)%Z then mret 3%Z
  else
    '(pid, i) ← fork_clients (Z.to_nat (clients g)) 0 0;
    if (pid <? 0)%Z then mret 3%Z
    else if (pid =? 0)%Z then
      c ← benchcore;
      call (api_sys (sys_write write_end (report c)));;
      mret 0%Z
    else
      '(sum, i) ← pure (collect (S (length arrives)) arrives (clients g) (i, j_junk, k_junk) zero);
      mret i.

(** ** The program *)

(** The lines [main] prints before the benchmark. *)
Definition announce (g : globals) (url : list byte) : list byte :=
  [x0a] ++ lit "Benchmarking: " ++ method_name (method g) ++ lit " " ++ url ++
  (if (http10 g =? 0)%Z then lit " (using HTTP/0.9)"
   else if (http10 g =? 2)%Z then lit " (using HTTP/1.1)" else []) ++ [x0a] ++
  (if (clients g =? 1)%Z then lit "1 client" else decimal (clients g) ++ lit " clients") ++
  lit ", running " ++ decimal (benchtime g) ++ lit " sec" ++
  (if (force g =? 0)%Z then [] else lit ", early socket close") ++
  (match proxyhost g with
   | Some proxy => lit ", via proxy server " ++ proxy ++ lit ":" ++ decimal (proxyport g)
   | None => []
   end) ++
  (if (force_reload g =? 0)%Z then [] else lit ", forcing reload") ++ lit "." ++ [x0a].

(** [getopt_long] finds the options of [argv], and leaves the operands behind them. *)
Variable getopt_long : list (list byte) → list parsed * list (list byte).

(** What is printed to the standard output, and the exit code; [argv] is without the name of the
    program. *)
Definition main (benchcore : globals → list byte → list byte → cl counters) (arrives : list byte)
    (j_junk k_junk : Z) (argv : list (list byte)) : cl (list byte * Z) :=
  if decide (argv = []) then mret ([], 2%Z)
  else
    let '(options, operands) := getopt_long argv in
    r ← pure (handle_options defaults options);
    match r with
    | inr code => mret ([], code)
    | inl g =>
        match operands with
        | [] => mret ([], 2%Z)
        | url :: _ =>
            g ← pure (clamp g);
            '(g, host, request) ← pure (build_request g url);
            code ← bench (benchcore g host request) arrives j_junk k_junk g;
            mret (announce g url, code)
        end
    end.
End processes.
End Bench.
