(* ===== verification/BenchProps.v ===== *)
(** What is proved of nty_bench.c: the request it builds from a URL and its options, how answers
    are received and counted, and that the parent adds up what its children report; and where
    it writes behind its arrays, dereferences NULL and loses descriptors. *)

From S2P Require Export Bench ToyOS.
Import Bench.

(** ** The request *)

(** An array of the request's size that holds the string [p]. *)
Definition text (p b : list byte) : Prop :=
  length b = REQUEST_SIZE ∧ (x00 ∉ p) ∧ ∃ rest, b = p ++ x00 :: rest.

(** The same with a bound on the length of the string. *)
Definition within (n : nat) (p b : list byte) : Prop := text p b ∧ length p ≤ n.

Lemma within_strcat m n p s b : within n p b → x00 ∉ s → length s ≤ m → n + m < REQUEST_SIZE →
  ∃ b', strcat b s = Ok b' ∧ within (n + m) (p ++ s) b'.
Proof.
  intros [(Hb & Hp & rest & E) Hn] Hs Hl Hm. destruct (strcat_spec b p s rest E Hp) as (rest' & Es & Hl'); [lia|].
  rewrite app_assoc in Es, Hl'. eexists. split; [exact Es|]. split; [|rewrite length_app; lia].
  split; [by rewrite Hl'|]. split; [by intros [?|?]%elem_of_app|by eexists].
Qed.

Lemma within_strcat_if m n c p s b : within n p b → x00 ∉ s → length s ≤ m → n + m < REQUEST_SIZE →
  ∃ b', strcat_if c b s = Ok b' ∧ within (n + m) (p ++ if c then s else []) b'.
Proof.
  intros Hb Hs Hl Hm. destruct c; [by apply within_strcat|]. exists b. rewrite app_nil_r.
  split; [done|]. destruct Hb as [? ?]. split; [done|lia].
Qed.

(** A closed text: no zero, and its length. *)
Ltac closed_text := first [apply (bool_decide_unpack _); vm_compute; exact I | vm_compute; lia].

(** What the request should be. *)
Definition version_text (g : globals) : list byte :=
  if (http10 g =? 1)%Z then lit " HTTP/1.0" else if (http10 g =? 2)%Z then lit " HTTP/1.1" else [].
Definition nl : list byte := [x0d; x0a].
Definition headers_text (g : globals) (direct : bool) (h : list byte) : list byte :=
  version_text g ++ nl ++
  (if (0 <? http10 g)%Z then lit "User-Agent: WebBench 1.5" ++ nl else []) ++
  (if direct && (0 <? http10 g)%Z then lit "Host: " ++ h ++ nl else []) ++
  (if negb (force_reload g =? 0)%Z && negb direct then lit "Pragma: no-cache" ++ nl else []) ++
  (if (1 <? http10 g)%Z then lit "Connection: close" ++ nl else []) ++
  (if (0 <? http10 g)%Z then nl else []).

(** It fits behind any target of at most 1520 characters. *)
Lemma finish_text g direct h zeros p b :
  within 1520 p b → x00 ∉ h → length h < MAXHOSTNAMELEN →
  ∃ b', finish_request g direct (h ++ x00 :: zeros) b = Ok b' ∧ text (p ++ headers_text g direct h) b'.
Proof.
  intros Hb Hh0 Hh. unfold finish_request, headers_text, MAXHOSTNAMELEN in *.
  assert (∃ b', (if (http10 g =? 1)%Z then strcat b (lit " HTTP/1.0") else strcat_if (http10 g =? 2)%Z b (lit " HTTP/1.1"))
    = Ok b' ∧ within (1520 + 9) (p ++ version_text g) b') as (b1 & -> & H1).
  { unfold version_text. destruct (http10 g =? 1)%Z; [apply within_strcat|apply within_strcat_if]; by try closed_text. }
  destruct (within_strcat 2 _ _ nl b1 H1) as (b2 & E2 & H2); [closed_text..|]. unfold nl in E2. cbn [mbind res_bind]. rewrite E2.
  destruct (within_strcat_if 26 _ (0 <? http10 g)%Z _ (lit "User-Agent: WebBench 1.5" ++ nl) b2 H2) as (b3 & E3 & H3);
    [closed_text..|]. unfold nl in E3. cbn [mbind res_bind]. rewrite E3. cbn [mbind res_bind].
  assert (∃ b', (if direct && (0 <? http10 g)%Z then
      request ← strcat b3 (lit "Host: "); h' ← cstr (h ++ x00 :: zeros); request ← strcat request h'; strcat request [x0d; x0a]
    else Ok b3) = Ok b' ∧
    within (1520 + 9 + 2 + 26 + 6 + 63 + 2) (((p ++ version_text g) ++ nl) ++ (if (0 <? http10 g)%Z then lit "User-Agent: WebBench 1.5" ++ nl else []) ++
      (if direct && (0 <? http10 g)%Z then lit "Host: " ++ h ++ nl else [])) b') as (b4 & -> & H4).
  { rewrite app_assoc. destruct (direct && (0 <? http10 g)%Z); [|exists b3; rewrite app_nil_r; split; [done|]; destruct H3; split; [done|lia]].
    destruct (within_strcat 6 _ _ (lit "Host: ") b3 H3) as (c1 & -> & Hc1); [closed_text..|]. cbn [mbind res_bind].
    rewrite cstr_app by done. cbn [mbind res_bind].
    destruct (within_strcat 63 _ _ h c1 Hc1) as (c2 & -> & Hc2); [done|lia|closed_text|]. cbn [mbind res_bind].
    destruct (within_strcat 2 _ _ nl c2 Hc2) as (c3 & E & Hc3); [closed_text..|]. exists c3. split; [exact E|].
    repeat rewrite <- app_assoc in Hc3. repeat rewrite <- app_assoc. exact Hc3. }
  cbn [mbind res_bind].
  destruct (within_strcat_if 18 _ (negb (force_reload g =? 0)%Z && negb direct) _ (lit "Pragma: no-cache" ++ nl) b4 H4)
    as (b5 & E5 & H5); [closed_text..|]. unfold nl in E5. rewrite E5. cbn [mbind res_bind].
  destruct (within_strcat_if 19 _ (1 <? http10 g)%Z _ (lit "Connection: close" ++ nl) b5 H5) as (b6 & E6 & H6);
    [closed_text..|]. unfold nl in E6. rewrite E6. cbn [mbind res_bind].
  destruct (within_strcat_if 2 _ (0 <? http10 g)%Z _ nl b6 H6) as (b7 & E7 & [H7 _]); [closed_text..|].
  unfold nl in E7. rewrite E7. exists b7. split; [done|].
  repeat rewrite <- app_assoc in H7. repeat rewrite <- app_assoc. exact H7.
Qed.

Lemma within_le n m p b : within n p b → n ≤ m → within m p b.
Proof. intros [? ?] ?. split; [done|lia]. Qed.

(** ** Searching *)

Lemma strchr_at l c r : c ∉ l → strchr (l ++ c :: r) c = Some (length l).
Proof.
  induction l as [|d l IH]; cbn [app strchr length]; [by rewrite decide_True|].
  rewrite not_elem_of_cons. intros [Hd Hl]. rewrite decide_False by congruence. by rewrite IH.
Qed.
Lemma strchr_none l c : c ∉ l → strchr l c = None.
Proof.
  induction l as [|d l IH]; cbn [strchr]; [done|]. rewrite not_elem_of_cons. intros [Hd Hl].
  rewrite decide_False by congruence. by rewrite IH.
Qed.
(** A character that is not in the first part is found behind it. *)
Lemma strchr_behind l r c k : c ∉ l → strchr (l ++ r) c = Some k → length l ≤ k.
Proof.
  revert k; induction l as [|d l IH]; cbn [app strchr length]; [lia|]. intros k. rewrite not_elem_of_cons.
  intros [Hd Hl]. rewrite decide_False by congruence. destruct (strchr (l ++ r) c) as [j|]; [|done].
  intros [= <-]. specialize (IH j Hl eq_refl). lia.
Qed.

Lemma strncpy_zeros n l r k : k = length l → length l < n →
  strncpy (replicate n x00) (l ++ r) k = Ok (l ++ replicate (n - length l) x00).
Proof.
  intros -> Hl. unfold strncpy. rewrite length_app, take_app_length.
  replace (length l - (length l + length r)) with 0 by lia. cbn [replicate]. rewrite app_nil_r. apply wrn_zeros. lia.
Qed.
Lemma padded l n : length l < n → l ++ replicate (n - length l) x00 = l ++ x00 :: replicate (n - length l - 1) x00.
Proof. intros Hl. by destruct (n - length l) as [|k] eqn:E; [lia|]; rewrite Nat.sub_succ, Nat.sub_0_r. Qed.

(** ** A URL *)

(** A host name of a URL, and the text of its port. *)
Definition host_name (h : list byte) : Prop :=
  (x2f ∉ h) ∧ (x3a ∉ h) ∧ (x00 ∉ h) ∧ length h < MAXHOSTNAMELEN.
Definition port_text (port : option Z) : list byte :=
  match port with Some n => x3a :: decimal n | None => [] end.
Definition port_ok (port : option Z) : Prop :=
  match port with Some n => (0 < n < 2 ^ 31)%Z ∧ length (decimal n) < 10 | None => True end.
Definition with_port (g : globals) (port : option Z) : globals :=
  match port with Some n => assign g (ProxyPort n) | None => g end.

Lemma decimal_no c n : (0 ≤ n)%Z → isdigit c = false → c ∉ decimal n.
Proof.
  intros Hn Hc Hin. destruct (decimal_digits n Hn) as [Hd _]. rewrite Forall_forall in Hd. specialize (Hd c Hin). by rewrite Hc in Hd.
Qed.

Lemma drop_behind (l : list byte) c r : drop (S (length l)) (l ++ c :: r) = r.
Proof. induction l as [|d l IH]; [done|exact IH]. Qed.

Lemma url_host_spec g h port tl : host_name h → port_ok port →
  ∃ zeros, url_host g ((h ++ port_text port) ++ x2f :: tl) (length (h ++ port_text port)) =
    Ok (with_port g port, h ++ x00 :: zeros).
Proof.
  intros (Hs & Hc & H0 & Hl) Hp. unfold url_host, MAXHOSTNAMELEN in *. cbv zeta. destruct port as [n|]; cbn [port_text with_port] in *.
  - destruct Hp as [Hn Hd]. rewrite <- (app_assoc h). cbn [app]. rewrite strchr_at by done.
    rewrite length_app. cbn [length]. rewrite decide_True by lia.
    rewrite strncpy_zeros by done. cbn [mbind res_bind].
    rewrite drop_behind.
    rewrite strncpy_zeros by lia. cbn [mbind res_bind].
    rewrite (padded (decimal n) 10), atoi_decimal by (done || lia). cbn [mbind res_bind].
    rewrite (proj2 (Z.eqb_neq _ _)) by lia. rewrite padded by done. by eexists.
  - rewrite app_nil_r.
    assert (strcspn (h ++ x2f :: tl) x2f = length h) as Ec by (unfold strcspn; by rewrite strchr_at).
    assert ((host ← strncpy (replicate 64 x00) (h ++ x2f :: tl) (strcspn (h ++ x2f :: tl) x2f); Ok (g, host)) =
      Ok (g, h ++ x00 :: replicate (64 - length h - 1) x00)) as E.
    { rewrite Ec, strncpy_zeros by done. cbn [mbind res_bind]. by rewrite padded. }
    exists (replicate (64 - length h - 1) x00). rewrite <- E.
    destruct (strchr (h ++ x2f :: tl) x3a) as [colon|] eqn:Ecol; [|done].
    apply strchr_behind in Ecol; [|done]. by rewrite decide_False by lia.
Qed.

Lemma version_raised g : proxyhost (raise_version g) = proxyhost g ∧ method (raise_version g) = method g.
Proof. unfold raise_version. destruct g; simpl in *. by repeat case_match. Qed.

Lemma method_written m : ∃ b, put_str (replicate REQUEST_SIZE x00) 0 (method_name m) = Ok b ∧ within 7 (method_name m) b.
Proof.
  unfold method_name. destruct (m =? METHOD_HEAD)%Z, (m =? METHOD_OPTIONS)%Z, (m =? METHOD_TRACE)%Z;
    (eexists; split; [unfold put_str; apply wrn_zeros; closed_text|]; split; [|closed_text]; split; [reflexivity|];
     split; [closed_text|]; by eexists).
Qed.

Lemma url_request g h port tl :
  proxyhost g = None → host_name h → port_ok port → x00 ∉ tl →
  length (lit "http://" ++ (h ++ port_text port) ++ x2f :: tl) ≤ 1500 →
  ∃ host request,
    build_request g (lit "http://" ++ (h ++ port_text port) ++ x2f :: tl) =
      Ok (with_port (raise_version g) port, host, request) ∧
    cstr host = Ok h ∧
    cstr request = Ok (method_name (method g) ++ lit " " ++ (x2f :: tl) ++ headers_text (raise_version g) true h).
Proof.
  intros Hproxy Hh Hport H0 Hl. unfold build_request.
  destruct (version_raised g) as [Ep Em]. rewrite Hproxy in Ep.
  rewrite Ep, Em, bool_decide_true by done. set (r := h ++ port_text port) in *.
  assert (x2f ∉ r) as Hr.
  { unfold r. intros [?|Hin]%elem_of_app; [by destruct Hh|]. destruct port as [n|]; [|by apply not_elem_of_nil in Hin].
    apply elem_of_cons in Hin as [?|Hin]; [done|]. revert Hin. apply decimal_no; [|done]. destruct Hport; lia. }
  destruct (method_written (method g)) as (b1 & -> & H1).
  cbn [mbind res_bind]. destruct (within_strcat 1 _ _ (lit " ") b1 H1) as (b2 & -> & H2); [closed_text..|].
  cbn [mbind res_bind]. change (strstr (lit "http://" ++ r ++ x2f :: tl) (lit "://")) with (Some 4). cbv iota.
  rewrite decide_False by lia. change (same_nocase (lit "http://") (take 7 (lit "http://" ++ r ++ x2f :: tl))) with true.
  change (drop (4 + 3) (lit "http://" ++ r ++ x2f :: tl)) with (r ++ x2f :: tl). cbn [negb andb].
  rewrite strchr_at by done. destruct (url_host_spec (raise_version g) h port tl Hh Hport) as [zeros Eh].
  fold r in Eh. rewrite Eh. cbn [mbind res_bind]. unfold strcspn. rewrite strchr_at, drop_app_length by done.
  rewrite !length_app, length_cons in Hl. change (length (lit "http://")) with 7 in Hl.
  destruct (within_strcat 1500 _ _ (x2f :: tl) b2 H2) as (b3 & -> & H3);
    [by rewrite not_elem_of_cons|simpl; lia|closed_text|]. cbn [mbind res_bind].
  destruct Hh as (_ & _ & Hh0 & Hhl).
  destruct (finish_text (with_port (raise_version g) port) true h zeros _ b3 (within_le _ 1520 _ _ H3 ltac:(lia)) Hh0 Hhl)
    as (b4 & E4 & _ & Hb4 & rest & E).
  rewrite E4. cbn [mbind res_bind]. eexists _, _. split; [done|]. split; [by apply cstr_app|].
  assert (∀ n, headers_text (assign (raise_version g) (ProxyPort n)) true h = headers_text (raise_version g) true h) as Ehd
    by (intros n; by destruct (raise_version g)).
  assert (headers_text (with_port (raise_version g) port) true h = headers_text (raise_version g) true h) as Ehd'
    by (destruct port; [apply Ehd|done]).
  rewrite Ehd' in *. rewrite E, cstr_app by done. by rewrite <- !app_assoc.
Qed.


(** A host name of 65 characters and more is written behind [host]; one of 64 leaves it without
    an end. *)
Theorem host_overflow g h tl :
  proxyhost g = None → x2f ∉ h → x3a ∉ h → MAXHOSTNAMELEN < length h →
  length (lit "http://" ++ h ++ x2f :: tl) ≤ 1500 →
  build_request g (lit "http://" ++ h ++ x2f :: tl) = Err Undefined.
Proof.
  intros Hproxy Hs Hc Hl Hu. unfold build_request.
  destruct (version_raised g) as [Ep Em]. rewrite Hproxy in Ep.
  rewrite Ep, Em, bool_decide_true by done.
  destruct (method_written (method g)) as (b1 & -> & H1).
  cbn [mbind res_bind]. destruct (within_strcat 1 _ _ (lit " ") b1 H1) as (b2 & -> & H2); [closed_text..|].
  cbn [mbind res_bind]. change (strstr (lit "http://" ++ h ++ x2f :: tl) (lit "://")) with (Some 4). cbv iota.
  rewrite decide_False by lia. change (same_nocase (lit "http://") (take 7 (lit "http://" ++ h ++ x2f :: tl))) with true.
  change (drop (4 + 3) (lit "http://" ++ h ++ x2f :: tl)) with (h ++ x2f :: tl). cbn [negb andb].
  rewrite strchr_at by done. unfold url_host. cbv zeta.
  assert (strncpy (replicate MAXHOSTNAMELEN x00) (h ++ x2f :: tl) (strcspn (h ++ x2f :: tl) x2f) = Err Undefined) as E.
  { unfold strcspn. rewrite strchr_at by done. unfold strncpy. rewrite take_app_length. unfold wrn.
    rewrite decide_False; [done|]. rewrite length_app, !length_replicate. lia. }
  destruct (strchr (h ++ x2f :: tl) x3a) as [colon|] eqn:Ecol; [apply strchr_behind in Ecol; [|done]; rewrite decide_False by lia|];
    by rewrite E.
Qed.

(** ** Options *)

Definition fits (v : Z) : Prop := (- 2 ^ 31 ≤ v < 2 ^ 31)%Z.

(** The values the global variables can have. *)
Record well_formed (g : globals) : Prop := WellFormed {
  wf_http10 : (0 ≤ http10 g ≤ 2)%Z;
  wf_method : (METHOD_GET ≤ method g ≤ METHOD_TRACE)%Z;
  wf_flags : (0 ≤ force g ≤ 1 ∧ 0 ≤ force_reload g ≤ 1)%Z;
  wf_ints : Forall fits [clients g; nreqs g; sockets g; proxyport g; benchtime g];
  wf_host : ∀ h, proxyhost g = Some h → x00 ∉ h;
}.

(** What the other functions rely on: no division by zero, and whole numbers of sockets for
    each process. *)
Definition ready (g : globals) : Prop :=
  (clients g ≠ 0 ∧ clients g ≤ 10 ∧ 1000 ≤ nreqs g ∧ benchtime g ≠ 0 ∧
   Z.rem (sockets g) (clients g) = 0)%Z ∧ fits (Z.quot (sockets g) (clients g)).

(** An option as [getopt_long] finds it: a flag of the table, or a character with its text. *)
Definition parsed_ok (o : parsed) : Prop :=
  match o with long_flag s => s ∈ long_options.*2 | short _ s => x00 ∉ s end.

Lemma c_int_range z v : c_int z = Ok v → v = z ∧ fits z.
Proof. unfold c_int. destruct (_ && _) eqn:E; [|done]. intros [= <-]. unfold fits. split; [done|lia]. Qed.
Lemma atoi_range s v : atoi s = Ok v → fits v.
Proof.
  unfold atoi. destruct (atoi_space s) as [[|c b]|]; [done| |done]. cbn [mbind res_bind].
  destruct (if decide (c = x2d) then _ else _) as [z|]; [|done]. cbn [mbind res_bind]. by intros [-> ?]%c_int_range.
Qed.

Lemma assign_well_formed g s : well_formed g →
  match s with
  | Http10 v => (0 ≤ v ≤ 2)%Z
  | Method v => (METHOD_GET ≤ v ≤ METHOD_TRACE)%Z
  | Force v | ForceReload v => (0 ≤ v ≤ 1)%Z
  | Clients v | Nreqs v | Sockets v | ProxyPort v | BenchTime v => fits v
  | ProxyHost h => x00 ∉ h
  end → well_formed (assign g s).
Proof.
  intros [H1 H2 [H3 H4] H5 H6] Hs. rewrite !Forall_cons in H5. destruct H5 as (? & ? & ? & ? & ? & _).
  destruct g, s; split; simpl in *; try (split; assumption); try assumption; try (by rewrite !Forall_cons);
    try (by intros h [= <-]).
Qed.

Lemma handle_option_typed g o g' : well_formed g → parsed_ok o → handle_option g o = Ok (inl g') → well_formed g'.
Proof.
  intros Hg Ho. destruct o as [s|opt s]; simpl in Ho.
  - intros [= <-]. apply assign_well_formed; [done|].
    repeat (apply elem_of_cons in Ho as [->|Ho]; [vm_compute; split; discriminate|]). by apply not_elem_of_nil in Ho.
  - assert (∀ set, (∀ v, fits v → well_formed (assign g (set v))) →
      (v ← atoi_str s; Ok (inl (assign g (set v)))) = Ok (inl g' : globals + Z) → well_formed g') as Hnum.
    { intros set Hset. destruct (atoi_str s) as [v|] eqn:E; [|done]. intros [= <-]. eapply Hset, atoi_range, E. }
    destruct opt; cbn [handle_option]; try done; try (intros [= <-]; first [done | apply assign_well_formed; [done|cbn; lia]]);
      try (apply Hnum; intros v Hv; by apply assign_well_formed).
    unfold parse_proxy. destruct (strrchr s x3a) as [tmp|]; [|intros [= <-]; by apply assign_well_formed].
    destruct (decide _); [done|]. destruct (decide _); [done|].
    clear Hnum. destruct (atoi_str (drop (S tmp) s)) as [port|] eqn:E; [|done]. intros [= <-].
    apply assign_well_formed; [|eapply atoi_range, E]. apply assign_well_formed; [done|].
    intros (? & ?%list_elem_of_lookup_2 & _)%elem_of_take. done.
Qed.

Lemma clamp_typed g g' : well_formed g → clamp g = Ok g' → well_formed g' ∧ ready g'.
Proof.
  intros Hg. unfold clamp.
  set (g1 := if (clients g =? 0)%Z then assign g (Clients 1) else g).
  set (g2 := if (benchtime g1 =? 0)%Z then assign g1 (BenchTime 60) else g1).
  set (g3 := if (10 <? clients g2)%Z then assign g2 (Clients 10) else g2).
  set (g4 := if (nreqs g3 <? 1000)%Z then assign g3 (Nreqs 1000) else g3).
  assert (well_formed g4 ∧ (clients g4 ≠ 0 ∧ clients g4 ≤ 10 ∧ 1000 ≤ nreqs g4 ∧ benchtime g4 ≠ 0)%Z) as [Hw Hr].
  { assert (well_formed g1 ∧ clients g1 ≠ 0%Z) as [W1 R1].
    { unfold g1. destruct (Z.eqb_spec (clients g) 0); [|done]. split; [by apply assign_well_formed|by destruct g]. }
    assert (well_formed g2 ∧ clients g2 ≠ 0%Z ∧ benchtime g2 ≠ 0%Z) as (W2 & R2 & R2').
    { unfold g2. destruct (Z.eqb_spec (benchtime g1) 0); [|done]. split; [by apply assign_well_formed|by destruct g1]. }
    assert (well_formed g3 ∧ clients g3 ≠ 0%Z ∧ benchtime g3 ≠ 0%Z ∧ (clients g3 ≤ 10)%Z) as (W3 & R3 & R3' & R3'').
    { unfold g3. destruct (Z.ltb_spec 10 (clients g2)); [|by split_and!].
      split; [by apply assign_well_formed|]. by destruct g2. }
    unfold g4. destruct (Z.ltb_spec (nreqs g3) 1000); [|by split_and!].
    split; [by apply assign_well_formed|]. destruct g3; simpl in *. by split_and!. }
  destruct (c_div _ _) as [q|] eqn:Eq; [|done]. cbn [mbind res_bind].
  unfold c_div in Eq. destruct (decide _); [done|]. apply c_int_range in Eq as [-> Eq].
  destruct (Z.eqb_spec (Z.rem (sockets g4) (clients g4)) 0) as [E|E]; [intros [= <-]; by unfold ready; naive_solver|].
  destruct (c_int _) as [s|] eqn:Es; [|done]. intros [= <-]. apply c_int_range in Es as [-> Es].
  split; [by apply assign_well_formed|].
  unfold ready. destruct g4; simpl in *. destruct Hr as (? & ? & ? & ?). split; [split_and!; [done..|]|].
  - by apply Z.rem_mul.
  - by rewrite Z.quot_mul.
Qed.

(** The one quotient an [int] cannot hold apart, [clamp] succeeds. *)
Lemma clamp_total g : well_formed g → (sockets g, clients g) ≠ (- 2 ^ 31, -1)%Z → ∃ g', clamp g = Ok g'.
Proof.
  intros [_ _ _ Hf _] Hne. rewrite !Forall_cons in Hf. destruct Hf as (Hc & _ & Hs & _). unfold clamp.
  set (g1 := if (clients g =? 0)%Z then assign g (Clients 1) else g).
  set (g2 := if (benchtime g1 =? 0)%Z then assign g1 (BenchTime 60) else g1).
  set (g3 := if (10 <? clients g2)%Z then assign g2 (Clients 10) else g2).
  set (g4 := if (nreqs g3 <? 1000)%Z then assign g3 (Nreqs 1000) else g3).
  assert (sockets g4 = sockets g ∧
    (clients g4 = clients g ∧ clients g ≠ 0 ∨ clients g4 = 1 ∨ clients g4 = 10)%Z) as [Es Ec].
  { unfold g4, g3, g2, g1. destruct (Z.eqb_spec (clients g) 0), g; simpl in *;
      repeat (destruct (_ =? _)%Z || destruct (_ <? _)%Z; simpl); split; auto. }
  assert (fits (Z.quot (sockets g4) (clients g4)) ∧
    fits (Z.quot (sockets g4) (clients g4) * clients g4) ∧ clients g4 ≠ 0%Z) as (Hq & Hm & H0).
  { rewrite Es. unfold fits in *. split; [|split]; [| |lia].
    - destruct (decide (clients g4 = -1)%Z) as [E|E].
      + rewrite E. assert (sockets g ≠ - 2 ^ 31)%Z by (intros E'; apply Hne; f_equal; lia).
        change (-1)%Z with (- (1))%Z. rewrite Z.quot_opp_r, Z.quot_1_r by lia. lia.
      + pose proof (Z.quot_rem' (sockets g) (clients g4)). pose proof (Z.rem_bound_abs (sockets g) (clients g4)). nia.
    - pose proof (Z.quot_rem' (sockets g) (clients g4)). pose proof (Z.rem_bound_abs (sockets g) (clients g4)).
      pose proof (Z.rem_sign_nz (sockets g) (clients g4)). nia. }
  unfold c_div. rewrite decide_False by done. rewrite c_int_ok by exact Hq. cbn [mbind res_bind].
  destruct (Z.rem (sockets g4) (clients g4) =? 0)%Z; [by exists g4|].
  rewrite c_int_ok by exact Hm. by eexists.
Qed.

Lemma options_clamped l g :
  Forall parsed_ok l → handle_options defaults l = Ok (inl g) → (sockets g, clients g) ≠ (- 2 ^ 31, -1)%Z →
  ∃ g', clamp g = Ok g' ∧ well_formed g' ∧ ready g' ∧
    benchcore_coroutines g' = Ok (Z.to_nat (Z.quot (sockets g') (clients g'))).
Proof.
  intros Hl Hg Hne.
  assert (∀ g0, well_formed g0 → handle_options g0 l = Ok (inl g) → well_formed g) as Hopts.
  { clear Hg. induction Hl as [|o l Ho _ IH]; intros g0 H0; cbn [handle_options]; [by intros [= <-]|].
    destruct (handle_option g0 o) as [[g1|]|] eqn:E; [|done..]. cbn [mbind res_bind]. apply IH.
    by eapply handle_option_typed. }
  assert (well_formed g) as Hw.
  { eapply Hopts; [|exact Hg]. unfold METHOD_GET, METHOD_TRACE.
    split; simpl; [lia|unfold METHOD_GET, METHOD_TRACE; lia|lia| |done].
    rewrite !Forall_cons. unfold fits. split_and!; [lia..|constructor]. }
  destruct (clamp_total g Hw Hne) as [g' Hc]. exists g'. split; [done|].
  destruct (clamp_typed g g' Hw Hc) as [Hw' Hr']. split; [done|]. split; [done|].
  unfold benchcore_coroutines, c_div. destruct Hr' as ((Hn & _) & Hq).
  rewrite decide_False by done. rewrite c_int_ok by exact Hq. done.
Qed.

Lemma clamp_proxy g g' : clamp g = Ok g' → proxyhost g' = proxyhost g.
Proof.
  unfold clamp. destruct (c_div _ _) as [q|]; [|done]. cbn [mbind res_bind].
  destruct (Z.rem _ _ =? 0)%Z; [|destruct (c_int _) as [v|]; [|done]; cbn [mbind res_bind]];
    intros [= <-]; destruct g; simpl; by repeat case_match.
Qed.

(** C38: the options keep every variable within its type, and [main] comes to build its request,
    unless the number of sockets divided by that of processes does not fit an [int]: the number
    of processes is then not zero and at most ten, that of sockets a multiple of it. *)
Theorem options_typed l g :
  Forall parsed_ok l → handle_options defaults l = Ok (inl g) → (sockets g, clients g) ≠ (- 2 ^ 31, -1)%Z →
  ∃ g', clamp g = Ok g' ∧ well_formed g' ∧ ready g' ∧
    benchcore_coroutines g' = Ok (Z.to_nat (Z.quot (sockets g') (clients g'))).
Proof. apply options_clamped. Qed.

(** ** Sending *)

(** Whatever is accepted of each piece, [send_buffer] has sent exactly the prefix of the buffer
    whose length it returns. *)
Theorem send_buffer_prefix `{OS} sockfd buffer :
  (Z.of_nat (length buffer) < 2 ^ 31)%Z →
  every_call (λ _ _ _, True) sends (send_buffer sockfd buffer) []
    (λ tr r, (0 ≤ r ≤ Z.of_nat (length buffer))%Z ∧ accepted tr = take (Z.to_nat r) buffer).
Proof.
  intros Hl. apply (ec_loop _ _ (λ idx tr, (0 ≤ idx ≤ Z.of_nat (length buffer))%Z ∧ accepted tr = take (Z.to_nat idx) buffer)).
  { split; [lia|done]. }
  intros idx tr [Hi Ha]. unfold send_step. cbv zeta.
  destruct (Z.ltb_spec idx (Z.of_nat (length buffer))) as [Hlt|]; [|by apply ec_ret].
  set (data := if (idx + 1024 <? Z.of_nat (length buffer))%Z then _ else _).
  assert (∃ k, data = take k (drop (Z.to_nat idx) buffer)) as [k Hd].
  { unfold data. destruct (_ <? _)%Z; [by eexists|]. exists (length buffer). symmetry. apply take_ge. rewrite length_drop. lia. }
  assert (length data ≤ length buffer - Z.to_nat idx) as Hdl by (rewrite Hd, length_take, length_drop; lia).
  apply ec_bind_call; [done|]. intros n [Hn1 Hn2]. rewrite i32_small by lia.
  assert (accepted (tr ++ [ACall (api_send sockfd data 0) n]) = take (Z.to_nat (idx + Z.max 0 n)) buffer) as Hacc.
  { rewrite accepted_snoc. cbn [accept_step]. rewrite Ha. apply (prefix_grows _ _ _ _ k); [done|lia|done]. }
  destruct (Z.ltb_spec n 0) as [Hn|Hn]; apply ec_ret.
  - rewrite Z.max_l, Z.add_0_r in Hacc by lia. by split.
  - rewrite Z.max_r in Hacc by lia. split; [lia|done].
Qed.

(** ** Answers *)

Section answers.
Context `{OS}.
Variable inet_addr : list byte → Z.
(** The pieces in which the server answers every request. *)
Variable pieces : list (list byte).

(** The pieces that are left, and what the server was sent. *)
Record served : Type := Served { left_pieces : list (list byte); seen : list (list byte) }.
Definition responder (A : Type) (e : apiE A) : served → A * served :=
  match e in apiE A return served → A * served with
  | api_socket _ _ _ => λ s, (3%Z, s)
  | api_connect _ _ => λ s, (0%Z, Served pieces (seen s))
  | api_send _ data _ => λ s, (Z.of_nat (length data), Served (left_pieces s) (seen s ++ [data]))
  | api_recv _ _ _ => λ s,
      match left_pieces s with
      | [] => ((0%Z, []), s)
      | d :: l => ((Z.of_nat (length d), d), Served l (seen s))
      end
  | api_close _ => λ s, (0%Z, s)
  | e => λ s, (no_answer e, s)
  end.

(** The array of [httprequest_commit] with the text [p] in front. *)
Definition filled (p : list byte) : list byte := p ++ replicate (1500 - length p) x00.

Definition piece (d : list byte) : Prop := d ≠ [] ∧ length d ≤ 1024.

Lemma filled_more p d : length p + length d ≤ 1500 → wrn (filled p) (length p) d = Ok (filled (p ++ d)).
Proof using Type.
  intros Hl. unfold filled. rewrite wrn_ok by (rewrite length_app, length_replicate; lia).
  rewrite take_app_length, drop_app_ge, drop_replicate, length_app by lia. rewrite <- app_assoc. do 4 f_equal. lia.
Qed.

Lemma yields_pieces sockfd ds p l : Forall piece ds → length p + length (concat ds) ≤ 1500 →
  yields responder (cl_loop (recv_step sockfd) (Z.of_nat (length p), filled p)) (Served ds l)
    (Z.of_nat (length (p ++ concat ds)), filled (p ++ concat ds), 0%Z) (Served [] l).
Proof using Type.
  intros Hds. revert p; induction Hds as [|d ds [Hd Hdl] _ IH]; intros p Hl; cbn [concat] in *.
  - rewrite app_nil_r. eapply (yields_loop _ _ _ _ (inr _)); [|by split]. unfold recv_step.
    eapply yields_bind; [by apply yields_call|]. cbn. eapply yields_bind; [by apply yields_call|]. apply yields_ret.
  - rewrite length_app in Hl. eapply (yields_loop _ _ _ _ (inl (Z.of_nat (length (p ++ d)), filled (p ++ d)))).
    + unfold recv_step. eapply yields_bind; [by apply yields_call|]. cbv beta iota zeta.
      assert (i32 (Z.of_nat (length d)) = Z.of_nat (length d)) as -> by (apply i32_small; lia).
      rewrite (proj2 (Z.ltb_ge _ _)), (proj2 (Z.eqb_neq _ _)) by (destruct d; [done|simpl; lia]).
      rewrite Nat2Z.id. eapply yields_bind; [apply yields_pure, filled_more; lia|].
      rewrite length_app, Nat2Z.inj_add. apply yields_ret.
    + rewrite app_assoc. apply IH. rewrite length_app. lia.
Qed.

(** A longer answer is written behind the end of the array. *)
Lemma pieces_overflow sockfd ds d ds' p l : Forall piece (ds ++ [d]) →
  length p + length (concat ds) ≤ 1500 → 1500 < length p + length (concat ds) + length d →
  ends responder (cl_loop (recv_step sockfd) (Z.of_nat (length p), filled p)) (Served (ds ++ d :: ds') l)
    (Err Undefined) (Served ds' l).
Proof using Type.
  intros Hds. revert p; induction ds as [|d1 ds IH]; intros p Hl Hover; cbn [concat app] in *;
    apply Forall_cons in Hds as [[Hd Hdl] Hds].
  - apply (ends_iter _ _ _ _ (inr (Err Undefined)) (Served ds' l)); [|by split]. apply (ends_bind _ _ _ _ (Err Undefined) (Served ds' l)); [|apply ends_ret].
    unfold recv_step. eapply after_yields; [by apply yields_call|]. cbv beta iota zeta.
    assert (i32 (Z.of_nat (length d)) = Z.of_nat (length d)) as -> by (apply i32_small; lia).
    rewrite (proj2 (Z.ltb_ge _ _)), (proj2 (Z.eqb_neq _ _)) by (destruct d; [done|simpl; lia]).
    rewrite Nat2Z.id. apply after_error. unfold wrn. rewrite decide_False; [apply ends_ret|].
    unfold filled. rewrite length_app, length_replicate. simpl in *. lia.
  - rewrite length_app in Hl, Hover. eapply (ends_iter _ _ _ _ (inl (Z.of_nat (length (p ++ d1)), filled (p ++ d1)))).
    + apply (ends_bind _ _ _ _ (Ok (inl (Z.of_nat (length (p ++ d1)), filled (p ++ d1)))) (Served (ds ++ d :: ds') l)); [|apply ends_ret].
      unfold recv_step. eapply after_yields; [by apply yields_call|]. cbv beta iota zeta.
      assert (i32 (Z.of_nat (length d1)) = Z.of_nat (length d1)) as -> by (apply i32_small; lia).
      rewrite (proj2 (Z.ltb_ge _ _)), (proj2 (Z.eqb_neq _ _)) by (destruct d1; [done|simpl; lia]).
      rewrite Nat2Z.id. eapply after_yields; [apply yields_pure, filled_more; lia|].
      rewrite length_app, Nat2Z.inj_add. apply ends_ret.
    + apply IH; [done|rewrite length_app; lia|rewrite length_app; lia].
Qed.

Hypothesis numeric : ∀ h, (inet_addr h ≠ INADDR_NONE)%Z.

Lemma yields_Socket host port s : yields responder (Socket inet_addr host port) s 3%Z (Served pieces (seen s)).
Proof using numeric.
  unfold Socket. rewrite (proj2 (Z.eqb_neq _ _)) by done. cbn [negb].
  eapply yields_bind; [by apply yields_pure|]. cbv iota.
  destruct (wrn_at (le_bytes 2 2 ++ replicate 14 x00) 4 (le_bytes 8 (inet_addr host))) as (ad & E & Hl & _);
    [rewrite length_le_bytes; simpl; lia|].
  eapply yields_bind; [apply yields_pure, E|].
  destruct (wrn_at ad 2 (rev (le_bytes 2 port))) as (ad' & E' & _);
    [rewrite length_rev, length_le_bytes, Hl; simpl; lia|].
  eapply yields_bind; [apply yields_pure, E'|].
  eapply yields_bind; [by apply yields_call|]. cbn [Z.ltb Z.compare].
  eapply yields_bind; [by apply yields_call|]. apply yields_ret.
Qed.

Hypothesis pieces_ok : Forall piece pieces.
Local Abbreviation answer := (concat pieces).

(** The first line of the answer. *)
Definition first_line (s : list byte) : list byte := match strchr s x0a with Some p => take p s | None => s end.
(** What one request adds. *)
Definition outcome : counters :=
  if bool_decide (is_Some (strstr (first_line answer) (lit "200 OK")))
  then Counters 1 0 (Z.of_nat (length answer)) else Counters 0 1 (Z.of_nat (length answer)).

(** The request up to the test of the answer. *)
Lemma answer_received host port req s r s' :
  length answer < 1500 → x00 ∉ answer →
  ends responder (ok ← pure (testok (filled answer));
    mret (if (ok : bool) then Counters 1 0 (Z.of_nat (length answer)) else Counters 0 1 (Z.of_nat (length answer))))
    (Served [] (seen s ++ [req])) r s' →
  ends responder (request_once inet_addr host port req) s r s'.
Proof using numeric pieces_ok.
  intros Hl H0 Hk. unfold request_once. eapply after_yields; [apply yields_Socket|]. cbn [Z.ltb Z.compare].
  eapply after_yields; [by apply yields_call|]. rewrite Z.eqb_refl. cbn [negb seen left_pieces].
  eapply (after_yields _ _ _ _ (Z.of_nat (length answer), filled answer, if (0 <? Z.of_nat (length answer))%Z then 1%Z else 0%Z)
    (Served [] (seen s ++ [req]))).
  { unfold recv_buffer. apply (yields_bind _ _ _ _ (Z.of_nat (length answer), filled answer, 0%Z) (Served [] (seen s ++ [req])));
      [|apply yields_ret].
    change (replicate 1500 x00) with (filled []). apply (yields_pieces 3 pieces []); [done|simpl; lia]. }
  assert (((if (0 <? Z.of_nat (length answer))%Z then 1 else 0) <? 0)%Z = false) as -> by (by destruct (0 <? _)%Z).
  exact Hk.
Qed.

Lemma request_counted host port req s :
  length answer < 1500 → x00 ∉ answer → x0a ∈ answer →
  yields responder (request_once inet_addr host port req) s outcome (Served [] (seen s ++ [req])).
Proof using numeric pieces_ok.
  intros Hl H0 Hn. apply answer_received; [done..|].
  assert (testok (filled answer) = Ok (bool_decide (is_Some (strstr (first_line answer) (lit "200 OK"))))) as E.
  { unfold testok, filled. rewrite padded, cstr_app by done. cbn [mbind res_bind]. unfold first_line.
    destruct (strchr answer x0a) as [p|] eqn:Es; [done|]. exfalso. clear -Hn Es.
    induction answer as [|c l IH]; [by apply not_elem_of_nil in Hn|]. cbn [strchr] in Es. case_decide; [done|].
    apply elem_of_cons in Hn as [?|Hn]; [congruence|]. destruct (strchr l x0a); [done|]. by apply IH. }
  eapply yields_bind; [apply yields_pure, E|]. unfold outcome. destruct (bool_decide _); apply yields_ret.
Qed.

(** When every request is answered by a text that fits the array and holds a line feed, a
    coroutine sends its share of the requests, and each is counted once: as a success or a
    failure, by the first line of the answer, and with the length of the answer. *)
Theorem requests_counted g host port req s :
  sockets g ≠ 0%Z → fits (Z.quot (nreqs g) (sockets g)) →
  length answer < 1500 → x00 ∉ answer → x0a ∈ answer →
  let n := Z.to_nat (Z.quot (nreqs g) (sockets g)) in
  ∃ l, yields responder (httprequest_commit inet_addr g host port req) s
    (Counters (Z.of_nat n * speed outcome) (Z.of_nat n * failed outcome) (Z.of_nat n * bytes outcome))
    (Served l (seen s ++ replicate n req)).
Proof using numeric pieces_ok.
  intros Hs Hq Hl H0 Hlf n. unfold httprequest_commit.
  assert (c_div (nreqs g) (sockets g) = Ok (Z.quot (nreqs g) (sockets g))) as Ed
    by (unfold c_div; rewrite decide_False by done; by apply c_int_ok).
  assert (∀ k c s, ∃ l, yields responder (requests inet_addr k host port req c) s
    (plus c (Counters (Z.of_nat k * speed outcome) (Z.of_nat k * failed outcome) (Z.of_nat k * bytes outcome)))
    (Served l (seen s ++ replicate k req))) as Hreq.
  { clear -Hl H0 Hlf numeric pieces_ok. induction k as [|k IH]; intros c s.
    - exists (left_pieces s). cbn [replicate requests]. rewrite app_nil_r. destruct s, c. unfold plus. cbn.
      rewrite !Z.add_0_r. apply yields_ret.
    - destruct (IH (plus c outcome) (Served [] (seen s ++ [req]))) as [l Hy]. exists l. cbn [requests].
      eapply yields_bind; [by apply request_counted|]. cbn [seen replicate] in *. rewrite <- app_assoc in Hy.
      unfold plus in *. cbn [speed failed bytes] in *.
      replace (speed c + Z.of_nat (S k) * speed outcome)%Z with (speed c + speed outcome + Z.of_nat k * speed outcome)%Z by lia.
      replace (failed c + Z.of_nat (S k) * failed outcome)%Z with (failed c + failed outcome + Z.of_nat k * failed outcome)%Z by lia.
      replace (bytes c + Z.of_nat (S k) * bytes outcome)%Z with (bytes c + bytes outcome + Z.of_nat k * bytes outcome)%Z by lia.
      exact Hy. }
  destruct (Hreq n zero s) as [l Hy]. exists l. eapply yields_bind; [apply yields_pure, Ed|]. exact Hy.
Qed.

(** A server that closes without an answer makes [testok] write through the null pointer that
    [strchr] returns. *)
Theorem empty_answer_crashes host port req s : pieces = [] →
  ends responder (request_once inet_addr host port req) s (Err NullDeref) (Served [] (seen s ++ [req])).
Proof using numeric pieces_ok.
  intros E. apply answer_received; rewrite E; [simpl; lia|apply not_elem_of_nil|].
  apply after_error. replace (testok _) with (Err NullDeref : res bool) by (by vm_compute). apply ends_ret.
Qed.

(** An answer of more than 1500 bytes is written behind the end of the array. *)
Theorem long_answer_overflows ds d ds' host port req s :
  pieces = ds ++ d :: ds' → length (concat ds) ≤ 1500 → 1500 < length (concat ds) + length d →
  ends responder (request_once inet_addr host port req) s (Err Undefined) (Served ds' (seen s ++ [req])).
Proof using numeric pieces_ok.
  intros E Hl Hover. pose proof pieces_ok as Hp. rewrite E in Hp. unfold request_once.
  eapply after_yields; [apply yields_Socket|]. cbn [Z.ltb Z.compare].
  eapply after_yields; [by apply yields_call|]. rewrite Z.eqb_refl. cbn [negb seen left_pieces].
  apply after_error. unfold recv_buffer. apply after_error. change (replicate 1500 x00) with (filled []). rewrite E.
  apply (pieces_overflow 3 ds d ds' []); [|done..].
  apply Forall_app in Hp as [? [? _]%Forall_cons]. by apply Forall_app; split; [|constructor].
Qed.
End answers.

(** ** Connections that fail *)

Section leak.
Context `{OS}.
Definition refused (A : Type) (e : apiE A) : A → Prop :=
  match e in apiE A return A → Prop with
  | api_socket _ _ _ => λ s, (0 ≤ s)%Z
  | api_connect _ _ => λ r, (r < 0)%Z
  | api_sys s => match s in sysE A return A → Prop with
                 | sys_gethostbyname _ => λ a, match a with Some a => length a = 4 | None => True end
                 | _ => λ _, True
                 end
  | _ => λ _, True
  end.
Definition never_closes (tr : list acall) (A : Type) (e : apiE A) : Prop :=
  match e with api_close _ => False | _ => True end.

(** When the connection is refused [Socket] fails and does not close the socket, which is lost. *)
Theorem refused_socket_leaks inet_addr host port :
  every_call never_closes refused (Socket inet_addr host port) [] (λ _ r, r = (-1)%Z).
Proof.
  assert (∀ a tr, length a ≤ 8 → every_call never_closes refused
    (ad ← pure (wrn (le_bytes 2 2 ++ replicate 14 x00) 4 a);
     ad ← pure (wrn ad 2 (rev (le_bytes 2 port)));
     sock ← call (api_socket 2 1 0);
     if (sock <? 0)%Z then mret sock
     else r ← call (api_connect sock ad); if (r <? 0)%Z then mret (-1)%Z else mret sock) tr
    (λ _ r, r = (-1)%Z)) as Hk.
  { intros a tr Ha. destruct (wrn_at (le_bytes 2 2 ++ replicate 14 x00) 4 a) as (ad & E & Hl & _); [simpl; lia|].
    eapply ec_bind_pure; [exact E|]. destruct (wrn_at ad 2 (rev (le_bytes 2 port))) as (ad' & E' & _);
      [rewrite length_rev, length_le_bytes, Hl; simpl; lia|].
    eapply ec_bind_pure; [exact E'|]. apply ec_bind_call; [done|]. intros s Hs. change (0 ≤ s)%Z in Hs.
    rewrite (proj2 (Z.ltb_ge _ _)) by lia.
    apply ec_bind_call; [done|]. intros r Hr. change (r < 0)%Z in Hr. rewrite (proj2 (Z.ltb_lt _ _)) by lia. by apply ec_ret. }
  unfold Socket. destruct (negb _).
  - eapply ec_bind_pure; [done|]. apply Hk. by rewrite length_le_bytes.
  - eapply (ec_bind _ _ _ _ _ (λ _ ad, ∀ r, ad = Some r → ∃ a, length a ≤ 8 ∧ r = wrn (le_bytes 2 2 ++ replicate 14 x00) 4 a)).
    + apply ec_bind_call; [done|]. intros [a|] Ha; apply ec_ret; intros r; simpl; intros [= <-].
      exists a. change (length a = 4) in Ha. split; [lia|done].
    + intros tr [r|] Hr; [|by apply ec_ret]. destruct (Hr r eq_refl) as (a & Ha & ->). by apply Hk.
Qed.
End leak.

(** ** The report *)

Lemma scan_space c s : isspace c = true → scan_int (c :: s) = scan_int s.
Proof. intros E. cbn [scan_int]. by rewrite E. Qed.

Lemma scan_digits_read fuel z rest : (0 ≤ z < 10 ^ Z.of_nat fuel)%Z → fuel ≠ 0 →
  scan_digits (digits fuel z rest) 0 = scan_digits rest z.
Proof.
  revert z rest; induction fuel as [|fuel IH]; intros z rest Hz Hf; [done|]. cbn [digits].
  pose proof (Z.mod_pos_bound z 10 ltac:(lia)). pose proof (Z.div_mod z 10 ltac:(lia)) as Hdm.
  destruct (z <? 10)%Z eqn:E.
  - apply Z.ltb_lt in E. rewrite Z.mod_small by lia. cbn [scan_digits].
    rewrite isdigit_digit, bz_digit by lia. f_equal. lia.
  - apply Z.ltb_ge in E. rewrite Nat2Z.inj_succ, Z.pow_succ_r in Hz by lia.
    rewrite IH; [| |intros ->; simpl in Hz; lia].
    + cbn [scan_digits]. rewrite isdigit_digit, bz_digit by lia. f_equal. lia.
    + split; [apply Z.div_pos; lia|]. apply Z.div_lt_upper_bound; lia.
Qed.

Lemma scan_decimal z c rest : (0 ≤ z < 2 ^ 31)%Z → isdigit c = false →
  scan_int (decimal z ++ c :: rest) = Some (z, c :: rest).
Proof.
  intros Hz Hc. rewrite decimal_nat by lia.
  pose proof (scan_digits_read 20 z (c :: rest)
    ltac:(split; [lia|]; eapply Z.lt_le_trans; [apply Hz|by vm_compute]) ltac:(done)) as Hr.
  assert (∀ fuel z acc more, digits fuel z acc ++ more = digits fuel z (acc ++ more)) as Happ.
  { induction fuel as [|fuel IH]; intros z' acc more; [done|]. cbn [digits]. destruct (z' <? 10)%Z; [done|]. apply IH. }
  destruct (digits_all 20 z [] ltac:(lia)) as (l & El & Hl & _ & Hn).
  pose proof (Happ 20 z [] (c :: rest)) as E. cbn [app] in E. rewrite <- E in Hr. rewrite El, app_nil_r in Hr |- *.
  destruct Hl as [|d l Hd Hl]; [by destruct Hn|]. cbn [app] in *.
  destruct (isdigit_plain d Hd) as (Hsp & Hm & Hp & _). cbn [scan_int]. rewrite Hsp.
  rewrite decide_False, decide_False by done. unfold scan_unsigned. rewrite Hd, Hr. cbn [scan_digits]. by rewrite Hc.
Qed.

(** Counters that fit an [int]. *)
Definition counts_ok (c : counters) : Prop :=
  (0 ≤ speed c < 2 ^ 31 ∧ 0 ≤ failed c < 2 ^ 31 ∧ 0 ≤ bytes c < 2 ^ 31)%Z.

Lemma report_read c s i j k : counts_ok c →
  fscanf3 (report c ++ s) i j k = (3, (speed c, failed c, bytes c), x0a :: s) ∧
  fscanf3 (x0a :: report c ++ s) i j k = (3, (speed c, failed c, bytes c), x0a :: s).
Proof.
  intros (H1 & H2 & H3). unfold fscanf3. rewrite scan_space by done. unfold report.
  repeat rewrite <- app_assoc. cbn [app].
  rewrite scan_decimal by done. rewrite scan_space by done. repeat rewrite <- app_assoc. cbn [app].
  rewrite scan_decimal by done. rewrite scan_space by done. repeat rewrite <- app_assoc. cbn [app].
  by rewrite scan_decimal by done.
Qed.

Definition total (l : list counters) : counters := foldr plus zero l.

Lemma total_nonneg l : Forall counts_ok l → (0 ≤ speed (total l) ∧ 0 ≤ failed (total l) ∧ 0 ≤ bytes (total l))%Z.
Proof. induction 1 as [|c l (? & ? & ?) _ IH]; simpl; [lia|]. simpl in IH. lia. Qed.
Lemma plus_assoc a b c : plus a (plus b c) = plus (plus a b) c.
Proof. unfold plus. simpl. by rewrite !Z.add_assoc. Qed.

(** One turn of the loop over a report that is followed by [s]. *)
Lemma collect_report fuel c s text n st sum :
  text = report c ++ s ∨ text = x0a :: report c ++ s → counts_ok c → counts_ok (plus sum c) →
  collect (S fuel) text (Z.of_nat (S n)) st sum =
    if decide (n = 0) then Ok (plus sum c, speed c)
    else collect fuel (x0a :: s) (Z.of_nat n) (speed c, failed c, bytes c) (plus sum c).
Proof.
  intros Ht Hc (? & ? & ?). destruct st as [[i j] k]. destruct (report_read c s i j k Hc) as [E1 E2].
  assert (fscanf3 text i j k = (3, (speed c, failed c, bytes c), x0a :: s)) as E by (destruct Ht as [-> | ->]; done).
  cbn [collect]. rewrite E. rewrite decide_False by lia. unfold plus in *. cbn [speed failed bytes] in *.
  rewrite !c_int_ok by lia. cbn [mbind res_bind]. replace (Z.of_nat (S n) - 1)%Z with (Z.of_nat n) by lia.
  destruct n as [|n]; [done|]. by rewrite decide_False, (proj2 (Z.eqb_neq _ _)) by lia.
Qed.

Lemma collect_reports fuel l last text st sum :
  text = concat (report <$> l ++ [last]) ∨ text = x0a :: concat (report <$> l ++ [last]) →
  length l < fuel → Forall counts_ok (l ++ [last]) → counts_ok sum → counts_ok (plus sum (total (l ++ [last]))) →
  collect fuel text (Z.of_nat (S (length l))) st sum = Ok (plus sum (total (l ++ [last])), speed last).
Proof.
  revert fuel text st sum. induction l as [|c l IH]; intros [|fuel] text st sum Ht Hf Hl Hs Htot; try lia.
  - cbn [app] in *. apply Forall_cons in Hl as [Hc _].
    assert (plus sum (total [last]) = plus sum last) as E by (unfold plus; simpl; by rewrite !Z.add_0_r).
    rewrite E in *. by rewrite (collect_report fuel last []).
  - cbn [app] in *. apply Forall_cons in Hl as [Hc Hl]. pose proof (total_nonneg _ Hl) as (? & ? & ?).
    change (total (c :: l ++ [last])) with (plus c (total (l ++ [last]))) in *. rewrite plus_assoc in *.
    assert (counts_ok (plus sum c)) as Hsc.
    { destruct Hs as (? & ? & ?), Hc as (? & ? & ?), Htot as (? & ? & ?). unfold counts_ok, plus in *. simpl in *. lia. }
    rewrite (collect_report fuel c (concat (report <$> l ++ [last]))) by done. cbn [length] in *.
    rewrite decide_False by done. apply IH; [by right|lia|done..].
Qed.

(** C39: in whatever order the reports of the children arrive, the parent reads every number back
    and adds them all up; but [bench] returns the last child's number of successes, which
    becomes the exit code of the program, instead of zero. *)
Theorem reports_added l last i j k :
  Forall counts_ok (l ++ [last]) → counts_ok (total (l ++ [last])) →
  let arrives := concat (report <$> l ++ [last]) in
  collect (S (length arrives)) arrives (Z.of_nat (S (length l))) (i, j, k) zero = Ok (total (l ++ [last]), speed last).
Proof.
  intros Hl Ht arrives.
  assert (plus zero (total (l ++ [last])) = total (l ++ [last])) as E by (by destruct (total (l ++ [last]))).
  rewrite <- E at 1. apply collect_reports; [by left| |done|done|by rewrite E].
  assert (length (l ++ [last]) ≤ length arrives) as Hlen.
  { unfold arrives. generalize (l ++ [last]). intros ls. induction ls as [|c ls IH]; [done|]. cbn [fmap list_fmap concat length].
    rewrite length_app. unfold report at 1. rewrite length_app. simpl. lia. }
  rewrite length_app in Hlen. simpl in Hlen. lia.
Qed.

(** ** The program *)

Section program.
Context `{OS}.
Variables (getopt_long : list (list byte) → list parsed * list (list byte))
  (benchcore : globals → list byte → list byte → cl counters) (arrives : list byte) (j k : Z).

(** Without arguments, with an option it does not know or a proxy it cannot read, or without a URL
    the program ends with code 2 before it calls anything. *)
Theorem usage_exits argv :
  argv = [] ∨ handle_options defaults (getopt_long argv).1 = Ok (inr 2%Z) ∨
    (∃ g, handle_options defaults (getopt_long argv).1 = Ok (inl g) ∧ (getopt_long argv).2 = []) →
  every_call (λ _ _ _, False) (λ _ _ _, True) (main getopt_long benchcore arrives j k argv) []
    (λ tr r, tr = [] ∧ r = ([], 2%Z)).
Proof.
  unfold main. destruct (decide (argv = [])) as [->|Hne]; [intros _; by apply ec_ret|].
  destruct (getopt_long argv) as [options operands]. cbn [fst snd].
  intros [?|[E|(g & E & ->)]]; [done|..]; (eapply ec_bind_pure; [exact E|]); by apply ec_ret.
Qed.

(** With a URL of a host, perhaps a port, and a path the program forks its processes with the
    variables [clamp] leaves and the request of that URL, prints what it is about to do, and
    returns the code of [bench]. *)
Theorem main_runs_bench argv options g h port tl more allowed answers Q tr :
  let url := lit "http://" ++ (h ++ port_text port) ++ x2f :: tl in
  argv ≠ [] → getopt_long argv = (options, url :: more) →
  Forall parsed_ok options → handle_options defaults options = Ok (inl g) →
  (sockets g, clients g) ≠ (- 2 ^ 31, -1)%Z → proxyhost g = None →
  host_name h → port_ok port → x00 ∉ tl → length url ≤ 1500 →
  (∀ g' host request, clamp g = Ok g' → let g2 := with_port (raise_version g') port in
    cstr host = Ok h →
    cstr request = Ok (method_name (method g') ++ lit " " ++ (x2f :: tl) ++ headers_text (raise_version g') true h) →
    every_call allowed answers (bench (benchcore g2 host request) arrives j k g2) tr
      (λ tr code, Q tr (announce g2 url, code))) →
  every_call allowed answers (main getopt_long benchcore arrives j k argv) tr Q.
Proof.
  intros url Hargv Eg Hok Eo Hne Hproxy Hh Hport H0 Hl Hbench. unfold main.
  rewrite decide_False by done. rewrite Eg.
  eapply ec_bind_pure; [exact Eo|]. cbv beta iota.
  destruct (options_clamped options g Hok Eo Hne) as (g' & Ec & _).
  eapply ec_bind_pure; [exact Ec|]. cbv beta.
  destruct (url_request g' h port tl) as (host & request & Eb & Hhost & Hreq); try done.
  { by rewrite (clamp_proxy g g' Ec). }
  eapply ec_bind_pure; [exact Eb|]. cbv beta iota.
  eapply ec_bind; [by apply (Hbench g' host request)|]. intros tr' code HQ. by apply ec_ret.
Qed.
End program.

(** ** Witnesses *)


Lemma host_overflow_witness :
  build_request defaults (lit "http://" ++ replicate 65 x41 ++ x2f :: []) = Err Undefined.
Proof.
  apply (host_overflow defaults (replicate 65 x41) []).
  - reflexivity.
  - apply (bool_decide_unpack _). vm_compute. exact I.
  - apply (bool_decide_unpack _). vm_compute. exact I.
  - vm_compute. lia.
  - vm_compute. lia.
Defined.

Lemma send_buffer_prefix_witness :
  every_call (λ _ _ _, True) sends (send_buffer 7 (lit "hello")) []
    (λ tr r, (0 ≤ r ≤ 5)%Z ∧ accepted tr = take (Z.to_nat r) (lit "hello")).
Proof. apply (send_buffer_prefix 7 (lit "hello")). vm_compute. reflexivity. Defined.

(** Three clients and ten sockets. *)
Lemma options_typed_witness :
  ∃ g', clamp (Globals 1 0 3 0 10 0 0 80 None 30) = Ok g' ∧ well_formed g' ∧ ready g' ∧
    benchcore_coroutines g' = Ok (Z.to_nat (Z.quot (sockets g') (clients g'))).
Proof.
  apply (options_typed [short x63 (lit "3"); short x73 (lit "10")]).
  - repeat constructor; apply (bool_decide_unpack _); vm_compute; exact I.
  - vm_compute. reflexivity.
  - discriminate.
Defined.

Definition ok_answer : list (list byte) := [lit "HTTP/1.0 200 OK" ++ [x0d; x0a]; lit "text"].
Lemma ok_pieces : Forall piece ok_answer.
Proof. repeat constructor; first [discriminate | vm_compute; lia]. Qed.

Lemma requests_counted_witness :
  ∃ l, yields (responder ok_answer)
    (httprequest_commit (λ _, 1%Z) (Globals 1 0 1 6 3 0 0 80 None 30) (lit "h") 80 (lit "r")) (Served [] [])
    (Counters (Z.of_nat 2 * 1) (Z.of_nat 2 * 0) (Z.of_nat 2 * 21)) (Served l ([] ++ [lit "r"; lit "r"])).
Proof.
  apply (requests_counted (λ _, 1%Z) ok_answer ltac:(done) ok_pieces (Globals 1 0 1 6 3 0 0 80 None 30) (lit "h") 80 (lit "r")
    (Served [] [])).
  - discriminate.
  - vm_compute. split; [discriminate|reflexivity].
  - vm_compute. lia.
  - apply (bool_decide_unpack _). vm_compute. exact I.
  - apply (bool_decide_unpack _). vm_compute. exact I.
Defined.

Lemma empty_answer_crashes_witness :
  ends (responder []) (request_once (λ _, 1%Z) (lit "h") 80 (lit "r")) (Served [] []) (Err NullDeref)
    (Served [] ([] ++ [lit "r"])).
Proof. apply (empty_answer_crashes (λ _, 1%Z) [] ltac:(done)); [constructor|reflexivity]. Defined.

Lemma long_answer_overflows_witness :
  ends (responder [replicate 1000 x41; replicate 1000 x41]) (request_once (λ _, 1%Z) (lit "h") 80 (lit "r"))
    (Served [] []) (Err Undefined) (Served [] ([] ++ [lit "r"])).
Proof.
  apply (long_answer_overflows (λ _, 1%Z) _ ltac:(done)) with (ds := [replicate 1000 x41]) (d := replicate 1000 x41).
  - repeat constructor; first [discriminate | vm_compute; lia].
  - reflexivity.
  - vm_compute. lia.
  - vm_compute. lia.
Defined.

Lemma reports_added_witness :
  collect 13 (concat [lit "1 2 3" ++ [x0a]; lit "4 5 6" ++ [x0a]]) 2 (0, 0, 0)%Z zero = Ok (Counters 5 7 9, 4%Z).
Proof.
  apply (reports_added [Counters 1 2 3] (Counters 4 5 6) 0 0 0).
  - repeat constructor; simpl; lia.
  - repeat split; simpl; lia.
Defined.
