(* ===== verification/Samples.v ===== *)
(** The sample servers running on the library: their coroutines make no timed sleep, so that
    whole programs are safe, whatever the system answers. *)

From S2P Require Export Boot RBSet Fifo WebSocketProps HttpProps SmallSamples HttpdProps ServerMulcore HttpMulcore.

Section quiet.
Context `{OS}.





End quiet.


Section samples.
Context `{OS}.











End samples.

